(* ===== verification/_CoqProject ===== *)
-Q . S2P
Prelude.v
OrderedMerge.v
SlotOrder.v
Bitmap.v
OrderValidation.v
NaturalOrder.v
Text.v
QueryLex.v
Float.v
QueryNumber.v
QuerySyntax.v
QueryParse.v
TextView.v
FileEntry.v
SlotSort.v
ResultOrder.v
Paths.v
TextMatch.v
QueryEval.v
Forest.v
Relations.v
Columns.v
IntegerColumn.v
FloatOrder.v
PostingMap.v
MetadataPostings.v
TextPool.v
EntryChunk.v
EntryPool.v
EntryCompact.v
EntryTable.v
FileSlots.v
SnapshotOrders.v
SnapshotSort.v
NumericRange.v
NumericColumns.v
NameColumn.v
SnapshotData.v
SnapshotRemap.v
SnapshotUpdate.v
SnapshotQuery.v
AsciiQuery.v
Search.v
SearchPage.v
PathScopes.v
ChangeEvents.v
SnapshotLeases.v
WorkerBudget.v
