(* ===== verification/Prelude.v ===== *)
(** * APFSearch core: a verification library

    APFSearch indexes the names and metadata of files and answers queries about
    them.  This library models the core of the program (the Rust crate under
    src/core/src/) and proves what each part promises to the next.  Definitions
    are executable and follow the source function by function, with its names;
    panics and failed allocations of room are [None], errors of the program are
    values ([result], sums), and code that polls a cancellation flag is in the
    monad [polled], whose results are the value or the cancellation, whenever
    the flag is set ([cancels_to]).

    ** The path of a query

    - A query text is read by the lexer (QueryLex: [lex] of query.rs), the
      operands and options of its atoms (QueryNumber, QuerySyntax) and the
      expression machine with its explicit stack (QueryParse: [Parser]).
    - A row is evaluated by matchers (TextMatch: [TextMatcher]) and the
      evaluator with its caches (QueryEval: [impl Query], [impl Term]).  Paths
      are read as two halves (TextView: text_view.rs).  Queries about parents,
      children and ancestors go through the directory hierarchy (Forest,
      Relations: relations.rs).
    - A snapshot answers from its indexes (SnapshotQuery: index_store.rs) out
      of the postings of metadata (PostingMap, MetadataPostings), the numeric
      columns (NumericRange, NumericColumns), trigrams, and scans of the name
      and path columns (NameColumn).
    - The matches are put in the requested order (ResultOrder, NaturalOrder,
      SlotSort: result_order.rs; SnapshotSort for the orders a snapshot keeps),
      and a page of them is returned (Search, SearchPage: [query_inner] of
      lib.rs).

    ** The path of a change

    - File events fill a bounded queue and become a plan of what to rescan
      (ChangeEvents), over paths, namespaces and scopes (PathScopes); both are
      from scanner.rs.
    - Rows are kept in blocks of columns (Columns, IntegerColumn, TextPool,
      EntryChunk, EntryPool, EntryCompact, EntryTable: entry_table.rs,
      integer_column.rs, text_pool.rs), behind the interface a query reads
      (FileEntry).  Slots of persistent ids are in FileSlots.
    - A snapshot is built from rows (SnapshotData) and the next one is made
      from it and a batch of changes, in place or with compaction
      (SnapshotUpdate, SnapshotRemap); sorted orders and their ties are
      repaired, not sorted again (SnapshotOrders, SlotOrder, OrderedMerge), and
      a stored order is validated before use (OrderValidation).

    ** Around both

    - SnapshotLeases: snapshots kept for operations of several requests.
    - WorkerBudget: admission of threads to the processors.
    - Text, Float, FloatOrder, Paths, Bitmap: Rust's [str], [f64] and paths, and
      the interface of the bitmaps; this file: lists, machine integers, the
      comparison classes and the monad of cancellation.

    ** What the theorems show

    - Refinement: every snapshot of a history is the list of its visible rows
      (SnapshotUpdate); tables, columns, slots, postings and orders are the
      lists, maps and sorted lists they stand for; the parsing machine is the
      recursive descent of the grammar; a search is the window of the sorted
      matches (SearchPage).
    - Exactness: bitmap answers, column scans, numeric ranges, relations and
      folder counts are the evaluation of the query on every row.
    - Totality: lexer, parser, sorts, merges and updates end, without panics.
    - Round trips: tokens through the lexer, quoted text through the parser,
      integer columns through their encoding.
    - Safety and liveness: no change is lost between the event queue and the
      plan, a lease is held until its deadline, permits are conserved, and
      every request for a processor ends once disturbances cease.

    ** What modelling found

    - Name matchers that compare case or diacritics narrow by the composed
      folding of their operand, and lose matches for some operands outside
      ASCII ([narrowing_loses_composed] in SnapshotQuery).  The theorems on
      candidates and on searches are for queries without such operands
      ([narrowable] in QueryEval); every query parsed from ASCII text is one of
      these (AsciiQuery).
    - A full event queue drops a queued end of history
      ([full_queue_forgets_history_done] in ChangeEvents).
    - Background work that checkpoints without end can overtake a woken query
      ([checkpoints_overtake] in WorkerBudget).

    ** Parameters

    Third-party code is behind classes, with what the code relies on as laws in
    classes of their own, each with an executable instance: Unicode
    normalization and case folding ([Unicode]; [SlashUnicode] and
    [UnicodeAscii] for their behaviour on separators and ASCII), patterns
    ([Pcre]), calendars ([Chrono]), JSON values ([Json], [JsonShape], up to
    [==]), substring search ([Memmem]), bitmaps and their encoding ([Roaring],
    [RoaringBytes]), the unstable sort of the standard library
    ([UnstableSort]), and the firmlinks and aliases of the system
    ([FileNamespace]).  Cache files mapped into memory are the values they were
    validated to hold.  Atomics are sequentially consistent.

    ** Bounds and fuel

    Integers keep their width where an operation of the code can reach it;
    limits of room (32-bit offsets into a block's text, about 2 GiB; 32-bit
    slots and label counters) are hypotheses.  Loops that are not structural
    have fuel computed from their input (one more than the characters left,
    the slots left, the bits of a number), and each has a lemma that the fuel
    is enough, so results are proved to exist and not assumed.  Every turn of
    the parser spends an expression of its budget, closes a suspended frame or
    passes an operator, and its fuel counts these.

    ** Not modelled

    Input and output (directory enumeration, FSEvents, SQLite, cache files,
    XPC), the byte budgets of caches, the retirement of snapshots, diagnostics,
    duplicates and imports, settings and JSON of the service, and the Swift
    application: glue over systems whose code is not here. *)

From stdpp Require Export base tactics list sorting numbers gmap strings.
From Stdlib Require Export Lia ZifyNat ZifyN.

#[export] Set Default Goal Selector "!".
(** [lia] understands division and remainder by constants. *)
Ltac Zify.zify_post_hook ::= Z.div_mod_to_equations.
#[global] Open Scope nat_scope.

(** ** Machine integers

    [usize], [u32] and [u64] values are natural numbers.  Positions and
    lengths are [nat]; values whose width or bits matter are [N].  The
    width is written out wherever an operation of the code can reach it. *)

Definition u32_max : N := 4294967295.
Definition u64_max : N := 18446744073709551615.
Definition usize_max : N := u64_max.

(** [usize::saturating_mul], [usize::saturating_add] *)
Definition sat_mul (a b : nat) : nat :=
  N.to_nat (N.min usize_max (N.of_nat a * N.of_nat b)).
Definition sat_add (a b : nat) : nat :=
  N.to_nat (N.min usize_max (N.of_nat a + N.of_nat b)).

(** [usize::div_ceil]; the divisor is a positive constant wherever it is used. *)
Definition div_ceil (a b : nat) : nat :=
  if a mod b =? 0 then a / b else S (a / b).

(** [u64::checked_add], [usize::checked_add] *)
Definition u64_checked_add (a b : N) : option N :=
  if (a + b <=? u64_max)%N then Some (a + b)%N else None.
Definition usize_checked_add (a b : nat) : option nat :=
  if (N.of_nat (a + b) <=? usize_max)%N then Some (a + b) else None.

(** Bits of a [u64]: [<<] drops the bits shifted out, [!] complements. *)
Definition u64_shl (x k : N) : N := N.land (N.shiftl x k) u64_max.
Definition u64_shr (x k : N) : N := N.shiftr x k.
Definition u64_not (x : N) : N := N.lxor x u64_max.

Lemma testbit_u64_max i : N.testbit u64_max i = (i <? 64)%N.
Proof.
  change u64_max with (N.ones 64). destruct (N.ltb_spec i 64).
  - by apply N.ones_spec_low.
  - by apply N.ones_spec_high.
Qed.
Lemma testbit_u64_shl x k i :
  N.testbit (u64_shl x k) i = (k <=? i)%N && (i <? 64)%N && N.testbit x (i - k).
Proof.
  unfold u64_shl. rewrite N.land_spec, testbit_u64_max.
  destruct (N.leb_spec k i); simpl.
  - by rewrite N.shiftl_spec_high', andb_comm by done.
  - by rewrite N.shiftl_spec_low.
Qed.
Lemma testbit_u64_shr x k i : N.testbit (u64_shr x k) i = N.testbit x (i + k).
Proof. apply N.shiftr_spec'. Qed.
Lemma testbit_u64_not x i : (i < 64)%N → N.testbit (u64_not x) i = negb (N.testbit x i).
Proof.
  intros Hi. unfold u64_not. rewrite N.lxor_spec, testbit_u64_max.
  rewrite (proj2 (N.ltb_lt i 64)) by done. by destruct (N.testbit x i).
Qed.
Lemma testbit_u64_one k i : (k < 64)%N → N.testbit (u64_shl 1 k) i = (i =? k)%N.
Proof.
  intros Hk. rewrite testbit_u64_shl. destruct (N.leb_spec k i), (N.ltb_spec i 64); simpl.
  - destruct (N.eqb_spec i k) as [->|]; [by rewrite N.sub_diag|].
    destruct (i - k)%N as [|p] eqn:E; [lia|]. by destruct p.
  - destruct (N.eqb_spec i k); [lia|done].
  - destruct (N.eqb_spec i k); [lia|done].
  - destruct (N.eqb_spec i k); [lia|done].
Qed.

(** ** Rust's [Ordering] is Rocq's [comparison] *)

Definition is_gt (c : comparison) : bool :=
  match c with Gt => true | _ => false end.
Definition is_lt (c : comparison) : bool :=
  match c with Lt => true | _ => false end.
Definition is_eq (c : comparison) : bool :=
  match c with Eq => true | _ => false end.
(** [Ordering::then_with] *)
Definition then_with (c d : comparison) : comparison :=
  match c with Eq => d | _ => c end.

(** A comparator the way [Ord] documents it: antisymmetric under reversal and
    transitive.  [Eq] need not mean equality. *)
Class TotalPreorder {A} (compare : A → A → comparison) : Prop := {
  compare_opp x y : compare y x = CompOpp (compare x y);
  compare_le_trans x y z :
    compare x y ≠ Gt → compare y z ≠ Gt → compare x z ≠ Gt;
}.
(** A comparator whose [Eq] is equality, as a total order on identities. *)
Class TotalOrder {A} (compare : A → A → comparison) : Prop := {
  total_order_preorder :: TotalPreorder compare;
  compare_eq_eq x y : compare x y = Eq → x = y;
}.
Arguments compare_opp {A} compare {_} x y.
Arguments compare_le_trans {A} compare {_} x y z.
Arguments compare_eq_eq {A} compare {_} x y.

Definition cmp_le {A} (compare : A → A → comparison) (x y : A) : Prop :=
  compare x y ≠ Gt.
Definition cmp_lt {A} (compare : A → A → comparison) (x y : A) : Prop :=
  compare x y = Lt.

#[export] Instance cmp_le_dec {A} (compare : A → A → comparison) :
  RelDecision (cmp_le compare).
Proof. intros x y. unfold cmp_le. destruct (compare x y); (by left) || (right; tauto). Defined.

Section comparators.
Context {A : Type} (compare : A → A → comparison) `{!TotalPreorder compare}.

Lemma compare_refl x : compare x x = Eq.
Proof. pose proof (compare_opp compare x x) as H. by destruct (compare x x). Qed.
Lemma cmp_le_preorder : PreOrder (cmp_le compare).
Proof.
  split.
  - intros x. unfold cmp_le. by rewrite compare_refl.
  - intros x y z. apply (compare_le_trans compare).
Qed.
Lemma cmp_le_total : Total (cmp_le compare).
Proof.
  intros x y. unfold cmp_le. rewrite (compare_opp compare x y).
  destruct (compare x y); simpl; auto; left; done.
Qed.
Lemma cmp_gt_lt x y : compare x y = Gt → cmp_lt compare y x.
Proof. intros H. unfold cmp_lt. by rewrite (compare_opp compare x y), H. Qed.
Lemma cmp_lt_le x y : cmp_lt compare x y → cmp_le compare x y.
Proof. unfold cmp_lt, cmp_le. congruence. Qed.
Lemma is_gt_false x y : is_gt (compare x y) = false ↔ cmp_le compare x y.
Proof. unfold cmp_le. destruct (compare x y); simpl; split; congruence. Qed.
Lemma is_lt_true x y : is_lt (compare x y) = true ↔ cmp_lt compare x y.
Proof. unfold cmp_lt. destruct (compare x y); simpl; split; congruence. Qed.
Lemma is_lt_false x y : is_lt (compare x y) = false ↔ cmp_le compare y x.
Proof.
  unfold cmp_le. rewrite (compare_opp compare x y).
  destruct (compare x y); simpl; split; congruence.
Qed.
Lemma cmp_lt_le_trans x y z :
  cmp_lt compare x y → cmp_le compare y z → cmp_lt compare x z.
Proof.
  intros Hxy Hyz. destruct (compare x z) eqn:Hxz; [|done|].
  - exfalso. assert (cmp_le compare z x) as Hzx.
    { unfold cmp_le. by rewrite (compare_opp compare x z), Hxz. }
    assert (cmp_le compare y x) as Hyx by (eapply (compare_le_trans compare); eauto). unfold cmp_le, cmp_lt in *.
    rewrite (compare_opp compare x y), Hxy in Hyx. done.
  - exfalso. eapply (compare_le_trans compare x y z); unfold cmp_lt, cmp_le in *; congruence.
Qed.
Lemma cmp_le_lt_trans x y z :
  cmp_le compare x y → cmp_lt compare y z → cmp_lt compare x z.
Proof.
  intros Hxy Hyz. destruct (compare x z) eqn:Hxz; [|done|];
    exfalso; assert (cmp_le compare z x) as Hzx
      by (unfold cmp_le; rewrite (compare_opp compare x z), Hxz; done);
    pose proof (compare_le_trans compare z x y Hzx Hxy) as Hzy;
    unfold cmp_lt in Hyz; rewrite (compare_opp compare y z), Hyz in Hzy; done.
Qed.
End comparators.
#[export] Existing Instance cmp_le_preorder.
#[export] Instance cmp_le_antisymm {A} (compare : A → A → comparison) :
  TotalOrder compare → AntiSymm (=) (cmp_le compare).
Proof.
  intros Ht x y Hxy Hyx. apply (compare_eq_eq compare). unfold cmp_le in *.
  rewrite (compare_opp compare x y) in Hyx. by destruct (compare x y).
Qed.
#[export] Existing Instance cmp_le_total.

#[export] Instance Ncompare_total : TotalOrder N.compare.
Proof.
  repeat split.
  - intros x y. apply N.compare_antisym.
  - intros x y z ??. apply N.compare_le_iff. transitivity y; by apply N.compare_le_iff.
  - intros x y. apply N.compare_eq.
Qed.

(** ** Errors *)

(** [Result<T, String>] *)
Inductive result (A : Type) : Type :=
| Ok (a : A)
| Err (e : string).
Arguments Ok {A} a.
Arguments Err {A} e.

#[export] Instance result_ret : MRet result := λ A a, Ok a.
#[export] Instance result_bind : MBind result := λ A B f m,
  match m with Ok a => f a | Err e => Err e end.
#[export] Instance result_fmap : FMap result := λ A B f m,
  match m with Ok a => Ok (f a) | Err e => Err e end.
Definition ok {A} (r : result A) : option A :=
  match r with Ok a => Some a | Err _ => None end.
Definition ok_or {A} (o : option A) (e : string) : result A :=
  match o with Some a => Ok a | None => Err e end.
(** [iter.map(f).collect::<Result<Vec<_>, _>>()]: stops at the first error. *)
Fixpoint result_map {A B} (f : A → result B) (l : list A) : result (list B) :=
  match l with
  | [] => Ok []
  | x :: l => y ← f x; ys ← result_map f l; Ok (y :: ys)
  end.

Lemma result_bind_Ok {A B} (m : result A) (f : A → result B) y :
  m ≫= f = Ok y ↔ ∃ x, m = Ok x ∧ f x = Ok y.
Proof. destruct m; simpl; naive_solver. Qed.
(** A loop that may panic. *)
Definition fold_option {A B} (f : B → A → option B) : list A → B → option B :=
  fix go l b := match l with [] => Some b | x :: l => b ← f b x; go l b end.
Lemma result_map_Forall2 {A B} (f : A → result B) l ys :
  result_map f l = Ok ys → Forall2 (λ x y, f x = Ok y) l ys.
Proof.
  revert ys. induction l as [|x l IH]; intros ys; simpl.
  - intros [= <-]. constructor.
  - intros (y & Hy & (ys' & Hys & [= <-])%result_bind_Ok)%result_bind_Ok. constructor; auto.
Qed.

(** ** Cooperative cancellation

    A long-running routine polls an [AtomicBool] that another thread may set
    at any time.  A run is given the sequence of values its polls read
    ([cancelled k] is the [k]-th one) and the number of polls made so far. *)

Definition query_cancelled : string := "Query cancelled".
Definition polled (A : Type) : Type := (nat → bool) → nat → result A * nat.

#[export] Instance polled_ret : MRet polled := λ A a _ n, (Ok a, n).
#[export] Instance polled_bind : MBind polled := λ A B f m cancelled n,
  match m cancelled n with
  | (Ok a, n) => f a cancelled n
  | (Err e, n) => (Err e, n)
  end.
Definition p_lift {A} (r : result A) : polled A := λ _ n, (r, n).
(** [if cancelled.load(..) { return Err("Query cancelled".into()) }] *)
Definition check_cancelled : polled () := λ cancelled n,
  (if cancelled n then Err query_cancelled else Ok (), S n).
(** [if position % every == 0 { check }] *)
Definition check_every (every position : nat) : polled () :=
  if position mod every =? 0 then check_cancelled else mret ().
Fixpoint p_fold {A B} (f : B → A → polled B) (l : list A) (b : B) : polled B :=
  match l with
  | [] => mret b
  | x :: l => b ← f b x; p_fold f l b
  end.

(** [cancels_to m r]: run against any polls, [m] either sees no cancellation
    and gives [r], or sees one and gives the cancellation error.  Cancellation
    can stop a routine; it can never change its result. *)
Definition cancels_to {A} (m : polled A) (r : result A) : Prop :=
  ∀ cancelled n, ∃ n', n ≤ n' ∧
    ((m cancelled n = (r, n') ∧ ∀ k, n ≤ k < n' → cancelled k = false) ∨
     (m cancelled n = (Err query_cancelled, n') ∧
      ∃ k, n ≤ k < n' ∧ cancelled k = true)).

Lemma cancels_ret {A} (a : A) : cancels_to (mret a) (Ok a).
Proof. intros c n. exists n. split; [lia|]. left. split; [done|lia]. Qed.
Lemma cancels_lift {A} (r : result A) : cancels_to (p_lift r) r.
Proof. intros c n. exists n. split; [lia|]. left. split; [done|lia]. Qed.
Lemma cancels_check : cancels_to check_cancelled (Ok ()).
Proof.
  intros c n. exists (S n). split; [lia|]. unfold check_cancelled.
  destruct (c n) eqn:Hc; [right|left]; split; try done.
  - exists n. split; [lia|done].
  - intros k Hk. by replace k with n by lia.
Qed.
Lemma cancels_check_every every position : cancels_to (check_every every position) (Ok ()).
Proof. unfold check_every. case_match; [apply cancels_check|apply cancels_ret]. Qed.
Lemma cancels_bind {A B} (m : polled A) (f : A → polled B) a r :
  cancels_to m (Ok a) → cancels_to (f a) r → cancels_to (m ≫= f) r.
Proof.
  intros Hm Hf c n. destruct (Hm c n) as (n1 & Hle1 & [[Heq Hk]|[Heq Hk]]).
  - destruct (Hf c n1) as (n2 & Hle2 & Hf2). exists n2. split; [lia|].
    unfold mbind, polled_bind. rewrite Heq.
    destruct Hf2 as [[Hr Hk2]|[Hr (k & Hkr & Hkc)]]; [left|right]; split; try done.
    + intros k ?. destruct (decide (k < n1)); [apply Hk|apply Hk2]; lia.
    + exists k. split; [lia|done].
  - exists n1. split; [lia|]. right. unfold mbind, polled_bind. by rewrite Heq.
Qed.
Lemma cancels_bind_err {A B} (m : polled A) (f : A → polled B) e :
  cancels_to m (Err e) → cancels_to (m ≫= f) (Err e).
Proof.
  intros Hm c n. destruct (Hm c n) as (n1 & Hle1 & [[Heq Hk]|[Heq Hk]]);
    exists n1; (split; [lia|]); unfold mbind, polled_bind; rewrite Heq; eauto.
Qed.
Lemma cancels_fold {A B} (f : B → A → polled B) (g : B → A → B) l b :
  (∀ b x, x ∈ l → cancels_to (f b x) (Ok (g b x))) →
  cancels_to (p_fold f l b) (Ok (foldl g b l)).
Proof.
  revert b. induction l as [|x l IH]; intros b Hf; simpl; [apply cancels_ret|].
  eapply cancels_bind; [apply Hf; left|].
  apply IH. intros. apply Hf. by right.
Qed.
(** Never cancelled, a routine gives exactly its result. *)
Lemma cancels_never {A} (m : polled A) r cancelled n :
  cancels_to m r → (∀ k, cancelled k = false) → (m cancelled n).1 = r.
Proof.
  intros Hm Hc. destruct (Hm cancelled n) as (n' & _ & [[-> _]|[_ (k & _ & Hk)]]); [done|].
  by rewrite Hc in Hk.
Qed.

(** A loop with an invariant: it gives a result, and the invariant holds of it. *)
Lemma cancels_fold_inv {A B} (f : B → A → polled B) (I : nat → B → Prop) l b :
  I 0 b →
  (∀ i x b, l !! i = Some x → I i b → ∃ b', cancels_to (f b x) (Ok b') ∧ I (S i) b') →
  ∃ r, cancels_to (p_fold f l b) (Ok r) ∧ I (length l) r.
Proof.
  revert I b. induction l as [|x l IH]; intros I b H0 Hs; simpl.
  { exists b. split; [apply cancels_ret|done]. }
  destruct (Hs 0 x b eq_refl H0) as (b1 & Hb1 & H1).
  destruct (IH (λ i, I (S i)) b1 H1) as (r & Hr & HI); [intros i; apply (Hs (S i))|].
  exists r. split; [by eapply cancels_bind|done].
Qed.

(** Indexing in a polled routine; the panic is an error of its own, and the
    theorems show that it is never the result. *)
Definition panicked : string := "panicked".
Definition p_some {A} (o : option A) : polled A := p_lift (ok_or o panicked).
Lemma cancels_some {A} (o : option A) a : o = Some a → cancels_to (p_some o) (Ok a).
Proof. intros ->. apply cancels_lift. Qed.

Create HintDb cancels.
#[export] Hint Resolve cancels_ret cancels_lift cancels_check cancels_check_every : cancels.

(** ** Slices *)

(** [slice.chunks(n)]; [n] is positive wherever the code calls it. *)
Fixpoint chunks_fuel {A} (fuel n : nat) (l : list A) : list (list A) :=
  match fuel, l with
  | S fuel, _ :: _ => take n l :: chunks_fuel fuel n (drop n l)
  | _, _ => []
  end.
Definition chunks {A} (n : nat) (l : list A) : list (list A) :=
  chunks_fuel (length l) n l.

Lemma chunks_fuel_spec {A} fuel n (l : list A) :
  0 < n → length l ≤ fuel →
  concat (chunks_fuel fuel n l) = l ∧
  Forall (λ c, c ≠ [] ∧ length c ≤ n) (chunks_fuel fuel n l).
Proof.
  intros Hn. revert l. induction fuel as [|fuel IH]; intros [|x l] Hl;
    simpl in *; try lia; try (split; [done|constructor]).
  destruct (IH (drop n (x :: l))) as [Hc Hf].
  { rewrite length_drop. simpl. lia. }
  split.
  - by rewrite Hc, take_drop.
  - constructor; [|done]. split; [|rewrite length_take; lia].
    destruct n; [lia|done].
Qed.
Lemma chunks_concat {A} n (l : list A) : 0 < n → concat (chunks n l) = l.
Proof. intros. by apply chunks_fuel_spec. Qed.
Lemma chunks_nonempty {A} n (l : list A) :
  0 < n → Forall (λ c, c ≠ [] ∧ length c ≤ n) (chunks n l).
Proof. intros. by apply chunks_fuel_spec. Qed.

(** [&slice[i..j]], for [i] and [j] in range. *)
Definition window {A} (l : list A) (i j : nat) : list A := take (j - i) (drop i l).
(** [(start..end).step_by(step)] from 0 *)
Definition step_by (end_ step : nat) : list nat := (λ k, k * step) <$> seq 0 (div_ceil end_ step).

Lemma div_ceil_cover a b : 0 < b → a ≤ div_ceil a b * b ∧ ∀ k, k < div_ceil a b → k * b < a.
Proof.
  intros Hb. unfold div_ceil. pose proof (Nat.div_mod_eq a b).
  pose proof (Nat.mod_upper_bound a b). destruct (Nat.eqb_spec (a mod b) 0); (split; [nia|intros k ?; nia]).
Qed.
Lemma window_length {A} (l : list A) i j : j ≤ length l → length (window l i j) = j - i.
Proof. intros. unfold window. rewrite length_take, length_drop. lia. Qed.
Lemma window_nil {A} (l : list A) i j : j ≤ i → window l i j = [].
Proof. intros. unfold window. by replace (j - i) with 0 by lia. Qed.
Lemma window_cons {A} (l : list A) i j :
  i < j → j ≤ length l → ∃ x, l !! i = Some x ∧ window l i j = x :: window l (S i) j.
Proof.
  intros Hij Hj. destruct (lookup_lt_is_Some_2 l i) as [x Hx]; [lia|]. exists x. split; [done|].
  unfold window. rewrite (drop_S _ x i) by done. by replace (j - i) with (S (j - S i)) by lia.
Qed.
Lemma window_app {A} (a b : list A) i j :
  length a ≤ i → window (a ++ b) i j = window b (i - length a) (j - length a).
Proof.
  intros. unfold window. rewrite drop_app_ge by done.
  by replace (j - length a - (i - length a)) with (j - i) by lia.
Qed.
Lemma take_window {A} (l : list A) i j : i ≤ j → take j l = take i l ++ window l i j.
Proof.
  intros. unfold window. by rewrite take_take_drop, Nat.add_sub_assoc, Nat.add_comm, Nat.add_sub.
Qed.
Lemma window_split {A} (l : list A) i j k : i ≤ j → j ≤ k → window l i k = window l i j ++ window l j k.
Proof.
  intros. unfold window. replace (k - i) with ((j - i) + (k - j)) by lia.
  rewrite <-take_take_drop, drop_drop. by replace (i + (j - i)) with j by lia.
Qed.

(** [slice.copy_within(start..end, dest)]; [None] is the panic. *)
Definition copy_within {A} (start end_ dest : nat) (l : list A) : option (list A) :=
  if decide (start ≤ end_ ∧ end_ ≤ length l ∧ dest + (end_ - start) ≤ length l) then
    Some (take dest l ++ take (end_ - start) (drop start l) ++ drop (dest + (end_ - start)) l)
  else None.
(** [slice[i] = x]; [None] is the panic. *)
Definition set_index {A} (i : nat) (x : A) (l : list A) : option (list A) :=
  if decide (i < length l) then Some (<[i:=x]> l) else None.

(** [slice.binary_search_by(f)], the loop of the standard library: [inl] is
    [Ok] and [inr] is [Err].  With several equal elements any of them may be
    found, which is what the theorems allow. *)
Fixpoint bsearch_loop {A} (f : A → comparison) (l : list A) (fuel base size : nat) : nat :=
  match fuel with
  | O => base
  | S fuel =>
    if decide (1 < size) then
      let half := size / 2 in
      let mid := base + half in
      let base' :=
        match l !! mid with
        | Some x => if is_gt (f x) then base else mid
        | None => base
        end in
      bsearch_loop f l fuel base' (size - half)
    else base
  end.
Definition binary_search_by {A} (f : A → comparison) (l : list A) : nat + nat :=
  match length l with
  | O => inr 0
  | size =>
    let base := bsearch_loop f l size 0 size in
    match l !! base with
    | Some x => match f x with Eq => inl base | Lt => inr (base + 1) | Gt => inr base end
    | None => inr base
    end
  end.
(** [slice.partition_point(pred)] *)
Definition partition_point {A} (pred : A → bool) (l : list A) : nat :=
  match binary_search_by (λ x, if pred x then Lt else Gt) l with
  | inl i | inr i => i
  end.

(** The slice is partitioned by [f]: its [Lt] elements, then its [Eq]
    elements, then its [Gt] elements. *)
Definition partitioned {A} (f : A → comparison) (l : list A) : Prop :=
  ∀ i j x y, i ≤ j → l !! i = Some x → l !! j = Some y →
    (f y = Lt → f x = Lt) ∧ (f x = Gt → f y = Gt).

Lemma bsearch_loop_spec {A} (f : A → comparison) (l : list A) fuel base size :
  partitioned f l →
  size ≤ fuel → 1 ≤ size → base + size ≤ length l →
  (base = 0 ∨ ∃ x, l !! base = Some x ∧ f x ≠ Gt) →
  (∀ j y, base + size ≤ j → l !! j = Some y → f y = Gt) →
  let r := bsearch_loop f l fuel base size in
  r < length l ∧ (r = 0 ∨ ∃ x, l !! r = Some x ∧ f x ≠ Gt) ∧
  (∀ j y, r < j → l !! j = Some y → f y = Gt).
Proof.
  intros Hp. revert base size. induction fuel as [|fuel IH]; intros base size Hf H1 Hlen Hb Hg.
  { lia. }
  cbn [bsearch_loop]. case_decide as Hs.
  - assert (size / 2 < size) as Hd by (apply Nat.div_lt; lia).
    assert (1 ≤ size / 2) as Hd1 by (apply Nat.div_le_lower_bound; lia).
    assert (size / 2 + size / 2 ≤ size) as Hd2
      by (pose proof (Nat.mul_div_le size 2); lia).
    set (half := size / 2) in *. clearbody half.
    destruct (lookup_lt_is_Some_2 l (base + half)) as [x Hx]; [lia|]. rewrite Hx.
    cbv zeta. apply IH.
    + lia.
    + lia.
    + destruct (is_gt (f x)); lia.
    + destruct (is_gt (f x)) eqn:E; [done|]. right. exists x. split; [done|].
      by destruct (f x).
    + intros j y Hj Hy. destruct (is_gt (f x)) eqn:E.
      * destruct (f x) eqn:Ex; try done.
        eapply Hp; [|exact Hx|exact Hy|done]. lia.
      * eapply Hg; [|done]. lia.
  - replace size with 1 in * by lia. split; [lia|]. split; [done|].
    intros j y Hj Hy. eapply Hg; [|done]. lia.
Qed.

Lemma binary_search_by_spec {A} (f : A → comparison) (l : list A) :
  partitioned f l →
  match binary_search_by f l with
  | inl i => ∃ x, l !! i = Some x ∧ f x = Eq
  | inr i => i ≤ length l ∧ (∀ j x, j < i → l !! j = Some x → f x = Lt) ∧
             (∀ j x, i ≤ j → l !! j = Some x → f x = Gt)
  end.
Proof.
  intros Hp. unfold binary_search_by.
  destruct (length l) as [|n] eqn:Hlen.
  { split; [lia|]. split; intros j x Hj Hx; [lia|].
    apply lookup_lt_Some in Hx. lia. }
  pose proof (bsearch_loop_spec f l (S n) 0 (S n) Hp) as Hs.
  destruct Hs as (Hr & Hb & Hg); try lia.
  { intros j y Hj Hy. apply lookup_lt_Some in Hy. lia. }
  set (r := bsearch_loop f l (S n) 0 (S n)) in *.
  destruct (lookup_lt_is_Some_2 l r Hr) as [x Hx]. rewrite Hx.
  destruct (f x) eqn:Ex.
  - eauto.
  - split; [lia|]. split.
    + intros j y Hj Hy. eapply (Hp j r); [lia|done|exact Hx|done].
    + intros j y Hj Hy. eapply Hg; [|done]. lia.
  - split; [lia|]. assert (r = 0) as ->.
    { destruct Hb as [|(z & Hz & Hzg)]; [done|]. rewrite Hx in Hz. congruence. }
    split; [lia|]. intros j y Hj Hy. eapply (Hp 0 j); [lia|exact Hx|done|done].
Qed.

Lemma partition_point_spec {A} (pred : A → bool) (l : list A) :
  (∀ i j x y, i ≤ j → l !! i = Some x → l !! j = Some y → pred y = true → pred x = true) →
  partition_point pred l ≤ length l ∧
  (∀ j x, j < partition_point pred l → l !! j = Some x → pred x = true) ∧
  (∀ j x, partition_point pred l ≤ j → l !! j = Some x → pred x = false).
Proof.
  intros Hp. unfold partition_point.
  pose proof (binary_search_by_spec (λ x, if pred x then Lt else Gt) l) as Hs.
  destruct (binary_search_by _ l) as [i|i].
  - destruct Hs as (x & _ & Hx); [|by destruct (pred x)].
    intros i' j x y Hij Hx Hy. specialize (Hp i' j x y Hij Hx Hy).
    destruct (pred x), (pred y); naive_solver.
  - destruct Hs as (Hi & Hlt & Hgt).
    { intros i' j x y Hij Hx Hy. specialize (Hp i' j x y Hij Hx Hy).
      destruct (pred x), (pred y); naive_solver. }
    split; [done|]. split; intros j x Hj Hx.
    + specialize (Hlt j x Hj Hx). by destruct (pred x).
    + specialize (Hgt j x Hj Hx). by destruct (pred x).
Qed.

(** ** Sorted lists *)

Lemma StronglySorted_lookup_lt {A} (R : relation A) (l : list A) i j x y :
  StronglySorted R l → i < j → l !! i = Some x → l !! j = Some y → R x y.
Proof.
  intros Hs Hij Hx Hy. rewrite <-(take_drop_middle _ _ _ Hx) in Hs.
  apply StronglySorted_app_1_r, StronglySorted_cons in Hs as [Hf _].
  rewrite Forall_forall in Hf. apply Hf. apply list_elem_of_lookup.
  exists (j - S i). rewrite lookup_drop. by replace (S i + (j - S i)) with j by lia.
Qed.
Lemma StronglySorted_lookup {A} (R : relation A) `{!Reflexive R} (l : list A) i j x y :
  StronglySorted R l → i ≤ j → l !! i = Some x → l !! j = Some y → R x y.
Proof.
  intros Hs Hij Hx Hy. destruct (decide (i = j)) as [->|]; [by simplify_eq|].
  eapply (StronglySorted_lookup_lt R l i j); eauto; lia.
Qed.
Lemma elem_of_take_lookup {A} (l : list A) n x :
  x ∈ take n l ↔ ∃ j, j < n ∧ l !! j = Some x.
Proof.
  rewrite list_elem_of_lookup.
  split; intros (j & Hj); exists j; rewrite lookup_take_Some in *; tauto.
Qed.
Lemma StronglySorted_sublist {A} (R : relation A) (l k : list A) :
  l `sublist_of` k → StronglySorted R k → StronglySorted R l.
Proof.
  induction 1 as [|x l k Hl IH|x l k Hl IH]; [done| |];
    rewrite ?StronglySorted_cons; intros [Hf Hs]; [|by apply IH].
  split; [|by apply IH]. rewrite Forall_forall in Hf |- *. intros y Hy. apply Hf.
  by eapply elem_of_submseteq; [|apply sublist_submseteq].
Qed.
(** Taking a list at a sorted cut. *)
Lemma lookup_take_drop_elem {A} (l : list A) c x :
  (x ∈ take c l → ∃ j, j < c ∧ l !! j = Some x) ∧
  (x ∈ drop c l → ∃ j, c ≤ j ∧ l !! j = Some x).
Proof.
  split; intros (j & Hj)%list_elem_of_lookup.
  - rewrite lookup_take_Some in Hj. exists j. tauto.
  - rewrite lookup_drop in Hj. exists (c + j). split; [lia|done].
Qed.

Lemma list_merge_cut {A} (R : relation A) `{!RelDecision R} (l k : list A) r rs :
  Forall (λ x, R x r) l → Forall (λ x, ¬ R x r) k →
  list_merge R (l ++ k) (r :: rs) = l ++ r :: list_merge R k rs.
Proof.
  induction 1 as [|x l Hx Hl IH]; intros Hk; simpl.
  - destruct k as [|y k]; [by destruct rs|]. simpl. inversion_clear Hk.
    by rewrite decide_False.
  - rewrite decide_True by done. f_equal. by apply IH.
Qed.
(** ** Moving a slice inside a buffer *)

Lemma copy_within_spec {A} start end_ dest (l : list A) :
  start ≤ end_ → end_ ≤ length l → dest + (end_ - start) ≤ length l →
  ∃ l', copy_within start end_ dest l = Some l' ∧ length l' = length l ∧
    take dest l' = take dest l ∧
    drop dest l' = take (end_ - start) (drop start l) ++ drop (dest + (end_ - start)) l.
Proof.
  intros. unfold copy_within. rewrite decide_True by lia.
  eexists. split; [done|]. split.
  - rewrite !length_app, !length_take, !length_drop. lia.
  - split.
    + rewrite take_app_le by (rewrite length_take; lia).
      by rewrite take_take, Nat.min_id.
    + rewrite drop_app_ge by (rewrite length_take; lia).
      rewrite length_take, Nat.min_l by lia. by rewrite Nat.sub_diag, drop_0.
Qed.
Lemma set_index_spec {A} i (x : A) (l : list A) :
  i < length l →
  ∃ l', set_index i x l = Some l' ∧ length l' = length l ∧
    take i l' = take i l ∧ drop i l' = x :: drop (S i) l.
Proof.
  intros Hi. unfold set_index. rewrite decide_True by done. eexists. split; [done|].
  split; [apply length_insert|]. split.
  - by rewrite take_insert_ge.
  - rewrite (drop_S _ x i) by (by apply list_lookup_insert_eq).
    f_equal. apply drop_insert_lt. lia.
Qed.

(** ** [sort_unstable] and [dedup] *)

(** [slice.sort_unstable_by(compare)]: which of two equal elements comes first
    is left open by the standard library, and by this interface. *)
Class UnstableSort := {
  sort_unstable_by {A : Type} : (A → A → comparison) → list A → list A;
  sort_unstable_permutes {A : Type} (compare : A → A → comparison) l :
    sort_unstable_by compare l ≡ₚ l;
  sort_unstable_sorts {A : Type} (compare : A → A → comparison) l :
    TotalPreorder compare → StronglySorted (cmp_le compare) (sort_unstable_by compare l);
}.
#[export] Program Instance merging_sort : UnstableSort := {
  sort_unstable_by A compare := merge_sort (cmp_le compare)
}.
Next Obligation. intros. apply merge_sort_Permutation. Qed.
Next Obligation. intros. apply StronglySorted_merge_sort; apply _. Qed.

(** [Vec::dedup]: drops an element equal to the one before it. *)
Fixpoint dedup {A} `{!EqDecision A} (l : list A) : list A :=
  match l with
  | [] => []
  | x :: l =>
    match l with
    | [] => [x]
    | y :: _ => if decide (x = y) then dedup l else x :: dedup l
    end
  end.

Lemma dedup_cons {A} `{!EqDecision A} (x : A) l :
  dedup (x :: l) = match l with
                   | y :: _ => if decide (x = y) then dedup l else x :: dedup l
                   | [] => [x]
                   end.
Proof. by destruct l. Qed.
Lemma dedup_elem_of {A} `{!EqDecision A} (l : list A) x : x ∈ dedup l ↔ x ∈ l.
Proof.
  induction l as [|y [|z l] IH]; [done..|]. rewrite dedup_cons.
  case_decide as Hd; rewrite ?elem_of_cons, IH, !elem_of_cons; [subst; tauto|done].
Qed.
Lemma dedup_sublist {A} `{!EqDecision A} (l : list A) : dedup l `sublist_of` l.
Proof.
  induction l as [|y [|z l] IH]; [done..|]. rewrite dedup_cons.
  case_decide; [by apply sublist_cons|by apply sublist_skip].
Qed.
Lemma dedup_strict {A} `{!EqDecision A} (R : relation A) `{!AntiSymm (=) R, !Transitive R}
    (l : list A) :
  StronglySorted R l → StronglySorted (λ x y, R x y ∧ x ≠ y) (dedup l).
Proof.
  induction l as [|y l IH]; intros Hs; [constructor|].
  apply StronglySorted_cons in Hs as [Hf Hs]. specialize (IH Hs). rewrite dedup_cons.
  destruct l as [|z l]; [by repeat constructor|]. case_decide as Hd; [done|].
  apply StronglySorted_cons. split; [|done]. apply Forall_forall.
  intros x Hx. rewrite dedup_elem_of in Hx. rewrite Forall_forall in Hf.
  split; [by apply Hf|].
  intros ->. apply Hd. apply (anti_symm R); [apply Hf; left|].
  apply elem_of_cons in Hx as [->|Hx]; [apply Hf; left|].
  apply StronglySorted_cons in Hs as [Hs _]. rewrite Forall_forall in Hs. by apply Hs.
Qed.

(** [ranks.sort_unstable(); ranks.dedup()] *)
Definition sort_dedup (ranks : list nat) : list nat := dedup (merge_sort (≤) ranks).

Lemma sort_dedup_spec ranks :
  StronglySorted (<) (sort_dedup ranks) ∧ ∀ r, r ∈ sort_dedup ranks ↔ r ∈ ranks.
Proof.
  unfold sort_dedup. split.
  - assert (H : StronglySorted (λ x y, x ≤ y ∧ x ≠ y) (dedup (merge_sort (≤) ranks))).
    { apply (dedup_strict (≤)), (StronglySorted_merge_sort (≤)). }
    induction H as [|x l _ IH Hf]; constructor; [done|].
    eapply Forall_impl; [exact Hf|]. simpl. lia.
  - intros r. rewrite dedup_elem_of, (merge_sort_Permutation (≤) ranks). reflexivity.
Qed.

(** Searching a sorted slice for [t] partitions it. *)
Lemma sorted_partitioned {A} (compare : A → A → comparison) `{!TotalPreorder compare} t l :
  StronglySorted (cmp_le compare) l → partitioned (λ s, compare s t) l.
Proof.
  intros Hs i j x y Hij Hx Hy.
  pose proof (StronglySorted_lookup (cmp_le compare) l i j x y Hs Hij Hx Hy) as Hxy. split.
  - intros Hyt. by apply (cmp_le_lt_trans compare x y t).
  - intros Hxt. apply (cmp_gt_lt compare) in Hxt.
    pose proof (cmp_lt_le_trans compare t x y Hxt Hxy) as H.
    by rewrite (compare_opp compare t y), H.
Qed.

(** ** Lexicographic orders: [Ord] on slices and pairs *)

Fixpoint list_cmp {A} (compare : A → A → comparison) (l k : list A) : comparison :=
  match l, k with
  | [], [] => Eq
  | [], _ :: _ => Lt
  | _ :: _, [] => Gt
  | x :: l, y :: k => then_with (compare x y) (list_cmp compare l k)
  end.
Definition pair_cmp {A B} (f : A → A → comparison) (g : B → B → comparison)
    (x y : A * B) : comparison :=
  then_with (f x.1 y.1) (g x.2 y.2).

Lemma then_with_opp c d : CompOpp (then_with c d) = then_with (CompOpp c) (CompOpp d).
Proof. by destruct c. Qed.
Lemma compare_eq_l {A} (compare : A → A → comparison) `{!TotalPreorder compare} x y z :
  compare x y = Eq → compare x z = compare y z.
Proof.
  intros H. pose proof (compare_opp compare x y) as H'. rewrite H in H'. simpl in H'.
  pose proof (compare_le_trans compare x y z) as H1. pose proof (compare_le_trans compare y x z) as H2.
  pose proof (compare_le_trans compare z x y) as H3. pose proof (compare_le_trans compare z y x) as H4.
  rewrite (compare_opp compare x z), (compare_opp compare y z) in *.
  destruct (compare x z), (compare y z); simpl in *; try done; exfalso; intuition congruence.
Qed.
(** [then_with] of a comparator and any continuation that is transitive on
    its equivalence classes. *)
Lemma then_with_trans {A} (f : A → A → comparison) `{!TotalPreorder f} x y z d1 d2 d3 :
  (d1 ≠ Gt → d2 ≠ Gt → d3 ≠ Gt) →
  then_with (f x y) d1 ≠ Gt → then_with (f y z) d2 ≠ Gt → then_with (f x z) d3 ≠ Gt.
Proof.
  intros Hd Hxy Hyz. destruct (f x y) eqn:E1; simpl in *; [|clear Hxy|done].
  - rewrite (compare_eq_l f x y z E1). destruct (f y z); simpl in *; auto.
  - assert (f x z = Lt) as ->; [|done].
    apply (cmp_lt_le_trans f x y z); [done|]. unfold cmp_le. by destruct (f y z).
Qed.
#[export] Instance list_cmp_preorder {A} (f : A → A → comparison) :
  TotalPreorder f → TotalPreorder (list_cmp f).
Proof.
  intros Hf. split.
  - intros l. induction l as [|x l IH]; intros [|y k]; simpl; try done.
    by rewrite then_with_opp, <-IH, <-(compare_opp f).
  - intros l. induction l as [|x l IH]; intros [|y k] [|z m]; simpl; try done.
    apply then_with_trans; [done|]. apply IH.
Qed.
#[export] Instance list_cmp_total {A} (f : A → A → comparison) :
  TotalOrder f → TotalOrder (list_cmp f).
Proof.
  intros Hf. split; [apply _|].
  intros l. induction l as [|x l IH]; intros [|y k]; simpl; try done.
  destruct (f x y) eqn:E; simpl; try done. intros H. f_equal; [|by apply IH].
  by apply (compare_eq_eq f).
Qed.
#[export] Instance pair_cmp_total {A B} (f : A → A → comparison) (g : B → B → comparison) :
  TotalOrder f → TotalOrder g → TotalOrder (pair_cmp f g).
Proof.
  intros Hf Hg. unfold pair_cmp. split; [split|].
  - intros x y. by rewrite then_with_opp, <-!(compare_opp _).
  - intros x y z. apply then_with_trans; [apply _|]. apply (compare_le_trans g).
  - intros [a b] [c d]; simpl. destruct (f a c) eqn:E; simpl; try done.
    intros ->%(compare_eq_eq g). f_equal. by apply (compare_eq_eq f).
Qed.
(** A comparator on keys is a comparator on what has the keys. *)
Lemma preorder_pullback {A B} (key : A → B) (f : B → B → comparison) :
  TotalPreorder f → TotalPreorder (λ x y, f (key x) (key y)).
Proof.
  intros Hf. split; intros; [apply (compare_opp f)|by eapply (compare_le_trans f)].
Qed.

(** Closed decidable goals, by evaluation. *)
Ltac by_decide := apply (bool_decide_unpack _); vm_compute; exact I.
