(* ===== verification/OrderedMerge.v ===== *)
(** * core/src/ordered_merge.rs: inserting a sorted delta into a sorted vector

    [insert_sorted] is translated phase by phase: a galloping search that
    finds each insertion position, then the reverse pass of bulk copies
    through the one, in-place buffer.  A [None] is a Rust panic. *)
From S2P Require Import Prelude.

Section insert_sorted.
Context (compare : N → N → comparison).

(** [while high < remaining.len() && !compare(..).is_gt()]: probe
    0, 1, 3, 7, ...  One step per unit of fuel; [high] grows at each step,
    so one more than the length of the slice is enough. *)
Fixpoint gallop (fuel : nat) (remaining : list N) (replacement : N)
    (low high : nat) : nat * nat :=
  match fuel with
  | O => (low, high)
  | S fuel =>
    match remaining !! high with
    | Some x =>
      if is_gt (compare x replacement) then (low, high)
      else gallop fuel remaining replacement (high + 1) (sat_add (sat_mul high 2) 1)
    | None => (low, high)
    end
  end.

(** The number of slots of [remaining] that stay before [replacement]. *)
Definition gallop_search (remaining : list N) (replacement : N) : nat :=
  let '(low, high) := gallop (S (length remaining)) remaining replacement 0 0 in
  let end_ := high `min` length remaining in
  low + partition_point (λ slot, negb (is_gt (compare slot replacement)))
          (take (end_ - low) (drop low remaining)).

Fixpoint insert_positions (slots replacements : list N) (cursor : nat) : list nat :=
  match replacements with
  | [] => []
  | replacement :: replacements =>
    let cursor := cursor + gallop_search (drop cursor slots) replacement in
    cursor :: insert_positions slots replacements cursor
  end.

(** One turn of [for index in (0..replacements.len()).rev()]; the state is
    the buffer and [end]. *)
Definition shift_step (item : nat * (nat * N)) (state : option (list N * nat)) :
    option (list N * nat) :=
  let '(index, (start, replacement)) := item in
  '(slots, end_) ← state;
  slots ← copy_within start end_ (start + index + 1) slots;
  slots ← set_index (start + index) replacement slots;
  Some (slots, start).

Definition insert_sorted (slots replacements : list N) : option (list N) :=
  match replacements with
  | [] => Some slots
  | _ =>
    let positions := insert_positions slots replacements 0 in
    let end_ := length slots in
    let resized := slots ++ replicate (length replacements) 0%N in
    fst <$> foldr shift_step (Some (resized, end_))
      (zip (seq 0 (length replacements)) (zip positions replacements))
  end.

(** ** The galloping search *)

Section search.
Context `{!TotalPreorder compare}.

Lemma gallop_spec fuel remaining r low high :
  (N.of_nat (length remaining) < usize_max)%N →
  StronglySorted (cmp_le compare) remaining →
  length remaining < fuel + high → low ≤ high → low ≤ length remaining →
  (∀ j x, j < low → remaining !! j = Some x → cmp_le compare x r) →
  let '(low', high') := gallop fuel remaining r low high in
  low' ≤ high' ∧ low' ≤ length remaining ∧
  (∀ j x, j < low' → remaining !! j = Some x → cmp_le compare x r) ∧
  (∀ j x, high' ≤ j → remaining !! j = Some x → ¬ cmp_le compare x r).
Proof.
  intros Hmax Hs. revert low high.
  induction fuel as [|fuel IH]; intros low high Hf Hlh Hl Hle; simpl.
  { repeat split; try done. intros j x Hj Hx. apply lookup_lt_Some in Hx. lia. }
  destruct (remaining !! high) as [x|] eqn:Hx.
  - apply lookup_lt_Some in Hx as Hlt.
    destruct (is_gt (compare x r)) eqn:Hg.
    + repeat split; try done. intros j y Hj Hy Hyr.
      assert (cmp_le compare x r) as Hxr.
      { transitivity y; [|done]. by eapply StronglySorted_lookup; eauto with typeclass_instances. }
      apply is_gt_false in Hxr. congruence.
    + apply IH; unfold sat_add, sat_mul; try lia.
      intros j y Hj Hy. apply is_gt_false in Hg. transitivity x; [|done].
      eapply (StronglySorted_lookup _ _ j high); eauto; lia.
  - repeat split; try done. intros j y Hj Hy.
    apply lookup_ge_None in Hx. apply lookup_lt_Some in Hy. lia.
Qed.

Lemma gallop_search_spec remaining r :
  (N.of_nat (length remaining) < usize_max)%N →
  StronglySorted (cmp_le compare) remaining →
  let c := gallop_search remaining r in
  c ≤ length remaining ∧
  Forall (λ x, cmp_le compare x r) (take c remaining) ∧
  Forall (λ x, ¬ cmp_le compare x r) (drop c remaining).
Proof.
  intros Hmax Hs. unfold gallop_search.
  pose proof (gallop_spec (S (length remaining)) remaining r 0 0 Hmax Hs) as Hg.
  destruct (gallop _ remaining r 0 0) as [low high].
  destruct Hg as (Hlh & Hl & Hlow & Hhigh); try lia.
  set (mid := take (high `min` length remaining - low) (drop low remaining)).
  set (pred := λ slot, negb (is_gt (compare slot r))).
  assert (Hpred : ∀ x, pred x = true ↔ cmp_le compare x r).
  { intros x. unfold pred. rewrite negb_true_iff. apply is_gt_false. }
  assert (Hmid : ∀ j x, mid !! j = Some x →
    remaining !! (low + j) = Some x ∧ low + j < high `min` length remaining).
  { intros j x Hj. unfold mid in Hj. rewrite lookup_take_Some, lookup_drop in Hj.
    split; [tauto|lia]. }
  destruct (partition_point_spec pred mid) as (Hp1 & Hp2 & Hp3).
  { intros i j x y Hij Hx%Hmid Hy%Hmid Hpy. apply Hpred. apply Hpred in Hpy.
    transitivity y; [|done].
    eapply (StronglySorted_lookup _ _ (low + i) (low + j)); eauto; [lia|tauto|tauto]. }
  assert (length mid = high `min` length remaining - low) as Hlen.
  { unfold mid. rewrite length_take, length_drop. lia. }
  cbv zeta. set (p := partition_point pred mid) in *. split; [lia|]. split; apply Forall_forall.
  - intros x (j & Hj & Hx)%lookup_take_drop_elem.
    destruct (decide (j < low)) as [Hjl|]; [by eapply Hlow|].
    apply Hpred. apply (Hp2 (j - low)); [lia|].
    unfold mid. rewrite lookup_take_Some, lookup_drop.
    replace (low + (j - low)) with j by lia. split; [done|].
    apply lookup_lt_Some in Hx. lia.
  - intros x (j & Hj & Hx)%lookup_take_drop_elem.
    destruct (decide (high ≤ j)) as [Hjh|]; [by eapply Hhigh|].
    rewrite <-Hpred. rewrite (Hp3 (j - low) x); [done|lia|].
    unfold mid. rewrite lookup_take_Some, lookup_drop.
    replace (low + (j - low)) with j by lia. split; [done|].
    apply lookup_lt_Some in Hx. lia.
Qed.
End search.

(** ** The reverse pass of bulk copies *)

(** What the pass leaves in the buffer: the old slots, with each replacement
    put at its position. *)
Fixpoint interleave (slots : list N) (cursor : nat) (items : list (nat * N)) : list N :=
  match items with
  | [] => drop cursor slots
  | (p, r) :: items => take (p - cursor) (drop cursor slots) ++ r :: interleave slots p items
  end.
Fixpoint ascending (cursor bound : nat) (items : list (nat * N)) : Prop :=
  match items with
  | [] => True
  | (p, _) :: items => cursor ≤ p ≤ bound ∧ ascending p bound items
  end.

Lemma shift_pass slots items i cursor pad :
  ascending cursor (length slots) items → length pad = i + length items →
  ∃ buffer end_,
    foldr shift_step (Some (slots ++ pad, length slots))
      (zip (seq i (length items)) items) = Some (buffer, end_) ∧
    end_ = default (length slots) (fst <$> head items) ∧
    length buffer = length slots + length pad ∧
    take end_ buffer = take end_ slots ∧
    drop (end_ + i) buffer = interleave slots end_ items.
Proof.
  revert i cursor. induction items as [|[p r] items IH]; intros i cursor Ha Hpad; simpl.
  { simpl in Hpad. eexists _, _. split_and!; try done.
    - by rewrite length_app.
    - by rewrite take_app_length, firstn_all.
    - rewrite !drop_ge; [done|lia|rewrite length_app; lia]. }
  destruct Ha as [Hp Ha]. simpl in Hpad.
  destruct (IH (S i) p Ha) as (buffer & e & -> & He & Hlen & Ht & Hd); [lia|]. simpl.
  assert (p ≤ e ∧ e ≤ length slots) as [Hpe Hel].
  { destruct items as [|[p' r'] items]; simpl in *; subst; lia. }
  destruct (copy_within_spec p e (p + i + 1) buffer) as (b1 & -> & Hl1 & Ht1 & Hd1); [lia..|].
  simpl. destruct (set_index_spec (p + i) r b1) as (b2 & -> & Hl2 & Ht2 & Hd2); [lia|].
  simpl. eexists _, _. split_and!; [done|done|lia| |].
  - assert (∀ (b b' : list N), take (p + i) b = take (p + i) b' → take p b = take p b') as Htake.
    { intros b b' E. apply (f_equal (take p)) in E.
      by rewrite !take_take, !Nat.min_l in E by lia. }
    rewrite (Htake b2 b1) by done. apply (f_equal (take p)) in Ht1, Ht.
    rewrite !take_take, !Nat.min_l in Ht1, Ht by lia. by rewrite Ht1, Ht.
  - rewrite Hd2, Nat.sub_diag. simpl. f_equal.
    replace (S (p + i)) with (p + i + 1) by lia. rewrite Hd1.
    replace (p + i + 1 + (e - p)) with (e + S i) by lia. rewrite Hd.
    assert (take (e - p) (drop p buffer) = take (e - p) (drop p slots)) as ->.
    { rewrite !take_drop_commute. replace (p + (e - p)) with e by lia. by rewrite Ht. }
    destruct items as [|[p' r'] items]; simpl in *; subst.
    + rewrite (drop_ge slots (length slots)), app_nil_r by lia. apply take_ge. rewrite length_drop. lia.
    + by rewrite Nat.sub_diag.
Qed.

(** ** The result *)

Section result.
Context `{!TotalPreorder compare}.

Lemma insert_positions_spec slots replacements cursor :
  (N.of_nat (length slots) < usize_max)%N → cursor ≤ length slots →
  StronglySorted (cmp_le compare) slots →
  let items := zip (insert_positions slots replacements cursor) replacements in
  length items = length replacements ∧
  ascending cursor (length slots) items ∧
  interleave slots cursor items
    = list_merge (cmp_le compare) (drop cursor slots) replacements.
Proof.
  intros Hmax. revert cursor.
  induction replacements as [|r rs IH]; intros cursor Hc Hs; simpl.
  { by rewrite list_merge_nil_r. }
  set (rest := drop cursor slots).
  assert (length rest = length slots - cursor) as Hrest by (unfold rest; by rewrite length_drop).
  destruct (gallop_search_spec rest r) as (Hp & Hle & Hgt).
  { lia. }
  { apply (StronglySorted_app_1_r _ (take cursor slots)).
    unfold rest. by rewrite take_drop. }
  set (c := gallop_search rest r) in *.
  destruct (IH (cursor + c)) as (Hl & Ha & Hi); [lia|done|].
  split; [by rewrite Hl|]. split; [split; [lia|done]|].
  rewrite Hi. rewrite <-(take_drop c rest) at 2.
  rewrite list_merge_cut by done. unfold rest.
  by rewrite drop_drop, Nat.add_comm, Nat.add_sub.
Qed.

Lemma insert_sorted_merge slots replacements :
  (N.of_nat (length slots) < usize_max)%N →
  StronglySorted (cmp_le compare) slots →
  insert_sorted slots replacements = Some (list_merge (cmp_le compare) slots replacements).
Proof.
  intros Hmax Hs. unfold insert_sorted. destruct replacements as [|r rs].
  { by rewrite list_merge_nil_r. }
  destruct (insert_positions_spec slots (r :: rs) 0 Hmax) as (Hl & Ha & Hi); [lia|done|].
  rewrite drop_0 in Hi. cbv zeta. rewrite <-Hi, <-Hl.
  assert (length (replicate (length (r :: rs)) 0%N) = length (r :: rs)) as Hr
    by apply length_replicate.
  rewrite <-Hl in Hr. clear Hi.
  set (items := zip (insert_positions slots (r :: rs) 0) (r :: rs)) in *.
  assert (items ≠ []) as Hne by (intros E; rewrite E in Hl; done).
  clearbody items.
  destruct (shift_pass slots items 0 0 _ Ha Hr) as (buffer & e & -> & He & _ & Ht & Hd).
  rewrite Nat.add_0_r in Hd. cbn. f_equal. rewrite <-(take_drop e buffer), Ht, Hd.
  destruct items as [|[p q] items]; [done|]. simpl in He. subst e. simpl.
  by rewrite Nat.sub_diag, Nat.sub_0_r, drop_0.
Qed.
End result.
End insert_sorted.

(** C36: [insert_sorted] does not panic, and merges a sorted delta into a sorted
    vector exactly as a stable merge does: existing slots precede new slots
    with equal keys, the result is sorted when the delta is, and nothing is
    lost or duplicated.  The galloping search and the in-place copies are the
    ones of the code; the bound is that the vector is shorter than
    [usize::MAX]. *)
Theorem insert_sorted_is_stable_merge (compare : N → N → comparison) slots replacements :
  TotalPreorder compare →
  StronglySorted (cmp_le compare) slots →
  (N.of_nat (length slots) < usize_max)%N →
  ∃ merged, insert_sorted compare slots replacements = Some merged ∧
    merged = list_merge (cmp_le compare) slots replacements ∧
    merged ≡ₚ slots ++ replacements ∧
    (StronglySorted (cmp_le compare) replacements → StronglySorted (cmp_le compare) merged).
Proof.
  intros Hpre Hs Hmax. eexists. split; [by apply insert_sorted_merge|].
  split_and!; [done|apply merge_Permutation|].
  intros Hr. apply Sorted_StronglySorted; [apply _|].
  apply Sorted_list_merge; first [apply _ | by apply StronglySorted_Sorted].
Qed.

(** Keys are the tens digit: equal keys keep old slots first. *)
Definition by_tens (a b : N) : comparison := N.compare (a / 10) (b / 10).
Lemma by_tens_preorder : TotalPreorder by_tens.
Proof.
  split; unfold by_tens; intros.
  - apply N.compare_antisym.
  - by eapply (compare_le_trans N.compare).
Qed.
Lemma insert_sorted_is_stable_merge_witness :
  ∃ merged, insert_sorted by_tens [10; 11; 20; 30]%N [12; 13; 21; 31]%N = Some merged ∧
    merged = [10; 11; 12; 13; 20; 21; 30; 31]%N.
Proof.
  destruct (insert_sorted_is_stable_merge by_tens [10; 11; 20; 30]%N [12; 13; 21; 31]%N
    by_tens_preorder) as (merged & H & E & _); [by_decide|by_decide|].
  exists merged. split; [exact H|]. rewrite E. vm_compute. reflexivity.
Defined.
