(* ===== verification/SlotOrder.v ===== *)
(** * core/src/slot_order.rs: immutable sorted leaf blocks

    A [SlotOrder] is a directory of leaf blocks of at most [LEAF_LENGTH]
    slots with the prefix sums of their lengths.  [updated] removes ranks and
    merges replacements block by block; this file proves that, read as one
    flat order, it removes exactly those ranks and merges the replacements,
    and that a leaf keeps its persisted section only when it is unchanged. *)
From S2P Require Import Prelude OrderedMerge.

Definition LEAF_LENGTH : nat := 4096.

(** Prefix sums of the leaf lengths, as [from_blocks] accumulates them. *)
Fixpoint prefix_ends (total : nat) (lengths : list nat) : list nat :=
  match lengths with
  | [] => []
  | length :: lengths => (total + length) :: prefix_ends (total + length) lengths
  end.

(** The elements of [l] whose rank, counted from [base], is not in [ranks]. *)
Fixpoint drop_ranks {A} (ranks : list nat) (base : nat) (l : list A) : list A :=
  match l with
  | [] => []
  | x :: l =>
    if decide (base ∈ ranks) then drop_ranks ranks (S base) l
    else x :: drop_ranks ranks (S base) l
  end.

Section slot_order.
(** The persisted section a leaf may share (snapshot_cache.rs). *)
Context {Sec : Type}.

Record OrderBlock := { slots : list N; section : option Sec }.
Definition owned (slots : list N) : OrderBlock := {| slots := slots; section := None |}.
(** [edit] takes the section handle before handing out the vector. *)
Definition edit (f : list N → list N) (b : OrderBlock) : OrderBlock :=
  {| slots := f (slots b); section := None |}.

Record SlotOrder := { blocks : list OrderBlock; ends : list nat }.

Definition block_lengths (blocks : list OrderBlock) : list nat :=
  (λ b, length (slots b)) <$> blocks.
Definition from_blocks (blocks : list OrderBlock) : SlotOrder :=
  {| blocks := blocks; ends := prefix_ends 0 (block_lengths blocks) |}.
Definition len (o : SlotOrder) : nat := default 0 (last (ends o)).
Definition start (o : SlotOrder) (block : nat) : nat :=
  if block =? 0 then 0 else default 0 (ends o !! (block - 1)).
Definition get (o : SlotOrder) (rank : nat) : option N :=
  let block := partition_point (λ end_, end_ <=? rank) (ends o) in
  leaf ← blocks o !! block;
  slots leaf !! (rank - start o block).
Definition flat (blocks : list OrderBlock) : list N := blocks ≫= slots.
Definition to_vec (o : SlotOrder) : list N := flat (blocks o).

(** The loop of [extend_range] from block [first] on. *)
Fixpoint extend_blocks (o : SlotOrder) (start_ end_ : nat) (output : list N)
    (first : nat) (rest : list OrderBlock) : list N :=
  match rest with
  | [] => output
  | b :: rest =>
    let base := start o first in
    if end_ <=? base then output
    else
      let values := slots b in
      let from := start_ - base in
      let to := length values `min` (end_ - base) in
      extend_blocks o start_ end_ (output ++ take (to - from) (drop from values))
        (S first) rest
  end.
Definition extend_range (o : SlotOrder) (output : list N) (start_ end_ : nat) :
    option (list N) :=
  if decide (start_ ≤ end_ ∧ end_ ≤ len o) then
    if start_ =? end_ then Some output
    else
      let first := partition_point (λ rank, rank <=? start_) (ends o) in
      Some (extend_blocks o start_ end_ output first (drop first (blocks o)))
  else None.

Definition last_slot (b : OrderBlock) : N := default 0%N (last (slots b)).
(** [Ok] is [inl], [Err] is [inr]. *)
Definition order_binary_search_by (o : SlotOrder) (compare : N → comparison) : nat + nat :=
  let block := partition_point (λ leaf, is_lt (compare (last_slot leaf))) (blocks o) in
  match blocks o !! block with
  | None => inr (len o)
  | Some leaf =>
    let base := start o block in
    match binary_search_by compare (slots leaf) with
    | inl rank => inl (base + rank)
    | inr rank => inr (base + rank)
    end
  end.

(** ** [updated] *)

(** The closure of [retain] with its counters [next] and [offset]. *)
Fixpoint retain_ranks (removed : list nat) (next end_ base offset : nat) (l : list N) : list N :=
  match l with
  | [] => []
  | x :: l =>
    if (next =? end_) || negb (bool_decide (removed !! next = Some (base + offset))) then
      x :: retain_ranks removed next end_ base (S offset) l
    else retain_ranks removed (S next) end_ base (S offset) l
  end.
(** The removal loop; [None] is the failed assertion.  Each turn leaves
    [first] past at least one rank, so the number of ranks is enough fuel. *)
Fixpoint remove_loop (o : SlotOrder) (removed : list nat) (fuel first : nat)
    (blocks : list OrderBlock) : option (list OrderBlock) :=
  match fuel, removed !! first with
  | S fuel, Some rank =>
    let block := partition_point (λ end_, end_ <=? rank) (ends o) in
    if block <? length blocks then
      let end_ := partition_point (λ rank, rank <? default 0 (ends o !! block)) removed in
      let base := start o block in
      remove_loop o removed fuel end_
        (alter (edit (retain_ranks removed first end_ base 0)) block blocks)
    else None
  | _, None => Some blocks
  | O, Some _ => None
  end.

(** The insertion loop; each turn merges at least one replacement. *)
Fixpoint insert_loop (compare : N → N → comparison) (fuel : nat)
    (replacements : list N) (blocks : list OrderBlock) : option (list OrderBlock) :=
  match replacements, blocks, fuel with
  | r :: _, _ :: _, S fuel =>
    let index :=
      partition_point (λ b, is_lt (compare (last_slot b) r)) blocks `min` (length blocks - 1) in
    leaf ← blocks !! index;
    let last := last_slot leaf in
    let end_ :=
      if index + 1 =? length blocks then length replacements
      else partition_point (λ slot, negb (is_gt (compare slot last))) replacements in
    merged ← insert_sorted compare (slots leaf) (take end_ replacements);
    insert_loop compare fuel (drop end_ replacements)
      (<[index := owned merged]> blocks)
  | _ :: _, _ :: _, O => None
  | _, _, _ => Some blocks
  end.

(** The final pass: split leaves that outgrew the limit, join small ones. *)
Definition rebalance_step (result : list OrderBlock) (block : OrderBlock) : list OrderBlock :=
  let values := slots block in
  if LEAF_LENGTH <? length values then
    let count := div_ceil (length values) LEAF_LENGTH in
    let length_ := div_ceil (length values) count in
    result ++ (owned <$> chunks length_ values)
  else
    match last result with
    | Some previous =>
      if length (slots previous) + length values <=? LEAF_LENGTH then
        alter (edit (λ s, s ++ values)) (length result - 1) result
      else result ++ [block]
    | None => result ++ [block]
    end.
Definition from_vec (values : list N) : SlotOrder :=
  from_blocks (owned <$> chunks LEAF_LENGTH values).

Definition nonempty (b : OrderBlock) : bool := negb (bool_decide (slots b = [])).
Definition updated (o : SlotOrder) (removed_ranks : list nat) (replacements : list N)
    (compare : N → N → comparison) : option SlotOrder :=
  let removed := sort_dedup removed_ranks in
  blocks ← remove_loop o removed (length removed) 0 (blocks o);
  let blocks := filter nonempty blocks in
  blocks ← insert_loop compare (length replacements) replacements blocks;
  match blocks, replacements with
  | [], _ :: _ => Some (from_vec replacements)
  | _, _ => Some (from_blocks (foldl rebalance_step [] blocks))
  end.
End slot_order.
Arguments OrderBlock : clear implicits.
Arguments SlotOrder : clear implicits.
Arguments flat : simpl never.

Example updated_small :
  let o := from_vec (Sec := ()) [2; 4; 6; 8]%N in
  (to_vec <$> updated o [1; 1; 3] [1; 5; 9]%N N.compare) = Some [1; 2; 5; 6; 9]%N.
Proof. vm_compute. reflexivity. Qed.

(** ** The directory *)

Section directory.
Context {Sec : Type}.
Implicit Types (b : OrderBlock Sec) (bs : list (OrderBlock Sec)) (o : SlotOrder Sec).

(** Every leaf holds between one and [LEAF_LENGTH] slots, and the directory
    is the prefix sums of the leaf lengths. *)
Definition leaf_ok b : Prop := slots b ≠ [] ∧ length (slots b) ≤ LEAF_LENGTH.
Definition ends_ok o : Prop := ends o = prefix_ends 0 (block_lengths (blocks o)).
Definition order_ok o : Prop := ends_ok o ∧ Forall leaf_ok (blocks o).

(** The number of slots before leaf [k]. *)
Definition before bs k : nat := length (flat (take k bs)).

Lemma flat_app bs1 bs2 : flat (bs1 ++ bs2) = flat bs1 ++ flat bs2.
Proof. apply bind_app. Qed.
Lemma flat_cons b bs : flat (b :: bs) = slots b ++ flat bs.
Proof. done. Qed.
Lemma flat_nil : flat (@nil (OrderBlock Sec)) = [].
Proof. done. Qed.
Lemma flat_single b : flat [b] = slots b.
Proof. rewrite flat_cons. apply app_nil_r. Qed.
Lemma flat_split bs k b :
  bs !! k = Some b → flat bs = flat (take k bs) ++ slots b ++ flat (drop (S k) bs).
Proof. intros H. rewrite <-(take_drop_middle bs k b) at 1 by done. by rewrite flat_app. Qed.
Lemma before_S bs k b : bs !! k = Some b → before bs (S k) = before bs k + length (slots b).
Proof.
  intros H. unfold before. by rewrite (take_S_r _ _ _ H), flat_app, length_app, flat_single.
Qed.
Lemma before_all bs : before bs (length bs) = length (flat bs).
Proof. unfold before. by rewrite firstn_all. Qed.
Lemma before_mono bs i j : i ≤ j → before bs i ≤ before bs j.
Proof.
  intros Hij. unfold before. replace j with (i + (j - i)) by lia.
  rewrite <-take_take_drop, flat_app, length_app. lia.
Qed.

Lemma prefix_ends_length t bs : length (prefix_ends t (block_lengths bs)) = length bs.
Proof. revert t. induction bs as [|b bs IH]; intros t; simpl; auto. Qed.
Lemma prefix_ends_lookup t bs k :
  k < length bs → prefix_ends t (block_lengths bs) !! k = Some (t + before bs (S k)).
Proof.
  unfold before. revert t k. induction bs as [|b bs IH]; intros t k Hk; simpl in *; [lia|].
  destruct k as [|k]; simpl.
  - rewrite take_0, flat_single. done.
  - rewrite IH by lia. f_equal. rewrite flat_cons, !length_app. simpl. lia.
Qed.
Lemma ends_length o : ends_ok o → length (ends o) = length (blocks o).
Proof. intros ->. apply prefix_ends_length. Qed.
Lemma ends_lookup o k e :
  ends_ok o →
  ends o !! k = Some e ↔ k < length (blocks o) ∧ e = before (blocks o) (S k).
Proof.
  intros Hok. split.
  - intros He. apply lookup_lt_Some in He as Hlt. rewrite ends_length in Hlt by done.
    rewrite Hok, prefix_ends_lookup in He by done. by simplify_eq.
  - intros [Hk ->]. by rewrite Hok, prefix_ends_lookup.
Qed.
Lemma start_before o k :
  ends_ok o → k ≤ length (blocks o) → start o k = before (blocks o) k.
Proof.
  intros Hok Hk. unfold start. destruct k as [|k]; [done|]. simpl.
  rewrite Nat.sub_0_r, (proj2 (ends_lookup _ _ _ Hok) (conj Hk eq_refl)). done.
Qed.
Lemma len_flat o : ends_ok o → len o = length (to_vec o).
Proof.
  intros Hok. unfold len, to_vec. rewrite last_lookup, ends_length by done.
  destruct (blocks o) as [|b bs] eqn:E; simpl.
  - by rewrite (proj2 (lookup_ge_None _ _)) by (rewrite ends_length, E; done).
  - assert (ends o !! length bs = Some (before (blocks o) (S (length bs)))) as ->.
    { apply ends_lookup; [done|]. rewrite E. simpl. split; [lia|done]. }
    rewrite E. simpl. by rewrite <-(before_all (b :: bs)).
Qed.

(** The leaf [partition_point] finds for a rank. *)
Lemma find_block o rank :
  ends_ok o →
  let k := partition_point (λ e, e <=? rank) (ends o) in
  k ≤ length (blocks o) ∧ before (blocks o) k ≤ rank ∧
  (k < length (blocks o) → rank < before (blocks o) (S k)) ∧
  (rank < length (to_vec o) → k < length (blocks o)).
Proof.
  intros Hok. set (n := length (blocks o)).
  assert (Hl : ∀ k e, ends o !! k = Some e ↔ k < n ∧ e = before (blocks o) (S k)).
  { intros k e. by apply ends_lookup. }
  destruct (partition_point_spec (λ e, e <=? rank) (ends o)) as (Hk & Hlow & Hhigh).
  { intros i j x y Hij [? ->]%Hl [? ->]%Hl. rewrite !Nat.leb_le.
    pose proof (before_mono (blocks o) (S i) (S j)). lia. }
  cbv zeta. set (k := partition_point _ _) in *.
  assert (k ≤ n) as Hkn.
  { destruct (decide (k ≤ n)); [done|].
    rewrite ends_length in Hk by done. fold n in Hk. lia. }
  assert (before (blocks o) k ≤ rank) as Hbk.
  { destruct k as [|k]; [unfold before; simpl; lia|].
    specialize (Hlow k (before (blocks o) (S k))). rewrite Nat.leb_le in Hlow.
    apply Hlow; [lia|]. apply Hl. split; [lia|done]. }
  assert (k < n → rank < before (blocks o) (S k)) as Hsk.
  { intros Hkn'. specialize (Hhigh k (before (blocks o) (S k))). rewrite Nat.leb_gt in Hhigh.
    apply Hhigh; [lia|]. by apply Hl. }
  split_and!; try done. intros Hr. destruct (decide (k = n)) as [Hkeq|]; [|lia].
  rewrite Hkeq in Hbk. unfold n in Hbk. rewrite before_all in Hbk. unfold to_vec in Hr. lia.
Qed.
Lemma lookup_in_block bs k b rank :
  bs !! k = Some b → before bs k ≤ rank < before bs (S k) →
  flat bs !! rank = slots b !! (rank - before bs k).
Proof.
  intros Hb Hr. rewrite (before_S _ _ _ Hb) in Hr. rewrite (flat_split _ _ _ Hb).
  unfold before in *. rewrite lookup_app_r by lia. by rewrite lookup_app_l by lia.
Qed.

Lemma get_flat o rank : ends_ok o → get o rank = to_vec o !! rank.
Proof.
  intros Hok. unfold get.
  destruct (find_block o rank Hok) as (Hk & Hb & Hs & Hr).
  set (k := partition_point _ _) in *.
  destruct (blocks o !! k) as [b|] eqn:Hbk; simpl.
  - apply lookup_lt_Some in Hbk as Hlt. unfold to_vec.
    rewrite (lookup_in_block _ _ _ _ Hbk) by auto. by rewrite start_before.
  - apply lookup_ge_None in Hbk. symmetry. apply lookup_ge_None.
    destruct (decide (rank < length (to_vec o))); [|lia]. lia.
Qed.

Lemma extend_blocks_flat o start_ end_ output first rest :
  ends_ok o → drop first (blocks o) = rest → first ≤ length (blocks o) →
  (rest = [] ∨ start_ < before (blocks o) (S first)) → start_ ≤ end_ →
  extend_blocks o start_ end_ output first rest =
    output ++ take (end_ - (start_ `max` before (blocks o) first))
      (drop (start_ - before (blocks o) first) (flat rest)).
Proof.
  intros Hok. revert first output. induction rest as [|b rest IH];
    intros first output Hd Hf Hs Hse; simpl.
  { by rewrite flat_nil, drop_nil, take_nil, app_nil_r. }
  destruct Hs as [|Hs]; [done|].
  assert (blocks o !! first = Some b) as Hb.
  { replace first with (first + 0) by lia. by rewrite <-lookup_drop, Hd. }
  rewrite start_before by done. set (base := before (blocks o) first) in *.
  apply lookup_lt_Some in Hb as Hlt. pose proof (before_S _ _ _ Hb) as HbS.
  fold base in HbS. rewrite HbS in Hs.
  destruct (end_ <=? base) eqn:He.
  { apply Nat.leb_le in He. replace (end_ - start_ `max` base) with 0 by lia.
    by rewrite app_nil_r. }
  apply Nat.leb_gt in He. rewrite IH; try done.
  - rewrite HbS, <-app_assoc. f_equal.
    rewrite flat_cons, drop_app_le by lia.
    replace (start_ - (base + length (slots b))) with 0 by lia. rewrite drop_0.
    rewrite take_app, length_drop. f_equal.
    + destruct (decide (end_ - base ≤ length (slots b))).
      * f_equal. lia.
      * rewrite !take_ge; [done|rewrite length_drop; lia|rewrite length_drop; lia].
    + f_equal. lia.
  - apply (f_equal (drop 1)) in Hd. rewrite drop_drop in Hd. simpl in Hd.
    by replace (first + 1) with (S first) in Hd by lia.
  - destruct rest as [|b' rest]; [by left|]. right.
    assert (blocks o !! S first = Some b') as Hb'.
    { apply (f_equal (λ l, l !! 1)) in Hd. rewrite lookup_drop in Hd. simpl in Hd.
      by replace (first + 1) with (S first) in Hd by lia. }
    rewrite (before_S _ _ _ Hb'), HbS. lia.
Qed.
Lemma extend_range_flat o output start_ end_ :
  ends_ok o → start_ ≤ end_ → end_ ≤ len o →
  extend_range o output start_ end_ =
    Some (output ++ take (end_ - start_) (drop start_ (to_vec o))).
Proof.
  intros Hok Hse He. unfold extend_range. rewrite decide_True by done.
  destruct (Nat.eqb_spec start_ end_) as [->|Hne].
  { by rewrite Nat.sub_diag, app_nil_r. }
  f_equal. rewrite len_flat in He by done.
  destruct (find_block o start_ Hok) as (Hk & Hb & Hs & Hr).
  set (k := partition_point _ _) in *.
  rewrite extend_blocks_flat; try done.
  - f_equal. replace (start_ `max` _) with start_ by lia. f_equal.
    unfold to_vec. rewrite <-(take_drop k (blocks o)) at 3. rewrite flat_app.
    rewrite drop_app_ge by (unfold before in Hb; lia). done.
  - right. apply Hs, Hr. lia.
Qed.
End directory.

(** ** Removing ranks *)

Section drop_ranks.
Context {A : Type}.
Implicit Types (l : list A) (ranks : list nat).

Lemma drop_ranks_ext ranks1 ranks2 base l :
  (∀ i, base ≤ i < base + length l → i ∈ ranks1 ↔ i ∈ ranks2) →
  drop_ranks ranks1 base l = drop_ranks ranks2 base l.
Proof.
  revert base. induction l as [|x l IH]; intros base H; [done|]. simpl in *.
  rewrite (IH (S base)) by (intros; apply H; lia).
  by rewrite (decide_ext _ (base ∈ ranks2)) by (apply H; lia).
Qed.
Lemma drop_ranks_none ranks base l :
  (∀ i, base ≤ i < base + length l → i ∉ ranks) → drop_ranks ranks base l = l.
Proof.
  revert base. induction l as [|x l IH]; intros base H; [done|]. simpl in *.
  rewrite decide_False by (apply H; lia). f_equal. apply IH. intros. apply H. lia.
Qed.
Lemma drop_ranks_app ranks base l1 l2 :
  drop_ranks ranks base (l1 ++ l2) =
    drop_ranks ranks base l1 ++ drop_ranks ranks (base + length l1) l2.
Proof.
  revert base. induction l1 as [|x l1 IH]; intros base; simpl.
  { by rewrite Nat.add_0_r. }
  rewrite IH. replace (S base + length l1) with (base + S (length l1)) by lia.
  by case_decide.
Qed.
Lemma drop_ranks_sublist ranks base l : drop_ranks ranks base l `sublist_of` l.
Proof.
  revert base. induction l as [|x l IH]; intros base; simpl; [done|].
  case_decide; [by apply sublist_cons|by apply sublist_skip].
Qed.
End drop_ranks.

Section removal.
Context {Sec : Type}.
Implicit Types (b : OrderBlock Sec) (bs : list (OrderBlock Sec)) (o : SlotOrder Sec).

(** A leaf of the result either is a leaf of [bs] or has no section. *)
Definition section_sound bs b : Prop := section b = None ∨ b ∈ bs.

Lemma retain_ranks_spec removed next end_ base offset (l : list N) :
  StronglySorted (<) removed → next ≤ end_ →
  (∀ j r, j < next → removed !! j = Some r → r < base + offset) →
  (∀ j r, next ≤ j → removed !! j = Some r → base + offset ≤ r) →
  (∀ j r, end_ ≤ j → removed !! j = Some r → base + offset + length l ≤ r) →
  retain_ranks removed next end_ base offset l = drop_ranks removed (base + offset) l.
Proof.
  intros Hs. revert next offset. induction l as [|x l IH]; intros next offset Hne H1 H2 H3; [done|].
  simpl in *. replace (S (base + offset)) with (base + S offset) by lia.
  pose proof (λ i j r q, StronglySorted_lookup_lt (<) removed i j r q Hs) as Hstrict.
  destruct (decide (removed !! next = Some (base + offset))) as [Hn|Hn].
  - assert (next < end_) as Hlt.
    { destruct (decide (next < end_)); [done|]. specialize (H3 next _ ltac:(lia) Hn). lia. }
    rewrite bool_decide_true by done. rewrite (proj2 (Nat.eqb_neq next end_)) by lia. simpl.
    rewrite decide_True by (by eapply list_elem_of_lookup_2). apply IH.
    + lia.
    + intros j r Hj Hr. destruct (decide (j = next)) as [->|]; [simplify_eq; lia|].
      specialize (H1 j r). lia || (specialize (H1 ltac:(lia) Hr); lia).
    + intros j r Hj Hr. pose proof (Hstrict next j _ _ ltac:(lia) Hn Hr). lia.
    + intros j r Hj Hr. specialize (H3 j r Hj Hr). lia.
  - rewrite bool_decide_false by done. rewrite orb_true_r.
    assert (Hge : ∀ j r, next ≤ j → removed !! j = Some r → base + S offset ≤ r).
    { intros j r Hj Hr. pose proof (H2 j r Hj Hr). destruct (decide (r = base + offset)); [|lia].
      subst r. destruct (decide (j = next)) as [->|]; [done|].
      destruct (lookup_lt_is_Some_2 removed next) as [q Hq].
      { apply lookup_lt_Some in Hr. lia. }
      pose proof (Hstrict next j _ _ ltac:(lia) Hq Hr). pose proof (H2 next q ltac:(lia) Hq). lia. }
    rewrite decide_False.
    2:{ intros (j & Hj)%list_elem_of_lookup. destruct (decide (j < next)).
        - specialize (H1 j _ ltac:(done) Hj). lia.
        - specialize (Hge j _ ltac:(lia) Hj). lia. }
    f_equal. apply IH; try done.
    + intros j r Hj Hr. specialize (H1 j r Hj Hr). lia.
    + intros j r Hj Hr. specialize (H3 j r Hj Hr). lia.
Qed.

(** What the removal loop has done when it has consumed [first] ranks. *)
Definition removed_so_far o removed first bs : Prop :=
  length bs = length (blocks o) ∧
  (∀ k b, blocks o !! k = Some b → ∃ b', bs !! k = Some b' ∧
    slots b' = drop_ranks (take first removed) (before (blocks o) k) (slots b) ∧
    section_sound (blocks o) b') ∧
  ∃ m, m ≤ length (blocks o) ∧
    (∀ j r, j < first → removed !! j = Some r → r < before (blocks o) m) ∧
    (∀ j r, first ≤ j → removed !! j = Some r → before (blocks o) m ≤ r).

Lemma removed_so_far_end o removed first bs :
  removed !! first = None → removed_so_far o removed first bs →
  removed_so_far o removed (length removed) bs.
Proof.
  intros Hfirst%lookup_ge_None (Hlen & Hb & m & Hm & H1 & _). split_and!; [done| |].
  - intros k b Hk. destruct (Hb k b Hk) as (b' & ? & Hsl & ?). exists b'.
    split_and!; [done| |done]. by rewrite Hsl, firstn_all, take_ge.
  - exists m. split_and!; [done| |].
    + intros j r Hj Hjr. apply (H1 j r); [lia|done].
    + intros j r Hj Hjr%lookup_lt_Some. lia.
Qed.

(** One turn: leaf [k] holds rank number [first]; every rank below [e]
    precedes its end. *)
Lemma remove_turn o removed first bs k b rank e :
  StronglySorted (<) removed →
  blocks o !! k = Some b → removed !! first = Some rank →
  before (blocks o) k ≤ rank < before (blocks o) (S k) → first < e →
  (∀ j r, j < e → removed !! j = Some r → r < before (blocks o) (S k)) →
  (∀ j r, e ≤ j → removed !! j = Some r → before (blocks o) (S k) ≤ r) →
  removed_so_far o removed first bs →
  removed_so_far o removed e
    (alter (edit (retain_ranks removed first e (before (blocks o) k) 0)) k bs).
Proof.
  intros Hs Hbk Hrank Hrk Hfe He2 He3 (Hlen & Hb & m & Hm & H1 & H2).
  pose proof (λ i j r q, StronglySorted_lookup (≤) removed i j r q) as Hle.
  assert (Hs' : StronglySorted (≤) removed).
  { clear -Hs. induction Hs as [|x l _ IH Hf]; constructor; [done|].
    eapply Forall_impl; [exact Hf|]. simpl. lia. }
  pose proof (before_S _ _ _ Hbk) as HkS.
  assert (m ≤ k) as Hmk.
  { destruct (decide (m ≤ k)); [done|]. pose proof (before_mono (blocks o) (S k) m ltac:(lia)).
    specialize (H2 first rank ltac:(lia) Hrank). lia. }
  pose proof (before_mono (blocks o) m k Hmk) as Hmk'.
  split_and!.
  - by rewrite length_alter.
  - intros i c Hi. destruct (Hb i c Hi) as (c' & Hc' & Hsl & Hsec).
    destruct (decide (i = k)) as [->|Hik].
    + rewrite Hbk in Hi. injection Hi as <-. eexists.
      split; [by rewrite list_lookup_alter_eq, Hc'|]. split; [|by left]. simpl.
      assert (slots c' = slots b) as ->.
      { rewrite Hsl. apply drop_ranks_none. intros i Hi (j & Hj & Hjr)%elem_of_take_lookup.
        specialize (H1 j i Hj Hjr). lia. }
      rewrite retain_ranks_spec; [|done|lia| | |].
      * rewrite Nat.add_0_r. apply drop_ranks_ext. intros i Hi. rewrite elem_of_take_lookup. split.
        -- intros (j & Hj)%list_elem_of_lookup. exists j. split; [|done].
           destruct (decide (j < e)); [done|]. specialize (He3 j i ltac:(lia) Hj). lia.
        -- intros (j & _ & Hj). by eapply list_elem_of_lookup_2.
      * intros j r Hj Hjr. specialize (H1 j r Hj Hjr). lia.
      * intros j r Hj Hjr. pose proof (Hle first j rank r Hs' Hj Hrank Hjr). lia.
      * intros j r Hj Hjr. specialize (He3 j r Hj Hjr). lia.
    + exists c'. rewrite list_lookup_alter_ne by done. split_and!; try done.
      rewrite Hsl. apply drop_ranks_ext. intros r Hr'. rewrite !elem_of_take_lookup.
      split; intros (j & Hj & Hjr); [exists j; split; [lia|done]|].
      exists j. split; [|done]. destruct (decide (j < first)); [done|].
      pose proof (Hle first j rank r Hs' ltac:(lia) Hrank Hjr).
      specialize (He2 j r Hj Hjr). pose proof (before_S _ _ _ Hi). destruct (decide (i < k)).
      * pose proof (before_mono (blocks o) (S i) k ltac:(lia)). lia.
      * pose proof (before_mono (blocks o) (S k) i ltac:(lia)). lia.
  - exists (S k). apply lookup_lt_Some in Hbk. split_and!; [lia|done|done].
Qed.

Lemma remove_loop_spec o removed fuel first bs :
  ends_ok o → StronglySorted (<) removed → length removed ≤ fuel + first →
  Forall (λ r, r < length (to_vec o)) removed →
  removed_so_far o removed first bs →
  ∃ bs', remove_loop o removed fuel first bs = Some bs' ∧
    removed_so_far o removed (length removed) bs'.
Proof.
  intros Hok Hs. revert first bs.
  induction fuel as [|fuel IH]; intros first bs Hf Hr Hinv; simpl;
    destruct (removed !! first) as [rank|] eqn:Hrank;
    try (exists bs; split; [done|]; by eapply removed_so_far_end).
  { apply lookup_lt_Some in Hrank. lia. }
  destruct (find_block o rank Hok) as (_ & Hkb & Hks & Hkr).
  set (k := partition_point _ (ends o)) in *.
  assert (k < length (blocks o)) as Hkl.
  { apply Hkr. rewrite Forall_forall in Hr. apply Hr. by eapply list_elem_of_lookup_2. }
  specialize (Hks Hkl). destruct (lookup_lt_is_Some_2 _ _ Hkl) as [b Hbk].
  assert (k <? length bs = true) as ->.
  { apply Nat.ltb_lt. destruct Hinv as [-> _]. done. }
  rewrite (proj2 (ends_lookup o k _ Hok) (conj Hkl eq_refl)). simpl.
  rewrite start_before by (done || lia).
  destruct (partition_point_spec (λ r, r <? before (blocks o) (S k)) removed) as (He1 & He2 & He3).
  { intros i j r q Hij Hi Hj. rewrite !Nat.ltb_lt. destruct (decide (i = j)) as [->|].
    - simplify_eq. done.
    - pose proof (StronglySorted_lookup_lt (<) removed i j r q Hs ltac:(lia) Hi Hj). lia. }
  set (e := partition_point _ removed) in *.
  setoid_rewrite Nat.ltb_lt in He2. setoid_rewrite Nat.ltb_ge in He3.
  assert (first < e) as Hfe.
  { destruct (decide (first < e)); [done|]. specialize (He3 first rank ltac:(lia) Hrank). lia. }
  apply IH; [lia|done|]. eapply remove_turn; eauto.
Qed.

Lemma flat_drop_ranks (removed : list nat) base bs bs' :
  length bs' = length bs →
  (∀ k b, bs !! k = Some b → ∃ b', bs' !! k = Some b' ∧
    slots b' = drop_ranks removed (base + before bs k) (slots b)) →
  flat bs' = drop_ranks removed base (flat bs).
Proof.
  revert base bs'. induction bs as [|b bs IH]; intros base [|b' bs'] Hlen H; try done.
  rewrite !flat_cons, drop_ranks_app.
  destruct (H 0 b eq_refl) as (c & Hc & Hsl). simpl in Hc. injection Hc as <-.
  rewrite Hsl. change (before (b :: bs) 0) with 0. rewrite Nat.add_0_r. f_equal.
  apply IH; [by injection Hlen|]. intros k d Hk.
  destruct (H (S k) d Hk) as (d' & Hd' & Hdsl). exists d'. split; [done|].
  rewrite Hdsl. f_equal. unfold before. simpl. rewrite flat_cons, length_app. lia.
Qed.

Lemma removal_flat o removed :
  ends_ok o → StronglySorted (<) removed → Forall (λ r, r < length (to_vec o)) removed →
  ∃ bs, remove_loop o removed (length removed) 0 (blocks o) = Some bs ∧
    flat bs = drop_ranks removed 0 (to_vec o) ∧
    (∀ b, b ∈ bs → section_sound (blocks o) b) ∧
    (∀ b', b' ∈ bs → ∃ b, b ∈ blocks o ∧ length (slots b') ≤ length (slots b)).
Proof.
  intros Hok Hs Hr.
  destruct (remove_loop_spec o removed (length removed) 0 (blocks o)) as (bs & Hbs & Hinv);
    try done; try lia.
  { split_and!; [done| |exists 0; split_and!; [lia|lia|intros; unfold before; simpl; lia]].
    intros k b Hk. exists b. split_and!; [done| |right; by eapply list_elem_of_lookup_2].
    symmetry. apply drop_ranks_none. intros i _. rewrite take_0. apply not_elem_of_nil. }
  exists bs. split; [done|]. destruct Hinv as (Hlen & Hb & _). rewrite firstn_all in Hb.
  assert (Hof : ∀ b', b' ∈ bs → ∃ k b, blocks o !! k = Some b ∧
    slots b' = drop_ranks removed (before (blocks o) k) (slots b) ∧ section_sound (blocks o) b').
  { intros b' (k & Hk)%list_elem_of_lookup.
    destruct (lookup_lt_is_Some_2 (blocks o) k) as [b Hkb].
    { apply lookup_lt_Some in Hk. lia. }
    exists k, b. split; [done|]. destruct (Hb k b Hkb) as (c & Hc & ?).
    rewrite Hk in Hc. by injection Hc as <-. }
  split_and!.
  - apply flat_drop_ranks; [done|]. intros k b Hk. destruct (Hb k b Hk) as (b' & ? & ? & _). eauto.
  - intros b' Hb'. destruct (Hof b' Hb') as (k & b & _ & _ & ?). done.
  - intros b' Hb'. destruct (Hof b' Hb') as (k & b & Hk & Hsl & _). exists b.
    split; [by eapply list_elem_of_lookup_2|]. rewrite Hsl.
    apply sublist_length, drop_ranks_sublist.
Qed.
End removal.

(** ** Merging replacements *)

Section insertion.
Context {Sec : Type} (compare : N → N → comparison) `{!TotalPreorder compare}.
Implicit Types (b : OrderBlock Sec) (bs : list (OrderBlock Sec)) (o : SlotOrder Sec).
Notation sorted := (StronglySorted (cmp_le compare)).

Lemma last_slot_elem b : slots b ≠ [] → last_slot b ∈ slots b.
Proof.
  intros Hne. unfold last_slot. destruct (last (slots b)) as [x|] eqn:E; simpl.
  - by apply last_Some_elem_of.
  - by apply last_None in E.
Qed.
Lemma le_last_slot b x : sorted (slots b) → x ∈ slots b → cmp_le compare x (last_slot b).
Proof.
  intros Hs (j & Hj)%list_elem_of_lookup. unfold last_slot. rewrite last_lookup.
  apply lookup_lt_Some in Hj as Hlt.
  destruct (lookup_lt_is_Some_2 (slots b) (pred (length (slots b)))) as [y Hy]; [lia|].
  rewrite Hy. simpl. eapply (StronglySorted_lookup _ (slots b) j (pred (length (slots b)))); eauto. lia.
Qed.
Lemma flat_elem bs x : x ∈ flat bs ↔ ∃ b, b ∈ bs ∧ x ∈ slots b.
Proof. unfold flat. rewrite list_elem_of_bind. naive_solver. Qed.
Lemma sorted_block bs k b : sorted (flat bs) → bs !! k = Some b → sorted (slots b).
Proof.
  intros Hs Hk. rewrite (flat_split _ _ _ Hk) in Hs.
  by apply StronglySorted_app_1_r, StronglySorted_app_1_l in Hs.
Qed.
Lemma sorted_blocks bs i j b c :
  sorted (flat bs) → Forall (λ b, slots b ≠ []) bs → i ≤ j →
  bs !! i = Some b → bs !! j = Some c → cmp_le compare (last_slot b) (last_slot c).
Proof.
  intros Hs Hne Hij Hi Hj. rewrite Forall_lookup in Hne.
  destruct (decide (i = j)) as [->|]; [by simplify_eq|].
  rewrite (flat_split _ _ _ Hj) in Hs.
  apply (StronglySorted_app_1_elem_of _ _ _ _ _ Hs).
  - apply flat_elem. exists b. split; [|by apply last_slot_elem, (Hne i)].
    apply elem_of_take_lookup. exists i. split; [lia|done].
  - apply elem_of_app. left. by apply last_slot_elem, (Hne j).
Qed.

(** Merging a run [q] of replacements that fits at leaf [k]. *)
Lemma merge_at_leaf bs k b q merged :
  bs !! k = Some b → sorted (flat bs) → sorted q →
  (∀ x y, x ∈ flat (take k bs) → y ∈ q → cmp_le compare x y) →
  (∀ x y, x ∈ q → y ∈ flat (drop (S k) bs) → cmp_le compare x y) →
  merged = list_merge (cmp_le compare) (slots b) q →
  let bs' := <[k := owned merged]> bs in
  sorted (flat bs') ∧ flat bs' ≡ₚ flat bs ++ q.
Proof.
  intros Hk Hs Hq Hl Hr -> bs'.
  assert (flat bs' = flat (take k bs) ++ list_merge (cmp_le compare) (slots b) q
                       ++ flat (drop (S k) bs)) as E.
  { unfold bs'. rewrite insert_take_drop by (by eapply lookup_lt_Some).
    by rewrite flat_app, flat_cons. }
  rewrite (flat_split _ _ _ Hk) in Hs |- *. rewrite E.
  pose proof (merge_Permutation (cmp_le compare) (slots b) q) as Hp. split.
  - rewrite !StronglySorted_app in Hs |- *.
    destruct Hs as (Hs1 & Hs2 & Hs3 & Hs4 & Hs5). split_and!; try done.
    + intros x y Hx. rewrite elem_of_app, Hp, elem_of_app.
      intros [[Hy|Hy]|Hy]; [apply Hs1|by apply Hl|apply Hs1]; rewrite ?elem_of_app; auto.
    + intros x y. rewrite Hp, elem_of_app. intros [Hx|Hx] Hy; [by apply Hs3|by apply Hr].
    + apply Sorted_StronglySorted; [apply _|].
      apply Sorted_list_merge; first [apply _ | by apply StronglySorted_Sorted].
  - rewrite Hp. solve_Permutation.
Qed.

(** Where one turn of the loop merges: the first leaf whose last slot is not
    before [r], or the last leaf. *)
Definition insert_index bs r : nat :=
  partition_point (λ b, is_lt (compare (last_slot b) r)) bs `min` (length bs - 1).
Definition insert_end bs (replacements : list N) (index : nat) (leaf : OrderBlock Sec) : nat :=
  if index + 1 =? length bs then length replacements
  else partition_point (λ slot, negb (is_gt (compare slot (last_slot leaf)))) replacements.

Lemma insert_index_spec bs r :
  sorted (flat bs) → Forall (λ b, slots b ≠ []) bs → bs ≠ [] →
  let index := insert_index bs r in
  index < length bs ∧
  (∀ x, x ∈ flat (take index bs) → cmp_le compare x r) ∧
  (index + 1 ≠ length bs → ∀ leaf, bs !! index = Some leaf →
    cmp_le compare r (last_slot leaf)).
Proof.
  intros Hs Hne Hbs. unfold insert_index.
  assert (length bs ≠ 0) by (by destruct bs).
  destruct (partition_point_spec (λ b, is_lt (compare (last_slot b) r)) bs) as (Hp1 & Hp2 & Hp3).
  { intros i j x y Hij Hx Hy. rewrite !is_lt_true. intros Hyr.
    eapply cmp_le_lt_trans; [done| |exact Hyr]. by eapply (sorted_blocks bs i j). }
  set (pp := partition_point _ bs) in *. cbv zeta. split_and!.
  - lia.
  - intros x (b & (k & Hk & Hb)%elem_of_take_lookup & Hx)%flat_elem.
    specialize (Hp2 k b ltac:(lia) Hb). rewrite is_lt_true in Hp2.
    apply (cmp_lt_le compare). eapply cmp_le_lt_trans; [done| |exact Hp2].
    eapply le_last_slot; [by eapply sorted_block|done].
  - intros Hlast leaf Hleaf. specialize (Hp3 (pp `min` (length bs - 1)) leaf ltac:(lia) Hleaf).
    by rewrite is_lt_false in Hp3.
Qed.
Lemma insert_end_spec bs r rs index leaf :
  let replacements := r :: rs in
  sorted (flat bs) → sorted replacements → Forall (λ b, slots b ≠ []) bs →
  bs !! index = Some leaf →
  (index + 1 ≠ length bs → cmp_le compare r (last_slot leaf)) →
  let end_ := insert_end bs replacements index leaf in
  0 < end_ ∧
  (∀ x y, x ∈ take end_ replacements → y ∈ flat (drop (S index) bs) → cmp_le compare x y).
Proof.
  intros reps Hs Hr Hne Hleaf Hlast. unfold insert_end. apply lookup_lt_Some in Hleaf as Hlt.
  destruct (Nat.eqb_spec (index + 1) (length bs)) as [E|E].
  { split; [simpl; lia|]. intros x y _. rewrite drop_ge by lia. rewrite flat_nil.
    by intros ?%not_elem_of_nil. }
  specialize (Hlast E).
  destruct (partition_point_spec (λ slot, negb (is_gt (compare slot (last_slot leaf)))) reps)
    as (Hp1 & Hp2 & Hp3).
  { intros i j x y Hij Hx Hy. rewrite !negb_true_iff, !is_gt_false. intros Hyl.
    eapply (compare_le_trans compare); [|exact Hyl].
    by eapply (StronglySorted_lookup (cmp_le compare) reps i j). }
  set (pp := partition_point _ reps) in *. cbv zeta. split.
  - destruct (decide (0 < pp)); [done|]. specialize (Hp3 0 r ltac:(lia) eq_refl).
    rewrite negb_false_iff in Hp3. apply is_gt_false in Hlast. congruence.
  - intros x y (j & Hj & Hx)%elem_of_take_lookup (b & Hb & Hy)%flat_elem.
    specialize (Hp2 j x Hj Hx). rewrite negb_true_iff, is_gt_false in Hp2.
    eapply (compare_le_trans compare); [exact Hp2|].
    rewrite (flat_split _ _ _ Hleaf) in Hs. apply StronglySorted_app_1_r in Hs.
    apply (StronglySorted_app_1_elem_of _ _ _ _ _ Hs).
    + apply last_slot_elem. rewrite Forall_lookup in Hne. by apply (Hne index).
    + apply flat_elem. eauto.
Qed.

Definition room bs (replacements : list N) : Prop :=
  (N.of_nat (length (flat bs) + length replacements) < usize_max)%N.

Lemma insert_loop_spec fuel replacements bs old :
  sorted (flat bs) → sorted replacements → Forall (λ b, slots b ≠ []) bs →
  (∀ b, b ∈ bs → section_sound old b) →
  length replacements ≤ fuel → room bs replacements →
  ∃ bs', insert_loop compare fuel replacements bs = Some bs' ∧
    length bs' = length bs ∧ sorted (flat bs') ∧
    (bs ≠ [] → flat bs' ≡ₚ flat bs ++ replacements) ∧
    Forall (λ b, slots b ≠ []) bs' ∧ (∀ b, b ∈ bs' → section_sound old b).
Proof.
  revert replacements bs. induction fuel as [|fuel IH]; intros reps bs Hs Hr Hne Hsec Hf Hroom.
  { destruct reps; [|simpl in Hf; lia]. exists bs. split_and!; try done. by rewrite app_nil_r. }
  destruct reps as [|r rs]; [exists bs; split_and!; try done; by rewrite app_nil_r|].
  destruct bs as [|b0 bs0]; [by exists []|].
  cbn [insert_loop]. set (bs := b0 :: bs0) in *. set (reps := r :: rs) in *.
  fold (insert_index bs r). set (index := insert_index bs r).
  destruct (insert_index_spec bs r Hs Hne ltac:(done)) as (Hil & Hleft & Hright).
  fold index in Hil, Hleft, Hright.
  destruct (lookup_lt_is_Some_2 bs index Hil) as [leaf Hleaf]. rewrite Hleaf.
  cbn [mbind option_bind]. fold (insert_end bs reps index leaf).
  set (e := insert_end bs reps index leaf).
  destruct (insert_end_spec bs r rs index leaf Hs Hr Hne Hleaf) as (He & Hend).
  { intros Hn. by apply Hright. }
  fold reps e in He, Hend.
  assert (length (slots leaf) ≤ length (flat bs)) as Hll.
  { rewrite (flat_split _ _ _ Hleaf), !length_app. lia. }
  unfold room in Hroom.
  rewrite insert_sorted_merge; [|done|lia|by eapply sorted_block].
  cbn [option_bind mbind].
  destruct (merge_at_leaf bs index leaf (take e reps)
    (list_merge (cmp_le compare) (slots leaf) (take e reps))) as (Hs' & Hp'); try done.
  { rewrite <-(take_drop e reps) in Hr. by apply StronglySorted_app_1_l in Hr. }
  { intros x y Hx Hy. eapply (compare_le_trans compare); [by apply Hleft|].
    apply elem_of_take_lookup in Hy as (j & _ & Hj).
    eapply (StronglySorted_lookup (cmp_le compare) reps 0 j); [done|lia|done|done]. }
  set (bs' := <[index := _]> bs) in *.
  assert (length bs' = length bs) as Hlen by apply length_insert.
  destruct (IH (drop e reps) bs') as (bs'' & Hbs & Hlen'' & Hs'' & Hp'' & Hne'' & Hsec'').
  - done.
  - rewrite <-(take_drop e reps) in Hr. by apply StronglySorted_app_1_r in Hr.
  - apply Forall_insert; [done|]. simpl. intros E.
    rewrite Forall_lookup in Hne. apply (Hne _ _ Hleaf).
    pose proof (merge_Permutation (cmp_le compare) (slots leaf) (take e reps)) as Hm.
    rewrite E in Hm. apply Permutation_nil_l, eq_sym, app_nil in Hm. tauto.
  - intros b (k & Hk)%list_elem_of_lookup. apply list_lookup_insert_Some in Hk
      as [(-> & <- & _)|(_ & Hk)]; [by left|]. apply Hsec. by eapply list_elem_of_lookup_2.
  - rewrite length_drop. lia.
  - unfold room. apply Permutation_length in Hp'. rewrite length_app, length_take in Hp'.
    rewrite length_drop. lia.
  - exists bs''. rewrite Hbs. split_and!; try done; [by rewrite Hlen''|].
    intros _. rewrite Hp''.
    + rewrite Hp'. rewrite <-(take_drop e reps) at 3. by rewrite app_assoc.
    + intros E. rewrite E in Hlen. done.
Qed.
End insertion.

(** ** Rebalancing, and the whole update *)

Section rebalancing.
Context {Sec : Type}.
Implicit Types (b : OrderBlock Sec) (bs : list (OrderBlock Sec)) (o : SlotOrder Sec).

Lemma leaf_length_pos : 0 < LEAF_LENGTH.
Proof. apply Nat.ltb_lt. vm_compute. done. Qed.
Lemma div_ceil_spec (a b : nat) : 0 < b → a ≤ div_ceil a b * b ∧ (0 < a → 0 < div_ceil a b).
Proof.
  intros Hb. unfold div_ceil. pose proof (Nat.div_mod_eq a b) as Hd.
  pose proof (Nat.mod_upper_bound a b). destruct (Nat.eqb_spec (a mod b) 0); split; nia.
Qed.
Lemma div_ceil_le (a b c : nat) : 0 < b → a ≤ c * b → div_ceil a b ≤ c.
Proof.
  intros Hb Ha. unfold div_ceil. pose proof (Nat.div_mod_eq a b).
  pose proof (Nat.mod_upper_bound a b). destruct (Nat.eqb_spec (a mod b) 0); nia.
Qed.
Lemma flat_owned (parts : list (list N)) : flat (owned (Sec := Sec) <$> parts) = concat parts.
Proof. induction parts as [|p parts IH]; [done|]. by rewrite fmap_cons, flat_cons, IH. Qed.
Lemma owned_chunks_ok n (values : list N) :
  0 < n → n ≤ LEAF_LENGTH → Forall leaf_ok (owned (Sec := Sec) <$> chunks n values).
Proof.
  intros Hn Hl. apply Forall_fmap. eapply Forall_impl; [by apply chunks_nonempty|].
  intros c [Hc ?]. split; simpl; [done|lia].
Qed.
Lemma section_sound_owned old (parts : list (list N)) :
  ∀ b, b ∈ owned (Sec := Sec) <$> parts → section_sound old b.
Proof. intros b (p & -> & _)%list_elem_of_fmap. by left. Qed.

Lemma rebalance_step_spec result b old :
  Forall leaf_ok result → slots b ≠ [] →
  (∀ c, c ∈ result → section_sound old c) → section_sound old b →
  let result' := rebalance_step result b in
  Forall leaf_ok result' ∧ flat result' = flat result ++ slots b ∧
  (∀ c, c ∈ result' → section_sound old c).
Proof.
  intros Hr Hb Hsec Hsb. unfold rebalance_step.
  destruct (LEAF_LENGTH <? length (slots b)) eqn:Hlt.
  - apply Nat.ltb_lt in Hlt. pose proof leaf_length_pos.
    destruct (div_ceil_spec (length (slots b)) LEAF_LENGTH) as [Hc Hpos]; [lia|].
    specialize (Hpos ltac:(lia)). set (count := div_ceil _ _) in *.
    destruct (div_ceil_spec (length (slots b)) count Hpos) as [Hc' Hpos'].
    specialize (Hpos' ltac:(lia)).
    assert (div_ceil (length (slots b)) count ≤ LEAF_LENGTH) by (apply div_ceil_le; lia).
    split_and!.
    + apply Forall_app. split; [done|]. by apply owned_chunks_ok.
    + by rewrite flat_app, flat_owned, chunks_concat.
    + intros c [Hc1|Hc1]%elem_of_app; [by apply Hsec|by eapply section_sound_owned].
  - apply Nat.ltb_ge in Hlt.
    assert (Hpush : Forall leaf_ok (result ++ [b]) ∧ flat (result ++ [b]) = flat result ++ slots b ∧
      (∀ c, c ∈ result ++ [b] → section_sound old c)).
    { split_and!.
      - apply Forall_app. split; [done|]. apply Forall_singleton. by split.
      - by rewrite flat_app, flat_single.
      - intros c [Hc| ->%list_elem_of_singleton]%elem_of_app; auto. }
    destruct (last result) as [p|] eqn:Hlast; [|done].
    destruct (_ <=? _) eqn:Hfit; [|done]. apply Nat.leb_le in Hfit.
    apply last_Some in Hlast as [init ->].
    rewrite length_app, Nat.add_sub. simpl.
    assert (alter (edit (λ s, s ++ slots b)) (length init) (init ++ [p])
      = init ++ [edit (λ s, s ++ slots b) p]) as ->.
    { rewrite alter_app_r_alt by lia. by rewrite Nat.sub_diag. }
    apply Forall_app in Hr as [Hi Hp]. inversion Hp as [|? ? [Hp1 Hp2] _]; subst. split_and!.
    + apply Forall_app. split; [done|]. constructor; [|constructor]. split; simpl.
      * intros [? ?]%app_nil. done.
      * rewrite length_app. lia.
    + by rewrite !flat_app, !flat_single, <-app_assoc.
    + intros c [Hc| ->%list_elem_of_singleton]%elem_of_app; [|by left].
      apply Hsec, elem_of_app. by left.
Qed.
Lemma rebalance_spec bs result old :
  Forall leaf_ok result → Forall (λ b, slots b ≠ []) bs →
  (∀ c, c ∈ result → section_sound old c) → (∀ c, c ∈ bs → section_sound old c) →
  let result' := foldl rebalance_step result bs in
  Forall leaf_ok result' ∧ flat result' = flat result ++ flat bs ∧
  (∀ c, c ∈ result' → section_sound old c).
Proof.
  revert result. induction bs as [|b bs IH]; intros result Hr Hb Hsec Hsb; simpl.
  { by rewrite flat_nil, app_nil_r. }
  inversion_clear Hb as [|? ? Hb1 Hb2].
  destruct (rebalance_step_spec result b old Hr Hb1 Hsec) as (H1 & H2 & H3).
  { apply Hsb. left. }
  destruct (IH (rebalance_step result b) H1 Hb2 H3) as (H4 & H5 & H6).
  { intros c Hc. apply Hsb. by right. }
  split_and!; try done. by rewrite H5, H2, flat_cons, app_assoc.
Qed.

Lemma from_blocks_ok bs : Forall leaf_ok bs → order_ok (from_blocks bs).
Proof. done. Qed.
Lemma from_vec_ok (values : list N) : order_ok (Sec := Sec) (from_vec values).
Proof. apply from_blocks_ok, owned_chunks_ok; [apply leaf_length_pos|done]. Qed.
Lemma from_vec_flat (values : list N) : to_vec (Sec := Sec) (from_vec values) = values.
Proof. unfold to_vec. simpl. rewrite flat_owned. apply chunks_concat, leaf_length_pos. Qed.

Lemma filter_nonempty_flat bs : flat (filter nonempty bs) = flat bs.
Proof.
  induction bs as [|b bs IH]; [done|]. rewrite filter_cons. unfold nonempty at 1.
  case_decide as H; rewrite !flat_cons, ?IH; [done|].
  destruct (slots b) eqn:E; [done|]. rewrite bool_decide_false in H by done. by destruct H.
Qed.
Lemma filter_nonempty_ok bs : Forall (λ b, slots b ≠ []) (filter nonempty bs).
Proof.
  apply Forall_forall. intros b [Hb _]%list_elem_of_filter. unfold nonempty in Hb.
  by case_bool_decide.
Qed.

Lemma updated_spec compare `{!TotalPreorder compare} o removed_ranks replacements :
  let kept := drop_ranks (sort_dedup removed_ranks) 0 (to_vec o) in
  ends_ok o → Forall (λ r, r < length (to_vec o)) removed_ranks →
  StronglySorted (cmp_le compare) kept →
  StronglySorted (cmp_le compare) replacements →
  (N.of_nat (length (to_vec o) + length replacements) < usize_max)%N →
  ∃ o', updated o removed_ranks replacements compare = Some o' ∧
    order_ok o' ∧ StronglySorted (cmp_le compare) (to_vec o') ∧
    to_vec o' ≡ₚ kept ++ replacements ∧
    (∀ b, b ∈ blocks o' → section_sound (blocks o) b).
Proof.
  intros kept Hok Hranks Hk Hr Hmax. unfold updated.
  destruct (sort_dedup_spec removed_ranks) as [Hs Hin].
  destruct (removal_flat o (sort_dedup removed_ranks) Hok Hs) as (bs & -> & Hflat & Hsec & _).
  { rewrite Forall_forall in Hranks |- *. intros r Hr'. apply Hranks. by apply Hin. }
  cbn [mbind option_bind]. fold kept in Hflat.
  destruct (insert_loop_spec compare (length replacements) replacements (filter nonempty bs) (blocks o))
    as (bs' & -> & Hlen & Hs' & Hp & Hne & Hsec'); try done.
  { by rewrite filter_nonempty_flat, Hflat. }
  { apply filter_nonempty_ok. }
  { intros b [_ Hb]%list_elem_of_filter. by apply Hsec. }
  { unfold room. rewrite filter_nonempty_flat, Hflat.
    pose proof (sublist_length _ _ (drop_ranks_sublist (sort_dedup removed_ranks) 0 (to_vec o))).
    unfold kept. lia. }
  rewrite filter_nonempty_flat, Hflat in Hp. cbn [option_bind].
  destruct (decide (bs' = [] ∧ replacements ≠ [])) as [[-> Hrne]|Hcase].
  - destruct replacements as [|r rs]; [done|]. eexists. split; [done|].
    rewrite from_vec_flat. split_and!; try done; [apply from_vec_ok| |].
    + symmetry in Hlen. apply length_zero_iff_nil in Hlen.
      assert (kept = []) as ->; [|done].
      rewrite <-Hflat, <-(filter_nonempty_flat bs). by rewrite Hlen.
    + apply section_sound_owned.
  - destruct (rebalance_spec bs' [] (blocks o)) as (H1 & H2 & H3); try done.
    { intros c ?%not_elem_of_nil. done. }
    rewrite flat_nil in H2. simpl in H2.
    exists (from_blocks (foldl rebalance_step [] bs')). split_and!; try done.
    + destruct bs', replacements; try done. exfalso. by apply Hcase.
    + unfold to_vec. simpl. by rewrite H2.
    + unfold to_vec. simpl. rewrite H2. destruct bs' as [|b bs'].
      * destruct replacements; [|exfalso; by apply Hcase].
        symmetry in Hlen. apply length_zero_iff_nil in Hlen.
        rewrite <-Hflat, <-(filter_nonempty_flat bs). by rewrite Hlen.
      * apply Hp. intros E. by rewrite E in Hlen.
Qed.

(** C37: [updated] refines the update of a flat order.  For in-range ranks and
    sorted replacements it does not fail its assertion; its leaves are well
    formed (non-empty, at most [LEAF_LENGTH] slots, exact directory); read
    flat, it is the sorted arrangement of the kept slots and the
    replacements; and a leaf that still carries a persisted section is a
    leaf of the original order, so a section is never reused for slots it
    does not hold. *)
Theorem updated_refines compare `{!TotalPreorder compare} o removed_ranks replacements :
  let kept := drop_ranks (sort_dedup removed_ranks) 0 (to_vec o) in
  ends_ok o → Forall (λ r, r < length (to_vec o)) removed_ranks →
  StronglySorted (cmp_le compare) kept →
  StronglySorted (cmp_le compare) replacements →
  (N.of_nat (length (to_vec o) + length replacements) < usize_max)%N →
  ∃ o', updated o removed_ranks replacements compare = Some o' ∧
    order_ok o' ∧ StronglySorted (cmp_le compare) (to_vec o') ∧
    to_vec o' ≡ₚ kept ++ replacements ∧
    (∀ b, b ∈ blocks o' → section_sound (blocks o) b).
Proof. exact (updated_spec compare o removed_ranks replacements). Qed.
End rebalancing.

Lemma updated_refines_witness :
  ∃ o', updated (Sec := ()) (from_vec [2; 4; 6; 8]%N) [1; 1; 3] [1; 5; 9]%N N.compare = Some o' ∧
    to_vec o' ≡ₚ [2; 6; 1; 5; 9]%N.
Proof.
  destruct (updated_refines (Sec := ()) N.compare (from_vec [2; 4; 6; 8]%N) [1; 1; 3] [1; 5; 9]%N)
    as (o' & H & _ & _ & Hp & _); [apply from_vec_ok|by_decide|by_decide|by_decide|by_decide|].
  exists o'. split; [exact H|]. rewrite Hp. vm_compute. reflexivity.
Defined.

(** Reads of a block order agree with its flat order: [get] is indexing,
    [extend_range] appends exactly the requested slice (its assertion holds
    for an ordered range inside the order), and [len] is the flat length. *)
Theorem reads_agree_with_flat {Sec} (o : SlotOrder Sec) output start_ end_ rank :
  ends_ok o → start_ ≤ end_ ≤ len o →
  get o rank = to_vec o !! rank ∧
  len o = length (to_vec o) ∧
  extend_range o output start_ end_ =
    Some (output ++ take (end_ - start_) (drop start_ (to_vec o))).
Proof.
  intros Hok [Hse He]. split_and!; [by apply get_flat|by apply len_flat|].
  by apply extend_range_flat.
Qed.
Lemma reads_agree_with_flat_witness :
  let o := from_vec (Sec := ()) [10; 20; 30; 40]%N in
  get o 2 = Some 30%N ∧ extend_range o [7]%N 1 3 = Some [7; 20; 30]%N.
Proof.
  destruct (reads_agree_with_flat (from_vec (Sec := ()) [10; 20; 30; 40]%N) [7]%N 1 3 2)
    as (H1 & _ & H2); [apply from_vec_ok|vm_compute; split; repeat constructor|].
  split; [rewrite H1|rewrite H2]; vm_compute; reflexivity.
Defined.

(** ** Searching *)

Section search.
Context {Sec : Type}.
Implicit Types (o : SlotOrder Sec).

Lemma search_leaf o (compare : N → comparison) k leaf :
  order_ok o → partitioned compare (to_vec o) → blocks o !! k = Some leaf →
  partitioned compare (slots leaf).
Proof.
  intros [Hok _] Hp Hk.
  assert (Hin : ∀ i x, slots leaf !! i = Some x → to_vec o !! (before (blocks o) k + i) = Some x).
  { intros i x Hx. unfold to_vec. rewrite (lookup_in_block _ _ _ _ Hk).
    - by rewrite Nat.add_comm, Nat.add_sub.
    - rewrite (before_S _ _ _ Hk). apply lookup_lt_Some in Hx. lia. }
  intros i j x y Hij Hx%Hin Hy%Hin. eapply Hp; [|exact Hx|exact Hy]. lia.
Qed.
Lemma last_slot_rank o k leaf :
  order_ok o → blocks o !! k = Some leaf →
  to_vec o !! (before (blocks o) (S k) - 1) = Some (last_slot leaf) ∧
  before (blocks o) k < before (blocks o) (S k).
Proof.
  intros [Hok Hl] Hk. rewrite Forall_lookup in Hl. destruct (Hl k leaf Hk) as [Hne _].
  pose proof (before_S _ _ _ Hk) as HS. assert (0 < length (slots leaf)).
  { destruct (slots leaf); [done|simpl; lia]. }
  split; [|lia]. unfold to_vec. rewrite (lookup_in_block _ _ _ _ Hk) by lia.
  unfold last_slot. rewrite last_lookup.
  replace (before (blocks o) (S k) - 1 - before (blocks o) k) with (pred (length (slots leaf))) by lia.
  destruct (lookup_lt_is_Some_2 (slots leaf) (pred (length (slots leaf)))) as [x ->]; [lia|done].
Qed.

(** The two-level [binary_search_by] over leaves is a binary search of the
    flat order: [Ok] gives a rank whose slot compares equal, [Err] gives the
    insertion point. *)
Theorem order_search_flat o (compare : N → comparison) :
  order_ok o → partitioned compare (to_vec o) →
  match order_binary_search_by o compare with
  | inl rank => ∃ x, to_vec o !! rank = Some x ∧ compare x = Eq
  | inr rank => rank ≤ length (to_vec o) ∧
      (∀ j x, j < rank → to_vec o !! j = Some x → compare x = Lt) ∧
      (∀ j x, rank ≤ j → to_vec o !! j = Some x → compare x = Gt)
  end.
Proof.
  intros Hok Hp. unfold order_binary_search_by. pose proof Hok as [Hends _].
  destruct (partition_point_spec (λ leaf, is_lt (compare (last_slot leaf))) (blocks o))
    as (Hk & Hlow & Hhigh).
  { intros i j b c Hij Hb Hc. destruct (last_slot_rank o i b Hok Hb) as [Hbr ?].
    destruct (last_slot_rank o j c Hok Hc) as [Hcr ?].
    pose proof (before_mono (blocks o) (S i) (S j) ltac:(lia)).
    destruct (Hp (before (blocks o) (S i) - 1) (before (blocks o) (S j) - 1) _ _
      ltac:(lia) Hbr Hcr) as [Hlt _].
    unfold is_lt. destruct (compare (last_slot c)); try done. by rewrite Hlt. }
  set (k := partition_point _ (blocks o)) in *.
  assert (Hbefore : ∀ j x, j < before (blocks o) k → to_vec o !! j = Some x → compare x = Lt).
  { intros j x Hj Hx. destruct k as [|k']; [unfold before in Hj; simpl in Hj; lia|].
    destruct (lookup_lt_is_Some_2 (blocks o) k') as [b Hb]; [lia|].
    specialize (Hlow k' b ltac:(lia) Hb). destruct (last_slot_rank o k' b Hok Hb) as [Hbr ?].
    destruct (Hp j (before (blocks o) (S k') - 1) _ _ ltac:(lia) Hx Hbr) as [Hlt _].
    apply Hlt. by destruct (compare (last_slot b)). }
  destruct (blocks o !! k) as [leaf|] eqn:Hleaf.
  2:{ apply lookup_ge_None in Hleaf. replace k with (length (blocks o)) in * by lia.
      rewrite before_all in Hbefore. rewrite len_flat by done.
      split_and!; [done|done|]. intros j x Hj Hx%lookup_lt_Some. lia. }
  specialize (Hhigh k leaf ltac:(lia) Hleaf). pose proof (before_S _ _ _ Hleaf) as HS.
  pose proof (binary_search_by_spec compare (slots leaf) (search_leaf o compare k leaf Hok Hp Hleaf)) as Hb.
  rewrite start_before by done.
  assert (Hrank : ∀ r, r < length (slots leaf) →
    to_vec o !! (before (blocks o) k + r) = slots leaf !! r).
  { intros r Hr. unfold to_vec. rewrite (lookup_in_block _ _ _ _ Hleaf) by lia. f_equal. lia. }
  destruct (binary_search_by compare (slots leaf)) as [r|r].
  - destruct Hb as (x & Hx & Hc). exists x. split; [|done].
    rewrite Hrank; [done|by eapply lookup_lt_Some].
  - destruct Hb as (Hr & Hl & Hg).
    assert (before (blocks o) (S k) ≤ length (to_vec o)) as Hend.
    { unfold to_vec. rewrite <-before_all. apply before_mono.
      apply lookup_lt_Some in Hleaf. lia. }
    split_and!; [lia| |].
    + intros j x Hj Hx. destruct (decide (j < before (blocks o) k)) as [|Hge]; [by eapply Hbefore|].
      apply (Hl (j - before (blocks o) k)); [lia|]. rewrite <-Hrank by lia.
      by replace (before (blocks o) k + (j - before (blocks o) k)) with j by lia.
    + intros j x Hj Hx. destruct (decide (j < before (blocks o) (S k))) as [Hlt|Hge].
      * apply (Hg (j - before (blocks o) k)); [lia|]. rewrite <-Hrank by lia.
        by replace (before (blocks o) k + (j - before (blocks o) k)) with j by lia.
      * destruct (last_slot_rank o k leaf Hok Hleaf) as [Hlr ?].
        destruct (Hp (before (blocks o) (S k) - 1) j _ _ ltac:(lia) Hlr Hx) as [_ Hgt].
        apply Hgt. destruct (compare (last_slot leaf)) eqn:E; [|done|done]. exfalso.
        assert (∃ i, i < length (slots leaf) ∧ slots leaf !! i = Some (last_slot leaf)) as (i & Hi & Hil).
        { exists (length (slots leaf) - 1). split; [lia|]. rewrite <-Hrank by lia.
          rewrite <-Hlr. f_equal. lia. }
        destruct (decide (i < r)); [rewrite (Hl i _ ltac:(done) Hil) in E
          |rewrite (Hg i _ ltac:(lia) Hil) in E]; done.
Qed.
End search.
Lemma order_search_flat_witness :
  order_binary_search_by (from_vec (Sec := ()) [10; 20; 30; 40]%N) (λ s, N.compare s 30) = inl 2 ∧
  ∃ x, to_vec (from_vec (Sec := ()) [10; 20; 30; 40]%N) !! 2 = Some x ∧ N.compare x 30 = Eq.
Proof.
  assert (E : order_binary_search_by (from_vec (Sec := ()) [10; 20; 30; 40]%N)
    (λ s, N.compare s 30) = inl 2) by (vm_compute; reflexivity).
  split; [exact E|].
  pose proof (order_search_flat (from_vec (Sec := ()) [10; 20; 30; 40]%N) (λ s, N.compare s 30)
    (from_vec_ok _)) as H.
  rewrite E in H. apply H. rewrite from_vec_flat. apply (sorted_partitioned N.compare).
  by_decide.
Defined.
