(* ===== verification/Bitmap.v ===== *)
(** * Slot sets: the RoaringBitmap interface, run building, and order validation

    [RoaringBitmap] is a third-party crate.  The development uses it through
    the operations of [Roaring] and relies on their documented meaning,
    [RoaringLaws]: a bitmap is a finite set of slots, iterated in ascending
    order.  [gset N] is a model of the laws, used by the witnesses.

    Modelled here on that interface: core/src/bitmap_builder.rs
    ([RunBitmapBuilder]) and core/src/order_validation.rs ([RemainingSlots]). *)
From S2P Require Import Prelude.

Class Roaring (B : Type) := {
  bm_new : B;
  bm_contains : N → B → bool;
  bm_insert : N → B → B;
  bm_insert_range : N → N → B → B;   (* both ends included *)
  bm_remove : N → B → B;
  bm_and : B → B → B;
  bm_or : B → B → B;
  bm_sub : B → B → B;
  bm_iter : B → list N;
  bm_ranges : B → list (N * N);      (* what [next_range] yields *)
}.

Class RoaringLaws (B : Type) `{Roaring B} : Prop := {
  contains_new x : bm_contains x bm_new = false;
  contains_insert x y b : bm_contains x (bm_insert y b) = (x =? y)%N || bm_contains x b;
  contains_insert_range x first last b :
    bm_contains x (bm_insert_range first last b) =
      ((first <=? x)%N && (x <=? last)%N) || bm_contains x b;
  contains_remove x y b : bm_contains x (bm_remove y b) = negb (x =? y)%N && bm_contains x b;
  contains_and x a b : bm_contains x (bm_and a b) = bm_contains x a && bm_contains x b;
  contains_or x a b : bm_contains x (bm_or a b) = bm_contains x a || bm_contains x b;
  contains_sub x a b : bm_contains x (bm_sub a b) = bm_contains x a && negb (bm_contains x b);
  contains_iter x b : bm_contains x b = true ↔ x ∈ bm_iter b;
  iter_sorted b : StronglySorted N.lt (bm_iter b);
  contains_ranges x b :
    bm_contains x b = true ↔ ∃ r, r ∈ bm_ranges b ∧ (r.1 ≤ x ≤ r.2)%N;
}.

Section derived.
Context {B : Type} `{Roaring B}.
(** [len], [is_empty] and [max] are documented in terms of iteration. *)
Definition bm_len (b : B) : nat := length (bm_iter b).
Definition bm_is_empty (b : B) : bool := match bm_iter b with [] => true | _ => false end.
Definition bm_max (b : B) : option N := last (bm_iter b).

(** [PartialEq] compares the sets; the model states it extensionally. *)
Definition bm_same (a b : B) : Prop := ∀ x, bm_contains x a = bm_contains x b.
#[export] Instance bm_same_equiv : Equivalence bm_same.
Proof.
  split; [done|intros a b Hab x; by rewrite Hab|intros a b c Hab Hbc x; by rewrite Hab, Hbc].
Qed.
Context `{!RoaringLaws B}.
#[export] Instance bm_contains_proper : Proper ((=) ==> bm_same ==> (=)) bm_contains.
Proof. intros x _ <- a b Hab. apply Hab. Qed.
#[export] Instance bm_insert_proper : Proper ((=) ==> bm_same ==> bm_same) bm_insert.
Proof. intros x _ <- a b Hab y. by rewrite !contains_insert, Hab. Qed.
#[export] Instance bm_remove_proper : Proper ((=) ==> bm_same ==> bm_same) bm_remove.
Proof. intros x _ <- a b Hab y. by rewrite !contains_remove, Hab. Qed.
#[export] Instance bm_and_proper : Proper (bm_same ==> bm_same ==> bm_same) bm_and.
Proof. intros a b Hab c d Hcd y. by rewrite !contains_and, Hab, Hcd. Qed.
#[export] Instance bm_or_proper : Proper (bm_same ==> bm_same ==> bm_same) bm_or.
Proof. intros a b Hab c d Hcd y. by rewrite !contains_or, Hab, Hcd. Qed.
#[export] Instance bm_sub_proper : Proper (bm_same ==> bm_same ==> bm_same) bm_sub.
Proof. intros a b Hab c d Hcd y. by rewrite !contains_sub, Hab, Hcd. Qed.

Lemma bm_iter_NoDup b : NoDup (bm_iter b).
Proof.
  pose proof (iter_sorted b) as Hs. induction Hs as [|x l _ IH Hf]; constructor; [|done].
  rewrite Forall_forall in Hf. intros Hx%Hf. lia.
Qed.
Lemma bm_is_empty_true b : bm_is_empty b = true ↔ ∀ x, bm_contains x b = false.
Proof.
  unfold bm_is_empty. split.
  - intros He x. apply not_true_iff_false. rewrite contains_iter.
    destruct (bm_iter b); [apply not_elem_of_nil|done].
  - intros Hx. destruct (bm_iter b) as [|y l] eqn:E; [done|].
    assert (bm_contains y b = true) as Hy by (apply contains_iter; rewrite E; left).
    by rewrite Hx in Hy.
Qed.
Lemma bm_max_bound b x :
  bm_contains x b = true → ∃ m, bm_max b = Some m ∧ (x ≤ m)%N.
Proof.
  rewrite contains_iter. intros (j & Hj)%list_elem_of_lookup. unfold bm_max.
  rewrite last_lookup. pose proof (lookup_lt_Some _ _ _ Hj).
  destruct (lookup_lt_is_Some_2 (bm_iter b) (pred (length (bm_iter b)))) as [m Hm]; [lia|].
  exists m. split; [done|]. destruct (decide (j = pred (length (bm_iter b)))) as [->|].
  - simplify_eq. lia.
  - apply N.lt_le_incl. eapply (StronglySorted_lookup_lt N.lt); [apply iter_sorted| |done|done]. lia.
Qed.
End derived.
#[export] Hint Rewrite @contains_new @contains_insert @contains_insert_range @contains_remove
  @contains_and @contains_or @contains_sub using typeclasses eauto : bitmap.

(** ** A model of the interface *)

Definition N_range (first last : N) : list N :=
  N.of_nat <$> seq (N.to_nat first) (N.to_nat (last + 1 - first)).
#[export] Instance gset_roaring : Roaring (gset N) := {
  bm_new := ∅;
  bm_contains x b := bool_decide (x ∈ b);
  bm_insert x b := {[x]} ∪ b;
  bm_insert_range first last b := list_to_set (N_range first last) ∪ b;
  bm_remove x b := b ∖ {[x]};
  bm_and := (∩);
  bm_or := (∪);
  bm_sub := (∖);
  bm_iter b := merge_sort N.le (elements b);
  bm_ranges b := (λ x, (x, x)) <$> elements b;
}.
Lemma elem_of_N_range x first last : x ∈ N_range first last ↔ (first ≤ x ≤ last)%N.
Proof.
  unfold N_range. rewrite list_elem_of_fmap. split.
  - intros (n & -> & Hn%elem_of_seq). lia.
  - intros Hx. exists (N.to_nat x). split; [lia|]. apply elem_of_seq. lia.
Qed.
#[export] Instance gset_roaring_laws : RoaringLaws (gset N).
Proof.
  split; unfold bm_contains, bm_new, bm_insert, bm_insert_range, bm_remove, bm_and, bm_or,
    bm_sub, bm_iter, bm_ranges, gset_roaring.
  - intros x. by rewrite bool_decide_false by set_solver.
  - intros x y b. destruct (N.eqb_spec x y) as [->|]; simpl; [by rewrite bool_decide_true by set_solver|].
    apply bool_decide_ext. set_solver.
  - intros x first end_ b. destruct (N.leb_spec first x), (N.leb_spec x end_); simpl;
      [rewrite bool_decide_true; [done|]|apply bool_decide_ext..];
      rewrite elem_of_union, elem_of_list_to_set, elem_of_N_range; intuition lia.
  - intros x y b. destruct (N.eqb_spec x y) as [->|]; simpl; [by rewrite bool_decide_false by set_solver|].
    apply bool_decide_ext. set_solver.
  - intros x a b. rewrite <-bool_decide_and. apply bool_decide_ext. set_solver.
  - intros x a b. rewrite <-bool_decide_or. apply bool_decide_ext. set_solver.
  - intros x a b. rewrite <-bool_decide_not, <-bool_decide_and. apply bool_decide_ext. set_solver.
  - intros x b. rewrite bool_decide_eq_true. rewrite (merge_sort_Permutation N.le (elements b)).
    by rewrite elem_of_elements.
  - intros b. pose proof (StronglySorted_merge_sort N.le (elements b)) as Hs.
    pose proof (NoDup_elements b) as Hn.
    rewrite <-(merge_sort_Permutation N.le (elements b)) in Hn.
    induction Hs as [|x l Hs IH Hf]; [constructor|]. apply NoDup_cons in Hn as [Hx Hn].
    constructor; [by apply IH|]. rewrite Forall_forall in Hf |- *. intros y Hy.
    specialize (Hf y Hy). assert (x ≠ y) by (intros ->; done). lia.
  - intros x b. rewrite bool_decide_eq_true. setoid_rewrite list_elem_of_fmap. split.
    + intros Hx. exists (x, x). split; [|simpl; lia]. exists x. by rewrite elem_of_elements.
    + intros (r & (y & -> & Hy%elem_of_elements) & Hxy). simpl in Hxy. by replace x with y by lia.
Qed.

(** ** RunBitmapBuilder *)

Section builder.
Context {B : Type} `{Roaring B}.

Record RunBitmapBuilder := { bitmap : B; pending : option (N * N) }.
Definition builder_default : RunBitmapBuilder := {| bitmap := bm_new; pending := None |}.
(** [u32::checked_add] *)
Definition u32_checked_add (a b : N) : option N :=
  if (a + b <=? u32_max)%N then Some (a + b)%N else None.
Definition flush (s : RunBitmapBuilder) : RunBitmapBuilder :=
  match pending s with
  | Some (start, end_) =>
    {| bitmap := if (start =? end_)%N then bm_insert start (bitmap s)
                 else bm_insert_range start end_ (bitmap s);
       pending := None |}
  | None => s
  end.
Definition insert (s : RunBitmapBuilder) (slot : N) : RunBitmapBuilder :=
  match pending s with
  | Some (start, end_) =>
    if decide (u32_checked_add end_ 1 = Some slot) then
      {| bitmap := bitmap s; pending := Some (start, slot) |}
    else {| bitmap := bitmap (flush s); pending := Some (slot, slot) |}
  | None => {| bitmap := bitmap (flush s); pending := Some (slot, slot) |}
  end.
Definition finish (s : RunBitmapBuilder) : B := bitmap (flush s).

Context `{!RoaringLaws B}.

(** The slots a builder stands for, and the invariant of its pending run. *)
Definition builder_contains (s : RunBitmapBuilder) (x : N) : bool :=
  bm_contains x (bitmap s) ||
  match pending s with
  | Some (start, end_) => (start <=? x)%N && (x <=? end_)%N
  | None => false
  end.
Definition builder_ok (s : RunBitmapBuilder) : Prop :=
  ∀ start end_, pending s = Some (start, end_) → (start ≤ end_)%N.

Lemma flush_contains s x :
  builder_ok s → bm_contains x (bitmap (flush s)) = builder_contains s x.
Proof.
  intros Hok. unfold flush, builder_contains, builder_ok in *.
  destruct (pending s) as [[a b]|] eqn:Hp; simpl; [|by rewrite orb_false_r].
  specialize (Hok a b eq_refl). destruct (N.eqb_spec a b) as [->|]; autorewrite with bitmap.
  - rewrite orb_comm. f_equal. apply eq_true_iff_eq.
    rewrite N.eqb_eq, andb_true_iff, !N.leb_le. lia.
  - apply orb_comm.
Qed.
Lemma insert_contains s slot x :
  builder_ok s →
  builder_ok (insert s slot) ∧
  builder_contains (insert s slot) x = (x =? slot)%N || builder_contains s x.
Proof.
  intros Hok. pose proof (flush_contains s x Hok) as Hf. unfold insert.
  assert (Hnew : ∀ s', s' = {| bitmap := bitmap (flush s); pending := Some (slot, slot) |} →
    builder_ok s' ∧ builder_contains s' x = (x =? slot)%N || builder_contains s x).
  { intros s' ->. split; [intros a b [= <- <-]; done|].
    unfold builder_contains at 1. simpl. rewrite Hf, orb_comm. f_equal.
    apply eq_true_iff_eq. rewrite N.eqb_eq, andb_true_iff, !N.leb_le. lia. }
  destruct (pending s) as [[a b]|] eqn:Hp; [|by apply Hnew]. case_decide as Hadj; [|by apply Hnew].
  unfold u32_checked_add in Hadj. case_match; [|done]. injection Hadj as <-.
  specialize (Hok a b Hp). split.
  - intros a' b' [= <- <-]. lia.
  - unfold builder_contains. rewrite Hp. simpl. apply eq_true_iff_eq.
    rewrite !orb_true_iff, !andb_true_iff, !N.leb_le, N.eqb_eq. intuition lia.
Qed.

(** Streaming slots through [RunBitmapBuilder] gives exactly the set of
    the slots, for any order of arrival, with gaps, repetitions and the
    maximal [u32] slot, although runs are buffered and written as ranges. *)
Theorem builder_collects slots x :
  bm_contains x (finish (foldl insert builder_default slots)) = true ↔ x ∈ slots.
Proof.
  assert (Hgen : ∀ s, builder_ok s →
    builder_ok (foldl insert s slots) ∧
    (builder_contains (foldl insert s slots) x = true ↔ builder_contains s x = true ∨ x ∈ slots)).
  { induction slots as [|y slots IH]; intros s Hs; simpl.
    - split; [done|]. rewrite elem_of_nil. tauto.
    - destruct (insert_contains s y x Hs) as [Hok Hc]. destruct (IH _ Hok) as [Hok' ->].
      split; [done|]. rewrite Hc, orb_true_iff, N.eqb_eq, elem_of_cons. tauto. }
  destruct (Hgen builder_default) as [Hok Hc]; [done|].
  unfold finish. rewrite flush_contains, Hc by done. unfold builder_contains. simpl.
  rewrite contains_new. simpl. naive_solver.
Qed.
End builder.
Arguments RunBitmapBuilder : clear implicits.
Lemma builder_collects_witness :
  bm_contains 5 (finish (B := gset N) (foldl insert builder_default [4; 5; 6; 1]%N)) = true ↔
    (5 ∈ [4; 5; 6; 1])%N.
Proof. exact (builder_collects (B := gset N) [4; 5; 6; 1]%N 5). Defined.
