(* ===== verification/OrderValidation.v ===== *)
(** * core/src/order_validation.rs: exact permutation validation

    A persisted order is accepted when every slot it lists can be consumed
    from the live set and their number matches.  [RemainingSlots] is either a
    dense bit mask, filled range by range, or the sparse bitmap itself; this
    file proves both behave as one set. *)
From S2P Require Import Prelude Bitmap.

Section order_validation.
Context {B : Type} `{Roaring B}.

Inductive RemainingSlots :=
| Dense (words : list N)
| Sparse (remaining : B).

(** [words[i] |= mask]; [None] is the out-of-range panic. *)
Definition or_index (i : nat) (mask : N) (words : list N) : option (list N) :=
  word ← words !! i; Some (<[i := N.lor word mask]> words).
(** [words[first..last].fill(u64::MAX)] *)
Definition fill_range (first last_ : nat) (words : list N) : option (list N) :=
  if decide (first ≤ last_ ∧ last_ ≤ length words) then
    Some (take first words ++ replicate (last_ - first) u64_max ++ drop last_ words)
  else None.
Definition mask_range (words : list N) (range : N * N) : option (list N) :=
  let '(first, last_) := range in
  let first_word := N.to_nat (first / 64) in
  let last_word := N.to_nat (last_ / 64) in
  let leading := u64_shl u64_max (first mod 64) in
  let trailing := u64_shr u64_max (63 - last_ mod 64) in
  if first_word =? last_word then or_index first_word (N.land leading trailing) words
  else
    words ← or_index first_word leading words;
    words ← fill_range (first_word + 1) last_word words;
    or_index last_word trailing words.
Fixpoint mask_ranges (words : list N) (ranges : list (N * N)) : option (list N) :=
  match ranges with
  | [] => Some words
  | range :: ranges => words ← mask_range words range; mask_ranges words ranges
  end.

Definition remaining_new (live : B) : option RemainingSlots :=
  let length_ :=
    div_ceil (match bm_max live with Some last_ => N.to_nat last_ + 1 | None => 0 end) 64 in
  if bm_len live * 2 <? length_ * 8 then Some (Sparse live)
  else Dense <$> mask_ranges (replicate length_ 0%N) (bm_ranges live).

Definition consume (s : RemainingSlots) (slot : N) : RemainingSlots * bool :=
  match s with
  | Dense words =>
    match words !! N.to_nat (slot / 64) with
    | None => (s, false)
    | Some word =>
      let mask := u64_shl 1 (slot mod 64) in
      let present := negb (N.land word mask =? 0)%N in
      (Dense (<[N.to_nat (slot / 64) := N.land word (u64_not mask)]> words), present)
    end
  | Sparse remaining => (Sparse (bm_remove slot remaining), bm_contains slot remaining)
  end.

(** The caller's loop (index_sections.rs): consume the order slot by slot and
    refuse it at the first slot that is not live or was seen before.  The
    caller then compares the number of slots with [live.len()]. *)
Fixpoint consume_all (s : RemainingSlots) (order : list N) : bool :=
  match order with
  | [] => true
  | slot :: order => let '(s, present) := consume s slot in present && consume_all s order
  end.

(** ** Bit masks as sets *)

Definition word_bit (words : list N) (x : N) : bool :=
  match words !! N.to_nat (x / 64) with
  | Some word => N.testbit word (x mod 64)
  | None => false
  end.
Definition remaining_contains (s : RemainingSlots) (x : N) : bool :=
  match s with
  | Dense words => word_bit words x
  | Sparse remaining => bm_contains x remaining
  end.

Lemma div_mod_64 x y : (x / 64 = y / 64 → x mod 64 = y mod 64 → x = y)%N.
Proof.
  intros Hd Hm. rewrite (N.div_mod x 64), (N.div_mod y 64) by done. by rewrite Hd, Hm.
Qed.
Lemma mod_64_lt x : (x mod 64 < 64)%N.
Proof. by apply N.mod_lt. Qed.

Lemma or_index_spec i mask words :
  i < length words →
  ∃ words', or_index i mask words = Some words' ∧ length words' = length words ∧
    ∀ x, word_bit words' x =
      word_bit words x || ((N.to_nat (x / 64) =? i) && N.testbit mask (x mod 64)).
Proof.
  intros Hi. destruct (lookup_lt_is_Some_2 _ _ Hi) as [w Hw]. unfold or_index. rewrite Hw. simpl.
  eexists. split; [done|]. split; [apply length_insert|]. intros x. unfold word_bit.
  destruct (Nat.eqb_spec (N.to_nat (x / 64)) i) as [->|Hne].
  - rewrite list_lookup_insert_eq, Hw by done. simpl. by rewrite N.lor_spec.
  - rewrite list_lookup_insert_ne by done. simpl. by rewrite orb_false_r.
Qed.
Lemma fill_range_spec first last_ words :
  first ≤ last_ → last_ ≤ length words →
  ∃ words', fill_range first last_ words = Some words' ∧ length words' = length words ∧
    ∀ x, word_bit words' x =
      word_bit words x || ((first <=? N.to_nat (x / 64)) && (N.to_nat (x / 64) <? last_)).
Proof.
  intros Hfl Hl. unfold fill_range. rewrite decide_True by done. eexists. split; [done|].
  split; [rewrite !length_app, length_take, length_replicate, length_drop; lia|].
  intros x. unfold word_bit. set (k := N.to_nat (x / 64)).
  assert (length (take first words) = first) as Ht by (rewrite length_take; lia).
  destruct (Nat.leb_spec first k); simpl.
  - rewrite lookup_app_r, Ht by lia. destruct (Nat.ltb_spec k last_); simpl.
    + rewrite lookup_app_l by (rewrite length_replicate; lia).
      rewrite lookup_replicate_2 by lia. rewrite testbit_u64_max.
      rewrite (proj2 (N.ltb_lt _ _)) by apply mod_64_lt. by rewrite orb_true_r.
    + rewrite lookup_app_r by (rewrite length_replicate; lia).
      rewrite length_replicate, lookup_drop, orb_false_r.
      by replace (last_ + (k - first - (last_ - first))) with k by lia.
  - rewrite lookup_app_l by lia. rewrite lookup_take_lt by lia. by rewrite orb_false_r.
Qed.

(** The masks of a range, bit by bit. *)
Lemma leading_bit first i :
  (i < 64)%N → N.testbit (u64_shl u64_max (first mod 64)) i = (first mod 64 <=? i)%N.
Proof.
  intros Hi. rewrite testbit_u64_shl, testbit_u64_max.
  destruct (N.leb_spec (first mod 64) i); simpl; [|done].
  apply andb_true_iff. rewrite !N.ltb_lt. lia.
Qed.
Lemma trailing_bit last_ i :
  (i < 64)%N → N.testbit (u64_shr u64_max (63 - last_ mod 64)) i = (i <=? last_ mod 64)%N.
Proof.
  intros Hi. rewrite testbit_u64_shr, testbit_u64_max. pose proof (mod_64_lt last_).
  apply eq_true_iff_eq. rewrite N.ltb_lt, N.leb_le. lia.
Qed.

Lemma mask_range_spec words first last_ :
  (first ≤ last_)%N → N.to_nat (last_ / 64) < length words →
  ∃ words', mask_range words (first, last_) = Some words' ∧ length words' = length words ∧
    ∀ x, word_bit words' x = word_bit words x || ((first <=? x)%N && (x <=? last_)%N).
Proof.
  intros Hfl Hl. unfold mask_range.
  pose proof (N.Div0.div_le_mono first last_ 64 Hfl) as Hdiv.
  pose proof (N.div_mod first 64) as Ef. pose proof (N.div_mod last_ 64) as El.
  pose proof (mod_64_lt first). pose proof (mod_64_lt last_).
  destruct (Nat.eqb_spec (N.to_nat (first / 64)) (N.to_nat (last_ / 64))) as [E|E].
  - destruct (or_index_spec (N.to_nat (first / 64))
      (N.land (u64_shl u64_max (first mod 64)) (u64_shr u64_max (63 - last_ mod 64))) words)
      as (w & -> & Hlen & Hw); [lia|].
    exists w. split_and!; [done|done|]. intros x. rewrite Hw. f_equal.
    rewrite N.land_spec, leading_bit, trailing_bit by apply mod_64_lt.
    pose proof (N.div_mod x 64). apply eq_true_iff_eq.
    rewrite !andb_true_iff, Nat.eqb_eq, !N.leb_le. pose proof (mod_64_lt x). lia.
  - destruct (or_index_spec (N.to_nat (first / 64)) (u64_shl u64_max (first mod 64)) words)
      as (w1 & -> & Hlen1 & Hw1); [lia|]. cbn [mbind option_bind].
    destruct (fill_range_spec (N.to_nat (first / 64) + 1) (N.to_nat (last_ / 64)) w1)
      as (w2 & -> & Hlen2 & Hw2); [lia|lia|]. cbn [mbind option_bind].
    destruct (or_index_spec (N.to_nat (last_ / 64)) (u64_shr u64_max (63 - last_ mod 64)) w2)
      as (w3 & -> & Hlen3 & Hw3); [lia|].
    exists w3. split_and!; [done|lia|]. intros x. rewrite Hw3, Hw2, Hw1.
    rewrite leading_bit, trailing_bit by apply mod_64_lt.
    rewrite <-!orb_assoc. f_equal. pose proof (N.div_mod x 64). pose proof (mod_64_lt x).
    apply eq_true_iff_eq.
    rewrite !orb_true_iff, !andb_true_iff, !Nat.eqb_eq, !N.leb_le, Nat.leb_le, Nat.ltb_lt. lia.
Qed.
Lemma mask_ranges_spec ranges words :
  Forall (λ r, (r.1 ≤ r.2)%N ∧ N.to_nat (r.2 / 64) < length words) ranges →
  ∃ words', mask_ranges words ranges = Some words' ∧
    ∀ x, word_bit words' x = true ↔
      word_bit words x = true ∨ ∃ r, r ∈ ranges ∧ (r.1 ≤ x ≤ r.2)%N.
Proof.
  revert words. induction ranges as [|[a b] ranges IH]; intros words Hr; cbn [mask_ranges].
  - exists words. split; [done|]. intros x. setoid_rewrite elem_of_nil. naive_solver.
  - apply Forall_cons in Hr as [[Hab Hb] Hr']. simpl in Hab, Hb.
    destruct (mask_range_spec words a b Hab Hb) as (w & -> & Hlen & Hw). cbn [mbind option_bind].
    destruct (IH w) as (w' & -> & Hw'); [by rewrite Hlen|]. exists w'. split; [done|].
    intros y. rewrite Hw', Hw, orb_true_iff, andb_true_iff, !N.leb_le.
    setoid_rewrite elem_of_cons. split.
    + intros [[?|?]|(r & ? & ?)]; [by left|right; exists (a, b); auto|right; eauto].
    + intros [?|(r & [->|?] & Hx)]; [by do 2 left|by left; right|right; eauto].
Qed.

Context `{!RoaringLaws B}.

Lemma remaining_new_spec live :
  (∀ r, r ∈ bm_ranges live → (r.1 ≤ r.2)%N) →
  ∃ s, remaining_new live = Some s ∧ ∀ x, remaining_contains s x = bm_contains x live.
Proof.
  intros Hord. unfold remaining_new. set (n := div_ceil _ 64). destruct (_ <? _).
  { eexists. split; [done|]. done. }
  destruct (mask_ranges_spec (bm_ranges live) (replicate n 0%N)) as (w & -> & Hw).
  - apply Forall_forall. intros [a b] Hr. specialize (Hord _ Hr). simpl in *. split; [done|].
    assert (bm_contains b live = true) as Hb.
    { apply contains_ranges. exists (a, b). simpl. split; [done|lia]. }
    apply bm_max_bound in Hb as (m & Hm & Hbm). unfold n. rewrite Hm, length_replicate.
    unfold div_ceil. pose proof (N.Div0.div_le_mono b m 64 Hbm) as Hd.
    pose proof (Nat.div_mod_eq (N.to_nat m + 1) 64). pose proof (Nat.mod_upper_bound (N.to_nat m + 1) 64).
    pose proof (N.div_mod m 64). pose proof (mod_64_lt m).
    destruct (Nat.eqb_spec ((N.to_nat m + 1) mod 64) 0); lia.
  - simpl. eexists. split; [done|]. intros x. simpl. apply eq_true_iff_eq.
    rewrite Hw, contains_ranges. split; [|by right]. intros [Hx|]; [|done].
    unfold word_bit in Hx.
    destruct (replicate n 0%N !! N.to_nat (x / 64)) as [w0|] eqn:E; [|done].
    apply lookup_replicate in E as [-> _]. by rewrite N.bits_0 in Hx.
Qed.
Lemma consume_spec s slot :
  (consume s slot).2 = remaining_contains s slot ∧
  ∀ x, remaining_contains (consume s slot).1 x =
    negb (x =? slot)%N && remaining_contains s x.
Proof.
  destruct s as [words|b]; simpl.
  2:{ split; [done|]. intros x. by rewrite contains_remove. }
  unfold word_bit at 1. destruct (words !! N.to_nat (slot / 64)) as [w|] eqn:Hw; simpl.
  - split.
    + apply eq_true_iff_eq. rewrite negb_true_iff, N.eqb_neq. split.
      * intros Hne. destruct (N.testbit w (slot mod 64)) eqn:Hb; [done|]. exfalso. apply Hne.
        apply N.bits_inj. intros i. rewrite N.land_spec, N.bits_0, testbit_u64_one by apply mod_64_lt.
        destruct (N.eqb_spec i (slot mod 64)) as [->|]; [by rewrite Hb|apply andb_false_r].
      * intros Hb Hz. apply (f_equal (λ n, N.testbit n (slot mod 64))) in Hz.
        rewrite N.land_spec, N.bits_0, testbit_u64_one, Hb, N.eqb_refl in Hz by apply mod_64_lt. done.
    + intros x. unfold word_bit. apply lookup_lt_Some in Hw as Hlt.
      destruct (decide (N.to_nat (x / 64) = N.to_nat (slot / 64))) as [E|E].
      * rewrite E, list_lookup_insert_eq, Hw by done.
        rewrite N.land_spec, testbit_u64_not, testbit_u64_one by apply mod_64_lt.
        rewrite andb_comm. f_equal. f_equal. apply eq_true_iff_eq. rewrite !N.eqb_eq. split.
        -- intros Hm. apply div_mod_64; [lia|done].
        -- by intros ->.
      * rewrite list_lookup_insert_ne by done. destruct (N.eqb_spec x slot) as [->|]; [done|].
        done.
  - split; [done|]. intros x. destruct (N.eqb_spec x slot) as [->|]; [|done].
    unfold word_bit. by rewrite Hw.
Qed.
Lemma consume_all_spec s order :
  consume_all s order = true ↔ NoDup order ∧ ∀ x, x ∈ order → remaining_contains s x = true.
Proof.
  revert s. induction order as [|slot order IH]; intros s; simpl.
  - split; [|done]. intros _. split; [constructor|]. intros x ?%not_elem_of_nil. done.
  - destruct (consume_spec s slot) as [Hp Hc].
    destruct (consume s slot) as [s' present]. simpl in *. subst present.
    rewrite andb_true_iff, IH, NoDup_cons. setoid_rewrite elem_of_cons. split.
    + intros (Hs & Hn & Hin). split_and!; [|done|].
      * intros Hx%Hin. rewrite Hc, N.eqb_refl in Hx. done.
      * intros x [->|Hx%Hin]; [done|]. rewrite Hc in Hx. by apply andb_true_iff in Hx as [_ ?].
    + intros ([Hns Hn] & Hin). split_and!; [by apply Hin; left|done|].
      intros x Hx. rewrite Hc, (Hin x) by auto. rewrite andb_true_r, negb_true_iff, N.eqb_neq.
      by intros ->.
Qed.

(** C39: Order validation is exact.  [RemainingSlots::new] does not panic on
    any live set, and consuming every slot of a persisted order and finding
    as many slots as are live accepts precisely the permutations of the live
    slots, in the dense and in the sparse representation alike. *)
Theorem order_validation_exact live order :
  (∀ r, r ∈ bm_ranges live → (r.1 ≤ r.2)%N) →
  ∃ s, remaining_new live = Some s ∧
    (consume_all s order = true ∧ length order = bm_len live ↔ order ≡ₚ bm_iter live).
Proof.
  intros Hord. destruct (remaining_new_spec live Hord) as (s & Hs & Hc). exists s. split; [done|].
  rewrite consume_all_spec. setoid_rewrite Hc. setoid_rewrite contains_iter. split.
  - intros [[Hn Hin] Hl]. apply submseteq_length_Permutation.
    + by apply NoDup_submseteq.
    + unfold bm_len in Hl. lia.
  - intros Hp. split_and!.
    + rewrite Hp. apply bm_iter_NoDup.
    + intros x. by rewrite Hp.
    + by apply Permutation_length.
Qed.
End order_validation.
Lemma order_validation_exact_witness :
  ∃ s, remaining_new (B := gset N) {[ 3%N; 64%N; 1%N ]} = Some s ∧ consume_all s [64; 3; 1]%N = true.
Proof.
  destruct (order_validation_exact (B := gset N) {[ 3%N; 64%N; 1%N ]} [64; 3; 1]%N) as (s & Hs & Hv).
  - intros r (x & -> & _)%list_elem_of_fmap. simpl. reflexivity.
  - exists s. split; [exact Hs|]. apply Hv. by_decide.
Defined.
