(* ===== verification/NaturalOrder.v ===== *)
(** * core/src/query.rs, [natural_cmp_folded]: human numeric ordering

    Bytes are numbers below 256.  The loop is the code's: a position in each
    byte slice, here the two remaining suffixes. *)
From S2P Require Import Prelude.
Local Open Scope N_scope.

Definition is_ascii_digit (c : N) : bool := (48 <=? c) && (c <=? 57).

(** [while left < a.len() && a[left] == b'0'] *)
Fixpoint skip_zeros (l : list N) : list N :=
  match l with
  | c :: l' => if c =? 48 then skip_zeros l' else l
  | [] => []
  end.
(** [while left < a.len() && a[left].is_ascii_digit()]: the run and the rest. *)
Fixpoint digit_run (l : list N) : list N * list N :=
  match l with
  | c :: l' =>
    if is_ascii_digit c then let '(run, rest) := digit_run l' in (c :: run, rest) else ([], l)
  | [] => ([], [])
  end.

(** One turn consumes at least a byte of each suffix, so the length of the
    first slice is enough fuel ([natural_loop_key] holds at that fuel). *)
Fixpoint natural_loop (fuel : nat) (a b : list N) : comparison :=
  match fuel, a, b with
  | S fuel, x :: a', y :: b' =>
    if is_ascii_digit x && is_ascii_digit y then
      let '(da, a'') := digit_run (skip_zeros a) in
      let '(db, b'') := digit_run (skip_zeros b) in
      match then_with (Nat.compare (length da) (length db)) (list_cmp N.compare da db) with
      | Eq => natural_loop fuel a'' b''
      | order => order
      end
    else
      match x ?= y with
      | Eq => natural_loop fuel a' b'
      | order => order
      end
  | _, _, _ => Nat.compare (length a) (length b)
  end.
Definition natural_cmp_folded (a b : list N) : comparison := natural_loop (length a) a b.

Section folded.
(** [fold] normalizes and case-folds with ICU tables: third-party code. *)
Context (fold : list N → list N).
Definition natural_cmp (a b : list N) : comparison := natural_cmp_folded (fold a) (fold b).
End folded.

(** ** What it means: digit runs are numbers, of any size

    The key of a name is the list of its other bytes and of the values of its
    maximal digit runs; a run sorts, against another byte, where a digit
    sorts (48 is the byte of "0"). *)
Definition digits_value (run : list N) : N := foldl (λ n c, 10 * n + (c - 48)) 0 run.
Fixpoint natural_key_fuel (fuel : nat) (l : list N) : list (N * N) :=
  match fuel, l with
  | S fuel, c :: l' =>
    if is_ascii_digit c then
      let '(run, rest) := digit_run l in (48, digits_value run) :: natural_key_fuel fuel rest
    else (c, 0) :: natural_key_fuel fuel l'
  | _, _ => []
  end.
Definition natural_key (l : list N) : list (N * N) := natural_key_fuel (length l) l.
Definition key_cmp : list (N * N) → list (N * N) → comparison :=
  list_cmp (pair_cmp N.compare N.compare).

Example natural_key_report :
  natural_key [114; 48; 49; 50; 46] = [(114, 0); (48, 12); (46, 0)].
Proof. reflexivity. Qed.

Lemma digit_run_app l : let '(run, rest) := digit_run l in
  l = run ++ rest ∧ Forall (λ c, is_ascii_digit c = true) run ∧
  match rest with c :: _ => is_ascii_digit c = false | [] => True end.
Proof.
  induction l as [|c l IH]; simpl; [by split_and!|].
  destruct (is_ascii_digit c) eqn:E; [|by split_and!].
  destruct (digit_run l) as [run rest]. destruct IH as (-> & Hf & Hr).
  split_and!; [done|by constructor|done].
Qed.
Lemma digit_run_skip l :
  (digit_run (skip_zeros l)).2 = (digit_run l).2 ∧
  digits_value (digit_run (skip_zeros l)).1 = digits_value (digit_run l).1 ∧
  match (digit_run (skip_zeros l)).1 with c :: _ => c ≠ 48 | [] => True end.
Proof.
  induction l as [|c l IH]; [done|]. simpl. destruct (N.eqb_spec c 48) as [->|Hc].
  - change (is_ascii_digit 48) with true. simpl.
    destruct (digit_run l) as [run rest]; simpl in *. done.
  - simpl. destruct (is_ascii_digit c); [|done]. by destruct (digit_run l).
Qed.

Lemma digits_value_acc run n :
  foldl (λ n c, 10 * n + (c - 48)) n run = n * 10 ^ N.of_nat (length run) + digits_value run.
Proof.
  unfold digits_value. revert n. induction run as [|c run IH]; intros n.
  - simpl. lia.
  - cbn [foldl length]. rewrite IH, (IH (10 * 0 + (c - 48))).
    rewrite Nat2N.inj_succ, N.pow_succ_r'. nia.
Qed.
Lemma digits_value_bound run :
  Forall (λ c, is_ascii_digit c = true) run → digits_value run < 10 ^ N.of_nat (length run).
Proof.
  induction 1 as [|c run Hc _ IH]; [done|].
  unfold digits_value. cbn [foldl length]. rewrite digits_value_acc.
  rewrite Nat2N.inj_succ, N.pow_succ_r'.
  unfold is_ascii_digit in Hc. apply andb_true_iff in Hc as [? ?%N.leb_le]. nia.
Qed.
Lemma digits_value_cons c run :
  digits_value (c :: run) = (c - 48) * 10 ^ N.of_nat (length run) + digits_value run.
Proof.
  change (digits_value (c :: run)) with (foldl (λ n c, 10 * n + (c - 48)) (c - 48) run).
  apply digits_value_acc.
Qed.
Lemma digits_value_lower c run :
  is_ascii_digit c = true → c ≠ 48 → 10 ^ N.of_nat (length run) ≤ digits_value (c :: run).
Proof.
  intros Hc Hne. rewrite digits_value_cons.
  unfold is_ascii_digit in Hc. apply andb_true_iff in Hc as [?%N.leb_le _]. nia.
Qed.
Lemma same_length_cmp da db :
  Forall (λ c, is_ascii_digit c = true) da → Forall (λ c, is_ascii_digit c = true) db →
  length da = length db →
  list_cmp N.compare da db = (digits_value da ?= digits_value db).
Proof.
  intros Ha. revert db. induction Ha as [|x da Hx Ha IH]; intros [|y db] Hb Hl; try done.
  apply Forall_cons in Hb as [Hy Hb]. simpl in Hl. cbn [list_cmp].
  rewrite IH by (done || lia). rewrite !digits_value_cons.
  pose proof (digits_value_bound da Ha). pose proof (digits_value_bound db Hb).
  replace (length db) with (length da) in * by lia.
  set (p := 10 ^ N.of_nat (length da)) in *. clearbody p.
  unfold is_ascii_digit in Hx, Hy. apply andb_true_iff in Hx as [?%N.leb_le _].
  apply andb_true_iff in Hy as [?%N.leb_le _].
  destruct (N.compare_spec x y) as [->|Hxy|Hxy]; simpl.
  - destruct (N.compare_spec (digits_value da) (digits_value db)); symmetry;
      [apply N.compare_eq_iff|apply N.compare_lt_iff|apply N.compare_gt_iff]; lia.
  - symmetry. apply N.compare_lt_iff. nia.
  - symmetry. apply N.compare_gt_iff. nia.
Qed.
(** Length then bytes, without leading zeros, is numeric order. *)
Lemma run_cmp_value da db :
  Forall (λ c, is_ascii_digit c = true) da → Forall (λ c, is_ascii_digit c = true) db →
  match da with c :: _ => c ≠ 48 | [] => True end →
  match db with c :: _ => c ≠ 48 | [] => True end →
  then_with (Nat.compare (length da) (length db)) (list_cmp N.compare da db) =
    (digits_value da ?= digits_value db).
Proof.
  intros Ha Hb Hza Hzb.
  assert (Hlt : ∀ d e, Forall (λ c, is_ascii_digit c = true) d →
    Forall (λ c, is_ascii_digit c = true) e → match e with c :: _ => c ≠ 48 | [] => True end →
    (length d < length e)%nat → digits_value d < digits_value e).
  { intros d [|c e] Hd He Hz Hl; simpl in Hl; [lia|]. apply Forall_cons in He as [Hc _].
    pose proof (digits_value_bound d Hd). pose proof (digits_value_lower c e Hc Hz).
    assert (10 ^ N.of_nat (length d) ≤ 10 ^ N.of_nat (length e)) by (apply N.pow_le_mono_r; lia). lia. }
  destruct (Nat.compare_spec (length da) (length db)) as [Hl|Hl|Hl]; simpl; symmetry.
  - symmetry. by apply same_length_cmp.
  - apply N.compare_lt_iff. by apply Hlt.
  - apply N.compare_gt_iff. by apply Hlt.
Qed.

Lemma natural_loop_key fuel a b fa fb :
  (length a ≤ fuel)%nat → (length a ≤ fa)%nat → (length b ≤ fb)%nat →
  natural_loop fuel a b = key_cmp (natural_key_fuel fa a) (natural_key_fuel fb b).
Proof.
  revert a b fa fb. induction fuel as [|fuel IH]; intros a b fa fb Hf Ha Hb.
  { destruct a; [|simpl in Hf; lia]. destruct b, fa, fb; simpl in *; try done; try lia.
    all: destruct (is_ascii_digit _); [|done]; by destruct (digit_run b). }
  destruct a as [|x a].
  { destruct b as [|y b]; [by destruct fa, fb|]. destruct fb; [simpl in Hb; lia|].
    destruct fa; simpl; (destruct (is_ascii_digit y); [by destruct (digit_run b)|done]). }
  destruct fa as [|fa]; [simpl in Ha; lia|].
  destruct b as [|y b].
  { destruct fb; simpl; (destruct (is_ascii_digit x); [by destruct (digit_run a)|done]). }
  destruct fb as [|fb]; [simpl in Hb; lia|].
  cbn [natural_loop natural_key_fuel]. simpl in Hf, Ha, Hb.
  destruct (is_ascii_digit x) eqn:Hx, (is_ascii_digit y) eqn:Hy; cbn [andb].
  - destruct (digit_run_skip (x :: a)) as (Ra & Va & Za).
    destruct (digit_run_skip (y :: b)) as (Rb & Vb & Zb).
    pose proof (digit_run_app (x :: a)) as Da. pose proof (digit_run_app (y :: b)) as Db.
    pose proof (digit_run_app (skip_zeros (x :: a))) as Sa.
    pose proof (digit_run_app (skip_zeros (y :: b))) as Sb.
    assert (Hra : digit_run (x :: a) = (x :: (digit_run a).1, (digit_run a).2)).
    { simpl. rewrite Hx. by destruct (digit_run a). }
    assert (Hrb : digit_run (y :: b) = (y :: (digit_run b).1, (digit_run b).2)).
    { simpl. rewrite Hy. by destruct (digit_run b). }
    rewrite Hra in *. rewrite Hrb in *.
    destruct (digit_run (skip_zeros (x :: a))) as [da ra].
    destruct (digit_run (skip_zeros (y :: b))) as [db rb]. simpl in Ra, Rb, Va, Vb, Za, Zb. subst ra rb.
    destruct Sa as (_ & Fa & _), Sb as (_ & Fb & _), Da as (Ea & _), Db as (Eb & _).
    rewrite (run_cmp_value da db Fa Fb Za Zb), Va, Vb. unfold key_cmp. cbn [list_cmp].
    unfold pair_cmp at 1. cbn [fst snd then_with N.compare Pos.compare Pos.compare_cont].
    apply (f_equal length) in Ea, Eb. simpl in Ea, Eb. rewrite length_app in Ea, Eb.
    rewrite (IH _ _ fa fb) by lia. by destruct (_ ?= _).
  - destruct (digit_run (x :: a)) as [run rest]. unfold key_cmp. cbn [list_cmp].
    unfold pair_cmp at 1. cbn [fst snd]. unfold is_ascii_digit in Hx, Hy.
    rewrite andb_true_iff, !N.leb_le in Hx. rewrite andb_false_iff, !N.leb_gt in Hy.
    destruct (N.compare_spec x y), (N.compare_spec 48 y); try lia; done.
  - destruct (digit_run (y :: b)) as [run rest]. unfold key_cmp. cbn [list_cmp].
    unfold pair_cmp at 1. cbn [fst snd]. unfold is_ascii_digit in Hx, Hy.
    rewrite andb_true_iff, !N.leb_le in Hy. rewrite andb_false_iff, !N.leb_gt in Hx.
    destruct (N.compare_spec x y), (N.compare_spec x 48); try lia; done.
  - unfold key_cmp. cbn [list_cmp]. unfold pair_cmp at 1. cbn [fst snd].
    rewrite (IH _ _ fa fb) by lia. by destruct (x ?= y).
Qed.

Lemma natural_cmp_folded_key a b :
  natural_cmp_folded a b = key_cmp (natural_key a) (natural_key b).
Proof. by apply natural_loop_key. Qed.
#[export] Instance natural_cmp_folded_preorder : TotalPreorder natural_cmp_folded.
Proof.
  pose proof (preorder_pullback natural_key key_cmp (list_cmp_preorder _ _)) as [Hopp Htrans].
  split; intros *; rewrite !natural_cmp_folded_key; [apply Hopp|apply Htrans].
Qed.

(** C40: The byte loop of [natural_cmp_folded] compares names as lists of bytes
    and of digit runs valued as numbers, of any length and whatever their
    leading zeros: no overflow, and equal exactly when the keys agree. *)
Theorem natural_order_is_numeric a b :
  natural_cmp_folded a b = key_cmp (natural_key a) (natural_key b) ∧
  (natural_cmp_folded a b = Eq ↔ natural_key a = natural_key b).
Proof.
  split; [apply natural_cmp_folded_key|]. rewrite natural_cmp_folded_key. split.
  - apply (compare_eq_eq (list_cmp (pair_cmp N.compare N.compare))).
  - intros ->. apply (compare_refl (list_cmp (pair_cmp N.compare N.compare))).
Qed.

(** The natural comparator, on raw names through any folding, is a total
    preorder, so sorting by it is well defined. *)
Theorem natural_cmp_is_preorder (fold : list N → list N) : TotalPreorder (natural_cmp fold).
Proof. apply (preorder_pullback fold natural_cmp_folded), _. Qed.
