(* ===== verification/Text.v ===== *)
(** * Rust text: [str] as Unicode scalar values and their UTF-8 bytes

    A [&str] is a list of scalar values ([text]); lengths and offsets are in
    UTF-8 bytes, as Rust counts them, and slicing off a character boundary is
    the panic it is in Rust ([None]).  The operations are the standard
    library's, as the sources use them.  The last part relates searching the
    bytes, which is what the code does, to occurrences in the text. *)
From Stdlib Require Export Ascii.
From S2P Require Import Prelude.

Definition text : Type := list N.
Definition bytes : Type := list N.

(** A string literal of the code, all of which are ASCII. *)
Fixpoint lit (s : string) : text :=
  match s with
  | EmptyString => []
  | String a s => N_of_ascii a :: lit s
  end.
Definition is_lit (t : text) (s : string) : bool := bool_decide (t = lit s).
(** [matches!(t, "a" | "b" | ..)] *)
Definition is_any (t : text) (l : list string) : bool := existsb (is_lit t) l.

(** ** UTF-8 *)

Definition scalar_bound : N := 1114112.
Definition valid_text (t : text) : Prop := Forall (λ c, (c < scalar_bound)%N) t.
Definition len_utf8 (c : N) : nat :=
  if (c <? 128)%N then 1 else if (c <? 2048)%N then 2 else if (c <? 65536)%N then 3 else 4.
Definition encode_utf8 (c : N) : bytes :=
  (if c <? 128 then [c]
   else if c <? 2048 then [192 + c / 64; 128 + c mod 64]
   else if c <? 65536 then [224 + c / 4096; 128 + c / 64 mod 64; 128 + c mod 64]
   else [240 + c / 262144; 128 + c / 4096 mod 64; 128 + c / 64 mod 64; 128 + c mod 64])%N.
(** [str::as_bytes], [str::len] *)
Definition utf8 (t : text) : bytes := t ≫= encode_utf8.
Definition byte_len (t : text) : nat := foldr (λ c n, len_utf8 c + n) 0 t.

(** [&s[..n]] and [&s[n..]]: [None] is the panic off a character boundary. *)
Fixpoint split_at (t : text) (n : nat) : option (text * text) :=
  match n, t with
  | O, _ => Some ([], t)
  | S _, [] => None
  | S _, c :: t' =>
    if len_utf8 c <=? n then
      '(before, after) ← split_at t' (n - len_utf8 c);
      Some (c :: before, after)
    else None
  end.
Definition slice_from (t : text) (n : nat) : option text := snd <$> split_at t n.
Definition slice_to (t : text) (n : nat) : option text := fst <$> split_at t n.

(** ** Characters *)

Definition to_ascii_lowercase_char (c : N) : N :=
  if ((65 <=? c) && (c <=? 90))%N then (c + 32)%N else c.
Definition to_ascii_lowercase (t : text) : text := to_ascii_lowercase_char <$> t.
Definition is_ascii (t : text) : bool := forallb (λ c, (c <? 128)%N) t.
Definition is_ascii_alphabetic (c : N) : bool :=
  ((65 <=? c) && (c <=? 90) || (97 <=? c) && (c <=? 122))%N.
(** [char::is_whitespace]: the Unicode property White_Space. *)
Definition is_whitespace (c : N) : bool :=
  ((9 <=? c) && (c <=? 13) || (c =? 32) || (c =? 133) || (c =? 160) || (c =? 5760) ||
   (8192 <=? c) && (c <=? 8202) || (c =? 8232) || (c =? 8233) || (c =? 8239) ||
   (c =? 8287) || (c =? 12288))%N.

(** ** Patterns *)

Fixpoint strip_prefix (p t : text) : option text :=
  match p, t with
  | [], _ => Some t
  | a :: p, b :: t => if (a =? b)%N then strip_prefix p t else None
  | _ :: _, [] => None
  end.
Definition starts_with (p t : text) : bool := bool_decide (is_Some (strip_prefix p t)).
(** [t.strip_suffix(c)] and [t.ends_with(c)] for a character. *)
Definition strip_suffix_char (c : N) (t : text) : option text :=
  match reverse t with
  | d :: r => if (d =? c)%N then Some (reverse r) else None
  | [] => None
  end.
Definition ends_with_char (c : N) (t : text) : bool :=
  match last t with Some d => (d =? c)%N | None => false end.
(** [t.split(c)]: always at least one part. *)
Fixpoint split_char (c : N) (t : text) : list text :=
  match t with
  | [] => [[]]
  | d :: t =>
    if (d =? c)%N then [] :: split_char c t
    else match split_char c t with
         | part :: parts => (d :: part) :: parts
         | [] => [[d]]
         end
  end.
(** [t.split_once(p)] for a non-empty literal [p]. *)
Fixpoint split_once (p t : text) : option (text * text) :=
  match strip_prefix p t with
  | Some after => Some ([], after)
  | None =>
    match t with
    | [] => None
    | c :: t => '(before, after) ← split_once p t; Some (c :: before, after)
    end
  end.
(** [t.find(pred)], as the split it is used for. *)
Fixpoint split_pred (pred : N → bool) (t : text) : text * text :=
  match t with
  | [] => ([], [])
  | c :: t' => if pred c then ([], t) else let '(a, b) := split_pred pred t' in (c :: a, b)
  end.
Fixpoint trim_start_matches (pred : N → bool) (t : text) : text :=
  match t with
  | c :: t' => if pred c then trim_start_matches pred t' else t
  | [] => []
  end.
Definition trim_end_matches (pred : N → bool) (t : text) : text :=
  reverse (trim_start_matches pred (reverse t)).
Definition trim (t : text) : text :=
  trim_end_matches is_whitespace (trim_start_matches is_whitespace t).
Definition contains_char (c : N) (t : text) : bool := existsb (N.eqb c) t.

(** First occurrence of a byte string: what [memmem::Finder::find] and
    [str::contains] are documented to compute. *)
Fixpoint find_bytes (needle hay : bytes) : option nat :=
  if bool_decide (is_Some (strip_prefix needle hay)) then Some 0
  else match hay with
       | [] => None
       | _ :: hay => S <$> find_bytes needle hay
       end.
Definition found (needle hay : bytes) : bool := bool_decide (is_Some (find_bytes needle hay)).

(** [std::path::Path::parent] on a Unix path.  Components are separated by
    runs of slashes, and a [.] counts only at the front of a relative path. *)
Definition junk_component (root : bool) (component : text) (others : list text) : bool :=
  bool_decide (component = []) ||
  (bool_decide (component = lit ".") && (root || negb (bool_decide (others = [])))).
Fixpoint trim_components (root : bool) (reversed : list text) : list text :=
  match reversed with
  | c :: rest => if junk_component root c rest then trim_components root rest else reversed
  | [] => []
  end.
Fixpoint join_char (c : N) (parts : list text) : text :=
  match parts with
  | [] => []
  | [part] => part
  | part :: parts => part ++ c :: join_char c parts
  end.
Definition path_parent (path : text) : option text :=
  let root := starts_with (lit "/") path in
  let body := if root then drop 1 path else path in
  match trim_components root (reverse (split_char 47 body)) with
  | [] => None
  | _ :: rest =>
    Some ((if root then lit "/" else []) ++
          join_char 47 (reverse (trim_components root rest)))
  end.
Example path_parent_cases :
  path_parent (lit "/a/b.c") = Some (lit "/a") ∧ path_parent (lit "/a") = Some (lit "/") ∧
  path_parent (lit "/") = None ∧ path_parent (lit "a") = Some [] ∧ path_parent [] = None ∧
  path_parent (lit "/a/./b//") = Some (lit "/a") ∧ path_parent (lit ".") = Some [].
Proof. vm_compute. split_and!; reflexivity. Qed.

(** Text in an error message. *)
Definition show (t : text) : string :=
  foldr (λ b s, String (ascii_of_N b) s) EmptyString (utf8 t).

(** ** Lemmas: offsets *)

Lemma len_utf8_pos c : 1 ≤ len_utf8 c.
Proof. unfold len_utf8. repeat case_match; lia. Qed.
Lemma byte_len_app a b : byte_len (a ++ b) = byte_len a + byte_len b.
Proof. induction a as [|c a IH]; simpl; [done|]. rewrite IH. lia. Qed.
Lemma byte_len_ge t : length t ≤ byte_len t.
Proof. induction t as [|c t IH]; simpl; [done|]. pose proof (len_utf8_pos c). lia. Qed.
Lemma utf8_app a b : utf8 (a ++ b) = utf8 a ++ utf8 b.
Proof. apply bind_app. Qed.
Lemma utf8_cons c t : utf8 (c :: t) = encode_utf8 c ++ utf8 t.
Proof. done. Qed.
Lemma encode_length c : length (encode_utf8 c) = len_utf8 c.
Proof. unfold encode_utf8, len_utf8. by repeat case_match. Qed.
Lemma utf8_length t : length (utf8 t) = byte_len t.
Proof. induction t as [|c t IH]; [done|]. rewrite utf8_cons, length_app, encode_length. simpl. lia. Qed.
Lemma split_at_app a b : split_at (a ++ b) (byte_len a) = Some (a, b).
Proof.
  induction a as [|c a IH]; simpl; [by destruct b|].
  pose proof (len_utf8_pos c). destruct (len_utf8 c + byte_len a) as [|n] eqn:E; [lia|].
  rewrite <-E, (proj2 (Nat.leb_le _ _)) by lia.
  replace (len_utf8 c + byte_len a - len_utf8 c) with (byte_len a) by lia. by rewrite IH.
Qed.
Lemma slice_from_app a b : slice_from (a ++ b) (byte_len a) = Some b.
Proof. unfold slice_from. by rewrite split_at_app. Qed.
Lemma slice_to_app a b : slice_to (a ++ b) (byte_len a) = Some a.
Proof. unfold slice_to. by rewrite split_at_app. Qed.

(** ** Lemmas: patterns *)

Lemma strip_prefix_Some p t r : strip_prefix p t = Some r ↔ t = p ++ r.
Proof.
  revert t. induction p as [|a p IH]; intros t; simpl; [naive_solver|].
  destruct t as [|b t]; [naive_solver|]. destruct (N.eqb_spec a b) as [->|]; [|naive_solver].
  rewrite IH. naive_solver.
Qed.
Lemma strip_prefix_dec p t : bool_decide (is_Some (strip_prefix p t)) = true ↔ ∃ r, t = p ++ r.
Proof.
  rewrite bool_decide_eq_true. unfold is_Some. setoid_rewrite strip_prefix_Some. done.
Qed.
Lemma split_once_Some p t a b : split_once p t = Some (a, b) → t = a ++ p ++ b.
Proof.
  revert a. induction t as [|c t IH]; intros a; simpl; destruct (strip_prefix p _) eqn:E.
  - intros [= <- <-]. by apply strip_prefix_Some in E.
  - done.
  - intros [= <- <-]. by apply strip_prefix_Some in E.
  - destruct (split_once p t) as [[a' b']|] eqn:E'; simpl; intros [= <- <-].
    simpl. f_equal. by apply IH.
Qed.
Lemma find_bytes_Some needle hay k :
  find_bytes needle hay = Some k →
  ∃ r, hay = take k hay ++ needle ++ r ∧ k ≤ length hay ∧
    ∀ x y, hay = x ++ needle ++ y → k ≤ length x.
Proof.
  revert k. induction hay as [|b hay IH]; intros k; cbn [find_bytes]; case_bool_decide as Hp.
  - intros [= <-]. destruct Hp as [r Hr%strip_prefix_Some]. exists r. simpl. split_and!; [done|lia|].
    intros. lia.
  - done.
  - intros [= <-]. destruct Hp as [r Hr%strip_prefix_Some]. exists r. simpl. split_and!; [done|lia|].
    intros. lia.
  - intros (k' & Hk & ->)%fmap_Some. destruct (IH k' Hk) as (r & Hr & Hle & Hmin).
    exists r. simpl. split_and!; [by f_equal|lia|].
    intros [|a x] y Hxy; simpl in *.
    + exfalso. apply Hp. exists y. by apply strip_prefix_Some.
    + injection Hxy as -> Hxy. specialize (Hmin _ _ Hxy). lia.
Qed.
Lemma found_spec needle hay : found needle hay = true ↔ ∃ x y, hay = x ++ needle ++ y.
Proof.
  unfold found. rewrite bool_decide_eq_true. split.
  - intros [k Hk]. destruct (find_bytes_Some _ _ _ Hk) as (r & Hr & _ & _). eauto.
  - intros (x & y & ->). induction x as [|a x IH]; simpl.
    + destruct (needle ++ y) as [|b l] eqn:E; cbn [find_bytes]; rewrite bool_decide_true; eauto;
        exists y; by apply strip_prefix_Some.
    + case_bool_decide; [eauto|]. destruct IH as [k ->]. simpl. eauto.
Qed.
Lemma find_bytes_None needle hay :
  find_bytes needle hay = None ↔ ∀ x y, hay ≠ x ++ needle ++ y.
Proof.
  rewrite eq_None_not_Some, <-(bool_decide_eq_true (is_Some _)). fold (found needle hay).
  rewrite found_spec. naive_solver.
Qed.

(** ** Lemmas: UTF-8 is self-synchronizing *)

Definition is_continuation (b : N) : bool := ((128 <=? b) && (b <? 192))%N.

Lemma encode_shape c :
  (c < scalar_bound)%N →
  ∃ lead conts, encode_utf8 c = lead :: conts ∧ is_continuation lead = false ∧
    Forall (λ b, is_continuation b = true) conts.
Proof.
  unfold scalar_bound, encode_utf8, is_continuation. intros Hc.
  repeat case_match; rewrite ?N.ltb_lt, ?N.ltb_ge in *; eexists _, _; (split; [done|]);
    (split; [apply andb_false_iff; rewrite N.leb_gt, N.ltb_ge; lia|]);
    repeat constructor; rewrite andb_true_iff, N.leb_le, N.ltb_lt; lia.
Qed.
Lemma encode_inj_app c d x y :
  (c < scalar_bound)%N → (d < scalar_bound)%N →
  encode_utf8 c ++ x = encode_utf8 d ++ y → c = d ∧ x = y.
Proof.
  unfold scalar_bound, encode_utf8. intros Hc Hd.
  repeat case_match; rewrite ?N.ltb_lt, ?N.ltb_ge in *; simpl; intros [=]; subst;
    (split; [lia|done]) || (exfalso; lia).
Qed.
Lemma encode_nonempty c : encode_utf8 c ≠ [].
Proof. unfold encode_utf8. by repeat case_match. Qed.
Lemma utf8_inj a b : valid_text a → valid_text b → utf8 a = utf8 b → a = b.
Proof.
  unfold valid_text. intros Ha. revert b. induction Ha as [|c a Hc _ IH]; intros b Hb Heq.
  - destruct b as [|d b]; [done|]. rewrite utf8_cons in Heq. symmetry in Heq.
    apply app_eq_nil in Heq as [Hd _]. by apply encode_nonempty in Hd.
  - destruct Hb as [|d b Hd Hb].
    { rewrite utf8_cons in Heq. apply app_eq_nil in Heq as [Hd _]. by apply encode_nonempty in Hd. }
    rewrite !utf8_cons in Heq. apply encode_inj_app in Heq as [<- Heq]; [|done..]. f_equal. by apply IH.
Qed.
(** A cut of the bytes before a non-continuation byte is a cut of the text. *)
Lemma utf8_cut h x y :
  valid_text h → utf8 h = x ++ y → (∀ b y', y = b :: y' → is_continuation b = false) →
  ∃ l r, h = l ++ r ∧ x = utf8 l ∧ y = utf8 r.
Proof.
  intros Hv. revert x. induction Hv as [|c h Hc Hv IH]; intros x Heq Hy.
  - symmetry in Heq. apply app_nil in Heq as [-> ->]. by exists [], [].
  - rewrite utf8_cons in Heq. destruct x as [|b x].
    { exists [], (c :: h). by rewrite utf8_cons. }
    apply app_eq_app in Heq as (m & [[Hm1 Hm2]|[Hm1 Hm2]]).
    + destruct m as [|b' m].
      * rewrite app_nil_r in Hm1. simpl in Hm2. subst y.
        exists [c], h. split; [done|]. split; [|done]. rewrite utf8_cons, app_nil_r. done.
      * destruct (encode_shape c Hc) as (lead & conts & He & _ & Hcont).
        rewrite He in Hm1. injection Hm1 as -> Hm1. subst conts.
        apply Forall_app in Hcont as [_ Hcont]. inversion_clear Hcont.
        specialize (Hy b' _ Hm2). congruence.
    + destruct (IH m Hm2 Hy) as (l & r & -> & -> & ->).
      exists (c :: l), r. by rewrite utf8_cons.
Qed.
Lemma utf8_prefix_inv a b y :
  valid_text a → valid_text b → utf8 b = utf8 a ++ y → ∃ r, b = a ++ r ∧ y = utf8 r.
Proof.
  intros Ha. revert b. induction Ha as [|c a Hc Ha IH]; intros b Hb Heq.
  { exists b. simpl in Heq. auto. }
  destruct Hb as [|d b Hd Hb].
  - rewrite utf8_cons in Heq. destruct (encode_utf8 c) eqn:E; [by destruct (encode_nonempty c)|done].
  - rewrite !utf8_cons, <-app_assoc in Heq.
    apply encode_inj_app in Heq as [-> Heq]; [|done|done].
    destruct (IH b Hb Heq) as (r & -> & ->). by exists r.
Qed.
(** Occurrences of a text in the bytes are occurrences in the text. *)
Lemma utf8_occurrence h n x y :
  valid_text h → valid_text n → n ≠ [] → utf8 h = x ++ utf8 n ++ y →
  ∃ l r, h = l ++ n ++ r ∧ x = utf8 l ∧ y = utf8 r.
Proof.
  intros Hh Hn Hne Heq. destruct (utf8_cut h x (utf8 n ++ y) Hh Heq) as (l & r & -> & -> & Hr).
  - destruct Hn as [|c n Hc Hn]; [done|]. rewrite utf8_cons, <-app_assoc.
    destruct (encode_shape c Hc) as (lead & conts & -> & Hl & _). intros b y' [= <- _]. done.
  - apply Forall_app in Hh as [_ Hr']. symmetry in Hr.
    destruct (utf8_prefix_inv n r y Hn Hr' Hr) as (r' & -> & ->). by exists l, r'.
Qed.

(** ** memchr's substring searcher

    A third-party crate: a [Finder] is built for a needle, which it keeps, and
    is documented to find the first occurrence. *)
Class Memmem := {
  Finder : Type;
  finder_new : bytes → Finder;
  finder_find : Finder → bytes → option nat;
  finder_needle : Finder → bytes;
}.
Class MemmemLaws `{Memmem} : Prop := {
  finder_find_first f h : finder_find f h = find_bytes (finder_needle f) h;
  finder_needle_new n : finder_needle (finder_new n) = n;
}.
(** [finder.find(h).is_some()] *)
Definition finds `{Memmem} (f : Finder) (h : bytes) : bool := bool_decide (is_Some (finder_find f h)).
Lemma finds_found `{MemmemLaws} f h : finds f h = found (finder_needle f) h.
Proof. unfold finds, found. by rewrite finder_find_first. Qed.

#[export] Instance bytes_memmem : Memmem :=
  {| finder_new n := n; finder_find := find_bytes; finder_needle n := n |}.
#[export] Instance bytes_memmem_laws : MemmemLaws.
Proof. done. Qed.
