(* ===== verification/QueryLex.v ===== *)
(** * core/src/query.rs, [lex]: the tokens of a query

    The scanner reads characters one at a time; [word] is its state inside an
    atom.  A result is [None] where the code would panic (a slice off a
    character boundary, an unsigned underflow); the theorems show that it
    never does, that the loop ends, and that printed tokens lex back. *)
From S2P Require Import Prelude Text.

(** [keyword]: the parts of a query compared with keywords drop dashes. *)
Definition keyword (s : text) : text :=
  filter (λ c, c ≠ 45%N) (to_ascii_lowercase s).
Definition text_property (key : text) : bool :=
  is_any key ["artist"; "album"; "title"; "kind"; "author"; "subject"; "keywords"; "creator";
    "producer"; "genre"; "copyright"; "composer"; "cameramake"; "cameramodel"].
Definition numeric_property (key : text) : bool :=
  is_any key ["width"; "height"; "duration"; "pages"; "orientation"; "iso"; "focallength";
    "aperture"; "exposuretime"].
(** relations.rs *)
Definition is_metric (field : text) : bool :=
  is_any field ["foldersize"; "childcount"; "childfilecount"; "childfoldercount";
    "descendantcount"; "descendantfilecount"; "descendantfoldercount"].

Inductive token :=
| Atom (s : text) (literal_from : option nat)
| L | R | Or | Not | And.
#[export] Instance token_eq_dec : EqDecision token.
Proof. solve_decision. Defined.

Record word := {
  s : text;
  quoted : bool;
  had_quote : bool;
  literal_from : option nat;
  regex_parentheses : nat;
  regex_mode : bool;
  regex_escaped : bool;
  regex_class : bool;
  numeric_comparison : bool;
  component_start : nat;
}.
Definition word_start : word :=
  {| s := []; quoted := false; had_quote := false; literal_from := None;
     regex_parentheses := 0; regex_mode := false; regex_escaped := false;
     regex_class := false; numeric_comparison := false; component_start := 0 |}.

(** A quotation mark: it ends or begins a quoted part, and the first one marks
    where the literal text begins. *)
Definition toggle_quote (w : word) : word :=
  {| s := s w; quoted := negb (quoted w); had_quote := true;
     literal_from :=
       if negb (quoted w) && bool_decide (literal_from w = None)
       then Some (byte_len (s w)) else literal_from w;
     regex_parentheses := regex_parentheses w; regex_mode := regex_mode w;
     regex_escaped := regex_escaped w; regex_class := regex_class w;
     numeric_comparison := numeric_comparison w; component_start := component_start w |}.
Definition push (c : N) (w : word) : word :=
  {| s := s w ++ [c]; quoted := quoted w; had_quote := had_quote w;
     literal_from := literal_from w;
     regex_parentheses := regex_parentheses w; regex_mode := regex_mode w;
     regex_escaped := regex_escaped w; regex_class := regex_class w;
     numeric_comparison := numeric_comparison w; component_start := component_start w |}.

Definition in_regex (w : word) : bool :=
  regex_mode w && negb (regex_escaped w) && negb (regex_class w).
(** The [break]s of the word loop. *)
Definition breaks (w : word) (c : N) : bool :=
  negb (quoted w) &&
  (is_whitespace c ||
   (if in_regex w then
      ((c =? 60)%N && ends_with_char 58 (s w)) ||
      (((c =? 41)%N || (c =? 62)%N) && (regex_parentheses w =? 0))
    else
      negb (regex_mode w) &&
      ((c =? 40)%N || (c =? 41)%N || (c =? 124)%N ||
       (((c =? 60)%N || (c =? 62)%N) &&
        negb (numeric_comparison w) && negb (ends_with_char 61 (s w)))))).
Definition compares_number (key : text) : bool :=
  numeric_property key || is_metric key ||
  is_any key ["size"; "width"; "height"; "duration"; "pages"; "dm"; "dc"; "modified";
    "created"; "datemodified"; "datecreated"].
(** The rest of the loop body for a character that is kept. *)
Definition count_parentheses (w : word) (c : N) : option nat :=
  if negb (quoted w) && in_regex w then
    if (c =? 40)%N then Some (S (regex_parentheses w))
    else if (c =? 41)%N then
      match regex_parentheses w with O => None | S n => Some n end
    else Some (regex_parentheses w)
  else Some (regex_parentheses w).
Definition scan_char (w : word) (c : N) : option word :=
  parentheses ← count_parentheses w c;
  '(mode, numeric, start) ←
    (if (c =? 58)%N then
       component ← slice_from (s w) (component_start w);
       let key := keyword component in
       Some (if is_lit key "noregex" then false
             else if is_lit key "regex" then true else regex_mode w,
             compares_number key, byte_len (s w) + 1)
     else Some (regex_mode w, false, component_start w));
  let '(escaped, class) :=
    if mode && negb (quoted w) then
      if regex_escaped w then (false, regex_class w)
      else if (c =? 92)%N then (true, regex_class w)
      else if (c =? 91)%N then (false, true)
      else if (c =? 93)%N then (false, false)
      else (false, regex_class w)
    else (regex_escaped w, regex_class w) in
  Some {| s := s w ++ [c]; quoted := quoted w; had_quote := had_quote w;
          literal_from := literal_from w; regex_parentheses := parentheses;
          regex_mode := mode; regex_escaped := escaped; regex_class := class;
          numeric_comparison := numeric; component_start := start |}.

(** The word loop: the word scanned and what is left of the input. *)
Fixpoint scan_word (w : word) (it : text) : option (word * text) :=
  match it with
  | [] => Some (w, [])
  | c :: rest =>
    if (c =? 34)%N then scan_word (toggle_quote w) rest
    else if (c =? 92)%N && quoted w then
      match rest with
      | d :: rest' =>
        if ((d =? 34) || (d =? 92))%N then scan_word (push d w) rest'
        else scan_word (push 92 w) rest
      | [] => scan_word (push 92 w) rest
      end
    else if breaks w c then Some (w, it)
    else w' ← scan_char w c; scan_word w' rest
  end.

Definition word_token (w : word) : result token :=
  if quoted w then Err "Unclosed quotation mark"
  else if bool_decide (s w = []) && negb (had_quote w) then Err "Unexpected query character"
  else Ok (if negb (had_quote w) then
             if is_lit (s w) "OR" then Or
             else if is_lit (s w) "AND" then And
             else if is_lit (s w) "NOT" then Not
             else Atom (s w) (literal_from w)
           else Atom (s w) (literal_from w)).

(** The tokens that are single characters. *)
Definition symbol (c : N) : option token :=
  if ((c =? 40) || (c =? 60))%N then Some L
  else if ((c =? 41) || (c =? 62))%N then Some R
  else if (c =? 124)%N then Some Or
  else if (c =? 33)%N then Some Not
  else None.

Definition MAX_QUERY_BYTES : N := 65536.
Definition MAX_TOKENS : N := 8192.
(** Every turn consumes at least one character ([scan_word_progress]), so the
    length of the input is enough fuel ([lex_total]). *)
Fixpoint lex_loop (fuel : nat) (out : list token) (it : text) : option (result (list token)) :=
  match it, fuel with
  | [], _ => Some (Ok out)
  | _ :: _, O => None
  | c :: rest, S fuel =>
    if (MAX_TOKENS <=? N.of_nat (length out))%N then Some (Err "Query exceeds 8192 tokens")
    else if is_whitespace c then lex_loop fuel out rest
    else match symbol c with
         | Some t => lex_loop fuel (out ++ [t]) rest
         | None =>
           '(w, it) ← scan_word word_start it;
           match word_token w with
           | Err e => Some (Err e)
           | Ok t => lex_loop fuel (out ++ [t]) it
           end
         end
  end.
Definition lex (input : text) : option (result (list token)) :=
  if (MAX_QUERY_BYTES <? N.of_nat (byte_len input))%N then Some (Err "Query exceeds 64 KiB")
  else lex_loop (length input) [] input.

Example lex_mixed :
  lex (lit "report ext:pdf|(size:>10mb !case:A)") =
    Some (Ok [Atom (lit "report") None; Atom (lit "ext:pdf") None; Or; L;
              Atom (lit "size:>10mb") None; Not; Atom (lit "case:A") None; R]).
Proof. vm_compute. reflexivity. Qed.
Example lex_regex :
  lex (lit "<regex:a(b|c)[)]\)>x OR a") =
    Some (Ok [L; Atom (lit "regex:a(b|c)[)]\)") None; R; Atom (lit "x") None; Or;
              Atom (lit "a") None]).
Proof. vm_compute. reflexivity. Qed.

(** ** The scanner never panics and always advances *)

(** [component_start] is a character boundary of the scanned text, and so is
    the start of the literal part, which is set at the first quotation mark. *)
Definition boundary (t : text) (n : nat) : Prop := ∃ a b, t = a ++ b ∧ byte_len a = n.
Definition word_ok (w : word) : Prop :=
  boundary (s w) (component_start w) ∧
  (∀ n, literal_from w = Some n → boundary (s w) n) ∧
  (literal_from w = None → had_quote w = false ∧ quoted w = false).

Lemma boundary_app t u n : boundary t n → boundary (t ++ u) n.
Proof. intros (a & b & -> & <-). exists a, (b ++ u). by rewrite <-app_assoc. Qed.
Lemma boundary_end t : boundary t (byte_len t).
Proof. exists t, []. by rewrite app_nil_r. Qed.
Lemma word_start_ok : word_ok word_start.
Proof. split_and!; [by exists [], []|done|done]. Qed.
Lemma push_ok c w : word_ok w → word_ok (push c w).
Proof.
  intros (H1 & H2 & H3). split_and!; [by apply boundary_app|simpl; eauto using boundary_app|done].
Qed.
Lemma toggle_quote_ok w : word_ok w → word_ok (toggle_quote w).
Proof.
  intros (H1 & H2 & H3). split_and!; [done| |]; simpl.
  - intros n. case_match; [|by apply H2]. intros [= <-]. apply boundary_end.
  - destruct (literal_from w) eqn:E; rewrite ?bool_decide_false, ?andb_false_r by done; [done|].
    destruct H3 as [_ ->]; [done|]. by rewrite bool_decide_true.
Qed.
Lemma scan_char_ok w c :
  word_ok w → breaks w c = false →
  ∃ w', scan_char w c = Some w' ∧ word_ok w' ∧ s w' = s w ++ [c] ∧
    quoted w' = quoted w ∧ had_quote w' = had_quote w ∧ literal_from w' = literal_from w.
Proof.
  intros (H1 & H2 & H3) Hb. unfold scan_char.
  assert (∃ n, count_parentheses w c = Some n) as [n ->].
  { unfold count_parentheses. destruct (negb (quoted w) && in_regex w) eqn:E; [|by eexists].
    apply andb_true_iff in E as [Eq Er]. destruct (c =? 40)%N eqn:E1; [by eexists|].
    destruct (c =? 41)%N eqn:E2; [|by eexists].
    destruct (regex_parentheses w) eqn:Ep; [|by eexists]. exfalso.
    unfold breaks in Hb. rewrite Eq, Er, E2, Ep in Hb. simpl in Hb.
    by rewrite !orb_true_r in Hb. }
  destruct H1 as (a & b & Hs & Ha). cbn [mbind option_bind].
  assert (Hnew : boundary (s w ++ [c]) (component_start w)).
  { rewrite <-Ha, Hs. apply boundary_app. by exists a, b. }
  destruct (N.eqb_spec c 58) as [->|].
  - rewrite Hs, <-Ha, slice_from_app, <-Hs. cbn [mbind option_bind].
    case_match. eexists. split; [done|]. split; [split_and!; simpl|done].
    + exists (s w ++ [58%N]), []. rewrite app_nil_r, byte_len_app. done.
    + eauto using boundary_app.
    + done.
  - cbn [mbind option_bind]. case_match. eexists. split; [done|].
    split; [split_and!; simpl; eauto using boundary_app|done].
Qed.

(** A scan keeps the invariant, stops with an open quotation only at the end
    of the input, and never forgets text or quotation marks. *)
Definition scanned (w w' : word) : Prop :=
  (s w ≠ [] → s w' ≠ []) ∧ (had_quote w = true → had_quote w' = true).
Lemma scan_word_total n it w :
  length it ≤ n → word_ok w →
  ∃ w' it', scan_word w it = Some (w', it') ∧ word_ok w' ∧ length it' ≤ length it ∧
    scanned w w' ∧ (quoted w' = true → it' = []).
Proof.
  revert it w. induction n as [|n IH]; intros [|c it] w Hn Hok; simpl in Hn; try lia;
    [exists w, []; split_and!; done..|].
  assert (Hgo : ∀ w1 it1, length it1 ≤ length it → word_ok w1 → scanned w w1 →
    ∃ w' it', scan_word w1 it1 = Some (w', it') ∧ word_ok w' ∧ length it' ≤ length (c :: it) ∧
      scanned w w' ∧ (quoted w' = true → it' = [])).
  { intros w1 it1 Hl Hok1 [Hs1 Hq1].
    destruct (IH it1 w1 ltac:(lia) Hok1) as (w' & it' & -> & Hok' & Hl' & [Hs' Hq'] & Hq).
    exists w', it'. split_and!; try done; [simpl; lia|]. split; auto. }
  cbn [scan_word]. destruct (c =? 34)%N; [apply Hgo; [lia|by apply toggle_quote_ok|done]|].
  assert (Hpush : ∀ d, scanned w (push d w)).
  { intros d. split; [|done]. simpl. by destruct (s w). }
  destruct ((c =? 92)%N && quoted w).
  { destruct it as [|d it]; [apply Hgo; auto using push_ok|].
    case_match; apply Hgo; auto using push_ok; simpl; lia. }
  destruct (breaks w c) eqn:Hb.
  - exists w, (c :: it). split_and!; try done. unfold breaks in Hb. by destruct (quoted w).
  - destruct (scan_char_ok w c Hok Hb) as (w1 & -> & Hok1 & Hs1 & _ & Hq1 & _).
    cbn [mbind option_bind]. apply Hgo; [lia|done|]. split; [|by rewrite Hq1].
    rewrite Hs1. by destruct (s w).
Qed.
(** An atom takes at least one character of the input and is not empty. *)
Lemma scan_word_progress c it :
  is_whitespace c = false → symbol c = None →
  ∃ w it', scan_word word_start (c :: it) = Some (w, it') ∧ word_ok w ∧ length it' ≤ length it ∧
    (s w ≠ [] ∨ had_quote w = true) ∧ (quoted w = true → it' = []).
Proof.
  intros Hw Hs.
  assert (Hgo : ∀ w1, word_ok w1 → (s w1 ≠ [] ∨ had_quote w1 = true) →
    ∃ w it', scan_word w1 it = Some (w, it') ∧ word_ok w ∧ length it' ≤ length it ∧
    (s w ≠ [] ∨ had_quote w = true) ∧ (quoted w = true → it' = [])).
  { intros w1 Hok1 Hne. destruct (scan_word_total (length it) it w1) as (w' & it' & -> & Hok' & Hl & [Hs' Hq'] & Hq); [lia|done|].
    exists w', it'. split_and!; try done. naive_solver. }
  cbn [scan_word]. destruct (c =? 34)%N eqn:E34.
  { apply Hgo; [apply toggle_quote_ok, word_start_ok|by right]. }
  rewrite andb_false_r. assert (breaks word_start c = false) as Hb.
  { unfold breaks, symbol in *. simpl. rewrite Hw. simpl.
    destruct (c =? 40)%N, (c =? 60)%N, (c =? 41)%N, (c =? 62)%N, (c =? 124)%N; done. }
  rewrite Hb. destruct (scan_char_ok word_start c word_start_ok Hb) as (w1 & -> & Hok1 & Hs1 & _).
  apply Hgo; [done|]. left. by rewrite Hs1.
Qed.

Definition token_ok (t : token) : Prop :=
  match t with
  | Atom s None => s ≠ []
  | Atom s (Some n) => boundary s n
  | _ => True
  end.
Lemma word_token_ok w :
  word_ok w → s w ≠ [] ∨ had_quote w = true →
  match word_token w with
  | Ok t => token_ok t ∧ quoted w = false
  | Err e => e = "Unclosed quotation mark"%string ∧ quoted w = true
  end.
Proof.
  intros (_ & H2 & H3) Hne. unfold word_token. destruct (quoted w) eqn:Eq; [done|].
  destruct (bool_decide (s w = []) && negb (had_quote w)) eqn:E.
  { rewrite andb_true_iff, bool_decide_eq_true, negb_true_iff in E. destruct E, Hne; congruence. }
  assert (token_ok (Atom (s w) (literal_from w))).
  { simpl. destruct (literal_from w) eqn:El; [by apply H2|]. destruct H3 as [Hh _]; [done|].
    destruct Hne as [|]; [done|congruence]. }
  repeat case_match; done.
Qed.

Definition lexed (r : result (list token)) : Prop :=
  match r with
  | Ok tokens => (N.of_nat (length tokens) ≤ MAX_TOKENS)%N ∧ Forall token_ok tokens
  | Err e => e = "Query exceeds 8192 tokens"%string ∨ e = "Unclosed quotation mark"%string
  end.
Lemma lex_loop_total fuel out it :
  length it ≤ fuel → (N.of_nat (length out) ≤ MAX_TOKENS)%N → Forall token_ok out →
  ∃ r, lex_loop fuel out it = Some r ∧ lexed r.
Proof.
  revert out it. induction fuel as [|fuel IH]; intros out [|c it] Hf Hout Hok; simpl in Hf; try lia;
    [by eexists..|].
  cbn [lex_loop]. destruct (N.leb_spec MAX_TOKENS (N.of_nat (length out))).
  { eexists. split; [done|]. by left. }
  destruct (is_whitespace c) eqn:Hw; [apply IH; [lia|done..]|].
  assert (Hpush : ∀ t it', length it' ≤ length it → token_ok t →
    ∃ r, lex_loop fuel (out ++ [t]) it' = Some r ∧ lexed r).
  { intros t it' Hl Ht. apply IH; [lia| |apply Forall_app_2; [done|by constructor]].
    rewrite length_app. simpl. lia. }
  destruct (symbol c) as [t|] eqn:Hs.
  { apply Hpush; [lia|]. unfold symbol in Hs. repeat case_match; by simplify_eq. }
  destruct (scan_word_progress c it Hw Hs) as (w & it' & -> & Hwok & Hl & Hne & _).
  cbn [mbind option_bind]. pose proof (word_token_ok w Hwok Hne) as Ht.
  destruct (word_token w) as [t|e]; [apply Hpush; [lia|apply Ht]|].
  eexists. split; [done|]. right. apply Ht.
Qed.

Lemma lex_runs input : ∃ r, lex input = Some r.
Proof.
  unfold lex. case_match; [by eexists|].
  destruct (lex_loop_total (length input) [] input) as (r & Hr & _); [done..|by exists r].
Qed.
(** C8: Lexing is total.  Whatever the input, [lex] neither slices off a
    character boundary, nor underflows its parenthesis counter, nor loops: it
    gives at most 8192 tokens, or one of three errors, and the length error
    exactly when the input is longer than 64 KiB.  In particular the
    [Unexpected query character] branch is unreachable.  Every atom is
    non-empty or quoted, and the start of its literal part is a character
    boundary of its text. *)
Theorem lex_total input :
  ∃ r, lex input = Some r ∧
    (if (MAX_QUERY_BYTES <? N.of_nat (byte_len input))%N
     then r = Err "Query exceeds 64 KiB" else lexed r).
Proof.
  unfold lex. case_match; [by eexists|]. by apply lex_loop_total.
Qed.

(** ** Printing and lexing back *)

(** Quoted text: quotation marks and backslashes escaped. *)
Definition escape (t : text) : text :=
  t ≫= λ c, if ((c =? 34) || (c =? 92))%N then [92%N; c] else [c].
Definition print_token (t : token) : text :=
  match t with
  | Atom s _ => 34%N :: escape s ++ [34%N]
  | L => lit "(" | R => lit ")" | Or => lit "|" | Not => lit "!" | And => lit "AND"
  end.
Definition print (tokens : list token) : text := tokens ≫= λ t, 32%N :: print_token t.
(** An atom whose whole text was quoted. *)
Definition literal (t : token) : Prop :=
  match t with Atom _ lf => lf = Some 0 | _ => True end.

Lemma scan_quoted t w rest :
  word_ok w → quoted w = true →
  ∃ w', scan_word w (escape t ++ 34%N :: rest) = scan_word (toggle_quote w') rest ∧
    s w' = s w ++ t ∧ quoted w' = true ∧ had_quote w' = had_quote w ∧
    literal_from w' = literal_from w.
Proof.
  revert w. induction t as [|c t IH]; intros w Hok Hq.
  { exists w. by rewrite app_nil_r. }
  assert (Hgo : ∀ w1, word_ok w1 → s w1 = s w ++ [c] → quoted w1 = true →
    had_quote w1 = had_quote w → literal_from w1 = literal_from w →
    ∃ w', scan_word w1 (escape t ++ 34%N :: rest) = scan_word (toggle_quote w') rest ∧
      s w' = s w ++ c :: t ∧ quoted w' = true ∧ had_quote w' = had_quote w ∧
      literal_from w' = literal_from w).
  { intros w1 Hok1 Hs1 Hq1 Hh1 Hl1. destruct (IH w1 Hok1 Hq1) as (w' & Hw' & Hs' & ? & ? & ?).
    exists w'. split_and!; try congruence. by rewrite Hs', Hs1, <-app_assoc. }
  unfold escape. rewrite bind_cons, <-app_assoc. fold (escape t).
  destruct ((c =? 34) || (c =? 92))%N eqn:E.
  - simpl app. cbn [scan_word]. rewrite Hq. change (92 =? 34)%N with false.
    change (92 =? 92)%N with true. cbn [andb]. rewrite E. apply Hgo; eauto using push_ok.
  - apply orb_false_iff in E as [E1 E2]. simpl app. cbn [scan_word]. rewrite E1, E2. cbn [andb].
    assert (breaks w c = false) as Hb by (unfold breaks; by rewrite Hq). rewrite Hb.
    destruct (scan_char_ok w c Hok Hb) as (w1 & -> & Hok1 & Hs1 & Hq1 & Hh1 & Hl1).
    cbn [mbind option_bind]. apply Hgo; congruence.
Qed.
(** What follows a printed token: nothing, or the space before the next. *)
Definition separated (it : text) : Prop := it = [] ∨ ∃ it', it = 32%N :: it'.
Lemma scan_stops w it : quoted w = false → separated it → scan_word w it = Some (w, it).
Proof.
  intros Hq [->|(it' & ->)]; [done|]. cbn [scan_word]. change (32 =? 34)%N with false.
  change (32 =? 92)%N with false. cbn [andb].
  unfold breaks. by rewrite Hq.
Qed.
(** A plain letter outside a quotation and a regex is kept. *)
Lemma scan_letter w c it :
  quoted w = false → in_regex w = false → c ∈ [65; 78; 68]%N →
  scan_word w (c :: it) = (w' ← scan_char w c; scan_word w' it).
Proof.
  intros Hq Hr Hc. cbn [scan_word]. unfold breaks. rewrite Hq, Hr.
  rewrite !elem_of_cons, elem_of_nil in Hc.
  destruct Hc as [->|[->|[->|[]]]]; simpl; by rewrite andb_false_r.
Qed.
Ltac scan_letter :=
  rewrite scan_letter; [|done|done|by_decide];
  match goal with |- context [scan_char ?w ?c] =>
    let w' := eval vm_compute in (scan_char w c) in change (scan_char w c) with w' end;
  cbn [mbind option_bind].
Lemma lex_print_token t fuel out it :
  literal t → separated it → (N.of_nat (length out) < MAX_TOKENS)%N →
  lex_loop (S fuel) out (print_token t ++ it) = lex_loop fuel (out ++ [t]) it.
Proof.
  intros Ht Hsep Hout.
  assert (Hn : (MAX_TOKENS <=? N.of_nat (length out))%N = false) by (apply N.leb_gt; lia).
  destruct t as [t lf| | | | |]; cbn [print_token lit app lex_loop]; rewrite Hn; try done.
  - simpl in Ht. subst lf. change (is_whitespace 34) with false.
    change (symbol 34) with (@None token). cbn iota.
    cbn [scan_word]. change (34 =? 34)%N with true. cbn iota. rewrite <-app_assoc.
    destruct (scan_quoted t (toggle_quote word_start) it) as (w & Hw & Hs & Hq & Hh & Hl);
      [apply toggle_quote_ok, word_start_ok|done|].
    simpl app in Hw |- *. rewrite Hw, scan_stops; [|simpl; by rewrite Hq|done].
    cbn [mbind option_bind]. unfold word_token. simpl. rewrite Hq, Hs, Hl. simpl.
    by rewrite andb_false_r.
  - change (is_whitespace (N_of_ascii "A")) with false.
    change (symbol (N_of_ascii "A")) with (@None token). cbn iota.
    do 3 scan_letter. by rewrite scan_stops.
Qed.
Lemma lex_space fuel out it :
  (N.of_nat (length out) < MAX_TOKENS)%N →
  lex_loop (S fuel) out (32%N :: it) = lex_loop fuel out it.
Proof. intros H. cbn [lex_loop]. by rewrite (proj2 (N.leb_gt _ _)) by done. Qed.
Lemma lex_print tokens fuel out :
  Forall literal tokens → 2 * length tokens ≤ fuel →
  (N.of_nat (length out + length tokens) ≤ MAX_TOKENS)%N →
  lex_loop fuel out (print tokens) = Some (Ok (out ++ tokens)).
Proof.
  intros Hl. revert fuel out. induction Hl as [|t tokens Ht Hl IH]; intros fuel out Hf Hout.
  { rewrite app_nil_r. by destruct fuel. }
  simpl in Hf, Hout. destruct fuel as [|[|fuel]]; [lia..|].
  unfold print. rewrite bind_cons. fold (print tokens). simpl app.
  rewrite lex_space by lia. rewrite lex_print_token; [|done| |lia].
  - rewrite IH; [by rewrite <-app_assoc|lia|]. rewrite length_app. simpl. lia.
  - destruct tokens; [by left|right; by eexists].
Qed.

(** C25: Printed tokens lex back.  Any sequence of at most 8192 tokens whose
    atoms are quoted texts, whatever characters they contain, is read back
    exactly from its printed form: quotation protects every character that
    would separate, group or negate. *)
Theorem lex_print_roundtrip tokens :
  Forall literal tokens → (N.of_nat (length tokens) ≤ MAX_TOKENS)%N →
  (N.of_nat (byte_len (print tokens)) ≤ MAX_QUERY_BYTES)%N →
  lex (print tokens) = Some (Ok tokens).
Proof.
  intros Hl Ht Hb. unfold lex. rewrite (proj2 (N.ltb_ge _ _)) by done.
  apply (lex_print tokens _ []); [done| |done].
  clear. induction tokens as [|t tokens IH]; [done|].
  unfold print. rewrite bind_cons. fold (print tokens). rewrite length_app. simpl.
  destruct t; simpl; lia.
Qed.
Lemma lex_print_roundtrip_witness :
  let tokens := [L; Atom (lit "a (b) | !c ") (Some 0); Or; Atom [34; 233]%N (Some 0); R; And;
                 Not; Atom [] (Some 0)] in
  lex (print tokens) = Some (Ok tokens).
Proof.
  apply lex_print_roundtrip; [repeat constructor|vm_compute; done|vm_compute; done].
Defined.
