(* ===== verification/Float.v ===== *)
(** * Rust's [f64]: IEEE 754 binary64 by the Standard Library's reference

    [spec_float] is the executable specification of binary floating point;
    every operation below is the binary64 one with rounding to nearest even. *)
From Stdlib Require Export SpecFloat.
From S2P Require Import Prelude Text.
Local Open Scope Z_scope.

Definition f64 : Type := spec_float.
Definition f64_prec : Z := 53.
Definition f64_emax : Z := 1024.
Definition f64_mul : f64 → f64 → f64 := SFmul f64_prec f64_emax.
Definition f64_add : f64 → f64 → f64 := SFadd f64_prec f64_emax.
Definition f64_lt : f64 → f64 → bool := SFltb.
Definition f64_le : f64 → f64 → bool := SFleb.
Definition f64_infinity : f64 := S754_infinity false.
Definition f64_neg_infinity : f64 := S754_infinity true.
Definition f64_is_finite (x : f64) : bool :=
  match x with S754_zero _ | S754_finite _ _ _ => true | _ => false end.
Definition f64_is_nan (x : f64) : bool :=
  match x with S754_nan => true | _ => false end.
(** [n as f64] for an integer. *)
Definition f64_of_Z (n : Z) : f64 := binary_normalize f64_prec f64_emax n 0 false.

(** [str::parse::<f64>] on text without letters (so without an exponent,
    infinity or NaN): an optional sign, digits, and a fraction. The value is
    the correctly rounded quotient of the digits by a power of ten. *)
Fixpoint parse_digits (t : text) (value : Z) : option Z :=
  match t with
  | [] => Some value
  | c :: t =>
    if ((48 <=? c) && (c <=? 57))%N
    then parse_digits t (10 * value + Z.of_N (c - 48)) else None
  end.
Definition parse_f64 (t : text) : option f64 :=
  let '(negative, t) :=
    match t with
    | c :: t' => if (c =? 45)%N then (true, t') else if (c =? 43)%N then (false, t') else (false, t)
    | [] => (false, t)
    end in
  let '(whole, fraction) := default (t, []) (split_once (lit ".") t) in
  if bool_decide (whole = []) && bool_decide (fraction = []) then None
  else
    digits ← parse_digits (whole ++ fraction) 0;
    Some match digits with
         | Zpos m =>
           SFdiv f64_prec f64_emax (S754_finite negative m 0)
             (S754_finite false (Z.to_pos (10 ^ Z.of_nat (length fraction))) 0)
         | _ => S754_zero negative
         end.

Example parse_f64_cases :
  parse_f64 (lit "1.5") = Some (S754_finite false 6755399441055744 (-52)) ∧
  parse_f64 (lit "0.1") = Some (S754_finite false 7205759403792794 (-56)) ∧
  parse_f64 (lit "+12") = Some (f64_of_Z 12) ∧ parse_f64 (lit ".") = None ∧
  parse_f64 (lit "5.") = Some (f64_of_Z 5) ∧ parse_f64 (lit "1-") = None ∧
  parse_f64 (lit "-0") = Some (S754_zero true).
Proof. vm_compute. split_and!; reflexivity. Qed.
