(* ===== verification/QueryNumber.v ===== *)
(** * core/src/query.rs, [scalar] to [number_term]: numeric and date operands

    Numbers are binary64 ([Float]).  Calendars are chrono's: its dates and
    instants are the parameter [Chrono]; which calendar period, which months
    and which instants a date operand asks for is the code's and is modelled. *)
From S2P Require Import Prelude Text QueryLex Float.

(** chrono and the regional preference of CoreFoundation, as used here. *)
Class Chrono := {
  DateTime : Type;
  NaiveDate : Type;
  date_naive : DateTime → NaiveDate;
  timestamp : DateTime → Z;
  checked_sub_months : DateTime → N → option DateTime;
  checked_sub_seconds : DateTime → Z → option DateTime;
  from_ymd_opt : Z → N → N → option NaiveDate;
  year : NaiveDate → Z;
  month : NaiveDate → N;
  num_days_from_sunday : NaiveDate → N;
  add_days : NaiveDate → Z → NaiveDate;
  succ_opt : NaiveDate → option NaiveDate;
  parse_ymd : text → option NaiveDate;          (* [parse_from_str(_, "%Y-%m-%d")] *)
  earliest_local : NaiveDate → Z → option Z;    (* midnight plus minutes, as an instant *)
  local_first_weekday : N;
}.

(** [10_f64.powi(-k)]: its precision is unspecified in Rust. *)
Class Powi := powi10_neg : nat → f64.

(** The parsed numeric terms, before they become terms of a query. *)
Inductive numeric :=
| Unknown (field : text) (negate : bool)
| Number (field : text) (low high : f64) (include_low include_high negate : bool).

Section numbers.
Context `{Chrono} `{Powi}.

Definition unit_multiplier (unit : text) : option f64 :=
  if is_any unit [""%string; "b"] then Some (f64_of_Z 1)
  else if is_any unit ["k"; "kb"; "kib"] then Some (f64_of_Z 1024)
  else if is_any unit ["m"; "mb"; "mib"] then Some (f64_of_Z (1024 ^ 2))
  else if is_any unit ["g"; "gb"; "gib"] then Some (f64_of_Z (1024 ^ 3))
  else if is_any unit ["t"; "tb"; "tib"] then Some (f64_of_Z (1024 ^ 4))
  else None.
Definition scalar (s : text) : result f64 :=
  let n := to_ascii_lowercase (trim s) in
  let '(number, unit) := split_pred is_ascii_alphabetic n in
  value ← ok_or (parse_f64 number) ("Invalid number '" ++ show s ++ "'");
  multiplier ← ok_or (unit_multiplier unit) ("Unknown unit in '" ++ show s ++ "'");
  if negb (f64_is_finite value) || f64_lt value (f64_of_Z 0) then
    Err "Expected a finite non-negative number"
  else
    let result := f64_mul value multiplier in
    if negb (f64_is_finite result) then Err "Number exceeds supported range" else Ok result.

(** ** Dates *)

Definition make (s : text) (y : Z) (m d : N) : result NaiveDate :=
  ok_or (from_ymd_opt y m d) ("Date '" ++ show s ++ "' is out of range").
Definition next_month (s : text) (d : NaiveDate) : result NaiveDate :=
  if (month d =? 12)%N then make s (year d + 1) 1 1 else make s (year d) (month d + 1) 1.
Definition is_digit (c : N) : bool := ((48 <=? c) && (c <=? 57))%N.
Definition invalid_date (s : text) : string :=
  "Invalid date '" ++ show s ++
  "'; use YYYY-MM-DD or today/yesterday/thisweek/lastweek/thismonth/lastmonth/thisyear/lastyear".
Definition calendar_period (s : text) (today : NaiveDate) (first_weekday : N) :
    result (NaiveDate * NaiveDate) :=
  month_ ← make s (year today) (month today) 1;
  let week :=
    add_days today (- Z.of_N ((num_days_from_sunday today + 7 - first_weekday mod 7) mod 7)) in
  let name := to_ascii_lowercase s in
  if is_lit name "today" then Ok (today, add_days today 1)
  else if is_lit name "yesterday" then Ok (add_days today (-1), today)
  else if is_lit name "thisweek" then Ok (week, add_days week 7)
  else if is_lit name "lastweek" then Ok (add_days week (-7), week)
  else if is_lit name "thismonth" then next ← next_month s month_; Ok (month_, next)
  else if is_lit name "lastmonth" then
    let d := add_days month_ (-1) in
    first ← make s (year d) (month d) 1; Ok (first, month_)
  else if is_lit name "thisyear" then
    a ← make s (year today) 1 1; b ← make s (year today + 1) 1 1; Ok (a, b)
  else if is_lit name "lastyear" then
    a ← make s (year today - 1) 1 1; b ← make s (year today) 1 1; Ok (a, b)
  else if (byte_len s =? 4) && forallb is_digit s then
    y ← ok_or (parse_digits s 0) "Invalid year";
    a ← make s y 1 1; b ← make s (y + 1) 1 1; Ok (a, b)
  else if byte_len s =? 7 then
    d ← ok_or (parse_ymd (s ++ lit "-01")) ("Invalid month '" ++ show s ++ "'");
    next ← next_month s d; Ok (d, next)
  else
    d ← ok_or (parse_ymd s) (invalid_date s);
    next ← ok_or (succ_opt d) "Date out of range"; Ok (d, next).

(** [for minute in 0..=1440]: the first representable instant of the day. *)
Fixpoint first_instant (date : NaiveDate) (minutes : list nat) : option Z :=
  match minutes with
  | [] => None
  | minute :: minutes =>
    match earliest_local date (Z.of_nat minute) with
    | Some instant => Some instant
    | None => first_instant date minutes
    end
  end.
Definition midnight (date : NaiveDate) : result Z :=
  ok_or (first_instant date (seq 0 1441))
    "Calendar boundary is not representable in the local timezone".

Definition duration_unit (unit : text) : option Z :=
  (if is_any unit ["s"; "sec"; "secs"; "second"; "seconds"] then Some 1
   else if is_any unit ["min"; "mins"; "minute"; "minutes"] then Some 60
   else if is_any unit ["h"; "hour"; "hours"] then Some 3600
   else if is_any unit ["d"; "day"; "days"] then Some 86400
   else if is_any unit ["w"; "week"; "weeks"] then Some 604800
   else if is_any unit ["month"; "months"; "year"; "years"] then Some 0
   else None)%Z.
Definition duration_out_of_range : string := "Relative date duration is out of range".
(** [parse::<u32>] of a non-empty run of digits. *)
Definition parse_u32 (digits : text) : option N :=
  value ← parse_digits digits 0;
  if (Z.to_N value <=? u32_max)%N then Some (Z.to_N value) else None.
Definition u32_checked_mul (a b : N) : option N :=
  if (a * b <=? u32_max)%N then Some (a * b)%N else None.
Definition relative_date_period (input : text) (now : DateTime) : result (option (f64 * f64)) :=
  let '(digits, rest) := split_pred (λ c, negb (is_digit c)) input in
  if bool_decide (digits = []) || bool_decide (rest = []) then Ok None
  else
    let unit := to_ascii_lowercase rest in
    match duration_unit unit with
    | None => Ok None
    | Some multiplier =>
      count ← ok_or (parse_u32 digits) duration_out_of_range;
      start ←
        (if (multiplier =? 0)%Z then
           months ← ok_or (u32_checked_mul count (if starts_with (lit "year") unit then 12 else 1)%N)
             duration_out_of_range;
           Ok (checked_sub_months now months)
         else Ok (checked_sub_seconds now (Z.of_N count * multiplier)));
      start ← ok_or start duration_out_of_range;
      Ok (Some (f64_of_Z (timestamp start), f64_add (f64_of_Z (timestamp now)) (f64_of_Z 1)))
    end.
Definition period (now : DateTime) (v : text) : result (f64 * f64) :=
  interval ← relative_date_period v now;
  match interval with
  | Some interval => Ok interval
  | None =>
    '(a, b) ← calendar_period v (date_naive now) local_first_weekday;
    a ← midnight a; b ← midnight b; Ok (f64_of_Z a, f64_of_Z b)
  end.

(** ** Comparison operators *)

(** [input] without its negation; [!=v] negates [=v]. *)
Definition operand (input : text) : text :=
  match strip_prefix (lit "!=") input with
  | Some v => lit "=" ++ v
  | None => default input (strip_prefix (lit "!") input)
  end.
Definition date_range (now : DateTime) (val : text) : result (f64 * f64) :=
  match split_once (lit "..") val with
  | Some (a, b) => a ← period now a; b ← period now b; Ok (a.1, b.2)
  | None =>
    match strip_prefix (lit ">=") val with
    | Some v => p ← period now v; Ok (p.1, f64_infinity)
    | None =>
    match strip_prefix (lit "<=") val with
    | Some v => p ← period now v; Ok (f64_neg_infinity, p.2)
    | None =>
    match strip_prefix (lit ">") val with
    | Some v => p ← period now v; Ok (p.2, f64_infinity)
    | None =>
    match strip_prefix (lit "<") val with
    | Some v => p ← period now v; Ok (f64_neg_infinity, p.1)
    | None =>
      match strip_prefix (lit "==") val with
      | Some v => period now v
      | None => period now (default val (strip_prefix (lit "=") val))
      end
    end end end end
  end.
(** A bare number stands for the interval its last written digit covers. *)
Definition displayed_step (val : text) : result f64 :=
  let '(number, unit) := split_pred is_ascii_alphabetic (to_ascii_lowercase val) in
  let decimals := match split_once (lit ".") number with Some (_, d) => byte_len d | None => 0 end in
  unit ← (if bool_decide (unit = []) then Ok (f64_of_Z 1) else scalar (lit "1" ++ unit));
  Ok (f64_mul unit (powi10_neg decimals)).
Definition number_range (val : text) : result (f64 * f64 * bool * bool) :=
  match split_once (lit "..") val with
  | Some (a, b) => a ← scalar a; b ← scalar b; Ok (a, b, true, true)
  | None =>
    match strip_prefix (lit ">=") val with
    | Some v => n ← scalar v; Ok (n, f64_infinity, true, true)
    | None =>
    match strip_prefix (lit "<=") val with
    | Some v => n ← scalar v; Ok (f64_neg_infinity, n, true, true)
    | None =>
    match strip_prefix (lit ">") val with
    | Some v => n ← scalar v; Ok (n, f64_infinity, false, true)
    | None =>
    match strip_prefix (lit "<") val with
    | Some v => n ← scalar v; Ok (f64_neg_infinity, n, true, false)
    | None =>
      match match strip_prefix (lit "==") val with
            | Some v => Some v | None => strip_prefix (lit "=") val end with
      | Some v => n ← scalar v; Ok (n, n, true, true)
      | None =>
        n ← scalar val;
        step ← displayed_step val;
        if f64_le step (f64_of_Z 0) then Err "Numeric precision exceeds supported range"
        else Ok (n, f64_add n step, true, false)
      end
    end end end end
  end.

Definition number_term (field input : text) (date : bool) (now : DateTime) : result numeric :=
  if is_any (to_ascii_lowercase input) ["unknown"; "!unknown"; "!=unknown"] then
    Ok (Unknown field (starts_with (lit "!") input))
  else
    let negate := starts_with (lit "!") input in
    let val := operand input in
    if date then
      '(low, high) ← date_range now val;
      if f64_le high low then Err "Date range lower bound exceeds upper bound"
      else Ok (Number field low high true false negate)
    else
      '(low, high, il, ih) ← number_range val;
      if f64_lt high low then Err "Range lower bound exceeds upper bound"
      else Ok (Number field low high il ih negate).

(** [Term::matches_numeric_value] *)
Definition in_range (low high : f64) (include_low include_high : bool) (n : f64) : bool :=
  (if include_low then f64_le low n else f64_lt low n) &&
  (if include_high then f64_le n high else f64_lt n high).
Definition matches_numeric_value (t : numeric) (value : option f64) : bool :=
  match t with
  | Unknown _ negate => xorb (bool_decide (value = None)) negate
  | Number _ low high il ih negate =>
    match value with
    | Some n => xorb (in_range low high il ih n) negate
    | None => false
    end
  end.
End numbers.

(** ** A calendar: the proleptic Gregorian one, in UTC, weeks from Monday *)

Section utc.
Local Open Scope Z_scope.
Definition days_of_civil (y : Z) (m d : N) : Z :=
  let y := if (m <=? 2)%N then y - 1 else y in
  let era := y / 400 in
  let yoe := y - era * 400 in
  let mp := if (m <=? 2)%N then Z.of_N m + 9 else Z.of_N m - 3 in
  let doy := (153 * mp + 2) / 5 + Z.of_N d - 1 in
  era * 146097 + (yoe * 365 + yoe / 4 - yoe / 100 + doy) - 719468.
Definition civil_of_days (z : Z) : Z * N * N :=
  let z := z + 719468 in
  let era := z / 146097 in
  let doe := z - era * 146097 in
  let yoe := (doe - doe / 1460 + doe / 36524 - doe / 146096) / 365 in
  let doy := doe - (365 * yoe + yoe / 4 - yoe / 100) in
  let mp := (5 * doy + 2) / 153 in
  let d := doy - (153 * mp + 2) / 5 + 1 in
  let m := if mp <? 10 then mp + 3 else mp - 9 in
  ((yoe + era * 400 + (if m <=? 2 then 1 else 0)), Z.to_N m, Z.to_N d).
Definition utc_from_ymd (y : Z) (m d : N) : option Z :=
  let z := days_of_civil y m d in
  if bool_decide (civil_of_days z = (y, m, d)) then Some z else None.
Definition utc_parse_ymd (t : text) : option Z :=
  match split_char 45 t with
  | [y; m; d] =>
    y ← parse_digits y 0; m ← parse_digits m 0; d ← parse_digits d 0;
    utc_from_ymd y (Z.to_N m) (Z.to_N d)
  | _ => None
  end.
#[export] Instance utc_chrono : Chrono := {
  DateTime := Z; NaiveDate := Z;
  date_naive t := t / 86400; timestamp t := t;
  checked_sub_months t n :=
    let '(y, m, d) := civil_of_days (t / 86400) in
    let months := y * 12 + Z.of_N m - 1 - Z.of_N n in
    Some (days_of_civil (months / 12) (Z.to_N (months mod 12) + 1) (N.min d 28) * 86400 + t mod 86400);
  checked_sub_seconds t n := Some (t - n);
  from_ymd_opt := utc_from_ymd;
  year d := (civil_of_days d).1.1; month d := (civil_of_days d).1.2;
  num_days_from_sunday d := Z.to_N ((d + 4) mod 7);
  add_days d n := d + n; succ_opt d := Some (d + 1);
  parse_ymd := utc_parse_ymd;
  earliest_local d minutes := Some (d * 86400 + minutes * 60);
  local_first_weekday := 1;
}.
#[export] Instance exact_powi : Powi := λ k,
  SFdiv f64_prec f64_emax (f64_of_Z 1) (f64_of_Z (10 ^ Z.of_nat k)).
End utc.

Example calendar_periods :
  let today := days_of_civil 2024 3 13 in
  calendar_period (lit "lastmonth") today 1 =
    Ok (days_of_civil 2024 2 1, days_of_civil 2024 3 1) ∧
  calendar_period (lit "ThisWeek") today 1 =
    Ok (days_of_civil 2024 3 11, days_of_civil 2024 3 18) ∧
  calendar_period (lit "2023-12") today 1 =
    Ok (days_of_civil 2023 12 1, days_of_civil 2024 1 1) ∧
  calendar_period (lit "1999") today 1 =
    Ok (days_of_civil 1999 1 1, days_of_civil 2000 1 1).
Proof. vm_compute. split_and!; reflexivity. Qed.
Example number_kilobytes :
  (λ t, matches_numeric_value t (Some (f64_of_Z 2047))) <$> number_term (lit "size") (lit "1kb") false 0%Z
    = Ok true ∧
  (λ t, matches_numeric_value t (Some (f64_of_Z 2048))) <$> number_term (lit "size") (lit "1kb") false 0%Z
    = Ok false.
Proof. vm_compute. split; reflexivity. Qed.

(** ** Negation *)

Lemma to_ascii_lowercase_app a b :
  to_ascii_lowercase (a ++ b) = to_ascii_lowercase a ++ to_ascii_lowercase b.
Proof. apply fmap_app. Qed.
Lemma starts_with_spec p t : starts_with p t = true ↔ ∃ r, t = p ++ r.
Proof. apply strip_prefix_dec. Qed.
Lemma is_lit_true t s : is_lit t s = true ↔ t = lit s.
Proof. apply bool_decide_eq_true. Qed.
Lemma is_lit_cons c t a s : is_lit (c :: t) (String a s) = (c =? N_of_ascii a)%N && is_lit t s.
Proof.
  apply eq_true_iff_eq. rewrite andb_true_iff, !is_lit_true, N.eqb_eq. simpl. naive_solver.
Qed.

Section negation.
Context `{Chrono} `{Powi}.

Lemma operand_negated v : starts_with (lit "!") v = false → operand (lit "!" ++ v) = operand v.
Proof.
  intros Hv. unfold operand. destruct (strip_prefix (lit "!=") v) as [r|] eqn:E1.
  { apply strip_prefix_Some in E1 as ->. done. }
  destruct (strip_prefix (lit "!") v) as [r|] eqn:E2.
  { unfold starts_with in Hv. by rewrite E2 in Hv. }
  destruct (strip_prefix (lit "!=") (lit "!" ++ v)) as [r|] eqn:E3; simpl.
  - apply strip_prefix_Some in E3. by injection E3 as ->.
  - done.
Qed.
Lemma starts_with_lower c v :
  to_ascii_lowercase_char c = c → (c < 65 ∨ 122 < c)%N →
  starts_with [c] (to_ascii_lowercase v) = starts_with [c] v.
Proof.
  intros Hc Hr. apply eq_true_iff_eq. rewrite !starts_with_spec.
  split; intros [r Hs]; (destruct v as [|d v]; [done|]).
  - exists v. injection Hs as Hd _. unfold to_ascii_lowercase_char in *.
    destruct ((65 <=? d) && (d <=? 90))%N eqn:E; [|simpl; congruence].
    rewrite andb_true_iff, !N.leb_le in E. lia.
  - injection Hs as -> ->. exists (to_ascii_lowercase r). simpl. by rewrite Hc.
Qed.
Definition opposite (t t' : numeric) : Prop :=
  (∀ n, matches_numeric_value t' (Some n) = negb (matches_numeric_value t (Some n))) ∧
  match t, t' with
  | Unknown _ _, Unknown _ _ => matches_numeric_value t' None = negb (matches_numeric_value t None)
  | Number _ _ _ _ _ _, Number _ _ _ _ _ _ =>
    matches_numeric_value t' None = false ∧ matches_numeric_value t None = false
  | _, _ => False
  end.

(** A leading [!] negates a numeric or date operand.  For every operand
    [v], [!v] is refused with the same error as [v], or it accepts exactly the
    known values that [v] does not; an unknown value satisfies neither, unless
    the operand asks for unknown values, which [!] negates too.  [=unknown] is
    the one exception: it is refused, but [!=unknown] is a negation. *)
Theorem negation_complements field v date now :
  starts_with (lit "!") v = false → to_ascii_lowercase v ≠ lit "=unknown" →
  match number_term field v date now, number_term field (lit "!" ++ v) date now with
  | Ok t, Ok t' => opposite t t'
  | Err e, Err e' => e = e'
  | _, _ => False
  end.
Proof.
  intros Hv Hu. unfold number_term. rewrite operand_negated by done.
  assert (starts_with (lit "!") (lit "!" ++ v) = true) as -> by (apply starts_with_spec; eauto).
  rewrite Hv, to_ascii_lowercase_app.
  change (lit "!") with [33%N] in Hv. rewrite <-(starts_with_lower 33 v) in Hv by (done || lia).
  set (l := to_ascii_lowercase v) in *.
  assert (is_any (to_ascii_lowercase (lit "!") ++ l) ["unknown"; "!unknown"; "!=unknown"] =
    is_any l ["unknown"; "!unknown"; "!=unknown"]) as ->.
  { apply eq_true_iff_eq. unfold is_any. cbn [existsb]. rewrite !orb_true_iff, !is_lit_true.
    split; intros [E|[E|[E|E]]]; try done.
    - injection E as ->. by left.
    - injection E as E. by destruct Hu.
    - rewrite E. by right; left.
    - by rewrite E in Hv.
    - by rewrite E in Hv. }
  destruct (is_any l _).
  { split; [done|]. done. }
  destruct date.
  - destruct (date_range now (operand v)) as [[low high]|]; cbn [mbind result_bind]; [|done].
    destruct (f64_le high low); [done|]. split; [|done]. intros n. simpl. by rewrite xorb_true_r, xorb_false_r.
  - destruct (number_range (operand v)) as [[[[low high] il] ih]|]; cbn [mbind result_bind]; [|done].
    destruct (f64_lt high low); [done|]. split; [|done]. intros n. simpl. by rewrite xorb_true_r, xorb_false_r.
Qed.
End negation.
Lemma negation_complements_witness :
  match number_term (lit "size") (lit ">=1kb") false 0%Z,
        number_term (lit "size") (lit "!>=1kb") false 0%Z with
  | Ok t, Ok t' => opposite t t'
  | Err e, Err e' => e = e'
  | _, _ => False
  end.
Proof.
  apply (negation_complements (H := utc_chrono) (lit "size") (lit ">=1kb") false 0%Z); by_decide.
Defined.

(** ** Comparison operators *)

Inductive operator := GreaterEqual | LessEqual | Greater | Less | Equal.
Definition operator_text (op : operator) : text :=
  lit match op with
      | GreaterEqual => ">=" | LessEqual => "<=" | Greater => ">" | Less => "<" | Equal => "="
      end.
Definition compares (op : operator) (n x : f64) : bool :=
  match op with
  | GreaterEqual => f64_le x n
  | LessEqual => f64_le n x
  | Greater => f64_lt x n
  | Less => f64_lt n x
  | Equal => f64_le x n && f64_le n x
  end.

Lemma f64_le_infinity n : f64_is_nan n = false → f64_le n f64_infinity = true.
Proof. by destruct n as [[]|[]| |[]]. Qed.
Lemma f64_neg_infinity_le n : f64_is_nan n = false → f64_le f64_neg_infinity n = true.
Proof. by destruct n as [[]|[]| |[]]. Qed.
Lemma f64_infinity_lt x : f64_lt f64_infinity x = false.
Proof. by destruct x as [[]|[]| |[]]. Qed.
Lemma f64_lt_neg_infinity x : f64_lt x f64_neg_infinity = false.
Proof. by destruct x as [[]|[]| |[]]. Qed.
Lemma f64_lt_irrefl x : f64_lt x x = false.
Proof.
  destruct x as [[]|[]| |[] m e]; try done; unfold f64_lt, SFltb, SFcompare;
    by rewrite Z.compare_refl, Pos.compare_cont_refl.
Qed.

(** The comparison operators mean what they say.  For an operand [v] that
    is a number [x] (with or without a unit), [>=v], [<=v], [>v], [<v] and
    [=v] are accepted and match exactly the values in that relation with [x];
    none of them is taken for a shorter operator. *)
Theorem operators_compare `{Chrono} `{Powi} field op v x now n :
  scalar v = Ok x → split_once (lit "..") v = None → starts_with (lit "=") v = false →
  f64_is_nan n = false →
  ∃ t, number_term field (operator_text op ++ v) false now = Ok t ∧
    matches_numeric_value t (Some n) = compares op n x.
Proof.
  intros Hx Hd He Hn. unfold number_term.
  assert (is_any (to_ascii_lowercase (operator_text op ++ v))
    ["unknown"; "!unknown"; "!=unknown"] = false) as ->.
  { by destruct op. }
  assert (starts_with (lit "!") (operator_text op ++ v) = false) as -> by by destruct op.
  assert (operand (operator_text op ++ v) = operator_text op ++ v) as -> by by destruct op.
  assert (Hs : split_once (lit "..") (operator_text op ++ v) = None).
  { destruct op; simpl; simpl in Hd; by rewrite Hd. }
  assert (Heq : strip_prefix (lit "=") v = None).
  { unfold starts_with in He. by destruct (strip_prefix (lit "=") v). }
  unfold number_range. rewrite Hs.
  destruct op; unfold operator_text; cbn iota;
    repeat (match goal with
      |- context [strip_prefix (lit ?p) (lit ?q ++ v)] =>
        first [ replace (strip_prefix (lit p) (lit q ++ v)) with (Some v) by reflexivity
              | replace (strip_prefix (lit p) (lit q ++ v)) with (@None text) by reflexivity
              | replace (strip_prefix (lit p) (lit q ++ v)) with (@None text)
                  by (symmetry; exact Heq) ]
      end; cbn iota);
    rewrite Hx; cbn [mbind result_bind];
    rewrite ?f64_infinity_lt, ?f64_lt_neg_infinity, ?f64_lt_irrefl;
    (eexists; split; [done|]); unfold matches_numeric_value, in_range, compares;
    rewrite ?f64_le_infinity, ?f64_neg_infinity_le, xorb_false_r, ?andb_true_r by done;
    reflexivity.
Qed.
Lemma operators_compare_witness :
  ∃ t, number_term (lit "size") (lit ">1kb") false (0%Z : @DateTime utc_chrono) = Ok t ∧
    matches_numeric_value t (Some (f64_of_Z 2000)) =
      compares Greater (f64_of_Z 2000) (f64_of_Z 1024).
Proof.
  apply (operators_compare (H := utc_chrono) (lit "size") Greater (lit "1kb")); vm_compute; reflexivity.
Defined.

(** ** Calendar periods *)

(** What chrono documents of dates, on a day count. *)
Class ChronoLaws `{Chrono} (day : NaiveDate → Z) : Prop := {
  day_add d n : day (add_days d n) = (day d + n)%Z;
  weekday_lt d : (num_days_from_sunday d < 7)%N;
  weekday_add d n :
    Z.of_N (num_days_from_sunday (add_days d n)) =
      ((Z.of_N (num_days_from_sunday d) + n) mod 7)%Z;
}.
#[export] Instance utc_laws : ChronoLaws (H := utc_chrono) id.
Proof. split; simpl; unfold id; lia. Qed.

(** Weeks follow the regional first weekday.  For a day whose month has a
    first day, whatever weekday the week
    starts on, [thisweek] starts on it and contains today, [lastweek] ends
    exactly where [thisweek] begins and is as long, and [yesterday] ends where
    [today] begins. *)
Theorem calendar_weeks `{Chrono} (day : NaiveDate → Z) `{!ChronoLaws day} today first_weekday :
  is_Some (from_ymd_opt (year today) (month today) 1) →
  ∃ this next last_ yesterday_ tomorrow,
    calendar_period (lit "thisweek") today first_weekday = Ok (this, next) ∧
    calendar_period (lit "lastweek") today first_weekday = Ok (last_, this) ∧
    calendar_period (lit "yesterday") today first_weekday = Ok (yesterday_, today) ∧
    calendar_period (lit "today") today first_weekday = Ok (today, tomorrow) ∧
    num_days_from_sunday this = (first_weekday mod 7)%N ∧
    (day this ≤ day today < day next)%Z ∧
    day next = (day this + 7)%Z ∧ day last_ = (day this - 7)%Z ∧
    day yesterday_ = (day today - 1)%Z ∧ day tomorrow = (day today + 1)%Z.
Proof.
  intros [first Hf]. pose proof (weekday_lt today).
  set (k := ((num_days_from_sunday today + 7 - first_weekday mod 7) mod 7)%N).
  set (week := add_days today (- Z.of_N k)).
  exists week, (add_days week 7), (add_days week (-7)), (add_days today (-1)), (add_days today 1).
  unfold calendar_period, make. rewrite Hf. cbn [ok_or mbind result_bind].
  split_and!; try (vm_compute; reflexivity); unfold week; rewrite ?day_add; try lia.
  - apply N2Z.inj. rewrite weekday_add. unfold k. lia.
Qed.
Lemma calendar_weeks_witness :
  ∃ this next,
    calendar_period (H := utc_chrono) (lit "thisweek") (days_of_civil 2024 3 13) 0 = Ok (this, next) ∧
    num_days_from_sunday this = 0%N ∧ (this ≤ days_of_civil 2024 3 13 < next)%Z.
Proof.
  destruct (calendar_weeks (H := utc_chrono) id (days_of_civil 2024 3 13) 0)
    as (this & next & _ & _ & _ & E & _ & _ & _ & Hw & Hr & Hn & _); [vm_compute; by eexists|].
  exists this, next. split_and!; [exact E|exact Hw|apply Hr|apply Hr].
Defined.
