(* ===== verification/QuerySyntax.v ===== *)
(** * core/src/query.rs: the query tree, its options, and its atoms

    Third-party code is behind classes: Unicode normalization and case folding
    (ICU, unicode-normalization), PCRE2, memchr's substring finder, chrono.
    Everything the sources decide themselves - modifiers, scopes, which term
    an atom becomes, the pattern text handed to PCRE2 - is modelled. *)
From S2P Require Import Prelude Text QueryLex Float QueryNumber Bitmap.
Set Warnings "-register-all".

Class Unicode := {
  to_nfc : text → text;
  to_nfd : text → text;
  is_combining_mark : N → bool;
  fold_string : text → text;          (* [CaseMapper::fold_string] *)
  is_alphanumeric : N → bool;         (* [char::is_alphanumeric] *)
}.
(** The builder's other options (utf, ucp, jit) are fixed in the code. *)
Class Pcre := {
  Regex : Type;
  regex_build : ∀ (caseless : bool) (pattern : text), result Regex;
  regex_is_match : Regex → bytes → result bool;
}.
Section folding.
Context `{Unicode}.
Definition fold (s : text) : text :=
  if is_ascii s then to_ascii_lowercase s else fold_string (to_nfc s).
Definition strip_marks (s : text) : text :=
  filter (λ c, is_combining_mark c = false) (to_nfd s).
Definition fold_search (s : text) : text :=
  if is_ascii s then to_ascii_lowercase s else fold (strip_marks s).
End folding.

(** ** Data *)

Inductive Field := Name | Path | Parent.
#[export] Instance Field_eq_dec : EqDecision Field.
Proof. solve_decision. Defined.
Inductive TextTarget :=
| TField (field : Field) | TContent | TProperty (key : text) | TExtension.

Record MatchOptions `{Chrono} := {
  now : DateTime;
  field : Field;
  sensitive : bool; regex : bool; diacritics : bool;
  prefix : bool; suffix : bool; whole : bool; start : bool; end_ : bool;
  wildcards : bool;
  target : option TextTarget;
  dot_all : bool; multiline : bool;
}.
Definition default_options `{Chrono} (now : DateTime) : MatchOptions :=
  {| now := now; field := Name; sensitive := false; regex := false; diacritics := false;
     prefix := false; suffix := false; whole := false; start := false; end_ := false;
     wildcards := true; target := None; dot_all := false; multiline := false |}.

Record TextMatcher `{Chrono, Pcre, Memmem} := {
  needle : text;
  finder : Finder;
  candidate_needle : text;
  matcher_regex : option Regex;
  options : MatchOptions;
}.
(** relations.rs; [RoaringTreemap] is a bitmap of 64-bit ids. *)
Record ResolvedPredicate (B : Type) := { yes : B; unknown : B }.
Arguments yes {B} _.
Arguments unknown {B} _.

(** A term holds a query of type [Q]; [Query] ties the knot, as [Box<Query>]
    does. *)
Inductive Term `{Chrono, Pcre, Memmem} (B Q : Type) :=
| TText (field : Field) (needle : text) (finder : Finder) (sensitive : bool)
| TPattern (field : Field) (regex : Regex)
| TRelated (recursive : bool) (query : Q)
| TResolved (result : ResolvedPredicate B)
| TExtensions (extensions : list text)
| TIsDir (dir : bool)
| TIsSymlink
| THidden
| TFlags (mask : N)
| TNumeric (numeric : numeric)
| TContentText (needle : text) (sensitive : bool)
| TPropertyText (key needle : text)
| TMatched (target : TextTarget) (matcher : TextMatcher).

Inductive Query `{Chrono, Pcre, Memmem} (B : Type) :=
| All
| QAnd (queries : list (Query B))
| QOr (queries : list (Query B))
| QNot (query : Query B)
| QTerm (term : Term B (Query B)).
Arguments All {_ _ _ B}.
Arguments QAnd {_ _ _ B} queries.
Arguments QOr {_ _ _ B} queries.
Arguments QNot {_ _ _ B} query.
Arguments QTerm {_ _ _ B} term.
Arguments TText {_ _ _ B Q} field needle finder sensitive.
Arguments TPattern {_ _ _ B Q} field regex.
Arguments TRelated {_ _ _ B Q} recursive query.
Arguments TResolved {_ _ _ B Q} result.
Arguments TExtensions {_ _ _ B Q} extensions.
Arguments TIsDir {_ _ _ B Q} dir.
Arguments TIsSymlink {_ _ _ B Q}.
Arguments THidden {_ _ _ B Q}.
Arguments TFlags {_ _ _ B Q} mask.
Arguments TNumeric {_ _ _ B Q} numeric.
Arguments TContentText {_ _ _ B Q} needle sensitive.
Arguments TPropertyText {_ _ _ B Q} key needle.
Arguments TMatched {_ _ _ B Q} target matcher.

(** Induction over queries, through the lists of operands and relations. *)
Section query_induction.
Context `{Chrono, Pcre, Memmem} {B : Type} (P : Query B → Prop).
Context (P_all : P All) (P_and : ∀ queries, Forall P queries → P (QAnd queries))
  (P_or : ∀ queries, Forall P queries → P (QOr queries)) (P_not : ∀ q, P q → P (QNot q))
  (P_related : ∀ recursive q, P q → P (QTerm (TRelated recursive q)))
  (P_term : ∀ t, (∀ recursive q, t ≠ TRelated recursive q) → P (QTerm t)).
Fixpoint query_induction (q : Query B) : P q :=
  let queries_induction :=
    fix go (queries : list (Query B)) : Forall P queries :=
      match queries with
      | [] => Forall_nil_2 P
      | q :: queries => Forall_cons_2 P q queries (query_induction q) (go queries)
      end in
  match q with
  | All => P_all
  | QAnd queries => P_and queries (queries_induction queries)
  | QOr queries => P_or queries (queries_induction queries)
  | QNot q => P_not q (query_induction q)
  | QTerm t =>
    match t with
    | TRelated recursive q => P_related recursive q (query_induction q)
    | _ => ltac:(apply P_term; intros; discriminate)
    end
  end.
End query_induction.

(** ** Options *)

Section options.
Context `{Chrono}.
Implicit Types o : MatchOptions.

Definition set_field f o : MatchOptions :=
  {| now := now o; field := f; sensitive := sensitive o; regex := regex o;
     diacritics := diacritics o; prefix := prefix o; suffix := suffix o; whole := whole o;
     start := start o; end_ := end_ o; wildcards := wildcards o; target := target o;
     dot_all := dot_all o; multiline := multiline o |}.
Definition set_target t o : MatchOptions :=
  {| now := now o; field := field o; sensitive := sensitive o; regex := regex o;
     diacritics := diacritics o; prefix := prefix o; suffix := suffix o; whole := whole o;
     start := start o; end_ := end_ o; wildcards := wildcards o; target := Some t;
     dot_all := dot_all o; multiline := multiline o |}.
(** The boolean options of [modifier], by name. *)
Inductive flag :=
| FSensitive | FRegex | FDiacritics | FPrefix | FSuffix | FWhole | FStart | FEnd | FWildcards
| FDotAll | FMultiline.
#[export] Instance flag_eq_dec : EqDecision flag.
Proof. solve_decision. Defined.
Definition set_flag (f : flag) (b : bool) o : MatchOptions :=
  let upd g old := if decide (f = g) then b else old in
  {| now := now o; field := field o;
     sensitive := upd FSensitive (sensitive o); regex := upd FRegex (regex o);
     diacritics := upd FDiacritics (diacritics o); prefix := upd FPrefix (prefix o);
     suffix := upd FSuffix (suffix o); whole := upd FWhole (whole o);
     start := upd FStart (start o); end_ := upd FEnd (end_ o);
     wildcards := upd FWildcards (wildcards o); target := target o;
     dot_all := upd FDotAll (dot_all o); multiline := upd FMultiline (multiline o) |}.

(** [None] is the [false] of the code: the key is no modifier. *)
Definition modifier o (key : text) : option MatchOptions :=
  let k := keyword key in
  if is_lit k "case" then Some (set_flag FSensitive true o)
  else if is_lit k "nocase" then Some (set_flag FSensitive false o)
  else if is_lit k "path" then Some (set_field Path o)
  else if is_any k ["name"; "nopath"] then Some (set_field Name o)
  else if is_lit k "parent" then Some (set_flag FWhole true (set_field Parent o))
  else if is_any k ["pathpart"; "location"; "loc"] then Some (set_field Parent o)
  else if is_lit k "regex" then Some (set_flag FRegex true o)
  else if is_lit k "noregex" then Some (set_flag FRegex false o)
  else if is_any k ["diacritics"; "diac"] then Some (set_flag FDiacritics true o)
  else if is_any k ["nodiacritics"; "nodiac"] then Some (set_flag FDiacritics false o)
  else if is_any k ["wholewords"; "ww"] then Some (set_flag FSuffix true (set_flag FPrefix true o))
  else if is_any k ["nowholewords"; "noww"] then
    Some (set_flag FSuffix false (set_flag FPrefix false o))
  else if is_lit k "prefix" then Some (set_flag FPrefix true o)
  else if is_lit k "noprefix" then Some (set_flag FPrefix false o)
  else if is_lit k "suffix" then Some (set_flag FSuffix true o)
  else if is_lit k "nosuffix" then Some (set_flag FSuffix false o)
  else if is_any k ["whole"; "wholefilename"; "wfn"; "entire"] then Some (set_flag FWhole true o)
  else if is_any k ["nowhole"; "nowholefilename"; "nowfn"; "noentire"] then
    Some (set_flag FWhole false o)
  else if is_any k ["startwith"; "^"] then Some (set_flag FStart true o)
  else if is_lit k "nostartwith" then Some (set_flag FStart false o)
  else if is_any k ["endwith"; "$"] then Some (set_flag FEnd true o)
  else if is_lit k "noendwith" then Some (set_flag FEnd false o)
  else if is_lit k "nowildcards" then Some (set_flag FWildcards false o)
  else if is_lit k "dotall" then Some (set_flag FDotAll true o)
  else if is_lit k "nodotall" then Some (set_flag FDotAll false o)
  else if is_lit k "multiline" then Some (set_flag FMultiline true o)
  else if is_lit k "nomultiline" then Some (set_flag FMultiline false o)
  else None.

Definition relation_kind (key : text) : option (bool * option bool) :=
  if is_lit key "child" then Some (false, None)
  else if is_lit key "childfile" then Some (false, Some false)
  else if is_lit key "childfolder" then Some (false, Some true)
  else if is_lit key "descendant" then Some (true, None)
  else if is_lit key "descendantfile" then Some (true, Some false)
  else if is_lit key "descendantfolder" then Some (true, Some true)
  else None.
Fixpoint relation_keys (keys : list text) o : option (bool * option bool * MatchOptions) :=
  match keys with
  | [] => None
  | key :: keys =>
    let key := keyword key in
    match keys with
    | [] => '(recursive, kind) ← relation_kind key; Some (recursive, kind, o)
    | _ => o ← modifier o key; relation_keys keys o
    end
  end.
Definition relation_scope (prefix : text) (base : MatchOptions) :
    option (bool * option bool * MatchOptions) :=
  prefix ← strip_suffix_char 58 prefix;
  relation_keys (split_char 58 prefix) base.
Fixpoint scope_keys (keys : list text) o (is_dir : option bool) :
    option (MatchOptions * option bool) :=
  match keys with
  | [] => Some (o, is_dir)
  | key :: keys =>
    match modifier o key with
    | Some o => scope_keys keys o is_dir
    | None =>
      let k := keyword key in
      if is_lit k "file" then scope_keys keys o (Some false)
      else if is_any k ["folder"; "dir"] then scope_keys keys o (Some true)
      else if is_lit k "content" then scope_keys keys (set_target TContent o) is_dir
      else if is_lit k "extension" then scope_keys keys (set_target TExtension o) is_dir
      else if text_property k then scope_keys keys (set_target (TProperty (keyword k)) o) is_dir
      else None
    end
  end.
Definition scoped_options (prefix : text) (base : MatchOptions) :
    option (MatchOptions * option bool) :=
  prefix ← strip_suffix_char 58 prefix;
  scope_keys (split_char 58 prefix) base None.
End options.

(** ** Matchers *)

(** The characters of [c => if ".+()[]{}^$|\\".contains(c)]. *)
Definition is_pcre_special (c : N) : bool := contains_char c (lit ".+()[]{}^$|\").
Definition wildcard_char (c : N) : text :=
  if (c =? 42)%N then lit "[^/]*"
  else if (c =? 63)%N then lit "[^/]"
  else if is_pcre_special c then [92%N; c] else [c].
Definition wildcard_pattern (t : text) : text :=
  lit "\A(?:" ++ (t ≫= wildcard_char) ++ lit ")\z".

Section matchers.
Context `{Chrono, Unicode, Pcre, Memmem}.
Implicit Types o : MatchOptions.

Definition pattern (t : text) (sensitive : bool) : result Regex :=
  match regex_build (negb sensitive) (lit "(*LIMIT_MATCH=100000)(*LIMIT_DEPTH=1000)" ++ t) with
  | Ok r => Ok r
  | Err error => Err ("Invalid PCRE2 pattern: " ++ error)
  end.
Definition normalized (s : text) o : text :=
  if is_ascii s then (if sensitive o then s else to_ascii_lowercase s)
  else
    let s := if diacritics o then to_nfc s else strip_marks s in
    if sensitive o then s else fold s.
Definition word_class o : text :=
  match target o with
  | Some TContent => lit "\p{L}\p{N}\p{M}_"
  | _ => lit "\p{L}\p{N}\p{M}"
  end.
(** The pattern text: the source, its anchors and its word boundaries. *)
Definition regex_source (s : text) o (wildcard : bool) : text :=
  let source := if diacritics o then to_nfc s else strip_marks s in
  let source := if wildcard then wildcard_pattern source else source in
  let source :=
    if whole o then lit "\A(?:" ++ source ++ lit ")\z"
    else
      let source := if start o then lit "\A(?:" ++ source ++ lit ")" else source in
      let source := if end_ o then lit "(?:" ++ source ++ lit ")\z" else source in
      let source :=
        if prefix o then lit "(?<![" ++ word_class o ++ lit "])(?:" ++ source ++ lit ")" else source in
      if suffix o then lit "(?:" ++ source ++ lit ")(?![" ++ word_class o ++ lit "])" else source in
  (if dot_all o then lit "(?s)" else []) ++ (if multiline o then lit "(?m)" else []) ++ source.
Definition matcher_new (s : text) o (wildcard : bool) : result TextMatcher :=
  regex_ ←
    (if regex o || wildcard then Some <$> pattern (regex_source s o wildcard) (sensitive o)
     else Ok None);
  Ok {| needle := normalized s o; finder := finder_new (utf8 (normalized s o));
        candidate_needle := fold_search s; matcher_regex := regex_; options := o |}.

(** ** Atoms *)

Section atoms.
Context {B : Type}.

Definition restrict_type (query : Query B) (is_dir : option bool) : Query B :=
  match is_dir with
  | Some dir => QAnd [QTerm (TIsDir dir); query]
  | None => query
  end.

Definition is_plain o : bool :=
  negb (regex o) && negb (diacritics o) && negb (sensitive o) && negb (prefix o) &&
  negb (suffix o) && negb (whole o) && negb (start o) && negb (end_ o).
Definition is_wildcard (s : text) o (target : TextTarget) : bool :=
  negb (regex o) && wildcards o && (contains_char 42 s || contains_char 63 s) &&
  match target with TContent => false | _ => true end.
Definition text_query (s : text) o (target : TextTarget) : result (Query B) :=
  let o := set_target target o in
  if is_plain o && negb (is_wildcard s o target) then
    let needle := fold_search s in
    match target with
    | TField field => Ok (QTerm (TText field needle (finder_new (utf8 needle)) (sensitive o)))
    | TContent => Ok (QTerm (TContentText needle (sensitive o)))
    | TProperty key =>
      if negb (sensitive o) then Ok (QTerm (TPropertyText key needle))
      else matcher ← matcher_new s o false; Ok (QTerm (TMatched target matcher))
    | TExtension => matcher ← matcher_new s o false; Ok (QTerm (TMatched target matcher))
    end
  else matcher ← matcher_new s o (is_wildcard s o target); Ok (QTerm (TMatched target matcher)).

(** [literal_from.is_some_and(|offset| original.len() - s.len() >= offset)]:
    the rest [s] of the atom is quoted text. *)
Definition in_literal (original s : text) (literal_from : option nat) : bool :=
  match literal_from with
  | Some offset => offset <=? byte_len original - byte_len s
  | None => false
  end.

(** How the prefix loop leaves: with the query, or with the state after it. *)
Inductive atom_scan :=
| Return (r : result (Query B))
| Break (s : text) (o : MatchOptions) (is_dir : option bool).
(** Each turn drops a key and its colon, so one more than the length of the
    atom is enough fuel ([atom_prefix_fuel]). *)
Fixpoint atom_prefix (fuel : nat) (original : text) (literal_from : option nat)
    (s : text) o (is_dir : option bool) : atom_scan :=
  match fuel with
  | O => Break s o is_dir
  | S fuel =>
    if in_literal original s literal_from then Break s o is_dir
    else match split_once (lit ":") s with
         | None => Break s o is_dir
         | Some (key, val) =>
           match relation_kind (keyword key) with
           | Some (recursive, kind) =>
             Return (inner ← text_query val o (TField (field o));
                     Ok (restrict_type (QTerm (TRelated recursive (restrict_type inner kind))) is_dir))
           | None =>
             match modifier o key with
             | Some o => atom_prefix fuel original literal_from val o is_dir
             | None =>
               let k := keyword key in
               if is_lit k "file" then atom_prefix fuel original literal_from val o (Some false)
               else if is_any k ["folder"; "dir"] then
                 atom_prefix fuel original literal_from val o (Some true)
               else if is_lit k "extension" then Break val (set_target TExtension o) is_dir
               else if is_lit k "ext" && regex o then
                 Break val (set_flag FWhole true (set_target TExtension o)) is_dir
               else if is_lit k "content" then Break val (set_target TContent o) is_dir
               else if text_property k then Break val (set_target (TProperty (keyword k)) o) is_dir
               else Break s o is_dir
             end
           end
         end
  end.

Definition trim_dots (v : text) : text := trim_start_matches (N.eqb 46) v.
Definition type_term (val : text) : result (Term B (Query B)) :=
  let v := to_ascii_lowercase val in
  if is_lit v "file" then Ok (TIsDir false)
  else if is_any v ["folder"; "directory"] then Ok (TIsDir true)
  else if is_any v ["symlink"; "link"] then Ok TIsSymlink
  else Err "type: accepts file, folder, or symlink".
Definition attribute (c : N) : result (Query B) :=
  let c := to_ascii_lowercase_char c in
  if (c =? 104)%N then Ok (QTerm THidden)
  else if (c =? 108)%N then Ok (QTerm TIsSymlink)
  else Err "attrib: supports macOS hidden (h) and symlink (l); use flags: for native flags".
Definition native_flag (name : text) : result N :=
  let k := keyword name in
  (if is_lit k "hidden" then Ok 0x8000
   else if is_lit k "immutable" then Ok (N.lor 0x0002 0x00020000)
   else if is_lit k "append" then Ok (N.lor 0x0004 0x00040000)
   else if is_lit k "nodump" then Ok 0x0001
   else if is_lit k "compressed" then Ok 0x0020
   else if is_any k ["dataless"; "placeholder"] then Ok 0x40000000
   else Err ("Unsupported native flag '" ++ show name ++ "'"))%N.
Fixpoint native_flags (names : list text) (flags : N) : result N :=
  match names with
  | [] => Ok flags
  | name :: names => flag ← native_flag name; native_flags names (N.lor flags flag)
  end.

(** The search functions [key:val] that are not text. *)
Definition function_query (key val : text) o (is_dir : option bool) : result (Query B) :=
  let key := keyword key in
  let term (t : result (Term B (Query B))) := t ← t; Ok (restrict_type (QTerm t) is_dir) in
  let number field val date :=
    term (n ← number_term field val date (now o); Ok (TNumeric n)) in
  if is_any key ["ext"; "extension"] then
    if negb (sensitive o) && negb (diacritics o) then
      term (Ok (TExtensions ((λ s, fold_search (trim_dots s)) <$> split_char 59 val)))
    else
      queries ← result_map (λ v, text_query (trim_dots v) (set_flag FWhole true o) TExtension)
                  (split_char 59 val);
      Ok (restrict_type (QOr queries) is_dir)
  else if is_lit key "type" then term (type_term val)
  else if is_lit key "hidden" && bool_decide (val = []) then term (Ok THidden)
  else if is_lit key "symlink" && bool_decide (val = []) then term (Ok TIsSymlink)
  else if is_lit key "empty" && bool_decide (val = []) then
    number (lit "childcount") (lit "=0") false
  else if is_lit key "size" then number key val false
  else if numeric_property key || is_metric key then number key val false
  else if is_any key ["dm"; "datemodified"; "modified"] then number (lit "modified") val true
  else if is_any key ["dc"; "datecreated"; "created"] then number (lit "created") val true
  else if is_any key ["attrib"; "attributes"] then
    terms ← result_map attribute val;
    if bool_decide (val = []) then Err "attrib: requires at least one attribute"
    else Ok (restrict_type (QAnd terms) is_dir)
  else if is_lit key "flags" then
    flags ← native_flags (split_char 59 val) 0%N; term (Ok (TFlags flags))
  else Err ("Unsupported search function '" ++ show key ++
            ":' (Windows-only properties are not silently ignored)").

(** A plain text operand, once its keys and functions are out of the way. *)
Definition operand_query (s : text) o (is_dir : option bool) : result (Query B) :=
  let s := if bool_decide (field o = Parent) && whole o && (1 <? byte_len s)
           then trim_end_matches (N.eqb 47) s else s in
  let o := if bool_decide (field o = Name) && contains_char 47 s && bool_decide (target o = None)
           then set_field Path o else o in
  query ← text_query s o (default (TField (field o)) (target o));
  Ok (restrict_type query is_dir).

Definition atom_with_options (original : text) (inherited : MatchOptions)
    (literal_from : option nat) : result (Query B) :=
  match atom_prefix (S (length original)) original literal_from original inherited None with
  | Return r => r
  | Break s o is_dir =>
    match is_dir, s with
    | Some dir, [] => Ok (QTerm (TIsDir dir))
    | _, _ =>
      match (if bool_decide (target o = None) && negb (regex o) &&
                negb (in_literal original s literal_from)
             then split_once (lit ":") s else None) with
      | Some (key, val) => function_query key val o is_dir
      | None => operand_query s o is_dir
      end
    end
  end.
End atoms.
End matchers.

(** ** Models of the interfaces, for examples *)

#[export] Instance ascii_unicode : Unicode := {
  to_nfc t := t; to_nfd t := t; is_combining_mark _ := false;
  fold_string := to_ascii_lowercase;
  is_alphanumeric c := is_ascii_alphabetic c || is_digit c;
}.
(** Patterns kept as text, matching only themselves. *)
#[export] Instance literal_pcre : Pcre := {
  Regex := text; regex_build _ p := Ok p;
  regex_is_match p h := Ok (bool_decide (utf8 p = h));
}.
Example wildcard_pattern_report :
  wildcard_pattern (lit "a*.t?t") = lit "\A(?:a[^/]*\.t[^/]t)\z".
Proof. vm_compute. reflexivity. Qed.
