(* ===== verification/QueryParse.v ===== *)
(** * core/src/query.rs, [Parser]: the expression machine

    The parser keeps its suspended groups and macros on an explicit stack of
    frames.  [parse_step] is one turn of its loop.  This file proves that the
    machine ends within its expression budget, and that it computes the same
    result, errors and limits included, as a recursive-descent parser of the
    grammar: OR binds tighter than AND, and juxtaposition is AND. *)
From S2P Require Import Prelude Text QueryLex Float QueryNumber Bitmap QuerySyntax.

Definition MAX_NESTING : nat := 128.
Definition MAX_MACROS : nat := 16.
Definition MAX_EXPRESSIONS : N := 8192.

Section parser.
Context `{Chrono, Unicode, Pcre, Memmem} {B : Type}.
(** The user's macros, by name. *)
Context (macros : gmap text text).
Notation Query := (Query B).

Inductive ExpressionScope :=
| Root
| Group (is_dir : option bool) (related : option bool)
| Macro.
Record ExpressionFrame := {
  tokens : list token;
  f_options : MatchOptions;
  scope : ExpressionScope;
  macro_depth : nat;
  nesting : nat;
  negations : nat;
  expecting_operand : bool;
  conjunction : list Query;
  disjunction : list Query;
}.
Definition frame_new (tokens : list token) (o : MatchOptions) (scope : ExpressionScope)
    (macro_depth nesting : nat) : ExpressionFrame :=
  {| tokens := tokens; f_options := o; scope := scope; macro_depth := macro_depth;
     nesting := nesting; negations := 0; expecting_operand := true; conjunction := [];
     disjunction := [] |}.
Definition set_tokens (ts : list token) (f : ExpressionFrame) : ExpressionFrame :=
  {| tokens := ts; f_options := f_options f; scope := scope f; macro_depth := macro_depth f;
     nesting := nesting f; negations := negations f; expecting_operand := expecting_operand f;
     conjunction := conjunction f; disjunction := disjunction f |}.

Definition negate (n : nat) (query : Query) : Query := Nat.iter n QNot query.
Definition accept (query : Query) (f : ExpressionFrame) : ExpressionFrame :=
  {| tokens := tokens f; f_options := f_options f; scope := scope f; macro_depth := macro_depth f;
     nesting := nesting f; negations := 0; expecting_operand := false;
     conjunction := conjunction f;
     disjunction := disjunction f ++ [negate (negations f) query] |}.
Definition finish_disjunction (queries : list Query) : Query :=
  match queries with [query] => query | _ => QOr queries end.
Definition frame_finish (f : ExpressionFrame) : Query :=
  let last := finish_disjunction (disjunction f) in
  match conjunction f with
  | [] => last
  | _ => QAnd (conjunction f ++ [last])
  end.

Record machine := {
  frame : ExpressionFrame;
  suspended : list ExpressionFrame;   (* the top first *)
  remaining : N;
}.
Inductive turn := Done (r : result Query) | Go (m : machine).
Definition continue_with (f : ExpressionFrame) (m : machine) : turn :=
  Go {| frame := f; suspended := suspended m; remaining := remaining m |}.
(** [suspended.push(std::mem::replace(&mut frame, child))] *)
Definition suspend (f child : ExpressionFrame) (m : machine) : turn :=
  Go {| frame := child; suspended := f :: suspended m; remaining := remaining m |}.

(** The end of an expression: [None | Some(Token::R)]. *)
Definition wrap_group (is_dir related : option bool) (query : Query) : Query :=
  let query := restrict_type query is_dir in
  match related with
  | Some recursive => QTerm (TRelated recursive query)
  | None => query
  end.
Definition close_frame (m : machine) : turn :=
  let f := frame m in
  match scope f, tokens f with
  | Group _ _, [] => Done (Err "Unclosed search group")
  | Root, _ :: _ => Done (Err "Unexpected closing group or trailing token")
  | Macro, _ :: _ => Done (Err "Unexpected closing group in macro")
  | sc, ts =>
    let query := frame_finish f in
    match suspended m with
    | [] => Done (Ok query)
    | parent :: suspended =>
      let '(parent, query) :=
        match sc with
        | Group is_dir related => (set_tokens (drop 1 ts) parent, wrap_group is_dir related query)
        | _ => (parent, query)
        end in
      Go {| frame := accept query parent; suspended := suspended; remaining := remaining m |}
    end
  end.

(** The options of [scope:(..)] groups. *)
Definition group_scope (s : text) (literal_from : option nat) (ts : list token) (o : MatchOptions) :
    option (MatchOptions * option bool * option bool) :=
  match literal_from, ts with
  | Some 0, _ => None
  | _, L :: _ =>
    match relation_scope s o with
    | Some (recursive, kind, o) => Some (o, kind, Some recursive)
    | None => '(o, kind) ← scoped_options s o; Some (o, kind, None)
    end
  | _, _ => None
  end.
Definition macro_value (s : text) (literal_from : option nat) : option text :=
  match literal_from with
  | Some 0 => None
  | _ => key ← strip_suffix_char 58 s; macros !! key
  end.

(** An operand: everything from [let nesting = ..] on. *)
Definition operand_turn (m : machine) : turn :=
  let f := frame m in
  let nest := nesting f + negations f in
  if MAX_NESTING <=? nest then Done (Err "Search expression nesting exceeds 128 levels")
  else if (remaining m =? 0)%N then Done (Err "Expanded query exceeds 8192 expressions")
  else
    let m := {| frame := f; suspended := suspended m; remaining := (remaining m - 1)%N |} in
    match tokens f with
    | [] => Done (Err "Missing search expression")
    | Not :: ts =>
      continue_with {| tokens := ts; f_options := f_options f; scope := scope f;
        macro_depth := macro_depth f; nesting := nesting f; negations := S (negations f);
        expecting_operand := expecting_operand f; conjunction := conjunction f;
        disjunction := disjunction f |} m
    | L :: ts =>
      suspend (set_tokens [] f)
        (frame_new ts (f_options f) (Group None None) (macro_depth f) (S nest)) m
    | Atom s literal_from :: ts =>
      match group_scope s literal_from ts (f_options f) with
      | Some (o, is_dir, related) =>
        suspend (set_tokens [] f)
          (frame_new (drop 1 ts) o (Group is_dir related) (macro_depth f) (S nest)) m
      | None =>
        match macro_value s literal_from with
        | Some value =>
          if MAX_MACROS <=? macro_depth f then
            Done (Err "Macro expansion exceeds 16 levels (possible cycle)")
          else
            match default (Err "") (lex value) with
            | Err e => Done (Err e)
            | Ok [] => continue_with (accept All (set_tokens ts f)) m
            | Ok expansion =>
              suspend (set_tokens ts f)
                (frame_new expansion (f_options f) Macro (S (macro_depth f)) (S nest)) m
            end
        | None =>
          match atom_with_options s (f_options f) literal_from with
          | Ok query => continue_with (accept query (set_tokens ts f)) m
          | Err e => Done (Err e)
          end
        end
      end
    | _ :: _ => Done (Err "Expected a search expression")
    end.

Definition expect_operand (ts : list token) (f : ExpressionFrame) : ExpressionFrame :=
  {| tokens := ts; f_options := f_options f; scope := scope f; macro_depth := macro_depth f;
     nesting := nesting f; negations := negations f; expecting_operand := true;
     conjunction := conjunction f; disjunction := disjunction f |}.
(** The end of a disjunction: the next operand begins another conjunct. *)
Definition next_conjunct (ts : list token) (f : ExpressionFrame) : ExpressionFrame :=
  {| tokens := ts; f_options := f_options f; scope := scope f; macro_depth := macro_depth f;
     nesting := nesting f; negations := negations f; expecting_operand := true;
     conjunction := conjunction f ++ [finish_disjunction (disjunction f)];
     disjunction := [] |}.
(** One turn of the loop. *)
Definition parse_step (m : machine) : turn :=
  let f := frame m in
  if expecting_operand f then operand_turn m
  else
    match tokens f with
    | Or :: ts => continue_with (expect_operand ts f) m
    | [] | R :: _ => close_frame m
    | And :: ts =>
      operand_turn {| frame := next_conjunct ts f; suspended := suspended m; remaining := remaining m |}
    | ts =>
      operand_turn {| frame := next_conjunct ts f; suspended := suspended m; remaining := remaining m |}
    end.
Fixpoint run (fuel : nat) (m : machine) : option (result Query) :=
  match fuel with
  | O => None
  | S fuel => match parse_step m with Done r => Some r | Go m => run fuel m end
  end.

Definition parse_start (ts : list token) (o : MatchOptions) : machine :=
  {| frame := frame_new ts o Root 0 0; suspended := []; remaining := MAX_EXPRESSIONS |}.
(** Every turn spends an expression of the budget, closes a suspended frame or
    passes an operator ([parse_step_decreases]). *)
Definition parse_fuel (m : machine) : nat :=
  3 * N.to_nat (remaining m) + length (suspended m) +
  (if expecting_operand (frame m) then 0 else 1).
Definition parse_tokens (ts : list token) (o : MatchOptions) : option (result Query) :=
  run (S (parse_fuel (parse_start ts o))) (parse_start ts o).
Definition parse_at (input : text) (now : DateTime) : option (result Query) :=
  r ← lex input;
  match r with
  | Err e => Some (Err e)
  | Ok [] => Some (Ok All)
  | Ok ts => parse_tokens ts (default_options now)
  end.

(** ** The machine ends *)

Lemma close_frame_decreases m m' :
  close_frame m = Go m' → expecting_operand (frame m) = false → parse_fuel m' < parse_fuel m.
Proof.
  unfold close_frame, parse_fuel. intros Hm He. rewrite He.
  repeat case_match; simplify_eq; simpl in *; lia.
Qed.
Lemma operand_turn_decreases m m' :
  operand_turn m = Go m' → parse_fuel m' + 1 < 3 * N.to_nat (remaining m) + length (suspended m).
Proof.
  unfold operand_turn. case_match; [done|]. destruct (N.eqb_spec (remaining m) 0); [done|].
  intros Hm. unfold parse_fuel.
  destruct (tokens (frame m)) as [|[s lf| | | | |] ts]; try done;
    unfold continue_with, suspend in Hm; repeat case_match; simplify_eq; simpl in *; lia.
Qed.
Lemma parse_step_decreases m m' : parse_step m = Go m' → parse_fuel m' < parse_fuel m.
Proof.
  unfold parse_step. destruct (expecting_operand (frame m)) eqn:He.
  - intros Hm%operand_turn_decreases. unfold parse_fuel in *. lia.
  - assert (∀ ts, operand_turn {| frame := next_conjunct ts (frame m);
        suspended := suspended m; remaining := remaining m |} = Go m' →
      parse_fuel m' < parse_fuel m) as Hgo.
    { intros ts Hm%operand_turn_decreases. unfold parse_fuel in *. simpl in *. lia. }
    destruct (tokens (frame m)) as [|[s lf| | | | |] ts] eqn:Ht; try apply Hgo;
      try (intros; by apply close_frame_decreases).
    intros [= <-]. unfold parse_fuel. rewrite He. simpl. lia.
Qed.
Lemma run_total fuel m : parse_fuel m < fuel → is_Some (run fuel m).
Proof.
  revert m. induction fuel as [|fuel IH]; intros m Hf; [lia|]. cbn [run].
  destruct (parse_step m) eqn:Hs; [by eexists|].
  apply parse_step_decreases in Hs. apply IH. lia.
Qed.
Lemma run_mono fuel fuel' m r : run fuel m = Some r → fuel ≤ fuel' → run fuel' m = Some r.
Proof.
  revert m fuel'. induction fuel as [|fuel IH]; intros m [|fuel'] Hr Hle; try done; [lia|].
  cbn [run] in *. destruct (parse_step m); [done|]. apply IH; [done|lia].
Qed.

(** ** The grammar, by recursive descent

    [expression := disjunction ((AND)? disjunction)*],
    [disjunction := unary (OR unary)*],
    [unary := NOT unary | ( expression ) | scope:( expression ) | macro: | atom].
    A parser takes the remaining expression budget and gives its result, the
    tokens left and the budget left; the outer [None] is a lack of fuel. *)

Definition descent (A : Type) : Type := option (result (A * list token * N)).
Definition d_bind {A C} (m : descent A) (k : A → list token → N → descent C) : descent C :=
  match m with
  | None => None
  | Some (Err e) => Some (Err e)
  | Some (Ok (x, ts, rem)) => k x ts rem
  end.
Definition finish_expression (queries : list Query) : Query :=
  match queries with [query] => query | _ => QAnd queries end.
Definition close_group (is_dir related : option bool) (queries : list Query) (ts : list token) (rem : N) :
    descent Query :=
  match ts with
  | R :: ts => Some (Ok (wrap_group is_dir related (finish_expression queries), ts, rem))
  | _ => Some (Err "Unclosed search group")
  end.
Fixpoint descend_unary (fuel : nat) (o : MatchOptions) (depth nest : nat) (ts : list token) (rem : N) :
    descent Query :=
  match fuel with
  | O => None
  | S fuel =>
    if MAX_NESTING <=? nest then Some (Err "Search expression nesting exceeds 128 levels")
    else if (rem =? 0)%N then Some (Err "Expanded query exceeds 8192 expressions")
    else
      let rem := (rem - 1)%N in
      match ts with
      | [] => Some (Err "Missing search expression")
      | Not :: ts =>
        d_bind (descend_unary fuel o depth (S nest) ts rem) (λ q ts rem, Some (Ok (QNot q, ts, rem)))
      | L :: ts =>
        d_bind (descend_expression fuel o depth (S nest) ts rem) (close_group None None)
      | Atom s literal_from :: ts =>
        match group_scope s literal_from ts o with
        | Some (o, is_dir, related) =>
          d_bind (descend_expression fuel o depth (S nest) (drop 1 ts) rem) (close_group is_dir related)
        | None =>
          match macro_value s literal_from with
          | Some value =>
            if MAX_MACROS <=? depth then
              Some (Err "Macro expansion exceeds 16 levels (possible cycle)")
            else
              match default (Err "") (lex value) with
              | Err e => Some (Err e)
              | Ok [] => Some (Ok (All, ts, rem))
              | Ok expansion =>
                d_bind (descend_expression fuel o (S depth) (S nest) expansion rem) (λ queries rest rem,
                  match rest with
                  | [] => Some (Ok (finish_expression queries, ts, rem))
                  | _ => Some (Err "Unexpected closing group in macro")
                  end)
              end
          | None =>
            match atom_with_options s o literal_from with
            | Ok query => Some (Ok (query, ts, rem))
            | Err e => Some (Err e)
            end
          end
        end
      | _ :: _ => Some (Err "Expected a search expression")
      end
  end
with descend_disjunction (fuel : nat) (o : MatchOptions) (depth nest : nat) (ts : list token) (rem : N) :
    descent (list Query) :=
  match fuel with
  | O => None
  | S fuel =>
    d_bind (descend_unary fuel o depth nest ts rem) (λ q ts rem,
      match ts with
      | Or :: ts =>
        d_bind (descend_disjunction fuel o depth nest ts rem) (λ qs ts rem, Some (Ok (q :: qs, ts, rem)))
      | _ => Some (Ok ([q], ts, rem))
      end)
  end
with descend_expression (fuel : nat) (o : MatchOptions) (depth nest : nat) (ts : list token) (rem : N) :
    descent (list Query) :=
  match fuel with
  | O => None
  | S fuel =>
    d_bind (descend_disjunction fuel o depth nest ts rem) (λ qs ts rem,
      let q := finish_disjunction qs in
      match ts with
      | [] | R :: _ => Some (Ok ([q], ts, rem))
      | And :: ts =>
        d_bind (descend_expression fuel o depth nest ts rem) (λ qs ts rem, Some (Ok (q :: qs, ts, rem)))
      | _ =>
        d_bind (descend_expression fuel o depth nest ts rem) (λ qs ts rem, Some (Ok (q :: qs, ts, rem)))
      end)
  end.
(** A call spends an expression before it calls itself, three levels down. *)
Definition descend_fuel : nat := 3 * N.to_nat MAX_EXPRESSIONS + 3.
Definition descend (ts : list token) (o : MatchOptions) : option (result Query) :=
  match descend_expression descend_fuel o 0 0 ts MAX_EXPRESSIONS with
  | None => None
  | Some (Err e) => Some (Err e)
  | Some (Ok (queries, [], _)) => Some (Ok (finish_expression queries))
  | Some (Ok (_, _ :: _, _)) => Some (Err "Unexpected closing group or trailing token")
  end.

(** *** The descent ends, and what it leaves *)

Definition descended {A} (rem : N) (d : descent A) : Prop :=
  match d with
  | None => False
  | Some (Err _) => True
  | Some (Ok (_, _, rem')) => (rem' < rem)%N
  end.
Lemma d_bind_descended {A C} rem rem' (m : descent A) (k : A → list token → N → descent C) :
  descended rem m → (rem ≤ rem')%N →
  (∀ x ts r, m = Some (Ok (x, ts, r)) → (r < rem)%N → descended rem' (k x ts r)) →
  descended rem' (d_bind m k).
Proof.
  intros Hm Hle Hk. destruct m as [[[[x ts] r]|e]|]; [|done|done]. simpl. by apply Hk.
Qed.
Lemma descend_total fuel :
  (∀ o depth nest ts rem, 3 * N.to_nat rem + 1 ≤ fuel →
    descended rem (descend_unary fuel o depth nest ts rem)) ∧
  (∀ o depth nest ts rem, 3 * N.to_nat rem + 2 ≤ fuel →
    descended rem (descend_disjunction fuel o depth nest ts rem)) ∧
  (∀ o depth nest ts rem, 3 * N.to_nat rem + 3 ≤ fuel →
    descended rem (descend_expression fuel o depth nest ts rem)).
Proof.
  induction fuel as [|fuel (IHu & IHd & IHe)]; [split_and!; intros; lia|]. split_and!.
  - intros o depth nest ts rem Hf. cbn [descend_unary]. case_match; [done|].
    destruct (N.eqb_spec rem 0); [done|]. cbv zeta.
    assert (Hexp : ∀ o depth ts C (k : list Query → list token → N → descent C),
      (∀ qs ts r, (r < rem)%N → descended rem (k qs ts r)) →
      descended rem (d_bind (descend_expression fuel o depth (S nest) ts (rem - 1)) k)).
    { intros o' depth' ts' C k Hk. eapply (d_bind_descended (rem - 1)); [apply IHe; lia|lia|].
      intros; apply Hk; lia. }
    assert (Hgroup : ∀ is_dir related qs ts r, (r < rem)%N →
      descended rem (close_group is_dir related qs ts r)).
    { intros. unfold close_group. by repeat case_match. }
    destruct ts as [|[s lf| | | | |] ts]; simpl; try done.
    + destruct (group_scope s lf ts o) as [[[o' is_dir] related]|]; [apply Hexp; auto|].
      destruct (macro_value s lf) as [value|].
      * case_match; [done|].
        destruct (default (Err "") (lex value)) as [[|t ts']|e]; simpl; [lia| |done].
        apply Hexp. intros qs ts'' r Hr. by destruct ts''.
      * destruct (atom_with_options s o lf); simpl; [lia|done].
    + apply Hexp; auto.
    + eapply (d_bind_descended (rem - 1)); [apply IHu; lia|lia|]. intros. simpl. lia.
  - intros o depth nest ts rem Hf. cbn [descend_disjunction].
    eapply (d_bind_descended rem); [apply IHu; lia|done|]. intros q ts' r _ Hr.
    destruct ts' as [|[s lf| | | | |] ts']; simpl; try done.
    eapply (d_bind_descended r); [apply IHd; lia|lia|]. intros. simpl. lia.
  - intros o depth nest ts rem Hf. cbn [descend_expression].
    eapply (d_bind_descended rem); [apply IHd; lia|done|]. intros qs ts' r _ Hr.
    destruct ts' as [|[s lf| | | | |] ts']; simpl; try done;
      (eapply (d_bind_descended r); [apply IHe; lia|lia|]; intros; simpl; lia).
Qed.

(** ** The machine computes the descent *)

Definition turn_run (fuel : nat) (t : turn) : option (result Query) :=
  match t with Done r => Some r | Go m => run fuel m end.
(** From turn [t], after some number of turns, the machine goes on as [k]. *)
Definition resumes (t : turn) (k : nat → option (result Query)) : Prop :=
  ∃ n, ∀ fuel, turn_run (n + fuel) t = k fuel.
Lemma resumes_here t : resumes t (λ fuel, turn_run fuel t).
Proof. by exists 0. Qed.
Lemma resumes_trans t t' k :
  resumes t (λ fuel, turn_run fuel t') → resumes t' k → resumes t k.
Proof.
  intros [n Hn] [n' Hn']. exists (n + n'). intros fuel. rewrite <-Nat.add_assoc, Hn. apply Hn'.
Qed.
Lemma resumes_step m k : resumes (parse_step m) k → resumes (Go m) k.
Proof. intros [n Hn]. exists (S n). intros fuel. simpl. apply Hn. Qed.
Lemma resumes_done r : resumes (Done r) (λ _, Some r).
Proof. by exists 0. Qed.

Notation Frame := Build_ExpressionFrame.
Notation Machine := Build_machine.
(** What the machine does when the descent of a part of its frame ends. *)
Definition answers {A} (d : descent A) (t : turn) (k : A → list token → N → turn → Prop) : Prop :=
  match d with
  | None => True
  | Some (Err e) => resumes t (λ _, Some (Err e))
  | Some (Ok (x, ts, rem)) =>
    ∃ t', k x ts rem t' ∧ resumes t (λ fuel, turn_run fuel t')
  end.
Lemma answers_bind {A C} (m : descent A) (f : A → list token → N → descent C) t k k' :
  answers m t k →
  (∀ x ts rem t', k x ts rem t' → answers (f x ts rem) t' k') →
  answers (d_bind m f) t k'.
Proof.
  intros Hm Hf. destruct m as [[[[x ts] rem]|e]|]; simpl; [|done|done].
  destruct Hm as (t1 & Hk & Ht). specialize (Hf _ _ _ _ Hk).
  destruct (f x ts rem) as [[[[y ts'] rem']|e]|]; simpl in *; [| |done].
  - destruct Hf as (t2 & Hk2 & Ht2). exists t2. split; [done|]. by eapply resumes_trans.
  - by eapply resumes_trans.
Qed.
Lemma answers_through {A} (d : descent A) t t' k :
  resumes t (λ fuel, turn_run fuel t') → answers d t' k → answers d t k.
Proof.
  intros Ht Hd. destruct d as [[[[x ts] rem]|e]|]; simpl in *; [| |done].
  - destruct Hd as (t2 & Hk & Ht2). exists t2. split; [done|]. by eapply resumes_trans.
  - by eapply resumes_trans.
Qed.

Definition unary_done o sc md nest neg conj disj susp (q : Query) ts rem (t : turn) : Prop :=
  t = Go (Machine (Frame ts o sc md nest 0 false conj (disj ++ [negate neg q])) susp rem).
Definition disjunction_done o sc md nest conj disj susp (qs : list Query) (ts : list token) rem (t : turn) : Prop :=
  head ts ≠ Some Or ∧
  t = Go (Machine (Frame ts o sc md nest 0 false conj (disj ++ qs)) susp rem).
Definition expression_done o sc md nest conj susp (qs : list Query) ts rem (t : turn) : Prop :=
  (ts = [] ∨ head ts = Some R) ∧
  ∃ conj' disj', frame_finish (Frame ts o sc md nest 0 false conj' disj') = finish_expression (conj ++ qs) ∧
    t = Go (Machine (Frame ts o sc md nest 0 false conj' disj') susp rem).

Lemma frame_finish_app o sc md nest conj disj ts :
  frame_finish (Frame ts o sc md nest 0 false conj disj) =
    finish_expression (conj ++ [finish_disjunction disj]).
Proof. unfold frame_finish. simpl. destruct conj as [|q [|q' conj]]; done. Qed.
(** A group's child frame, once its expression is done, resumes its parent. *)
Lemma group_closes is_dir related o md nest nest' neg conj disj susp sc o' rem qs ts rem' t :
  expression_done o' (Group is_dir related) md nest' []
    (Frame [] o sc md nest neg true conj disj :: susp) qs ts rem t →
  answers (close_group is_dir related qs ts rem') t
    (unary_done o sc md nest neg conj disj susp) ∨ rem' ≠ rem.
Proof.
  intros (Hts & conj' & disj' & Hf & ->). destruct (decide (rem' = rem)) as [->|]; [left|by right].
  unfold close_group. destruct Hts as [->|Hts].
  - simpl. exists 1. intros fuel. done.
  - destruct ts as [|[] ts]; try done. simpl. eexists. split; [done|].
    apply resumes_step. unfold parse_step, close_frame.
    cbn [frame tokens scope suspended remaining expecting_operand]. rewrite Hf. apply resumes_here.
Qed.

Definition unary_simulated (fuel : nat) : Prop :=
  ∀ o sc md nest neg conj disj susp ts rem,
    answers (descend_unary fuel o md (nest + neg) ts rem)
      (operand_turn (Machine (Frame ts o sc md nest neg true conj disj) susp rem))
      (unary_done o sc md nest neg conj disj susp).
Definition disjunction_simulated (fuel : nat) : Prop :=
  ∀ o sc md nest conj disj susp ts rem,
    answers (descend_disjunction fuel o md nest ts rem)
      (operand_turn (Machine (Frame ts o sc md nest 0 true conj disj) susp rem))
      (disjunction_done o sc md nest conj disj susp).
Definition expression_simulated (fuel : nat) : Prop :=
  ∀ o sc md nest conj susp ts rem,
    answers (descend_expression fuel o md nest ts rem)
      (operand_turn (Machine (Frame ts o sc md nest 0 true conj []) susp rem))
      (expression_done o sc md nest conj susp).

Lemma unary_simulation fuel :
  unary_simulated fuel → expression_simulated fuel → unary_simulated (S fuel).
Proof.
  intros IHu IHe o sc md nest neg conj disj susp ts rem.
  cbn [descend_unary]. unfold operand_turn. cbn [frame nesting negations remaining tokens f_options macro_depth].
  destruct (MAX_NESTING <=? nest + neg); [apply resumes_done|].
  destruct (rem =? 0)%N; [apply resumes_done|]. cbv zeta. cbn [suspended].
  assert (Hgroup : ∀ is_dir related o' ts',
    answers (d_bind (descend_expression fuel o' md (S (nest + neg)) ts' (rem - 1))
        (close_group is_dir related))
      (Go (Machine (frame_new ts' o' (Group is_dir related) md (S (nest + neg)))
        (Frame [] o sc md nest neg true conj disj :: susp) (rem - 1)))
      (unary_done o sc md nest neg conj disj susp)).
  { intros is_dir related o' ts'. eapply answers_bind.
    - eapply answers_through; [apply resumes_step; apply resumes_here|]. apply IHe.
    - intros qs ts2 r t Ht. by destruct (group_closes _ _ _ _ _ _ _ _ _ _ _ _ _ _ _ r _ Ht). }
  destruct ts as [|[s lf| | | | |] ts]; try apply resumes_done.
  - destruct (group_scope s lf ts o) as [[[o' is_dir] related]|]; [apply Hgroup|].
    destruct (macro_value s lf) as [value|].
    + destruct (MAX_MACROS <=? md); [apply resumes_done|].
      destruct (default (Err "") (lex value)) as [[|t ts']|e]; [| |apply resumes_done].
      * eexists. split; [reflexivity|]. apply resumes_here.
      * eapply answers_bind; [eapply answers_through; [apply resumes_step; apply resumes_here|]; apply IHe|].
        intros qs ts2 r t2 (Hts & conj' & disj' & Hf & ->).
        destruct Hts as [->|Hts]; [|destruct ts2 as [|[] ts2]; try done; exists 1; intros; done].
        eexists. split; [reflexivity|]. apply resumes_step. unfold parse_step, close_frame.
        cbn [frame tokens scope suspended remaining expecting_operand].
        rewrite Hf. apply resumes_here.
    + destruct (atom_with_options s o lf); [|apply resumes_done].
      eexists. split; [reflexivity|]. apply resumes_here.
  - apply Hgroup.
  - eapply answers_bind.
    + eapply answers_through; [apply resumes_step; apply resumes_here|].
      replace (S (nest + neg)) with (nest + S neg) by lia. apply IHu.
    + intros q ts2 r t ->. eexists. split; [|apply resumes_here]. unfold unary_done, negate.
      do 4 f_equal. by rewrite (Nat.iter_swap neg).
Qed.
Lemma disjunction_simulation fuel :
  unary_simulated fuel → disjunction_simulated fuel → disjunction_simulated (S fuel).
Proof.
  intros IHu IHd o sc md nest conj disj susp ts rem. cbn [descend_disjunction].
  eapply answers_bind; [specialize (IHu o sc md nest 0); rewrite Nat.add_0_r in IHu; apply IHu|].
  intros q ts2 r t ->. simpl negate.
  assert (Hend : ∀ ts, head ts ≠ Some Or →
    answers (Some (Ok ([q], ts, r)))
      (Go (Machine (Frame ts o sc md nest 0 false conj (disj ++ [q])) susp r))
      (disjunction_done o sc md nest conj disj susp)).
  { intros ts' Hts. eexists. split; [split; [done|reflexivity]|apply resumes_here]. }
  destruct ts2 as [|[s lf| | | | |] ts2]; try by apply Hend.
  eapply answers_through.
  { do 2 apply resumes_step. apply resumes_here. }
  eapply answers_bind; [apply IHd|]. intros qs ts3 r' t (Hts & ->).
  eexists. split; [split; [done|]|apply resumes_here]. cbn. by rewrite <-app_assoc.
Qed.
Lemma expression_simulation fuel :
  disjunction_simulated fuel → expression_simulated fuel → expression_simulated (S fuel).
Proof.
  intros IHd IHe o sc md nest conj susp ts rem. cbn [descend_expression].
  eapply answers_bind; [apply IHd|]. intros qs ts2 r t (Hts & ->). simpl app.
  assert (Hend : ∀ ts, ts = [] ∨ head ts = Some R →
    answers (Some (Ok ([finish_disjunction qs], ts, r)))
      (Go (Machine (Frame ts o sc md nest 0 false conj qs) susp r))
      (expression_done o sc md nest conj susp)).
  { intros ts' Hts'. eexists. split; [|apply resumes_here]. split; [done|].
    exists conj, qs. split; [apply frame_finish_app|done]. }
  assert (Hnext : ∀ ts ts', head ts = Some And ∧ ts' = drop 1 ts ∨
      head ts ≠ Some And ∧ head ts ≠ Some Or ∧ head ts ≠ Some R ∧ ts ≠ [] ∧ ts' = ts →
    answers (d_bind (descend_expression fuel o md nest ts' r)
        (λ qs' ts rem, Some (Ok (finish_disjunction qs :: qs', ts, rem))))
      (Go (Machine (Frame ts o sc md nest 0 false conj qs) susp r))
      (expression_done o sc md nest conj susp)).
  { intros ts1 ts1' Hcase. eapply answers_through; [apply resumes_step; apply resumes_here|].
    replace (parse_step (Machine (Frame ts1 o sc md nest 0 false conj qs) susp r)) with
      (operand_turn (Machine (Frame ts1' o sc md nest 0 true
        (conj ++ [finish_disjunction qs]) []) susp r)).
    2:{ destruct ts1 as [|[] ?]; naive_solver. }
    eapply answers_bind; [apply IHe|]. intros qs' ts3 r' t (Hts3 & conj' & disj' & Hf & ->).
    eexists. split; [|apply resumes_here]. split; [done|]. exists conj', disj'. split; [|done].
    by rewrite Hf, <-app_assoc. }
  destruct ts2 as [|[s lf| | | | |] ts2]; try done;
    (apply Hend; by auto) || (apply Hnext; naive_solver).
Qed.
Lemma simulation fuel :
  unary_simulated fuel ∧ disjunction_simulated fuel ∧ expression_simulated fuel.
Proof.
  induction fuel as [|fuel (IHu & IHd & IHe)]; [done|].
  split_and!; auto using unary_simulation, disjunction_simulation, expression_simulation.
Qed.

Lemma turn_run_mono fuel fuel' t r : turn_run fuel t = Some r → fuel ≤ fuel' → turn_run fuel' t = Some r.
Proof. destruct t; [done|]. apply run_mono. Qed.
(** What the machine ends with, whatever the fuel it is first seen to end at. *)
Lemma resumes_result m k r fuel :
  resumes (parse_step m) k → (∀ fuel, fuel ≠ 0 → k fuel = Some r) →
  parse_fuel m < fuel → run fuel m = Some r.
Proof.
  intros [n Hn] Hk Hf. destruct (run_total fuel m Hf) as [r' Hr'].
  pose proof (run_mono fuel (fuel + S (n + 1)) m r' Hr' ltac:(lia)) as Hbig.
  assert (run (S (n + 1)) m = Some r) as Hr by (cbn [run]; change (turn_run (n + 1) (parse_step m) = Some r); by rewrite Hn, Hk).
  apply (run_mono _ (fuel + S (n + 1))) in Hr; [|lia]. congruence.
Qed.

Lemma machine_descends ts o :
  ∃ r, parse_tokens ts o = Some r ∧ descend ts o = Some r.
Proof.
  unfold parse_tokens, descend, parse_start.
  destruct (descend_total descend_fuel) as (_ & _ & Htotal).
  specialize (Htotal o 0 0 ts MAX_EXPRESSIONS ltac:(reflexivity)).
  destruct (simulation descend_fuel) as (_ & _ & Hsim).
  specialize (Hsim o Root 0 0 [] [] ts MAX_EXPRESSIONS).
  set (start := Machine (Frame ts o Root 0 0 0 true [] []) [] MAX_EXPRESSIONS) in *.
  change (Machine (frame_new ts o Root 0 0) [] MAX_EXPRESSIONS) with start.
  change (operand_turn start) with (parse_step start) in Hsim.
  destruct (descend_expression _ o 0 0 ts MAX_EXPRESSIONS) as [[[[qs ts'] rem]|e]|]; [| |done].
  - destruct Hsim as (t & (Hts & conj & disj & Hf & ->) & Hres).
    exists (match ts' with [] => Ok (finish_expression qs)
            | _ => Err "Unexpected closing group or trailing token" end).
    split; [|by destruct ts']. eapply resumes_result; [exact Hres| |lia].
    intros [|fuel] Hfuel; [done|]. cbn [turn_run run]. unfold parse_step, close_frame.
    cbn [frame tokens scope suspended expecting_operand]. rewrite Hf. simpl app.
    destruct Hts as [->|Hts]; [done|]. by destruct ts' as [|[] ts'].
  - exists (Err e). split; [|done]. eapply resumes_result; [exact Hsim|done|lia].
Qed.

(** C4: The frame machine is a recursive-descent parser.  On every token
    sequence, macro table and options, the heap-allocated machine ends within
    its expression budget, and its result, whether a query or an error, is that
    of the grammar read by recursive descent, under the same limits on nesting,
    macro depth and expressions: OR binds tighter than AND, juxtaposition is
    AND, NOT applies to one operand, and a macro parses as a group of its own. *)
Theorem parse_refines_grammar ts o :
  ∃ r, parse_tokens ts o = Some r ∧ descend ts o = Some r.
Proof. apply machine_descends. Qed.

(** ** How deep a parsed query can be *)

Fixpoint query_depth (q : Query) : nat :=
  match q with
  | All => 0
  | QAnd queries | QOr queries => S (foldr (λ q n, query_depth q `max` n) 0 queries)
  | QNot q => S (query_depth q)
  | QTerm (TRelated _ q) => S (query_depth q)
  | QTerm _ => 0
  end.
Definition queries_depth (queries : list Query) : nat :=
  foldr (λ q n, query_depth q `max` n) 0 queries.

Definition gives {A} (P : A → Prop) (d : descent A) : Prop :=
  match d with Some (Ok (x, _, _)) => P x | _ => True end.
Lemma gives_bind {A C} (P : A → Prop) (Q : C → Prop) (m : descent A) f :
  gives P m → (∀ x ts rem, P x → gives Q (f x ts rem)) → gives Q (d_bind m f).
Proof. intros Hm Hf. destruct m as [[[[x ts] rem]|e]|]; simpl; [by apply Hf|done..]. Qed.

Lemma restrict_type_depth q kind : query_depth (restrict_type q kind) ≤ S (query_depth q).
Proof. destruct kind; simpl; lia. Qed.
Lemma wrap_group_depth kind related q : query_depth (wrap_group kind related q) ≤ 2 + query_depth q.
Proof.
  unfold wrap_group. pose proof (restrict_type_depth q kind). destruct related; simpl; lia.
Qed.
Lemma finish_depth queries n :
  queries_depth queries ≤ n →
  query_depth (finish_disjunction queries) ≤ S n ∧ query_depth (finish_expression queries) ≤ S n.
Proof. unfold queries_depth. destruct queries as [|q [|q' queries]]; simpl; lia. Qed.

(** A result, if any, of depth at most [n]. *)
Definition result_depth (n : nat) (r : result Query) : Prop :=
  match r with Ok q => query_depth q ≤ n | Err _ => True end.
Lemma result_depth_bind {A} n (m : result A) f :
  (∀ x, m = Ok x → result_depth n (f x)) → result_depth n (m ≫= f).
Proof. destruct m; simpl; auto. Qed.
Lemma result_depth_restrict n q kind :
  query_depth q ≤ n → result_depth (S n) (Ok (restrict_type q kind)).
Proof. pose proof (restrict_type_depth q kind). simpl. lia. Qed.
Lemma text_query_depth s o target : result_depth 0 (text_query s o target).
Proof.
  unfold text_query. repeat (case_match || apply result_depth_bind; intros); simpl; done.
Qed.
Lemma result_map_depth {A} (f : A → result Query) l qs :
  (∀ x, result_depth 0 (f x)) → result_map f l = Ok qs → queries_depth qs = 0.
Proof.
  intros Hf Hqs%result_map_Forall2. induction Hqs as [|x q l qs Hx _ IH]; [done|].
  specialize (Hf x). rewrite Hx in Hf. simpl in *. lia.
Qed.
Lemma result_depth_Ok n r q : result_depth n r → r = Ok q → query_depth q ≤ n.
Proof. intros Hr ->. done. Qed.
Lemma operand_query_depth s o kind : result_depth 1 (operand_query s o kind).
Proof.
  unfold operand_query. apply result_depth_bind. intros q Hq. apply result_depth_restrict.
  by eapply result_depth_Ok; [apply text_query_depth|exact Hq].
Qed.
Lemma function_query_depth key val o kind : result_depth 2 (function_query key val o kind).
Proof.
  unfold function_query.
  assert (Hterm : ∀ t : result (Term B Query), (∀ t', t = Ok t' → query_depth (QTerm t') = 0) →
    result_depth 2 (t' ← t; Ok (restrict_type (QTerm t') kind))).
  { intros [t|] Ht; [|done]. specialize (Ht t eq_refl). simpl.
    pose proof (restrict_type_depth (QTerm t) kind). lia. }
  assert (Hnumber : ∀ f v d, result_depth 2 (t ← (n ← number_term f v d (now o); Ok (TNumeric n));
    Ok (restrict_type (QTerm t) kind))).
  { intros f v d. apply Hterm. intros t'. destruct (number_term _ _ _ _); [|done]. by intros [= <-]. }
  assert (Hmap : ∀ A (f : A → result Query) l qs mk, (∀ x, result_depth 0 (f x)) →
    mk = QOr ∨ mk = QAnd → result_map f l = Ok qs → result_depth 2 (Ok (restrict_type (mk qs) kind))).
  { intros A f l qs mk Hf Hmk Hqs. apply result_depth_restrict.
    apply result_map_depth in Hqs; [|done]. unfold queries_depth in Hqs.
    destruct Hmk as [-> | ->]; simpl; lia. }
  assert (Htype : result_depth 2 (t ← type_term val; Ok (restrict_type (QTerm t) kind))).
  { apply Hterm. intros t'. unfold type_term. repeat case_match; by intros [= <-]. }
  assert (Hattr : ∀ c, result_depth 0 (attribute c)).
  { intros c. unfold attribute. repeat case_match; simpl; lia || done. }
  destruct (is_any (keyword key) ["ext"; "extension"]).
  { destruct (negb (sensitive o) && negb (diacritics o)).
    - apply Hterm. by intros t' [= <-].
    - apply result_depth_bind. intros queries Hq. eapply Hmap; [|by left|exact Hq].
      intros v. apply text_query_depth. }
  destruct (is_lit (keyword key) "type"); [apply Htype|].
  do 2 (destruct (is_lit (keyword key) _ && _); [apply Hterm; by intros t' [= <-]|]).
  destruct (is_lit (keyword key) _ && _); [apply Hnumber|].
  destruct (is_lit (keyword key) "size"); [apply Hnumber|].
  destruct (numeric_property _ || _); [apply Hnumber|].
  do 2 (destruct (is_any (keyword key) _); [apply Hnumber|]).
  destruct (is_any (keyword key) _).
  { apply result_depth_bind. intros terms Ht. case_match; [done|]. eapply Hmap; [exact Hattr|by right|exact Ht]. }
  destruct (is_lit (keyword key) "flags"); [|done].
  apply result_depth_bind. intros mask _. apply Hterm. by intros t' [= <-].
Qed.
Lemma atom_prefix_depth fuel original lf s o kind r :
  atom_prefix (B := B) fuel original lf s o kind = Return r → result_depth 3 r.
Proof.
  revert s o kind. induction fuel as [|fuel IH]; intros s o kind; [done|]. cbn [atom_prefix].
  destruct (in_literal original s lf); [done|].
  destruct (split_once (lit ":") s) as [[key val]|]; [|done].
  destruct (relation_kind (keyword key)) as [[recursive rk]|].
  - intros [= <-]. apply result_depth_bind. intros q Hq. apply result_depth_restrict. simpl.
    pose proof (restrict_type_depth q rk).
    apply (result_depth_Ok 0) in Hq; [lia|apply text_query_depth].
  - destruct (modifier o key); [apply IH|].
    repeat (case_match; [done || apply IH|]). done.
Qed.
Lemma atom_depth s o lf : result_depth 3 (atom_with_options (B := B) s o lf).
Proof.
  unfold atom_with_options.
  assert (Hle : ∀ n r, n ≤ 3 → result_depth n r → result_depth 3 r).
  { intros n [q|e]; simpl; [lia|done]. }
  destruct (atom_prefix _ _ _ _ _ _) as [r|s' o' kind] eqn:Hp; [by eapply atom_prefix_depth|].
  assert (result_depth 3 (match (if bool_decide (target o' = None) && negb (regex o') &&
      negb (in_literal s s' lf) then split_once (lit ":") s' else None) with
    | Some (key, val) => function_query key val o' kind
    | None => operand_query (B := B) s' o' kind end)).
  { match goal with |- result_depth _ (match ?e with _ => _ end) => destruct e as [[key val]|] end.
    - eapply Hle; [|apply function_query_depth]. lia.
    - eapply Hle; [|apply operand_query_depth]. lia. }
  destruct kind, s'; try done. simpl. lia.
Qed.
(** [depth] fits what is left of the nesting limit at level [nest]. *)
Definition fits (nest depth : nat) : Prop := nest < 128 ∧ depth ≤ 3 + 4 * (127 - nest).
Local Ltac depth := unfold queries_depth, fits in *; simpl in *; lia.
Lemma descend_depth fuel :
  (∀ o d nest ts rem, gives (λ q, fits nest (query_depth q)) (descend_unary fuel o d nest ts rem)) ∧
  (∀ o d nest ts rem, gives (λ qs, fits nest (queries_depth qs))
    (descend_disjunction fuel o d nest ts rem)) ∧
  (∀ o d nest ts rem, gives (λ qs, fits nest (pred (queries_depth qs)))
    (descend_expression fuel o d nest ts rem)).
Proof.
  induction fuel as [|fuel (IHu & IHd & IHe)]; [done|]. split_and!.
  - intros o d nest ts rem. cbn [descend_unary].
    destruct (Nat.leb_spec MAX_NESTING nest) as [|Hnest]; [done|]. unfold MAX_NESTING in Hnest.
    destruct (rem =? 0)%N; [done|]. cbv zeta.
    assert (Hgroup : ∀ o d ts is_dir related,
      gives (λ q, fits nest (query_depth q))
        (d_bind (descend_expression fuel o d (S nest) ts (rem - 1)) (close_group is_dir related))).
    { intros o' d' ts' is_dir related. eapply gives_bind; [apply IHe|].
      intros qs [|[] ts2] rem' Hqs; simpl; try done.
      destruct (finish_depth qs _ (le_n _)) as [_ Hfin].
      pose proof (wrap_group_depth is_dir related (finish_expression qs)). unfold fits in *. lia. }
    destruct ts as [|[s lf| | | | |] ts]; try done.
    + destruct (group_scope s lf ts o) as [[[o' is_dir] related]|]; [apply Hgroup|].
      destruct (macro_value s lf) as [value|].
      * case_match; [done|].
        destruct (default (Err "") (lex value)) as [[|t ts']|e]; [depth| |done].
        eapply gives_bind; [apply IHe|]. intros qs [|] rem' Hqs; simpl; [|done].
        destruct (finish_depth qs _ (le_n _)) as [_ Hfin]. unfold fits in *. lia.
      * pose proof (atom_depth s o lf) as Ha.
        destruct (atom_with_options s o lf); simpl in *; [|done]. depth.
    + eapply gives_bind; [apply IHu|]. intros q ts2 rem' Hq. depth.
  - intros o d nest ts rem. cbn [descend_disjunction]. eapply gives_bind; [apply IHu|].
    intros q ts2 rem' Hq. destruct ts2 as [|[] ts2]; try depth.
    eapply gives_bind; [apply IHd|]. intros qs ts3 rem3 Hqs. depth.
  - intros o d nest ts rem. cbn [descend_expression]. eapply gives_bind; [apply IHd|].
    intros qs ts2 rem' Hqs. destruct (finish_depth qs _ (le_n _)) as [Hfin _].
    destruct ts2 as [|[] ts2]; try depth;
      (eapply gives_bind; [apply IHe|]; intros qs' ts3 rem3 Hqs'; depth).
Qed.
Lemma descend_query_depth ts o q : descend ts o = Some (Ok q) → query_depth q ≤ 513.
Proof.
  unfold descend. generalize descend_fuel as fuel. intros fuel.
  destruct (descend_depth fuel) as (_ & _ & He). specialize (He o 0 0 ts MAX_EXPRESSIONS).
  destruct (descend_expression fuel o 0 0 ts MAX_EXPRESSIONS) as [[[[qs [|t ts']] rem]|e]|];
    simpl in He; intros Hq; try done. injection Hq as <-. destruct (finish_depth qs _ (le_n _)) as [_ Hfin]. unfold fits in He. lia.
Qed.
End parser.

(** C11: A parsed query is shallow.  Whatever the input and the macros, parsing
    gives a result - it neither panics nor runs on - and a query it accepts
    nests at most 513 levels deep: the limit of 128 levels on groups, negations
    and macros bounds the recursion of everything that walks the tree. *)
Theorem parse_total_and_shallow `{Chrono, Unicode, Pcre, Memmem} {B} macros input now :
  ∃ r, parse_at (B := B) macros input now = Some r ∧
    match r with Ok q => query_depth q ≤ 513 | Err _ => True end.
Proof.
  unfold parse_at. destruct (lex_runs input) as [r ->]. cbn [mbind option_bind].
  destruct r as [ts|e]; [|by eexists].
  destruct (decide (ts = [])) as [->|Hts]; [eexists; split; [done|simpl; lia]|].
  destruct (machine_descends (B := B) macros ts (default_options now)) as (r & Hr & Hd).
  exists r. split; [destruct ts; [done|exact Hr]|].
  destruct r as [q|e]; [by apply (descend_query_depth (B := B) macros ts (default_options now))|done].
Qed.

Example or_binds_tighter :
  let name s := QTerm (B := unit) (TText Name (lit s) (lit s) false) in
  parse_at (H := utc_chrono) ∅ (lit "a b OR c !d (e AND f)") 0%Z =
    Some (Ok (QAnd [name "a"; QOr [name "b"; name "c"]; QNot (name "d");
                    QAnd [name "e"; name "f"]])).
Proof. reflexivity. Qed.
Example macros_are_groups :
  let name s := QTerm (B := unit) (TText Name (lit s) (lit s) false) in
  parse_at (H := utc_chrono) {[lit "m" := lit "a b"]} (lit "m: OR c") 0%Z =
    Some (Ok (QOr [QAnd [name "a"; name "b"]; name "c"])).
Proof. reflexivity. Qed.
Example cyclic_macro :
  parse_at (H := utc_chrono) (B := unit) {[lit "m" := lit "m:"]} (lit "m:") 0%Z =
    Some (Err "Macro expansion exceeds 16 levels (possible cycle)").
Proof. reflexivity. Qed.

(** ** Quoted text *)

Section quoted.
Context `{Chrono, Unicode, Pcre, Memmem} {B : Type}.

Lemma quoted_atom s o :
  atom_with_options (B := B) s o (Some 0) = operand_query s o None.
Proof.
  unfold atom_with_options. cbn [atom_prefix]. unfold in_literal.
  rewrite (proj2 (Nat.leb_le _ _)) by lia. by rewrite andb_false_r.
Qed.

(** C22: A quoted query is searched literally.  Whatever characters and
    keywords the text contains, and whatever macros are defined, typing it in
    quotation marks gives the plain operand of that text: no modifier, search
    function, relation, macro, group or operator in it is interpreted. *)
Theorem quoted_query_is_literal (macros : gmap text text) s now :
  (N.of_nat (byte_len (print [Atom s (Some 0%nat)])) ≤ MAX_QUERY_BYTES)%N →
  parse_at (B := B) macros (print [Atom s (Some 0)]) now =
    Some (operand_query s (default_options now) None).
Proof.
  intros Hlen. unfold parse_at, lex. rewrite (proj2 (N.ltb_ge _ _)) by done.
  rewrite (lex_print [Atom s (Some 0)] _ []); [|by repeat constructor| |done].
  2:{ unfold print. simpl. lia. }
  cbn [mbind option_bind app]. unfold parse_tokens. apply (run_mono macros 2).
  2:{ apply Nat.leb_le. vm_compute. reflexivity. }
  cbn [run]. unfold parse_step, operand_turn, parse_start, frame_new.
  cbn [frame expecting_operand tokens nesting negations remaining f_options macro_depth].
  change (MAX_NESTING <=? 0 + 0) with false. change (MAX_EXPRESSIONS =? 0)%N with false.
  cbv zeta. cbn iota. change (group_scope s (Some 0) [] (default_options now)) with
    (@None (MatchOptions * option bool * option bool)).
  change (macro_value macros s (Some 0)) with (@None text). cbn iota. rewrite quoted_atom.
  by destruct (operand_query s (default_options now) None).
Qed.
End quoted.
Lemma quoted_query_is_literal_witness :
  parse_at (H := utc_chrono) (B := unit) {[lit "m" := lit "x"]}
    (print [Atom (lit "regex:m: (a | !b)") (Some 0)]) 0%Z =
  Some (Ok (QTerm (TText Name (lit "regex:m: (a | !b)") (lit "regex:m: (a | !b)") false))).
Proof.
  rewrite (quoted_query_is_literal (H := utc_chrono) (B := unit)); [|vm_compute; done].
  reflexivity.
Defined.
