(* ===== verification/TextView.v ===== *)
(** * core/src/text_view.rs: text split in two borrowed regions

    A path is stored as a shared directory prefix and a name; a [TextView]
    reads the two as one string without joining them.  This file proves that
    every comparison and search on a view is the one on the joined bytes. *)
From S2P Require Import Prelude Text NaturalOrder.

Record TextView := { v_prefix : bytes; v_suffix : bytes }.
Definition view_new (prefix suffix : bytes) : TextView :=
  {| v_prefix := prefix; v_suffix := suffix |}.
Definition view_len (v : TextView) : nat := length (v_prefix v) + length (v_suffix v).
(** [bytes], [write_to], [fmt]: the regions in order. *)
Definition view_bytes (v : TextView) : bytes := v_prefix v ++ v_suffix v.
Definition view_of (value : bytes) : TextView := view_new [] value.
(** The same view of a text's characters, in UTF-8. *)
Definition view_utf8 (v : TextView) : TextView := view_new (utf8 (v_prefix v)) (utf8 (v_suffix v)).

(** query_scratch.rs, [TextScratch::assign]: the reused buffer is cleared
    first. [with_scratch] gives the result and the buffer it leaves. *)
Definition assign (v : TextView) (scratch : bytes) : bytes :=
  let cleared := take 0 scratch in (cleared ++ v_prefix v) ++ v_suffix v.
Definition with_scratch {R} (v : TextView) (scratch : bytes) (work : bytes → R) : R * bytes :=
  if bool_decide (v_prefix v = []) then (work (v_suffix v), scratch)
  else if bool_decide (v_suffix v = []) then (work (v_prefix v), scratch)
  else let scratch := assign v scratch in (work scratch, scratch).

(** ** Searching *)

Fixpoint rposition (c : N) (l : bytes) : option nat :=
  match l with
  | [] => None
  | a :: l =>
    match rposition c l with
    | Some i => Some (S i)
    | None => if (a =? c)%N then Some 0 else None
    end
  end.
Definition ends_with (p t : bytes) : bool := starts_with (reverse p) (reverse t).
Definition crosses_boundary `{Memmem} (v : TextView) (finder : Finder) : bool :=
  let needle := finder_needle finder in
  let overlap := length needle - 1 in
  if (overlap =? 0) || bool_decide (v_prefix v = []) || bool_decide (v_suffix v = []) then false
  else if ends_with_char 47 (v_prefix v) && negb (contains_char 47 (v_suffix v)) then
    match rposition 47 needle with
    | None => false
    | Some separator =>
      let split := separator + 1 in
      (split <? length needle) && ends_with (take split needle) (v_prefix v) &&
      starts_with (drop split needle) (v_suffix v)
    end
  else
    let scratch := drop (length (v_prefix v) - overlap) (v_prefix v) ++
                   take (length (v_suffix v) `min` overlap) (v_suffix v) in
    finds finder scratch.
Definition contains `{Memmem} (v : TextView) (finder : Finder) : bool :=
  finds finder (v_prefix v) || finds finder (v_suffix v) || crosses_boundary v finder.

(** ** Comparing *)

(** The peekable iterators are the bytes still to come; the counts and the
    digits are read on clones. *)
Fixpoint take_digits (l : bytes) : bytes :=
  match l with
  | c :: l => if is_ascii_digit c then c :: take_digits l else []
  | [] => []
  end.
Fixpoint peek_loop (fuel : nat) (left right : bytes) : comparison :=
  match fuel with
  | O => Eq
  | S fuel =>
    match left, right with
    | a :: left', b :: right' =>
      if is_ascii_digit a && is_ascii_digit b then
        let left := skip_zeros left in
        let right := skip_zeros right in
        let first := take_digits left in
        let second := take_digits right in
        match then_with (Nat.compare (length first) (length second)) (list_cmp N.compare first second) with
        | Eq => peek_loop fuel (drop (length first) left) (drop (length second) right)
        | order => order
        end
      else match N.compare a b with
           | Eq => peek_loop fuel left' right'
           | order => order
           end
    | [], [] => Eq
    | [], _ :: _ => Lt
    | _ :: _, [] => Gt
    end
  end.
Definition view_natural_cmp (v w : TextView) : comparison :=
  if bool_decide (v_prefix v = v_prefix w) &&
     match last (v_prefix v) with Some c => negb (is_ascii_digit c) | None => true end
  then natural_cmp_folded (v_suffix v) (v_suffix w)
  else peek_loop (S (view_len v)) (view_bytes v) (view_bytes w).

(** [while a < 2 && left[a].is_empty()] *)
Fixpoint skip_empty (spans : list bytes) : list bytes :=
  match spans with
  | [] :: spans => skip_empty spans
  | _ => spans
  end.
(** Each turn finishes a span, so one more than the number of spans is enough
    fuel ([cmp_loop_spec]). *)
Fixpoint cmp_loop (fuel : nat) (left right : list bytes) : comparison :=
  match fuel with
  | O => Eq
  | S fuel =>
    match skip_empty left, skip_empty right with
    | [], [] => Eq
    | [], _ => Lt
    | _, [] => Gt
    | x :: left', y :: right' =>
      let length_ := length x `min` length y in
      match list_cmp N.compare (take length_ x) (take length_ y) with
      | Eq => cmp_loop fuel (drop length_ x :: left') (drop length_ y :: right')
      | order => order
      end
    end
  end.
Definition view_cmp (v w : TextView) : comparison :=
  if bool_decide (v_prefix v = v_prefix w) then list_cmp N.compare (v_suffix v) (v_suffix w)
  else cmp_loop 5 [v_prefix v; v_suffix v] [v_prefix w; v_suffix w].
Definition view_eq (v w : TextView) : bool :=
  (view_len v =? view_len w) && is_eq (view_cmp v w).
(** [PartialEq<&str>] *)
Definition view_eq_str (v : TextView) (other : bytes) : bool :=
  (view_len v =? length other) && starts_with (v_prefix v) other &&
  bool_decide (drop (length (v_prefix v)) other = v_suffix v).
(** What [Hash] feeds the hasher. *)
Definition view_hash (v : TextView) : bytes := view_bytes v ++ [255%N].

(** ** Searching a view is searching its bytes *)

Lemma rposition_spec c l i :
  rposition c l = Some i → ∃ a b, l = a ++ c :: b ∧ length a = i ∧ c ∉ b.
Proof.
  revert i. induction l as [|x l IH]; intros i; simpl; [done|].
  destruct (rposition c l) as [j|] eqn:E.
  - intros [= <-]. destruct (IH j eq_refl) as (a & b & -> & <- & Hb). by exists (x :: a), b.
  - destruct (N.eqb_spec x c) as [->|]; [|done]. intros [= <-]. exists [], l. split_and!; [done..|].
    clear IH. induction l as [|y l IH]; [by intros ?%not_elem_of_nil|]. simpl in E.
    destruct (rposition c l); [done|]. destruct (N.eqb_spec y c); [done|].
    rewrite elem_of_cons. intros [|]; [done|]. by apply IH.
Qed.
Lemma rposition_app c a b : c ∉ b → rposition c (a ++ c :: b) = Some (length a).
Proof.
  intros Hb. induction a as [|x a IH]; simpl; [|by rewrite IH].
  assert (rposition c b = None) as ->.
  { induction b as [|y b IH]; [done|]. rewrite elem_of_cons in Hb. simpl.
    rewrite IH by tauto. by destruct (N.eqb_spec y c); [naive_solver|]. }
  by rewrite N.eqb_refl.
Qed.
Lemma starts_with_iff p t : starts_with p t = true ↔ ∃ r, t = p ++ r.
Proof. apply strip_prefix_dec. Qed.
Lemma ends_with_iff p t : ends_with p t = true ↔ ∃ r, t = r ++ p.
Proof.
  unfold ends_with. rewrite starts_with_iff. split; intros [r Hr].
  - exists (reverse r). apply (f_equal reverse) in Hr.
    rewrite reverse_involutive, reverse_app, reverse_involutive in Hr. done.
  - exists (reverse r). by rewrite Hr, reverse_app.
Qed.
Lemma contains_char_iff c t : contains_char c t = true ↔ c ∈ t.
Proof.
  unfold contains_char. rewrite existsb_exists. setoid_rewrite N.eqb_eq.
  setoid_rewrite <-list_elem_of_In. naive_solver.
Qed.
Lemma ends_with_char_iff c t : ends_with_char c t = true ↔ ∃ r, t = r ++ [c].
Proof.
  unfold ends_with_char. destruct t as [|d t _] using rev_ind; simpl.
  - split; [done|]. by intros ([|] & ?).
  - rewrite last_snoc, N.eqb_eq. split; [intros ->; eauto|].
    intros (r & [_ ->]%app_inj_tail). done.
Qed.

(** An occurrence that has bytes in both regions. *)
Definition straddles (v : TextView) (needle : bytes) : Prop :=
  ∃ x a b y, v_prefix v = x ++ a ∧ v_suffix v = b ++ y ∧ needle = a ++ b ∧ a ≠ [] ∧ b ≠ [].

Lemma crosses_boundary_spec `{MemmemLaws} v finder :
  let needle := finder_needle finder in
  (crosses_boundary v finder = true → found needle (view_bytes v) = true) ∧
  (straddles v needle → crosses_boundary v finder = true).
Proof.
  unfold crosses_boundary. rewrite finds_found. generalize (finder_needle finder) as needle.
  intros needle. destruct v as [p s]. unfold view_bytes, straddles. simpl.
  destruct (Nat.eqb_spec (length needle - 1) 0) as [Hov|Hov]; simpl.
  { split; [done|]. intros (x & a & b & y & _ & _ & -> & Ha & Hb). exfalso.
    destruct a, b; try done. simpl in Hov. rewrite length_app in Hov. simpl in Hov. lia. }
  destruct (bool_decide_reflect (p = [])) as [->|Hp]; simpl.
  { split; [done|]. intros (x & a & b & y & Hx & _ & _ & Ha & _).
    symmetry in Hx. by apply app_nil in Hx as [_ ->]. }
  destruct (bool_decide_reflect (s = [])) as [->|Hs].
  { split; [done|]. intros (x & a & b & y & _ & Hy & _ & _ & Hb).
    symmetry in Hy. by apply app_nil in Hy as [-> _]. }
  destruct (ends_with_char 47 p && negb (contains_char 47 s)) eqn:Hcut.
  - apply andb_true_iff in Hcut as [Hend Hno].
    apply ends_with_char_iff in Hend as [p' ->].
    assert (Hns : 47%N ∉ s) by (rewrite <-contains_char_iff; by destruct (contains_char 47 s)).
    split.
    + destruct (rposition 47 needle) as [i|] eqn:Hr; [|done].
      rewrite !andb_true_iff, ends_with_iff, starts_with_iff. intros [[_ [r Hp']] [r' Hs']].
      apply found_spec. exists r, r'. rewrite Hp', Hs'.
      rewrite <-(take_drop (i + 1) needle) at 3. by rewrite <-!app_assoc.
    + intros (x & a & b & y & Hx & Hy & -> & Ha & Hb).
      destruct a as [|c a _] using rev_ind; [done|].
      rewrite app_assoc in Hx. apply app_inj_tail in Hx as [Hx <-].
      assert (47%N ∉ b) by (rewrite Hy in Hns; set_solver).
      rewrite <-app_assoc. simpl. rewrite rposition_app by done.
      assert (length a + 1 = length (a ++ [47%N])) as -> by by rewrite length_app.
      rewrite !andb_true_iff, ends_with_iff, starts_with_iff.
      replace (a ++ 47%N :: b) with ((a ++ [47%N]) ++ b) by by rewrite <-app_assoc.
      rewrite take_app_length, drop_app_length. split_and!.
      * apply Nat.ltb_lt. rewrite (length_app (_ ++ _)). destruct b; [done|simpl; lia].
      * exists x. by rewrite Hx, app_assoc.
      * by exists y.
  - rewrite !found_spec. split.
    + intros (x & y & Hxy).
      exists (take (length p - (length needle - 1)) p ++ x),
        (y ++ drop (length s `min` (length needle - 1)) s).
      rewrite <-(take_drop (length p - (length needle - 1)) p) at 1.
      rewrite <-(take_drop (length s `min` (length needle - 1)) s) at 1.
      rewrite <-!app_assoc. f_equal. rewrite !app_assoc. f_equal. by rewrite Hxy, !app_assoc.
    + intros (x & a & b & y & -> & -> & -> & Ha & Hb).
      assert (0 < length a) by (destruct a; [done|simpl; lia]).
      assert (0 < length b) by (destruct b; [done|simpl; lia]).
      rewrite !length_app.
      exists (drop (length x + length a - (length a + length b - 1)) x),
        (take (((length b + length y) `min` (length a + length b - 1)) - length b) y).
      rewrite drop_app, take_app.
      replace (length x + length a - (length a + length b - 1) - length x) with 0 by lia.
      rewrite drop_0, (take_ge b) by lia. by rewrite <-!app_assoc.
Qed.
(** An occurrence in the joined bytes is in one region or straddles them. *)
Lemma occurrence_cases v needle :
  found needle (view_bytes v) = true →
  found needle (v_prefix v) = true ∨ found needle (v_suffix v) = true ∨ straddles v needle.
Proof.
  unfold view_bytes, straddles. rewrite !found_spec. destruct v as [p s]; simpl.
  intros (x & y & Hxy). apply app_eq_app in Hxy as (m & [[-> Hm]|[-> Hm]]).
  - apply app_eq_app in Hm as (m' & [[-> ->]|[-> ->]]).
    + destruct m as [|c m]; [right; left; by exists [], y|].
      destruct m' as [|c' m']; [left; exists x, []; by rewrite !app_nil_r|].
      right; right. by exists x, (c :: m), (c' :: m'), y.
    + left. by exists x, m'.
  - right; left. by exists m, y.
Qed.
Lemma contains_bytes `{MemmemLaws} v finder :
  contains v finder = found (finder_needle finder) (view_bytes v).
Proof.
  destruct (crosses_boundary_spec v finder) as [Hsound Hcomplete].
  apply eq_true_iff_eq. unfold contains. rewrite !finds_found. rewrite !orb_true_iff. split.
  - intros [[Hf|Hf]|Hf]; [| |by apply Hsound]; apply found_spec in Hf as (x & y & Hf);
      apply found_spec; unfold view_bytes; rewrite Hf.
    + exists x, (y ++ v_suffix v). by rewrite <-!app_assoc.
    + exists (v_prefix v ++ x), y. by rewrite <-!app_assoc.
  - intros [|[|]]%occurrence_cases; auto.
Qed.

(** ** Comparing views is comparing their bytes *)

Lemma list_cmp_app_eq {A} (f : A → A → comparison) `{!TotalPreorder f} p a b :
  list_cmp f (p ++ a) (p ++ b) = list_cmp f a b.
Proof. induction p as [|x p IH]; [done|]. simpl. by rewrite (compare_refl f), IH. Qed.
Lemma list_cmp_eq_app a b c d :
  length a = length b → list_cmp N.compare a b ≠ Eq →
  list_cmp N.compare (a ++ c) (b ++ d) = list_cmp N.compare a b.
Proof.
  revert b. induction a as [|x a IH]; intros [|y b] Hl Hne; simpl in *; try done.
  destruct (x ?= y)%N; simpl in *; [|done..]. apply IH; [lia|done].
Qed.
Lemma skip_empty_concat spans : concat (skip_empty spans) = concat spans.
Proof. by induction spans as [|[|c span] spans IH]. Qed.
Lemma skip_empty_shape spans :
  length (skip_empty spans) ≤ length spans ∧
  match skip_empty spans with [] => True | span :: _ => span ≠ [] end.
Proof.
  induction spans as [|[|c span] spans IH]; simpl; [done| |split; [lia|done]].
  destruct IH. split; [lia|done].
Qed.
(** Spans that are not empty themselves; a turn finishes at least one. *)
Definition weight (spans : list bytes) : nat := length (skip_empty spans).
Lemma weight_cons span spans : weight (span :: spans) ≤ S (length spans).
Proof. unfold weight. destruct (skip_empty_shape (span :: spans)) as [H _]. exact H. Qed.
Lemma weight_nil spans : weight ([] :: spans) ≤ length spans.
Proof. unfold weight. simpl. apply skip_empty_shape. Qed.
Lemma cmp_loop_spec fuel left right :
  weight left + weight right < fuel →
  cmp_loop fuel left right = list_cmp N.compare (concat left) (concat right).
Proof.
  revert left right. induction fuel as [|fuel IH]; intros left right Hf; [lia|].
  cbn [cmp_loop]. unfold weight in Hf.
  rewrite <-(skip_empty_concat left), <-(skip_empty_concat right).
  destruct (skip_empty_shape left) as [_ Hl], (skip_empty_shape right) as [_ Hr].
  destruct (skip_empty left) as [|x ls], (skip_empty right) as [|y rs]; [done|..].
  { simpl. by destruct y. }
  { simpl. by destruct x. }
  cbv zeta. set (n := length x `min` length y). simpl concat.
  rewrite <-(take_drop n x) at 3. rewrite <-(take_drop n y) at 3. rewrite <-!app_assoc.
  assert (Hlen : length (take n x) = length (take n y)) by (rewrite !length_take; lia).
  destruct (list_cmp N.compare (take n x) (take n y)) eqn:Hc;
    [|rewrite list_cmp_eq_app; by rewrite ?Hc..].
  apply (compare_eq_eq (list_cmp N.compare)) in Hc. rewrite Hc, list_cmp_app_eq by apply _.
  rewrite IH; [done|]. simpl in Hf.
  assert (drop n x = [] ∨ drop n y = []) as [E|E].
  { destruct (decide (length x ≤ length y)); [left|right]; apply drop_ge; lia. }
  - rewrite E. pose proof (weight_nil ls). pose proof (weight_cons (drop n y) rs). unfold bytes in *. lia.
  - rewrite E. pose proof (weight_nil rs). pose proof (weight_cons (drop n x) ls). unfold bytes in *. lia.
Qed.
Lemma view_cmp_bytes v w : view_cmp v w = list_cmp N.compare (view_bytes v) (view_bytes w).
Proof.
  unfold view_cmp, view_bytes. case_bool_decide as Hp.
  - rewrite Hp. by rewrite list_cmp_app_eq by apply _.
  - rewrite cmp_loop_spec; [by simpl; rewrite !app_nil_r|].
    pose proof (weight_cons (v_prefix v) [v_suffix v]).
    pose proof (weight_cons (v_prefix w) [v_suffix w]). simpl in *. lia.
Qed.
Lemma list_cmp_N_eq a b : list_cmp N.compare a b = Eq ↔ a = b.
Proof.
  split; [apply (compare_eq_eq (list_cmp N.compare))|]. intros ->. apply (compare_refl _).
Qed.

(** The natural order reads the same iterator as the byte loop. *)
Lemma take_digits_run l : (take_digits l, drop (length (take_digits l)) l) = digit_run l.
Proof.
  induction l as [|c l IH]; [done|]. simpl. destruct (is_ascii_digit c); [|done].
  simpl. by rewrite <-IH.
Qed.
Lemma peek_loop_natural fuel a b : length a < fuel → peek_loop fuel a b = natural_cmp_folded a b.
Proof.
  intros Hf. unfold natural_cmp_folded.
  assert (Hgen : ∀ g, length a ≤ g → peek_loop fuel a b = natural_loop g a b); [|by apply Hgen].
  revert a b Hf. induction fuel as [|fuel IH]; intros a b Hf g Hg; [lia|].
  destruct a as [|x a]; [destruct g, b; done|]. destruct g as [|g]; [simpl in Hg; lia|].
  destruct b as [|y b]; [done|]. cbn [peek_loop natural_loop]. simpl in Hf, Hg.
  destruct (is_ascii_digit x) eqn:Hx; cbn [andb].
  2:{ destruct (x ?= y)%N; [|done..]. apply IH; lia. }
  destruct (is_ascii_digit y) eqn:Hy; cbn [andb].
  2:{ destruct (x ?= y)%N; [|done..]. apply IH; lia. }
  pose proof (take_digits_run (skip_zeros (x :: a))) as Ha.
  pose proof (take_digits_run (skip_zeros (y :: b))) as Hb.
  rewrite <-Ha, <-Hb. cbv zeta.
  assert (Hle : length (drop (length (take_digits (skip_zeros (x :: a)))) (skip_zeros (x :: a))) ≤ length a).
  { destruct (digit_run_skip (x :: a)) as (Hr & _ & _). rewrite <-Ha in Hr. cbn [snd] in Hr.
    rewrite Hr. pose proof (digit_run_app a) as Happ. simpl. rewrite Hx.
    destruct (digit_run a) as [run rest]. destruct Happ as (-> & _). simpl. rewrite length_app. lia. }
  destruct (then_with _ _); [|done..]. apply IH; lia.
Qed.
Lemma natural_key_fuel_enough f g l : length l ≤ f → length l ≤ g → natural_key_fuel f l = natural_key_fuel g l.
Proof.
  revert g l. induction f as [|f IH]; intros g [|c l] Hf Hg; simpl in Hf, Hg; try lia; [by destruct g..|].
  destruct g as [|g]; [lia|]. cbn [natural_key_fuel]. destruct (is_ascii_digit c) eqn:Hc.
  - pose proof (digit_run_app (c :: l)) as Happ. simpl in *. rewrite Hc in *.
    destruct (digit_run l) as [run rest]. destruct Happ as ([= ->] & _). f_equal.
    rewrite length_app in *. apply IH; lia.
  - f_equal. apply IH; lia.
Qed.
(** A shared prefix that does not end in a digit cuts no digit run. *)
Definition no_digit_end (p : bytes) : Prop := ∀ c, last p = Some c → is_ascii_digit c = false.
Lemma no_digit_end_tail c p : p ≠ [] → no_digit_end (c :: p) → no_digit_end p.
Proof. intros Hp Hn d Hd. apply Hn. by destruct p. Qed.
Lemma digit_run_cut p a :
  p ≠ [] → no_digit_end p →
  digit_run (p ++ a) = ((digit_run p).1, (digit_run p).2 ++ a) ∧ no_digit_end (digit_run p).2.
Proof.
  induction p as [|c p IH]; intros Hp Hn; [done|]. simpl.
  destruct (is_ascii_digit c) eqn:Hc; [|by split].
  destruct p as [|d p]; [specialize (Hn c eq_refl); congruence|].
  destruct IH as [-> Hn']; [done|by apply (no_digit_end_tail c)|].
  by destruct (digit_run (d :: p)).
Qed.
Lemma natural_key_app p a : no_digit_end p → natural_key (p ++ a) = natural_key p ++ natural_key a.
Proof.
  unfold natural_key. intros Hn. remember (length p) as n eqn:Hlen.
  assert (length p ≤ n) as Hle by lia. clear Hlen.
  rewrite (natural_key_fuel_enough _ (n + length a) (p ++ a)) by (rewrite ?length_app; lia).
  revert p Hn Hle. induction n as [|n IH]; intros [|c p] Hn Hle; simpl in Hle; try lia; [done|..].
  { cbn [app]. rewrite (natural_key_fuel_enough (S n + length a) (length a)) by lia. done. }
  simpl app. cbn [Nat.add natural_key_fuel]. destruct (is_ascii_digit c) eqn:Hc.
  - destruct (digit_run_cut (c :: p) a ltac:(done) Hn) as [Hrun Hn']. simpl app in Hrun. rewrite Hrun.
    pose proof (digit_run_app (c :: p)) as Happ. simpl in Happ, Hn'. simpl. rewrite Hc in *.
    destruct (digit_run p) as [run rest]. simpl in *. destruct Happ as ([= ->] & _).
    f_equal. rewrite length_app in Hle. apply IH; [done|lia].
  - simpl. f_equal. destruct p as [|d p].
    + simpl. rewrite (natural_key_fuel_enough (n + length a) (length a)) by lia. by destruct n.
    + apply IH; [by apply (no_digit_end_tail c)|lia].
Qed.
Lemma view_natural_cmp_bytes v w :
  view_natural_cmp v w = natural_cmp_folded (view_bytes v) (view_bytes w).
Proof.
  unfold view_natural_cmp.
  destruct (bool_decide_reflect (v_prefix v = v_prefix w)) as [Hp|]; cbn [andb].
  2:{ apply peek_loop_natural. unfold view_len, view_bytes. rewrite length_app. lia. }
  destruct (match last (v_prefix v) with Some c => _ | None => true end) eqn:Hd.
  2:{ apply peek_loop_natural. unfold view_len, view_bytes. rewrite length_app. lia. }
  assert (no_digit_end (v_prefix v)) as Hn.
  { intros c Hc. rewrite Hc in Hd. by destruct (is_ascii_digit c). }
  unfold view_bytes. rewrite <-Hp, !natural_cmp_folded_key, !natural_key_app by done.
  unfold key_cmp. by rewrite list_cmp_app_eq by apply _.
Qed.
Lemma starts_with_prefix_length p t : starts_with p t = true → t = p ++ drop (length p) t.
Proof. rewrite starts_with_iff. intros [r ->]. by rewrite drop_app_length. Qed.
Lemma view_eq_bytes v w : view_eq v w = true ↔ view_bytes v = view_bytes w.
Proof.
  unfold view_eq. rewrite andb_true_iff, Nat.eqb_eq, view_cmp_bytes.
  assert (∀ c, is_eq c = true ↔ c = Eq) as -> by by intros [].
  rewrite list_cmp_N_eq. split; [by intros [_ ?]|]. intros E. split; [|done].
  apply (f_equal length) in E. unfold view_bytes in E. rewrite !length_app in E. exact E.
Qed.
Lemma view_eq_str_bytes v other : view_eq_str v other = true ↔ view_bytes v = other.
Proof.
  unfold view_eq_str, view_bytes, view_len.
  rewrite !andb_true_iff, Nat.eqb_eq, starts_with_iff, bool_decide_eq_true. split.
  - intros [[_ [r ->]] Hs]. rewrite drop_app_length in Hs. by rewrite Hs.
  - intros <-. rewrite length_app, drop_app_length. eauto.
Qed.

(** C32: A split text behaves as the joined text.  However the bytes are divided
    between prefix and suffix, substring search (with its shortcut at a
    directory separator and its bounded window at the join), byte order (with
    its span loop), natural order (with its shared-prefix shortcut and its
    peeking loop), both equalities and the hash are those of the joined
    bytes; reading through a reused buffer ignores what the buffer held. *)
Theorem view_is_joined_text `{MemmemLaws} {R} v w finder other scratch (work : bytes → R) :
  contains v finder = found (finder_needle finder) (view_bytes v) ∧
  view_cmp v w = list_cmp N.compare (view_bytes v) (view_bytes w) ∧
  view_natural_cmp v w = natural_cmp_folded (view_bytes v) (view_bytes w) ∧
  (view_eq v w = true ↔ view_bytes v = view_bytes w) ∧
  (view_eq_str v other = true ↔ view_bytes v = other) ∧
  (view_hash v = view_hash w ↔ view_bytes v = view_bytes w) ∧
  (with_scratch v scratch work).1 = work (view_bytes v).
Proof.
  split_and!.
  - apply contains_bytes.
  - apply view_cmp_bytes.
  - apply view_natural_cmp_bytes.
  - apply view_eq_bytes.
  - apply view_eq_str_bytes.
  - unfold view_hash. split; [by intros [? _]%app_inj_tail|by intros ->].
  - unfold with_scratch, view_bytes. case_bool_decide as Hp; [by rewrite Hp|].
    case_bool_decide as Hs; [by rewrite Hs, app_nil_r|]. done.
Qed.
Lemma view_is_joined_text_witness :
  let v := view_new (lit "/usr/") (lit "lib") in
  contains v (finder_new (lit "r/li")) = true ∧ view_natural_cmp v (view_new (lit "/us") (lit "r/lib")) = Eq.
Proof.
  intros v.
  destruct (view_is_joined_text v (view_new (lit "/us") (lit "r/lib")) (finder_new (lit "r/li")) [] []
    (λ b, b)) as (Hc & _ & Hn & _).
  rewrite Hc, Hn. split; vm_compute; reflexivity.
Defined.
