(* ===== verification/FileEntry.v ===== *)
(** * core/src/entry_table.rs, [FileEntry]: what a query reads of a file

    The trait is a class over the type of entries.  [IndexedFile] is the owned
    record that implements it.  JSON values are serde_json's, a parameter. *)
From S2P Require Import Prelude Text TextView Float QueryLex QueryNumber QuerySyntax.

(** serde_json, as used on properties and requests. *)
Class Json := {
  Value : Type;
  json_get : Value → text → option Value;
  as_f64 : Value → option f64;
  as_str : Value → option text;
  as_bool : Value → option bool;
  as_array : Value → option (list Value);
}.

Class FileEntry `{Json} (F : Type) := {
  id : F → Z;
  size : F → N;
  modified : F → Z;
  created : F → Z;
  changed : F → Z;
  modified_ns : F → Z;
  changed_ns : F → Z;
  file_id : F → N;
  parent_id : F → N;
  flags : F → N;
  path : F → TextView;
  name : F → text;
  folded_name : F → text;
  folded_path : F → TextView;
  search_name : F → text;
  search_path : F → TextView;
  parent : F → text;
  extension : F → text;
  folded_extension : F → text;
  volume_id : F → text;
  is_dir : F → bool;
  is_symlink : F → bool;
  content_indexed : F → bool;
  properties : F → Value;
}.
(** The trait's default method [text]. *)
Definition entry_text `{FileEntry F} (file : F) (field : Field) : TextView :=
  match field with
  | Name => view_of (name file)
  | Path => path file
  | Parent => view_of (parent file)
  end.

Record IndexedFile `{Json} := {
  i_id : Z; i_size : N; i_modified : Z; i_created : Z; i_changed : Z; i_modified_ns : Z;
  i_changed_ns : Z; i_file_id : N; i_parent_id : N; i_flags : N;
  i_path : text; i_name : text; i_folded_name : text; i_folded_path : text;
  i_search_name : text; i_search_path : text; i_parent : text; i_extension : text;
  i_folded_extension : text; i_volume_id : text;
  i_is_dir : bool; i_is_symlink : bool; i_content_indexed : bool; i_properties : Value;
}.
#[export] Instance indexed_file_entry `{Json} : FileEntry IndexedFile := {
  id := i_id; size := i_size; modified := i_modified; created := i_created;
  changed := i_changed; modified_ns := i_modified_ns; changed_ns := i_changed_ns;
  file_id := i_file_id; parent_id := i_parent_id; flags := i_flags;
  path f := view_of (i_path f); name := i_name; folded_name := i_folded_name;
  folded_path f := view_of (i_folded_path f); search_name := i_search_name;
  search_path f := view_of (i_search_path f); parent := i_parent; extension := i_extension;
  folded_extension := i_folded_extension; volume_id := i_volume_id; is_dir := i_is_dir;
  is_symlink := i_is_symlink; content_indexed := i_content_indexed; properties := i_properties;
}.
(** [to_owned_file]: a copy of any entry. *)
Definition to_owned_file `{FileEntry F} (file : F) : IndexedFile :=
  {| i_id := id file; i_size := size file; i_modified := modified file; i_created := created file;
     i_changed := changed file; i_modified_ns := modified_ns file; i_changed_ns := changed_ns file;
     i_file_id := file_id file; i_parent_id := parent_id file; i_flags := flags file;
     i_path := view_bytes (path file); i_name := name file; i_folded_name := folded_name file;
     i_folded_path := view_bytes (folded_path file); i_search_name := search_name file;
     i_search_path := view_bytes (search_path file); i_parent := parent file;
     i_extension := extension file; i_folded_extension := folded_extension file;
     i_volume_id := volume_id file; i_is_dir := is_dir file; i_is_symlink := is_symlink file;
     i_content_indexed := content_indexed file; i_properties := properties file |}.

(** A model of the interface: an object of text and number members. *)
#[warnings="-register-all"]
Inductive simple_json :=
| JObject (members : list (text * simple_json)) | JNumber (n : f64) | JText (t : text)
| JBool (b : bool) | JArray (l : list simple_json) | JNull.
Fixpoint member (members : list (text * simple_json)) (key : text) : option simple_json :=
  match members with
  | [] => None
  | (k, v) :: members => if bool_decide (k = key) then Some v else member members key
  end.
#[export] Instance simple_json_json : Json := {
  Value := simple_json;
  json_get v key := match v with JObject m => member m key | _ => None end;
  as_f64 v := match v with JNumber n => Some n | _ => None end;
  as_str v := match v with JText t => Some t | _ => None end;
  as_bool v := match v with JBool b => Some b | _ => None end;
  as_array v := match v with JArray l => Some l | _ => None end;
}.
