(* ===== verification/SlotSort.v ===== *)
(** * core/src/result_order.rs, [sort_slots] and [select_prefix]: cancellable sorting

    Both routines work in place and poll a cancellation flag between bounded
    amounts of work.  The buffers and the positions are explicit, indexing
    can fail, and [polled] gives the polls.  The comparator is a parameter
    (the callers compare rows of a snapshot), and so is the order in which
    [sort_unstable_by] leaves equal elements ([UnstableSort]). *)
From S2P Require Import Prelude.

Section slot_sort.
Context `{!UnstableSort} (compare : N → N → comparison).

Definition RUN : nat := 1024.

(** *** [sort_slots] *)

(** [for chunk in slots.chunks_mut(RUN)] *)
Definition sort_run (done : list N) (chunk : list N) : polled (list N) :=
  check_cancelled;;
  mret (done ++ sort_unstable_by compare chunk).

(** [right == end || (left < middle && compare(..) != Greater)] *)
Definition take_left (slots : list N) (middle end_ l r : nat) : polled bool :=
  if r =? end_ then mret true
  else if l <? middle then
    a ← p_some (slots !! l); b ← p_some (slots !! r); mret (negb (is_gt (compare a b)))
  else mret false.
(** One destination of a merge; the state is [left], [right] and [scratch]. *)
Definition merge_position (slots : list N) (start middle end_ : nat)
    (state : nat * nat * list N) (position : nat) : polled (nat * nat * list N) :=
  let '(l, r, scratch) := state in
  check_every RUN position;;
  from_left ← take_left slots middle end_ l r;
  if from_left : bool then
    x ← p_some (slots !! l);
    scratch ← p_some (set_index (start + position) x scratch);
    mret (S l, r, scratch)
  else
    x ← p_some (slots !! r);
    scratch ← p_some (set_index (start + position) x scratch);
    mret (l, S r, scratch).
Definition merge_pair (slots : list N) (width : nat) (scratch : list N) (start : nat) :
    polled (list N) :=
  let middle := min (start + width) (length slots) in
  let end_ := min (middle + width) (length slots) in
  state ← p_fold (merge_position slots start middle end_) (seq 0 (end_ - start))
            (start, middle, scratch);
  mret state.2.
Definition merge_pass (slots scratch : list N) (width : nat) : polled (list N) :=
  p_fold (merge_pair slots width) (step_by (length slots) (sat_mul width 2)) scratch.
(** [while width < slots.len()]: the width doubles, so as many turns as there
    are slots are enough ([merge_passes_spec]). *)
Fixpoint merge_passes (fuel : nat) (slots scratch : list N) (width : nat) : polled (list N) :=
  match fuel with
  | O => p_lift (Err panicked)
  | S fuel =>
    if width <? length slots then
      merged ← merge_pass slots scratch width;
      merge_passes fuel merged slots (sat_mul width 2)
    else mret slots
  end.
Definition sort_slots (slots : list N) : polled (list N) :=
  sorted ← p_fold sort_run (chunks RUN slots) [];
  if length sorted <=? RUN then mret sorted
  else merge_passes (length sorted) sorted (replicate (length sorted) 0%N) RUN.

(** *** [select_prefix] *)

Definition swap (l : list N) (i j : nat) : option (list N) :=
  x ← l !! i; y ← l !! j; Some (<[j := x]> (<[i := y]> l)).

(** [while current < greater]; each turn decreases [greater - current]. *)
Fixpoint partition_loop (fuel : nat) (pivot : N) (slots : list N)
    (less current greater comparisons : nat) : polled (list N * nat * nat) :=
  if current <? greater then
    match fuel with
    | O => p_lift (Err panicked)
    | S fuel =>
      check_every 1024 comparisons;;
      x ← p_some (slots !! current);
      match compare x pivot with
      | Lt =>
        slots ← p_some (swap slots less current);
        partition_loop fuel pivot slots (S less) (S current) greater (S comparisons)
      | Gt =>
        slots ← p_some (swap slots current (greater - 1));
        partition_loop fuel pivot slots less current (greater - 1) (S comparisons)
      | Eq => partition_loop fuel pivot slots less (S current) greater (S comparisons)
      end
    end
  else mret (slots, less, greater).

Definition choose_pivot (slots : list N) (low high : nat) : polled N :=
  a ← p_some (slots !! low);
  b ← p_some (slots !! (low + (high - low) / 2));
  c ← p_some (slots !! (high - 1));
  p_some (sort_unstable_by compare [a; b; c] !! 1).

(** [while high - low > 1024 && ..]: the depth budget decreases every turn. *)
Fixpoint narrow (budget : nat) (target : nat) (slots : list N) (low high : nat) :
    polled (list N * nat * nat) :=
  if (1024 <? high - low) && (low <=? target) && (target <? high) then
    check_cancelled;;
    match budget with
    | O =>
      remainder ← sort_slots (window slots low high);
      mret (take low slots ++ remainder ++ drop high slots, low, high)
    | S budget =>
      pivot ← choose_pivot slots low high;
      '(slots, less, greater) ← partition_loop (high - low) pivot slots low low high 0;
      if target <? less then narrow budget target slots low less
      else if greater <=? target then narrow budget target slots greater high
      else mret (slots, high, high)
    end
  else mret (slots, low, high).

Definition select_prefix (slots : list N) (end_ : nat) : polled (list N) :=
  let end_ := min end_ (length slots) in
  if end_ =? 0 then mret []
  else
    '(slots, low, high) ←
      narrow (Nat.log2 (length slots) * 2 + 1) (end_ - 1) slots 0 (length slots);
    let slots :=
      if low <? high then
        take low slots ++ sort_unstable_by compare (window slots low high) ++ drop high slots
      else slots in
    check_cancelled;;
    sort_slots (take end_ slots).

(** ** Sorting *)

Context `{!TotalPreorder compare}.
Notation sorted := (StronglySorted (cmp_le compare)).

Lemma list_merge_sorted a b :
  sorted a → sorted b → sorted (list_merge (cmp_le compare) a b).
Proof.
  intros. apply (Sorted_StronglySorted _), (Sorted_list_merge _); by apply StronglySorted_Sorted.
Qed.
(** Writing position [p], read as a list. *)
Lemma write_next {A} (s0 done : list A) start n x :
  n = length done → start + n < length s0 →
  set_index (start + n) x (take start s0 ++ done ++ drop (start + n) s0) =
    Some (take start s0 ++ (done ++ [x]) ++ drop (start + S n) s0).
Proof.
  intros -> Hlt. unfold set_index. rewrite decide_True
    by (rewrite !length_app, length_take, length_drop; lia).
  f_equal. rewrite (app_assoc (take _ _)), insert_app_r_alt, <-!app_assoc
    by (rewrite !length_app, length_take; lia).
  rewrite !length_app, length_take, Nat.min_l by lia.
  replace (start + length done - (start + length done)) with 0 by lia.
  destruct (drop _ _) as [|y rest] eqn:E.
  { apply (f_equal length) in E. rewrite length_drop in E. simpl in E. lia. }
  simpl. do 3 f_equal. apply (f_equal (drop 1)) in E. rewrite drop_drop in E.
  simpl in E. rewrite drop_0 in E. rewrite <-E. f_equal. lia.
Qed.

(** A merge in progress: what is written and what is left make the merge. *)
Definition merging (slots s0 : list N) (start middle end_ n : nat)
    (state : nat * nat * list N) : Prop :=
  let '(l, r, s) := state in
  ∃ done, length done = n ∧ s = take start s0 ++ done ++ drop (start + n) s0 ∧
    start ≤ l ≤ middle ∧ middle ≤ r ≤ end_ ∧ l + r = start + middle + n ∧
    list_merge (cmp_le compare) (window slots start middle) (window slots middle end_) =
    done ++ list_merge (cmp_le compare) (window slots l middle) (window slots r end_).

(** The choice is the one [list_merge] makes, ties to the left. *)
Lemma take_left_spec slots middle end_ l r :
  l ≤ middle → middle ≤ r ≤ end_ → end_ ≤ length slots → (l < middle ∨ r < end_) →
  ∃ b, cancels_to (take_left slots middle end_ l r) (Ok b) ∧
    let '(i, l', r') := if b : bool then (l, S l, r) else (r, l, S r) in
    l' ≤ middle ∧ r' ≤ end_ ∧ ∃ x, slots !! i = Some x ∧
      list_merge (cmp_le compare) (window slots l middle) (window slots r end_) =
      x :: list_merge (cmp_le compare) (window slots l' middle) (window slots r' end_).
Proof.
  intros Hl Hr Hend Hsome. unfold take_left. destruct (Nat.eqb_spec r end_) as [->|].
  { exists true. split; [apply cancels_ret|]. split_and!; [lia..|].
    destruct (window_cons slots l middle) as (x & Hx & ->); [lia..|]. exists x. split; [done|].
    by rewrite (window_nil _ end_), !list_merge_nil_r by done. }
  destruct (window_cons slots r end_) as (y & Hy & Ey); [lia..|]. rewrite Ey.
  destruct (Nat.ltb_spec l middle) as [Hlm|].
  - destruct (window_cons slots l middle) as (x & Hx & Ex); [lia..|]. rewrite Ex.
    exists (negb (is_gt (compare x y))). split.
    { eapply cancels_bind; [by apply cancels_some|]. eapply cancels_bind; [by apply cancels_some|].
      apply cancels_ret. }
    rewrite list_merge_cons. destruct (is_gt (compare x y)) eqn:E; simpl.
    + rewrite decide_False by (intros Hg%is_gt_false; congruence). rewrite <-Ex.
      split_and!; [lia..|by exists y].
    + rewrite decide_True by by apply is_gt_false. rewrite <-Ey. split_and!; [lia..|by exists x].
  - exists false. split; [apply cancels_ret|]. split_and!; [lia..|]. exists y. split; [done|].
    by rewrite (window_nil _ l), !list_merge_nil_l by lia.
Qed.

Lemma merge_position_spec slots s0 start middle end_ n state :
  start ≤ middle ≤ end_ → end_ ≤ length slots → length s0 = length slots → n < end_ - start →
  merging slots s0 start middle end_ n state →
  ∃ state', cancels_to (merge_position slots start middle end_ state n) (Ok state') ∧
            merging slots s0 start middle end_ (S n) state'.
Proof.
  destruct state as [[l r] s]. intros Hm Hend Hs0 Hn (done & Hd & -> & Hl & Hr & Hsum & Hmerge).
  destruct (take_left_spec slots middle end_ l r) as (b & Hb & Hnext); [lia..|].
  destruct b; destruct Hnext as (Hl' & Hr' & x & Hx & Heq); unfold merge_position;
    [exists (S l, r, take start s0 ++ (done ++ [x]) ++ drop (start + S n) s0)
    |exists (l, S r, take start s0 ++ (done ++ [x]) ++ drop (start + S n) s0)];
    (split;
      [eapply cancels_bind; [apply cancels_check_every|]; eapply cancels_bind; [exact Hb|];
       eapply cancels_bind; [by apply cancels_some|];
       eapply cancels_bind; [apply cancels_some, write_next; [done|lia]|apply cancels_ret]
      |exists (done ++ [x]); rewrite length_app, Hmerge, Heq; simpl;
       split_and!; try done; [lia..|by rewrite <-app_assoc]]).
Qed.

Lemma merge_pair_spec slots width s0 start :
  start < length slots → length s0 = length slots →
  let middle := min (start + width) (length slots) in
  let end_ := min (middle + width) (length slots) in
  cancels_to (merge_pair slots width s0 start)
    (Ok (take start s0 ++
         list_merge (cmp_le compare) (window slots start middle) (window slots middle end_) ++
         drop end_ s0)).
Proof.
  intros Hst Hs0 middle end_. assert (Hb : start ≤ middle ≤ end_ ∧ end_ ≤ length slots) by lia.
  unfold merge_pair. cbv zeta. fold middle end_. clearbody middle end_.
  destruct (cancels_fold_inv (merge_position slots start middle end_)
    (merging slots s0 start middle end_) (seq 0 (end_ - start)) (start, middle, s0))
    as ([[l r] s] & Hr & done & Hd & -> & Hl & Hr' & Hsum & ->).
  - exists []. rewrite Nat.add_0_r. simpl. rewrite take_drop. split_and!; done || lia.
  - intros i x st [-> Hi]%lookup_seq. apply merge_position_spec; lia.
  - rewrite length_seq in *.
    eapply cancels_bind; [exact Hr|]. simpl.
    rewrite (window_nil _ l), (window_nil _ r), list_merge_nil_l, app_nil_r by lia.
    replace (start + (end_ - start)) with end_ by lia. apply cancels_ret.
Qed.

(** The blocks of [width] slots are sorted. *)
Definition blocks_sorted (width : nat) (l : list N) : Prop :=
  ∀ k, sorted (window l (k * width) (k * width + width)).

Lemma window_prefix {A} (a b : list A) i j : j ≤ length a → window (a ++ b) i j = window a i j.
Proof.
  intros. unfold window. destruct (decide (i ≤ j)); [|by replace (j - i) with 0 by lia].
  rewrite drop_app_le, take_app_le by (rewrite ?length_drop; lia). done.
Qed.
Lemma window_clip {A} (l : list A) i j : window l i j = window l i (min j (length l)).
Proof.
  unfold window. destruct (decide (j ≤ length l)); [by rewrite Nat.min_l|].
  rewrite !take_ge by (rewrite length_drop; lia). done.
Qed.

(** [m] pairs of blocks are merged. *)
Definition merged (slots : list N) (width m : nat) (s : list N) : Prop :=
  length s = length slots ∧
  take (m * (2 * width)) s ≡ₚ take (m * (2 * width)) slots ∧
  ∀ k, k < m → sorted (window s (k * (2 * width)) (k * (2 * width) + 2 * width)).

Lemma merged_step slots width m s :
  m * (2 * width) < length slots → blocks_sorted width slots → merged slots width m s →
  ∃ s', cancels_to (merge_pair slots width s (m * (2 * width))) (Ok s') ∧
        merged slots width (S m) s'.
Proof.
  intros Hm Hsorted (Hlen & Hp & Hk). eexists. split; [by apply merge_pair_spec|].
  set (start := m * (2 * width)) in *. set (middle := min (start + width) (length slots)).
  set (end_ := min (middle + width) (length slots)).
  set (out := list_merge _ _ _).
  assert (Hout : out ≡ₚ window slots start end_).
  { subst out. rewrite merge_Permutation, (window_split _ start middle end_) by lia. done. }
  assert (Hol : length out = end_ - start) by (rewrite Hout; apply window_length; lia).
  assert (Hts : length (take start s) = start) by (rewrite length_take; lia).
  assert (Hend : end_ = min (S m * (2 * width)) (length slots)) by (subst end_ middle start; lia).
  assert (Htake : take (S m * (2 * width)) (take start s ++ out ++ drop end_ s) = take start s ++ out).
  { rewrite (app_assoc (take _ _)). destruct (decide (S m * (2 * width) ≤ length slots)).
    - rewrite take_app_le by (rewrite length_app; lia). apply take_ge. rewrite length_app; lia.
    - rewrite (drop_ge s), app_nil_r by lia. apply take_ge. rewrite length_app; lia. }
  split_and!.
  - rewrite !length_app, length_drop. lia.
  - rewrite Htake, Hp, Hout. unfold start. rewrite <-take_window by lia. rewrite Hend.
    destruct (decide (S m * (2 * width) ≤ length slots)); [by rewrite Nat.min_l|].
    rewrite Nat.min_r, firstn_all, take_ge by lia. done.
  - intros k Hkm. destruct (decide (k = m)) as [->|].
    + fold start. rewrite window_app by lia. rewrite Hts, Nat.sub_diag.
      replace (window (out ++ drop end_ s) 0 _) with out.
      * apply list_merge_sorted; [|].
        -- unfold middle. rewrite <-window_clip. replace start with ((2 * m) * width) by lia. apply Hsorted.
        -- unfold end_. rewrite <-window_clip. destruct (decide (start + width ≤ length slots)).
           ++ unfold middle. rewrite Nat.min_l by lia.
              replace (start + width) with ((2 * m + 1) * width) by lia. apply Hsorted.
           ++ unfold window. rewrite drop_ge by lia. rewrite take_nil. constructor.
      * unfold window. rewrite drop_0. destruct (decide (S m * (2 * width) ≤ length slots)).
        -- rewrite take_app_le by lia. by rewrite take_ge by lia.
        -- rewrite (drop_ge s), app_nil_r by lia. by rewrite take_ge by lia.
    + rewrite window_prefix by nia. rewrite <-(window_prefix _ (drop start s)) by nia.
      rewrite take_drop. apply Hk. lia.
Qed.

(** A [Vec<u32>] holds at most [isize::MAX] bytes, so no width saturates. *)
Definition fits (slots : list N) : Prop := (4 * N.of_nat (length slots) < 2 ^ 63)%N.
Lemma sat_mul_exact a b : (N.of_nat (a * b) ≤ usize_max)%N → sat_mul a b = a * b.
Proof. intros. unfold sat_mul. rewrite N.min_r by lia. lia. Qed.

Lemma merge_pass_spec slots s width :
  fits slots → 0 < width < length slots → length s = length slots → blocks_sorted width slots →
  ∃ s', cancels_to (merge_pass slots s width) (Ok s') ∧ s' ≡ₚ slots ∧ blocks_sorted (2 * width) s'.
Proof.
  intros Hf Hw Hlen Hs. unfold merge_pass.
  assert (Hsat : sat_mul width 2 = 2 * width).
  { rewrite sat_mul_exact; [lia|]. unfold fits in Hf. unfold usize_max, u64_max. lia. }
  rewrite Hsat. destruct (div_ceil_cover (length slots) (2 * width)) as [Hcover Hin]; [lia|].
  destruct (cancels_fold_inv (merge_pair slots width) (merged slots width)
    (step_by (length slots) (2 * width)) s) as (s' & Hs' & Hlen' & Hp & Hk).
  - split_and!; [done..|lia].
  - unfold step_by. intros i x b Hi Hm. apply list_lookup_fmap_Some in Hi as (k & -> & [-> Hk]%lookup_seq).
    apply merged_step; [by apply Hin|done..].
  - exists s'. split; [done|]. unfold step_by in *. rewrite length_fmap, length_seq in *. split.
    + rewrite !take_ge in Hp by lia. done.
    + intros k. destruct (decide (k < div_ceil (length slots) (2 * width))); [by apply Hk|].
      unfold window. rewrite drop_ge by nia. rewrite take_nil. constructor.
Qed.

Lemma merge_passes_spec fuel slots s width :
  fits slots → 0 < width → length slots - width < fuel → length s = length slots →
  blocks_sorted width slots →
  ∃ r, cancels_to (merge_passes fuel slots s width) (Ok r) ∧ r ≡ₚ slots ∧ sorted r.
Proof.
  revert slots s width. induction fuel as [|fuel IH]; intros slots s width Hf Hw Hfuel Hlen Hs; [lia|].
  cbn [merge_passes]. destruct (Nat.ltb_spec width (length slots)).
  - destruct (merge_pass_spec slots s width) as (s' & Hs' & Hp & Hsort); [done..|].
    pose proof (Permutation_length Hp) as Hl'.
    destruct (IH s' slots (sat_mul width 2)) as (r & Hr & Hp' & Hsr).
    + unfold fits. by rewrite Hl'.
    + rewrite sat_mul_exact; unfold fits, usize_max, u64_max in *; lia.
    + rewrite sat_mul_exact; unfold fits, usize_max, u64_max in *; lia.
    + done.
    + rewrite sat_mul_exact by (unfold fits, usize_max, u64_max in *; lia).
      by rewrite Nat.mul_comm.
    + exists r. split; [by eapply cancels_bind|]. split; [by rewrite Hp'|done].
  - exists slots. split; [apply cancels_ret|]. split; [done|].
    specialize (Hs 0). simpl in Hs. unfold window in Hs. by rewrite drop_0, take_ge in Hs by lia.
Qed.

Lemma blocks_sorted_nil n : blocks_sorted n [].
Proof. intros k. unfold window. rewrite drop_nil, take_nil. constructor. Qed.
Lemma sort_runs_spec n slots fuel done :
  0 < n → length slots ≤ fuel →
  ∃ r, cancels_to (p_fold sort_run (chunks_fuel fuel n slots) done) (Ok (done ++ r)) ∧
       r ≡ₚ slots ∧ blocks_sorted n r.
Proof.
  intros Hn. revert slots done. induction fuel as [|fuel IH]; intros slots done Hl.
  { exists []. rewrite app_nil_r. destruct slots; simpl in Hl; [|lia].
    split_and!; [exact (cancels_ret _)|done|apply blocks_sorted_nil]. }
  destruct slots as [|x slots].
  { exists []. rewrite app_nil_r.
    split_and!; [exact (cancels_ret _)|done|apply blocks_sorted_nil]. }
  cbn [chunks_fuel p_fold]. set (l := x :: slots) in *.
  destruct (IH (drop n l) (done ++ sort_unstable_by compare (take n l))) as (r & Hr & Hp & Hs).
  { rewrite length_drop. lia. }
  pose proof (sort_unstable_permutes compare (take n l)) as Hp1.
  exists (sort_unstable_by compare (take n l) ++ r). split_and!.
  - eapply cancels_bind; [eapply cancels_bind; [apply cancels_check|apply cancels_ret]|].
    by rewrite app_assoc.
  - by rewrite Hp1, Hp, take_drop.
  - destruct (decide (length l ≤ n)).
    { rewrite drop_ge in Hp by done. apply Permutation_nil_r in Hp as ->. rewrite app_nil_r.
      intros k. unfold window. destruct k; simpl.
      - rewrite drop_0, take_ge; [by apply sort_unstable_sorts|].
        rewrite (Permutation_length Hp1), length_take. lia.
      - rewrite drop_ge, take_nil; [constructor|].
        rewrite (Permutation_length Hp1), length_take. lia. }
    assert (Hl1 : length (sort_unstable_by compare (take n l)) = n).
    { rewrite (Permutation_length Hp1), length_take. lia. }
    intros [|k]; simpl.
    + rewrite window_prefix by lia. unfold window. rewrite drop_0, take_ge by lia.
      by apply sort_unstable_sorts.
    + rewrite window_app by lia. rewrite Hl1.
      replace (n + k * n - n) with (k * n) by lia.
      replace (n + k * n + n - n) with (k * n + n) by lia. apply Hs.
Qed.

Lemma sort_slots_spec slots :
  fits slots → ∃ r, cancels_to (sort_slots slots) (Ok r) ∧ r ≡ₚ slots ∧ sorted r.
Proof.
  intros Hf. destruct (sort_runs_spec RUN slots (length slots) []) as (r & Hr & Hp & Hs).
  { unfold RUN. lia. } { done. }
  pose proof (Permutation_length Hp) as Hl.
  destruct (decide (length r ≤ RUN)) as [Hle|Hgt].
  - exists r. split_and!; [|done|].
    + unfold sort_slots. eapply cancels_bind; [exact Hr|]. simpl.
      rewrite (proj2 (Nat.leb_le _ _) Hle). apply cancels_ret.
    + specialize (Hs 0). simpl in Hs. unfold window in Hs. by rewrite drop_0, take_ge in Hs by lia.
  - destruct (merge_passes_spec (length r) r (replicate (length r) 0%N) RUN) as (r' & Hr' & Hp' & Hs').
    + unfold fits. by rewrite Hl.
    + unfold RUN. lia.
    + unfold RUN in *. lia.
    + apply length_replicate.
    + done.
    + exists r'. split_and!; [|by rewrite Hp'|done].
      unfold sort_slots. eapply cancels_bind; [exact Hr|]. simpl.
      rewrite (proj2 (Nat.leb_gt _ _)) by lia. done.
Qed.

(** ** Selecting a prefix *)

Lemma swap_spec (a b c : list N) x y i j :
  i = length a → j = length a + S (length b) →
  swap (a ++ x :: b ++ y :: c) i j = Some (a ++ y :: b ++ x :: c).
Proof.
  intros -> ->. unfold swap.
  assert (E0 : (a ++ x :: b ++ y :: c) !! length a = Some x) by by apply list_lookup_middle.
  rewrite E0. simpl.
  assert (E : (a ++ x :: b ++ y :: c) !! (length a + S (length b)) = Some y).
  { rewrite lookup_app_r by lia. replace (_ - _) with (S (length b)) by lia. simpl.
    by apply list_lookup_middle. }
  rewrite E. simpl. f_equal. rewrite insert_app_r_alt by lia. rewrite Nat.sub_diag. simpl.
  rewrite insert_app_r_alt by lia. replace (_ - _) with (S (length b)) by lia. simpl.
  rewrite insert_app_r_alt by lia. by rewrite Nat.sub_diag.
Qed.
Lemma swap_same (l : list N) i x : l !! i = Some x → swap l i i = Some l.
Proof. intros Hx. unfold swap. rewrite Hx. simpl. by rewrite (list_insert_id l i x Hx), (list_insert_id l i x Hx). Qed.

(** [less], [equal], [greater] around the pivot: the outcome of a partition. *)
Definition around (pivot : N) (L E G : list N) : Prop :=
  Forall (λ x, compare x pivot = Lt) L ∧ Forall (λ x, compare x pivot = Eq) E ∧
  Forall (λ x, compare x pivot = Gt) G.

Ltac relist := rewrite <-?app_assoc; simpl; rewrite <-?app_assoc; simpl.



(** Swapping the element under examination out of the unexamined part. *)
Lemma swap_less A L E rest x : ∃ E',
  swap (A ++ L ++ E ++ x :: rest) (length A + length L) (length A + length L + length E) =
    Some (A ++ (L ++ [x]) ++ E' ++ rest) ∧ E' ≡ₚ E.
Proof.
  destruct E as [|e E].
  - exists []. split; [|done]. simpl. rewrite Nat.add_0_r. rewrite (swap_same _ _ x); [by relist|].
    rewrite (app_assoc A). apply list_lookup_middle. by rewrite length_app.
  - exists (E ++ [e]). split; [|by rewrite Permutation_app_comm].
    rewrite (app_assoc A). simpl. rewrite swap_spec by (rewrite length_app; simpl; lia). by relist.
Qed.
Lemma swap_greater A L E U rest x : ∃ U',
  swap (A ++ L ++ E ++ (x :: U) ++ rest) (length A + length L + length E)
       (length A + length L + length E + length U) =
    Some (A ++ L ++ E ++ U' ++ x :: rest) ∧ U' ≡ₚ U.
Proof.
  destruct U as [|u U _] using rev_ind.
  - exists []. split; [|done]. simpl. rewrite Nat.add_0_r. apply (swap_same _ _ x).
    rewrite (app_assoc L), (app_assoc A). apply list_lookup_middle. rewrite !length_app. lia.
  - exists (u :: U). split; [|by rewrite <-Permutation_cons_append].
    relist. rewrite (app_assoc L), (app_assoc A).
    rewrite swap_spec by (rewrite !length_app; simpl; lia). by relist.
Qed.
Lemma partition_loop_spec fuel pivot A C : ∀ L E U G n less current greater,
  length U ≤ fuel → around pivot L E G →
  less = length A + length L → current = less + length E → greater = current + length U →
  ∃ L' E' G', around pivot L' E' G' ∧ L' ++ E' ++ G' ≡ₚ L ++ E ++ U ++ G ∧
    cancels_to (partition_loop fuel pivot (A ++ L ++ E ++ U ++ G ++ C) less current greater n)
      (Ok (A ++ L' ++ E' ++ G' ++ C, length A + length L', length A + length L' + length E')).
Proof.
  induction fuel as [|fuel IH];
    intros L E U G n less current greater Hf (HL & HE & HG) Hless Hcur Hgr;
    (destruct U as [|x U];
      [exists L, E, G; split; [by split_and!|]; split; [done|]; simpl;
       unfold partition_loop; rewrite (proj2 (Nat.ltb_ge _ _)) by (simpl in *; lia);
       subst; simpl; rewrite Nat.add_0_r; apply cancels_ret|]);
    simpl in Hf; [lia|].
  assert (Hx : (A ++ L ++ E ++ (x :: U) ++ G ++ C) !! current = Some x).
  { rewrite (app_assoc L), (app_assoc A). apply list_lookup_middle. rewrite !length_app. lia. }
  cbn [partition_loop]. rewrite (proj2 (Nat.ltb_lt _ _)) by (simpl in *; lia). simpl in Hgr.
  destruct (compare x pivot) eqn:Ex.
  - destruct (IH L (E ++ [x]) U G (S n) less (S current) greater)
      as (L' & E' & G' & Har & Hp & Hc); rewrite ?length_app; simpl; try lia.
    { split_and!; try done. by apply Forall_app_2; [|constructor]. }
    exists L', E', G'. split; [done|]. split; [rewrite Hp; by relist|].
    eapply cancels_bind; [apply cancels_check_every|].
    eapply cancels_bind; [by apply cancels_some|]. rewrite Ex. revert Hc. by relist.
  - destruct (swap_less A L E (U ++ G ++ C) x) as (E1 & Hsw & Hp1).
    assert (HE1 : Forall (λ x, compare x pivot = Eq) E1) by by rewrite Hp1.
    pose proof (Permutation_length Hp1) as Hl1.
    destruct (IH (L ++ [x]) E1 U G (S n) (S less) (S current) greater)
      as (L' & E' & G' & Har & Hp & Hc); rewrite ?length_app; simpl; try lia.
    { split_and!; try done. by apply Forall_app_2; [|constructor]. }
    exists L', E', G'. split; [done|]. split; [rewrite Hp, Hp1; relist; solve_Permutation|].
    eapply cancels_bind; [apply cancels_check_every|].
    eapply cancels_bind; [by apply cancels_some|]. rewrite Ex.
    eapply cancels_bind; [apply cancels_some; subst; exact Hsw|]. exact Hc.
  - destruct (swap_greater A L E U (G ++ C) x) as (U1 & Hsw & Hp1).
    pose proof (Permutation_length Hp1) as Hl1.
    destruct (IH L E U1 (x :: G) (S n) less current (greater - 1))
      as (L' & E' & G' & Har & Hp & Hc); try lia.
    { split_and!; try done. by constructor. }
    exists L', E', G'. split; [done|]. split; [rewrite Hp, Hp1; relist; solve_Permutation|].
    eapply cancels_bind; [apply cancels_check_every|].
    eapply cancels_bind; [by apply cancels_some|]. rewrite Ex.
    replace (greater - 1) with (length A + length L + length E + length U) in * by lia.
    eapply cancels_bind; [apply cancels_some; subst; exact Hsw|]. exact Hc.
Qed.

Lemma choose_pivot_spec slots low high :
  low < high → high ≤ length slots → ∃ p, cancels_to (choose_pivot slots low high) (Ok p).
Proof.
  intros Hl Hh.
  assert (low + (high - low) / 2 < high) by (pose proof (Nat.div_lt (high - low) 2); lia).
  destruct (lookup_lt_is_Some_2 slots low) as [a Ha]; [lia|].
  destruct (lookup_lt_is_Some_2 slots (low + (high - low) / 2)) as [b Hb]; [lia|].
  destruct (lookup_lt_is_Some_2 slots (high - 1)) as [c Hc]; [lia|].
  destruct (lookup_lt_is_Some_2 (sort_unstable_by compare [a; b; c]) 1) as [p Hp].
  { rewrite (Permutation_length (sort_unstable_permutes compare _)). simpl. lia. }
  exists p. do 3 (eapply cancels_bind; [by apply cancels_some|]). by apply cancels_some.
Qed.

Definition all_le (a b : list N) : Prop := ∀ x y, x ∈ a → y ∈ b → cmp_le compare x y.
#[local] Instance all_le_proper : Proper ((≡ₚ) ==> (≡ₚ) ==> iff) all_le.
Proof. intros a a' Ha b b' Hb. unfold all_le. by setoid_rewrite Ha; setoid_rewrite Hb. Qed.
Lemma all_le_app_l a b c : all_le (a ++ b) c ↔ all_le a c ∧ all_le b c.
Proof. unfold all_le. setoid_rewrite elem_of_app. naive_solver. Qed.
Lemma all_le_app_r a b c : all_le a (b ++ c) ↔ all_le a b ∧ all_le a c.
Proof. unfold all_le. setoid_rewrite elem_of_app. naive_solver. Qed.
(** The slots before position [n] may all come first in sorted order. *)
Definition cut (n : nat) (l : list N) : Prop := all_le (take n l) (drop n l).
Lemma cut_app a b n : n = length a → cut n (a ++ b) ↔ all_le a b.
Proof. intros ->. unfold cut. by rewrite take_app_length, drop_app_length. Qed.

Lemma around_le pivot L E G :
  around pivot L E G → all_le L E ∧ all_le L G ∧ all_le E G ∧ all_le E E.
Proof.
  intros (HL & HE & HG). rewrite !Forall_forall in *.
  assert (Hle : ∀ x y, compare x pivot ≠ Gt → compare y pivot ≠ Lt → cmp_le compare x y).
  { intros x y Hx Hy. apply (compare_le_trans compare x pivot y); [done|].
    rewrite (compare_opp compare y pivot). by destruct (compare y pivot). }
  split_and!; intros x y Hx Hy; apply Hle;
    repeat match goal with
      Hf : ∀ x, x ∈ ?l → _, Hin : ?z ∈ ?l |- _ => rewrite (Hf z Hin) end; done.
Qed.

(** What [narrow] leaves: the target lies between two cuts, or at a cut. *)
Definition narrowed (target low high : nat) (slots : list N) : Prop :=
  cut low slots ∧ cut high slots ∧ low ≤ target < high ∧ high ≤ length slots ∨
  low = high ∧ cut (S target) slots.

(** A partition of the open part, and the side that holds the target. *)
Lemma partition_narrows target A M C pivot L E G :
  all_le A M → all_le A C → all_le M C → around pivot L E G → L ++ E ++ G ≡ₚ M →
  length A ≤ target < length A + length M →
  let less := length A + length L in
  let greater := length A + length L + length E in
  if target <? less then all_le A L ∧ all_le L (E ++ G ++ C)
  else if greater <=? target then all_le ((A ++ L) ++ E) G ∧ all_le ((A ++ L) ++ E) C ∧ all_le G C
  else cut (S target) (A ++ L ++ E ++ G ++ C).
Proof.
  intros HAM HAC HMC Har Hp Ht less greater.
  destruct (around_le _ _ _ _ Har) as (HLE & HLG & HEG & HEE).
  rewrite <-Hp in HAM, HMC. rewrite !all_le_app_l, !all_le_app_r in *.
  destruct (Nat.ltb_spec target less) as [|Hless]; [rewrite ?all_le_app_r; tauto|].
  destruct (Nat.leb_spec greater target) as [|Hgr];
    [rewrite ?all_le_app_l, ?all_le_app_r; tauto|].
  pose (E1 := take (S target - less) E). pose (E2 := drop (S target - less) E).
  assert (HE : E = E1 ++ E2) by (subst E1 E2; by rewrite take_drop).
  assert (Hl1 : length E1 = S target - less) by (subst E1; rewrite length_take; lia).
  clearbody E1 E2. subst E. rewrite !all_le_app_l, !all_le_app_r in *.
  replace (A ++ L ++ (E1 ++ E2) ++ G ++ C) with ((A ++ L ++ E1) ++ E2 ++ G ++ C)
    by by rewrite <-!app_assoc.
  apply cut_app; [rewrite !length_app; lia|].
  rewrite !all_le_app_l, !all_le_app_r. tauto.
Qed.

Lemma parts_narrowed target A M C :
  all_le A M → all_le A C → all_le M C → length A ≤ target < length A + length M →
  narrowed target (length A) (length A + length M) (A ++ M ++ C).
Proof.
  intros. left. split_and!; [| |lia..|rewrite !length_app; lia].
  - apply cut_app; [done|]. by rewrite all_le_app_r.
  - rewrite app_assoc. apply cut_app; [by rewrite length_app|]. by rewrite all_le_app_l.
Qed.
Lemma window_middle {A} (a m c : list A) :
  window (a ++ m ++ c) (length a) (length a + length m) = m.
Proof.
  unfold window. rewrite drop_app_length, Nat.add_comm, Nat.add_sub. by rewrite take_app_length.
Qed.
Lemma drop_middle {A} (a m c : list A) : drop (length a + length m) (a ++ m ++ c) = c.
Proof. by rewrite app_assoc, <-length_app, drop_app_length. Qed.

Lemma narrow_spec target budget : ∀ A M C,
  fits (A ++ M ++ C) → all_le A M → all_le A C → all_le M C →
  length A ≤ target < length A + length M →
  ∃ r low high,
    cancels_to (narrow budget target (A ++ M ++ C) (length A) (length A + length M))
      (Ok (r, low, high)) ∧
    r ≡ₚ A ++ M ++ C ∧ narrowed target low high r.
Proof.
  induction budget as [|budget IH]; intros A M C Hf HAM HAC HMC Ht; cbn [narrow];
    rewrite (proj2 (Nat.leb_le (length A) target)), (proj2 (Nat.ltb_lt target _)), !andb_true_r by lia;
    (destruct (1024 <? length A + length M - length A) eqn:Hbig;
      [|exists (A ++ M ++ C), (length A), (length A + length M);
        split; [apply cancels_ret|]; split; [done|by apply parts_narrowed]]);
    apply Nat.ltb_lt in Hbig.
  - destruct (sort_slots_spec M) as (s & Hs & Hp & _).
    { unfold fits in *. rewrite !length_app in Hf. lia. }
    exists (A ++ s ++ C), (length A), (length A + length M). split_and!.
    + eapply cancels_bind; [apply cancels_check|]. rewrite window_middle.
      eapply cancels_bind; [exact Hs|]. rewrite take_app_length, drop_middle. apply cancels_ret.
    + by rewrite Hp.
    + rewrite <-(Permutation_length Hp). apply parts_narrowed; rewrite ?Hp; done.
  - destruct (choose_pivot_spec (A ++ M ++ C) (length A) (length A + length M)) as [pivot Hpivot];
      [lia|rewrite !length_app; lia|].
    destruct (partition_loop_spec (length A + length M - length A) pivot A C [] [] M [] 0
      (length A) (length A) (length A + length M)) as (L & E & G & Har & Hp & Hpart);
      try (simpl; lia). { by split_and!. }
    simpl in Hp. rewrite app_nil_r in Hp.
    pose proof (partition_narrows target A M C pivot L E G HAM HAC HMC Har Hp Ht) as Hside.
    pose proof (Permutation_length Hp) as Hlen. rewrite !length_app in Hlen.
    assert (Hwhole : A ++ L ++ E ++ G ++ C ≡ₚ A ++ M ++ C) by (rewrite <-Hp; by relist).
    assert (Hf' : fits (A ++ L ++ E ++ G ++ C)) by (unfold fits; by rewrite Hwhole).
    rewrite <-Hp in HAM, HMC. rewrite !all_le_app_r in HAM. rewrite !all_le_app_l in HMC.
    enough (∃ r low high,
      cancels_to (if target <? length A + length L
                  then narrow budget target (A ++ L ++ E ++ G ++ C) (length A) (length A + length L)
                  else if length A + length L + length E <=? target
                  then narrow budget target (A ++ L ++ E ++ G ++ C)
                         (length A + length L + length E) (length A + length M)
                  else mret (A ++ L ++ E ++ G ++ C, length A + length M, length A + length M)
                  : polled (list N * nat * nat)) (Ok (r, low, high)) ∧
      r ≡ₚ A ++ L ++ E ++ G ++ C ∧ narrowed target low high r) as (r & low & high & Hr & Hpr & Hn).
    { exists r, low, high. split; [|split; [by rewrite Hpr|done]].
      eapply cancels_bind; [apply cancels_check|]. eapply cancels_bind; [exact Hpivot|].
      eapply cancels_bind; [exact Hpart|exact Hr]. }
    cbv zeta in Hside. revert Hside. destruct (Nat.ltb_spec target (length A + length L)); intros Hside.
    + rewrite !all_le_app_r in Hside. apply (IH A L (E ++ G ++ C)); rewrite ?all_le_app_r; tauto || lia.
    + revert Hside.
      destruct (Nat.leb_spec (length A + length L + length E) target); intros Hside.
      * specialize (IH ((A ++ L) ++ E) G C). rewrite !length_app, <-!app_assoc in IH.
        replace (length A + length L + length E + length G) with (length A + length M) in IH by lia.
        rewrite !all_le_app_l in Hside. apply IH; rewrite ?all_le_app_l; tauto || lia.
      * exists (A ++ L ++ E ++ G ++ C), (length A + length M), (length A + length M).
        split; [apply cancels_ret|]. split; [done|]. by right.
Qed.

Lemma sort_unstable_nil : sort_unstable_by compare [] = [].
Proof. apply Permutation_nil_r, sort_unstable_permutes. Qed.
(** Sorting the open part lets every position in it be a cut. *)
Lemma sorted_part_cut low high n slots w :
  cut low slots → cut high slots → low ≤ n ≤ high → high ≤ length slots →
  w ≡ₚ window slots low high → sorted w → cut n (take low slots ++ w ++ drop high slots).
Proof.
  intros Hlow Hhigh Hn Hlen Hw Hsort. unfold cut in Hlow, Hhigh.
  assert (Hd : drop low slots = window slots low high ++ drop high slots).
  { rewrite <-(take_drop (high - low) (drop low slots)), drop_drop. unfold window.
    by replace (low + (high - low)) with high by lia. }
  rewrite Hd, all_le_app_r in Hlow. rewrite (take_window slots low high), all_le_app_l in Hhigh by lia.
  rewrite <-Hw in Hlow, Hhigh. destruct Hlow as [H1 H2], Hhigh as [_ H3].
  assert (Hlw : length w = high - low) by (rewrite (Permutation_length Hw); by apply window_length).
  rewrite <-(take_drop (n - low) w) in H1, H3, Hsort |- *.
  rewrite all_le_app_r in H1. rewrite all_le_app_l in H3.
  apply StronglySorted_app in Hsort as (H4 & _ & _).
  replace (take low slots ++ (take (n - low) w ++ drop (n - low) w) ++ drop high slots)
    with ((take low slots ++ take (n - low) w) ++ drop (n - low) w ++ drop high slots)
    by by rewrite <-!app_assoc.
  apply cut_app; [rewrite length_app, !length_take; lia|].
  rewrite !all_le_app_l, !all_le_app_r. split; split; try tauto.
Qed.

Lemma narrowed_cut target low high s :
  narrowed target low high s →
  ∃ s', s' ≡ₚ s ∧ cut (S target) s' ∧ s' =
    if low <? high then take low s ++ sort_unstable_by compare (window s low high) ++ drop high s
    else s.
Proof.
  intros Hn. eexists. split; [|split; [|reflexivity]].
  - destruct (Nat.ltb_spec low high); [|done].
    rewrite (sort_unstable_permutes compare (window s low high)), app_assoc, <-take_window by lia.
    by rewrite take_drop.
  - destruct Hn as [(? & ? & ? & ?)|[-> Hn]]; [|by rewrite Nat.ltb_irrefl].
    rewrite (proj2 (Nat.ltb_lt _ _)) by lia. apply sorted_part_cut; try done; try lia.
    + apply sort_unstable_permutes.
    + by apply sort_unstable_sorts.
Qed.

(** *** Sorting gives the whole order, selecting gives a prefix of it *)
Lemma select_prefix_spec slots end_ :
  fits slots →
  ∃ r, cancels_to (select_prefix slots end_) (Ok r) ∧
    ∃ whole, whole ≡ₚ slots ∧ sorted whole ∧ r = take end_ whole.
Proof.
  intros Hf. unfold select_prefix. destruct (Nat.eqb_spec (min end_ (length slots)) 0) as [Hz|Hz].
  { exists []. split; [apply cancels_ret|].
    exists (sort_unstable_by compare slots). split; [apply sort_unstable_permutes|].
    split; [by apply sort_unstable_sorts|]. destruct end_; [done|].
    destruct slots; [|simpl in Hz; lia].
    by rewrite sort_unstable_nil. }
  set (n := min end_ (length slots)) in *.
  destruct (narrow_spec (n - 1) (Nat.log2 (length slots) * 2 + 1) [] slots [])
    as (s & low & high & Hs & Hp & Hn);
    [by rewrite app_nil_r|by intros ?? ?%elem_of_nil|by intros ?? ?%elem_of_nil
    |by intros ??? ?%elem_of_nil|simpl; lia|].
  simpl in Hs, Hp. rewrite app_nil_r in Hs, Hp.
  destruct (narrowed_cut (n - 1) low high s Hn) as (s' & Hp' & Hcut & Heq).
  replace (S (n - 1)) with n in Hcut by lia. rewrite Hp in Hp'.
  destruct (sort_slots_spec (take n s')) as (r & Hr & Hpr & Hsr).
  { unfold fits in *. rewrite length_take, (Permutation_length Hp'). lia. }
  exists r. split.
  - eapply cancels_bind; [exact Hs|]. cbv beta iota zeta. rewrite <-Heq.
    eapply cancels_bind; [apply cancels_check|exact Hr].
  - exists (r ++ sort_unstable_by compare (drop n s')).
    split_and!.
    + by rewrite (sort_unstable_permutes compare (drop n s')), Hpr, take_drop.
    + apply StronglySorted_app. split_and!; [|done|by apply sort_unstable_sorts].
      intros x y Hx Hy. rewrite (sort_unstable_permutes compare (drop n s')) in Hy.
      rewrite Hpr in Hx. by apply Hcut.
    + assert (Hl : length r = n).
      { rewrite (Permutation_length Hpr), length_take, (Permutation_length Hp'). lia. }
      destruct (decide (end_ ≤ length slots)).
      * replace end_ with (length r) by lia. by rewrite take_app_length.
      * rewrite drop_ge by (rewrite (Permutation_length Hp'); lia).
        rewrite sort_unstable_nil, app_nil_r.
        by rewrite take_ge by lia.
Qed.
End slot_sort.

(** C19: Sorting is correct and cancellation is safe.  Against any polls of the
    flag, [sort_slots] either sees no cancellation and gives the slots in
    sorted order (runs of [RUN] slots merged bottom-up, no slot lost or
    repeated, no index out of range), or sees one and gives the cancellation
    error, never a wrong order. *)
Theorem sort_slots_sorts `{!UnstableSort} (compare : N → N → comparison) slots :
  TotalPreorder compare → fits slots →
  ∃ r, cancels_to (sort_slots compare slots) (Ok r) ∧
       r ≡ₚ slots ∧ StronglySorted (cmp_le compare) r.
Proof. intros ? Hf. by apply sort_slots_spec. Qed.

(** C16: Selecting a page is sorting and truncating.  When the comparator tells
    any two of the slots apart, [select_prefix] (three-way partitions around
    sampled pivots, within a depth budget) gives, unless it is cancelled,
    exactly the first [end_] slots of what [sort_slots] gives. *)
Theorem select_prefix_is_sorted_prefix `{!UnstableSort} (compare : N → N → comparison) slots end_ :
  TotalPreorder compare → fits slots →
  (∀ x y, x ∈ slots → y ∈ slots → compare x y = Eq → x = y) →
  ∃ whole, cancels_to (sort_slots compare slots) (Ok whole) ∧
           cancels_to (select_prefix compare slots end_) (Ok (take end_ whole)).
Proof.
  intros Hc Hf Hid. destruct (sort_slots_spec compare slots Hf) as (whole & Hw & Hpw & Hsw).
  destruct (select_prefix_spec compare slots end_ Hf) as (r & Hr & whole' & Hpw' & Hsw' & ->).
  exists whole. split; [done|]. replace whole with whole'; [done|].
  apply (StronglySorted_unique_strong (cmp_le compare)); [|done|done|by rewrite Hpw, Hpw'].
  intros x y Hx Hy Hxy Hyx. rewrite Hpw' in Hx. rewrite Hpw in Hy. apply Hid; [done..|].
  unfold cmp_le in *. rewrite (compare_opp compare x y) in Hyx. by destruct (compare x y).
Qed.

Lemma sort_slots_sorts_witness :
  fits [5; 3; 9; 3]%N ∧ (sort_slots N.compare [5; 3; 9; 3]%N (λ _, false) 0).1 = Ok [3; 3; 5; 9]%N.
Proof.
  assert (Hf : fits [5; 3; 9; 3]%N) by (vm_compute; reflexivity). split; [exact Hf|].
  destruct (sort_slots_sorts N.compare [5; 3; 9; 3]%N _ Hf) as (r & Hr & _).
  rewrite (cancels_never _ _ (λ _, false) 0 Hr (λ _, eq_refl)).
  rewrite <-(cancels_never _ _ (λ _, false) 0 Hr (λ _, eq_refl)). vm_compute. reflexivity.
Defined.
Lemma select_prefix_is_sorted_prefix_witness :
  (select_prefix N.compare [5; 3; 9; 1]%N 2 (λ _, false) 0).1 = Ok [1; 3]%N.
Proof.
  destruct (select_prefix_is_sorted_prefix N.compare [5; 3; 9; 1]%N 2) as (whole & Hw & Hp).
  - apply _.
  - vm_compute. reflexivity.
  - intros x y _ _. apply N.compare_eq.
  - rewrite (cancels_never _ _ (λ _, false) 0 Hp (λ _, eq_refl)).
    apply (cancels_never _ _ (λ _, false) 0) in Hw; [|done]. vm_compute in Hw.
    injection Hw as <-. reflexivity.
Defined.
