(* ===== verification/ResultOrder.v ===== *)
(** * core/src/result_order.rs, [ResultOrder]: the order of results

    A list of fields with directions, parsed from the request's JSON, and the
    comparator it stands for.  Sorting with it is in SlotSort.v. *)
From S2P Require Import Prelude Text NaturalOrder TextView Float QueryLex QueryNumber QuerySyntax FileEntry.

Inductive SortField := SName | SPath | SExtension | SSize | SModified | SCreated | SDirectory.
#[export] Instance sort_field_dec : EqDecision SortField.
Proof. solve_decision. Defined.
Definition ResultOrder : Type := list (SortField * bool).

Definition order_name : ResultOrder := [(SName, true)].
Definition order_path : ResultOrder := [(SPath, true)].
Definition primary_path_direction (order : ResultOrder) : option bool :=
  '(field, ascending) ← head order;
  if bool_decide (field = SPath) then Some ascending else None.

(** [bool]'s [Ord]: [false] first. *)
Definition bool_cmp (a b : bool) : comparison :=
  match a, b with false, true => Lt | true, false => Gt | _, _ => Eq end.
(** [str]'s [Ord]: the bytes of the two texts. *)
Definition str_cmp (a b : text) : comparison := list_cmp N.compare (utf8 a) (utf8 b).
Definition path_cmp (v w : TextView) : comparison := view_cmp (view_utf8 v) (view_utf8 w).

Section result_order.
Context `{Json}.

Definition sort_item (item : Value) : result (SortField * bool) :=
  let name := default (lit "name") (json_get item (lit "field") ≫= as_str) in
  field ←
    (if is_lit name "name" then Ok SName
     else if is_lit name "path" then Ok SPath
     else if is_lit name "extension" then Ok SExtension
     else if is_lit name "size" then Ok SSize
     else if is_lit name "modified" then Ok SModified
     else if is_lit name "created" then Ok SCreated
     else if is_lit name "is_dir" then Ok SDirectory
     else Err "Unsupported sort field");
  Ok (field, default true (json_get item (lit "ascending") ≫= as_bool)).
Definition order_parse (value : Value) : result ResultOrder :=
  match as_array value with
  | None => Ok order_name
  | Some items => result_map sort_item items
  end.

Context {F : Type} `{!FileEntry F}.

Definition field_changed (previous current : F) (field : SortField) : bool :=
  match field with
  | SName => negb (bool_decide (name previous = name current))
  | SPath => false
  | SExtension => negb (bool_decide (extension previous = extension current))
  | SSize => negb (size previous =? size current)%N
  | SModified => negb (modified previous =? modified current)%Z
  | SCreated => negb (created previous =? created current)%Z
  | SDirectory => negb (Bool.eqb (is_dir previous) (is_dir current))
  end.
Definition affected_by_change (order : ResultOrder) (previous current : F) : bool :=
  if negb (view_eq (path previous) (path current)) || negb (id previous =? id current)%Z then true
  else existsb (λ item, field_changed previous current item.1) order.

Definition field_cmp (field : SortField) (first second : F) : comparison :=
  match field with
  | SName => natural_cmp_folded (utf8 (folded_name first)) (utf8 (folded_name second))
  | SPath => view_natural_cmp (view_utf8 (folded_path first)) (view_utf8 (folded_path second))
  | SExtension => str_cmp (extension first) (extension second)
  | SSize => N.compare (size first) (size second)
  | SModified => Z.compare (modified first) (modified second)
  | SCreated => Z.compare (created first) (created second)
  | SDirectory => bool_cmp (is_dir first) (is_dir second)
  end.
Fixpoint order_compare (order : ResultOrder) (first second : F) : comparison :=
  match order with
  | (field, ascending) :: order =>
    let c := field_cmp field first second in
    if negb (is_eq c) then if ascending : bool then c else CompOpp c
    else order_compare order first second
  | [] =>
    then_with (path_cmp (path first) (path second)) (Z.compare (id first) (id second))
  end.
End result_order.

(** ** The comparator is an order *)

#[export] Instance Zcompare_total : TotalOrder Z.compare.
Proof.
  repeat split.
  - intros x y. apply Z.compare_antisym.
  - intros x y z ??. apply Z.compare_le_iff. transitivity y; by apply Z.compare_le_iff.
  - intros x y. apply Z.compare_eq.
Qed.
#[export] Instance bool_cmp_total : TotalOrder bool_cmp.
Proof.
  split; [split|]; [by intros [] []|intros [] [] []; simpl; congruence|by intros [] []].
Qed.
Lemma str_cmp_preorder : TotalPreorder str_cmp.
Proof. apply (preorder_pullback utf8 (list_cmp N.compare)), _. Qed.
#[export] Existing Instance str_cmp_preorder.
Lemma path_cmp_bytes v w :
  path_cmp v w = list_cmp N.compare (view_bytes (view_utf8 v)) (view_bytes (view_utf8 w)).
Proof. apply view_cmp_bytes. Qed.
Lemma preorder_ext {A} (f g : A → A → comparison) :
  (∀ x y, f x y = g x y) → TotalPreorder g → TotalPreorder f.
Proof.
  intros E Hg. split; intros *; rewrite !E; [apply (compare_opp g)|apply (compare_le_trans g)].
Qed.
(** One key after another, in either direction. *)
Lemma preorder_then {A} (f g : A → A → comparison) :
  TotalPreorder f → TotalPreorder g → TotalPreorder (λ x y, then_with (f x y) (g x y)).
Proof.
  intros Hf Hg. split.
  - intros x y. by rewrite then_with_opp, <-!(compare_opp _).
  - intros x y z. apply then_with_trans; [apply _|]. apply (compare_le_trans g).
Qed.
Lemma preorder_reverse {A} (f : A → A → comparison) :
  TotalPreorder f → TotalPreorder (λ x y, CompOpp (f x y)).
Proof.
  intros Hf. split.
  - intros x y. by rewrite (compare_opp f x y).
  - intros x y z. rewrite <-!(compare_opp f). intros H1 H2. by apply (compare_le_trans f z y x).
Qed.

Section order.
Context `{Json} {F : Type} `{!FileEntry F}.

Lemma field_cmp_preorder field : TotalPreorder (field_cmp (F := F) field).
Proof.
  destruct field; unfold field_cmp.
  - apply (preorder_pullback (λ f, utf8 (folded_name f)) natural_cmp_folded), _.
  - eapply preorder_ext; [intros x y; apply view_natural_cmp_bytes|].
    apply (preorder_pullback (λ f, view_bytes (view_utf8 (folded_path f))) natural_cmp_folded), _.
  - apply (preorder_pullback extension str_cmp), _.
  - apply (preorder_pullback size N.compare), _.
  - apply (preorder_pullback modified Z.compare), _.
  - apply (preorder_pullback created Z.compare), _.
  - apply (preorder_pullback is_dir bool_cmp), _.
Qed.
Lemma order_compare_cons field ascending order (x y : F) :
  order_compare ((field, ascending) :: order) x y =
  then_with (if ascending then field_cmp field x y else CompOpp (field_cmp field x y))
            (order_compare order x y).
Proof. simpl. by destruct (field_cmp field x y), ascending. Qed.
Lemma order_compare_preorder order : TotalPreorder (order_compare (F := F) order).
Proof.
  induction order as [|[field ascending] order IH].
  - simpl. apply preorder_then.
    + eapply preorder_ext; [intros x y; apply path_cmp_bytes|].
      apply (preorder_pullback (λ f, view_bytes (view_utf8 (path f))) (list_cmp N.compare)), _.
    + apply (preorder_pullback id Z.compare), _.
  - eapply preorder_ext; [intros x y; apply order_compare_cons|]. apply preorder_then; [|done].
    destruct ascending; [|apply preorder_reverse]; apply field_cmp_preorder.
Qed.
Lemma order_compare_eq order (x y : F) :
  order_compare order x y = Eq →
  view_bytes (view_utf8 (path x)) = view_bytes (view_utf8 (path y)) ∧ id x = id y.
Proof.
  induction order as [|[field ascending] order IH].
  - simpl. rewrite path_cmp_bytes. destruct (list_cmp _ _ _) eqn:E; simpl; try done.
    intros Hid%Z.compare_eq. by rewrite list_cmp_N_eq in E.
  - rewrite order_compare_cons. destruct (if ascending then _ else _); simpl; done || auto.
Qed.

Lemma view_utf8_bytes v : view_bytes (view_utf8 v) = utf8 (view_bytes v).
Proof. unfold view_bytes. by rewrite utf8_app. Qed.
(** The folded texts of a row are those of its name and path. *)
Definition folded_with (fold : text → text) (f : F) : Prop :=
  folded_name f = fold (name f) ∧ view_bytes (folded_path f) = fold (view_bytes (path f)).
(** A field that did not change compares with every row as before. *)
Lemma field_cmp_unchanged (fold : text → text) field (previous current other : F) :
  folded_with fold previous → folded_with fold current →
  view_bytes (path previous) = view_bytes (path current) →
  field_changed previous current field = false →
  field_cmp field current other = field_cmp field previous other ∧
  field_cmp field other current = field_cmp field other previous.
Proof.
  intros [Hn Hp] [Hn' Hp'] Hpath. destruct field; cbn [field_changed field_cmp];
    rewrite ?negb_false_iff, ?bool_decide_eq_true, ?N.eqb_eq, ?Z.eqb_eq, ?Bool.eqb_true_iff.
  - intros E. by rewrite Hn, Hn', E.
  - by rewrite !view_natural_cmp_bytes, !view_utf8_bytes, Hp, Hp', Hpath.
  - by intros ->.
  - by intros ->.
  - by intros ->.
  - by intros ->.
  - by intros ->.
Qed.
End order.

(** Every requested order sorts.  Whatever fields and directions the request
    lists, the comparator is a total preorder (so sorting with it is defined
    and merging agrees with sorting), and it tells apart any two rows that
    differ in path or identifier (so pages are deterministic). *)
Theorem result_order_sorts `{Json} {F} `{!FileEntry F} (order : ResultOrder) :
  TotalPreorder (order_compare (F := F) order) ∧
  ∀ x y : F, order_compare order x y = Eq →
    view_bytes (view_utf8 (path x)) = view_bytes (view_utf8 (path y)) ∧ id x = id y.
Proof. split; [apply order_compare_preorder|apply order_compare_eq]. Qed.

Lemma unaffected_compare `{Json} {F} `{!FileEntry F} (fold : text → text)
    (order : ResultOrder) (previous current other : F) :
  folded_with fold previous → folded_with fold current →
  affected_by_change order previous current = false →
  order_compare order current other = order_compare order previous other ∧
  order_compare order other current = order_compare order other previous.
Proof.
  intros Hn Hp. unfold affected_by_change.
  destruct (view_eq (path previous) (path current)) eqn:Hpath; [|done].
  destruct (id previous =? id current)%Z eqn:Hid; [|done]. simpl.
  apply view_eq_bytes in Hpath. apply Z.eqb_eq in Hid.
  induction order as [|[field ascending] order IH]; simpl.
  - intros _. by rewrite !path_cmp_bytes, !view_utf8_bytes, Hpath, Hid.
  - intros [Hf Ho]%orb_false_iff. destruct (IH Ho) as [-> ->].
    by destruct (field_cmp_unchanged fold field previous current other Hn Hp Hpath Hf) as [-> ->].
Qed.

(** Orders are only recomputed where they must be.  Folded names and paths are
    functions of the names and paths; then a change that [affected_by_change]
    does not report compares every row exactly as before, on either side. *)
Theorem unaffected_change_keeps_place `{Json} {F} `{!FileEntry F} (fold : text → text)
    (order : ResultOrder) (previous current other : F) :
  folded_with fold previous → folded_with fold current →
  affected_by_change order previous current = false →
  order_compare order current other = order_compare order previous other ∧
  order_compare order other current = order_compare order other previous.
Proof. apply unaffected_compare. Qed.

(** A row of a small index, for evaluation. *)
Definition sample_row (id_ : Z) (name_ : text) (size_ : N) : IndexedFile :=
  {| i_id := id_; i_size := size_; i_modified := 0; i_created := 0; i_changed := 0;
     i_modified_ns := 0; i_changed_ns := 0; i_file_id := 0; i_parent_id := 0; i_flags := 0;
     i_path := lit "/" ++ name_; i_name := name_; i_folded_name := to_ascii_lowercase name_;
     i_folded_path := to_ascii_lowercase (lit "/" ++ name_); i_search_name := [];
     i_search_path := []; i_parent := lit "/"; i_extension := []; i_folded_extension := [];
     i_volume_id := []; i_is_dir := false; i_is_symlink := false; i_content_indexed := false;
     i_properties := JObject [] |}.

Lemma unaffected_change_keeps_place_witness :
  let previous := sample_row 1 (lit "a9") 10 in
  let current := sample_row 1 (lit "a9") 20 in
  let other := sample_row 2 (lit "A10") 15 in
  affected_by_change order_name previous current = false ∧
  affected_by_change [(SSize, true)] previous current = true ∧
  order_compare order_name current other = order_compare order_name previous other ∧
  order_compare order_name previous other = Lt.
Proof.
  cbv zeta. set (previous := sample_row 1 _ _). set (current := sample_row 1 _ _).
  set (other := sample_row 2 _ _).
  assert (Ha : affected_by_change order_name previous current = false) by (vm_compute; reflexivity).
  split; [exact Ha|]. split; [vm_compute; reflexivity|]. split; [|vm_compute; reflexivity].
  apply (unaffected_change_keeps_place to_ascii_lowercase order_name previous current other);
    [split; vm_compute; reflexivity..|exact Ha].
Defined.
