(* ===== verification/Paths.v ===== *)
(** * [std::path]: the ancestors of a Unix path

    [path_parent] (Text.v) is [Path::parent].  A parent is a strict prefix of
    its path, so the chain of ancestors is finite and its lengths decrease. *)
From S2P Require Import Prelude Text.

(** The strict ancestors, nearest first; every parent is shorter, so the
    length of the path is enough fuel ([strict_ancestors_eq]). *)
Fixpoint ancestors_fuel (fuel : nat) (path : text) : list text :=
  match fuel with
  | O => []
  | S fuel =>
    match path_parent path with
    | Some parent => parent :: ancestors_fuel fuel parent
    | None => []
    end
  end.
Definition strict_ancestors (path : text) : list text := ancestors_fuel (length path) path.
(** [Path::ancestors] *)
Definition ancestors (path : text) : list text := path :: strict_ancestors path.

Example strict_ancestors_report :
  strict_ancestors (lit "/a/b/c") = [lit "/a/b"; lit "/a"; lit "/"].
Proof. vm_compute. reflexivity. Qed.

Lemma join_char_cons c x y l : join_char c (x :: y :: l) = x ++ c :: join_char c (y :: l).
Proof. done. Qed.
Lemma join_split c t : join_char c (split_char c t) = t ∧ split_char c t ≠ [].
Proof.
  induction t as [|x t [IH Hne]]; [done|]. simpl. destruct (N.eqb_spec x c) as [->|].
  - destruct (split_char c t) as [|a l]; [done|]. by rewrite join_char_cons, IH.
  - destruct (split_char c t) as [|a l]; [done|]. split; [|done].
    rewrite <-IH. by destruct l.
Qed.
Lemma split_char_one c s : c ∉ s → split_char c s = [s].
Proof.
  induction s as [|d s IH]; [done|]. intros Hs. cbn [split_char]. destruct (N.eqb_spec d c) as [->|]; [by destruct Hs; left|].
  by rewrite IH by (intros ?; apply Hs; by right).
Qed.
Lemma split_char_app c s t : c ∉ s → split_char c (s ++ c :: t) = s :: split_char c t.
Proof.
  induction s as [|d s IH]; intros Hs; cbn [app split_char]; [by rewrite N.eqb_refl|].
  destruct (N.eqb_spec d c) as [->|]; [by destruct Hs; left|]. by rewrite IH by (intros ?; apply Hs; by right).
Qed.
Lemma join_char_app c a b :
  b ≠ [] → join_char c (a ++ b) = join_char c a ++ (match a with [] => [] | _ => [c] end) ++ join_char c b.
Proof.
  intros Hb. induction a as [|x [|y a] IH]; [done| |].
  - simpl. by destruct b.
  - change ((x :: y :: a) ++ b) with (x :: y :: (a ++ b)). rewrite !join_char_cons, <-app_assoc.
    change (y :: a ++ b) with ((y :: a) ++ b). by rewrite IH.
Qed.
Lemma join_char_nonempty c x l : x ∈ l → x ≠ [] → join_char c l ≠ [].
Proof.
  induction l as [|y [|z l] IH]; [by intros ?%elem_of_nil|by intros ->%list_elem_of_singleton|].
  intros _ _. rewrite join_char_cons. by destruct y.
Qed.
Lemma trim_components_suffix root l : ∃ junk, l = junk ++ trim_components root l.
Proof.
  induction l as [|x l [junk IH]]; [by exists []|]. simpl.
  destruct (junk_component root x l); [|by exists []]. exists (x :: junk). simpl. by f_equal.
Qed.
Lemma trim_components_head root l c rest : trim_components root l = c :: rest → c ≠ [].
Proof.
  induction l as [|x l IH]; [done|]. simpl.
  destruct (junk_component root x l) eqn:E; [done|]. intros [= <- <-] ->. done.
Qed.

(** A parent is a strict prefix. *)
Lemma path_parent_prefix path parent :
  path_parent path = Some parent → ∃ rest, rest ≠ [] ∧ path = parent ++ rest.
Proof.
  unfold path_parent. set (root := starts_with (lit "/") path).
  set (body := if root then drop 1 path else path).
  assert (Hpath : path = (if root then lit "/" else []) ++ body).
  { subst body. destruct root eqn:E; [|done]. subst root.
    unfold starts_with in E. rewrite strip_prefix_dec in E. destruct E as [r ->]. done. }
  destruct (trim_components root (reverse (split_char 47 body))) as [|c rest] eqn:Ht; [done|].
  intros [= <-]. rewrite Hpath. clear Hpath. clearbody root body.
  pose proof (trim_components_head _ _ _ _ Ht) as Hc.
  destruct (trim_components_suffix root (reverse (split_char 47 body))) as [junk Hj].
  rewrite Ht in Hj. destruct (trim_components_suffix root rest) as [junk2 Hj2].
  set (kept := trim_components root rest) in *. clearbody kept.
  assert (Hs : split_char 47 body = reverse kept ++ (reverse junk2 ++ [c] ++ reverse junk)).
  { rewrite <-(reverse_involutive (split_char 47 body)), Hj, Hj2.
    rewrite !reverse_app, reverse_cons, reverse_app, <-!app_assoc. done. }
  set (tail := reverse junk2 ++ [c] ++ reverse junk) in *.
  assert (Hne : tail ≠ []) by (subst tail; by destruct (reverse junk2)).
  exists ((match reverse kept with [] => [] | _ => [47%N] end) ++ join_char 47 tail). split.
  - destruct (reverse kept); [|done]. simpl. subst tail.
    apply (join_char_nonempty 47 c); [|done]. rewrite !elem_of_app. right. left. apply list_elem_of_here.
  - rewrite <-app_assoc. f_equal. rewrite <-join_char_app, <-Hs by done.
    symmetry. apply join_split.
Qed.
Lemma path_parent_shorter path parent : path_parent path = Some parent → length parent < length path.
Proof.
  intros (rest & Hne & ->)%path_parent_prefix. rewrite length_app.
  destruct rest; [done|]. simpl. lia.
Qed.
Lemma path_parent_fewer_bytes path parent :
  path_parent path = Some parent → byte_len parent < byte_len path.
Proof.
  intros (rest & Hne & ->)%path_parent_prefix. rewrite byte_len_app.
  pose proof (byte_len_ge rest). destruct rest; [done|]. simpl in *. lia.
Qed.

Lemma ancestors_fuel_enough f g path :
  length path ≤ f → length path ≤ g → ancestors_fuel f path = ancestors_fuel g path.
Proof.
  revert g path. induction f as [|f IH]; intros [|g] path Hf Hg; try done.
  - destruct path; [done|simpl in Hf; lia].
  - destruct path; [done|simpl in Hg; lia].
  - simpl. destruct (path_parent path) as [parent|] eqn:E; [|done].
    apply path_parent_shorter in E. f_equal. apply IH; lia.
Qed.
Lemma strict_ancestors_eq path :
  strict_ancestors path =
  match path_parent path with
  | Some parent => parent :: strict_ancestors parent
  | None => []
  end.
Proof.
  unfold strict_ancestors. destruct (length path) as [|n] eqn:E.
  - destruct path; [|done]. done.
  - simpl. destruct (path_parent path) as [parent|] eqn:Hp; [|done].
    apply path_parent_shorter in Hp. f_equal. apply ancestors_fuel_enough; lia.
Qed.
Lemma ancestors_ind (P : text → Prop) :
  (∀ path, (∀ parent, path_parent path = Some parent → P parent) → P path) → ∀ path, P path.
Proof.
  intros Hstep path. remember (length path) as n eqn:En. revert path En.
  induction (lt_wf n) as [n _ IH]. intros path ->. apply Hstep. intros parent Hp.
  by eapply IH; [apply path_parent_shorter|].
Qed.
Lemma ancestor_fewer_bytes path a : a ∈ strict_ancestors path → byte_len a < byte_len path.
Proof.
  induction path as [path IH] using ancestors_ind. rewrite strict_ancestors_eq.
  destruct (path_parent path) as [parent|] eqn:E; [|by intros ?%elem_of_nil].
  pose proof (path_parent_fewer_bytes _ _ E). intros [->|Ha]%elem_of_cons; [done|].
  specialize (IH parent eq_refl Ha). lia.
Qed.
(** The ancestors of an ancestor are the rest of the chain. *)
Lemma ancestors_of_ancestor path xs a ys :
  strict_ancestors path = xs ++ a :: ys → strict_ancestors a = ys.
Proof.
  revert xs. induction path as [path IH] using ancestors_ind. intros xs.
  rewrite strict_ancestors_eq. destruct (path_parent path) as [parent|] eqn:E; [|by destruct xs].
  destruct xs as [|x xs]; simpl; [by intros [= -> ->]|]. intros [= _ Hp]. by apply (IH parent eq_refl xs).
Qed.
