(* ===== verification/TextMatch.v ===== *)
(** * core/src/query.rs, [TextMatcher]: matching one text

    [matches_normalized] looks for the needle with its anchors and word
    boundaries, advancing one character after every refused occurrence.  Its
    offsets are bytes and its slices can panic ([None]); the theorem of this
    file is that it never does and finds an occurrence exactly when there is
    one that satisfies the options, overlapping ones included. *)
From S2P Require Import Prelude Text TextView QueryLex Float QueryNumber QuerySyntax FileEntry.

Section matcher.
Context `{Chrono, Unicode, Pcre, Memmem}.
Implicit Types m : TextMatcher.

Definition is_content (o : MatchOptions) : bool :=
  match target o with Some TContent => true | _ => false end.
Definition word_char m (c : N) : bool :=
  is_alphanumeric c || (is_content (options m) && (c =? 95)%N) || is_combining_mark c.
(** [option.is_some_and(word)], negated. *)
Definition not_word m (c : option N) : bool :=
  match c with Some c => negb (word_char m c) | None => true end.
(** The boundary conditions at [start..end]; the slices are taken only when an
    option asks for them. *)
Definition at_boundary m (haystack : text) (start_ stop : nat) : option bool :=
  let o := options m in
  if (negb (start o) || (start_ =? 0)) && (negb (end_ o) || (stop =? byte_len haystack)) then
    before ← (if prefix o then t ← slice_to haystack start_; Some (not_word m (last t)) else Some true);
    if (before : bool) then
      if suffix o then t ← slice_from haystack stop; Some (not_word m (head t)) else Some true
    else Some false
  else Some false.
(** The search loop.  Each turn passes a character of the haystack, so one
    more than its length is enough fuel ([occurrence_search_spec]). *)
Fixpoint occurrence_search (fuel : nat) m (haystack : text) (offset : nat) : option bool :=
  match fuel with
  | O => None
  | S fuel =>
    match finder_find (finder m) (drop offset (utf8 haystack)) with
    | None => Some false
    | Some relative =>
      let start_ := offset + relative in
      let stop := start_ + byte_len (needle m) in
      boundary ← at_boundary m haystack start_ stop;
      if (boundary : bool) then Some true
      else
        t ← slice_from haystack start_;
        match t with
        | [] => Some false
        | c :: _ => occurrence_search fuel m haystack (start_ + len_utf8 c)
        end
    end
  end.
(** [None] does not happen on text ([occurrence_search_spec]). *)
Definition matches_normalized m (haystack : text) : bool :=
  if whole (options m) then bool_decide (haystack = needle m)
  else default false (occurrence_search (S (length haystack)) m haystack 0).

Definition run_regex (r : Regex) (subject : text) : result bool :=
  match regex_is_match r (utf8 subject) with
  | Ok b => Ok b
  | Err error => Err ("PCRE2 matching failed: " ++ error)
  end.
Definition matches m (haystack : text) : result bool :=
  match matcher_regex m with
  | Some r =>
    run_regex r (if is_ascii haystack then haystack
                 else if diacritics (options m) then to_nfc haystack else strip_marks haystack)
  | None =>
    if is_ascii haystack && sensitive (options m) then Ok (matches_normalized m haystack)
    else Ok (matches_normalized m (normalized haystack (options m)))
  end.
Definition normalized_parent (path : text) : text := default [] (path_parent path).

(** ** The search is complete *)

(** The options an occurrence between [l] and [r] has to satisfy. *)
Definition occurrence_ok m (l r : text) : bool :=
  (negb (start (options m)) || bool_decide (l = [])) &&
  (negb (end_ (options m)) || bool_decide (r = [])) &&
  (negb (prefix (options m)) || not_word m (last l)) &&
  (negb (suffix (options m)) || not_word m (head r)).

Lemma byte_len_zero t : byte_len t =? 0 = bool_decide (t = []).
Proof.
  destruct t as [|c t]; [done|]. rewrite bool_decide_false by done. apply Nat.eqb_neq.
  simpl. pose proof (len_utf8_pos c). lia.
Qed.
Lemma at_boundary_spec m l r :
  at_boundary m (l ++ needle m ++ r) (byte_len l) (byte_len l + byte_len (needle m)) =
    Some (occurrence_ok m l r).
Proof.
  unfold at_boundary, occurrence_ok. rewrite byte_len_zero.
  assert (byte_len l + byte_len (needle m) =? byte_len (l ++ needle m ++ r) = bool_decide (r = [])) as ->.
  { rewrite !byte_len_app, <-byte_len_zero. apply eq_true_iff_eq. rewrite !Nat.eqb_eq. lia. }
  rewrite slice_to_app. rewrite app_assoc, <-byte_len_app, slice_from_app.
  destruct (_ && (negb (end_ _) || _)); [|done]. cbn [andb].
  destruct (prefix (options m)), (suffix (options m)); cbn [mbind option_bind negb orb];
    rewrite ?andb_true_r; try done; by destruct (not_word m (last l)).
Qed.
Definition occurs_from m (haystack : text) (l0 : text) : Prop :=
  ∃ l r, haystack = l ++ needle m ++ r ∧ occurrence_ok m l r = true ∧ length l0 ≤ length l.

Lemma occurrence_search_spec `{!MemmemLaws} m fuel l0 r0 :
  finder_needle (finder m) = utf8 (needle m) → valid_text (needle m) → valid_text (l0 ++ r0) →
  length r0 < fuel →
  ∃ b, occurrence_search fuel m (l0 ++ r0) (byte_len l0) = Some b ∧
    (b = true ↔ occurs_from m (l0 ++ r0) l0).
Proof.
  intros Hf Hn. revert l0 r0. induction fuel as [|fuel IH]; intros l0 r0 Hv Hfuel; [lia|].
  pose proof (proj2 (proj1 (Forall_app _ _ _) Hv)) as Hv0.
  cbn [occurrence_search].
  rewrite finder_find_first, Hf, utf8_app, drop_app, <-utf8_length, drop_all, Nat.sub_diag.
  rewrite drop_0, utf8_length. cbn [app].
  destruct (find_bytes (utf8 (needle m)) (utf8 r0)) as [k|] eqn:Hk.
  2:{ exists false. split; [done|]. split; [done|]. intros (l & r & Heq & _ & Hl). exfalso.
      rewrite find_bytes_None in Hk. apply app_eq_app in Heq as (u & [[-> Hu]|[-> ->]]).
      - rewrite length_app in Hl. destruct u; simpl in Hl, Hu; [|lia].
        apply (Hk [] (utf8 r)). by rewrite <-Hu, utf8_app.
      - apply (Hk (utf8 u) (utf8 r)). by rewrite !utf8_app. }
  destruct (find_bytes_Some _ _ _ Hk) as (y & Hy & Hkle & Hmin).
  assert (∃ l1 r1, r0 = l1 ++ needle m ++ r1 ∧ k = byte_len l1) as (l1 & r1 & -> & ->).
  { destruct (decide (needle m = [])) as [E|Hne].
    - exists [], r0. rewrite E. split; [done|]. specialize (Hmin [] (utf8 r0)).
      rewrite E in Hmin. simpl in *. specialize (Hmin eq_refl). lia.
    - destruct (utf8_occurrence r0 (needle m) _ _ Hv0 Hn Hne Hy) as (l1 & r1 & -> & Hx & _).
      exists l1, r1. split; [done|]. rewrite <-utf8_length, <-Hx, length_take. lia. }
  rewrite <-byte_len_app. cbv zeta.
  rewrite (app_assoc l0 l1) in *. rewrite at_boundary_spec. cbn [mbind option_bind].
  destruct (occurrence_ok m (l0 ++ l1) r1) eqn:Hok.
  { exists true. split; [done|]. split; [|done]. intros _. exists (l0 ++ l1), r1.
    split_and!; [done..|]. rewrite length_app. lia. }
  rewrite slice_from_app. cbn [option_bind].
  (* Occurrences from [l0] on are strictly after [l0 ++ l1]. *)
  assert (Hlater : ∀ l r, (l0 ++ l1) ++ needle m ++ r1 = l ++ needle m ++ r →
    occurrence_ok m l r = true → length l0 ≤ length l → length (l0 ++ l1) < length l).
  { intros l r Heq Hlr Hl. destruct (decide (length (l0 ++ l1) < length l)) as [|Hge]; [done|exfalso].
    rewrite <-app_assoc in Heq.
    assert (∃ u, l = l0 ++ u) as [u ->].
    { apply app_eq_app in Heq as (u & [[-> Hu]|[-> _]]); [|by exists u].
      rewrite length_app in Hl. destruct u; [exists []; by rewrite !app_nil_r|simpl in Hl; lia]. }
    rewrite <-app_assoc in Heq. apply app_inv_head in Heq.
    specialize (Hmin (utf8 u) (utf8 r)). rewrite Heq, !utf8_app in Hmin. specialize (Hmin eq_refl).
    rewrite utf8_length in Hmin. rewrite !length_app in Hge.
    assert (u = l1) as ->.
    { apply app_eq_app in Heq as (w & [[-> _]|[-> _]]).
      - destruct w as [|c w]; [by rewrite app_nil_r|]. rewrite byte_len_app in Hmin. simpl in Hmin.
        pose proof (len_utf8_pos c). lia.
      - rewrite length_app in Hge. destruct w; [by rewrite app_nil_r|simpl in Hge; lia]. }
    apply app_inv_head, app_inv_head in Heq as ->. congruence. }
  destruct (needle m ++ r1) as [|c t] eqn:Ht.
  - exists false. split; [done|]. split; [done|]. intros (l & r & Heq & Hlr & Hl).
    specialize (Hlater l r Heq Hlr Hl). apply (f_equal length) in Heq.
    rewrite !length_app in *. simpl in *. lia.
  - replace ((l0 ++ l1) ++ c :: t) with (((l0 ++ l1) ++ [c]) ++ t) in * by by rewrite <-app_assoc.
    cbn [mbind option_bind].
    replace (byte_len (l0 ++ l1) + len_utf8 c) with (byte_len ((l0 ++ l1) ++ [c]))
      by (rewrite (byte_len_app _ [c]); simpl; lia).
    destruct (IH ((l0 ++ l1) ++ [c]) t) as (b & -> & Hb); [done|rewrite length_app in Hfuel; simpl in Hfuel; lia|].
    exists b. split; [done|]. rewrite Hb. unfold occurs_from.
    split; intros (l & r & Heq & Hlr & Hl); exists l, r; split_and!; try done.
    + rewrite !length_app in Hl. lia.
    + specialize (Hlater l r Heq Hlr Hl). rewrite (length_app _ [c]). simpl. lia.
Qed.

(** The matcher's finder looks for its needle, and its options are the ones it
    was built with. *)
Lemma matcher_new_fields `{!MemmemLaws} s o wildcard m :
  matcher_new s o wildcard = Ok m →
  options m = o ∧ needle m = normalized s o ∧ finder_needle (finder m) = utf8 (needle m) ∧
  candidate_needle m = fold_search s ∧
  (matcher_regex m = None ↔ regex o || wildcard = false).
Proof.
  unfold matcher_new. intros (r & Hr & [= <-])%result_bind_Ok. simpl.
  split_and!; try done; [apply finder_needle_new|].
  destruct (regex o || wildcard).
  - destruct (pattern _ _); [|done]. injection Hr as <-. done.
  - by injection Hr as <-.
Qed.
Lemma matches_normalized_spec `{!MemmemLaws} m haystack :
  finder_needle (finder m) = utf8 (needle m) → valid_text (needle m) → valid_text haystack →
  is_Some (occurrence_search (S (length haystack)) m haystack 0) ∧
  (matches_normalized m haystack = true ↔
    if whole (options m) then haystack = needle m
    else ∃ l r, haystack = l ++ needle m ++ r ∧ occurrence_ok m l r = true).
Proof.
  intros Hf Hn Hv.
  destruct (occurrence_search_spec m (S (length haystack)) [] haystack Hf Hn Hv) as (b & Hb & Hspec);
    [lia|]. change (byte_len []) with 0 in Hb. simpl app in Hb.
  split; [by eexists|]. unfold matches_normalized. rewrite Hb. simpl.
  destruct (whole (options m)); [apply bool_decide_eq_true|]. rewrite Hspec. unfold occurs_from. simpl.
  split; [intros (l & r & ? & ? & _)|intros (l & r & ? & ?)]; exists l, r; split_and!; auto. lia.
Qed.

(** C18: The literal matcher misses nothing.  For a matcher built from any text
    and options, the search neither slices inside a character nor runs on, and
    accepts a text exactly when it equals the needle (whole), or contains an
    occurrence of it that satisfies the start, end, prefix and suffix options
    - any occurrence, even one overlapping an occurrence that does not. *)
Theorem matcher_complete `{!MemmemLaws} s o wildcard m haystack :
  matcher_new s o wildcard = Ok m → valid_text (normalized s o) → valid_text haystack →
  is_Some (occurrence_search (S (length haystack)) m haystack 0) ∧
  (matches_normalized m haystack = true ↔
    if whole o then haystack = normalized s o
    else ∃ l r, haystack = l ++ normalized s o ++ r ∧ occurrence_ok m l r = true).
Proof.
  intros Hm Hn Hv. destruct (matcher_new_fields s o wildcard m Hm) as (<- & Hneedle & Hf & _).
  rewrite <-Hneedle in *. by apply matches_normalized_spec.
Qed.
End matcher.
Lemma matcher_complete_witness :
  let o := set_flag (H := utc_chrono) FSuffix true (default_options 0%Z) in
  ∃ m, matcher_new (lit "aba") o false = Ok m ∧
    (matches_normalized m (lit "ababa") = true ↔
      ∃ l r, lit "ababa" = l ++ lit "aba" ++ r ∧ occurrence_ok m l r = true).
Proof.
  intros o. eexists. split; [reflexivity|].
  apply (matcher_complete (H := utc_chrono) (lit "aba") o false); [reflexivity|by_decide|by_decide].
Defined.
