(* ===== verification/QueryEval.v ===== *)
(** * core/src/query.rs, [impl Query] and [impl Term]: evaluating a query

    Evaluation threads two caches: the folded content of the row (a
    [OnceCell]) and a text buffer reused from row to row.  The state monad
    [ev] makes both explicit.  The evaluators that answer before the content,
    or before the extracted properties, are known are three-valued. *)
From S2P Require Import Prelude Text TextView QueryLex Float QueryNumber Bitmap QuerySyntax.
From S2P Require Import FileEntry TextMatch.

(** ** The evaluation state *)

Record ev_state := { folded_content : option text; scratch : text }.
Definition ev_start : ev_state := {| folded_content := None; scratch := [] |}.
Definition ev (A : Type) : Type := ev_state → result A * ev_state.
#[export] Instance ev_ret : MRet ev := λ A a st, (Ok a, st).
#[export] Instance ev_bind : MBind ev := λ A B f m st,
  match m st with
  | (Ok a, st) => f a st
  | (Err e, st) => (Err e, st)
  end.
Definition ev_lift {A} (r : result A) : ev A := λ st, (r, st).
(** [view.with_scratch(scratch, work)] *)
Definition ev_with_scratch {A} (v : TextView) (work : text → result A) : ev A := λ st,
  let '(r, scratch) := with_scratch v (scratch st) work in
  (r, {| folded_content := folded_content st; scratch := scratch |}).
(** [cell.get_or_init(f)] *)
Definition ev_get_or_init (f : text) : ev text := λ st,
  match folded_content st with
  | Some t => (Ok t, st)
  | None => (Ok f, {| folded_content := Some f; scratch := scratch st |})
  end.
Definition all_ev {A} (f : A → ev bool) : list A → ev bool :=
  fix go l := match l with
              | [] => mret true
              | x :: l => b ← f x; if (b : bool) then go l else mret false
              end.
Definition any_ev {A} (f : A → ev bool) : list A → ev bool :=
  fix go l := match l with
              | [] => mret false
              | x :: l => b ← f x; if (b : bool) then mret true else go l
              end.

Section eval.
Context `{Chrono, Unicode, Pcre, Memmem, Json} {B : Type} `{Roaring B} {F : Type} `{!FileEntry F}.
Notation Query := (Query B).
Notation Term := (QuerySyntax.Term B (QuerySyntax.Query B)).

(** relations.rs, [ResolvedPredicate::truth]: ids are cast to [u64]. *)
Definition id_u64 (file : F) : N := Z.to_N (id file mod 2 ^ 64).
Definition truth (r : ResolvedPredicate B) (file : F) : option bool :=
  let id := id_u64 file in
  if bm_contains id (yes r) then Some true
  else if bm_contains id (unknown r) then None
  else Some false.

(** ** Terms *)

Definition matches_file (m : TextMatcher) (file : F) (field : Field) : ev bool :=
  if bool_decide (matcher_regex m = None) && negb (sensitive (options m)) then
    let view :=
      match field, diacritics (options m) with
      | Name, true => view_of (folded_name file)
      | Name, false => view_of (search_name file)
      | _, true => folded_path file
      | _, false => search_path file
      end in
    ev_with_scratch view (λ t,
      Ok (matches_normalized m (if decide (field = Parent) then normalized_parent t else t)))
  else ev_with_scratch (entry_text file field) (λ t, matches m t).

Definition numeric_value (field : text) (file : F) : option f64 :=
  if is_lit field "size" then
    if is_dir file then None else Some (f64_of_Z (Z.of_N (size file)))
  else if is_lit field "modified" then Some (f64_of_Z (modified file))
  else if is_lit field "created" then Some (f64_of_Z (created file))
  else v ← json_get (properties file) field; as_f64 v.
Definition matches_numeric (t : numeric) (file : F) : bool :=
  match t with
  | Unknown field negate =>
    let unknown :=
      if is_lit field "size" then is_dir file
      else if is_any field ["modified"; "created"] then false
      else bool_decide ((v ← json_get (properties file) field; as_f64 v) = None) in
    if negate then negb unknown else unknown
  | Number field low high il ih negate =>
    match numeric_value field file with
    | Some n => let inside := in_range low high il ih n in if negate then negb inside else inside
    | None => false
    end
  end.
Definition nfc_text (t : text) : text := if is_ascii t then t else to_nfc t.
Definition property_text (file : F) (key : text) : option text :=
  v ← json_get (properties file) key; as_str v.
(** [s.contains(needle)] *)
Definition text_contains (s needle : text) : bool := found (utf8 needle) (utf8 s).

Definition term_matches (t : Term) (file : F) (content : option text) : ev bool :=
  match t with
  | TRelated _ _ => ev_lift (Err "Relationship predicates require a search snapshot")
  | TResolved r => mret (bool_decide (truth r file = Some true))
  | TFlags mask => mret (negb (N.land (flags file) mask =? 0)%N)
  | TText field _ finder sensitive =>
    if sensitive then
      ev_with_scratch (entry_text file field) (λ t, Ok (finds finder (utf8 (nfc_text t))))
    else match field with
         | Name => mret (finds finder (utf8 (search_name file)))
         | Path => mret (contains (view_utf8 (search_path file)) finder)
         | Parent => ev_with_scratch (search_path file) (λ t,
             Ok (finds finder (utf8 (normalized_parent t))))
         end
  | TPattern field r => ev_with_scratch (entry_text file field) (λ t, run_regex r (nfc_text t))
  | TMatched target m =>
    match target with
    | TField field => matches_file m file field
    | TContent => match content with Some s => ev_lift (matches m s) | None => mret false end
    | TProperty key =>
      match property_text file key with Some s => ev_lift (matches m s) | None => mret false end
    | TExtension => ev_lift (matches m (extension file))
    end
  | TExtensions extensions =>
    let wanted := if is_ascii (folded_extension file) then folded_extension file
                  else fold_search (extension file) in
    mret (existsb (λ e, bool_decide (e = wanted)) extensions)
  | TIsDir dir => mret (Bool.eqb (is_dir file) dir)
  | TIsSymlink => mret (is_symlink file)
  | THidden => mret (starts_with (lit ".") (name file) || negb (N.land (flags file) 0x8000 =? 0)%N)
  | TContentText needle sensitive =>
    mret match content with
         | Some s => text_contains (if sensitive then to_nfc s else fold_search s) needle
         | None => false
         end
  | TPropertyText key needle =>
    mret match property_text file key with
         | Some s => text_contains (fold_search s) needle
         | None => false
         end
  | TNumeric n => mret (matches_numeric n file)
  end.

(** ** Queries *)

(** The content terms that use the folded content of the row. *)
Definition folded_term (t : Term) : option (text → bool) :=
  match t with
  | TContentText needle false => Some (λ body, text_contains body needle)
  | TMatched TContent m =>
    if bool_decide (matcher_regex m = None) && negb (sensitive (options m)) &&
       negb (diacritics (options m))
    then Some (matches_normalized m) else None
  | _ => None
  end.
Fixpoint matches_inner (q : Query) (file : F) (content : option text) : ev bool :=
  match q with
  | All => mret true
  | QAnd queries => all_ev (λ q, matches_inner q file content) queries
  | QOr queries => any_ev (λ q, matches_inner q file content) queries
  | QNot q => b ← matches_inner q file content; mret (negb b)
  | QTerm t =>
    match folded_term t with
    | Some f =>
      match content with
      | Some body => t ← ev_get_or_init (fold_search body); mret (f t)
      | None => mret false
      end
    | None => term_matches t file content
    end
  end.

Fixpoint requires_relations (q : Query) : bool :=
  match q with
  | QTerm (TRelated _ _) | QTerm (TResolved _) => true
  | QTerm (TNumeric (Number field _ _ _ _ _)) | QTerm (TNumeric (Unknown field _)) => is_metric field
  | QAnd queries | QOr queries => existsb requires_relations queries
  | QNot q => requires_relations q
  | _ => false
  end.
Fixpoint requires_content (q : Query) : bool :=
  match q with
  | QTerm (TRelated _ q) => requires_content q
  | QTerm (TContentText _ _) | QTerm (TMatched TContent _) => true
  | QAnd queries | QOr queries => existsb requires_content queries
  | QNot q => requires_content q
  | _ => false
  end.
Fixpoint requires_properties (q : Query) : bool :=
  match q with
  | QTerm (TRelated _ q) => requires_properties q
  | QTerm (TPropertyText _ _) | QTerm (TMatched (TProperty _) _) => true
  | QTerm (TNumeric (Number field _ _ _ _ _)) | QTerm (TNumeric (Unknown field _)) =>
    numeric_property field
  | QAnd queries | QOr queries => existsb requires_properties queries
  | QNot q => requires_properties q
  | _ => false
  end.
Fixpoint may_depend_on_clock (q : Query) : bool :=
  match q with
  | QTerm (TRelated _ q) => may_depend_on_clock q
  | QTerm (TNumeric (Number field _ _ _ _ _)) => is_any field ["modified"; "created"]
  | QAnd queries | QOr queries => existsb may_depend_on_clock queries
  | QNot q => may_depend_on_clock q
  | _ => false
  end.

(** [for child in children]: [and] is the value that does not decide. *)
Definition kleene {A} (and : bool) (f : A → result (option bool)) : list A → bool → result (option bool) :=
  fix go l unknown :=
    match l with
    | [] => Ok (if (unknown : bool) then None else Some and)
    | x :: l =>
      v ← f x;
      match v with
      | Some value => if Bool.eqb value and then go l unknown else Ok (Some (negb and))
      | None => go l true
      end
    end.
Definition negate_truth (v : option bool) : option bool := option_map negb v.
Definition lacks_property (file : F) (t : Term) : bool :=
  match t with
  | TPropertyText key _ | TMatched (TProperty key) _ =>
    match json_get (properties file) key with None => true | Some _ => false end
  | TNumeric (Number field _ _ _ _ _) =>
    numeric_property field &&
    match (v ← json_get (properties file) field; as_f64 v) with None => true | Some _ => false end
  | _ => false
  end.
Fixpoint indexed_truth (q : Query) (file : F) (content : option text) : result (option bool) :=
  match q with
  | QAnd queries => kleene true (λ q, indexed_truth q file content) queries false
  | QOr queries => kleene false (λ q, indexed_truth q file content) queries false
  | QNot q => v ← indexed_truth q file content; Ok (negate_truth v)
  | QTerm (TResolved r) => Ok (truth r file)
  | QTerm (TRelated _ _) => Err "Relationship predicates require a search snapshot"
  | All => b ← (matches_inner q file content ev_start).1; Ok (Some b)
  | QTerm t =>
    if lacks_property file t then Ok None
    else if bool_decide (content = None) && requires_content q then Ok None
    else b ← (matches_inner q file content ev_start).1; Ok (Some b)
  end.
Definition query_matches (q : Query) (file : F) (content : option text) : result bool :=
  if requires_relations q then
    v ← indexed_truth q file content; Ok (bool_decide (v = Some true))
  else (matches_inner q file content ev_start).1.

Fixpoint metadata_truth (q : Query) (file : F) : result (option bool) :=
  match q with
  | QTerm (TRelated _ _) => Ok None
  | QTerm (TResolved r) => Ok (truth r file)
  | All => Ok (Some true)
  | QTerm (TContentText _ _) | QTerm (TMatched TContent _) => Ok None
  | QTerm t => b ← (term_matches t file None ev_start).1; Ok (Some b)
  | QNot q => v ← metadata_truth q file; Ok (negate_truth v)
  | QAnd queries => kleene true (λ q, metadata_truth q file) queries false
  | QOr queries => kleene false (λ q, metadata_truth q file) queries false
  end.
Definition may_match_without_content (q : Query) (file : F) : result bool :=
  v ← metadata_truth q file; Ok (negb (bool_decide (v = Some false))).
Definition extracted_field (t : Term) : bool :=
  match t with
  | TContentText _ _ | TPropertyText _ _ | TMatched TContent _ | TMatched (TProperty _) _ => true
  | TNumeric (Number field _ _ _ _ _) | TNumeric (Unknown field _) => numeric_property field
  | _ => false
  end.
Fixpoint extraction_truth (q : Query) (file : F) : result (option bool) :=
  match q with
  | QTerm (TRelated _ _) => Ok None
  | QTerm (TResolved r) => Ok (truth r file)
  | QTerm t =>
    if extracted_field t then Ok None
    else b ← query_matches q file None; Ok (Some b)
  | QAnd queries => kleene true (λ q, extraction_truth q file) queries false
  | QOr queries => kleene false (λ q, extraction_truth q file) queries false
  | QNot q => v ← extraction_truth q file; Ok (negate_truth v)
  | All => b ← query_matches q file None; Ok (Some b)
  end.
Definition may_match_before_extraction (q : Query) (file : F) : result bool :=
  v ← extraction_truth q file; Ok (negb (bool_decide (v = Some false))).
Definition query_matches_available (q : Query) (file : F) (content : option text) : result bool :=
  if bool_decide (content = None) && requires_content q then
    v ← metadata_truth q file; Ok (bool_decide (v = Some true))
  else query_matches q file content.

(** ** The reusable row evaluator *)

Record QueryEvaluator := {
  e_query : Query;
  needs_content : bool;
  needs_relations : bool;
  e_scratch : text;
}.
(** [TextScratch::acquire] hands out a pooled buffer, cleared. *)
Definition evaluator (q : Query) : QueryEvaluator :=
  {| e_query := q; needs_content := requires_content q; needs_relations := requires_relations q;
     e_scratch := [] |}.
Definition evaluator_matches (e : QueryEvaluator) (file : F) (content : option text) :
    result bool * QueryEvaluator :=
  if bool_decide (content = None) && needs_content e then
    (v ← metadata_truth (e_query e) file; Ok (bool_decide (v = Some true)), e)
  else if needs_relations e then
    (v ← indexed_truth (e_query e) file content; Ok (bool_decide (v = Some true)), e)
  else
    let '(r, st) := matches_inner (e_query e) file content
                      {| folded_content := None; scratch := e_scratch e |} in
    (r, {| e_query := e_query e; needs_content := needs_content e;
           needs_relations := needs_relations e; e_scratch := scratch st |}).
(** A scan: the rows in order, with the one evaluator. *)
Fixpoint evaluate_rows (e : QueryEvaluator) (rows : list (F * option text)) : list (result bool) :=
  match rows with
  | [] => []
  | (file, content) :: rows =>
    let '(r, e) := evaluator_matches e file content in r :: evaluate_rows e rows
  end.

(** ** Evaluation without caches *)

Definition term_value (t : Term) (file : F) (content : option text) : result bool :=
  (term_matches t file content ev_start).1.
Definition all_result {A} (f : A → result bool) : list A → result bool :=
  fix go l := match l with
              | [] => Ok true
              | x :: l => b ← f x; if (b : bool) then go l else Ok false
              end.
Definition any_result {A} (f : A → result bool) : list A → result bool :=
  fix go l := match l with
              | [] => Ok false
              | x :: l => b ← f x; if (b : bool) then Ok true else go l
              end.
(** The meaning of a query on a file with a given content, if any. *)
Fixpoint denote (q : Query) (file : F) (content : option text) : result bool :=
  match q with
  | All => Ok true
  | QAnd queries => all_result (λ q, denote q file content) queries
  | QOr queries => any_result (λ q, denote q file content) queries
  | QNot q => b ← denote q file content; Ok (negb b)
  | QTerm t => term_value t file content
  end.

(** What the cell may hold on a row with this content. *)
Definition cell_ok (content : option text) (st : ev_state) : Prop :=
  ∀ t, folded_content st = Some t → ∃ body, content = Some body ∧ t = fold_search body.
Definition pure (content : option text) (m : ev bool) (r : result bool) : Prop :=
  ∀ st, cell_ok content st → (m st).1 = r ∧ cell_ok content (m st).2.

Lemma pure_ret content b : pure content (mret b) (Ok b).
Proof. by intros st Hst. Qed.
Lemma pure_lift content r : pure content (ev_lift r) r.
Proof. by intros st Hst. Qed.
Lemma pure_bind content (m : ev bool) (f : bool → ev bool) r g :
  pure content m r → (∀ b, pure content (f b) (g b)) → pure content (m ≫= f) (r ≫= g).
Proof.
  intros Hm Hf st Hst. unfold mbind, ev_bind. destruct (Hm st Hst) as [Hr Hst'].
  destruct (m st) as [[b|e] st']; simpl in *; subst r; [by apply Hf|done].
Qed.
Lemma with_scratch_value {R} v buffer (work : bytes → R) :
  (with_scratch v buffer work).1 = work (view_bytes v).
Proof.
  unfold with_scratch, view_bytes. case_bool_decide as Hp; [by rewrite Hp|].
  case_bool_decide as Hs; [by rewrite Hs, app_nil_r|]. done.
Qed.
Lemma pure_with_scratch content v work : pure content (ev_with_scratch v work) (work (view_bytes v)).
Proof.
  intros st Hst. unfold ev_with_scratch. pose proof (with_scratch_value v (scratch st) work) as Hv.
  destruct (with_scratch v (scratch st) work) as [r buffer]. done.
Qed.
Lemma ev_with_scratch_value {A} v (work : text → result A) st :
  (ev_with_scratch v work st).1 = work (view_bytes v).
Proof.
  unfold ev_with_scratch. rewrite <-(with_scratch_value v (scratch st) work).
  by destruct (with_scratch v (scratch st) work).
Qed.

Lemma matches_file_pure content m file field :
  ∃ r, pure content (matches_file m file field) r.
Proof. unfold matches_file. case_match; eexists; apply pure_with_scratch. Qed.
Lemma term_matches_pure t file content : pure content (term_matches t file content) (term_value t file content).
Proof.
  assert (Hex : ∃ r, pure content (term_matches t file content) r).
  { destruct t as [field n finder []|field r| | | | | | | | | | |target m]; simpl;
      try (eexists; apply pure_ret || apply pure_lift || apply pure_with_scratch).
    - destruct field; eexists; apply pure_ret || apply pure_with_scratch.
    - destruct target; [apply matches_file_pure|..]; try (case_match);
        eexists; apply pure_ret || apply pure_lift. }
  destruct Hex as [r Hr]. assert (term_value t file content = r) as ->; [|done].
  apply (Hr ev_start). by intros u [=].
Qed.
(** The shortcut on folded content is the term itself. *)
Lemma folded_term_value t f file content :
  folded_term t = Some f →
  term_value t file content = Ok match content with Some body => f (fold_search body) | None => false end.
Proof.
  unfold term_value. destruct t as [| | | | | | | | | |needle []| |[] m]; simpl; try done.
  - intros [= <-]. by destruct content.
  - destruct (bool_decide (matcher_regex m = None)) eqn:Hr; [|done].
    rewrite bool_decide_eq_true in Hr.
    destruct (sensitive (options m)) eqn:Hs, (diacritics (options m)) eqn:Hd; try done.
    intros [= <-]. destruct content as [body|]; [|done]. simpl. unfold ev_lift. simpl.
    unfold matches. rewrite Hr, Hs, andb_false_r. do 2 f_equal.
    unfold normalized, fold_search. rewrite Hs, Hd. done.
Qed.
Lemma all_ev_pure {A} content (f : A → ev bool) g l :
  Forall (λ x, pure content (f x) (g x)) l → pure content (all_ev f l) (all_result g l).
Proof.
  induction 1 as [|x l Hx Hl IH]; [apply pure_ret|]. simpl. apply pure_bind; [done|].
  intros []; [apply IH|apply pure_ret].
Qed.
Lemma any_ev_pure {A} content (f : A → ev bool) g l :
  Forall (λ x, pure content (f x) (g x)) l → pure content (any_ev f l) (any_result g l).
Proof.
  induction 1 as [|x l Hx Hl IH]; [apply pure_ret|]. simpl. apply pure_bind; [done|].
  intros []; [apply pure_ret|apply IH].
Qed.
Lemma matches_inner_pure q file content :
  pure content (matches_inner q file content) (denote q file content).
Proof.
  assert (Hterm : ∀ t, pure content (matches_inner (QTerm t) file content)
    (denote (QTerm t) file content)).
  { intros t. simpl. destruct (folded_term t) as [f|] eqn:Hf; [|apply term_matches_pure].
    rewrite (folded_term_value t f file content Hf).
    destruct content as [body|]; [|apply pure_ret]. intros st Hst.
    unfold mbind, ev_bind, ev_get_or_init.
    destruct (folded_content st) as [u|] eqn:Hu; simpl.
    - destruct (Hst u Hu) as (body' & [= <-] & ->). done.
    - split; [done|]. intros u [= <-]. by exists body. }
  induction q as [|queries IH|queries IH|q IH|recursive q _|t _] using query_induction;
    [apply pure_ret|by apply all_ev_pure|by apply any_ev_pure| |apply Hterm|apply Hterm].
  simpl. apply (pure_bind content _ (λ b, mret (negb b)) _ (λ b, Ok (negb b))); [done|]. intros. apply pure_ret.
Qed.
Lemma matches_inner_value q file content st :
  cell_ok content st → (matches_inner q file content st).1 = denote q file content.
Proof. apply matches_inner_pure. Qed.
Lemma cell_empty content buffer : cell_ok content {| folded_content := None; scratch := buffer |}.
Proof. by intros u [=]. Qed.

Definition evaluator_at (q : Query) (buffer : text) : QueryEvaluator :=
  {| e_query := q; needs_content := requires_content q; needs_relations := requires_relations q;
     e_scratch := buffer |}.
Lemma evaluator_matches_value q buffer file content :
  ∃ buffer', evaluator_matches (evaluator_at q buffer) file content =
    (query_matches_available q file content, evaluator_at q buffer').
Proof.
  unfold evaluator_matches, query_matches_available, query_matches. simpl.
  destruct (bool_decide (content = None) && requires_content q); [by eexists|].
  destruct (requires_relations q) eqn:Hrel; [exists buffer; unfold evaluator_at; by rewrite Hrel|].
  rewrite (matches_inner_value q file content ev_start) by exact (cell_empty content []).
  rewrite <-(matches_inner_value q file content {| folded_content := None; scratch := buffer |})
    by exact (cell_empty content buffer).
  destruct (matches_inner q file content _) as [r st]. exists (scratch st).
  unfold evaluator_at. by rewrite Hrel.
Qed.

(** C14: The reusable evaluator is the query.  Scanning any rows with one
    [QueryEvaluator], whose execution flags are computed once and whose text
    buffer carries over from row to row, gives on each row exactly what
    [Query::matches_available] gives on that row alone; and evaluating with the
    row's folded-content cell is evaluating the query without any cache. *)
Theorem evaluator_is_query q rows :
  evaluate_rows (evaluator q) rows = (λ row, query_matches_available q row.1 row.2) <$> rows ∧
  ∀ file content, (matches_inner q file content ev_start).1 = denote q file content.
Proof.
  split; [|intros; by apply matches_inner_value].
  change (evaluator q) with (evaluator_at q []). generalize (@nil N) as buffer.
  induction rows as [|[file content] rows IH]; intros buffer; [done|].
  cbn [evaluate_rows]. rewrite fmap_cons.
  destruct (evaluator_matches_value q buffer file content) as [buffer' ->]. by rewrite IH.
Qed.

(** ** Answers before everything is known *)

(** [v], if known, is the two-valued result [r], if there is one. *)
Definition agrees (v : result (option bool)) (r : result bool) : Prop :=
  ∀ b b', v = Ok (Some b) → r = Ok b' → b = b'.
Lemma agrees_not v r :
  agrees v r → agrees (v ← v; Ok (negate_truth v)) (b ← r; Ok (negb b)).
Proof.
  intros Ha b b'. destruct v as [[c|]|], r as [c'|]; simpl; try done.
  intros [= <-] [= <-]. f_equal. by apply Ha.
Qed.
Lemma kleene_all {A} (f : A → result (option bool)) g l u :
  Forall (λ x, agrees (f x) (g x)) l → agrees (kleene true f l u) (all_result g l).
Proof.
  intros Hl. revert u. induction Hl as [|x l Hx Hl IH]; intros u b b'; simpl.
  - by destruct u; intros [= <-] [= <-].
  - specialize (Hx : agrees _ _). destruct (g x) as [bx|] eqn:Hg; [|by destruct (f x)].
    destruct (f x) as [[[]|]|] eqn:Hf; simpl; try done.
    + rewrite <-(Hx true bx) by done. apply IH.
    + rewrite <-(Hx false bx) by done. by intros [= <-] [= <-].
    + intros Hk. destruct bx; [by apply (IH true)|]. intros [= <-].
      clear -Hk. induction l as [|y l IHl]; simpl in Hk; [done|].
      destruct (f y) as [[[]|]|]; simpl in Hk; try done; [by apply IHl|by injection Hk|by apply IHl].
Qed.
Lemma kleene_any {A} (f : A → result (option bool)) g l u :
  Forall (λ x, agrees (f x) (g x)) l → agrees (kleene false f l u) (any_result g l).
Proof.
  intros Hl. revert u. induction Hl as [|x l Hx Hl IH]; intros u b b'; simpl.
  - by destruct u; intros [= <-] [= <-].
  - specialize (Hx : agrees _ _). destruct (g x) as [bx|] eqn:Hg; [|by destruct (f x)].
    destruct (f x) as [[[]|]|] eqn:Hf; simpl; try done.
    + rewrite <-(Hx true bx) by done. by intros [= <-] [= <-].
    + rewrite <-(Hx false bx) by done. apply IH.
    + intros Hk. destruct bx; [|by apply (IH true)]. intros [= <-].
      clear -Hk. induction l as [|y l IHl]; simpl in Hk; [done|].
      destruct (f y) as [[[]|]|]; simpl in Hk; try done; [by injection Hk|by apply IHl|by apply IHl].
Qed.
Lemma agrees_same (r : result bool) : agrees (b ← r; Ok (Some b)) r.
Proof. intros b b' Hv ->. by injection Hv. Qed.

Definition content_term (t : Term) : bool :=
  match t with TContentText _ _ | TMatched TContent _ => true | _ => false end.
Lemma term_value_content t file c c' :
  content_term t = false → term_value t file c = term_value t file c'.
Proof. by destruct t as [| | | | | | | | | | | |[] m]. Qed.
Lemma truth_agrees r file content : agrees (Ok (truth r file)) (term_value (TResolved r) file content).
Proof.
  intros b b' [= Ht]. unfold term_value. simpl. rewrite Ht. intros [= <-]. by destruct b.
Qed.
Lemma metadata_truth_agrees q file content : agrees (metadata_truth q file) (denote q file content).
Proof.
  induction q as [|queries IH|queries IH|q IH|recursive q _|t Ht] using query_induction.
  - by intros b b' [= <-] [= <-].
  - by apply kleene_all.
  - by apply kleene_any.
  - by apply agrees_not.
  - by intros b b' [=].
  - destruct (content_term t) eqn:Hc.
    { by destruct t as [| | | | | | | | | | | |[] m]; try done; intros b b' [=]. }
    change (denote (QTerm t) file content) with (term_value t file content).
    rewrite (term_value_content t file content None Hc).
    destruct t as [| |recursive q|r| | | | | | | | |[] m];
      try apply agrees_same; [by destruct (Ht recursive q)|apply truth_agrees|done|done].
Qed.

(** Answers given before the content is read are right.  A query that
    [matches_available] reports as matching without the content matches
    whatever the content turns out to be, and one that cannot match without
    it does not match with it. *)
Theorem available_without_content q file body b :
  denote q file (Some body) = Ok b →
  (requires_content q = true → query_matches_available q file None = Ok true → b = true) ∧
  (may_match_without_content q file = Ok false → b = false).
Proof.
  intros Hd. pose proof (metadata_truth_agrees q file (Some body)) as Ha. split.
  - intros Hrc. unfold query_matches_available. rewrite Hrc, bool_decide_true by done. simpl.
    destruct (metadata_truth q file) as [v|]; [|done]. intros [= Hv].
    rewrite bool_decide_eq_true in Hv. subst v. symmetry. by apply Ha.
  - unfold may_match_without_content. destruct (metadata_truth q file) as [v|]; [|done].
    intros [= Hv]. rewrite negb_false_iff, bool_decide_eq_true in Hv. subst v.
    symmetry. by apply Ha.
Qed.

(** The same file before and after extraction: only the properties differ. *)
Definition same_metadata (f g : F) : Prop :=
  id f = id g ∧ size f = size g ∧ modified f = modified g ∧ created f = created g ∧
  flags f = flags g ∧ path f = path g ∧ name f = name g ∧ folded_name f = folded_name g ∧
  folded_path f = folded_path g ∧ search_name f = search_name g ∧ search_path f = search_path g ∧
  parent f = parent g ∧ extension f = extension g ∧ folded_extension f = folded_extension g ∧
  is_dir f = is_dir g ∧ is_symlink f = is_symlink g.
(** The numeric fields of a query once its directory metrics are resolved
    (relations.rs replaces every metric term by a resolved predicate). *)
Definition known_field (field : text) : bool :=
  is_any field ["size"; "modified"; "created"] || numeric_property field.
Fixpoint known_fields (q : Query) : bool :=
  match q with
  | QAnd queries | QOr queries => forallb known_fields queries
  | QNot q => known_fields q
  | QTerm (TNumeric (Number field _ _ _ _ _)) | QTerm (TNumeric (Unknown field _)) => known_field field
  | _ => true
  end.

Lemma metadata_field field :
  known_field field = true → numeric_property field = false →
  is_lit field "size" = true ∨ is_lit field "modified" = true ∨ is_lit field "created" = true.
Proof.
  unfold known_field. intros Hk Hn. rewrite Hn, orb_false_r in Hk. unfold is_any in Hk. simpl in Hk.
  rewrite !orb_true_iff in Hk. intuition done.
Qed.
Lemma term_value_metadata t f g content :
  same_metadata f g → extracted_field t = false → known_fields (QTerm t) = true →
  term_value t f None = term_value t g content.
Proof.
  intros (Hid & Hsize & Hmod & Hcre & Hfl & Hpath & Hname & Hfn & Hfp & Hsn & Hsp & Hpar & Hext & Hfe & Hdir & Hsym).
  unfold term_value. intros He Hk.
  destruct t as [field n finder []|field r|recursive q|r| | | | | |[field neg|field low high il ih neg]| | |[field| | |] m];
    simpl in *; try done; unfold truth, id_u64, matches_file, entry_text;
    rewrite ?Hid, ?Hfl, ?Hname, ?Hsn, ?Hfe, ?Hext, ?Hdir, ?Hsym; try done.
  - destruct field; simpl; by rewrite ?ev_with_scratch_value, ?Hname, ?Hpath, ?Hpar.
  - destruct field; simpl; by rewrite ?Hsp.
  - destruct field; simpl; by rewrite ?Hname, ?Hpath, ?Hpar.
  - destruct (metadata_field field Hk He) as [E|[E|E]]; apply is_lit_true in E; subst field;
      unfold matches_numeric; simpl; by rewrite ?Hdir.
  - destruct (metadata_field field Hk He) as [E|[E|E]]; apply is_lit_true in E; subst field;
      unfold matches_numeric, numeric_value; simpl; by rewrite ?Hdir, ?Hsize, ?Hmod, ?Hcre.
  - destruct (_ && _), field, (diacritics (options m)); simpl;
      by rewrite ?Hfn, ?Hsn, ?Hfp, ?Hsp, ?Hname, ?Hpath, ?Hpar.
Qed.
Lemma known_term_not_metric t :
  known_fields (QTerm t) = true → extracted_field t = false →
  (∀ recursive q, t ≠ TRelated recursive q) → (∀ r, t ≠ TResolved r) →
  requires_relations (QTerm t) = false.
Proof.
  intros Hk He Hr Hres. destruct t as [| |recursive q|r| | | | | |[field neg|field low high il ih neg]| | |];
    try done; [by destruct (Hr recursive q)|by destruct (Hres r)|..]; simpl in *;
    destruct (metadata_field field Hk He) as [E|[E|E]]; apply is_lit_true in E; by subst field.
Qed.
Lemma extraction_truth_agrees q f g content :
  same_metadata f g → known_fields q = true →
  agrees (extraction_truth q f) (denote q g content).
Proof.
  intros Hsame. assert (Hgo : ∀ queries : list Query,
    Forall (λ q, known_fields q = true → agrees (extraction_truth q f) (denote q g content)) queries →
    forallb known_fields queries = true →
    Forall (λ q, agrees (extraction_truth q f) (denote q g content)) queries).
  { induction 1 as [|q' queries Hq _ IH]; simpl; [done|]. intros [??]%andb_true_iff. auto. }
  induction q as [|queries IH|queries IH|q IH|recursive q _|t Ht] using query_induction; intros Hk.
  - by intros b b' [= <-] [= <-].
  - apply kleene_all. by apply Hgo.
  - apply kleene_any. by apply Hgo.
  - by apply agrees_not, IH.
  - by intros b b' [=].
  - change (denote (QTerm t) g content) with (term_value t g content).
    assert (Hterm : (∀ r, t ≠ TResolved r) → extracted_field t = false →
      agrees (b ← query_matches (QTerm t) f None; Ok (Some b)) (term_value t g content)).
    { intros Hres He. rewrite <-(term_value_metadata t f g content Hsame He Hk).
      unfold query_matches. rewrite (known_term_not_metric t Hk He Ht Hres).
      rewrite (matches_inner_value (QTerm t) f None ev_start) by exact (cell_empty None []).
      apply agrees_same. }
    assert (Hcases : (∃ r, t = TResolved r) ∨ ((∀ r, t ≠ TResolved r) ∧
      extraction_truth (QTerm t) f = if extracted_field t then Ok None
        else (b ← query_matches (QTerm t) f None; Ok (Some b)))).
    { destruct t as [| |recursive q'|r| | | | | | | | |];
        try (right; split; [by intros r|done]); [by destruct (Ht recursive q')|left; by exists r]. }
    destruct Hcases as [[r ->]|[Hres ->]].
    + pose proof (truth_agrees r g content) as Ha. simpl. unfold truth, id_u64 in *.
      destruct Hsame as [-> _]. exact Ha.
    + destruct (extracted_field t) eqn:He; [by intros b b' [=]|by apply Hterm].
Qed.

(** Answers given before extraction are right.  For a query whose metrics
    are resolved, if the file with its indexed metadata is judged not to match
    whatever extraction finds, then it does not match with any properties and
    any content; and if it is judged to match, it does. *)
Theorem extraction_hint_sound q f g content b :
  same_metadata f g → known_fields q = true → denote q g content = Ok b →
  (may_match_before_extraction q f = Ok false → b = false) ∧
  (extraction_truth q f = Ok (Some true) → b = true).
Proof.
  intros Hs Hk Hd. pose proof (extraction_truth_agrees q f g content Hs Hk) as Ha. split.
  - unfold may_match_before_extraction. destruct (extraction_truth q f) as [v|]; [|done].
    intros [= Hv]. rewrite negb_false_iff, bool_decide_eq_true in Hv. subst v.
    symmetry. by apply Ha.
  - intros Ht. symmetry. by apply Ha.
Qed.

(** ** Narrowing by required literals *)

(** The literals pushed to [out], in order. *)
Fixpoint required_name_literals (q : Query) : list text :=
  match q with
  | QTerm (TText Name needle _ false) => if 3 <=? byte_len needle then [needle] else []
  | QTerm (TMatched (TField Name) m) =>
    if bool_decide (matcher_regex m = None) && (3 <=? byte_len (candidate_needle m))
    then [candidate_needle m] else []
  | QAnd queries => queries ≫= required_name_literals
  | _ => []
  end.
(** [path_substring]: the finder of a query that is one path substring, and
    the text it is searched in. *)
Inductive PathTextMode := Search | Folded | Sensitive (diacritics : bool).
Definition path_normalize (mode : PathTextMode) (t : text) : text :=
  match mode with
  | Sensitive diacritics =>
    if is_ascii t then t else if diacritics then to_nfc t else strip_marks t
  | _ => t
  end.
Definition path_substring (q : Query) : option (Finder * PathTextMode) :=
  match q with
  | QTerm (TText Path _ finder sensitive) =>
    Some (finder, if sensitive then Sensitive true else Search)
  | QTerm (TMatched (TField Path) m) =>
    let o := options m in
    if bool_decide (matcher_regex m = None) && negb (prefix o) && negb (suffix o) &&
       negb (whole o) && negb (start o) && negb (end_ o)
    then Some (finder m,
      if sensitive o then Sensitive (diacritics o) else if diacritics o then Folded else Search)
    else None
  | _ => None
  end.

(** An entry whose derived names are those of its name (entry_table.rs). *)
Definition folded_entry (file : F) : Prop :=
  search_name file = fold_search (name file) ∧ folded_name file = fold (name file).
(** The documented behaviour of normalization and case folding on ASCII: it is
    its own decomposition and composition, does not compose with anything but
    marks, and is lower-cased by folding; folding gives ASCII to the base of a
    letter, with or without its marks. *)
Class UnicodeAscii : Prop := {
  ascii_not_mark c : (c < 128)%N → is_combining_mark c = false;
  nfd_of_nfc t : to_nfd (to_nfc t) = to_nfd t;
  ascii_nfd x a y : is_ascii a = true → a ≠ [] → to_nfd (x ++ a ++ y) = to_nfd x ++ a ++ to_nfd y;
  ascii_nfc x a y : is_ascii a = true → a ≠ [] → Forall (λ c, is_combining_mark c = false) y →
    to_nfc (x ++ a ++ y) = to_nfc x ++ a ++ to_nfc y;
  fold_string_app x y : fold_string (x ++ y) = fold_string x ++ fold_string y;
  fold_string_ascii a : is_ascii a = true → fold_string a = to_ascii_lowercase a;
  fold_keeps_ascii a t : is_ascii a = true → (∃ l r, fold t = l ++ a ++ r) → ∃ l r, fold (strip_marks t) = l ++ a ++ r;
}.
(** A query whose literals are those that narrowing may require.  The literal
    of a matcher is folded for searching, without marks and recomposed; a
    matcher that compares case or diacritics reads the name in another form,
    and only ASCII operands are in every form the same.  With other operands
    of these matchers, narrowing loses matches ([narrowing_loses_composed] in
    SnapshotQuery). *)
Fixpoint narrowable (q : Query) : Prop :=
  match q with
  | QAnd queries | QOr queries => foldr (λ q P, narrowable q ∧ P) True queries
  | QTerm (TMatched (TField Name) m) =>
    ∃ s wildcard, matcher_new s (options m) wildcard = Ok m ∧
      (matcher_regex m ≠ None ∨ is_ascii s = true ∨ sensitive (options m) = false ∧ diacritics (options m) = false)
  | _ => True
  end.
(** The finders of the plain literals. *)
Fixpoint plain_finders (q : Query) : Prop :=
  match q with
  | QAnd queries => foldr (λ q P, plain_finders q ∧ P) True queries
  | QTerm (TText _ needle finder _) => finder_needle finder = utf8 needle
  | _ => True
  end.

Lemma is_ascii_app a b : is_ascii (a ++ b) = is_ascii a && is_ascii b.
Proof. apply forallb_app. Qed.
Lemma ascii_valid t : is_ascii t = true → valid_text t.
Proof.
  unfold is_ascii, valid_text, scalar_bound. rewrite forallb_forall, Forall_forall.
  intros Ht c Hc%list_elem_of_In. specialize (Ht c Hc). apply N.ltb_lt in Ht. lia.
Qed.
Lemma ascii_lower t : is_ascii t = true → is_ascii (to_ascii_lowercase t) = true.
Proof.
  unfold is_ascii, to_ascii_lowercase. rewrite !forallb_forall. intros Ht c Hc.
  apply list_elem_of_In, list_elem_of_fmap in Hc as (d & -> & Hd%list_elem_of_In).
  specialize (Ht d Hd). apply N.ltb_lt in Ht. apply N.ltb_lt.
  unfold to_ascii_lowercase_char. case_match eqn:E; [|done].
  rewrite andb_true_iff, !N.leb_le in E. lia.
Qed.
Lemma text_contains_infix l n r : text_contains (l ++ n ++ r) n = true.
Proof. apply found_spec. exists (utf8 l), (utf8 r). by rewrite !utf8_app. Qed.
Lemma text_contains_lower h n :
  is_ascii h = true → valid_text n → (∃ l r, h = l ++ n ++ r) →
  text_contains (to_ascii_lowercase h) (to_ascii_lowercase n) = true.
Proof.
  intros _ _ (l & r & ->). rewrite !to_ascii_lowercase_app. apply text_contains_infix.
Qed.

Lemma occurrence_search_found `{!MemmemLaws} m fuel h offset :
  finder_needle (finder m) = utf8 (needle m) → occurrence_search fuel m h offset = Some true →
  found (utf8 (needle m)) (utf8 h) = true.
Proof.
  intros Hf. revert offset. induction fuel as [|fuel IH]; intros offset; cbn [occurrence_search]; [done|].
  rewrite finder_find_first, Hf. destruct (find_bytes (utf8 (needle m)) (drop offset (utf8 h))) as [relative|] eqn:E; [|done].
  intros _. assert (Hd : found (utf8 (needle m)) (drop offset (utf8 h)) = true) by (unfold found; by rewrite E).
  apply found_spec in Hd as (x & y & Hd). apply found_spec. exists (take offset (utf8 h) ++ x), y.
  by rewrite <-app_assoc, <-Hd, take_drop.
Qed.
(** Whatever its options ask for, a match contains the needle. *)
Lemma matches_normalized_found `{!MemmemLaws} m h :
  finder_needle (finder m) = utf8 (needle m) → matches_normalized m h = true → text_contains h (needle m) = true.
Proof.
  intros Hf. unfold matches_normalized, text_contains. destruct (whole (options m)).
  - intros ->%bool_decide_eq_true. apply found_spec. exists [], []. by rewrite app_nil_r.
  - destruct (occurrence_search _ m h 0) as [[]|] eqn:E; simpl; [|done..]. intros _. by eapply occurrence_search_found.
Qed.
(** An ASCII byte is an ASCII character. *)
Lemma encode_ascii c : (∃ b, encode_utf8 c = [b] ∧ b = c ∧ c < 128)%N ∨ Forall (λ b, 128 ≤ b)%N (encode_utf8 c).
Proof.
  unfold encode_utf8. destruct (N.ltb_spec c 128); [left; by exists c|right].
  repeat case_match; repeat constructor; lia.
Qed.
Lemma ascii_prefix s h y : is_ascii s = true → utf8 h = utf8 s ++ y → ∃ r, h = s ++ r.
Proof.
  revert h. induction s as [|c s IH]; intros h Hs Hh; [by exists h|].
  apply andb_true_iff in Hs as [Hc%N.ltb_lt Hs]. rewrite utf8_cons in Hh.
  assert (Henc : encode_utf8 c = [c]) by (unfold encode_utf8; by rewrite (proj2 (N.ltb_lt _ _) Hc)). rewrite Henc in Hh.
  destruct h as [|d h]; [done|]. rewrite utf8_cons in Hh. destruct (encode_ascii d) as [(b & Hb & -> & _)|Hlarge].
  - rewrite Hb in Hh. injection Hh as -> Hh. destruct (IH h Hs Hh) as [r ->]. by exists r.
  - exfalso. destruct (encode_utf8 d) as [|b l] eqn:E; [by apply (f_equal length) in E; rewrite encode_length in E; pose proof (len_utf8_pos d); simpl in E; lia|].
    injection Hh as -> _. apply Forall_cons in Hlarge as [? _]. lia.
Qed.
Lemma ascii_found s h : is_ascii s = true → text_contains h s = true → ∃ l r, h = l ++ s ++ r.
Proof.
  intros Hs (x & y & Hh)%found_spec. destruct s as [|c s]; [by exists [], h|]. revert x Hh.
  assert (Hc : encode_utf8 c = [c] ∧ (c < 128)%N).
  { apply andb_true_iff in Hs as [Hc _]. unfold encode_utf8. rewrite Hc. split; [done|by apply N.ltb_lt]. }
  destruct Hc as [Henc Hc]. induction h as [|d h IH]; intros x Hh.
  { apply (f_equal length) in Hh. rewrite !length_app, utf8_cons, Henc in Hh. simpl in Hh. lia. }
  destruct (decide (x = [])) as [->|Hx].
  { destruct (ascii_prefix (c :: s) (d :: h) y Hs Hh) as [r ->]. by exists [], r. }
  assert (Hlong : length (encode_utf8 d) ≤ length x).
  { destruct (decide (length (encode_utf8 d) ≤ length x)) as [|Hshort]; [done|]. exfalso.
    destruct (encode_ascii d) as [(b & Hb & _)|Hlarge]; [rewrite Hb in Hshort; destruct x; [done|simpl in Hshort; lia]|].
    assert (Hbyte : utf8 (d :: h) !! length x = Some c).
    { rewrite Hh. transitivity ((utf8 (c :: s) ++ y) !! (length x - length x)); [by apply (lookup_app_r (A := N))|].
      by rewrite Nat.sub_diag, utf8_cons, Henc. }
    rewrite utf8_cons in Hbyte. rewrite (lookup_app_l (A := N)) in Hbyte by lia. rewrite Forall_lookup in Hlarge. specialize (Hlarge _ _ Hbyte). simpl in Hlarge. lia. }
  assert (Hd : encode_utf8 d = take (length (encode_utf8 d)) x).
  { apply (f_equal (take (length (encode_utf8 d)))) in Hh. rewrite utf8_cons, take_app_length, take_app_le in Hh by lia. done. }
  rewrite utf8_cons, <-(take_drop (length (encode_utf8 d)) x), <-Hd, <-app_assoc in Hh. apply app_inv_head in Hh.
  destruct (IH _ Hh) as (l & r & ->). by exists (d :: l), r.
Qed.
Definition has_infix (t h : text) : Prop := ∃ l r, h = l ++ t ++ r.
Lemma lower_infix t h : has_infix t h → has_infix (to_ascii_lowercase t) (to_ascii_lowercase h).
Proof. intros (l & r & ->). rewrite !to_ascii_lowercase_app. by eexists _, _. Qed.

Section ascii_operands.
Context `{!UnicodeAscii}.

Lemma kept_app (a b : text) :
  filter (λ c, is_combining_mark c = false) (a ++ b) =
  filter (λ c, is_combining_mark c = false) a ++ filter (λ c, is_combining_mark c = false) b.
Proof. apply (filter_app (A := N)). Qed.
Lemma ascii_kept t : is_ascii t = true → filter (λ c, is_combining_mark c = false) t = t.
Proof.
  unfold is_ascii. induction t as [|c t IH]; [done|]. cbn [forallb]. intros [Hc%N.ltb_lt Ht]%andb_true_iff.
  etrans; [apply (filter_cons_True (A := N)); by apply ascii_not_mark|]. f_equal. by apply IH.
Qed.
Lemma fold_infix s u : is_ascii s = true → Forall (λ c, is_combining_mark c = false) u → has_infix s u → has_infix (to_ascii_lowercase s) (fold u).
Proof.
  intros Hs Hu (l & r & ->). unfold fold. destruct (is_ascii (l ++ s ++ r)); [by apply lower_infix; exists l, r|].
  destruct (decide (s = [])) as [->|Hne]; [by exists [], (fold_string (to_nfc (l ++ [] ++ r)))|].
  rewrite ascii_nfc by (done || by apply Forall_app in Hu as [_ [_ ?]%Forall_app]).
  rewrite !fold_string_app, (fold_string_ascii s) by done. by eexists _, _.
Qed.
Lemma strip_infix s t : is_ascii s = true → has_infix s (to_nfc t) → has_infix s (strip_marks t).
Proof.
  intros Hs (l & r & Ht). destruct (decide (s = [])) as [->|Hne]; [by exists [], (strip_marks t)|].
  unfold strip_marks. rewrite <-nfd_of_nfc, Ht, ascii_nfd, !kept_app, (ascii_kept s) by done. by eexists _, _.
Qed.
Lemma stripped_plain t : Forall (λ c, is_combining_mark c = false) (strip_marks t).
Proof. apply Forall_forall. by intros c [? _]%list_elem_of_filter. Qed.
(** An ASCII operand that some form of the name contains is in its search name. *)
Lemma operand_survives s o t haystack :
  is_ascii s = true → haystack = (if sensitive o then (if is_ascii t then t else normalized t o)
                                  else if diacritics o then fold t else fold_search t) →
  has_infix (normalized s o) haystack → has_infix (fold_search s) (fold_search t).
Proof.
  intros Hs -> Hin. unfold fold_search at 1. rewrite Hs. unfold normalized in Hin. rewrite Hs in Hin. destruct (sensitive o).
  - unfold fold_search. destruct (is_ascii t); [by apply lower_infix|].
    apply fold_infix; [done|apply stripped_plain|]. destruct (diacritics o); [by apply strip_infix|done].
  - destruct (diacritics o); [|done]. unfold fold_search. destruct (is_ascii t) eqn:Ht.
    + unfold fold in Hin. by rewrite Ht in Hin.
    + by apply fold_keeps_ascii; [apply ascii_lower|].
Qed.
Lemma name_matcher_contains `{!MemmemLaws} m file content :
  (∃ s wildcard, matcher_new s (options m) wildcard = Ok m ∧
    (matcher_regex m ≠ None ∨ is_ascii s = true ∨ sensitive (options m) = false ∧ diacritics (options m) = false)) →
  folded_entry file → matcher_regex m = None →
  term_value (TMatched (TField Name) m) file content = Ok true →
  text_contains (search_name file) (candidate_needle m) = true.
Proof.
  intros (s & wildcard & Hm & Hcase) [Hsearch Hfold] Hr Hv.
  destruct (matcher_new_fields s (options m) wildcard m Hm) as (_ & Hneedle & Hf & -> & _).
  assert (Hfound : text_contains (if sensitive (options m) then (if is_ascii (name file) then name file else normalized (name file) (options m))
      else if diacritics (options m) then fold (name file) else fold_search (name file)) (normalized s (options m)) = true).
  { rewrite <-Hneedle. apply (matches_normalized_found m); [done|].
    unfold term_value in Hv. simpl in Hv. unfold matches_file in Hv. rewrite Hr, bool_decide_true in Hv by done. cbn [andb] in Hv.
    destruct (sensitive (options m)) eqn:Hsen; cbn [negb] in Hv; rewrite ev_with_scratch_value in Hv.
    - change (view_bytes (entry_text file Name)) with (name file) in Hv. unfold matches in Hv. rewrite Hr, Hsen, andb_true_r in Hv.
      destruct (is_ascii (name file)); by injection Hv.
    - injection Hv as Hv. destruct (diacritics (options m)); simpl in Hv; [by rewrite Hfold in Hv|by rewrite Hsearch in Hv]. }
  rewrite Hsearch. destruct Hcase as [?|[Hs|[Hsen Hdia]]]; [done| |].
  - assert (Hn : is_ascii (normalized s (options m)) = true).
    { unfold normalized. rewrite Hs. destruct (sensitive (options m)); [done|by apply ascii_lower]. }
    destruct (operand_survives s (options m) (name file) _ Hs eq_refl (ascii_found _ _ Hn Hfound)) as (l & r & ->).
    apply text_contains_infix.
  - rewrite Hsen, Hdia in Hfound. unfold normalized in Hfound. rewrite Hsen, Hdia in Hfound. exact Hfound.
Qed.
End ascii_operands.
Lemma all_result_true {A} (f : A → result bool) l :
  all_result f l = Ok true → Forall (λ x, f x = Ok true) l.
Proof.
  induction l as [|x l IH]; simpl; [done|]. destruct (f x) as [[]|] eqn:Hx; simpl; [|done..].
  intros Hl. constructor; auto.
Qed.

Lemma required_literals_spec `{!MemmemLaws, !UnicodeAscii} q file content l :
  plain_finders q → narrowable q → folded_entry file →
  denote q file content = Ok true → l ∈ required_name_literals q →
  text_contains (search_name file) l = true.
Proof.
  intros Hf Hb Hfile. revert Hf Hb.
  induction q as [|queries IH|queries IH|q IH|recursive q _|t Ht] using query_induction;
    intros Hf Hb Hd Hl; try (by apply not_elem_of_nil in Hl).
  - apply all_result_true in Hd. change (l ∈ queries ≫= required_name_literals) in Hl.
    apply list_elem_of_bind in Hl as (q & Hl & Hq).
    assert (Hboth : plain_finders q ∧ narrowable q).
    { clear -Hf Hb Hq. simpl in Hf, Hb. induction queries as [|q' queries IHq]; [by apply not_elem_of_nil in Hq|].
      destruct Hf as [Hf' Hf], Hb as [Hq' Hb]. apply elem_of_cons in Hq as [->|Hq]; [done|by apply IHq]. }
    rewrite Forall_forall in IH, Hd. by apply (IH q); [|apply Hboth..|apply Hd|].
  - destruct t as [[] needle finder []| | | | | | | | | | | |[[]| | |] m]; simpl in Hl;
      try (by apply not_elem_of_nil in Hl).
    + case_match; [|by apply not_elem_of_nil in Hl]. apply list_elem_of_singleton in Hl as ->.
      simpl in Hf, Hd. unfold term_value in Hd. injection Hd as Hd.
      rewrite finds_found, Hf in Hd. exact Hd.
    + destruct (bool_decide_reflect (matcher_regex m = None)) as [Hr|];
        [|by apply not_elem_of_nil in Hl]. simpl in Hl.
      case_match; [|by apply not_elem_of_nil in Hl]. apply list_elem_of_singleton in Hl as ->.
      exact (name_matcher_contains m file content Hb Hfile Hr Hd).
Qed.
(** Required literals never lose a match.  For a query whose name matchers that
    compare case or diacritics have ASCII operands, every literal that the
    candidate index is narrowed by occurs in an entry's search name whenever
    the query matches the entry, whatever the name and whatever the anchoring
    and word options: a match always has all the trigrams that are looked up. *)
Theorem required_literals_sound `{!MemmemLaws, !UnicodeAscii} q file content l :
  plain_finders q → narrowable q → folded_entry file →
  denote q file content = Ok true → l ∈ required_name_literals q →
  text_contains (search_name file) l = true.
Proof. exact (required_literals_spec q file content l). Qed.
End eval.
#[export] Instance ascii_unicode_ascii : @UnicodeAscii ascii_unicode.
Proof.
  assert (Hfold : ∀ t, fold (H := ascii_unicode) t = to_ascii_lowercase t).
  { intros t. unfold fold. by destruct (is_ascii t). }
  split; try done; [apply to_ascii_lowercase_app|]. intros a t Ha (l & r & Ht). rewrite Hfold in *.
  exists l, r. rewrite <-Ht. f_equal. unfold strip_marks. simpl. clear Ht. induction t as [|c t IH]; [done|].
  etrans; [by apply (filter_cons_True (A := N))|]. f_equal. exact IH.
Qed.

(** ** Concrete rows *)

Definition sample_file (file_name : text) (props : simple_json) : IndexedFile :=
  {| i_id := 7; i_size := 10; i_modified := 0; i_created := 0; i_changed := 0; i_modified_ns := 0;
     i_changed_ns := 0; i_file_id := 7; i_parent_id := 1; i_flags := 0;
     i_path := lit "/r/" ++ file_name; i_name := file_name;
     i_folded_name := to_ascii_lowercase file_name;
     i_folded_path := to_ascii_lowercase (lit "/r/" ++ file_name);
     i_search_name := to_ascii_lowercase file_name;
     i_search_path := to_ascii_lowercase (lit "/r/" ++ file_name);
     i_parent := lit "/r"; i_extension := lit "txt"; i_folded_extension := lit "txt";
     i_volume_id := lit "v"; i_is_dir := false; i_is_symlink := false;
     i_content_indexed := false; i_properties := props |}.
(** [Report], or a text containing [total]. *)
Definition sample_query : Query (H := utc_chrono) (gset N) :=
  QOr [QTerm (TText Name (lit "report") (lit "report") false);
       QTerm (TContentText (lit "total") false)].

Lemma available_without_content_witness :
  denote sample_query (sample_file (lit "Report.txt") (JObject [])) (Some (lit "none")) = Ok true ∧
  query_matches_available sample_query (sample_file (lit "Report.txt") (JObject [])) None = Ok true ∧
  true = true.
Proof.
  assert (Hd : denote sample_query (sample_file (lit "Report.txt") (JObject [])) (Some (lit "none")) = Ok true)
    by reflexivity.
  assert (Ha : query_matches_available sample_query (sample_file (lit "Report.txt") (JObject [])) None = Ok true)
    by reflexivity.
  split_and!; [exact Hd|exact Ha|].
  apply (available_without_content sample_query (sample_file (lit "Report.txt") (JObject []))
    (lit "none") true Hd); [reflexivity|exact Ha].
Defined.
Lemma extraction_hint_sound_witness :
  let q := QAnd [sample_query; QTerm (TNumeric (Number (lit "size") (f64_of_Z 20) f64_infinity true true false))] in
  may_match_before_extraction q (sample_file (lit "Report.txt") (JObject [])) = Ok false ∧
  denote q (sample_file (lit "Report.txt") (JObject [(lit "pages", JNumber (f64_of_Z 3))]))
    (Some (lit "total")) = Ok false ∧ false = false.
Proof.
  intros q. split_and!; [reflexivity..|].
  apply (extraction_hint_sound q (sample_file (lit "Report.txt") (JObject []))
    (sample_file (lit "Report.txt") (JObject [(lit "pages", JNumber (f64_of_Z 3))]))
    (Some (lit "total")) false); [by split_and!|reflexivity|reflexivity|reflexivity].
Defined.
Lemma required_literals_sound_witness :
  let q := QAnd [QTerm (B := gset N) (H := utc_chrono) (TText Name (lit "report") (lit "report") false)] in
  text_contains (search_name (sample_file (lit "Report.txt") (JObject []))) (lit "report") = true.
Proof.
  intros q. apply (required_literals_sound q (sample_file (lit "Report.txt") (JObject [])) None);
    [by split|by split|by split|reflexivity|by left].
Defined.
