(* ===== verification/Forest.v ===== *)
(** * Columns, sums, and accumulation over a forest

    Generic lemmas for relations.rs: columns as tabulated functions, sums of
    weights, and the one pass that adds every node's value to its parent's in
    an order where children come first.  [accumulates] shows that the pass
    leaves at each node the sum over all its descendants. *)
From S2P Require Import Prelude.

(** ** Sums *)

Definition Nsum {A} (w : A → N) (l : list A) : N := foldr (λ x a, w x + a)%N 0%N l.
(** The number 1 where a condition holds. *)
Definition indicator (b : bool) : N := if b then 1%N else 0%N.

Lemma Nsum_app {A} (w : A → N) a b : Nsum w (a ++ b) = (Nsum w a + Nsum w b)%N.
Proof. induction a as [|x a IH]; simpl; [done|]. rewrite IH. lia. Qed.
Lemma Nsum_perm {A} (w : A → N) a b : a ≡ₚ b → Nsum w a = Nsum w b.
Proof. induction 1; simpl; congruence || lia. Qed.
Lemma Nsum_ext {A} (v w : A → N) l : (∀ x, x ∈ l → v x = w x) → Nsum v l = Nsum w l.
Proof.
  induction l as [|x l IH]; intros Hx; simpl; [done|].
  rewrite (Hx x), IH; [done| |left]. intros y Hy. apply Hx. by right.
Qed.
Lemma Nsum_zero {A} (w : A → N) l : (∀ x, x ∈ l → w x = 0%N) → Nsum w l = 0%N.
Proof.
  intros Hx. rewrite (Nsum_ext w (λ _, 0%N)) by done. clear. induction l; simpl; lia.
Qed.
Lemma Nsum_plus {A} (v w : A → N) l : Nsum (λ x, v x + w x)%N l = (Nsum v l + Nsum w l)%N.
Proof. induction l as [|x l IH]; simpl; [done|]. rewrite IH. lia. Qed.
Lemma Nsum_swap {A B} (w : A → B → N) k l :
  Nsum (λ x, Nsum (w x) l) k = Nsum (λ y, Nsum (λ x, w x y) k) l.
Proof.
  induction k as [|x k IH]; simpl; [by rewrite Nsum_zero|]. by rewrite IH, Nsum_plus.
Qed.
Lemma Nsum_scale {A} (w : A → N) (c : N) l : Nsum (λ x, w x * c)%N l = (Nsum w l * c)%N.
Proof. induction l as [|x l IH]; simpl; [done|]. rewrite IH. lia. Qed.
Lemma Nsum_single {A} `{!EqDecision A} (w : A → N) k l :
  NoDup l → k ∈ l → Nsum (λ x, indicator (bool_decide (x = k)) * w x)%N l = w k.
Proof.
  induction 1 as [|x l Hx Hl IH]; intros Hk; [by apply elem_of_nil in Hk|]. simpl.
  destruct (decide (x = k)) as [->|Hne].
  - rewrite bool_decide_true, Nsum_zero by done || (intros y Hy; rewrite bool_decide_false; [done|];
      by intros ->). simpl. lia.
  - rewrite bool_decide_false by done. apply elem_of_cons in Hk as [->|Hk]; [done|].
    by rewrite IH.
Qed.
Lemma Nsum_positive {A} (w : A → N) l : (0 <? Nsum w l)%N = existsb (λ x, (0 <? w x)%N) l.
Proof.
  induction l as [|x l IH]; simpl; [done|]. rewrite <-IH.
  destruct (N.ltb_spec 0 (w x)), (N.ltb_spec 0 (Nsum w l)), (N.ltb_spec 0 (w x + Nsum w l)); simpl; lia.
Qed.
Lemma Nsum_positive_elem {A} (w : A → N) l : (0 <? Nsum w l)%N = true ↔ ∃ x, x ∈ l ∧ (0 < w x)%N.
Proof.
  rewrite Nsum_positive, existsb_exists. setoid_rewrite <-list_elem_of_In.
  by setoid_rewrite N.ltb_lt.
Qed.
Lemma indicator_positive b n : (0 < indicator b * n)%N ↔ b = true ∧ (0 < n)%N.
Proof. destruct b; simpl; split; intros; [split; [done|lia]|lia|lia|naive_solver]. Qed.
Lemma Nsum_count {A} (p : A → bool) l :
  Nsum (λ x, indicator (p x)) l = N.of_nat (length (filter p l)).
Proof.
  induction l as [|x l IH]; simpl; [done|]. rewrite IH. destruct (p x) eqn:E.
  - rewrite (filter_cons_True (λ x, p x)) by (cbv beta; rewrite E; exact I). cbn [length indicator]. lia.
  - rewrite (filter_cons_False (λ x, p x)) by (cbv beta; rewrite E; exact id). done.
Qed.

(** ** Columns *)

Definition tabulate {M} (f : nat → M) (n : nat) : list M := f <$> seq 0 n.
Lemma tabulate_length {M} (f : nat → M) n : length (tabulate f n) = n.
Proof. unfold tabulate. by rewrite length_fmap, length_seq. Qed.
Lemma tabulate_lookup {M} (f : nat → M) n i : i < n → tabulate f n !! i = Some (f i).
Proof. intros Hi. unfold tabulate. rewrite list_lookup_fmap, lookup_seq_lt by done. done. Qed.
Lemma tabulate_ext {M} (f g : nat → M) n : (∀ i, i < n → f i = g i) → tabulate f n = tabulate g n.
Proof.
  intros Hfg. apply list_fmap_ext. intros i x [-> Hi]%lookup_seq. apply Hfg. lia.
Qed.
Lemma tabulate_replicate {M} (x : M) n : replicate n x = tabulate (λ _, x) n.
Proof. unfold tabulate. generalize 0. induction n as [|n IH]; intros k; simpl; [done|]. f_equal. apply IH. Qed.
Lemma tabulate_set {M} (f : nat → M) n i x :
  i < n → set_index i x (tabulate f n) = Some (tabulate (λ j, if j =? i then x else f j) n).
Proof.
  intros Hi. unfold set_index. rewrite tabulate_length, decide_True by done. f_equal.
  apply list_eq. intros j. destruct (decide (j < n)) as [Hj|Hj].
  - rewrite (tabulate_lookup _ _ _ Hj). destruct (Nat.eqb_spec j i) as [->|].
    + apply list_lookup_insert_eq. by rewrite tabulate_length.
    + rewrite list_lookup_insert_ne by done. by apply tabulate_lookup.
  - rewrite !lookup_ge_None_2; [done|..]; rewrite ?length_insert, ?tabulate_length; lia.
Qed.

(** ** Accumulation *)

Section forest.
Context (par : nat → option nat) (rank : nat → nat) (count : nat).
Context (par_rank : ∀ c p, c < count → par c = Some p → rank p < rank c).
Context (par_count : ∀ c p, c < count → par c = Some p → p < count).

(** A node and its ancestors; ranks decrease, so the rank is enough fuel. *)
Fixpoint chain_fuel (fuel : nat) (c : nat) : list nat :=
  match fuel with
  | O => []
  | S fuel => c :: match par c with Some p => chain_fuel fuel p | None => [] end
  end.
Definition chain (c : nat) : list nat := chain_fuel (S (rank c)) c.

Lemma chain_fuel_enough f g c :
  c < count → rank c < f → rank c < g → chain_fuel f c = chain_fuel g c.
Proof.
  revert g c. induction f as [|f IH]; intros [|g] c Hc Hf Hg; try lia. simpl. f_equal.
  destruct (par c) as [p|] eqn:Hp; [|done].
  pose proof (par_rank c p Hc Hp). apply IH; [by eapply par_count|lia..].
Qed.
Lemma chain_eq c :
  c < count → chain c = c :: match par c with Some p => chain p | None => [] end.
Proof.
  intros Hc. unfold chain at 1. simpl. f_equal. destruct (par c) as [p|] eqn:Hp; [|done].
  pose proof (par_rank c p Hc Hp). apply chain_fuel_enough; [by eapply par_count|lia..].
Qed.
Lemma forest_ind (P : nat → Prop) :
  (∀ c, c < count → (∀ p, par c = Some p → p < count ∧ P p) → P c) → ∀ c, c < count → P c.
Proof.
  intros Hstep c. remember (rank c) as n eqn:En. revert c En.
  induction (lt_wf n) as [n _ IH]. intros c -> Hc. apply Hstep; [done|]. intros p Hp.
  pose proof (par_rank c p Hc Hp). pose proof (par_count c p Hc Hp). split; [done|]. by eapply IH.
Qed.
Lemma chain_rank c d : c < count → d ∈ chain c → d < count ∧ rank d ≤ rank c.
Proof.
  intros Hc. revert c Hc. refine (forest_ind _ _). intros c Hc IH. rewrite chain_eq by done.
  intros [->|Hd]%elem_of_cons; [split; [done|lia]|].
  destruct (par c) as [p|] eqn:Hp; [|by apply elem_of_nil in Hd].
  pose proof (par_rank c p Hc Hp). destruct (IH p eq_refl) as [_ IHp].
  destruct (IHp Hd). split; [done|lia].
Qed.

Lemma indicator_cons i c (l : list nat) : c ∉ l →
  indicator (bool_decide (i ∈ c :: l)) =
  (indicator (bool_decide (i = c)) + indicator (bool_decide (i ∈ l)))%N.
Proof.
  intros Hc. destruct (decide (i = c)) as [->|Hne].
  - by rewrite bool_decide_true, (bool_decide_true (c = c)), bool_decide_false by (done || left).
  - rewrite (bool_decide_false (i = c)) by done. rewrite N.add_0_l. f_equal.
    apply bool_decide_ext. rewrite elem_of_cons. tauto.
Qed.
(** [i] is on [c]'s chain: as [c] itself, or through one node whose parent it is. *)
Lemma chain_step i c : c < count →
  indicator (bool_decide (i ∈ chain c)) =
  (indicator (bool_decide (i = c)) +
   Nsum (λ d, indicator (bool_decide (d ∈ chain c)) * indicator (bool_decide (par d = Some i)))
     (seq 0 count))%N.
Proof.
  revert c. refine (forest_ind _ _). intros c Hc IH. rewrite chain_eq by done.
  set (rest := match par c with Some p => chain p | None => [] end).
  assert (Hlater : c ∉ rest).
  { subst rest. destruct (par c) as [p|] eqn:Hp; [|apply not_elem_of_nil]. intros Hin.
    pose proof (par_rank c p Hc Hp). destruct (chain_rank p c (par_count c p Hc Hp) Hin). lia. }
  assert (Hrest : indicator (bool_decide (i ∈ rest)) = (indicator (bool_decide (par c = Some i)) +
    Nsum (λ d, indicator (bool_decide (d ∈ rest)) * indicator (bool_decide (par d = Some i))) (seq 0 count))%N).
  { subst rest. destruct (par c) as [p|].
    - destruct (IH p eq_refl) as [_ ->]. do 2 f_equal. apply bool_decide_ext.
      by split; [intros ->|intros [=]].
    - by rewrite Nsum_zero. }
  rewrite (Nsum_ext _ (λ d, indicator (bool_decide (d = c)) * indicator (bool_decide (par d = Some i)) +
      indicator (bool_decide (d ∈ rest)) * indicator (bool_decide (par d = Some i)))%N)
    by (intros d _; rewrite indicator_cons by done; lia).
  rewrite Nsum_plus, (Nsum_single (λ d, indicator (bool_decide (par d = Some i))))
    by (apply NoDup_seq || (apply elem_of_seq; lia)).
  by rewrite indicator_cons, Hrest by done.
Qed.

(** The values of the descendants of [i], itself included. *)
Definition total (base : nat → N) (i : nat) : N :=
  Nsum (λ c, indicator (bool_decide (i ∈ chain c)) * base c)%N (seq 0 count).

(** A total is the node's own value and its children's totals. *)
Lemma total_step base i : i < count →
  total base i =
  (base i + Nsum (λ d, indicator (bool_decide (par d = Some i)) * total base d) (seq 0 count))%N.
Proof.
  intros Hi. unfold total.
  rewrite (Nsum_ext _ (λ c, indicator (bool_decide (c = i)) * base c +
    Nsum (λ d, indicator (bool_decide (d ∈ chain c)) * indicator (bool_decide (par d = Some i)))
      (seq 0 count) * base c)%N).
  - rewrite Nsum_plus, Nsum_single by (apply NoDup_seq || (apply elem_of_seq; lia)). f_equal.
    rewrite (Nsum_ext _ (λ c, Nsum (λ d, indicator (bool_decide (d ∈ chain c)) *
      indicator (bool_decide (par d = Some i)) * base c) (seq 0 count))%N)
      by (intros c _; by rewrite Nsum_scale).
    rewrite Nsum_swap. apply Nsum_ext. intros d _.
    rewrite N.mul_comm, <-Nsum_scale. apply Nsum_ext. intros c _. lia.
  - intros c Hc%elem_of_seq. rewrite chain_step by lia.
    replace (bool_decide (c = i)) with (bool_decide (i = c)) by (apply bool_decide_ext; split; congruence).
    lia.
Qed.

Lemma total_plus f g i : total (λ c, f c + g c)%N i = (total f i + total g i)%N.
Proof. unfold total. rewrite <-Nsum_plus. apply Nsum_ext. intros c _. lia. Qed.

(** One step of the pass, and the pass over a list of nodes. *)
Definition up (column : nat → N) (index : nat) : nat → N :=
  match par index with
  | Some p => λ j, if j =? p then (column p + column index)%N else column j
  | None => column
  end.
(** Children come before their parents. *)
Definition children_first (order : list nat) : Prop :=
  order ≡ₚ seq 0 count ∧
  ∀ a x b d, order = a ++ x :: b → d < count → par d = Some x → d ∈ a.

Lemma accumulates_prefix base order : children_first order →
  ∀ a b, order = a ++ b → ∀ i, i < count →
  foldl up base a i =
  (base i + Nsum (λ d, indicator (bool_decide (par d = Some i)) * total base d) a)%N.
Proof.
  intros [Hperm Hfirst] a. induction a as [|x a IH] using rev_ind; intros b Horder i Hi; simpl; [lia|].
  rewrite <-app_assoc in Horder. specialize (IH _ Horder).
  assert (Hx : x < count).
  { assert (Hin : x ∈ order) by (rewrite Horder; set_solver). rewrite Hperm in Hin.
    apply elem_of_seq in Hin. lia. }
  assert (Htot : foldl up base a x = total base x).
  { rewrite (IH x Hx), total_step by done. f_equal.
    rewrite <-(Nsum_perm _ _ _ Hperm), Horder, Nsum_app.
    rewrite (Nsum_zero _ ([x] ++ b)); [lia|]. intros d Hd.
    assert (Hdo : d ∈ order) by (rewrite Horder; set_solver).
    rewrite bool_decide_false; [done|]. intros Hp.
    assert (Hda : d ∈ a).
    { eapply (Hfirst a x b d); [done| |done]. rewrite Hperm in Hdo. apply elem_of_seq in Hdo. lia. }
    assert (Hnd : NoDup order) by (rewrite Hperm; apply NoDup_seq).
    rewrite Horder in Hnd. apply NoDup_app in Hnd as (_ & Hnd & _). by apply (Hnd d). }
  rewrite foldl_app, Nsum_app. simpl. unfold up at 1. destruct (par x) as [p|] eqn:Hp.
  - destruct (Nat.eqb_spec i p) as [->|Hne].
    + rewrite bool_decide_true, Htot, (IH p Hi) by done. simpl. lia.
    + rewrite bool_decide_false, (IH i Hi) by congruence. simpl. lia.
  - rewrite bool_decide_false, (IH i Hi) by done. simpl. lia.
Qed.
(** After the pass every node has the sum over its descendants. *)
Lemma accumulates base order i : children_first order → i < count →
  foldl up base order i = total base i.
Proof.
  intros Hf Hi. rewrite (accumulates_prefix base order Hf order []) by (done || by rewrite app_nil_r).
  rewrite total_step by done. f_equal. apply Nsum_perm, Hf.
Qed.
Lemma sorted_children_first order :
  order ≡ₚ seq 0 count → StronglySorted (λ a b, rank b ≤ rank a) order → children_first order.
Proof.
  intros Hp Hs. split; [done|]. intros a x b d -> Hd Hpar.
  assert (Hin : d ∈ a ++ x :: b) by (rewrite Hp; apply elem_of_seq; lia).
  pose proof (par_rank d x Hd Hpar). apply StronglySorted_app in Hs as (_ & _ & Hs).
  apply StronglySorted_cons in Hs as [Hf _]. rewrite Forall_forall in Hf.
  apply elem_of_app in Hin as [Hin|[->|Hin]%elem_of_cons]; [done|lia|].
  apply Hf in Hin. lia.
Qed.
End forest.
