(* ===== verification/Relations.v ===== *)
(** * core/src/relations.rs: the directory hierarchy and relationship queries

    [Hierarchy::build] walks the live rows of a snapshot once, attaches each
    to its nearest indexed ancestor directory, and accumulates counts and
    sizes upwards in order of decreasing path length.  [info] reports them,
    [incomplete] says where the index does not cover a directory, and
    [resolve] replaces the relationship and metric terms of a query by the
    sets of directories that satisfy them.

    A snapshot is what these functions read of it (index_store.rs): its rows
    by slot and its live slots.  Indexing is checked ([p_some]). *)
From S2P Require Import Prelude Text TextView Float QueryLex QueryNumber Bitmap QuerySyntax.
From S2P Require Import FileEntry TextMatch QueryEval Paths Forest.

Definition NO_PARENT : N := u32_max.
(** [index as u32] *)
Definition as_u32 (n : nat) : N := N.of_nat n mod 2 ^ 32.

(** Lists updated by index: [l[i] += n] and the like. *)
Definition update {M} (i : nat) (f : M → M) (l : list M) : option (list M) :=
  x ← l !! i; set_index i (f x) l.
(** [column[parent] = op(column[parent], column[index])] *)
Definition add_up {M} (op : M → M → M) (parent index : nat) (column : list M) : option (list M) :=
  a ← column !! parent; b ← column !! index; set_index parent (op a b) column.

(** [checked_add] on [Option<u64>]s ([zip]). *)
Definition checked_zip (a b : option N) : option N := x ← a; y ← b; u64_checked_add x y.

Record Hierarchy := {
  parents : list N;
  directory_slots : list N;
  postorder : list nat;
  own_files : list N;
  own_folders : list N;
  all_files : list N;
  all_folders : list N;
  sizes : list (option N);
}.

Section relations.
Context `{UnstableSort, Json} {LB : Type} `{Roaring LB} {F : Type} `{!FileEntry F}.

Record SearchSnapshot := { entries : list F; live : LB; generation : N }.
Definition at_ (s : SearchSnapshot) (slot : N) : option F := entries s !! N.to_nat slot.

Definition is_folder (file : F) : bool := is_dir file && negb (is_symlink file).
Definition path_text (file : F) : text := view_bytes (path file).

Definition collect_directories (s : SearchSnapshot) : polled (list N) :=
  p_fold (λ slots slot,
    check_cancelled;;
    file ← p_some (at_ s slot);
    mret (if is_folder file then slots ++ [slot] else slots)) (bm_iter (live s)) [].
(** [.iter().enumerate().map(..).collect()]: a later equal path replaces. *)
Definition index_paths (paths : list text) : gmap text nat :=
  foldl (λ m '(index, path), <[path := index]> m) ∅ (imap pair paths).

(** [while let Some(path) = parent]: the nearest indexed ancestor directory. *)
Definition nearest (directories : gmap text nat) (path : text) : option (text * nat) :=
  head (omap (λ parent, index ← directories !! parent; Some (parent, index)) (strict_ancestors path)).

(** One row of the second loop of [build]. *)
Definition place (s : SearchSnapshot) (directories : gmap text nat) (tree : Hierarchy) (slot : N) :
    polled Hierarchy :=
  check_cancelled;;
  file ← p_some (at_ s slot);
  match nearest directories (path_text file) with
  | None => mret tree
  | Some (parent, index) =>
    let is_direct := bool_decide (Some parent = path_parent (path_text file)) in
    let direct := (if is_direct then 1 else 0)%N in
    parents' ← p_some (set_index (N.to_nat slot) (as_u32 index) (parents tree));
    if is_folder file then
      all ← p_some (update index (λ n, n + 1)%N (all_folders tree));
      own ← p_some (update index (λ n, n + direct)%N (own_folders tree));
      mret {| parents := parents'; directory_slots := directory_slots tree;
              postorder := postorder tree; own_files := own_files tree; own_folders := own;
              all_files := all_files tree; all_folders := all; sizes := sizes tree |}
    else
      all ← p_some (update index (λ n, n + 1)%N (all_files tree));
      own ← p_some (update index (λ n, n + direct)%N (own_files tree));
      sizes' ← p_some (update index (λ o, x ← o; u64_checked_add x (size file)) (sizes tree));
      mret {| parents := parents'; directory_slots := directory_slots tree;
              postorder := postorder tree; own_files := own; own_folders := own_folders tree;
              all_files := all; all_folders := all_folders tree; sizes := sizes' |}
  end.

(** Child directories before their parents: longer paths first. *)
Definition by_path_length (paths : list text) (a b : nat) : comparison :=
  Nat.compare (byte_len (paths !!! b)) (byte_len (paths !!! a)).

(** One directory of the last loop of [build]. *)
Definition accumulate (tree : Hierarchy) (index : nat) : polled Hierarchy :=
  check_cancelled;;
  slot ← p_some (directory_slots tree !! index);
  parent ← p_some (parents tree !! N.to_nat slot);
  if bool_decide (parent = NO_PARENT) then mret tree
  else
    let parent := N.to_nat parent in
    files ← p_some (add_up N.add parent index (all_files tree));
    folders ← p_some (add_up N.add parent index (all_folders tree));
    sizes' ← p_some (add_up checked_zip parent index (sizes tree));
    mret {| parents := parents tree; directory_slots := directory_slots tree;
            postorder := postorder tree; own_files := own_files tree; own_folders := own_folders tree;
            all_files := files; all_folders := folders; sizes := sizes' |}.

Definition build (s : SearchSnapshot) : polled Hierarchy :=
  slots ← collect_directories s;
  files ← p_some (mapM (at_ s) slots);
  let paths := path_text <$> files in
  let directories := index_paths paths in
  let count := base.size directories in
  tree ← p_fold (place s directories) (bm_iter (live s))
    {| parents := replicate (length (entries s)) NO_PARENT; directory_slots := slots;
       postorder := []; own_files := replicate count 0%N; own_folders := replicate count 0%N;
       all_files := replicate count 0%N; all_folders := replicate count 0%N;
       sizes := replicate count (Some 0%N) |};
  let order := sort_unstable_by (by_path_length paths) (seq 0 count) in
  p_fold accumulate order
    {| parents := parents tree; directory_slots := directory_slots tree; postorder := order;
       own_files := own_files tree; own_folders := own_folders tree;
       all_files := all_files tree; all_folders := all_folders tree; sizes := sizes tree |}.

(** *** Coverage *)

Definition texts_of (value : option Value) : list text :=
  omap as_str (default [] (v ← value; as_array v)).
Definition incomplete (tree : Hierarchy) (s : SearchSnapshot) (coverage : Value) :
    polled (list bool) :=
  let complete := default false (v ← json_get coverage (lit "complete"); as_bool v) in
  let roots : gset text := list_to_set (texts_of (json_get coverage (lit "roots"))) in
  let gaps : gset text := list_to_set (texts_of (json_get coverage (lit "uncovered"))) in
  gap_ancestors ← p_fold (λ (found : gset text) gap,
    check_cancelled;; mret (found ∪ list_to_set (ancestors gap))) (elements gaps) ∅;
  p_fold (λ uncertain slot,
    check_cancelled;;
    file ← p_some (at_ s slot);
    let path := path_text file in
    let covered := existsb (λ p, bool_decide (p ∈ roots)) (ancestors path) in
    let denied := bool_decide (path ∈ gap_ancestors) ||
                  existsb (λ p, bool_decide (p ∈ gaps)) (ancestors path) in
    mret (uncertain ++ [negb complete || negb covered || denied])) (directory_slots tree) [].

(** *** [info]: the rows of the answer *)

Inductive FolderRow :=
| Folder (path : text) (complete : bool) (recursive_size indexed_logical_size : option N)
    (child_count descendant_count : N)
| NotIndexed (path : text).

Definition folder_row (tree : Hierarchy) (incomplete : list bool) (index : nat) (path : text) :
    option FolderRow :=
  uncertain ← incomplete !! index;
  size ← sizes tree !! index;
  own_files ← own_files tree !! index; own_folders ← own_folders tree !! index;
  all_files ← all_files tree !! index; all_folders ← all_folders tree !! index;
  let complete := negb uncertain && bool_decide (is_Some size) in
  Some (Folder path complete (if complete then size else None) size
          (own_files + own_folders)%N (all_files + all_folders)%N).
Definition info (tree : Hierarchy) (s : SearchSnapshot) (coverage : Value) (paths : list text) :
    polled (list FolderRow * N) :=
  uncertain ← incomplete tree s coverage;
  let requested : gset text := list_to_set paths in
  found ← p_fold (λ (found : gmap text FolderRow) '(index, slot),
    check_cancelled;;
    file ← p_some (at_ s slot);
    if bool_decide (path_text file ∈ requested) then
      row ← p_some (folder_row tree uncertain index (path_text file));
      mret (<[path_text file := row]> found)
    else mret found) (imap pair (directory_slots tree)) ∅;
  mret ((λ path, default (NotIndexed path) (found !! path)) <$> paths, generation s).
End relations.

(** *** [resolve] *)

(** query.rs, [Term::matches_numeric_value] *)
Definition matches_numeric_value (t : numeric) (value : option f64) : bool :=
  match t with
  | Unknown _ negate => negb (Bool.eqb (bool_decide (value = None)) negate)
  | Number _ low high il ih negate =>
    match value with
    | Some n => negb (Bool.eqb (in_range low high il ih n) negate)
    | None => false
    end
  end.
Definition metric_field (t : numeric) : text :=
  match t with Number field _ _ _ _ _ | Unknown field _ => field end.
Definition is_unknown (t : numeric) : bool :=
  match t with Unknown _ _ => true | _ => false end.

(** [json] metrics of one directory, before the coverage filter; the last
    case is the code's [unreachable!()]. *)
Definition metric_value (tree : Hierarchy) (field : text) (index : nat) : option (option N) :=
  if is_lit field "foldersize" then sizes tree !! index
  else
    a ← own_files tree !! index; b ← own_folders tree !! index;
    c ← all_files tree !! index; d ← all_folders tree !! index;
    if is_lit field "childcount" then Some (Some (a + b)%N)
    else if is_lit field "childfilecount" then Some (Some a)
    else if is_lit field "childfoldercount" then Some (Some b)
    else if is_lit field "descendantcount" then Some (Some (c + d)%N)
    else if is_lit field "descendantfilecount" then Some (Some c)
    else if is_lit field "descendantfoldercount" then Some (Some d)
    else None.

Section resolve.
Context `{UnstableSort, Chrono, Unicode, Pcre, Memmem, Json}.
Context {B LB : Type} `{Roaring B, Roaring LB} {F : Type} `{!FileEntry F}.
Context (s : SearchSnapshot (LB := LB) (F := F)) (tree : Hierarchy) (coverage : Value).
(** The body of a file, if it is indexed: the caller's closure. *)
Context (content : F → result (option text)).

(** One row: which directory it gives evidence to, and what evidence. *)
Definition gather (recursive : bool) (inner : Query B) (state : list bool * list bool) (slot : N) :
    polled (list bool * list bool) :=
  let '(positive, unknown) := state in
  check_cancelled;;
  parent ← p_some (parents tree !! N.to_nat slot);
  if bool_decide (parent = NO_PARENT) then mret state
  else
    file ← p_some (at_ s slot);
    directory ← p_some (directory_slots tree !! N.to_nat parent);
    directory ← p_some (at_ s directory);
    if negb recursive && negb (view_eq_str (path directory) (FileEntry.parent file)) then mret state
    else
      body ← (if requires_content inner then p_lift (content file) else mret None);
      truth ← p_lift (indexed_truth inner file body);
      match truth with
      | Some true => positive ← p_some (update (N.to_nat parent) (λ _, true) positive);
                     mret (positive, unknown)
      | None => unknown ← p_some (update (N.to_nat parent) (λ _, true) unknown);
                mret (positive, unknown)
      | Some false => mret state
      end.
(** One directory of the recursive pass. *)
Definition spread (state : list bool * list bool) (index : nat) : polled (list bool * list bool) :=
  check_cancelled;;
  slot ← p_some (directory_slots tree !! index);
  parent ← p_some (parents tree !! N.to_nat slot);
  if bool_decide (parent = NO_PARENT) then mret state
  else
    positive ← p_some (add_up orb (N.to_nat parent) index state.1);
    unknown ← p_some (add_up orb (N.to_nat parent) index state.2);
    mret (positive, unknown).
(** The directories that satisfy a relation, and those it is unknown of. *)
Definition collect_ids (positive unknown_ : list bool) : option (ResolvedPredicate B) :=
  foldl (λ result '(index, slot),
    result ← result;
    file ← at_ s slot;
    p ← positive !! index; u ← unknown_ !! index;
    Some (if p : bool then {| yes := bm_insert (id_u64 file) (yes result); unknown := unknown result |}
          else if u : bool then
            {| yes := yes result; unknown := bm_insert (id_u64 file) (unknown result) |}
          else result))
    (Some {| yes := bm_new; unknown := bm_new |}) (imap pair (directory_slots tree)).
Definition relate (recursive : bool) (inner : Query B) : polled (ResolvedPredicate B) :=
  uncertain ← incomplete tree s coverage;
  state ← p_fold (gather recursive inner) (bm_iter (live s))
            (replicate (length (directory_slots tree)) false, uncertain);
  state ← (if recursive then p_fold spread (postorder tree) state else mret state);
  p_some (collect_ids state.1 state.2).
Definition measure (t : numeric) : polled (ResolvedPredicate B) :=
  uncertain ← incomplete tree s coverage;
  p_fold (λ result '(index, slot),
    check_cancelled;;
    value ← p_some (metric_value tree (metric_field t) index);
    u ← p_some (uncertain !! index);
    let value := if u : bool then None else n ← value; Some (f64_of_Z (Z.of_N n)) in
    file ← p_some (at_ s slot);
    let id := id_u64 file in
    mret (if is_unknown t || bool_decide (is_Some value) then
            if matches_numeric_value t value
            then {| yes := bm_insert id (yes result); unknown := unknown result |} else result
          else {| yes := yes result; unknown := bm_insert id (unknown result) |}))
    (imap pair (directory_slots tree)) {| yes := bm_new; unknown := bm_new |}.

(** The query with its relationship and metric terms resolved, and whether
    some directory is left unknown. *)
Fixpoint resolve (q : Query B) : polled (Query B * bool) :=
  let resolve_all :=
    fix go (children : list (Query B)) (partial : bool) : polled (list (Query B) * bool) :=
      match children with
      | [] => mret ([], partial)
      | child :: children =>
        c ← resolve child;
        rest ← go children (partial || c.2);
        mret (c.1 :: rest.1, rest.2)
      end in
  check_cancelled;;
  match q with
  | QAnd children => r ← resolve_all children false; mret (QAnd r.1, r.2)
  | QOr children => r ← resolve_all children false; mret (QOr r.1, r.2)
  | QNot child => r ← resolve child; mret (QNot r.1, r.2)
  | QTerm (TRelated recursive inner) =>
    r ← resolve inner;
    result ← relate recursive r.1;
    mret (QTerm (TResolved result), r.2 || negb (bm_is_empty (unknown result)))
  | QTerm (TNumeric t) =>
    if is_metric (metric_field t) then
      result ← measure t;
      mret (QTerm (TResolved result), negb (bm_is_empty (unknown result)))
    else mret (q, false)
  | _ => mret (q, false)
  end.
End resolve.

(** ** What [build] computes *)

Lemma index_paths_app paths path :
  index_paths (paths ++ [path]) = <[path := length paths]> (index_paths paths).
Proof. unfold index_paths. rewrite imap_app, foldl_app. simpl. by rewrite Nat.add_0_r. Qed.
Lemma index_paths_spec paths : NoDup paths →
  (∀ path i, index_paths paths !! path = Some i ↔ paths !! i = Some path) ∧
  base.size (index_paths paths) = length paths.
Proof.
  induction paths as [|x paths IH] using rev_ind.
  { intros _. split; [|done]. intros path i. unfold index_paths. simpl. by rewrite lookup_empty. }
  intros (Hn & Hx & _)%NoDup_app. destruct (IH Hn) as [Hl Hs]. rewrite index_paths_app.
  assert (Hnew : index_paths paths !! x = None).
  { destruct (index_paths paths !! x) as [i|] eqn:E; [|done]. apply Hl in E.
    exfalso. apply (Hx x); [by eapply list_elem_of_lookup_2|left]. }
  split.
  - intros path i. destruct (decide (path = x)) as [->|Hne].
    + rewrite lookup_insert_eq. split.
      * intros [= <-]. by apply list_lookup_middle.
      * intros Hi. apply lookup_snoc_Some in Hi as [[_ Hi]|[-> _]]; [|done].
        apply Hl in Hi. congruence.
    + rewrite lookup_insert_ne by done. rewrite Hl, lookup_snoc_Some.
      split; [|by intros [[_ ?]|[_ ?]]]. intros Hi. left. split; [|done].
      by apply lookup_lt_Some in Hi.
  - rewrite map_size_insert_None, Hs, length_app by done. simpl. lia.
Qed.

Lemma head_omap_cons {A B} (f : A → option B) x l :
  head (omap f (x :: l)) = match f x with Some y => Some y | None => head (omap f l) end.
Proof. simpl. by destruct (f x). Qed.

Section hierarchy.
Context `{UnstableSort, Json} {LB : Type} `{RoaringLaws LB} {F : Type} `{!FileEntry F}.
Context (s : SearchSnapshot (LB := LB) (F := F)).

(** A snapshot's live slots have rows with distinct paths, and 32-bit slots
    leave room for the [NO_PARENT] mark. *)
Definition snapshot_ok : Prop :=
  (∀ slot, slot ∈ bm_iter (live s) → is_Some (at_ s slot)) ∧
  (∀ a b fa fb, a ∈ bm_iter (live s) → b ∈ bm_iter (live s) →
    at_ s a = Some fa → at_ s b = Some fb → path_text fa = path_text fb → a = b) ∧
  (N.of_nat (length (bm_iter (live s))) ≤ u32_max)%N.
Context (Hok : snapshot_ok).

Definition row (slot : N) (what : F → bool) : bool :=
  match at_ s slot with Some f => what f | None => false end.
Definition path_of (slot : N) : text :=
  match at_ s slot with Some f => path_text f | None => [] end.
Definition folder_slots : list N := filter (λ slot, row slot is_folder) (bm_iter (live s)).
Definition folder_paths : list text := path_of <$> folder_slots.
Notation dirs := (index_paths folder_paths).
Notation count := (length folder_paths).
Definition home (slot : N) : option nat := snd <$> nearest dirs (path_of slot).
Definition par (c : nat) : option nat := snd <$> nearest dirs (folder_paths !!! c).

Lemma live_row slot : slot ∈ bm_iter (live s) → ∃ file, at_ s slot = Some file.
Proof. intros Hs. by apply Hok in Hs as [file Hf]; exists file. Qed.
Lemma collect_spec : cancels_to (collect_directories s) (Ok folder_slots).
Proof.
  unfold collect_directories, folder_slots.
  destruct (cancels_fold_inv (λ slots slot,
    check_cancelled;; file ← p_some (at_ s slot);
    mret (if is_folder file then slots ++ [slot] else slots))
    (λ n slots, slots = filter (λ slot, row slot is_folder) (take n (bm_iter (live s))))
    (bm_iter (live s)) []) as (r & Hr & ->).
  - done.
  - intros i slot b Hi ->. destruct (live_row slot) as [file Hf]; [by eapply list_elem_of_lookup_2|].
    eexists. split.
    + eapply cancels_bind; [apply cancels_check|].
      eapply cancels_bind; [by apply cancels_some|apply cancels_ret].
    + rewrite (take_S_r _ _ slot Hi), filter_app. unfold row at 3. simpl. unfold row.
      destruct (is_folder file) eqn:E.
      * rewrite filter_cons_True by (rewrite Hf, E; exact I). done.
      * rewrite filter_cons_False by (rewrite Hf, E; exact (λ e, e)). by rewrite app_nil_r.
  - by rewrite firstn_all in Hr.
Qed.

Lemma live_NoDup : NoDup (bm_iter (live s)).
Proof. apply bm_iter_NoDup. Qed.
Lemma folder_slot slot :
  slot ∈ folder_slots ↔ slot ∈ bm_iter (live s) ∧ ∃ f, at_ s slot = Some f ∧ is_folder f = true.
Proof.
  unfold folder_slots, row. rewrite list_elem_of_filter. split.
  - intros [Hr Hs]. split; [done|]. destruct (at_ s slot) as [f|]; [|done]. exists f.
    by destruct (is_folder f).
  - intros [Hs (f & Hf & E)]. split; [|done]. by rewrite Hf, E.
Qed.
Lemma path_of_inj a b :
  a ∈ bm_iter (live s) → b ∈ bm_iter (live s) → path_of a = path_of b → a = b.
Proof.
  intros Ha Hb. destruct (live_row a Ha) as [fa Hfa], (live_row b Hb) as [fb Hfb].
  unfold path_of. rewrite Hfa, Hfb. by apply Hok.
Qed.
Lemma folder_paths_NoDup : NoDup folder_paths.
Proof.
  unfold folder_paths. apply NoDup_fmap_2_strong.
  - intros a b [Ha _]%folder_slot [Hb _]%folder_slot. by apply path_of_inj.
  - apply NoDup_filter, live_NoDup.
Qed.
Lemma dirs_lookup path i : dirs !! path = Some i ↔ folder_paths !! i = Some path.
Proof. apply index_paths_spec, folder_paths_NoDup. Qed.
Lemma dirs_size : base.size dirs = count.
Proof. apply index_paths_spec, folder_paths_NoDup. Qed.
Lemma folder_files : ∃ files, mapM (at_ s) folder_slots = Some files ∧ path_text <$> files = folder_paths.
Proof.
  unfold folder_paths. assert (Hall : ∀ slot, slot ∈ folder_slots → ∃ f, at_ s slot = Some f).
  { intros slot [Hs _]%folder_slot. by apply live_row. }
  induction folder_slots as [|slot slots IH]; [by exists []|].
  destruct (Hall slot) as [f Hf]; [left|]. destruct IH as (files & Hm & Hp).
  { intros. apply Hall. by right. }
  exists (f :: files). split; [by simpl; rewrite Hf; simpl; rewrite Hm|].
  rewrite !fmap_cons, Hp. f_equal. unfold path_of. by rewrite Hf.
Qed.
Lemma count_bound : (N.of_nat count ≤ u32_max)%N.
Proof.
  destruct Hok as (_ & _ & Hb). unfold folder_paths, folder_slots. rewrite length_fmap.
  pose proof (length_filter (λ slot, row slot is_folder) (bm_iter (live s))). lia.
Qed.

(** *** The nearest indexed ancestor *)

Lemma nearest_cases path :
  (nearest dirs path = None ∧ ∀ p i, p ∈ strict_ancestors path → folder_paths !! i ≠ Some p) ∨
  (∃ p i xs, nearest dirs path = Some (p, i) ∧ folder_paths !! i = Some p ∧
     strict_ancestors path = xs ++ p :: strict_ancestors p ∧
     ∀ q j, q ∈ xs → folder_paths !! j ≠ Some q).
Proof.
  unfold nearest. set (f := λ p : text, i ← dirs !! p; Some (p, i)).
  assert (Hgen : ∀ l, (head (omap f l) = None ∧
      ∀ p i, p ∈ l → folder_paths !! i ≠ Some p) ∨
    (∃ p i xs ys, head (omap f l) = Some (p, i) ∧
      folder_paths !! i = Some p ∧ l = xs ++ p :: ys ∧ ∀ q j, q ∈ xs → folder_paths !! j ≠ Some q)).
  { induction l as [|x l IH]; [left; split; [done|by intros ?? ?%elem_of_nil]|].
    rewrite head_omap_cons. unfold f at 1 3. destruct (dirs !! x) as [i|] eqn:Hx; simpl.
    - right. apply dirs_lookup in Hx. exists x, i, [], l. split_and!; try done.
      by intros ?? ?%elem_of_nil.
    - assert (Hnx : ∀ j, folder_paths !! j ≠ Some x).
      { intros j Hj%dirs_lookup. congruence. }
      destruct IH as [[Hh Hn]|(p & i & xs & ys & Hh & Hp & -> & Hn)].
      + left. split; [done|]. intros p i [->|Hp]%elem_of_cons; [apply Hnx|by apply Hn].
      + right. exists p, i, (x :: xs), ys. split_and!; try done.
        intros q j [->|Hq]%elem_of_cons; [apply Hnx|by apply Hn]. }
  destruct (Hgen (strict_ancestors path)) as [?|(p & i & xs & ys & Hh & Hp & Hl & Hn)]; [by left|].
  right. exists p, i, xs. split_and!; try done. rewrite Hl. do 2 f_equal.
  symmetry. by eapply ancestors_of_ancestor.
Qed.
Lemma nearest_ancestor path p i :
  nearest dirs path = Some (p, i) → folder_paths !! i = Some p ∧ p ∈ strict_ancestors path.
Proof.
  destruct (nearest_cases path) as [[-> _]|(q & j & xs & -> & Hq & Hl & _)]; [done|].
  intros [= -> ->]. split; [done|]. rewrite Hl. set_solver.
Qed.
Definition path_rank (c : nat) : nat := byte_len (folder_paths !!! c).
Lemma par_rank c p : c < count → par c = Some p → path_rank p < path_rank c.
Proof.
  unfold par, path_rank. intros Hc ((q & i) & Hn & [= ->])%fmap_Some.
  apply nearest_ancestor in Hn as [Hq Ha]. rewrite (list_lookup_total_correct _ _ _ Hq).
  by apply ancestor_fewer_bytes.
Qed.
Lemma home_count slot i : home slot = Some i → i < count.
Proof.
  unfold home. intros ((q & j) & Hn & [= ->])%fmap_Some.
  apply nearest_ancestor in Hn as [Hq _]. by eapply lookup_lt_Some.
Qed.
Lemma par_count c p : c < count → par c = Some p → p < count.
Proof.
  unfold par. intros _ ((q & j) & Hn & [= ->])%fmap_Some.
  apply nearest_ancestor in Hn as [Hq _]. by eapply lookup_lt_Some.
Qed.
Notation chain := (chain par path_rank).

Lemma folder_path_eq c i path : folder_paths !! c = Some path → folder_paths !! i = Some path → c = i.
Proof. intros Hc Hi. apply dirs_lookup in Hc, Hi. congruence. Qed.
(** Following parents from a directory is walking up its path. *)
Lemma chain_ancestors c i p : c < count → folder_paths !! i = Some p →
  i ∈ chain c ↔ p ∈ ancestors (folder_paths !!! c).
Proof.
  intros Hc. revert c Hc. refine (forest_ind par path_rank count par_rank par_count _ _).
  intros c Hc IH Hi. rewrite (chain_eq par path_rank count par_rank par_count) by done.
  unfold ancestors. rewrite !elem_of_cons.
  destruct (lookup_lt_is_Some_2 folder_paths c Hc) as [pc Hpc].
  assert (Htot : folder_paths !!! c = pc) by by apply list_lookup_total_correct.
  rewrite Htot in *.
  assert (Hself : i = c ↔ p = pc).
  { split; [intros ->; congruence|]. intros ->. by eapply folder_path_eq. }
  rewrite Hself. assert (Hup : i ∈ match par c with Some q => chain q | None => [] end ↔ p ∈ strict_ancestors pc).
  { unfold par in *. rewrite Htot in *.
    destruct (nearest_cases pc) as [[Hn Hnone]|(q & j & xs & Hn & Hq & Hl & Hnone)]; rewrite Hn in *; simpl in *.
    - split; [by intros ?%elem_of_nil|]. intros Hp. by apply (Hnone p i) in Hp.
    - destruct (IH j eq_refl) as [Hj IHj]. rewrite (IHj Hi), (list_lookup_total_correct _ _ _ Hq), Hl.
      unfold ancestors. rewrite elem_of_app, !elem_of_cons. split; [tauto|].
      intros [Hp|Hp]; [by apply (Hnone p i) in Hp|done]. }
  by rewrite Hup.
Qed.
(** A row is below a directory exactly when its home is on the chain. *)
Lemma home_chain slot i p : folder_paths !! i = Some p →
  match home slot with Some c => i ∈ chain c | None => False end ↔ p ∈ strict_ancestors (path_of slot).
Proof.
  intros Hi. unfold home.
  destruct (nearest_cases (path_of slot)) as [[Hn Hnone]|(q & j & xs & Hn & Hq & Hl & Hnone)]; rewrite Hn; simpl.
  - split; [done|]. intros Hp. by apply (Hnone p i) in Hp.
  - rewrite (chain_ancestors j i p), (list_lookup_total_correct _ _ _ Hq), Hl by
      (done || by eapply lookup_lt_Some).
    unfold ancestors. rewrite elem_of_app, !elem_of_cons. split; [tauto|].
    intros [Hp|Hp]; [by apply (Hnone p i) in Hp|done].
Qed.

(** *** The columns while rows are placed *)

(** What the rows of [rows] attached to directory [i] weigh. *)
Definition share (w : N → N) (rows : list N) (i : nat) : N :=
  Nsum (λ slot, indicator (bool_decide (home slot = Some i)) * w slot)%N rows.
Definition file_weight (slot : N) : N := indicator (negb (row slot is_folder)).
Definition folder_weight (slot : N) : N := indicator (row slot is_folder).
(** The row's parent directory is itself indexed. *)
Definition direct (slot : N) : bool :=
  match nearest dirs (path_of slot) with
  | Some (p, _) => bool_decide (Some p = path_parent (path_of slot))
  | None => false
  end.
Definition size_of (slot : N) : N :=
  match at_ s slot with Some f => if is_folder f then 0%N else size f | None => 0%N end.
Definition checked (n : N) : option N := if (n <=? u64_max)%N then Some n else None.

Definition parent_code (o : option nat) : N := match o with Some i => as_u32 i | None => NO_PARENT end.
Definition placed (rows : list N) : Hierarchy := {|
  parents := tabulate (λ k, if bool_decide (N.of_nat k ∈ rows) then parent_code (home (N.of_nat k))
                            else NO_PARENT) (length (entries s));
  directory_slots := folder_slots; postorder := [];
  own_files := tabulate (share (λ slot, indicator (direct slot) * file_weight slot)%N rows) count;
  own_folders := tabulate (share (λ slot, indicator (direct slot) * folder_weight slot)%N rows) count;
  all_files := tabulate (share file_weight rows) count;
  all_folders := tabulate (share folder_weight rows) count;
  sizes := tabulate (λ i, checked (share size_of rows i)) count;
|}.

Lemma checked_add a b : (x ← checked a; u64_checked_add x b) = checked (a + b).
Proof.
  unfold checked, u64_checked_add.
  destruct (N.leb_spec a u64_max); simpl; [done|]. destruct (N.leb_spec (a + b) u64_max); [lia|done].
Qed.
Lemma checked_zip_add a b : checked_zip (checked a) (checked b) = checked (a + b).
Proof.
  unfold checked_zip, checked, u64_checked_add.
  destruct (N.leb_spec a u64_max), (N.leb_spec b u64_max); simpl; try done;
    (destruct (N.leb_spec (a + b) u64_max); [lia|done]).
Qed.
Lemma share_snoc w rows slot i :
  share w (rows ++ [slot]) i = (share w rows i + indicator (bool_decide (home slot = Some i)) * w slot)%N.
Proof. unfold share. rewrite Nsum_app. simpl. by rewrite N.add_0_r. Qed.
Lemma update_share {M} (h : nat → N → M) (f : M → M) w rows slot index :
  home slot = Some index → (∀ i n, f (h i n) = h i (n + w slot)%N) →
  update index f (tabulate (λ i, h i (share w rows i)) count) =
    Some (tabulate (λ i, h i (share w (rows ++ [slot]) i)) count).
Proof.
  intros Hh Hf. pose proof (home_count slot index Hh) as Hi. unfold update.
  rewrite tabulate_lookup by done. simpl. rewrite tabulate_set by done. f_equal.
  apply tabulate_ext. intros i _. rewrite share_snoc, Hh. destruct (Nat.eqb_spec i index) as [->|Hne].
  - rewrite bool_decide_true, Hf by done. f_equal. simpl. lia.
  - rewrite bool_decide_false by congruence. f_equal. simpl. lia.
Qed.
Lemma share_unchanged {M} (h : nat → N → M) w rows slot :
  home slot = None ∨ w slot = 0%N →
  tabulate (λ i, h i (share w (rows ++ [slot]) i)) count = tabulate (λ i, h i (share w rows i)) count.
Proof.
  intros Hz. apply tabulate_ext. intros i _. f_equal. rewrite share_snoc.
  destruct Hz as [->| ->]; simpl; lia.
Qed.
Lemma update_count (f : N → N) w rows slot index :
  home slot = Some index → (∀ n, f n = n + w slot)%N →
  update index f (tabulate (share w rows) count) = Some (tabulate (share w (rows ++ [slot])) count).
Proof. intros Hh Hf. apply (update_share (λ _ n, n)); [done|]. intros _. apply Hf. Qed.
Lemma count_unchanged w rows slot : home slot = None ∨ w slot = 0%N →
  tabulate (share w (rows ++ [slot])) count = tabulate (share w rows) count.
Proof. apply (share_unchanged (λ _ n, n)). Qed.
Lemma placed_parents_some rows slot : N.to_nat slot < length (entries s) →
  set_index (N.to_nat slot) (parent_code (home slot)) (parents (placed rows)) =
    Some (parents (placed (rows ++ [slot]))).
Proof.
  intros Hlt. simpl. rewrite tabulate_set by done. f_equal. apply tabulate_ext. intros k _.
  destruct (Nat.eqb_spec k (N.to_nat slot)) as [->|Hne].
  - rewrite N2Nat.id, bool_decide_true by set_solver. done.
  - replace (bool_decide (N.of_nat k ∈ rows ++ [slot])) with (bool_decide (N.of_nat k ∈ rows)); [done|].
    apply bool_decide_ext. rewrite elem_of_app, list_elem_of_singleton. split; [by left|].
    intros [?|E]; [done|]. subst slot. by rewrite Nat2N.id in Hne.
Qed.
Lemma placed_parents_none rows slot :
  home slot = None → parents (placed (rows ++ [slot])) = parents (placed rows).
Proof.
  intros Hh. simpl. apply tabulate_ext. intros k _.
  destruct (decide (N.of_nat k = slot)) as [<-|Hne].
  - rewrite Hh. by repeat case_bool_decide.
  - replace (bool_decide (N.of_nat k ∈ rows ++ [slot])) with (bool_decide (N.of_nat k ∈ rows)); [done|].
    apply bool_decide_ext. rewrite elem_of_app, list_elem_of_singleton. tauto.
Qed.

Lemma at_bound slot file : at_ s slot = Some file → N.to_nat slot < length (entries s).
Proof. apply lookup_lt_Some. Qed.
Lemma direct_nearest slot p i : nearest dirs (path_of slot) = Some (p, i) →
  direct slot = bool_decide (Some p = path_parent (path_of slot)).
Proof. unfold direct. by intros ->. Qed.

(** Placing one more row is the step of the loop. *)
Lemma place_spec rows slot : slot ∈ bm_iter (live s) →
  cancels_to (place s dirs (placed rows) slot) (Ok (placed (rows ++ [slot]))).
Proof.
  intros Hs. destruct (live_row slot Hs) as [file Hf].
  assert (Hpath : path_of slot = path_text file) by (unfold path_of; by rewrite Hf).
  eapply cancels_bind; [apply cancels_check|]. eapply cancels_bind; [by apply cancels_some|].
  rewrite <-Hpath. destruct (nearest dirs (path_of slot)) as [[p index]|] eqn:Hn.
  - assert (Hh : home slot = Some index) by (unfold home; by rewrite Hn).
    assert (Hfolder : row slot is_folder = is_folder file) by (unfold row; by rewrite Hf).
    assert (Hd : (if bool_decide (Some p = path_parent (path_of slot)) then 1 else 0)%N =
      indicator (direct slot)) by by rewrite (direct_nearest _ _ _ Hn).
    cbv zeta. rewrite Hd.
    eapply cancels_bind; [apply cancels_some|].
    { rewrite <-(placed_parents_some rows slot), Hh by by eapply at_bound. reflexivity. }
    destruct (is_folder file) eqn:E.
    + eapply cancels_bind; [apply cancels_some, (update_count _ folder_weight _ _ index Hh)|].
      { intros n. unfold folder_weight. by rewrite Hfolder. }
      eapply cancels_bind; [apply cancels_some, (update_count _
        (λ slot, indicator (direct slot) * folder_weight slot)%N _ _ index Hh)|].
      { intros n. unfold folder_weight. rewrite Hfolder. simpl. lia. }
      unfold placed. rewrite <-(count_unchanged file_weight rows slot),
        <-(count_unchanged (λ slot, indicator (direct slot) * file_weight slot)%N rows slot),
        <-(share_unchanged (λ _, checked) size_of rows slot); [apply cancels_ret|right..].
      * unfold size_of. by rewrite Hf, E.
      * unfold file_weight. rewrite Hfolder. simpl. lia.
      * unfold file_weight. by rewrite Hfolder.
    + eapply cancels_bind; [apply cancels_some, (update_count _ file_weight _ _ index Hh)|].
      { intros n. unfold file_weight. by rewrite Hfolder. }
      eapply cancels_bind; [apply cancels_some, (update_count _
        (λ slot, indicator (direct slot) * file_weight slot)%N _ _ index Hh)|].
      { intros n. unfold file_weight. rewrite Hfolder. simpl. lia. }
      eapply cancels_bind; [apply cancels_some, (update_share (λ _, checked) _ size_of _ _ index Hh)|].
      { intros _ n. unfold size_of. rewrite Hf, E. apply checked_add. }
      unfold placed. rewrite <-(count_unchanged folder_weight rows slot),
        <-(count_unchanged (λ slot, indicator (direct slot) * folder_weight slot)%N rows slot);
        [apply cancels_ret|right..].
      * unfold folder_weight. rewrite Hfolder. simpl. lia.
      * unfold folder_weight. by rewrite Hfolder.
  - assert (Hh : home slot = None) by (unfold home; by rewrite Hn).
    pose proof (placed_parents_none rows slot Hh) as Hp. simpl in Hp. unfold placed. rewrite Hp.
    rewrite !count_unchanged, (share_unchanged (λ _, checked)) by by left. apply cancels_ret.
Qed.

(** *** The upward pass *)

Notation all_rows := (bm_iter (live s)).
Notation up := (up par).
Definition raised (order : list nat) (files folders bytes : nat → N) : Hierarchy := {|
  parents := parents (placed all_rows); directory_slots := folder_slots; postorder := order;
  own_files := own_files (placed all_rows); own_folders := own_folders (placed all_rows);
  all_files := tabulate files count; all_folders := tabulate folders count;
  sizes := tabulate (λ i, checked (bytes i)) count;
|}.

Lemma folder_slot_path index slot : folder_slots !! index = Some slot →
  folder_paths !! index = Some (path_of slot) ∧ slot ∈ all_rows ∧ par index = home slot.
Proof.
  intros Hs. assert (Hp : folder_paths !! index = Some (path_of slot)).
  { unfold folder_paths. by rewrite list_lookup_fmap, Hs. }
  split_and!; [done| |].
  - by apply list_elem_of_lookup_2, folder_slot in Hs as [? _].
  - unfold par, home. by rewrite (list_lookup_total_correct _ _ _ Hp).
Qed.
Lemma parent_code_small i : i < count → parent_code (Some i) = N.of_nat i ∧ N.of_nat i ≠ NO_PARENT.
Proof.
  intros Hi. pose proof count_bound. unfold parent_code, as_u32, NO_PARENT, u32_max in *.
  rewrite N.mod_small by (change (2 ^ 32)%N with 4294967296%N; lia). split; [done|lia].
Qed.
Lemma placed_parent slot : slot ∈ all_rows →
  parents (placed all_rows) !! N.to_nat slot = Some (parent_code (home slot)).
Proof.
  intros Hs. destruct (live_row slot Hs) as [file Hf]. simpl.
  rewrite tabulate_lookup by by eapply at_bound. by rewrite N2Nat.id, bool_decide_true.
Qed.
(** What a directory's parent reads as, in the pass. *)
Lemma parent_read index slot : folder_slots !! index = Some slot →
  parents (placed all_rows) !! N.to_nat slot = Some (parent_code (par index)) ∧
  match par index with
  | Some p => parent_code (par index) ≠ NO_PARENT ∧ N.to_nat (parent_code (par index)) = p ∧ p < count
  | None => parent_code (par index) = NO_PARENT
  end.
Proof.
  intros Hs. destruct (folder_slot_path index slot Hs) as (Hp & Hlive & Hpar). rewrite Hpar.
  split; [by apply placed_parent|]. destruct (home slot) as [p|] eqn:Hh; [|done].
  apply home_count in Hh. destruct (parent_code_small p Hh) as [-> ?]. split_and!; [done|lia|done].
Qed.

Lemma add_up_column {M} (op : M → M → M) (h : N → M) f index p :
  (∀ a b, h (a + b)%N = op (h a) (h b)) → par index = Some p → index < count → p < count →
  add_up op p index (tabulate (λ i, h (f i)) count) = Some (tabulate (λ i, h (up f index i)) count).
Proof.
  intros Hh Hp Hi Hpc. unfold add_up. rewrite !tabulate_lookup by done. simpl.
  rewrite tabulate_set by done. f_equal. apply tabulate_ext. intros j _. unfold Forest.up. rewrite Hp.
  destruct (j =? p); [by rewrite Hh|done].
Qed.
Lemma accumulate_spec order files folders bytes index : index < count →
  cancels_to (accumulate (raised order files folders bytes) index)
    (Ok (raised order (up files index) (up folders index) (up bytes index))).
Proof.
  intros Hi. destruct (lookup_lt_is_Some_2 folder_slots index) as [slot Hs].
  { unfold folder_paths in Hi. by rewrite length_fmap in Hi. }
  destruct (parent_read index slot Hs) as [Hread Hcase].
  eapply cancels_bind; [apply cancels_check|]. eapply cancels_bind; [by apply cancels_some|].
  eapply cancels_bind; [apply cancels_some; exact Hread|].
  destruct (par index) as [p|] eqn:Hp.
  - destruct Hcase as (Hne & Hpe & Hpc). rewrite bool_decide_false by done. cbv zeta. rewrite Hpe.
    eapply cancels_bind; [by apply cancels_some, (add_up_column N.add (λ n, n))|].
    eapply cancels_bind; [by apply cancels_some, (add_up_column N.add (λ n, n))|].
    eapply cancels_bind; [|apply cancels_ret].
    apply cancels_some, (add_up_column checked_zip checked); try done.
    intros a b. by rewrite checked_zip_add.
  - rewrite bool_decide_true by done. unfold Forest.up. rewrite Hp. apply cancels_ret.
Qed.
Lemma accumulate_all order files folders bytes : (∀ i, i ∈ order → i < count) → ∀ done,
  cancels_to (p_fold accumulate order (raised done files folders bytes))
    (Ok (raised done (foldl up files order) (foldl up folders order) (foldl up bytes order))).
Proof.
  intros Hin done. revert files folders bytes.
  induction order as [|index order IH]; intros files folders bytes; simpl; [apply cancels_ret|].
  eapply cancels_bind; [apply accumulate_spec, Hin; left|]. apply IH. intros i ?. apply Hin. by right.
Qed.

Definition build_order : list nat := sort_unstable_by (by_path_length folder_paths) (seq 0 count).
Lemma build_order_children_first : children_first par count build_order.
Proof.
  apply (sorted_children_first par path_rank count par_rank); [apply sort_unstable_permutes|].
  assert (Hpre : TotalPreorder (by_path_length folder_paths)).
  { unfold by_path_length. split.
    - intros x y. apply Nat.compare_antisym.
    - intros x y z. rewrite !Nat.compare_le_iff. lia. }
  pose proof (sort_unstable_sorts (by_path_length folder_paths) (seq 0 count) Hpre) as Hs.
  fold build_order in Hs. induction Hs as [|x l _ IH Hf]; constructor; [done|].
  eapply Forall_impl; [exact Hf|]. intros y. unfold cmp_le, by_path_length, path_rank.
  by rewrite Nat.compare_le_iff.
Qed.

Notation total := (total par path_rank count).
(** The hierarchy that [build] gives. *)
Definition built : Hierarchy :=
  raised build_order (total (share file_weight all_rows)) (total (share folder_weight all_rows))
    (total (share size_of all_rows)).

Lemma raised_ext order f f' g g' b b' :
  (∀ i, i < count → f i = f' i) → (∀ i, i < count → g i = g' i) → (∀ i, i < count → b i = b' i) →
  raised order f g b = raised order f' g' b'.
Proof.
  intros Hf Hg Hb. unfold raised. rewrite (tabulate_ext f f'), (tabulate_ext g g') by done.
  rewrite (tabulate_ext (λ i, checked (b i)) (λ i, checked (b' i))); [done|]. intros i Hi. by rewrite Hb.
Qed.
Lemma build_spec : cancels_to (build s) (Ok built).
Proof.
  destruct folder_files as (files & Hfiles & Hpaths).
  eapply cancels_bind; [apply collect_spec|]. eapply cancels_bind; [by apply cancels_some|].
  cbv zeta. rewrite Hpaths, dirs_size.
  destruct (cancels_fold_inv (place s dirs) (λ n t, t = placed (take n all_rows)) all_rows (placed []))
    as (r & Hr & ->).
  { done. }
  { intros i slot t Hi ->. rewrite (take_S_r _ _ slot Hi). eexists. split; [|reflexivity].
    apply place_spec. by eapply list_elem_of_lookup_2. }
  rewrite firstn_all in Hr. eapply cancels_bind; [rewrite !tabulate_replicate; exact Hr|].
  fold build_order.
  replace built with (raised build_order (foldl up (share file_weight all_rows) build_order)
    (foldl up (share folder_weight all_rows) build_order) (foldl up (share size_of all_rows) build_order)).
  - apply (accumulate_all build_order). intros i Hi.
    destruct build_order_children_first as [Hp _]. rewrite Hp in Hi. apply elem_of_seq in Hi. lia.
  - apply raised_ext; intros i Hi;
      apply (accumulates par path_rank count par_rank par_count); done || apply build_order_children_first.
Qed.

(** *** Reading the columns back *)

(** The rows of the snapshot, and sums over them. *)
Definition live_rows : list F := omap (at_ s) all_rows.
Definition count_rows (what : F → bool) : N := N.of_nat (length (filter what live_rows)).
Definition is_below (p : text) (f : F) : bool := bool_decide (p ∈ strict_ancestors (path_text f)).
Definition is_child (p : text) (f : F) : bool := bool_decide (path_parent (path_text f) = Some p).

Lemma Nsum_rows (w : N → N) (v : F → N) :
  (∀ slot f, slot ∈ all_rows → at_ s slot = Some f → w slot = v f) → Nsum w all_rows = Nsum v live_rows.
Proof.
  unfold live_rows. intros Hw. assert (Hlive : ∀ slot, slot ∈ all_rows → ∃ f, at_ s slot = Some f)
    by apply live_row.
  induction all_rows as [|slot rows IH]; [done|]. simpl.
  destruct (Hlive slot) as [f Hf]; [left|]. rewrite Hf. simpl.
  rewrite (Hw slot f), IH; [done|..]; try done; try left; intros;
    [apply Hw|apply Hlive]; by right || done.
Qed.
Lemma total_below w i p : folder_paths !! i = Some p →
  total (share w all_rows) i =
  Nsum (λ slot, indicator (bool_decide (p ∈ strict_ancestors (path_of slot))) * w slot)%N all_rows.
Proof.
  intros Hi. unfold Forest.total, share.
  rewrite (Nsum_ext _ (λ c, Nsum (λ slot, indicator (bool_decide (home slot = Some c)) *
    (indicator (bool_decide (i ∈ chain c)) * w slot)) all_rows)%N).
  - rewrite Nsum_swap. apply Nsum_ext. intros slot Hs.
    pose proof (home_chain slot i p Hi) as Hc. destruct (home slot) as [c0|] eqn:Hh.
    + rewrite <-(bool_decide_ext _ _ Hc).
      rewrite <-(Nsum_single (λ c, indicator (bool_decide (i ∈ chain c)) * w slot)%N c0 (seq 0 count)).
      * apply Nsum_ext. intros c _. do 2 f_equal. apply bool_decide_ext. naive_solver.
      * apply NoDup_seq.
      * apply elem_of_seq. apply home_count in Hh. lia.
    + rewrite Nsum_zero; [by rewrite <-(bool_decide_ext _ _ Hc)|]. intros c _.
      by rewrite bool_decide_false by done.
  - intros c _. rewrite N.mul_comm, <-Nsum_scale. apply Nsum_ext. intros slot _. lia.
Qed.
(** A direct child is a row whose parent path is the directory's. *)
Lemma share_child w i p : folder_paths !! i = Some p →
  share (λ slot, indicator (direct slot) * w slot)%N all_rows i =
  Nsum (λ slot, indicator (bool_decide (path_parent (path_of slot) = Some p)) * w slot)%N all_rows.
Proof.
  intros Hi. apply Nsum_ext. intros slot _.
  enough (E : (indicator (bool_decide (home slot = Some i)) * indicator (direct slot) =
    indicator (bool_decide (path_parent (path_of slot) = Some p)))%N) by (rewrite <-E; lia).
  unfold home, direct.
  destruct (nearest_cases (path_of slot)) as [[Hn Hnone]|(q & j & xs & Hn & Hq & Hl & Hnone)]; rewrite Hn.
  - rewrite bool_decide_false, bool_decide_false by
      (done || (intros Hp; apply (Hnone p i); [rewrite strict_ancestors_eq, Hp; left|done])). done.
  - simpl. destruct (decide (path_parent (path_of slot) = Some p)) as [Hp|Hp].
    + rewrite strict_ancestors_eq, Hp in Hl. destruct xs as [|x xs]; simpl in Hl.
      * injection Hl as ->. rewrite (folder_path_eq i j q) by done. rewrite Hp.
        by rewrite !bool_decide_true by done.
      * exfalso. injection Hl as -> _. by apply (Hnone x i); [left|].
    + rewrite (bool_decide_false (path_parent _ = _)) by done.
      destruct (decide (j = i)) as [->|Hne]; [|by rewrite bool_decide_false by congruence].
      rewrite Hq in Hi. injection Hi as ->. rewrite (bool_decide_false (Some p = _)) by congruence.
      cbn [indicator]. lia.
Qed.
Lemma indicator_and a b : (indicator a * indicator b)%N = indicator (a && b).
Proof. by destruct a, b. Qed.
Lemma row_path slot f : at_ s slot = Some f → path_of slot = path_text f.
Proof. intros Hf. unfold path_of. by rewrite Hf. Qed.
Lemma row_what slot f what : at_ s slot = Some f → row slot what = what f.
Proof. intros Hf. unfold row. by rewrite Hf. Qed.
End hierarchy.

(** What a hierarchy says of its snapshot: one node per live directory that is
    not a link, with the numbers of rows in it and below it, and the sum of
    the sizes below it unless that sum overflows 64 bits. *)
Definition describes `{Json} {LB} `{Roaring LB} {F} `{!FileEntry F}
    (s : SearchSnapshot (LB := LB) (F := F)) (tree : Hierarchy) : Prop :=
  (∀ slot, slot ∈ directory_slots tree ↔
    slot ∈ bm_iter (live s) ∧ ∃ f, at_ s slot = Some f ∧ is_folder f = true) ∧
  ∀ i slot dir, directory_slots tree !! i = Some slot → at_ s slot = Some dir →
    let p := path_text dir in
    own_files tree !! i = Some (count_rows s (λ f, negb (is_folder f) && is_child p f)) ∧
    own_folders tree !! i = Some (count_rows s (λ f, is_folder f && is_child p f)) ∧
    all_files tree !! i = Some (count_rows s (λ f, negb (is_folder f) && is_below p f)) ∧
    all_folders tree !! i = Some (count_rows s (λ f, is_folder f && is_below p f)) ∧
    sizes tree !! i = Some (checked (Nsum (λ f,
      if negb (is_folder f) && is_below p f then FileEntry.size f else 0%N) (live_rows s))).

Section built.
Context `{UnstableSort, Json} {LB : Type} `{RoaringLaws LB} {F : Type} `{!FileEntry F}.
Context (s : SearchSnapshot (LB := LB) (F := F)) (Hok : snapshot_ok s).

(** A sum of products of conditions, over slots, counts rows. *)
Lemma count_slots (v w : N → N) (what : F → bool) :
  (∀ slot f, at_ s slot = Some f → (v slot * w slot)%N = indicator (what f)) →
  Nsum (λ slot, v slot * w slot)%N (bm_iter (live s)) = count_rows s what.
Proof.
  intros Hw. unfold count_rows. rewrite <-Nsum_count. apply (Nsum_rows s Hok).
  intros slot f _ Hf. by apply Hw.
Qed.
Lemma file_weight_row slot f : at_ s slot = Some f → file_weight s slot = indicator (negb (is_folder f)).
Proof. intros Hf. unfold file_weight. by rewrite (row_what s slot f _ Hf). Qed.
Lemma folder_weight_row slot f : at_ s slot = Some f → folder_weight s slot = indicator (is_folder f).
Proof. intros Hf. unfold folder_weight. by rewrite (row_what s slot f _ Hf). Qed.

Lemma built_describes : describes s (built s).
Proof.
  split; [apply folder_slot|]. intros i slot dir Hs Hdir p.
  destruct (folder_slot_path s i slot Hs) as (Hp & _ & _). rewrite (row_path s slot dir Hdir) in Hp.
  pose proof (lookup_lt_Some _ _ _ Hp) as Hi. simpl.
  rewrite !tabulate_lookup by done.
  rewrite !(share_child s Hok _ i p Hp), !(total_below s Hok _ i p Hp). split_and!; do 2 f_equal.
  - apply count_slots. intros k f Hf.
    by rewrite (file_weight_row k f), (row_path s k f), indicator_and, andb_comm.
  - apply count_slots. intros k f Hf.
    by rewrite (folder_weight_row k f), (row_path s k f), indicator_and, andb_comm.
  - apply count_slots. intros k f Hf.
    by rewrite (file_weight_row k f), (row_path s k f), indicator_and, andb_comm.
  - apply count_slots. intros k f Hf.
    by rewrite (folder_weight_row k f), (row_path s k f), indicator_and, andb_comm.
  - apply (Nsum_rows s Hok). intros k f _ Hf. unfold size_of, is_below.
    rewrite Hf, (row_path s k f Hf). destruct (is_folder f); simpl; [lia|].
    case_bool_decide; simpl; lia.
Qed.
End built.

(** C12: The hierarchy is exact.  On a snapshot with distinct paths, [build] never
    indexes out of range and, unless it is cancelled, gives for every live
    directory the exact numbers of files and folders directly in it and
    anywhere below it, and the exact sum of the file sizes below it or nothing
    when that sum exceeds 64 bits.  Rows whose own parent is not indexed are
    counted in the nearest indexed ancestors; links to directories count as
    files. *)
Theorem hierarchy_is_exact `{UnstableSort, Json} {LB} `{RoaringLaws LB} {F} `{!FileEntry F}
    (s : SearchSnapshot (LB := LB) (F := F)) :
  snapshot_ok s → ∃ tree, cancels_to (build s) (Ok tree) ∧ describes s tree.
Proof. intros Hok. exists (built s). split; [by apply build_spec|by apply built_describes]. Qed.

(** ** Coverage, and the answers about folders *)

Section coverage.
Context `{UnstableSort, Json} {LB : Type} `{RoaringLaws LB} {F : Type} `{!FileEntry F}.
Context (s : SearchSnapshot (LB := LB) (F := F)) (Hok : snapshot_ok s).

(** What the coverage record says of a directory: the index is complete, a
    root is the directory or an ancestor, and no gap is one, or lies below. *)
Definition coverage_complete (coverage : Value) : bool :=
  default false (v ← json_get coverage (lit "complete"); as_bool v).
Definition covers (coverage : Value) (p : text) : Prop :=
  coverage_complete coverage = true ∧
  (∃ root, root ∈ texts_of (json_get coverage (lit "roots")) ∧ root ∈ ancestors p) ∧
  ∀ gap, gap ∈ texts_of (json_get coverage (lit "uncovered")) → gap ∉ ancestors p ∧ p ∉ ancestors gap.
Definition uncertain_path (coverage : Value) (p : text) : bool :=
  let roots : gset text := list_to_set (texts_of (json_get coverage (lit "roots"))) in
  let gaps : gset text := list_to_set (texts_of (json_get coverage (lit "uncovered"))) in
  negb (coverage_complete coverage) ||
  negb (existsb (λ q, bool_decide (q ∈ roots)) (ancestors p)) ||
  (existsb (λ gap, bool_decide (p ∈ ancestors gap)) (elements gaps) ||
   existsb (λ q, bool_decide (q ∈ gaps)) (ancestors p)).

(** The exact answer about one path. *)
Definition total_size (p : text) : option N :=
  checked (Nsum (λ f, if negb (is_folder f) && is_below p f then FileEntry.size f else 0%N) (live_rows s)).
Inductive answers (coverage : Value) (path : text) : FolderRow → Prop :=
| answer_folder f complete :
    f ∈ live_rows s → is_folder f = true → path_text f = path →
    (complete = true ↔ covers coverage path ∧ is_Some (total_size path)) →
    answers coverage path
      (Folder path complete (if complete then total_size path else None) (total_size path)
         (count_rows s (is_child path)) (count_rows s (is_below path)))
| answer_not_indexed :
    (∀ f, f ∈ live_rows s → is_folder f = true → path_text f ≠ path) →
    answers coverage path (NotIndexed path).

Lemma existsb_elem {A} (f : A → bool) l : existsb f l = true ↔ ∃ x, x ∈ l ∧ f x = true.
Proof. rewrite existsb_exists. by setoid_rewrite list_elem_of_In. Qed.
Lemma uncertain_covers coverage p : uncertain_path coverage p = false ↔ covers coverage p.
Proof.
  unfold uncertain_path, covers. rewrite !orb_false_iff, !negb_false_iff, existsb_elem.
  rewrite <-!not_true_iff_false, !existsb_elem.
  setoid_rewrite bool_decide_eq_true. setoid_rewrite elem_of_elements.
  setoid_rewrite elem_of_list_to_set. split.
  - intros [[Hc (root & Ha & Hr)] [Hg Hn]]. split_and!; [done|by exists root|].
    intros gap Hgap. split; intros Hin; [apply Hn|apply Hg]; by exists gap.
  - intros (Hc & (root & Hr & Ha) & Hgap). split_and!; [done|by exists root|..].
    + intros (gap & Hin & Hp). by apply Hgap in Hin as [_ ?].
    + intros (q & Hq & Hin). by apply Hgap in Hin as [? _].
Qed.

Lemma gap_ancestors_spec (gaps : list text) (found : gset text) :
  ∃ r, cancels_to (p_fold (λ (found : gset text) gap,
      check_cancelled;; mret (found ∪ list_to_set (ancestors gap))) gaps found) (Ok r) ∧
    ∀ p, p ∈ r ↔ p ∈ found ∨ ∃ gap, gap ∈ gaps ∧ p ∈ ancestors gap.
Proof.
  revert found. induction gaps as [|gap gaps IH]; intros found.
  { exists found. split; [apply cancels_ret|]. set_solver. }
  destruct (IH (found ∪ list_to_set (ancestors gap))) as (r & Hr & Hspec).
  exists r. split.
  - eapply cancels_bind; [eapply cancels_bind; [apply cancels_check|apply cancels_ret]|exact Hr].
  - intros p. rewrite Hspec, elem_of_union, elem_of_list_to_set.
    setoid_rewrite elem_of_cons. naive_solver.
Qed.
Lemma incomplete_spec tree coverage : directory_slots tree = folder_slots s →
  cancels_to (incomplete tree s coverage) (Ok (uncertain_path coverage <$> folder_paths s)).
Proof.
  intros Htree. unfold incomplete.
  set (gaps := list_to_set (texts_of (json_get coverage (lit "uncovered"))) : gset text).
  destruct (gap_ancestors_spec (elements gaps) ∅) as (r & Hr & Hspec).
  eapply cancels_bind; [exact Hr|]. rewrite Htree. clear Htree.
  destruct (cancels_fold_inv (λ uncertain slot,
    check_cancelled;; file ← p_some (at_ s slot);
    mret (uncertain ++ [negb (coverage_complete coverage)
     || negb (existsb (λ p, bool_decide (p ∈ (list_to_set (texts_of (json_get coverage (lit "roots"))) : gset text)))
                (ancestors (path_text file)))
     || (bool_decide (path_text file ∈ r) || existsb (λ p, bool_decide (p ∈ gaps)) (ancestors (path_text file)))]))
    (λ n out, out = uncertain_path coverage <$> (path_of s <$> take n (folder_slots s)))
    (folder_slots s) []) as (out & Hout & ->).
  - done.
  - intros i slot out Hi ->. assert (Hlive : slot ∈ bm_iter (live s)).
    { by apply list_elem_of_lookup_2, folder_slot in Hi as [? _]. }
    destruct (live_row s Hok slot Hlive) as [f Hf]. eexists. split.
    + eapply cancels_bind; [apply cancels_check|]. eapply cancels_bind; [by apply cancels_some|].
      apply cancels_ret.
    + rewrite (take_S_r _ _ slot Hi), !fmap_app. simpl. rewrite (row_path s slot f Hf).
      do 2 f_equal. unfold uncertain_path. f_equal. f_equal.
      apply eq_true_iff_eq. rewrite bool_decide_eq_true, Hspec, existsb_elem.
      setoid_rewrite bool_decide_eq_true. set_solver.
  - rewrite firstn_all in Hout. exact Hout.
Qed.

Lemma count_split (what : F → bool) :
  (count_rows s (λ f, negb (is_folder f) && what f) + count_rows s (λ f, is_folder f && what f))%N =
  count_rows s what.
Proof.
  unfold count_rows. rewrite <-!Nsum_count, <-Nsum_plus. apply Nsum_ext. intros f _.
  by destruct (is_folder f), (what f).
Qed.
Lemma live_rows_elem f : f ∈ live_rows s ↔ ∃ slot, slot ∈ bm_iter (live s) ∧ at_ s slot = Some f.
Proof. unfold live_rows. apply list_elem_of_omap. Qed.
Lemma folder_index path :
  (∃ i slot f, folder_slots s !! i = Some slot ∧ at_ s slot = Some f ∧ path_text f = path ∧
     folder_paths s !! i = Some path ∧ is_folder f = true) ∨
  (∀ i, folder_paths s !! i ≠ Some path) ∧ (∀ f, f ∈ live_rows s → is_folder f = true → path_text f ≠ path).
Proof.
  destruct (decide (path ∈ folder_paths s)) as [Hin|Hout].
  - left. apply list_elem_of_lookup in Hin as [i Hi]. unfold folder_paths in Hi.
    apply list_lookup_fmap_Some in Hi as (slot & -> & Hs).
    pose proof (list_elem_of_lookup_2 _ _ _ Hs) as (Hl & f & Hf & Hd)%folder_slot.
    exists i, slot, f. split_and!; try done; [by rewrite (row_path s slot f Hf)|].
    unfold folder_paths. by rewrite list_lookup_fmap, Hs.
  - right. split.
    + intros i Hi. apply Hout. by eapply list_elem_of_lookup_2.
    + intros f (slot & Hs & Hf)%live_rows_elem Hd <-. apply Hout. unfold folder_paths.
      apply list_elem_of_fmap. exists slot. split; [by rewrite (row_path s slot f Hf)|].
      apply folder_slot. eauto.
Qed.

(** The row of an indexed folder is the exact answer. *)
Lemma folder_row_spec coverage i slot f : folder_slots s !! i = Some slot → at_ s slot = Some f →
  is_folder f = true →
  ∃ row, folder_row (built s) (uncertain_path coverage <$> folder_paths s) i (path_text f) = Some row ∧
         answers coverage (path_text f) row.
Proof.
  intros Hs Hf Hd. destruct (built_describes s Hok) as [_ Hcols].
  destruct (Hcols i slot f Hs Hf) as (Hof & Hod & Haf & Had & Hz).
  destruct (folder_slot_path s i slot Hs) as (Hp & Hlive & _). rewrite (row_path s slot f Hf) in Hp.
  unfold folder_row. rewrite list_lookup_fmap, Hp, Hz, Hof, Hod, Haf, Had. simpl.
  rewrite !count_split. eexists. split; [reflexivity|].
  apply (answer_folder coverage (path_text f) f
    (negb (uncertain_path coverage (path_text f)) && bool_decide (is_Some (total_size (path_text f))))).
  - apply live_rows_elem. by exists slot.
  - done.
  - done.
  - rewrite andb_true_iff, negb_true_iff, uncertain_covers, bool_decide_eq_true. done.
Qed.
(** The loop of [info]: every answer it stores is exact, and no requested
    folder is missed. *)
Lemma info_found coverage paths :
  ∃ found,
    cancels_to (p_fold (λ (found : gmap text FolderRow) '(index, slot),
      check_cancelled;; file ← p_some (at_ s slot);
      if bool_decide (path_text file ∈ (list_to_set paths : gset text)) then
        row ← p_some (folder_row (built s) (uncertain_path coverage <$> folder_paths s) index (path_text file));
        mret (<[path_text file := row]> found)
      else mret found) (imap pair (folder_slots s)) ∅) (Ok found) ∧
    ∀ path, path ∈ paths →
      (∀ row, found !! path = Some row → answers coverage path row) ∧
      (∀ i, folder_paths s !! i = Some path → is_Some (found !! path)).
Proof.
  destruct (cancels_fold_inv (λ (found : gmap text FolderRow) '(index, slot),
    check_cancelled;; file ← p_some (at_ s slot);
    if bool_decide (path_text file ∈ (list_to_set paths : gset text)) then
      row ← p_some (folder_row (built s) (uncertain_path coverage <$> folder_paths s) index (path_text file));
      mret (<[path_text file := row]> found)
    else mret found)
    (λ n found, ∀ path, path ∈ paths →
      (∀ row, found !! path = Some row → answers coverage path row) ∧
      (∀ i, i < n → folder_paths s !! i = Some path → is_Some (found !! path)))
    (imap pair (folder_slots s)) ∅) as (found & Hfound & Hspec).
  - intros path _. split; [intros row; by rewrite lookup_empty|lia].
  - intros n [i slot] found Hi Hinv. rewrite list_lookup_imap in Hi.
    apply fmap_Some in Hi as (slot' & Hs & [= -> ->]).
    pose proof (list_elem_of_lookup_2 _ _ _ Hs) as (Hl & f & Hf & Hd)%folder_slot.
    destruct (folder_slot_path s n slot' Hs) as (Hp & _). rewrite (row_path s slot' f Hf) in Hp.
    destruct (folder_row_spec coverage n slot' f Hs Hf Hd) as (row & Hrow & Hans).
    destruct (decide (path_text f ∈ paths)) as [Hreq|Hreq].
    + exists (<[path_text f := row]> found). split.
      * eapply cancels_bind; [apply cancels_check|]. eapply cancels_bind; [by apply cancels_some|].
        rewrite bool_decide_true by by apply elem_of_list_to_set.
        eapply cancels_bind; [by apply cancels_some|apply cancels_ret].
      * intros path Hpath. destruct (Hinv path Hpath) as [Hi1 Hi2].
        destruct (decide (path = path_text f)) as [->|Hne].
        -- rewrite lookup_insert_eq. split; [by intros ? [= <-]|by eexists].
        -- rewrite lookup_insert_ne by done. split; [done|]. intros j Hj Hjp.
           apply (Hi2 j); [|done]. assert (j ≠ n) by congruence. lia.
    + exists found. split.
      * eapply cancels_bind; [apply cancels_check|]. eapply cancels_bind; [by apply cancels_some|].
        rewrite bool_decide_false by by rewrite elem_of_list_to_set. apply cancels_ret.
      * intros path Hpath. destruct (Hinv path Hpath) as [Hi1 Hi2]. split; [done|].
        intros j Hj Hjp. apply (Hi2 j); [|done]. assert (j ≠ n) by congruence. lia.
  - exists found. split; [exact Hfound|]. rewrite length_imap in Hspec. intros path Hpath.
    destruct (Hspec path Hpath) as [Hsome Hfind]. split; [done|]. intros i Hi. apply (Hfind i); [|done].
    apply lookup_lt_Some in Hi. unfold folder_paths in Hi. by rewrite length_fmap in Hi.
Qed.
End coverage.

(** ** Relationship predicates *)

Section related.
Context `{UnstableSort, Chrono, Unicode, Pcre, Memmem, Json}.
Context {B LB : Type} `{RoaringLaws B, RoaringLaws LB} {F : Type} `{!FileEntry F}.
Context (s : SearchSnapshot (LB := LB) (F := F)) (Hok : snapshot_ok s).
Context (content : F → result (option text)) (coverage : Value) (recursive : bool) (inner : Query B).
(** The inner query's value on each row, its body read if it needs one. *)
Context (value : F → option bool).
Context (Hvalue : ∀ f, f ∈ live_rows s →
  (body ← (if requires_content inner then content f else Ok None); indexed_truth inner f body) = Ok (value f)).
(** A row's parent text is its path's parent. *)
Context (Hparent : ∀ f p, f ∈ live_rows s → path_parent (path_text f) = Some p → FileEntry.parent f = p).
Notation count := (length (folder_paths s)).
Notation all_rows := (bm_iter (live s)).

(** The row gives evidence to its home: always, or only as a direct child. *)
Definition near (slot : N) (f : F) : bool :=
  recursive || match home s slot with
               | Some i => bool_decide (FileEntry.parent f = folder_paths s !!! i)
               | None => false
               end.
Definition evidence (v : option bool) (slot : N) : N :=
  match at_ s slot with
  | Some f => indicator (near slot f && bool_decide (value f = v))
  | None => 0%N
  end.
Definition uncertain (i : nat) : N := indicator (uncertain_path coverage (folder_paths s !!! i)).
Definition gathered (rows : list N) : list bool * list bool :=
  (tabulate (λ i, 0 <? share s (evidence (Some true)) rows i)%N count,
   tabulate (λ i, 0 <? uncertain i + share s (evidence None) rows i)%N count).

Lemma gathered_unchanged rows slot :
  home s slot = None ∨ evidence (Some true) slot = 0%N ∧ evidence None slot = 0%N →
  gathered (rows ++ [slot]) = gathered rows.
Proof.
  intros Hz. unfold gathered. f_equal.
  - apply (share_unchanged s (λ _ n, 0 <? n)%N). tauto.
  - apply (share_unchanged s (λ i n, 0 <? uncertain i + n)%N). tauto.
Qed.
Lemma positive_true (n m : N) : m = 1%N → true = (0 <? n + m)%N.
Proof. intros ->. symmetry. apply N.ltb_lt. lia. Qed.
Lemma gathered_positive rows slot index :
  home s slot = Some index → evidence (Some true) slot = 1%N → evidence None slot = 0%N →
  update index (λ _, true) (gathered rows).1 = Some (gathered (rows ++ [slot])).1 ∧
  (gathered (rows ++ [slot])).2 = (gathered rows).2.
Proof.
  intros Hh Hp Hu. split.
  - apply (update_share s Hok (λ _ n, 0 <? n)%N); [done|]. intros _ n. by apply positive_true.
  - apply (share_unchanged s (λ i n, 0 <? uncertain i + n)%N). by right.
Qed.
Lemma gathered_unknown rows slot index :
  home s slot = Some index → evidence (Some true) slot = 0%N → evidence None slot = 1%N →
  update index (λ _, true) (gathered rows).2 = Some (gathered (rows ++ [slot])).2 ∧
  (gathered (rows ++ [slot])).1 = (gathered rows).1.
Proof.
  intros Hh Hp Hu. split.
  - apply (update_share s Hok (λ i n, 0 <? uncertain i + n)%N); [done|]. intros i n.
    rewrite N.add_assoc. by apply positive_true.
  - apply (share_unchanged s (λ _ n, 0 <? n)%N). by right.
Qed.

Lemma read_truth f : f ∈ live_rows s →
  ∃ body, cancels_to (if requires_content inner then p_lift (content f) else mret None) (Ok body) ∧
          indexed_truth inner f body = Ok (value f).
Proof.
  intros Hf. specialize (Hvalue f Hf). destruct (requires_content inner).
  - apply result_bind_Ok in Hvalue as (body & Hb & Ht). exists body. rewrite Hb.
    split; [apply cancels_lift|done].
  - exists None. split; [apply cancels_ret|done].
Qed.
Lemma gather_spec rows slot : slot ∈ all_rows →
  cancels_to (gather s (built s) content recursive inner (gathered rows) slot)
    (Ok (gathered (rows ++ [slot]))).
Proof.
  intros Hs. destruct (live_row s Hok slot Hs) as [f Hf].
  assert (Hlive : f ∈ live_rows s) by (apply live_rows_elem; by exists slot).
  unfold gather. rewrite (surjective_pairing (gathered rows)).
  eapply cancels_bind; [apply cancels_check|].
  eapply cancels_bind; [apply cancels_some, (placed_parent s Hok slot Hs)|].
  destruct (home s slot) as [index|] eqn:Hh.
  2:{ rewrite bool_decide_true, gathered_unchanged by (done || by left). apply cancels_ret. }
  destruct (parent_code_small s Hok index (home_count s Hok slot index Hh)) as [-> Hne].
  rewrite bool_decide_false by done. eapply cancels_bind; [by apply cancels_some|].
  rewrite Nat2N.id. pose proof (home_count s Hok slot index Hh) as Hi.
  destruct (lookup_lt_is_Some_2 (folder_slots s) index) as [dslot Hd].
  { unfold folder_paths in Hi. by rewrite length_fmap in Hi. }
  destruct (folder_slot_path s index dslot Hd) as (Hdp & Hdl & _).
  destruct (live_row s Hok dslot Hdl) as [dir Hdir]. rewrite (row_path s dslot dir Hdir) in Hdp.
  eapply cancels_bind; [by apply cancels_some|]. eapply cancels_bind; [by apply cancels_some|].
  assert (Hnear : negb recursive && negb (view_eq_str (path dir) (FileEntry.parent f)) = negb (near slot f)).
  { unfold near. rewrite Hh, (list_lookup_total_correct _ _ _ Hdp), negb_orb. do 2 f_equal.
    apply eq_true_iff_eq. rewrite view_eq_str_bytes, bool_decide_eq_true. unfold path_text.
    split; congruence. }
  rewrite Hnear. destruct (near slot f) eqn:En; simpl.
  2:{ rewrite gathered_unchanged; [exact (cancels_ret (gathered rows))|]. right. unfold evidence. by rewrite Hf, En. }
  destruct (read_truth f Hlive) as (body & Hbody & Htruth).
  eapply cancels_bind; [exact Hbody|]. eapply cancels_bind; [rewrite Htruth; apply cancels_lift|].
  assert (Hev : ∀ v, evidence v slot = indicator (bool_decide (value f = v))).
  { intros v. unfold evidence. by rewrite Hf, En. }
  destruct (value f) as [[]|] eqn:Ev.
  - destruct (gathered_positive rows slot index Hh) as [Hp Hu]; [by rewrite Hev..|].
    eapply cancels_bind; [by apply cancels_some|]. 
    rewrite (surjective_pairing (gathered (rows ++ [slot]))), Hu.
    exact (cancels_ret ((gathered (rows ++ [slot])).1, (gathered rows).2)).
  - rewrite gathered_unchanged by (right; by rewrite !Hev). exact (cancels_ret (gathered rows)).
  - destruct (gathered_unknown rows slot index Hh) as [Hu Hp]; [by rewrite Hev..|].
    eapply cancels_bind; [by apply cancels_some|]. 
    rewrite (surjective_pairing (gathered (rows ++ [slot]))), Hp.
    exact (cancels_ret ((gathered rows).1, (gathered (rows ++ [slot])).2)).
Qed.

(** *** Spreading upwards *)

Definition spreading (f g : nat → N) : list bool * list bool :=
  (tabulate (λ i, 0 <? f i)%N count, tabulate (λ i, 0 <? g i)%N count).
Lemma positive_or a b : (0 <? a + b)%N = (0 <? a)%N || (0 <? b)%N.
Proof. destruct (N.ltb_spec 0 a), (N.ltb_spec 0 b), (N.ltb_spec 0 (a + b)); simpl; done || lia. Qed.
Lemma spread_spec f g index : index < count →
  cancels_to (spread (built s) (spreading f g) index)
    (Ok (spreading (up (par s) f index) (up (par s) g index))).
Proof.
  intros Hi. destruct (lookup_lt_is_Some_2 (folder_slots s) index) as [slot Hs].
  { unfold folder_paths in Hi. by rewrite length_fmap in Hi. }
  destruct (parent_read s Hok index slot Hs) as [Hread Hcase].
  eapply cancels_bind; [apply cancels_check|]. eapply cancels_bind; [by apply cancels_some|].
  eapply cancels_bind; [apply cancels_some; exact Hread|].
  destruct (par s index) as [p|] eqn:Hp.
  - destruct Hcase as (Hne & Hpe & Hpc). rewrite bool_decide_false by done. rewrite Hpe.
    eapply cancels_bind; [by apply cancels_some, (add_up_column s orb (λ n, 0 <? n)%N); first apply positive_or|].
    eapply cancels_bind; [by apply cancels_some, (add_up_column s orb (λ n, 0 <? n)%N); first apply positive_or|].
    apply cancels_ret.
  - rewrite bool_decide_true by done. unfold up. rewrite Hp. apply cancels_ret.
Qed.
Lemma spread_all f g :
  cancels_to (p_fold (spread (built s)) (build_order s) (spreading f g))
    (Ok (spreading (Forest.total (par s) (path_rank s) count f) (Forest.total (par s) (path_rank s) count g))).
Proof.
  pose proof (build_order_children_first s Hok) as Hfirst.
  assert (Hin : ∀ i, i ∈ build_order s → i < count).
  { intros i Hi. destruct Hfirst as [Hp _]. rewrite Hp in Hi. apply elem_of_seq in Hi. lia. }
  replace (spreading (Forest.total _ _ _ f) _) with
    (spreading (foldl (up (par s)) f (build_order s)) (foldl (up (par s)) g (build_order s))).
  - clear Hfirst. revert f g. induction (build_order s) as [|i order IH]; intros f g; [apply cancels_ret|].
    eapply cancels_bind; [apply spread_spec, Hin; left|]. apply IH. intros j ?. apply Hin. by right.
  - unfold spreading. f_equal; apply tabulate_ext; intros i Hi; f_equal;
      by apply (accumulates _ _ _ (par_rank s Hok) (par_count s Hok)).
Qed.

(** *** Collecting the identifiers *)

Lemma collect_ids_spec (P U : nat → bool) :
  ∃ r, collect_ids (B := B) s (built s) (tabulate P count) (tabulate U count) = Some r ∧
    ∀ x, (bm_contains x (yes r) = true ↔ ∃ i slot f, folder_slots s !! i = Some slot ∧
            at_ s slot = Some f ∧ id_u64 f = x ∧ P i = true) ∧
         (bm_contains x (unknown r) = true ↔ ∃ i slot f, folder_slots s !! i = Some slot ∧
            at_ s slot = Some f ∧ id_u64 f = x ∧ P i = false ∧ U i = true).
Proof.
  unfold collect_ids. change (directory_slots (built s)) with (folder_slots s).
  assert (Hin : ∀ i slot, folder_slots s !! i = Some slot → (∃ f, at_ s slot = Some f) ∧ i < count).
  { intros i slot Hs. destruct (folder_slot_path s i slot Hs) as (Hp & Hl & _).
    split; [by apply live_row|by eapply lookup_lt_Some]. }
  induction (folder_slots s) as [|slot slots IH] using rev_ind.
  { eexists. split; [reflexivity|]. intros x. simpl. rewrite !contains_new.
    split; (split; [done|]); intros (i & slot & f & Hs & _); done. }
  destruct IH as (r & Hr & Hspec).
  { intros i k Hk. apply Hin. by apply lookup_app_l_Some. }
  destruct (Hin (length slots) slot) as [[f Hf] Hlt]; [by apply list_lookup_middle|].
  rewrite imap_app, foldl_app, Hr. simpl. rewrite Nat.add_0_r, Hf. simpl.
  rewrite !tabulate_lookup by done. simpl. eexists. split; [reflexivity|]. intros x.
  setoid_rewrite lookup_snoc_Some. destruct (Hspec x) as [Hy Hu].
  assert (Hlast : ∀ Q : nat → Prop,
    (∃ i k g, (i < length slots ∧ slots !! i = Some k ∨ i = length slots ∧ slot = k) ∧
       at_ s k = Some g ∧ id_u64 g = x ∧ Q i) ↔
    (∃ i k g, slots !! i = Some k ∧ at_ s k = Some g ∧ id_u64 g = x ∧ Q i) ∨
    (x = id_u64 f ∧ Q (length slots))).
  { intros Q. split.
    - intros (i & k & g & [[_ Hk]|[-> <-]] & Hg & Hx & HQ); [left; by exists i, k, g|].
      right. rewrite Hf in Hg. injection Hg as <-. done.
    - intros [(i & k & g & Hk & Hg & Hx & HQ)|[-> HQ]].
      + exists i, k, g. split; [left; split; [by eapply lookup_lt_Some|done]|done].
      + exists (length slots), slot, f. split; [by right|done]. }
  rewrite (Hlast (λ i, P i = true)), (Hlast (λ i, P i = false ∧ U i = true)), <-Hy, <-Hu.
  destruct (P (length slots)) eqn:EP; [|destruct (U (length slots)) eqn:EU]; simpl;
    rewrite ?contains_insert, ?orb_true_iff, ?N.eqb_eq; intuition congruence.
Qed.

(** *** What the resolved predicate means *)

Definition is_related (p : text) (f : F) : bool := if recursive then is_below p f else is_child p f.
(** Some related row satisfies the inner query. *)
Definition related_true (p : text) : Prop :=
  ∃ f, f ∈ live_rows s ∧ is_related p f = true ∧ value f = Some true.
(** Nothing excludes it: a related row is undecided, or the index does not
    cover the directory (or, looking below it, one of its descendants). *)
Definition related_open (p : text) : Prop :=
  (∃ f, f ∈ live_rows s ∧ is_related p f = true ∧ value f = None) ∨
  uncertain_path coverage p = true ∨
  (recursive = true ∧ ∃ d, d ∈ live_rows s ∧ is_folder d = true ∧ is_below p d = true ∧
     uncertain_path coverage (path_text d) = true).

Lemma child_home slot i p :
  folder_paths s !! i = Some p → path_parent (path_of s slot) = Some p → home s slot = Some i.
Proof.
  intros Hi Hp. unfold home.
  destruct (nearest_cases s Hok (path_of s slot)) as [[Hn Hnone]|(q & j & xs & Hn & Hq & Hl & Hnone)].
  - exfalso. apply (Hnone p i); [|done]. rewrite strict_ancestors_eq, Hp. left.
  - rewrite Hn. simpl. rewrite strict_ancestors_eq, Hp in Hl. destruct xs as [|x xs]; simpl in Hl.
    + injection Hl as -> _. f_equal. by eapply (folder_path_eq s Hok).
    + exfalso. injection Hl as -> _. by apply (Hnone x i); [left|].
Qed.
Lemma home_parent slot f i p : f ∈ live_rows s → at_ s slot = Some f → folder_paths s !! i = Some p →
  (home s slot = Some i ∧ FileEntry.parent f = p) ↔ path_parent (path_text f) = Some p.
Proof.
  intros Hlive Hf Hi. rewrite <-(row_path s slot f Hf). split.
  - intros [Hh Hpar]. unfold home in Hh. apply fmap_Some in Hh as ([q j] & Hn & _).
    apply (nearest_ancestor s Hok) in Hn as [_ Hq]. rewrite strict_ancestors_eq in Hq.
    rewrite (row_path s slot f Hf) in *.
    destruct (path_parent (path_text f)) as [r|] eqn:E; [|by apply elem_of_nil in Hq].
    by rewrite <-(Hparent f r Hlive E), Hpar.
  - intros Hp. split; [by apply (child_home slot i p)|]. rewrite (row_path s slot f Hf) in Hp. by apply Hparent.
Qed.
Definition weighed (v : option bool) (i : nat) : N :=
  if recursive then Forest.total (par s) (path_rank s) count (share s (evidence v) all_rows) i
  else share s (evidence v) all_rows i.
Lemma evidence_positive v slot f : at_ s slot = Some f →
  (0 < evidence v slot)%N ↔ near slot f = true ∧ value f = v.
Proof.
  intros Hf. unfold evidence. rewrite Hf. destruct (near slot f); simpl; [|split; [lia|by intros []]].
  case_bool_decide; simpl; split; [done|lia|lia|by intros []].
Qed.
Lemma weighed_positive v i p : folder_paths s !! i = Some p →
  (0 <? weighed v i)%N = true ↔ ∃ f, f ∈ live_rows s ∧ is_related p f = true ∧ value f = v.
Proof.
  intros Hi. unfold weighed, is_related. pose proof evidence_positive as Hev. unfold near in Hev.
  destruct recursive eqn:Er.
  - rewrite (total_below s Hok _ i p Hi), Nsum_positive_elem. split.
    + intros (slot & Hs & Hpos). apply indicator_positive in Hpos as [Hb He]. destruct (live_row s Hok slot Hs) as [f Hf].
      destruct (proj1 (Hev v slot f Hf) He) as [_ Hv]. exists f. split_and!; [apply live_rows_elem; by exists slot| |done].
      by rewrite (row_path s slot f Hf) in Hb.
    + intros (f & Hlive & Hb & Hv). apply live_rows_elem in Hlive as (slot & Hs & Hf). exists slot. split; [done|].
      apply indicator_positive. rewrite (row_path s slot f Hf). split; [done|]. by apply (Hev v slot f Hf).
  - unfold share. rewrite Nsum_positive_elem. split.
    + intros (slot & Hs & Hpos). apply indicator_positive in Hpos as [Hh He].
      apply bool_decide_eq_true in Hh.
      destruct (live_row s Hok slot Hs) as [f Hf]. assert (Hlive : f ∈ live_rows s) by (apply live_rows_elem; by exists slot).
      destruct (proj1 (Hev v slot f Hf) He) as [Hn Hv]. rewrite Hh in Hn. simpl in Hn.
      rewrite bool_decide_eq_true, (list_lookup_total_correct _ _ _ Hi) in Hn. exists f.
      split_and!; [done| |done]. apply bool_decide_eq_true. by apply (home_parent slot f i p).
    + intros (f & Hlive & Hb%bool_decide_eq_true & Hv).
      destruct (proj1 (live_rows_elem s f) Hlive) as (slot & Hs & Hf).
      apply (home_parent slot f i p Hlive Hf Hi) in Hb as [Hh Hp].
      exists slot. split; [done|]. apply indicator_positive. rewrite bool_decide_true by done.
      split; [done|]. apply (Hev v slot f Hf). rewrite Hh. simpl.
      by rewrite bool_decide_true by by rewrite (list_lookup_total_correct _ _ _ Hi).
Qed.
Lemma uncertain_below i p : folder_paths s !! i = Some p →
  (0 <? Forest.total (par s) (path_rank s) count uncertain i)%N = true ↔
  uncertain_path coverage p = true ∨
  ∃ d, d ∈ live_rows s ∧ is_folder d = true ∧ is_below p d = true ∧ uncertain_path coverage (path_text d) = true.
Proof.
  intros Hi. unfold Forest.total. rewrite Nsum_positive_elem.
  assert (Hc : ∀ c, c ∈ seq 0 count → (0 < indicator (bool_decide (i ∈ chain (par s) (path_rank s) c)) * uncertain c)%N ↔
    p ∈ ancestors (folder_paths s !!! c) ∧ uncertain_path coverage (folder_paths s !!! c) = true).
  { intros c Hc%elem_of_seq. rewrite indicator_positive, bool_decide_eq_true.
    rewrite (chain_ancestors s Hok c i p) by (done || lia).
    unfold uncertain. destruct (uncertain_path coverage _); simpl; split; intros [? ?]; split; done || lia. }
  unfold ancestors in Hc. split.
  - intros (c & Hin & Hpos). apply Hc in Hpos as [Ha Hu]; [|done]. apply elem_of_seq in Hin.
    destruct (lookup_lt_is_Some_2 (folder_paths s) c) as [pc Hpc]; [lia|].
    rewrite (list_lookup_total_correct _ _ _ Hpc) in *.
    apply elem_of_cons in Ha as [<-|Ha]; [by left|]. right.
    unfold folder_paths in Hpc. apply list_lookup_fmap_Some in Hpc as (slot & -> & Hs).
    apply list_elem_of_lookup_2, folder_slot in Hs as (Hl & d & Hd & Hdir).
    rewrite (row_path s slot d Hd) in *. exists d.
    split_and!; [apply live_rows_elem; by exists slot|done|by apply bool_decide_eq_true|done].
  - assert (Hgo : ∀ c pc, folder_paths s !! c = Some pc → p ∈ ancestors pc → uncertain_path coverage pc = true →
      ∃ x, x ∈ seq 0 count ∧ (0 < indicator (bool_decide (i ∈ chain (par s) (path_rank s) x)) * uncertain x)%N).
    { intros c pc Hpc Ha Hu. exists c. assert (Hin : c ∈ seq 0 count).
      { apply elem_of_seq. apply lookup_lt_Some in Hpc. lia. }
      split; [done|]. apply Hc; [done|]. by rewrite (list_lookup_total_correct _ _ _ Hpc). }
    intros [Hu|(d & Hlive & Hdir & Hb%bool_decide_eq_true & Hu)]; [by apply (Hgo i p Hi); [left|]|].
    destruct (folder_index s (path_text d)) as [(c & _ & _ & _ & _ & _ & Hpc & _)|[_ Hnone]].
    + apply (Hgo c _ Hpc); [by right|done].
    + exfalso. by apply (Hnone d).
Qed.

Definition open_weight (i : nat) : N :=
  if recursive then (Forest.total (par s) (path_rank s) count uncertain i + weighed None i)%N
  else (uncertain i + weighed None i)%N.
Lemma gather_all :
  cancels_to (p_fold (gather s (built s) content recursive inner) all_rows (gathered []))
    (Ok (gathered all_rows)).
Proof.
  destruct (cancels_fold_inv (gather s (built s) content recursive inner)
    (λ n st, st = gathered (take n all_rows)) all_rows (gathered [])) as (r & Hr & ->).
  - done.
  - intros k slot st Hk ->. rewrite (take_S_r _ _ slot Hk). eexists. split; [|reflexivity].
    apply gather_spec. by eapply list_elem_of_lookup_2.
  - by rewrite firstn_all in Hr.
Qed.
Lemma gathered_start :
  gathered [] = (replicate (length (directory_slots (built s))) false, uncertain_path coverage <$> folder_paths s).
Proof.
  unfold gathered. simpl. rewrite tabulate_replicate. f_equal.
  - unfold folder_paths. by rewrite length_fmap.
  - apply list_eq. intros i. rewrite list_lookup_fmap. destruct (folder_paths s !! i) as [p|] eqn:E.
    + rewrite tabulate_lookup by by eapply lookup_lt_Some. unfold uncertain. simpl.
      rewrite (list_lookup_total_correct _ _ _ E). by destruct (uncertain_path coverage p).
    + apply lookup_ge_None_2. rewrite tabulate_length. by apply lookup_ge_None_1.
Qed.
Lemma relate_spec :
  ∃ r, cancels_to (relate s (built s) coverage content recursive inner) (Ok r) ∧
    collect_ids (B := B) s (built s) (tabulate (λ i, 0 <? weighed (Some true) i)%N count)
      (tabulate (λ i, 0 <? open_weight i)%N count) = Some r.
Proof.
  destruct (collect_ids_spec (λ i, 0 <? weighed (Some true) i)%N (λ i, 0 <? open_weight i)%N)
    as (r & Hr & _).
  exists r. split; [|done]. unfold relate.
  eapply cancels_bind; [by apply incomplete_spec|]. rewrite <-gathered_start.
  eapply cancels_bind; [apply gather_all|].
  unfold weighed, open_weight, weighed in Hr. destruct recursive.
  - eapply cancels_bind; [apply spread_all|]. apply cancels_some. simpl. rewrite <-Hr. f_equal.
    apply tabulate_ext. intros i _. by rewrite total_plus.
  - eapply cancels_bind; [apply cancels_ret|]. by apply cancels_some.
Qed.
Lemma open_positive i p : folder_paths s !! i = Some p → (0 <? open_weight i)%N = true ↔ related_open p.
Proof.
  intros Hi. unfold open_weight, related_open. rewrite <-(weighed_positive None i p Hi).
  assert (Hu : (0 <? uncertain i)%N = true ↔ uncertain_path coverage p = true).
  { unfold uncertain. rewrite (list_lookup_total_correct _ _ _ Hi). by destruct (uncertain_path coverage p). }
  destruct recursive; rewrite positive_or, orb_true_iff.
  - rewrite (uncertain_below i p Hi). naive_solver.
  - rewrite Hu. naive_solver.
Qed.

(** Directories are told apart by their 64-bit identifiers. *)
Definition distinct_ids : Prop :=
  ∀ f g, f ∈ live_rows s → g ∈ live_rows s → id_u64 f = id_u64 g → path_text f = path_text g.
Lemma bool_cases_iff b P : (b = true ↔ P) → (b = false ↔ ¬ P).
Proof. intros E. rewrite <-E. by destruct b. Qed.
Lemma resolved_truth r : distinct_ids →
  collect_ids (B := B) s (built s) (tabulate (λ i, 0 <? weighed (Some true) i)%N count)
    (tabulate (λ i, 0 <? open_weight i)%N count) = Some r →
  ∀ dir, dir ∈ live_rows s → is_folder dir = true →
    (truth r dir = Some true ↔ related_true (path_text dir)) ∧
    (truth r dir = None ↔ ¬ related_true (path_text dir) ∧ related_open (path_text dir)).
Proof.
  intros Hids Hr dir Hlive Hdir.
  destruct (collect_ids_spec (λ i, 0 <? weighed (Some true) i)%N (λ i, 0 <? open_weight i)%N)
    as (r' & Hr' & Hspec).
  assert (r' = r) as -> by congruence. destruct (Hspec (id_u64 dir)) as [Hy Hu].
  destruct (folder_index s (path_text dir)) as [(i & slot & f & Hs & Hf & Hfp & Hi & Hfd)|[_ Hnone]];
    [|exfalso; by apply (Hnone dir)].
  assert (Hfl : f ∈ live_rows s).
  { apply live_rows_elem. exists slot. split; [|done]. by apply folder_slot_path in Hs as (_ & ? & _). }
  assert (Hsame : f = dir).
  { apply live_rows_elem in Hlive as (k & Hk & Hkf). destruct Hok as (_ & Hdist & _).
    assert (slot = k) as ->; [|congruence].
    apply (Hdist slot k f dir); try done. by apply folder_slot_path in Hs as (_ & ? & _). }
  subst f. assert (Hone : ∀ j k g, folder_slots s !! j = Some k → at_ s k = Some g → id_u64 g = id_u64 dir → j = i).
  { intros j k g Hk Hg Hid. destruct (folder_slot_path s j k Hk) as (Hj & Hkl & _).
    rewrite (row_path s k g Hg) in Hj. apply (folder_path_eq s Hok j i (path_text dir)); [|done].
    rewrite Hj. f_equal. apply Hids; [|done|done]. apply live_rows_elem. by exists k. }
  pose proof (weighed_positive (Some true) i _ Hi) as Hpos. pose proof (open_positive i _ Hi) as Hopen.
  assert (Hyes : bm_contains (id_u64 dir) (yes r) = true ↔ related_true (path_text dir)).
  { rewrite Hy. unfold related_true. rewrite <-Hpos. split.
    - intros (j & k & g & Hk & Hg & Hid & HP). by rewrite (Hone j k g Hk Hg Hid) in HP.
    - intros HP. by exists i, slot, dir. }
  assert (Hunk : bm_contains (id_u64 dir) (unknown r) = true ↔
    ¬ related_true (path_text dir) ∧ related_open (path_text dir)).
  { rewrite Hu, <-Hopen, <-(bool_cases_iff _ _ Hpos). split.
    - intros (j & k & g & Hk & Hg & Hid & HP). by rewrite (Hone j k g Hk Hg Hid) in HP.
    - intros HP. by exists i, slot, dir. }
  unfold truth. destruct (bm_contains (id_u64 dir) (yes r)), (bm_contains (id_u64 dir) (unknown r)); naive_solver.
Qed.
End related.

(** C38: Folder answers are exact.  Asked about any paths, [info] answers in
    order: the exact numbers of children and descendants and the exact size of
    a path that is an indexed directory, with [complete] exactly when the
    coverage record covers the path and the size fits, and the recursive size
    withheld otherwise; and that it is not indexed of any other path. *)
Theorem folder_info_is_exact `{UnstableSort, Json} {LB} `{RoaringLaws LB} {F} `{!FileEntry F}
    (s : SearchSnapshot (LB := LB) (F := F)) coverage paths :
  snapshot_ok s →
  ∃ tree rows, cancels_to (build s) (Ok tree) ∧
    cancels_to (info tree s coverage paths) (Ok (rows, generation s)) ∧
    Forall2 (answers s coverage) paths rows.
Proof.
  intros Hok. exists (built s).
  destruct (info_found s Hok coverage paths) as (found & Hfound & Hspec).
  exists ((λ path, default (NotIndexed path) (found !! path)) <$> paths).
  split; [by apply build_spec|]. split.
  { eapply cancels_bind; [by apply incomplete_spec|]. cbv zeta.
    eapply cancels_bind; [exact Hfound|apply cancels_ret]. }
  apply Forall2_fmap_r, Forall_Forall2_diag, Forall_forall.
  intros path Hpath. destruct (Hspec path Hpath) as [Hsome Hfind].
  change (answers s coverage path (default (NotIndexed path) (found !! path))).
  destruct (found !! path) as [row|]; simpl; [by apply Hsome|]. apply answer_not_indexed.
  destruct (folder_index s path) as [(i & slot & f & Hs & _ & _ & Hp & _)|[_ Hnone]]; [|done].
  exfalso. destruct (Hfind i Hp) as [row Hrow]. done.
Qed.

(** C15: Relationship predicates mean what they say.  On a snapshot with distinct
    paths and identifiers, resolving a relationship whose inner query has a
    value on every row gives, unless it is cancelled, a set of identifiers such
    that a directory satisfies the predicate exactly when some row directly in
    it (or anywhere below it, for the recursive form) satisfies the inner
    query; is undecided exactly when none does but a related row is undecided
    or the index does not cover the directory (or one below it); and fails it
    otherwise.  The answer is marked partial exactly when something is left
    undecided. *)
Theorem relationship_is_exact `{UnstableSort, Chrono, Unicode, Pcre, Memmem, Json} {B LB}
    `{RoaringLaws B, RoaringLaws LB} {F} `{!FileEntry F} (s : SearchSnapshot (LB := LB) (F := F))
    (content : F → result (option text)) coverage recursive (inner resolved : Query B) partial value :
  snapshot_ok s → distinct_ids s →
  (∀ f p, f ∈ live_rows s → path_parent (path_text f) = Some p → FileEntry.parent f = p) →
  (∀ tree, cancels_to (build s) (Ok tree) →
    cancels_to (resolve s tree coverage content inner) (Ok (resolved, partial))) →
  (∀ f, f ∈ live_rows s →
    (body ← (if requires_content resolved then content f else Ok None); indexed_truth resolved f body) =
    Ok (value f)) →
  ∃ tree r, cancels_to (build s) (Ok tree) ∧
    cancels_to (resolve s tree coverage content (QTerm (TRelated recursive inner)))
      (Ok (QTerm (TResolved r), partial || negb (bm_is_empty (unknown r)))) ∧
    ∀ dir, dir ∈ live_rows s → is_folder dir = true →
      (truth r dir = Some true ↔ related_true s recursive value (path_text dir)) ∧
      (truth r dir = None ↔ ¬ related_true s recursive value (path_text dir) ∧
                              related_open s coverage recursive value (path_text dir)).
Proof.
  intros Hok Hids Hparent Hinner Hvalue. pose proof (build_spec s Hok) as Hbuild.
  destruct (relate_spec s Hok content coverage recursive resolved value Hvalue) as (r & Hr & Hcollect).
  exists (built s), r. split; [done|]. split.
  - simpl. eapply cancels_bind; [apply cancels_check|].
    eapply cancels_bind; [by apply Hinner|]. eapply cancels_bind; [exact Hr|apply cancels_ret].
  - by apply (resolved_truth s Hok coverage recursive value Hparent).
Qed.

(** A small index: [/a] with a file, and [/a/b] with a file in an unindexed
    directory of it. *)
Definition sample_entry (id_ : Z) (path_ : text) (size_ : N) (dir : bool) : IndexedFile :=
  {| i_id := id_; i_size := size_; i_modified := 0; i_created := 0; i_changed := 0;
     i_modified_ns := 0; i_changed_ns := 0; i_file_id := 0; i_parent_id := 0; i_flags := 0;
     i_path := path_; i_name := []; i_folded_name := []; i_folded_path := path_;
     i_search_name := []; i_search_path := []; i_parent := default [] (path_parent path_);
     i_extension := []; i_folded_extension := []; i_volume_id := []; i_is_dir := dir;
     i_is_symlink := false; i_content_indexed := false; i_properties := JObject [] |}.
Definition sample_snapshot : SearchSnapshot (LB := gset N) := {|
  entries := [sample_entry 1 (lit "/a") 0 true; sample_entry 2 (lit "/a/f") 5 false;
              sample_entry 3 (lit "/a/b") 0 true; sample_entry 4 (lit "/a/b/c/g") 7 false];
  live := list_to_set [0; 1; 2; 3]%N; generation := 1 |}.
Lemma sample_live slot : slot ∈ bm_iter (live sample_snapshot) → slot ∈ [0; 1; 2; 3]%N.
Proof. replace (bm_iter (live sample_snapshot)) with [0; 1; 2; 3]%N by (vm_compute; reflexivity). done. Qed.
Lemma sample_snapshot_ok : snapshot_ok sample_snapshot.
Proof.
  split_and!.
  - intros slot Hs%sample_live.
    repeat (apply elem_of_cons in Hs as [->|Hs]; [by eexists|]). by apply elem_of_nil in Hs.
  - intros a b fa fb Ha%sample_live Hb%sample_live Hfa Hfb Hp.
    assert (Hpaths : path_text <$> at_ sample_snapshot a = path_text <$> at_ sample_snapshot b)
      by (rewrite Hfa, Hfb; simpl; by rewrite Hp).
    clear - Ha Hb Hpaths.
    repeat (apply elem_of_cons in Ha as [->|Ha]; [|]); [..|by apply elem_of_nil in Ha];
      repeat (apply elem_of_cons in Hb as [->|Hb]; [|]); try (by apply elem_of_nil in Hb);
      done || (vm_compute in Hpaths; discriminate).
  - vm_compute. discriminate.
Qed.
Lemma hierarchy_is_exact_witness :
  ∃ tree, (build sample_snapshot (λ _, false) 0).1 = Ok tree ∧
    all_files tree !! 0 = Some 2%N ∧ own_files tree !! 0 = Some 1%N ∧ sizes tree !! 0 = Some (Some 12%N).
Proof.
  destruct (hierarchy_is_exact sample_snapshot sample_snapshot_ok) as (tree & Hb & _ & Hd).
  pose proof (cancels_never _ _ (λ _, false) 0 Hb (λ _, eq_refl)) as Htree.
  exists tree. split; [exact Htree|].
  assert (Hs : directory_slots tree !! 0 = Some 0%N).
  { vm_compute in Htree. injection Htree as <-. reflexivity. }
  destruct (Hd 0 0%N (sample_entry 1 (lit "/a") 0 true) Hs eq_refl) as (Ho & _ & Ha & _ & Hz).
  cbv zeta in *. rewrite Ho, Ha, Hz. split_and!; vm_compute; reflexivity.
Defined.

Definition sample_coverage : Value :=
  JObject [(lit "complete", JBool true); (lit "roots", JArray [JText (lit "/a")]);
           (lit "uncovered", JArray [JText (lit "/a/b/c/private")])].
Lemma folder_info_is_exact_witness :
  ∃ tree, (build sample_snapshot (λ _, false) 0).1 = Ok tree ∧
    (info tree sample_snapshot sample_coverage [lit "/a/b"; lit "/none"] (λ _, false) 0).1 =
    Ok ([Folder (lit "/a/b") false None (Some 7%N) 0 1; NotIndexed (lit "/none")], 1%N).
Proof.
  destruct (folder_info_is_exact sample_snapshot sample_coverage [lit "/a/b"; lit "/none"]
    sample_snapshot_ok) as (tree & rows & Hb & Hi & _).
  pose proof (cancels_never _ _ (λ _, false) 0 Hb (λ _, eq_refl)) as Htree.
  exists tree. split; [exact Htree|].
  rewrite (cancels_never _ _ (λ _, false) 0 Hi (λ _, eq_refl)).
  rewrite <-(cancels_never _ _ (λ _, false) 0 Hi (λ _, eq_refl)).
  vm_compute in Htree. injection Htree as <-. vm_compute. reflexivity.
Defined.

Definition sample_inner : Query (H := utc_chrono) (gset N) := QTerm (TIsDir false).
Lemma relationship_is_exact_witness :
  ∃ tree r,
    cancels_to (resolve (H0 := utc_chrono) sample_snapshot tree sample_coverage (λ _, Ok None)
      (QTerm (TRelated true sample_inner)))
      (Ok (QTerm (TResolved r), negb (bm_is_empty (unknown r)))) ∧
    truth r (sample_entry 3 (lit "/a/b") 0 true) = Some true.
Proof.
  destruct (relationship_is_exact (H0 := utc_chrono) sample_snapshot (λ _, Ok None) sample_coverage true
    sample_inner sample_inner false (λ f, Some (Bool.eqb (i_is_dir f) false))) as (tree & r & _ & Hr & Hspec).
  - apply sample_snapshot_ok.
  - intros f g Hf Hg. unfold live_rows in *.
    replace (bm_iter (live sample_snapshot)) with [0; 1; 2; 3]%N in * by (vm_compute; reflexivity).
    simpl in Hf, Hg.
    repeat (apply elem_of_cons in Hf as [->|Hf]; [|]); [..|by apply elem_of_nil in Hf];
      repeat (apply elem_of_cons in Hg as [->|Hg]; [|]); try (by apply elem_of_nil in Hg);
      intros Hid; done || (vm_compute in Hid; discriminate).
  - intros f p Hf. unfold live_rows in Hf.
    replace (bm_iter (live sample_snapshot)) with [0; 1; 2; 3]%N in Hf by (vm_compute; reflexivity).
    simpl in Hf.
    repeat (apply elem_of_cons in Hf as [->|Hf]; [intros Hp; vm_compute in Hp |- *; congruence|]).
    by apply elem_of_nil in Hf.
  - intros tree _. eapply cancels_bind; [apply cancels_check|apply cancels_ret].
  - intros f _. reflexivity.
  - exists tree, r. split; [exact Hr|].
    destruct (Hspec (sample_entry 3 (lit "/a/b") 0 true)) as [Htrue _].
    + apply live_rows_elem. exists 2%N. split; [by_decide|reflexivity].
    + reflexivity.
    + apply Htrue. exists (sample_entry 4 (lit "/a/b/c/g") 7 false). split_and!.
      * apply live_rows_elem. exists 3%N. split; [by_decide|reflexivity].
      * vm_compute. reflexivity.
      * reflexivity.
Defined.
