(* ===== verification/Columns.v ===== *)
(** * core/src/entry_table.rs, [Column]: columns owned or mapped from a cache

    A column is an owned vector, or a range of a cache file mapped into
    memory.  The mapping is immutable bytes; a mapped column reads its
    elements from them, little-endian, as the supported machines do. *)
From S2P Require Import Prelude.

(** ** Little-endian bytes *)

Fixpoint le_bytes (n : nat) (x : N) : list N :=
  match n with
  | O => []
  | S n => (x mod 256)%N :: le_bytes n (x / 256)%N
  end.
Definition le_value (l : list N) : N := foldr (λ b v, b + 256 * v)%N 0%N l.
Definition byte (b : N) : Prop := (b < 256)%N.

Lemma le_bytes_length n x : length (le_bytes n x) = n.
Proof. revert x. induction n as [|n IH]; intros x; simpl; [done|]. by rewrite IH. Qed.
Lemma le_bytes_byte n x : Forall byte (le_bytes n x).
Proof.
  revert x. induction n as [|n IH]; intros x; simpl; constructor; [|done].
  unfold byte. apply N.mod_lt. lia.
Qed.
Lemma le_value_bytes n x : (x < 256 ^ N.of_nat n)%N → le_value (le_bytes n x) = x.
Proof.
  revert x. induction n as [|n IH]; intros x Hx; simpl.
  - rewrite N.pow_0_r in Hx. lia.
  - rewrite IH.
    + pose proof (N.div_mod x 256). lia.
    + rewrite Nat2N.inj_succ, N.pow_succ_r' in Hx. apply N.Div0.div_lt_upper_bound. lia.
Qed.
Lemma le_value_bound l : Forall byte l → (le_value l < 256 ^ N.of_nat (length l))%N.
Proof.
  induction 1 as [|b l Hb _ IH]; [done|]. cbn [length le_value foldr].
  rewrite Nat2N.inj_succ, N.pow_succ_r'. unfold byte in Hb. fold (le_value l). nia.
Qed.
Lemma chunks_same_length {A} n (ls : list (list A)) :
  0 < n → Forall (λ l, length l = n) ls → chunks n (concat ls) = ls.
Proof.
  intros Hn Hls. unfold chunks. assert (Hfuel : length ls ≤ length (concat ls)).
  { induction Hls as [|l ls Hl _ IH]; simpl; [done|]. rewrite length_app. lia. }
  revert Hfuel. generalize (length (concat ls)) as fuel.
  induction Hls as [|l ls Hl Hls IH]; intros fuel Hf; simpl in *; [by destruct fuel|].
  destruct fuel as [|fuel]; [lia|]. destruct l as [|x l]; [simpl in Hl; lia|].
  cbn [chunks_fuel app]. change (x :: l ++ concat ls) with ((x :: l) ++ concat ls).
  rewrite take_app_length', drop_app_length' by done. f_equal. apply IH. lia.
Qed.
Lemma chunks_fuel_length {A} n fuel : 0 < n → ∀ l : list A, length l ≤ fuel → length l mod n = 0 →
  Forall (λ c, length c = n) (chunks_fuel fuel n l) ∧ length (chunks_fuel fuel n l) = length l / n.
Proof.
  intros Hn.
  induction fuel as [|fuel IH]; intros l Hf Hm.
  - destruct l; [|simpl in Hf; lia]. simpl. by rewrite Nat.Div0.div_0_l.
  - destruct l as [|x l']; [simpl; by rewrite Nat.Div0.div_0_l|]. set (l := x :: l') in *.
    change (chunks_fuel (S fuel) n l) with (take n l :: chunks_fuel fuel n (drop n l)).
    assert (Hge : n ≤ length l).
    { destruct (decide (n ≤ length l)) as [|Hlt]; [done|]. rewrite Nat.mod_small in Hm by lia.
      subst l. simpl in Hm. lia. }
    destruct (IH (drop n l)) as [Hall Hlen].
    + rewrite length_drop. lia.
    + rewrite length_drop. replace (length l) with ((length l - n) + 1 * n) in Hm by lia.
      by rewrite Nat.Div0.mod_add in Hm.
    + split.
      * constructor; [|done]. rewrite length_take. lia.
      * cbn [length]. rewrite Hlen, length_drop.
        replace (length l) with ((length l - n) + 1 * n) at 2 by lia. rewrite Nat.div_add by lia. lia.
Qed.

Lemma chunks_length {A} n (l : list A) : 0 < n → length l mod n = 0 →
  Forall (λ c, length c = n) (chunks n l) ∧ length (chunks n l) = length l / n.
Proof. intros. by apply chunks_fuel_length. Qed.

(** ** Elements: [ColumnValue] *)

(** A fixed-size integer: its bytes, and the values that fit. *)
Record elem (T : Type) := {
  elem_size : nat;
  to_bits : T → N;
  from_bits : N → T;
  fits_in : T → Prop;
}.
Arguments elem_size {T} _.
Arguments to_bits {T} _ x.
Arguments from_bits {T} _ n.
Arguments fits_in {T} _ x.
Class ElemLaws {T} (e : elem T) : Prop := {
  elem_size_pos : 0 < elem_size e;
  to_bits_bound x : fits_in e x → (to_bits e x < 256 ^ N.of_nat (elem_size e))%N;
  from_to_bits x : fits_in e x → from_bits e (to_bits e x) = x;
  from_bits_fits n : (n < 256 ^ N.of_nat (elem_size e))%N → fits_in e (from_bits e n);
}.
Definition unsigned (size : nat) : elem N := {|
  elem_size := size; to_bits := id; from_bits := id;
  fits_in n := (n < 256 ^ N.of_nat size)%N;
|}.
Definition u8 : elem N := unsigned 1.
Definition u16 : elem N := unsigned 2.
Definition u32 : elem N := unsigned 4.
Definition u64 : elem N := unsigned 8.
(** [i64 as u64] and [u64 as i64] *)
Definition i64_bits (z : Z) : N := Z.to_N (z mod 2 ^ 64).
Definition i64_of_bits (n : N) : Z :=
  if (n <? 2 ^ 63)%N then Z.of_N n else (Z.of_N n - 2 ^ 64)%Z.
Definition i64 : elem Z := {|
  elem_size := 8; to_bits := i64_bits; from_bits := i64_of_bits;
  fits_in z := (- 2 ^ 63 ≤ z < 2 ^ 63)%Z;
|}.
Lemma unsigned_laws size : 0 < size → ElemLaws (unsigned size).
Proof. intros Hs. by split. Qed.
#[export] Instance u8_laws : ElemLaws u8. Proof. apply unsigned_laws. lia. Qed.
#[export] Instance u16_laws : ElemLaws u16. Proof. apply unsigned_laws. lia. Qed.
#[export] Instance u32_laws : ElemLaws u32. Proof. apply unsigned_laws. lia. Qed.
#[export] Instance u64_laws : ElemLaws u64. Proof. apply unsigned_laws. lia. Qed.
#[export] Instance i64_laws : ElemLaws i64.
Proof.
  split; simpl.
  - lia.
  - intros z _. unfold i64_bits. pose proof (Z.mod_pos_bound z (2 ^ 64)).
    change (256 ^ 8)%N with (Z.to_N (2 ^ 64)). lia.
  - intros z Hz. unfold i64_bits, i64_of_bits.
    destruct (Z.leb_spec 0 z).
    + rewrite Z.mod_small by lia. destruct (N.ltb_spec (Z.to_N z) (2 ^ 63)); lia.
    + rewrite <-(Z.mod_unique z (2 ^ 64) (-1) (z + 2 ^ 64)) by lia.
      destruct (N.ltb_spec (Z.to_N (z + 2 ^ 64)) (2 ^ 63)); lia.
  - intros n Hn. unfold i64_of_bits. change (256 ^ 8)%N with (2 ^ 64)%N in Hn.
    destruct (N.ltb_spec n (2 ^ 63)); lia.
Qed.

(** ** Columns *)

Inductive Column (T : Type) :=
| Owned (values : list T)
| Mapped (mapping : list N) (start end_ : nat).
Arguments Owned {T} values.
Arguments Mapped {T} mapping start end_.

Section column.
Context {T : Type} `{!EqDecision T} (e : elem T).

Definition column_values (c : Column T) : list T :=
  match c with
  | Owned values => values
  | Mapped mapping start end_ =>
    (λ bytes, from_bits e (le_value bytes)) <$> chunks (elem_size e) (window mapping start end_)
  end.
Definition is_mapped (c : Column T) : bool :=
  match c with Mapped _ _ _ => true | Owned _ => false end.
(** [Column::mapped]; the alignment of these types is their size. *)
Definition column_mapped (mapping : list N) (start end_ : nat) : option (Column T) :=
  if (end_ <? start) || (length mapping <? end_) || negb (start mod elem_size e =? 0) ||
     negb ((end_ - start) mod elem_size e =? 0)
  then None else Some (Mapped mapping start end_).
Definition column_bytes (c : Column T) : list N := column_values c ≫= λ x, le_bytes (elem_size e) (to_bits e x).
(** [Column::set]: a mapped column is copied first; the slot after the last
    extends it, and any later slot panics. *)
Definition column_set (c : Column T) (slot : nat) (value : T) : option (Column T) :=
  let values := column_values c in
  if bool_decide (values !! slot = Some value) then Some c
  else if slot =? length values then Some (Owned (values ++ [value]))
  else Owned <$> set_index slot value values.

Context `{!ElemLaws e}.

(** A column as [owned] and [mapped] make it. *)
Definition column_ok (c : Column T) : Prop :=
  match c with
  | Owned values => Forall (fits_in e) values
  | Mapped mapping start end_ =>
    start ≤ end_ ∧ end_ ≤ length mapping ∧ (end_ - start) mod elem_size e = 0 ∧ Forall byte mapping
  end.
Lemma column_values_fit c : column_ok c → Forall (fits_in e) (column_values c).
Proof.
  destruct c as [values|mapping start end_]; simpl; [done|]. intros (Hse & Hlen & Hmod & Hbytes).
  pose proof (elem_size_pos (e := e)) as Hpos.
  assert (Hw : length (window mapping start end_) = end_ - start) by by apply window_length.
  destruct (chunks_length (elem_size e) (window mapping start end_) Hpos) as [Hall _]; [by rewrite Hw|].
  assert (Hwb : Forall byte (concat (chunks (elem_size e) (window mapping start end_)))).
  { rewrite chunks_concat by done. unfold window. by apply Forall_take, Forall_drop. }
  rewrite Forall_fmap. induction Hall as [|c cs Hc _ IH]; [constructor|]. simpl in Hwb.
  apply Forall_app in Hwb as [Hcb Hcsb]. constructor; [|by apply IH]. simpl.
  apply from_bits_fits. rewrite <-Hc. by apply le_value_bound.
Qed.
Lemma mapped_length mapping start end_ : column_ok (Mapped mapping start end_) →
  length (column_values (Mapped mapping start end_)) = (end_ - start) / elem_size e.
Proof.
  intros (Hse & Hlen & Hmod & _). simpl. rewrite length_fmap.
  pose proof (window_length mapping start end_ Hlen) as Hw. rewrite <-Hw.
  apply chunks_length; [apply elem_size_pos|by rewrite Hw].
Qed.
(** What [bytes] writes, [mapped] reads. *)
Lemma mapped_bytes values a b : Forall (fits_in e) values →
  column_values (Mapped (a ++ column_bytes (Owned values) ++ b) (length a)
                   (length a + length (column_bytes (Owned values)))) = values.
Proof.
  intros Hv. simpl. unfold window. rewrite drop_app_length.
  replace (length a + _ - length a) with (length (column_bytes (Owned values))) by lia.
  rewrite take_app_length. unfold column_bytes. simpl.
  replace (values ≫= λ x, le_bytes (elem_size e) (to_bits e x)) with
    (concat ((λ x, le_bytes (elem_size e) (to_bits e x)) <$> values))
    by (induction values; simpl; congruence || (f_equal; by inversion Hv; auto)).
  rewrite chunks_same_length.
  - induction Hv as [|x values Hx _ IH]; [done|]. rewrite !fmap_cons, IH. f_equal.
    rewrite le_value_bytes by by apply to_bits_bound. by apply from_to_bits.
  - apply elem_size_pos.
  - apply Forall_fmap, Forall_true. intros x. apply le_bytes_length.
Qed.
Lemma column_bytes_length c : length (column_bytes c) = elem_size e * length (column_values c).
Proof.
  unfold column_bytes. induction (column_values c) as [|x l IH]; [simpl; lia|].
  rewrite bind_cons, length_app, le_bytes_length, IH. simpl. lia.
Qed.
Lemma column_bytes_owned c : column_bytes (Owned (column_values c)) = column_bytes c.
Proof. done. Qed.
Lemma column_bytes_byte c : Forall byte (column_bytes c).
Proof.
  unfold column_bytes. induction (column_values c) as [|x l IH]; [constructor|].
  rewrite bind_cons. apply Forall_app_2; [apply le_bytes_byte|done].
Qed.
(** Setting a slot is setting it in the list, or appending. *)
Lemma column_set_spec c slot value : slot ≤ length (column_values c) →
  ∃ c', column_set c slot value = Some c' ∧
    column_values c' = if slot =? length (column_values c) then column_values c ++ [value]
                       else <[slot := value]> (column_values c).
Proof.
  intros Hs. unfold column_set. case_bool_decide as Hsame.
  - exists c. split; [done|]. pose proof (lookup_lt_Some _ _ _ Hsame).
    rewrite (proj2 (Nat.eqb_neq _ _)) by lia. by rewrite list_insert_id.
  - destruct (Nat.eqb_spec slot (length (column_values c))) as [->|Hne]; [by eexists|].
    unfold set_index. rewrite decide_True by lia. by eexists.
Qed.
End column.
