(* ===== verification/IntegerColumn.v ===== *)
(** * core/src/integer_column.rs: frame-of-reference integer columns

    A column holds its integers raw, or as a base and offsets of one, two or
    four bytes, or as one constant.  Ranks order the integers as unsigned
    64-bit numbers.  This file proves that packing, setting, scanning a range
    and going through a cache file never change what the column holds, and
    that a cache file that passes [decode] cannot make a read panic. *)
From S2P Require Import Prelude Columns.

(** ** Scalars *)

Record scalar (T : Type) := {
  s_elem : elem T;
  rank : T → N;
  from_rank : N → option T;
}.
Arguments s_elem {T} _.
Arguments rank {T} _ x.
Arguments from_rank {T} _ r.
Definition top_bit : N := 9223372036854775808.
Definition scalar_u64 : scalar N := {| s_elem := u64; rank := λ x, x; from_rank r := Some r |}.
Definition scalar_i64 : scalar Z := {|
  s_elem := i64; rank z := N.lxor (i64_bits z) top_bit;
  from_rank r := Some (i64_of_bits (N.lxor r top_bit));
|}.
Definition scalar_u32 : scalar N := {|
  s_elem := u32; rank := λ x, x; from_rank r := if (r <=? u32_max)%N then Some r else None;
|}.

(** What [Scalar] promises: ranks are 64-bit numbers in bijection with the
    values, and the ranks that are values are downward closed. *)
Class ScalarLaws {T} (s : scalar T) : Prop := {
  scalar_elem_laws :: ElemLaws (s_elem s);
  scalar_size : elem_size (s_elem s) = 4 ∨ elem_size (s_elem s) = 8;
  rank_bound x : fits_in (s_elem s) x → (rank s x ≤ u64_max)%N;
  from_rank_rank x : fits_in (s_elem s) x → from_rank s (rank s x) = Some x;
  rank_from_rank r x : (r ≤ u64_max)%N → from_rank s r = Some x →
    fits_in (s_elem s) x ∧ rank s x = r;
  from_rank_below r r' : (r ≤ r')%N → is_Some (from_rank s r') → is_Some (from_rank s r);
}.

(** ** Integer columns *)

Inductive Offsets :=
| Constant (length : nat)
| OByte (values : Column N)
| OShort (values : Column N)
| OWord (values : Column N).
Inductive IntegerData (T : Type) :=
| Raw (values : Column T)
| Packed (base : N) (offsets : Offsets).
Arguments Raw {T} values.
Arguments Packed {T} base offsets.

Definition offsets_len (o : Offsets) : nat :=
  match o with
  | Constant length => length
  | OByte values => length (column_values u8 values)
  | OShort values => length (column_values u16 values)
  | OWord values => length (column_values u32 values)
  end.
Definition offset_at (o : Offsets) (slot : nat) : option N :=
  match o with
  | Constant length => if slot <? length then Some 0%N else None
  | OByte values => column_values u8 values !! slot
  | OShort values => column_values u16 values !! slot
  | OWord values => column_values u32 values !! slot
  end.
Definition offset_list (o : Offsets) : list N :=
  match o with
  | Constant length => replicate length 0%N
  | OByte values => column_values u8 values
  | OShort values => column_values u16 values
  | OWord values => column_values u32 values
  end.

(** [fill]: bits of eight values to a byte, in order; bytes past the values
    are left as they are. *)
Definition pack_bits {V} (predicate : V → bool) (values : list V) : N :=
  foldl (λ bits '(bit, value),
    N.lor bits (N.shiftl (if predicate value then 1 else 0) (N.of_nat bit)))%N 0%N (imap pair values).
Fixpoint fill_bytes {V} (predicate : V → bool) (groups : list (list V)) (output : list N) : list N :=
  match groups, output with
  | values :: groups, _ :: output => pack_bits predicate values :: fill_bytes predicate groups output
  | _, _ => output
  end.
Definition fill {V} (predicate : V → bool) (values : list V) (output : list N) : list N :=
  fill_bytes predicate (chunks 8 values) output.
(** [relative]: the range of offsets that stay inside the range of ranks. *)
Definition relative (base low high maximum : N) : option (N * N) :=
  if (high <? base)%N then None
  else
    let upper := N.min (high - base) maximum in
    let lower := (low - base)%N in
    if (lower <=? upper)%N then Some (lower, upper) else None.
Definition fill_relative (base lower upper maximum : N) (values : list N) (output : list N) : list N :=
  match relative base lower upper maximum with
  | Some (low, high) =>
    let low := (low mod (maximum + 1))%N in
    let high := (high mod (maximum + 1))%N in
    fill (λ value, (low <=? value)%N && (value <=? high)%N) values output
  | None => (λ _, 0%N) <$> output
  end.

Section integer_column.
Context {T : Type} `{!EqDecision T} (s : scalar T).
Notation IntegerData := (IntegerData T).
Notation raw_values := (column_values (s_elem s)).

Definition integer_len (d : IntegerData) : nat :=
  match d with Raw values => length (raw_values values) | Packed _ offsets => offsets_len offsets end.
(** [T::from_rank(base + offset).expect(..)]; [None] is the panic. *)
Definition unpack (base offset : N) : option T := r ← u64_checked_add base offset; from_rank s r.
Definition integer_get (d : IntegerData) (slot : nat) : option T :=
  match d with
  | Raw values => raw_values values !! slot
  | Packed base offsets => offset ← offset_at offsets slot; unpack base offset
  end.
(** The values [for_each] visits, in order. *)
Definition for_each (d : IntegerData) : option (list T) :=
  match d with
  | Raw values => Some (raw_values values)
  | Packed base offsets => mapM (unpack base) (offset_list offsets)
  end.
Definition fill_rank_range (d : IntegerData) (output : list N) (lower upper : N) : list N :=
  match d with
  | Raw values =>
    fill (λ value, (lower <=? rank s value)%N && (rank s value <=? upper)%N) (raw_values values) output
  | Packed base offsets =>
    match offsets with
    | Constant _ =>
      (λ _, if (lower <=? base)%N && (base <=? upper)%N then 255%N else 0%N) <$> output
    | OByte values => fill_relative base lower upper 255 (column_values u8 values) output
    | OShort values => fill_relative base lower upper 65535 (column_values u16 values) output
    | OWord values => fill_relative base lower upper 4294967295 (column_values u32 values) output
    end
  end.
Definition integer_set (d : IntegerData) (slot : nat) (value : T) : option IntegerData :=
  if (slot <? integer_len d) && bool_decide (integer_get d slot = Some value) then Some d
  else
    raw ← match d with
          | Raw values => Some values
          | Packed _ _ => Owned <$> for_each d
          end;
    Raw <$> column_set (s_elem s) raw slot value.

Definition min_rank (first : T) (rest : list T) : N :=
  foldr (λ value m, N.min (rank s value) m) (rank s first) rest.
Definition max_rank (first : T) (rest : list T) : N :=
  foldr (λ value m, N.max (rank s value) m) (rank s first) rest.
Definition width_for (span : N) : nat :=
  if (span =? 0)%N then 0 else if (span <=? 255)%N then 1 else if (span <=? 65535)%N then 2
  else if (span <=? 4294967295)%N then 4 else 8.
Definition compact (d : IntegerData) : IntegerData :=
  match d with
  | Packed _ _ => d
  | Raw values =>
    match raw_values values with
    | [] => d
    | first :: rest =>
      if is_mapped values then d
      else
        let low := min_rank first rest in
        let high := max_rank first rest in
        let width := width_for (high - low) in
        if elem_size (s_elem s) <=? width then d
        else
          let deltas (modulus : N) := (λ value, (rank s value - low) mod modulus)%N <$> (first :: rest) in
          match width with
          | 0 => Packed low (Constant (length (first :: rest)))
          | 1 => Packed low (OByte (Owned (deltas 256%N)))
          | 2 => Packed low (OShort (Owned (deltas 65536%N)))
          | _ => Packed low (OWord (Owned (deltas 4294967296%N)))
          end
    end
  end.

(** *** The cache format *)

Definition pad8 (output : list N) : list N :=
  output ++ replicate (div_ceil (length output) 8 * 8 - length output) 0%N.
Definition encode (d : IntegerData) (output : list N) : list N :=
  let '(base, width, bytes) :=
    match d with
    | Raw values => (0%N, elem_size (s_elem s), column_bytes (s_elem s) values)
    | Packed base (Constant _) => (base, 0, [])
    | Packed base (OByte values) => (base, 1, column_bytes u8 values)
    | Packed base (OShort values) => (base, 2, column_bytes u16 values)
    | Packed base (OWord values) => (base, 4, column_bytes u32 values)
    end in
  pad8 output ++ le_bytes 8 base ++ le_bytes 8 (N.of_nat width) ++ bytes.

(** [mapping.get(start..end)] *)
Definition get_range (mapping : list N) (start end_ : nat) : option (list N) :=
  if (start <=? end_) && (end_ <=? length mapping) then Some (window mapping start end_) else None.
Definition offsets_maximum (o : Offsets) : N :=
  match o with Constant _ => 0%N | _ => foldr N.max 0%N (offset_list o) end.
(** The data behind a header, validated. *)
Definition decode_data (mapping : list N) (base width : N) (count header_end next : nat) :
    option IntegerData :=
  if (width =? N.of_nat (elem_size (s_elem s)))%N then
    if (base =? 0)%N then Raw <$> column_mapped (s_elem s) mapping header_end next else None
  else
    _ ← from_rank s base;
    offsets ←
      (if (width =? 0)%N then Some (Constant count)
       else if (width =? 1)%N then OByte <$> column_mapped u8 mapping header_end next
       else if (width =? 2)%N then OShort <$> column_mapped u16 mapping header_end next
       else if (width =? 4)%N && (4 <? elem_size (s_elem s)) then
         OWord <$> column_mapped u32 mapping header_end next
       else None);
    top ← u64_checked_add base (offsets_maximum offsets);
    _ ← from_rank s top;
    Some (Packed base offsets).
Definition decode (mapping : list N) (offset count end_ : nat) : option (IntegerData * nat) :=
  offset ← usize_checked_add offset 7;
  let offset := offset / 8 * 8 in
  header_end ← usize_checked_add offset 16;
  if end_ <? header_end then None
  else
    base ← le_value <$> get_range mapping offset (offset + 8);
    width ← le_value <$> get_range mapping (offset + 8) header_end;
    let length := (N.of_nat count * width)%N in
    if (usize_max <? length)%N || (usize_max <? N.of_nat header_end + length)%N then None
    else if (N.of_nat end_ <? N.of_nat header_end + length)%N then None
    else
      let next := header_end + N.to_nat length in
      data ← decode_data mapping base width count header_end next;
      Some (data, next).
End integer_column.

(** ** Scalars keep their promise *)

Lemma lxor_top n : (n < 2 ^ 64)%N →
  N.lxor n top_bit = if (n <? 2 ^ 63)%N then (n + 2 ^ 63)%N else (n - 2 ^ 63)%N.
Proof.
  intros Hn. change top_bit with (2 ^ 63)%N.
  assert (Hlow : ∀ m, (m < 2 ^ 63)%N → N.lxor m (2 ^ 63) = (m + 2 ^ 63)%N).
  { intros m Hm. symmetry. apply N.add_nocarry_lxor, N.bits_inj. intros i.
    rewrite N.land_spec, N.bits_0. destruct (decide (i = 63%N)) as [->|Hi].
    - rewrite <-(N.mod_small m (2 ^ 63)) by done. by rewrite N.mod_pow2_bits_high.
    - by rewrite N.pow2_bits_false, andb_false_r by done. }
  destruct (N.ltb_spec n (2 ^ 63)) as [Hm|Hm]; [by apply Hlow|].
  replace n with (N.lxor (n - 2 ^ 63) (2 ^ 63)) at 1.
  - by rewrite N.lxor_assoc, N.lxor_nilpotent, N.lxor_0_r.
  - rewrite Hlow by lia. lia.
Qed.
Lemma i64_bits_bound z : (i64_bits z < 2 ^ 64)%N.
Proof. unfold i64_bits. pose proof (Z.mod_pos_bound z (2 ^ 64)). lia. Qed.
Lemma lxor_top_bound n : (n < 2 ^ 64)%N → (N.lxor n top_bit < 2 ^ 64)%N.
Proof. intros Hn. rewrite lxor_top by done. destruct (N.ltb_spec n (2 ^ 63)); lia. Qed.
Lemma lxor_top_twice n : N.lxor (N.lxor n top_bit) top_bit = n.
Proof. by rewrite N.lxor_assoc, N.lxor_nilpotent, N.lxor_0_r. Qed.
Lemma i64_bits_of_bits n : (n < 2 ^ 64)%N → i64_bits (i64_of_bits n) = n.
Proof.
  intros Hn. unfold i64_bits, i64_of_bits. destruct (N.ltb_spec n (2 ^ 63)).
  - rewrite Z.mod_small by lia. lia.
  - rewrite <-(Z.mod_unique (Z.of_N n - 2 ^ 64) (2 ^ 64) (-1) (Z.of_N n)) by lia. lia.
Qed.

#[export] Instance scalar_u64_laws : ScalarLaws scalar_u64.
Proof.
  split; simpl.
  - apply _.
  - by right.
  - intros x Hx. change (256 ^ 8)%N with (2 ^ 64)%N in Hx. unfold u64_max. lia.
  - done.
  - intros r x Hr [= ->]. split; [|done]. change (256 ^ 8)%N with (2 ^ 64)%N. unfold u64_max in Hr. lia.
  - intros r r' _ _. by eexists.
Qed.
#[export] Instance scalar_i64_laws : ScalarLaws scalar_i64.
Proof.
  split; simpl.
  - apply _.
  - by right.
  - intros z _. pose proof (lxor_top_bound _ (i64_bits_bound z)). unfold u64_max. lia.
  - intros z Hz. rewrite lxor_top_twice. f_equal. by apply (from_to_bits (e := i64)).
  - intros r z Hr [= <-]. assert (Hb : (N.lxor r top_bit < 2 ^ 64)%N).
    { apply lxor_top_bound. unfold u64_max in Hr. lia. }
    split; [by apply (from_bits_fits (e := i64))|]. by rewrite i64_bits_of_bits, lxor_top_twice.
  - intros r r' _ _. by eexists.
Qed.
#[export] Instance scalar_u32_laws : ScalarLaws scalar_u32.
Proof.
  split; simpl.
  - apply _.
  - by left.
  - intros x Hx. change (256 ^ 4)%N with (2 ^ 32)%N in Hx. unfold u64_max. lia.
  - intros x Hx. change (256 ^ 4)%N with (2 ^ 32)%N in Hx. unfold u32_max.
    destruct (N.leb_spec x 4294967295); [done|lia].
  - intros r x _. unfold u32_max. destruct (N.leb_spec r 4294967295); [|done].
    intros [= ->]. split; [|done]. change (256 ^ 4)%N with (2 ^ 32)%N. lia.
  - intros r r' Hr. unfold u32_max.
    destruct (N.leb_spec r' 4294967295); [|by intros []]. intros _.
    destruct (N.leb_spec r 4294967295); [by eexists|lia].
Qed.

(** ** Reads agree, and packing keeps the values *)

Section reads.
Context {T : Type} `{!EqDecision T} (s : scalar T) `{!ScalarLaws s}.
Notation IntegerData := (IntegerData T).

Definition offsets_ok (o : Offsets) : Prop :=
  match o with
  | Constant _ => True
  | OByte values => column_ok u8 values
  | OShort values => column_ok u16 values
  | OWord values => column_ok u32 values
  end.
Definition offsets_width (o : Offsets) : nat :=
  match o with Constant _ => 0 | OByte _ => 1 | OShort _ => 2 | OWord _ => 4 end.
(** Well-formed data: the bytes are in range, a packed width is below the
    type's, and the greatest offset still gives a value. *)
Definition integer_ok (d : IntegerData) : Prop :=
  match d with
  | Raw values => column_ok (s_elem s) values
  | Packed base o =>
    offsets_ok o ∧ offsets_width o < elem_size (s_elem s) ∧
    (base + offsets_maximum o ≤ u64_max)%N ∧ is_Some (from_rank s (base + offsets_maximum o))
  end.

Lemma offset_at_list o slot : offset_at o slot = offset_list o !! slot.
Proof.
  destruct o; simpl; try done. destruct (Nat.ltb_spec slot length).
  - symmetry. by apply lookup_replicate_2.
  - symmetry. by apply lookup_replicate_None.
Qed.
Lemma offsets_len_list o : offsets_len o = length (offset_list o).
Proof. destruct o; simpl; by rewrite ?length_replicate. Qed.
Lemma foldr_max_bound (l : list N) x : x ∈ l → (x ≤ foldr N.max 0 l)%N.
Proof.
  induction l as [|y l IH]; [by intros ?%elem_of_nil|]. simpl.
  intros [->|Hx]%elem_of_cons; [lia|]. specialize (IH Hx). lia.
Qed.
Lemma offset_bound o x : x ∈ offset_list o → (x ≤ offsets_maximum o)%N.
Proof.
  destruct o; simpl; try apply foldr_max_bound. intros [-> _]%elem_of_replicate. lia.
Qed.
Lemma unpack_spec base o x : integer_ok (Packed base o) → x ∈ offset_list o →
  ∃ v, unpack s base x = Some v ∧ fits_in (s_elem s) v ∧ rank s v = (base + x)%N.
Proof.
  intros (_ & _ & Hmax & Htop) Hx. pose proof (offset_bound o x Hx). unfold unpack, u64_checked_add.
  destruct (N.leb_spec (base + x) u64_max); [|lia].
  destruct (from_rank_below (base + x) (base + offsets_maximum o)) as [v Hv]; [lia|done|].
  exists v. simpl. split; [done|]. by apply rank_from_rank.
Qed.
(** [mapM] of a function that is defined on the list. *)
Lemma mapM_defined {A B} (f : A → option B) l : (∀ x, x ∈ l → is_Some (f x)) →
  ∃ ys, mapM f l = Some ys ∧ Forall2 (λ x y, f x = Some y) l ys.
Proof.
  intros Hl. destruct (mapM f l) as [ys|] eqn:E; [exists ys; split; [done|by apply mapM_Some]|].
  apply mapM_None in E. apply Exists_exists in E as (x & Hx & Hn). apply Hl in Hx as [y Hy]. congruence.
Qed.

(** The values of a column; every way of reading it agrees with them. *)
Lemma reads_spec d : integer_ok d →
  ∃ vs, for_each s d = Some vs ∧ integer_len s d = length vs ∧ Forall (fits_in (s_elem s)) vs ∧
        ∀ slot, integer_get s d slot = vs !! slot.
Proof.
  destruct d as [values|base o]; simpl.
  - intros Hok. exists (column_values (s_elem s) values). split_and!; try done. apply (column_values_fit (s_elem s)). exact Hok.
  - intros Hok. destruct (mapM_defined (unpack s base) (offset_list o)) as (vs & Hvs & Hall).
    { intros x Hx. destruct (unpack_spec base o x Hok Hx) as (v & -> & _). by eexists. }
    exists vs. split_and!; [done|rewrite offsets_len_list; by eapply Forall2_length| |].
    + apply Forall_lookup. intros i v Hv. destruct (Forall2_lookup_r _ _ _ _ _ Hall Hv) as (x & Hx & Hu).
      destruct (unpack_spec base o x Hok (list_elem_of_lookup_2 _ _ _ Hx)) as (w & Hw & Hf & _). congruence.
    + intros slot. rewrite offset_at_list. destruct (offset_list o !! slot) as [x|] eqn:Hx; simpl.
      * destruct (Forall2_lookup_l _ _ _ _ _ Hall Hx) as (v & Hv & Hu). by rewrite Hv, Hu.
      * symmetry. apply lookup_ge_None. apply lookup_ge_None in Hx.
        by rewrite <-(Forall2_length _ _ _ Hall).
Qed.

(** *** Packing *)

Lemma min_max_rank first rest x : x ∈ first :: rest →
  (min_rank s first rest ≤ rank s x ≤ max_rank s first rest)%N.
Proof.
  unfold min_rank, max_rank. revert x. induction rest as [|y rest IH]; simpl; intros x.
  - intros ->%list_elem_of_singleton. lia.
  - rewrite !elem_of_cons. intros [->|[->|Hx]].
    + specialize (IH first (list_elem_of_here _ _)). lia.
    + specialize (IH first (list_elem_of_here _ _)). lia.
    + specialize (IH x (list_elem_of_further _ _ _ Hx)). lia.
Qed.
Lemma max_rank_elem first rest : ∃ x, x ∈ first :: rest ∧ rank s x = max_rank s first rest.
Proof.
  unfold max_rank. induction rest as [|y rest IH]; simpl; [exists first; split; [left|done]|].
  destruct IH as (x & Hx & Hr). destruct (N.max_spec (rank s y) (foldr (λ v m, N.max (rank s v) m) (rank s first) rest))
    as [[_ ->]|[_ ->]].
  - exists x. split; [|done]. set_solver.
  - exists y. split; [set_solver|done].
Qed.
Lemma unpack_deltas low (modulus : N) vs :
  Forall (fits_in (s_elem s)) vs → (∀ x, x ∈ vs → low ≤ rank s x ∧ rank s x - low < modulus)%N →
  mapM (unpack s low) ((λ value, (rank s value - low) mod modulus)%N <$> vs) = Some vs.
Proof.
  intros Hfit Hvs. induction Hfit as [|v vs Hv _ IH]; [done|]. rewrite fmap_cons. simpl.
  destruct (Hvs v) as [Hlow Hm]; [left|]. rewrite N.mod_small by done.
  assert (Hhead : unpack s low (rank s v - low) = Some v).
  { unfold unpack, u64_checked_add. replace (low + (rank s v - low))%N with (rank s v) by lia.
    pose proof (rank_bound (s := s) v Hv). destruct (N.leb_spec (rank s v) u64_max); [|lia].
    by apply from_rank_rank. }
  rewrite Hhead. simpl. rewrite IH; [done|]. intros x Hx. apply Hvs. by right.
Qed.
Lemma deltas_ok size low high vs : 0 < size →
  (∀ x, x ∈ vs → low ≤ rank s x ≤ high ∧ rank s x - low < 256 ^ N.of_nat size)%N →
  let deltas := (λ value, (rank s value - low) mod 256 ^ N.of_nat size)%N <$> vs in
  column_ok (unsigned size) (Owned deltas) ∧ (foldr N.max 0 deltas ≤ high - low)%N.
Proof.
  intros Hsize Hvs deltas. split.
  - simpl. apply Forall_fmap, Forall_true. intros x. simpl. apply N.mod_lt. apply N.pow_nonzero. done.
  - subst deltas. induction vs as [|v vs IH]; [simpl; lia|]. rewrite fmap_cons. simpl.
    destruct (Hvs v) as [Hr Hm]; [left|]. rewrite N.mod_small by done.
    assert (foldr N.max 0 ((λ value, (rank s value - low) mod 256 ^ N.of_nat size)%N <$> vs) ≤ high - low)%N.
    { apply IH. intros x Hx. apply Hvs. by right. }
    lia.
Qed.

Lemma from_rank_between (low high : N) v : fits_in (s_elem s) v → (low ≤ high ≤ rank s v)%N →
  (high ≤ u64_max)%N ∧ is_Some (from_rank s high).
Proof.
  intros Hv Hr. pose proof (rank_bound (s := s) v Hv). split; [lia|].
  apply (from_rank_below high (rank s v)); [lia|]. rewrite from_rank_rank by done. by eexists.
Qed.
(** Packing keeps every value, and the data stays well formed. *)
Lemma compact_spec d : integer_ok d →
  for_each s (compact s d) = for_each s d ∧ integer_ok (compact s d).
Proof.
  destruct d as [values|base o]; [|done]. intros Hok. unfold compact.
  destruct (column_values (s_elem s) values) as [|first rest] eqn:Evs; [done|].
  destruct (is_mapped values) eqn:Em; [done|].
  destruct values as [vs|]; [|done]. simpl in Evs. subst vs. simpl in Hok.
  set (low := min_rank s first rest). set (high := max_rank s first rest).
  destruct (Nat.leb_spec (elem_size (s_elem s)) (width_for (high - low))) as [|Hsize]; [done|].
  assert (Hrange : ∀ x, x ∈ first :: rest → (low ≤ rank s x ≤ high)%N) by apply min_max_rank.
  destruct (max_rank_elem first rest) as (top & Htop & Htr). fold high in Htr.
  assert (Htf : fits_in (s_elem s) top) by (rewrite Forall_forall in Hok; by apply Hok).
  assert (Hlh : (low ≤ high)%N) by (specialize (Hrange top Htop); lia).
  assert (Hpacked : ∀ o vs', mapM (unpack s low) (offset_list o) = Some vs' → vs' = first :: rest →
    offsets_ok o → offsets_width o < elem_size (s_elem s) → (offsets_maximum o ≤ high - low)%N →
    for_each s (Packed low o) = Some (first :: rest) ∧ integer_ok (Packed low o)).
  { intros o vs' Ho -> Hoo Hw Hmax. split; [done|]. split_and!; try done;
      apply (from_rank_between low _ top Htf); lia. }
  unfold width_for in *. set (span := (high - low)%N) in *.
  assert (Hdeltas : ∀ size, 0 < size → (span < 256 ^ N.of_nat size)%N → ∀ x, x ∈ first :: rest →
    (low ≤ rank s x ≤ high ∧ rank s x - low < 256 ^ N.of_nat size)%N).
  { intros size Hs Hspan x Hx. specialize (Hrange x Hx). subst span. lia. }
  destruct (N.eqb_spec span 0) as [Hz|Hz]; [|destruct (N.leb_spec span 255) as [H1|H1];
    [|destruct (N.leb_spec span 65535) as [H2|H2]; [|destruct (N.leb_spec span 4294967295) as [H4|H4];
      [|destruct scalar_size; lia]]]].
  - apply (Hpacked (Constant (length (first :: rest))) (first :: rest)); try done; try (simpl; lia).
    replace (offset_list (Constant (length (first :: rest)))) with
      ((λ value, (rank s value - low) mod 1)%N <$> (first :: rest)).
    + apply (unpack_deltas low 1 (first :: rest) Hok). intros x Hx. specialize (Hrange x Hx).
      subst span. lia.
    + change (offset_list _) with (replicate (length (first :: rest)) 0%N).
      rewrite <-const_fmap with (f := λ _ : T, 0%N) by done. apply list_fmap_ext. intros _ x _. apply N.mod_1_r.
  - destruct (deltas_ok 1 low high (first :: rest)) as [Hc Hm]; [lia|apply Hdeltas; simpl; lia|].
    refine (Hpacked (OByte (Owned _)) _ (unpack_deltas low 256 (first :: rest) Hok _) eq_refl Hc _ Hm);
      [|simpl; lia]. intros x Hx. destruct (Hdeltas 1 ltac:(lia) ltac:(simpl; lia) x Hx) as [[? _] ?]. done.
  - destruct (deltas_ok 2 low high (first :: rest)) as [Hc Hm]; [lia|apply Hdeltas; simpl; lia|].
    refine (Hpacked (OShort (Owned _)) _ (unpack_deltas low 65536 (first :: rest) Hok _) eq_refl Hc _ Hm);
      [|simpl; lia]. intros x Hx. destruct (Hdeltas 2 ltac:(lia) ltac:(simpl; lia) x Hx) as [[? _] ?]. done.
  - destruct (deltas_ok 4 low high (first :: rest)) as [Hc Hm]; [lia|apply Hdeltas; simpl; lia|].
    refine (Hpacked (OWord (Owned _)) _ (unpack_deltas low 4294967296 (first :: rest) Hok _) eq_refl Hc _ Hm);
      [|simpl; lia]. intros x Hx. destruct (Hdeltas 4 ltac:(lia) ltac:(simpl; lia) x Hx) as [[? _] ?]. done.
Qed.

(** *** Setting *)

Lemma column_set_ok {V} `{!EqDecision V} (e : elem V) `{!ElemLaws e} c slot v c' :
  column_ok e c → fits_in e v → column_set e c slot v = Some c' → column_ok e c'.
Proof.
  intros Hok Hv. pose proof (column_values_fit e c Hok) as Hfit. unfold column_set.
  case_bool_decide; [by intros [= <-]|]. destruct (slot =? length (column_values e c)).
  - intros [= <-]. simpl. by apply Forall_app_2; [|constructor].
  - unfold set_index. destruct (decide (slot < length (column_values e c))); [|done].
    intros [= <-]. simpl. by apply Forall_insert.
Qed.
(** Setting a slot, or the one after the last, is that on the list of values. *)
Lemma set_spec d vs slot value : integer_ok d → for_each s d = Some vs → fits_in (s_elem s) value →
  slot ≤ length vs →
  ∃ d', integer_set s d slot value = Some d' ∧ integer_ok d' ∧
        for_each s d' = Some (if slot =? length vs then vs ++ [value] else <[slot := value]> vs).
Proof.
  intros Hok Hvs Hv Hslot. destruct (reads_spec d Hok) as (vs' & Hvs' & Hlen & Hfit & Hget).
  assert (vs' = vs) as -> by congruence. unfold integer_set.
  destruct ((slot <? integer_len s d) && bool_decide (integer_get s d slot = Some value)) eqn:Hsame.
  - apply andb_true_iff in Hsame as [_ Hg%bool_decide_eq_true]. rewrite Hget in Hg.
    exists d. split_and!; [done..|]. pose proof (lookup_lt_Some _ _ _ Hg).
    rewrite (proj2 (Nat.eqb_neq _ _)) by lia. by rewrite list_insert_id.
  - assert (Hraw : ∃ raw, match d with Raw values => Some values | Packed _ _ => Owned <$> for_each s d end = Some raw ∧
      column_ok (s_elem s) raw ∧ column_values (s_elem s) raw = vs).
    { destruct d as [values|base o]; [exists values; simpl in Hvs; split_and!; [done..|congruence]|].
      exists (Owned vs). by rewrite Hvs. }
    destruct Hraw as (raw & Hraw & Hrok & Hrv). rewrite Hraw. cbn [mbind option_bind].
    destruct (column_set_spec (s_elem s) raw slot value) as (c' & Hc & Hcv); [by rewrite Hrv|].
    rewrite Hc. exists (Raw c'). split; [done|]. rewrite Hrv in Hcv. split; [|by simpl; rewrite Hcv].
    by apply (column_set_ok (s_elem s) raw slot value c' Hrok).
Qed.

(** *** Scanning a range of ranks *)

Lemma pack_bits_acc {V} (p : V → bool) vs : ∀ k acc i,
  N.testbit (foldl (λ bits '(bit, value), N.lor bits (N.shiftl (if p value then 1 else 0) (N.of_nat bit)))%N
    acc (imap (λ n v, (k + n, v)) vs)) (N.of_nat i) =
  N.testbit acc (N.of_nat i) || match vs !! (i - k) with Some v => (k <=? i) && p v | None => false end.
Proof.
  induction vs as [|v vs IH]; intros k acc i; [by rewrite lookup_nil, orb_false_r|].
  rewrite imap_cons. cbn [foldl]. rewrite Nat.add_0_r.
  rewrite (imap_ext _ (λ n w, (S k + n, w))) by (intros; simpl; f_equal; lia).
  rewrite IH, N.lor_spec, <-orb_assoc. f_equal.
  destruct (Nat.lt_trichotomy i k) as [Hlt|[->|Hgt]].
  - rewrite N.shiftl_spec_low by lia. rewrite (proj2 (Nat.leb_gt k i)), (proj2 (Nat.leb_gt (S k) i)) by lia.
    simpl. by repeat case_match.
  - rewrite N.shiftl_spec_high', N.sub_diag, Nat.sub_diag, Nat.leb_refl by lia.
    rewrite (proj2 (Nat.leb_gt (S k) k)) by lia. cbn. destruct (p v); cbn; [done|by case_match].
  - rewrite N.shiftl_spec_high' by lia. replace (i - k) with (S (i - S k)) by lia. simpl lookup.
    rewrite (proj2 (Nat.leb_le k i)), (proj2 (Nat.leb_le (S k) i)) by lia.
    replace (N.testbit (if p v then 1 else 0) (N.of_nat i - N.of_nat k)) with false; [done|].
    destruct (p v); [|by rewrite N.bits_0]. symmetry.
    apply N.bits_above_log2. change (N.log2 1) with 0%N. lia.
Qed.
Lemma pack_bits_spec {V} (p : V → bool) vs i v :
  vs !! i = Some v → N.testbit (pack_bits p vs) (N.of_nat i) = p v.
Proof.
  intros Hi. unfold pack_bits. change pair with (λ n (w : V), (0 + n, w)).
  rewrite pack_bits_acc, N.bits_0, Nat.sub_0_r, Hi. done.
Qed.
Lemma chunks_fuel_lookup {A} n fuel : 0 < n → ∀ (l : list A) k, length l ≤ fuel → k * n < length l →
  chunks_fuel fuel n l !! k = Some (take n (drop (k * n) l)).
Proof.
  intros Hn. induction fuel as [|fuel IH]; intros l k Hf Hk; [lia|].
  destruct l as [|x l']; [simpl in Hk; lia|]. set (l := x :: l') in *.
  change (chunks_fuel (S fuel) n l) with (take n l :: chunks_fuel fuel n (drop n l)).
  destruct k as [|k]; [done|]. simpl. rewrite IH by (rewrite length_drop; simpl in *; lia).
  rewrite drop_drop. by rewrite Nat.add_comm.
Qed.
Lemma fill_bytes_lookup {V} (p : V → bool) groups output k g :
  groups !! k = Some g → k < length output → fill_bytes p groups output !! k = Some (pack_bits p g).
Proof.
  revert output k. induction groups as [|h groups IH]; intros [|b output] [|k]; simpl; try done; try lia.
  - by intros [= ->].
  - intros Hk Hlt. apply IH; [done|lia].
Qed.
(** The bit of a slot in a buffer of bits. *)
Definition bit_at (output : list N) (slot : nat) : option bool :=
  (λ b, N.testbit b (N.of_nat (slot mod 8))) <$> output !! (slot / 8).
Lemma fill_spec {V} (p : V → bool) vs output slot v :
  vs !! slot = Some v → slot / 8 < length output → bit_at (fill p vs output) slot = Some (p v).
Proof.
  intros Hv Hlt. unfold bit_at, fill. pose proof (lookup_lt_Some _ _ _ Hv) as Hs.
  pose proof (Nat.div_mod_eq slot 8) as Hdm. pose proof (Nat.mod_upper_bound slot 8).
  rewrite (fill_bytes_lookup p _ _ _ (take 8 (drop (slot / 8 * 8) vs))).
  - cbn [fmap option_fmap option_map]. f_equal. apply pack_bits_spec.
    rewrite lookup_take_lt, lookup_drop by lia.
    by replace (slot / 8 * 8 + slot mod 8) with slot by lia.
  - unfold chunks. apply chunks_fuel_lookup; lia.
  - done.
Qed.
Lemma fill_relative_spec base lower upper maximum vs output slot x :
  vs !! slot = Some x → slot / 8 < length output → (x ≤ maximum)%N →
  bit_at (fill_relative base lower upper maximum vs output) slot =
    Some ((lower <=? base + x)%N && (base + x <=? upper)%N).
Proof.
  intros Hx Hlt Hmax. unfold fill_relative, relative.
  assert (Hzero : ∀ b : bool, b = false → bit_at ((λ _, 0%N) <$> output) slot = Some b).
  { intros b ->. unfold bit_at. rewrite list_lookup_fmap.
    destruct (lookup_lt_is_Some_2 output (slot / 8) Hlt) as [y ->].
    cbn [fmap option_fmap option_map]. by rewrite N.bits_0. }
  destruct (N.ltb_spec upper base).
  { apply Hzero. destruct (N.leb_spec (base + x) upper); [lia|]. apply andb_false_r. }
  cbv zeta. destruct (N.leb_spec (lower - base) (N.min (upper - base) maximum)).
  - rewrite !N.mod_small by lia. rewrite (fill_spec _ _ _ _ x) by done. f_equal. f_equal.
    + destruct (N.leb_spec (lower - base) x), (N.leb_spec lower (base + x)); done || lia.
    + destruct (N.leb_spec x (N.min (upper - base) maximum)), (N.leb_spec (base + x) upper); done || lia.
  - apply Hzero. destruct (N.leb_spec lower (base + x)), (N.leb_spec (base + x) upper); done || lia.
Qed.
Lemma raise_range_spec d vs output lower upper slot v :
  integer_ok d → for_each s d = Some vs → vs !! slot = Some v → slot / 8 < length output →
  bit_at (fill_rank_range s d output lower upper) slot =
    Some ((lower <=? rank s v)%N && (rank s v <=? upper)%N).
Proof.
  intros Hok Hvs Hv Hlt. destruct d as [values|base o]; simpl in Hvs.
  - injection Hvs as <-. apply (fill_spec (λ value, (lower <=? rank s value)%N && (rank s value <=? upper)%N) _ _ _ v Hv Hlt).
  - apply mapM_Some in Hvs. destruct (Forall2_lookup_r _ _ _ _ _ Hvs Hv) as (x & Hx & Hu).
    destruct (unpack_spec base o x Hok (list_elem_of_lookup_2 _ _ _ Hx)) as (w & Hw & _ & Hr).
    assert (w = v) as -> by congruence. rewrite Hr. destruct Hok as (Ho & _ & _ & _).
    assert (Hfit : ∀ size (c : Column N), 0 < size → column_ok (unsigned size) c →
      column_values (unsigned size) c !! slot = Some x → (x < 256 ^ N.of_nat size)%N).
    { intros size c Hsize Hc Hin. pose proof (unsigned_laws size Hsize).
      pose proof (column_values_fit (unsigned size) c Hc) as Hall.
      exact (Forall_lookup_1 _ _ _ _ Hall Hin). }
    destruct o as [n|c|c|c]; simpl in Hx |- *.
    + apply lookup_replicate in Hx as [-> _]. rewrite N.add_0_r. unfold bit_at.
      rewrite list_lookup_fmap. destruct (lookup_lt_is_Some_2 output (slot / 8) Hlt) as [y ->].
      cbn [fmap option_fmap option_map]. f_equal.
      destruct ((lower <=? base)%N && (base <=? upper)%N); [|by rewrite N.bits_0].
      change 255%N with (N.ones 8). apply N.ones_spec_low. pose proof (Nat.mod_upper_bound slot 8). lia.
    + apply (fill_relative_spec _ _ _ _ _ _ _ x); [done..|]. pose proof (Hfit 1 c ltac:(lia) Ho Hx) as Hb. simpl in Hb. lia.
    + apply (fill_relative_spec _ _ _ _ _ _ _ x); [done..|]. pose proof (Hfit 2 c ltac:(lia) Ho Hx) as Hb. simpl in Hb. lia.
    + apply (fill_relative_spec _ _ _ _ _ _ _ x); [done..|]. pose proof (Hfit 4 c ltac:(lia) Ho Hx) as Hb. simpl in Hb. lia.
Qed.

(** *** The cache format *)

Lemma pad8_length output : length (pad8 output) = (length output + 7) / 8 * 8.
Proof.
  unfold pad8, div_ceil. rewrite length_app, length_replicate.
  pose proof (Nat.div_mod_eq (length output) 8). pose proof (Nat.mod_upper_bound (length output) 8).
  pose proof (Nat.div_mod_eq (length output + 7) 8). pose proof (Nat.mod_upper_bound (length output + 7) 8).
  destruct (Nat.eqb_spec (length output mod 8) 0); nia.
Qed.
Lemma get_range_middle (a m b : list N) : get_range (a ++ m ++ b) (length a) (length a + length m) = Some m.
Proof.
  unfold get_range. rewrite (proj2 (Nat.leb_le _ _)), (proj2 (Nat.leb_le _ _))
    by (rewrite ?length_app; lia). simpl. f_equal.
  unfold window. by rewrite drop_app_length, Nat.add_comm, Nat.add_sub, take_app_length.
Qed.
Lemma column_mapped_bytes {V} (e : elem V) `{!ElemLaws e} values a b :
  Forall (fits_in e) values → length a mod elem_size e = 0 →
  let file := a ++ column_bytes e (Owned values) ++ b in
  let next := length a + elem_size e * length values in
  ∃ c, column_mapped e file (length a) next = Some c ∧ column_values e c = values.
Proof.
  intros Hv Ha file next. pose proof (elem_size_pos (e := e)).
  assert (Hb : length (column_bytes e (Owned values)) = elem_size e * length values).
  { apply (column_bytes_length e). }
  unfold column_mapped. subst file next.
  rewrite (proj2 (Nat.ltb_ge _ _)), (proj2 (Nat.ltb_ge _ _)) by (rewrite ?length_app, ?Hb; lia).
  rewrite Ha. replace (length a + elem_size e * length values - length a) with (length values * elem_size e) by lia.
  rewrite Nat.Div0.mod_mul. simpl. eexists. split; [done|]. rewrite <-Hb.
  by apply (mapped_bytes e).
Qed.

(** What the file holds at the header. *)
Lemma decode_header (base width : N) (bytes output rest : list N) (d : IntegerData) :
  (base < 2 ^ 64)%N → (width < 2 ^ 64)%N →
  let a := pad8 output ++ le_bytes 8 base ++ le_bytes 8 width in
  let file := a ++ bytes ++ rest in
  length a = (length output + 7) / 8 * 8 + 16 ∧ length a mod 8 = 0 ∧
  le_value <$> get_range file ((length output + 7) / 8 * 8) ((length output + 7) / 8 * 8 + 8) = Some base ∧
  le_value <$> get_range file ((length output + 7) / 8 * 8 + 8) ((length output + 7) / 8 * 8 + 16) = Some width.
Proof.
  intros Hb Hw a file. assert (Ha : length a = (length output + 7) / 8 * 8 + 16).
  { subst a. rewrite !length_app, !le_bytes_length, pad8_length. lia. }
  split_and!; [done| | |].
  - rewrite Ha. replace (_ * 8 + 16) with (((length output + 7) / 8 + 2) * 8) by lia. apply Nat.Div0.mod_mul.
  - subst file a. rewrite <-!app_assoc, <-pad8_length.
    pose proof (get_range_middle (pad8 output) (le_bytes 8 base) (le_bytes 8 width ++ bytes ++ rest)) as Hg.
    rewrite le_bytes_length in Hg. rewrite Hg. cbn [fmap option_fmap option_map]. f_equal. by apply le_value_bytes.
  - subst file a. rewrite <-!app_assoc, <-pad8_length.
    pose proof (get_range_middle (pad8 output ++ le_bytes 8 base) (le_bytes 8 width) (bytes ++ rest)) as Hg.
    rewrite length_app, !le_bytes_length, <-!app_assoc, <-Nat.add_assoc in Hg.
    change (8 + 8) with 16 in Hg. rewrite Hg.
    cbn [fmap option_fmap option_map]. f_equal. by apply le_value_bytes.
Qed.

Definition data_parts (d : IntegerData) : N * nat * list N :=
  match d with
  | Raw values => (0%N, elem_size (s_elem s), column_bytes (s_elem s) values)
  | Packed base o => (base, offsets_width o,
      match o with
      | Constant _ => []
      | OByte values => column_bytes u8 values
      | OShort values => column_bytes u16 values
      | OWord values => column_bytes u32 values
      end)
  end.
Lemma encode_parts d output : let '(base, width, bytes) := data_parts d in
  encode s d output = (pad8 output ++ le_bytes 8 base ++ le_bytes 8 (N.of_nat width)) ++ bytes ∧
  length bytes = width * integer_len s d ∧ width ≤ elem_size (s_elem s).
Proof.
  unfold encode. destruct d as [values|base [n|c|c|c]]; simpl; rewrite <-?app_assoc, ?app_nil_r.
  - split_and!; [done|apply column_bytes_length|done].
  - split_and!; [done|done|lia].
  - split_and!; [done|apply (column_bytes_length u8)|destruct (scalar_size (s := s)); lia].
  - split_and!; [done|apply (column_bytes_length u16)|destruct (scalar_size (s := s)); lia].
  - split_and!; [done|apply (column_bytes_length u32)|destruct (scalar_size (s := s)); lia].
Qed.

Lemma decode_reads_header (base : N) width bytes output rest count :
  (base < 2 ^ 64)%N → width ≤ 8 → length bytes = width * count →
  let a := pad8 output ++ le_bytes 8 base ++ le_bytes 8 (N.of_nat width) in
  let file := a ++ bytes ++ rest in
  (N.of_nat (length file) < 2 ^ 63)%N →
  decode s file (length output) count (length a + length bytes) =
  (data ← decode_data s file base (N.of_nat width) count (length a) (length a + length bytes);
   Some (data, length a + length bytes)).
Proof.
  intros Hb Hw Hbytes a file Hfits.
  destruct (decode_header base (N.of_nat width) bytes output rest (Packed base (Constant 0)))
    as (Hla & _ & Hgb & Hgw); [done|lia|]. fold a file in Hla, Hgb, Hgw.
  assert (Hlf : length file = length a + length bytes + length rest).
  { subst file. rewrite !length_app. lia. }
  assert (Hout : length output ≤ (length output + 7) / 8 * 8).
  { pose proof (Nat.div_mod_eq (length output + 7) 8). pose proof (Nat.mod_upper_bound (length output + 7) 8). lia. }
  unfold decode, usize_checked_add, usize_max, u64_max.
  destruct (N.leb_spec (N.of_nat (length output + 7)) 18446744073709551615); [|lia].
  cbn [mbind option_bind]. destruct (N.leb_spec (N.of_nat ((length output + 7) / 8 * 8 + 16)) 18446744073709551615); [|lia].
  cbn [mbind option_bind]. rewrite <-Hla in Hgw |- *.
  rewrite (proj2 (Nat.ltb_ge _ _)) by lia. rewrite Hgb, Hgw. cbn [mbind option_bind].
  replace (N.of_nat count * N.of_nat width)%N with (N.of_nat (length bytes)) by lia.
  rewrite (proj2 (N.ltb_ge 18446744073709551615 (N.of_nat (length bytes)))),
    (proj2 (N.ltb_ge 18446744073709551615 (N.of_nat (length a) + N.of_nat (length bytes)))),
    (proj2 (N.ltb_ge (N.of_nat (length a + length bytes)) _)) by lia.
  by rewrite Nat2N.id.
Qed.
(** What is written is read back, and the position after it. *)
Lemma encode_decode d vs output rest :
  integer_ok d → for_each s d = Some vs → (N.of_nat (length (encode s d output ++ rest)) < 2 ^ 63)%N →
  ∃ d', decode s (encode s d output ++ rest) (length output) (length vs) (length (encode s d output)) =
          Some (d', length (encode s d output)) ∧ for_each s d' = Some vs.
Proof.
  intros Hok Hvs Hfits. destruct (reads_spec d Hok) as (vs' & Hvs' & Hlen & Hfit & _).
  assert (vs' = vs) as -> by congruence. pose proof (encode_parts d output) as Hparts.
  destruct (data_parts d) as [[base width] bytes] eqn:Ed. destruct Hparts as (He & Hb & Hw). rewrite Hlen in Hb.
  rewrite He in Hfits |- *. set (a := pad8 output ++ le_bytes 8 base ++ le_bytes 8 (N.of_nat width)) in *.
  rewrite <-app_assoc in Hfits |- *. rewrite (length_app a bytes).
  assert (Hbase : (base < 2 ^ 64)%N).
  { destruct d as [values|b o]; simpl in Ed; injection Ed as <- <- <-; [lia|].
    destruct Hok as (_ & _ & Hmax & _). unfold u64_max in Hmax. lia. }
  assert (Hw8 : width ≤ 8) by (destruct (scalar_size (s := s)); lia).
  pose proof (decode_reads_header base width bytes output rest (length vs) Hbase Hw8 Hb Hfits) as Hd.
  fold a in Hd. rewrite Hd. clear Hd.
  destruct (decode_header base (N.of_nat width) bytes output rest d Hbase) as (_ & Ha & _); [lia|].
  fold a in Ha. rewrite Hb.
  enough (∃ d', decode_data s (a ++ bytes ++ rest) base (N.of_nat width) (length vs) (length a)
    (length a + width * length vs) = Some d' ∧ for_each s d' = Some vs) as (d' & -> & Hd') by by exists d'.
  assert (Hdiv : ∀ size, size ∈ [1; 2; 4; 8] → length a mod size = 0).
  { intros size Hs. pose proof (Nat.div_mod_eq (length a) 8). rewrite Ha in H.
    repeat (apply elem_of_cons in Hs as [->|Hs]; [apply Nat.Div0.mod_divides|]); [..|by apply elem_of_nil in Hs].
    - by exists (8 * (length a / 8)).
    - exists (4 * (length a / 8)). lia.
    - exists (2 * (length a / 8)). lia.
    - exists (length a / 8). lia. }
  unfold decode_data. destruct d as [values|b o]; simpl in Ed; injection Ed as <- <- <-.
  - rewrite N.eqb_refl. cbn [N.eqb]. simpl in Hvs. injection Hvs as <-.
    destruct (column_mapped_bytes (s_elem s) (column_values (s_elem s) values) a rest) as (c & Hc & Hcv);
      [done|apply Hdiv; destruct (scalar_size (s := s)) as [-> | ->]; set_solver|].
    rewrite (column_bytes_owned (s_elem s)) in Hc. rewrite Hc. exists (Raw c). split; [done|]. simpl. by rewrite Hcv.
  - pose proof Hok as (Hoo & Hwidth & Hmax & Htop).
    rewrite (proj2 (N.eqb_neq _ _)) by lia.
    destruct (from_rank_below b (b + offsets_maximum o)) as [v0 Hv0]; [lia|done|].
    assert (Hfinish : ∀ o', offset_list o' = offset_list o → offsets_maximum o' = offsets_maximum o →
      ∃ d', (top ← u64_checked_add b (offsets_maximum o'); _ ← from_rank s top; Some (Packed b o')) = Some d' ∧
            for_each s d' = Some vs).
    { intros o' Ho' Hm'. rewrite Hm'. unfold u64_checked_add. rewrite (proj2 (N.leb_le _ _)) by done.
      destruct Htop as [top Htop]. cbn [mbind option_bind]. rewrite Htop. exists (Packed b o').
      split; [done|]. simpl. by rewrite Ho'. }
    simpl in Hlen. rewrite offsets_len_list in Hlen. rewrite Hv0. cbn [mbind option_bind].
    destruct o as [n|c|c|c]; simpl in Hlen |- *.
    + rewrite length_replicate in Hlen. subst n. by apply Hfinish.
    + destruct (column_mapped_bytes u8 (column_values u8 c) a rest) as (c' & Hc & Hcv);
        [by apply column_values_fit; [apply _|]|apply Hdiv; set_solver|].
      rewrite (column_bytes_owned u8), Hlen in Hc. simpl in Hc. rewrite Hc. cbn [fmap option_fmap option_map mbind option_bind].
      apply Hfinish; simpl; by rewrite Hcv.
    + destruct (column_mapped_bytes u16 (column_values u16 c) a rest) as (c' & Hc & Hcv);
        [by apply column_values_fit; [apply _|]|apply Hdiv; set_solver|].
      rewrite (column_bytes_owned u16), Hlen in Hc. simpl in Hc. rewrite Hc. cbn [fmap option_fmap option_map mbind option_bind].
      apply Hfinish; simpl; by rewrite Hcv.
    + destruct (column_mapped_bytes u32 (column_values u32 c) a rest) as (c' & Hc & Hcv);
        [by apply column_values_fit; [apply _|]|apply Hdiv; set_solver|].
      rewrite (column_bytes_owned u32), Hlen in Hc. simpl in Hc, Hwidth. rewrite (proj2 (Nat.ltb_lt _ _)) by lia.
      simpl. rewrite Hc. cbn [fmap option_fmap option_map mbind option_bind].
      apply Hfinish; simpl; by rewrite Hcv.
Qed.

(** What passes validation is well formed. *)
Lemma column_mapped_ok {V} (e : elem V) `{!ElemLaws e} mapping start end_ c count :
  Forall byte mapping → end_ = start + count * elem_size e → column_mapped e mapping start end_ = Some c →
  column_ok e c ∧ length (column_values e c) = count.
Proof.
  intros Hbytes -> . pose proof (elem_size_pos (e := e)). unfold column_mapped.
  destruct ((_ <? start) || _ || _ || _) eqn:Hcheck; [done|]. intros [= <-].
  apply orb_false_iff in Hcheck as [Hcheck Hlen]. apply orb_false_iff in Hcheck as [Hcheck _].
  apply orb_false_iff in Hcheck as [H1 H2]. apply Nat.ltb_ge in H1, H2.
  apply negb_false_iff, Nat.eqb_eq in Hlen.
  assert (Hok : column_ok e (Mapped mapping start (start + count * elem_size e))) by by split_and!.
  split; [done|]. rewrite (mapped_length e) by done.
  replace (start + count * elem_size e - start) with (count * elem_size e) by lia. apply Nat.div_mul. lia.
Qed.
Lemma decode_data_ok mapping base width count header_end next d :
  Forall byte mapping → next = header_end + count * N.to_nat width →
  decode_data s mapping base width count header_end next = Some d → integer_ok d ∧ integer_len s d = count.
Proof.
  intros Hbytes Hnext. unfold decode_data. destruct (N.eqb_spec width (N.of_nat (elem_size (s_elem s)))) as [->|Hw].
  { destruct (N.eqb_spec base 0); [|done]. rewrite Nat2N.id in Hnext.
    intros (c & Hc & ->)%fmap_Some. by apply (column_mapped_ok (s_elem s) mapping header_end next). }
  destruct (from_rank s base) as [v0|]; [|done]. cbn [mbind option_bind].
  assert (Hfinish : ∀ o, offsets_ok o → offsets_len o = count → offsets_width o < elem_size (s_elem s) →
    (top ← u64_checked_add base (offsets_maximum o); _ ← from_rank s top; Some (Packed base o)) = Some d →
    integer_ok d ∧ integer_len s d = count).
  { intros o Ho Hl Hwd. unfold u64_checked_add. destruct (N.leb_spec (base + offsets_maximum o) u64_max); [|done].
    cbn [mbind option_bind]. destruct (from_rank s (base + offsets_maximum o)) as [top|] eqn:Et; [|done].
    intros [= <-]. split; [|done]. split_and!; done. }
  pose proof (scalar_size (s := s)) as Hss.
  destruct (N.eqb_spec width 0) as [->|H0]; [|destruct (N.eqb_spec width 1) as [->|H1];
    [|destruct (N.eqb_spec width 2) as [->|H2]; [|destruct (N.eqb_spec width 4) as [->|H4]; [|done]]]].
  - by apply Hfinish; [..|simpl; lia].
  - destruct (column_mapped u8 mapping header_end next) as [c|] eqn:Hc; [|done].
    destruct (column_mapped_ok u8 mapping header_end next c count Hbytes Hnext Hc).
    apply Hfinish; [done..|simpl; lia].
  - destruct (column_mapped u16 mapping header_end next) as [c|] eqn:Hc; [|done].
    destruct (column_mapped_ok u16 mapping header_end next c count Hbytes Hnext Hc).
    apply Hfinish; [done..|simpl; lia].
  - destruct (4 <? elem_size (s_elem s)) eqn:H4; [|done]. apply Nat.ltb_lt in H4. simpl.
    destruct (column_mapped u32 mapping header_end next) as [c|] eqn:Hc; [|done].
    destruct (column_mapped_ok u32 mapping header_end next c count Hbytes Hnext Hc).
    apply Hfinish; [done..|simpl; lia].
Qed.
Lemma decode_ok mapping offset count end_ d next :
  Forall byte mapping → decode s mapping offset count end_ = Some (d, next) →
  integer_ok d ∧ integer_len s d = count ∧ next ≤ end_.
Proof.
  intros Hbytes. unfold decode.
  destruct (usize_checked_add offset 7) as [o7|]; [|done]. cbn [mbind option_bind].
  destruct (usize_checked_add _ 16) as [header_end|]; [|done]. cbn [mbind option_bind].
  destruct (end_ <? header_end); [done|].
  destruct (le_value <$> get_range mapping (o7 / 8 * 8) _) as [base|]; [|done]. cbn [mbind option_bind].
  destruct (le_value <$> get_range mapping (o7 / 8 * 8 + 8) _) as [width|]; [|done]. cbn [mbind option_bind].
  destruct ((usize_max <? N.of_nat count * width) || (usize_max <? N.of_nat header_end + N.of_nat count * width))%N; [done|].
  destruct (N.ltb_spec (N.of_nat end_) (N.of_nat header_end + N.of_nat count * width)); [done|].
  destruct (decode_data s mapping base width count header_end _) as [data|] eqn:Ed; [|done].
  cbn [mbind option_bind]. intros [= <- <-].
  apply decode_data_ok in Ed as [Hok Hlen]; [split_and!; [done|done|lia]|done|lia].
Qed.
End reads.

(** ** Theorems *)

(** C26: Columns hold what was put in them.  In any representation (raw, owned or
    mapped, constant, or packed in one, two or four bytes over a base) a
    well-formed column reads, element by element and in one sweep, as one list
    of values; [compact] never changes that list; [set] changes exactly the one
    slot, or appends; and the results are well formed again. *)
Theorem columns_hold_values {T} `{!EqDecision T} (s : scalar T) `{!ScalarLaws s} (d : IntegerData T) :
  integer_ok s d → ∃ vs, for_each s d = Some vs ∧ integer_len s d = length vs ∧
    (∀ slot, integer_get s d slot = vs !! slot) ∧
    for_each s (compact s d) = Some vs ∧ integer_ok s (compact s d) ∧
    ∀ slot value, fits_in (s_elem s) value → slot ≤ length vs →
      ∃ d', integer_set s d slot value = Some d' ∧ integer_ok s d' ∧
            for_each s d' = Some (if slot =? length vs then vs ++ [value] else <[slot := value]> vs).
Proof.
  intros Hok. destruct (reads_spec s d Hok) as (vs & Hvs & Hlen & _ & Hget).
  destruct (compact_spec s d Hok) as [Hc Hcok]. exists vs. split_and!; try done; [by rewrite Hc|].
  intros slot value. by apply set_spec.
Qed.

(** C33: Range scans select exactly the range.  The byte-wide scan of a block sets,
    for every slot of the column, the slot's bit to whether the rank of its
    value lies between the bounds, whatever the representation and whatever the
    buffer held: rebasing the bounds to the packed offsets loses and adds
    nothing. *)
Theorem range_scan_is_exact {T} `{!EqDecision T} (s : scalar T) `{!ScalarLaws s} (d : IntegerData T)
    output lower upper slot value :
  integer_ok s d → length output = div_ceil (integer_len s d) 8 → integer_get s d slot = Some value →
  bit_at (fill_rank_range s d output lower upper) slot =
    Some ((lower <=? rank s value)%N && (rank s value <=? upper)%N).
Proof.
  intros Hok Hout Hget. destruct (reads_spec s d Hok) as (vs & Hvs & Hlen & _ & Hreads).
  rewrite Hreads in Hget. apply (raise_range_spec s d vs); [done..|]. rewrite Hout, Hlen.
  apply lookup_lt_Some in Hget. destruct (div_ceil_cover (length vs) 8) as [Hc _]; [lia|].
  apply Nat.Div0.div_lt_upper_bound. lia.
Qed.

(** C34: The cache format round-trips.  Written after any other sections and followed
    by any others, a column is read back with the same values, and reading stops
    exactly where writing did. *)
Theorem column_encode_roundtrip {T} `{!EqDecision T} (s : scalar T) `{!ScalarLaws s} (d : IntegerData T)
    output rest :
  integer_ok s d → (N.of_nat (length (encode s d output ++ rest)) < 2 ^ 63)%N →
  ∃ d', decode s (encode s d output ++ rest) (length output) (integer_len s d) (length (encode s d output)) =
          Some (d', length (encode s d output)) ∧ for_each s d' = for_each s d.
Proof.
  intros Hok Hfits. destruct (reads_spec s d Hok) as (vs & Hvs & Hlen & _).
  rewrite Hlen, Hvs. by apply encode_decode.
Qed.

(** C35: A damaged cache cannot make a read fail.  Whatever bytes a mapped file holds,
    a column that [decode] accepts has exactly the promised length, lies within
    the section, and every one of its slots reads as a value of the type. *)
Theorem decode_validates {T} `{!EqDecision T} (s : scalar T) `{!ScalarLaws s} mapping offset count end_ d next :
  Forall byte mapping → decode s mapping offset count end_ = Some (d, next) →
  next ≤ end_ ∧ ∃ vs, for_each s d = Some vs ∧ length vs = count ∧ Forall (fits_in (s_elem s)) vs ∧
    ∀ slot, slot < count → ∃ value, integer_get s d slot = Some value ∧ vs !! slot = Some value.
Proof.
  intros Hbytes Hd. destruct (decode_ok s mapping offset count end_ d next Hbytes Hd) as (Hok & Hlen & Hnext).
  destruct (reads_spec s d Hok) as (vs & Hvs & Hl & Hfit & Hget). split; [done|].
  exists vs. split_and!; [done|congruence|done|]. intros slot Hs.
  destruct (lookup_lt_is_Some_2 vs slot) as [v Hv]; [lia|]. exists v. by rewrite Hget.
Qed.

Definition sample_integers : IntegerData Z := Raw (Owned [-20; 19; 400]%Z).
Lemma sample_integers_ok : integer_ok scalar_i64 sample_integers.
Proof. simpl. repeat constructor; simpl; lia. Qed.
Lemma columns_hold_values_witness :
  compact scalar_i64 sample_integers ≠ sample_integers ∧
  for_each scalar_i64 (compact scalar_i64 sample_integers) = Some [-20; 19; 400]%Z ∧
  ∃ d', integer_set scalar_i64 sample_integers 3 7%Z = Some d' ∧
        for_each scalar_i64 d' = Some [-20; 19; 400; 7]%Z.
Proof.
  split; [vm_compute; discriminate|].
  destruct (columns_hold_values scalar_i64 sample_integers sample_integers_ok)
    as (vs & Hvs & _ & _ & Hc & _ & Hset).
  injection Hvs as <-. split; [exact Hc|].
  destruct (Hset 3 7%Z) as (d' & Hd & _ & Hv); [simpl; lia|simpl; lia|]. exists d'. split; [exact Hd|exact Hv].
Defined.
Lemma range_scan_is_exact_witness :
  bit_at (fill_rank_range scalar_i64 (compact scalar_i64 sample_integers) [255%N]
            (rank scalar_i64 0%Z) (rank scalar_i64 100%Z)) 1 = Some true.
Proof.
  rewrite (range_scan_is_exact scalar_i64 (compact scalar_i64 sample_integers) [255%N] _ _ 1 19%Z).
  - vm_compute. reflexivity.
  - apply (compact_spec scalar_i64 sample_integers sample_integers_ok).
  - vm_compute. reflexivity.
  - vm_compute. reflexivity.
Defined.
Lemma column_encode_roundtrip_witness :
  ∃ d', decode scalar_i64 (encode scalar_i64 sample_integers [1; 2; 3]%N ++ [9]%N) 3 3 48 = Some (d', 48) ∧
        for_each scalar_i64 d' = Some [-20; 19; 400]%Z.
Proof.
  destruct (column_encode_roundtrip scalar_i64 sample_integers [1; 2; 3]%N [9]%N) as (d' & Hd & Hv).
  - apply sample_integers_ok.
  - vm_compute. reflexivity.
  - exists d'. split; [exact Hd|exact Hv].
Defined.
Lemma decode_validates_witness :
  let mapping := le_bytes 8 5 ++ le_bytes 8 1 ++ [0; 250]%N in
  (∃ d next vs, decode scalar_u64 mapping 0 2 18 = Some (d, next) ∧
    for_each scalar_u64 d = Some vs ∧ length vs = 2) ∧
  decode scalar_u64 (le_bytes 8 18446744073709551615 ++ le_bytes 8 1 ++ [1]%N) 0 1 17 = None.
Proof.
  cbv zeta. split; [|vm_compute; reflexivity].
  destruct (decode scalar_u64 (le_bytes 8 5 ++ le_bytes 8 1 ++ [0; 250]%N) 0 2 18) as [[d next]|] eqn:E.
  - destruct (decode_validates scalar_u64 (le_bytes 8 5 ++ le_bytes 8 1 ++ [0; 250]%N) 0 2 18 d next)
      as (_ & vs & Hv & Hl & _).
    + by_decide.
    + exact E.
    + exists d, next, vs. split; [reflexivity|]. split; [exact Hv|exact Hl].
  - vm_compute in E. discriminate.
Defined.
