(* ===== verification/FloatOrder.v ===== *)
(** * The order of [f64] and the conversion of integers

    IEEE comparison is a total order on everything but NaN, and [n as f64] is
    monotone, ties and rounding included: what core/src/numeric_columns.rs
    relies on when it turns a range of floats into a range of integers. *)
From S2P Require Import Prelude Text ResultOrder Float.
Local Open Scope Z_scope.

(** ** The order *)

Definition float_key (x : f64) : option (Z * (Z * Z)) :=
  match x with
  | S754_nan => None
  | S754_infinity s => Some (if s then -2 else 2, (0, 0))
  | S754_zero _ => Some (0, (0, 0))
  | S754_finite true m e => Some (-1, (- e, - Zpos m))
  | S754_finite false m e => Some (1, (e, Zpos m))
  end.
Definition key_cmp : Z * (Z * Z) → Z * (Z * Z) → comparison := pair_cmp Z.compare (pair_cmp Z.compare Z.compare).
#[export] Instance key_cmp_total : TotalOrder key_cmp.
Proof. apply _. Qed.

Lemma SFcompare_key x y :
  SFcompare x y = (kx ← float_key x; ky ← float_key y; Some (key_cmp kx ky)).
Proof.
  destruct x as [[]|[]| |[] m e], y as [[]|[]| |[] m' e']; try done;
    unfold key_cmp, pair_cmp; simpl; rewrite <-?Z.compare_antisym; try done.
  - rewrite Z.compare_opp, (Z.compare_antisym e' e). by destruct (e' ?= e).
  - by destruct (e ?= e').
Qed.
Lemma f64_le_key x y : f64_le x y = true ↔ ∃ kx ky, float_key x = Some kx ∧ float_key y = Some ky ∧ cmp_le key_cmp kx ky.
Proof.
  unfold f64_le, SFleb. rewrite SFcompare_key. unfold cmp_le.
  destruct (float_key x) as [kx|], (float_key y) as [ky|]; cbn [mbind option_bind]; try naive_solver.
  split; [intros Hc; exists kx, ky; split_and!; [done..|]|intros (? & ? & [= <-] & [= <-] & Hc)];
    destruct (key_cmp kx ky); done.
Qed.
Lemma f64_lt_key x y : f64_lt x y = true ↔ ∃ kx ky, float_key x = Some kx ∧ float_key y = Some ky ∧ key_cmp kx ky = Lt.
Proof.
  unfold f64_lt, SFltb. rewrite SFcompare_key.
  destruct (float_key x) as [kx|], (float_key y) as [ky|]; cbn [mbind option_bind]; try naive_solver.
  split; [intros Hc; exists kx, ky; split_and!; [done..|]|intros (? & ? & [= <-] & [= <-] & Hc)];
    destruct (key_cmp kx ky); done.
Qed.
Lemma f64_le_trans x y z : f64_le x y = true → f64_le y z = true → f64_le x z = true.
Proof.
  rewrite !f64_le_key. intros (kx & ky & Hx & Hy & Hxy) (ky' & kz & Hy' & Hz & Hyz).
  assert (ky' = ky) as -> by congruence. exists kx, kz. split_and!; [done..|]. by transitivity ky.
Qed.
Lemma f64_lt_le_trans x y z : f64_lt x y = true → f64_le y z = true → f64_lt x z = true.
Proof.
  rewrite !f64_lt_key, f64_le_key. intros (kx & ky & Hx & Hy & Hxy) (ky' & kz & Hy' & Hz & Hyz).
  assert (ky' = ky) as -> by congruence. exists kx, kz. split_and!; [done..|].
  by apply (cmp_lt_le_trans key_cmp kx ky kz).
Qed.
Lemma f64_le_lt_trans x y z : f64_le x y = true → f64_lt y z = true → f64_lt x z = true.
Proof.
  rewrite !f64_lt_key, f64_le_key. intros (kx & ky & Hx & Hy & Hxy) (ky' & kz & Hy' & Hz & Hyz).
  assert (ky' = ky) as -> by congruence. exists kx, kz. split_and!; [done..|].
  by apply (cmp_le_lt_trans key_cmp kx ky kz).
Qed.
Lemma f64_le_refl x : f64_is_nan x = false → f64_le x x = true.
Proof.
  intros Hn. apply f64_le_key. destruct (float_key x) as [k|] eqn:E; [|by destruct x as [[]|[]| |[]]].
  exists k, k. split_and!; [done..|reflexivity].
Qed.
Lemma f64_not_lt x y : f64_is_nan x = false → f64_is_nan y = false → f64_lt x y = false → f64_le y x = true.
Proof.
  intros Hx Hy Hlt. unfold f64_lt, SFltb in Hlt. rewrite SFcompare_key in Hlt. apply f64_le_key.
  destruct (float_key x) as [kx|] eqn:Ex; [|by destruct x as [[]|[]| |[]]].
  destruct (float_key y) as [ky|] eqn:Ey; [|by destruct y as [[]|[]| |[]]].
  exists ky, kx. split_and!; [done..|]. unfold cmp_le. rewrite (compare_opp key_cmp kx ky).
  cbn [mbind option_bind] in Hlt. by destruct (key_cmp kx ky).
Qed.

(** ** Rounding is monotone *)

(** The bits kept, the last one dropped, and whether any other was set. *)
Definition record_key (r : shr_record) : Z := 4 * shr_m r + 2 * Z.b2z (shr_r r) + Z.b2z (shr_s r).
Lemma shr_1_spec r : 0 ≤ shr_m r →
  shr_m (shr_1 r) = shr_m r / 2 ∧ record_key (shr_1 r) = 2 * shr_m r + Z.b2z (shr_r r || shr_s r).
Proof.
  intros Hm. destruct r as [m b s]. simpl in Hm. unfold record_key. destruct m as [|[m|m|]|m]; simpl; [| | | |lia].
  - destruct b, s; done.
  - rewrite (Pos2Z.inj_xI m), Z.mul_comm, Z.div_add_l by lia. change (1 / 2) with 0. destruct b, s; simpl; lia.
  - rewrite (Pos2Z.inj_xO m), Z.mul_comm, Z.div_mul by lia. destruct b, s; simpl; lia.
  - destruct b, s; done.
Qed.
Definition below (r r' : shr_record) : Prop := 0 ≤ shr_m r ∧ 0 ≤ shr_m r' ∧ record_key r ≤ record_key r'.
Lemma shr_1_below r r' : below r r' → below (shr_1 r) (shr_1 r').
Proof.
  intros (H0 & H0' & Hk). destruct (shr_1_spec r H0) as [Hm Hkey], (shr_1_spec r' H0') as [Hm' Hkey'].
  unfold below. rewrite Hm, Hm', Hkey, Hkey'. split_and!; [by apply Z.div_pos..|].
  unfold record_key in Hk. destruct (shr_r r), (shr_s r), (shr_r r'), (shr_s r'); simpl in *; lia.
Qed.
Lemma iter_pos_below n r r' : below r r' → below (iter_pos shr_1 n r) (iter_pos shr_1 n r').
Proof. revert r r'. induction n as [n IH|n IH|]; intros r r' Hb; simpl; [do 2 apply IH|do 2 apply IH|]; auto using shr_1_below. Qed.
Lemma iter_pos_div n r : 0 ≤ shr_m r → shr_m (iter_pos shr_1 n r) = shr_m r / 2 ^ Zpos n.
Proof.
  revert r. induction n as [n IH|n IH|]; intros r Hm; simpl.
  - destruct (shr_1_spec r Hm) as [H1 _]. assert (H1' : 0 ≤ shr_m (shr_1 r)) by (rewrite H1; by apply Z.div_pos).
    rewrite IH, IH, H1 by (rewrite ?IH by done; try apply Z.div_pos; lia).
    rewrite !Z.div_div by lia. f_equal. rewrite (Pos2Z.inj_xI n), Z.pow_add_r, Z.pow_mul_r, Z.pow_1_r by lia.
    rewrite Z.pow_2_r at 1. replace (2 ^ 2) with (2 * 2) by lia. rewrite Z.pow_mul_l. lia.
  - rewrite IH, IH by (rewrite ?IH by done; try apply Z.div_pos; lia). rewrite !Z.div_div by lia. f_equal.
    rewrite (Pos2Z.inj_xO n), Z.pow_mul_r by lia. replace (2 ^ 2) with (2 * 2) by lia. by rewrite Z.pow_mul_l.
  - apply shr_1_spec. done.
Qed.
(** The kept bits, rounded to nearest with ties to even. *)
Definition nearest (r : shr_record) : Z := round_nearest_even (shr_m r) (loc_of_shr_record r).
Lemma nearest_bounds r : shr_m r ≤ nearest r ≤ shr_m r + 1.
Proof. unfold nearest. destruct r as [m [] []]; simpl; try case_match; lia. Qed.
Lemma nearest_below r r' : below r r' → nearest r ≤ nearest r'.
Proof.
  intros (_ & _ & Hk). pose proof (nearest_bounds r). pose proof (nearest_bounds r').
  destruct (decide (shr_m r < shr_m r')); [lia|]. unfold record_key in Hk.
  assert (shr_m r = shr_m r') by (destruct (shr_r r), (shr_s r), (shr_r r'), (shr_s r'); simpl in *; lia).
  unfold nearest. destruct r as [m [] []], r' as [m' [] []]; simpl in *; subst; try lia; case_match; lia.
Qed.

(** ** [n as f64] *)

Lemma digits_bounds p : 2 ^ (Zpos (digits2_pos p) - 1) ≤ Zpos p < 2 ^ Zpos (digits2_pos p).
Proof.
  induction p as [p IH|p IH|]; simpl digits2_pos; [| |done];
    replace (Zpos (Pos.succ (digits2_pos p)) - 1) with (Zpos (digits2_pos p) - 1 + 1) by lia;
    rewrite Pos2Z.inj_succ; unfold Z.succ; rewrite !Z.pow_add_r, Z.pow_1_r by lia; lia.
Qed.
Lemma digits_unique p d : 1 ≤ d → 2 ^ (d - 1) ≤ Zpos p < 2 ^ d → Zpos (digits2_pos p) = d.
Proof.
  intros Hd [Hl Hu]. destruct (digits_bounds p) as [Hl' Hu'].
  destruct (Z.lt_trichotomy (Zpos (digits2_pos p)) d) as [Hlt|[?|Hgt]]; [exfalso|done|exfalso].
  - pose proof (Z.pow_le_mono_r 2 (Zpos (digits2_pos p)) (d - 1)). lia.
  - pose proof (Z.pow_le_mono_r 2 d (Zpos (digits2_pos p) - 1)). lia.
Qed.
(** Mantissa and exponent of a positive integer. *)
Definition dropped (p : positive) (d : Z) : shr_record :=
  iter_pos shr_1 (Z.to_pos (d - 53)) {| shr_m := Zpos p; shr_r := false; shr_s := false |}.
Definition rounded (p : positive) : Z * Z :=
  let d := Zpos (digits2_pos p) in
  if d <=? 53 then (Zpos p * 2 ^ (53 - d), d - 53)
  else
    let q := nearest (dropped p d) in
    if q =? 2 ^ 53 then (2 ^ 52, d - 52) else (q, d - 53).
Lemma dropped_bounds p : 53 < Zpos (digits2_pos p) →
  2 ^ 52 ≤ nearest (dropped p (Zpos (digits2_pos p))) ≤ 2 ^ 53.
Proof.
  intros Hd. destruct (digits_bounds p) as [Hl Hu]. set (d := Zpos (digits2_pos p)) in *.
  pose proof (nearest_bounds (dropped p d)) as Hn. unfold dropped in *.
  rewrite iter_pos_div in Hn by (simpl; lia). simpl shr_m in Hn. rewrite Z2Pos.id in Hn by lia.
  assert (2 ^ 52 ≤ Zpos p / 2 ^ (d - 53)).
  { apply Z.div_le_lower_bound; [lia|]. rewrite <-Z.pow_add_r by lia. by replace (d - 53 + 52) with (d - 1) by lia. }
  assert (Zpos p / 2 ^ (d - 53) < 2 ^ 53).
  { apply Z.div_lt_upper_bound; [lia|]. rewrite <-Z.pow_add_r by lia. by replace (d - 53 + 53) with d by lia. }
  lia.
Qed.
Lemma rounded_mantissa p : 2 ^ 52 ≤ (rounded p).1 < 2 ^ 53.
Proof.
  unfold rounded. destruct (Z.leb_spec (Zpos (digits2_pos p)) 53) as [Hd|Hd]; simpl.
  - destruct (digits_bounds p) as [Hl Hu]. set (d := Zpos (digits2_pos p)) in *.
    assert (0 < 2 ^ (53 - d)) by lia. split.
    + replace (2 ^ 52) with (2 ^ (d - 1) * 2 ^ (53 - d)) by (rewrite <-Z.pow_add_r by lia; f_equal; lia). nia.
    + replace (2 ^ 53) with (2 ^ d * 2 ^ (53 - d)) by (rewrite <-Z.pow_add_r by lia; f_equal; lia). nia.
  - pose proof (dropped_bounds p Hd). destruct (Z.eqb_spec (nearest (dropped p (Zpos (digits2_pos p)))) (2 ^ 53)); simpl; lia.
Qed.
(** The rounding of the reference is [rounded]. *)
Lemma shr_fexp_keeps m e : 2 ^ 52 ≤ Zpos m < 2 ^ 53 → -1074 ≤ e →
  shr_fexp f64_prec f64_emax (Zpos m) e loc_Exact = ({| shr_m := Zpos m; shr_r := false; shr_s := false |}, e).
Proof.
  intros Hm He. unfold shr_fexp, fexp, emin, f64_prec, f64_emax. simpl Zdigits2.
  rewrite (digits_unique m 53) by (simpl; lia). simpl shr_record_of_loc.
  replace (Z.max (53 + e - 53) (3 - 1024 - 53) - e) with 0 by lia. done.
Qed.
Lemma round_aux_exact sx m e : 2 ^ 52 ≤ Zpos m < 2 ^ 53 → -1074 ≤ e ≤ 971 →
  binary_round_aux f64_prec f64_emax sx (Zpos m) e loc_Exact = S754_finite sx m e.
Proof.
  intros Hm He. unfold binary_round_aux. rewrite shr_fexp_keeps by (done || lia). simpl.
  rewrite shr_fexp_keeps by (done || lia). simpl. unfold f64_prec, f64_emax. by rewrite (proj2 (Z.leb_le _ _)) by lia.
Qed.
Lemma shift_pos_value m d : Zpos (Pos.iter xO m d) = Zpos m * 2 ^ Zpos d.
Proof.
  induction d as [|d IH] using Pos.peano_ind; [simpl; lia|].
  rewrite Pos.iter_succ, Pos2Z.inj_succ. unfold Z.succ. rewrite Z.pow_add_r, Z.pow_1_r by lia.
  rewrite Pos2Z.inj_xO, IH. lia.
Qed.
Lemma binary_round_integer sx p : (Zpos (digits2_pos p) ≤ 64) →
  binary_round f64_prec f64_emax sx p 0 = S754_finite sx (Z.to_pos (rounded p).1) (rounded p).2.
Proof.
  intros H64. pose proof (rounded_mantissa p) as Hm. unfold binary_round, shl_align, fexp, emin. rewrite Z.add_0_r, Z.sub_0_r.
  unfold rounded in *. set (d := Zpos (digits2_pos p)) in *.
  replace (Z.max (d - f64_prec) (3 - f64_emax - f64_prec)) with (d - 53) by (unfold f64_prec, f64_emax; lia).
  destruct (Z.leb_spec d 53) as [Hd|Hd]; simpl in Hm |- *.
  - destruct (d - 53) as [|k|k] eqn:Ek; [|lia|].
    + replace (53 - d) with 0 in * by lia. rewrite Z.mul_1_r in *. by rewrite round_aux_exact by lia.
    + replace (53 - d) with (Zpos k) in * by lia. rewrite <-shift_pos_value in *. by rewrite round_aux_exact by lia.
  - destruct (d - 53) as [|k|k] eqn:Ek; [lia| |lia]. pose proof (dropped_bounds p Hd) as Hq. fold d in Hq.
    unfold binary_round_aux, shr_fexp at 1, fexp, emin. simpl Zdigits2. fold d. rewrite Z.add_0_r, Z.sub_0_r.
    replace (Z.max (d - f64_prec) (3 - f64_emax - f64_prec)) with (Zpos k) by (unfold f64_prec, f64_emax; lia).
    simpl shr_record_of_loc. unfold shr.
    assert (Hdrop : iter_pos shr_1 k {| shr_m := Zpos p; shr_r := false; shr_s := false |} = dropped p d)
      by (unfold dropped; by rewrite Ek).
    rewrite Hdrop, Z.add_0_l. change (round_nearest_even (shr_m (dropped p d)) (loc_of_shr_record (dropped p d))) with (nearest (dropped p d)).
    destruct (Z.eqb_spec (nearest (dropped p d)) (2 ^ 53)) as [Hmax|Hne]; simpl in Hm.
    + rewrite Hmax. replace (d - 52) with (Zpos k + 1) by lia.
      assert (Hshr : shr_fexp f64_prec f64_emax (2 ^ 53) (Zpos k) loc_Exact =
        ({| shr_m := 2 ^ 52; shr_r := false; shr_s := false |}, Zpos k + 1)).
      { unfold shr_fexp, fexp, emin, f64_prec, f64_emax. change (Zdigits2 (2 ^ 53)) with 54.
        replace (Z.max (54 + Zpos k - 53) (3 - 1024 - 53) - Zpos k) with 1 by lia. reflexivity. }
      rewrite Hshr. cbn [shr_m]. change (2 ^ 52) with (Zpos 4503599627370496). unfold f64_prec, f64_emax.
      by rewrite (proj2 (Z.leb_le _ _)) by lia.
    + destruct (nearest (dropped p d)) as [|q|q] eqn:Eq; [lia| |lia].
      rewrite shr_fexp_keeps by lia. simpl. unfold f64_prec, f64_emax. rewrite (proj2 (Z.leb_le _ _)) by lia. f_equal.
Qed.

(** Larger integers round to larger floats. *)
Lemma rounded_mono p p' : Zpos p ≤ Zpos p' →
  (rounded p).2 < (rounded p').2 ∨ ((rounded p).2 = (rounded p').2 ∧ (rounded p).1 ≤ (rounded p').1).
Proof.
  intros Hle. destruct (digits_bounds p) as [Hl Hu], (digits_bounds p') as [Hl' Hu'].
  pose proof (rounded_mantissa p) as Hm. pose proof (rounded_mantissa p') as Hm'.
  pose proof (dropped_bounds p) as Hq. pose proof (dropped_bounds p') as Hq'.
  unfold rounded in *. set (d := Zpos (digits2_pos p)) in *. set (d' := Zpos (digits2_pos p')) in *.
  assert (Hdd : d ≤ d').
  { destruct (decide (d ≤ d')); [done|]. pose proof (Z.pow_le_mono_r 2 d' (d - 1)). lia. }
  destruct (decide (d = d')) as [Heq|Hne].
  - rewrite <-Heq in *. destruct (Z.leb_spec d 53) as [Hd|Hd]; simpl in *.
    + right. split; [done|]. assert (0 < 2 ^ (53 - d)) by lia. nia.
    + assert (Hb : nearest (dropped p d) ≤ nearest (dropped p' d)).
      { apply nearest_below, iter_pos_below. unfold below, record_key. simpl. lia. }
      specialize (Hq Hd). specialize (Hq' Hd).
      destruct (Z.eqb_spec (nearest (dropped p d)) (2 ^ 53)), (Z.eqb_spec (nearest (dropped p' d)) (2 ^ 53));
        simpl in *; lia.
  - assert (Hlow : (if d <=? 53 then (Zpos p * 2 ^ (53 - d), d - 53)
      else if nearest (dropped p d) =? 2 ^ 53 then (2 ^ 52, d - 52) else (nearest (dropped p d), d - 53)).2 = d - 53 ∨
      (if d <=? 53 then (Zpos p * 2 ^ (53 - d), d - 53)
      else if nearest (dropped p d) =? 2 ^ 53 then (2 ^ 52, d - 52) else (nearest (dropped p d), d - 53)) = (2 ^ 52, d - 52)).
    { destruct (d <=? 53); [by left|]. destruct (nearest (dropped p d) =? 2 ^ 53); [by right|by left]. }
    assert (Hhigh : d' - 53 ≤ (if d' <=? 53 then (Zpos p' * 2 ^ (53 - d'), d' - 53)
      else if nearest (dropped p' d') =? 2 ^ 53 then (2 ^ 52, d' - 52) else (nearest (dropped p' d'), d' - 53)).2).
    { destruct (d' <=? 53); simpl; [lia|]. destruct (nearest (dropped p' d') =? 2 ^ 53); simpl; lia. }
    destruct Hlow as [Hlow|Hlow]; [left; lia|]. rewrite Hlow in *. simpl in *. lia.
Qed.
Lemma digits_64 p : Zpos p < 2 ^ 64 → Zpos (digits2_pos p) ≤ 64.
Proof.
  intros Hp. destruct (digits_bounds p) as [Hl _]. destruct (decide (Zpos (digits2_pos p) ≤ 64)); [done|].
  pose proof (Z.pow_le_mono_r 2 64 (Zpos (digits2_pos p) - 1)). lia.
Qed.
Lemma of_Z_key n : - 2 ^ 64 < n < 2 ^ 64 → float_key (f64_of_Z n) = Some
  match n with
  | Z0 => (0, (0, 0))
  | Zpos p => (1, ((rounded p).2, (rounded p).1))
  | Zneg p => (-1, (- (rounded p).2, - (rounded p).1))
  end.
Proof.
  intros Hn. unfold f64_of_Z. destruct n as [|p|p]; [done|..]; pose proof (rounded_mantissa p); cbn [binary_normalize];
    (rewrite binary_round_integer; [|apply digits_64; lia]); cbn [float_key]; by rewrite Z2Pos.id by lia.
Qed.
Lemma of_Z_not_nan n : - 2 ^ 64 < n < 2 ^ 64 → f64_is_nan (f64_of_Z n) = false.
Proof. intros Hn. pose proof (of_Z_key n Hn) as Hk. by destruct (f64_of_Z n). Qed.
Lemma f64_of_Z_mono a b : - 2 ^ 64 < a → a ≤ b → b < 2 ^ 64 → f64_le (f64_of_Z a) (f64_of_Z b) = true.
Proof.
  intros Ha Hab Hb. apply f64_le_key. eexists _, _. rewrite !of_Z_key by lia. split_and!; [done..|].
  unfold cmp_le, key_cmp, pair_cmp, then_with. cbn [fst snd].
  destruct a as [|p|p], b as [|p'|p']; try lia; try done; simpl.
  - destruct (rounded_mono p p') as [He|[He Hm]]; [lia| |].
    + by rewrite (proj2 (Z.compare_lt_iff _ _) He).
    + rewrite He, Z.compare_refl. by apply Z.compare_le_iff.
  - rewrite !Z.compare_opp. destruct (rounded_mono p' p) as [He|[He Hm]]; [lia| |].
    + by rewrite (proj2 (Z.compare_lt_iff _ _) He).
    + rewrite He, Z.compare_refl. by apply Z.compare_le_iff.
Qed.
