(* ===== verification/PostingMap.v ===== *)
(** * core/src/posting_map.rs and core/src/posting_changes.rs

    A posting map sends a term (the bytes of a [u8], of a gram [[u8; N]] or of
    an extension) to the bitmap of the slots that have the term, in 256
    directories chosen by a hash of the term.  A copy-on-write [Arc] is its
    value here: [Arc::make_mut] gives the writer a value of its own, so the
    snapshots that share the old one keep it. *)
From S2P Require Import Prelude Text Bitmap.

Definition SHARDS : nat := 256.
(** The FNV-1a hash of the key, in [u32] arithmetic; its top byte. *)
Definition fnv_step (hash byte : N) : N := (N.lxor hash byte * 16777619) mod 2 ^ 32.
Definition partition (kind : N) (key : bytes) : nat :=
  N.to_nat (N.shiftr (foldl fnv_step (N.lxor 2166136261 kind) key) 24).

#[global] Arguments partition : simpl never.
#[global] Arguments SHARDS : simpl never.

Notation Directory B := (gmap bytes B).
(** [[Arc<Directory<K>>; SHARDS]] *)
Notation PostingMap B := (list (Directory B)).

Section posting_map.
Context {B : Type} `{Roaring B}.
Notation PostingMap := (PostingMap B).

Definition pm_default : PostingMap := replicate SHARDS ∅.

Section operations.
(** [K::KIND] *)
Context (kind : N).

Definition pm_get (m : PostingMap) (key : bytes) : option B :=
  directory ← m !! partition kind key; directory !! key.
(** The second component is the value replaced or removed. *)
Definition pm_insert (key : bytes) (value : B) (m : PostingMap) : PostingMap * option B :=
  (alter <[key:=value]> (partition kind key) m, pm_get m key).
Definition pm_remove (key : bytes) (m : PostingMap) : PostingMap * option B :=
  match pm_get m key with
  | None => (m, None)
  | Some old => (alter (delete key) (partition kind key) m, Some old)
  end.
(** What a caller does through [get_mut]: [None] leaves the map alone. *)
Definition pm_get_mut (f : B → B) (key : bytes) (m : PostingMap) : option PostingMap :=
  match pm_get m key with
  | None => None
  | Some _ => Some (alter (alter f key) (partition kind key) m)
  end.
(** [*map.entry(key).or_default()], updated by [f] *)
Definition pm_entry (f : B → B) (key : bytes) (m : PostingMap) : PostingMap :=
  alter (partial_alter (λ old, Some (f (default bm_new old))) key) (partition kind key) m.
(** [From<HashMap<K, Arc<RoaringBitmap>>>]: the pairs in the map's own order. *)
Definition pm_from (values : list (bytes * B)) : PostingMap :=
  foldl (λ m '(key, value), (pm_insert key value m).1) pm_default values.

(** metadata_postings.rs, [insert], [remove] and [lookup] *)
Definition posting_insert (key : bytes) (slot : N) (m : PostingMap) : PostingMap :=
  pm_entry (bm_insert slot) key m.
Definition posting_remove (key : bytes) (slot : N) (m : PostingMap) : PostingMap :=
  match pm_get_mut (bm_remove slot) key m with
  | None => m
  | Some m =>
    match pm_get m key with
    | Some b => if bm_is_empty b then (pm_remove key m).1 else m
    | None => m
    end
  end.
Definition posting_lookup (m : PostingMap) (key : bytes) : B := default bm_new (pm_get m key).

(** ** Term sets and their differences *)

(** [bytes.windows(n)] *)
Definition windows (n : nat) (l : bytes) : list bytes :=
  (λ i, take n (drop i l)) <$> seq 0 (length l + 1 - n).

Record GramChanges := { previous : list bytes; next : list bytes }.
(** [terms.clear(); terms.extend(..); terms.sort_unstable(); terms.dedup()] *)
Definition term_set `{!UnstableSort} (n : nat) (t : text) : list bytes :=
  dedup (sort_unstable_by (list_cmp N.compare) (windows n (utf8 t))).
(** The walk of both sorted term sets; the arguments are what is left of them. *)
Fixpoint apply_loop (fuel : nat) (before after : list bytes) (slot : N) (m : PostingMap) : PostingMap :=
  match fuel with
  | O => m
  | S fuel =>
    match before, after with
    | [], [] => m
    | old :: before', new :: after' =>
      if decide (old = new) then apply_loop fuel before' after' slot m
      else if is_lt (list_cmp N.compare old new) then
        apply_loop fuel before' after slot (posting_remove old slot m)
      else apply_loop fuel before after' slot (posting_insert new slot m)
    | old :: before', [] => apply_loop fuel before' [] slot (posting_remove old slot m)
    | [], new :: after' => apply_loop fuel [] after' slot (posting_insert new slot m)
    end
  end.
Definition apply `{!UnstableSort} (n : nat) (g : GramChanges) (m : PostingMap) (slot : N)
    (previous_ next_ : text) : GramChanges * PostingMap :=
  if decide (previous_ = next_) then (g, m)
  else
    let g := {| previous := term_set n previous_; next := term_set n next_ |} in
    (g, apply_loop (length (previous g) + length (next g)) (previous g) (next g) slot m).
End operations.
End posting_map.

(** ** The relation a posting map stands for *)

Lemma fnv_bound kind key :
  (kind < 2 ^ 32)%N → (foldl fnv_step (N.lxor 2166136261 kind) key < 2 ^ 32)%N.
Proof.
  intros Hk. assert (H0 : (N.lxor 2166136261 kind < 2 ^ 32)%N).
  { destruct (N.eq_dec (N.lxor 2166136261 kind) 0%N) as [->|Hne]; [done|].
    apply N.log2_lt_pow2; [lia|]. eapply N.le_lt_trans; [apply N.log2_lxor|].
    apply N.max_lub_lt; [done|]. destruct (N.eq_dec kind 0%N) as [->|]; [done|].
    apply N.log2_lt_pow2; lia. }
  revert H0. generalize (N.lxor 2166136261 kind). induction key as [|b key IH]; intros h Hh; [done|].
  simpl. apply IH. unfold fnv_step. by apply N.mod_lt.
Qed.
(** The directory index of the code is always in range. *)
Lemma partition_lt kind key : (kind < 2 ^ 32)%N → partition kind key < SHARDS.
Proof.
  intros Hk. unfold partition. rewrite N.shiftr_div_pow2. pose proof (fnv_bound kind key Hk).
  assert (foldl fnv_step (N.lxor 2166136261 kind) key / 2 ^ 24 < 256)%N
    by (apply N.Div0.div_lt_upper_bound; lia). unfold SHARDS. lia.
Qed.

(** ** Term sets *)

Section grams.
Context `{!UnstableSort}.
Lemma windows_spec n (l key : bytes) :
  0 < n → key ∈ windows n l ↔ length key = n ∧ found key l = true.
Proof.
  intros Hn. unfold windows. rewrite list_elem_of_fmap, found_spec. split.
  - intros (i & -> & Hi%elem_of_seq). split; [rewrite length_take, length_drop; lia|].
    exists (take i l), (drop n (drop i l)). by rewrite take_drop, take_drop.
  - intros (Hlen & x & y & ->). exists (length x). split.
    + rewrite drop_app_length, <-Hlen. by rewrite take_app_length.
    + apply elem_of_seq. rewrite !length_app. lia.
Qed.
Definition lex_lt (x y : bytes) : Prop := cmp_le (list_cmp N.compare) x y ∧ x ≠ y.
Lemma term_set_sorted n t : StronglySorted lex_lt (term_set n t).
Proof.
  unfold term_set. apply (dedup_strict (cmp_le (list_cmp N.compare))).
  apply sort_unstable_sorts, _.
Qed.
Lemma term_set_elem n t key :
  0 < n → key ∈ term_set n t ↔ length key = n ∧ found key (utf8 t) = true.
Proof.
  intros. unfold term_set. by rewrite dedup_elem_of, sort_unstable_permutes, windows_spec.
Qed.
(** What a term set difference does to one slot of one term. *)
Definition edited (before after : list bytes) (key : bytes) (old : bool) : bool :=
  if bool_decide (key ∈ before) then bool_decide (key ∈ after) && old
  else bool_decide (key ∈ after) || old.
Lemma lex_lt_notin x l : Forall (lex_lt x) l → x ∉ l.
Proof. rewrite Forall_forall. intros Hf Hx. by destruct (Hf x Hx). Qed.
Lemma lex_lt_trans x y z : lex_lt x y → lex_lt y z → lex_lt x z.
Proof.
  intros [Hxy Hne] [Hyz _]. split; [by transitivity y|]. intros <-. by apply Hne, (anti_symm (cmp_le (list_cmp N.compare))).
Qed.
Lemma lex_lt_cmp x y : is_lt (list_cmp N.compare x y) = true → lex_lt x y.
Proof.
  rewrite (is_lt_true (list_cmp N.compare)). unfold cmp_lt. intros Hlt. split; [unfold cmp_le; congruence|].
  intros ->. by rewrite (compare_refl (list_cmp N.compare)) in Hlt.
Qed.
Lemma lex_ge_cmp x y : x ≠ y → is_lt (list_cmp N.compare x y) = false → lex_lt y x.
Proof. rewrite (is_lt_false (list_cmp N.compare)). intros Hne Hle. by split. Qed.
Lemma lex_lt_below x y l : lex_lt x y → StronglySorted lex_lt (y :: l) → x ∉ y :: l.
Proof.
  intros Hx [Hf _]%StronglySorted_cons. apply lex_lt_notin. constructor; [done|].
  eapply Forall_impl; [exact Hf|]. intros z. by apply lex_lt_trans.
Qed.
Lemma edited_ne before after before' after' key (old : bool) :
  (key ∈ before ↔ key ∈ before') → (key ∈ after ↔ key ∈ after') →
  edited before after key old = edited before' after' key old.
Proof.
  intros Hb Ha. unfold edited. by rewrite (bool_decide_ext _ _ Hb), (bool_decide_ext _ _ Ha).
Qed.
Lemma edited_out before after key old : key ∉ before → key ∉ after → edited before after key old = old.
Proof. intros Hb Ha. unfold edited. by rewrite !bool_decide_false. Qed.
(** The slot has exactly the grams of a text. *)
Definition gram (n : nat) (t : text) (key : bytes) : bool :=
  (length key =? n) && found key (utf8 t).
Lemma term_set_gram n t key : 0 < n → bool_decide (key ∈ term_set n t) = gram n t key.
Proof.
  intros Hn. unfold gram. destruct (bool_decide_reflect (key ∈ term_set n t)) as [Hin|Hout].
  - apply term_set_elem in Hin as [-> ->]; [|done]. by rewrite Nat.eqb_refl.
  - symmetry. apply not_true_iff_false. intros [?%Nat.eqb_eq ?]%andb_true_iff. apply Hout.
    by apply term_set_elem.
Qed.
End grams.

Section relation.
Context {B : Type} `{RoaringLaws B} (kind : N) (kind_small : (kind < 2 ^ 32)%N).
Implicit Types m : PostingMap B.

(** 256 directories, every key in the directory of its hash, no empty bitmap. *)
Record pm_wf m : Prop := {
  wf_length : length m = SHARDS;
  wf_partition i directory key :
    m !! i = Some directory → is_Some (directory !! key) → partition kind key = i;
  wf_nonempty key b : pm_get kind m key = Some b → bm_is_empty b = false;
}.
(** The slot is listed under the term. *)
Definition has m (key : bytes) (slot : N) : bool :=
  match pm_get kind m key with Some b => bm_contains slot b | None => false end.

Lemma partition_lookup m key : length m = SHARDS → is_Some (m !! partition kind key).
Proof. intros Hm. apply lookup_lt_is_Some_2. rewrite Hm. by apply partition_lt. Qed.
(** Changing the entry of one key in its directory. *)
Lemma pm_get_alter f key m key' :
  length m = SHARDS →
  pm_get kind (alter (partial_alter f key) (partition kind key) m) key' =
    if decide (key = key') then f (pm_get kind m key) else pm_get kind m key'.
Proof.
  intros Hm. destruct (partition_lookup m key Hm) as [d Hd]. unfold pm_get.
  destruct (decide (key = key')) as [<-|Hne].
  - rewrite list_lookup_alter_eq, Hd. simpl. by rewrite lookup_partial_alter_eq.
  - destruct (decide (partition kind key = partition kind key')) as [Hp|Hp].
    + rewrite <-Hp, list_lookup_alter_eq, Hd. simpl. by rewrite lookup_partial_alter_ne.
    + by rewrite list_lookup_alter_ne.
Qed.
Lemma wf_alter f key m :
  pm_wf m → (∀ b, f (pm_get kind m key) = Some b → bm_is_empty b = false) →
  pm_wf (alter (partial_alter f key) (partition kind key) m).
Proof.
  intros [Hl Hp Hn] Hf. split.
  - by rewrite length_alter.
  - intros i d k Hd Hk. destruct (decide (partition kind key = i)) as [<-|Hne].
    + rewrite list_lookup_alter_eq in Hd. destruct (m !! partition kind key) as [d0|] eqn:E; [|done].
      injection Hd as <-. destruct (decide (key = k)) as [<-|]; [done|].
      rewrite lookup_partial_alter_ne in Hk by done. by apply (Hp _ d0).
    + rewrite list_lookup_alter_ne in Hd by done. by apply (Hp _ d).
  - intros k b. rewrite pm_get_alter by done. case_decide; [by apply Hf|by apply Hn].
Qed.
Lemma wf_default : pm_wf pm_default.
Proof.
  assert (Hg : ∀ i d, (pm_default : PostingMap B) !! i = Some d → d = ∅).
  { intros i d. unfold pm_default. intros [-> _]%lookup_replicate. done. }
  split; [by apply length_replicate|..].
  - intros i d key ->%Hg [? Hk]. by rewrite lookup_empty in Hk.
  - intros key b. unfold pm_get. destruct (_ !! partition kind key) as [d|] eqn:E; [|done].
    apply Hg in E as ->. simpl. by rewrite lookup_empty.
Qed.
Lemma has_default key slot : has pm_default key slot = false.
Proof.
  unfold has, pm_get, pm_default. destruct (replicate _ _ !! _) as [d|] eqn:E; [|done].
  apply lookup_replicate in E as [-> _]. simpl. by rewrite lookup_empty.
Qed.

Lemma bm_not_empty b x : bm_contains x b = true → bm_is_empty b = false.
Proof.
  intros Hx. destruct (bm_is_empty b) eqn:E; [|done].
  rewrite bm_is_empty_true in E. by rewrite E in Hx.
Qed.
Lemma posting_insert_wf key slot m : pm_wf m → pm_wf (posting_insert kind key slot m).
Proof.
  intros Hm. apply wf_alter; [done|]. intros b [= <-]. apply (bm_not_empty _ slot).
  by rewrite contains_insert, N.eqb_refl.
Qed.
Lemma has_insert key slot m key' slot' :
  pm_wf m → has (posting_insert kind key slot m) key' slot' =
    bool_decide (key = key') && (slot' =? slot)%N || has m key' slot'.
Proof.
  intros [Hl _ _]. unfold has, posting_insert, pm_entry. rewrite pm_get_alter by done.
  destruct (decide (key = key')) as [<-|Hne].
  - rewrite bool_decide_true by done. rewrite contains_insert.
    by destruct (pm_get kind m key); simpl; rewrite ?contains_new.
  - by rewrite bool_decide_false by done.
Qed.

Lemma alter_directory (f g : Directory B → Directory B) i m :
  (∀ d, m !! i = Some d → f d = g d) → alter f i m = alter g i m.
Proof.
  intros Hfg. apply list_eq. intros j. destruct (decide (i = j)) as [<-|]; [|by rewrite !list_lookup_alter_ne].
  rewrite !list_lookup_alter_eq. destruct (m !! i) as [d|] eqn:E; [|done]. simpl. by rewrite Hfg.
Qed.
Definition removed (slot : N) (old : option B) : option B :=
  b ← old; let b := bm_remove slot b in if bm_is_empty b then None else Some b.
Lemma posting_remove_alter key slot m :
  length m = SHARDS →
  posting_remove kind key slot m = alter (partial_alter (removed slot) key) (partition kind key) m.
Proof.
  intros Hl. unfold posting_remove, pm_get_mut.
  destruct (partition_lookup m key Hl) as [d Hd].
  assert (Hget : ∀ g, pm_get kind (alter g (partition kind key) m) key = g d !! key).
  { intros g. unfold pm_get. by rewrite list_lookup_alter_eq, Hd. }
  assert (Hm : pm_get kind m key = d !! key) by (unfold pm_get; by rewrite Hd).
  rewrite Hm. destruct (d !! key) as [b|] eqn:Hb.
  - rewrite Hget, lookup_alter_eq, Hb. cbn [fmap option_fmap option_map].
    assert (Hr : removed slot (Some b) = if bm_is_empty (bm_remove slot b) then None else Some (bm_remove slot b)) by done.
    destruct (bm_is_empty (bm_remove slot b)) eqn:E.
    + unfold pm_remove. rewrite Hget, lookup_alter_eq, Hb. cbn [fmap option_fmap option_map fst].
      rewrite list_alter_alter_eq. apply alter_directory. intros d' Hd'. simplify_eq. simpl.
      apply map_eq. intros k. destruct (decide (key = k)) as [<-|].
      * by rewrite lookup_delete_eq, lookup_partial_alter_eq, Hb, Hr.
      * by rewrite lookup_delete_ne, lookup_alter_ne, lookup_partial_alter_ne.
    + apply alter_directory. intros d' Hd'. simplify_eq.
      apply map_eq. intros k. destruct (decide (key = k)) as [<-|].
      * by rewrite lookup_alter_eq, lookup_partial_alter_eq, Hb, Hr.
      * by rewrite lookup_alter_ne, lookup_partial_alter_ne.
  - symmetry. rewrite (alter_directory _ (λ d, d)); [by rewrite list_alter_id|]. intros d' Hd'. simplify_eq.
    apply map_eq. intros k. destruct (decide (key = k)) as [<-|].
    + by rewrite lookup_partial_alter_eq, Hb.
    + by rewrite lookup_partial_alter_ne.
Qed.
Lemma has_remove key slot m key' slot' :
  pm_wf m → has (posting_remove kind key slot m) key' slot' =
    negb (bool_decide (key = key') && (slot' =? slot)%N) && has m key' slot'.
Proof.
  intros [Hl _ _]. unfold has. rewrite posting_remove_alter, pm_get_alter by done.
  destruct (decide (key = key')) as [<-|Hne]; [|by rewrite bool_decide_false by done].
  rewrite bool_decide_true by done. simpl.
  destruct (pm_get kind m key) as [b|]; simpl; [|by rewrite andb_false_r].
  destruct (bm_is_empty (bm_remove slot b)) eqn:E; [|by rewrite contains_remove].
  rewrite bm_is_empty_true in E. by rewrite <-contains_remove, E.
Qed.
Lemma posting_remove_wf key slot m : pm_wf m → pm_wf (posting_remove kind key slot m).
Proof.
  intros Hm. rewrite posting_remove_alter by apply Hm. apply wf_alter; [done|].
  intros b. unfold removed. destruct (pm_get kind m key); simpl; [|done].
  case_match eqn:E; [done|]. by intros [= <-].
Qed.
(** Two maps of the same relation hold equal bitmaps under equal keys. *)
Lemma has_determines m m' :
  pm_wf m → pm_wf m' → (∀ key slot, has m key slot = has m' key slot) →
  ∀ key, option_relation bm_same (λ _, False) (λ _, False) (pm_get kind m key) (pm_get kind m' key).
Proof.
  intros [_ _ Hn] [_ _ Hn'] Hh key. specialize (Hh key). unfold has in Hh.
  assert (Hne : ∀ b, bm_is_empty b = false → ∃ x, bm_contains x b = true).
  { intros b. unfold bm_is_empty. destruct (bm_iter b) as [|x l] eqn:E; [done|]. intros _.
    exists x. apply contains_iter. rewrite E. left. }
  destruct (pm_get kind m key) as [b|] eqn:Eb, (pm_get kind m' key) as [b'|] eqn:Eb'; simpl; [done|..|done].
  - destruct (Hne b (Hn _ _ Eb)) as [x Hx]. by rewrite Hh in Hx.
  - destruct (Hne b' (Hn' _ _ Eb')) as [x Hx]. by rewrite <-Hh in Hx.
Qed.
Lemma posting_lookup_has m key slot : bm_contains slot (posting_lookup kind m key) = has m key slot.
Proof. unfold posting_lookup, has. destruct (pm_get kind m key); [done|apply contains_new]. Qed.
Lemma pm_insert_wf key value m :
  pm_wf m → bm_is_empty value = false → pm_wf (pm_insert kind key value m).1.
Proof. intros. apply wf_alter; [done|]. by intros b [= <-]. Qed.
Lemma has_pm_insert key value m key' slot :
  pm_wf m → has (pm_insert kind key value m).1 key' slot =
    if decide (key = key') then bm_contains slot value else has m key' slot.
Proof.
  intros [Hl _ _]. unfold has, pm_insert. cbn [fst].
  change <[key:=value]> with (partial_alter (λ _, Some value) key : Directory B → Directory B).
  rewrite pm_get_alter by done. by case_decide.
Qed.

Lemma pm_from_list (l : list (bytes * B)) :
  NoDup l.*1 → Forall (λ kv, bm_is_empty kv.2 = false) l →
  pm_wf (pm_from kind l) ∧ ∀ key s, has (pm_from kind l) key s =
    match (list_to_map l : gmap bytes B) !! key with Some b => bm_contains s b | None => false end.
Proof.
  intros Hnd Hne. unfold pm_from.
  assert (Hfold : ∀ l m0, NoDup l.*1 → Forall (λ kv, bm_is_empty kv.2 = false) l → pm_wf m0 →
    let r := foldl (λ m '(key, value), (pm_insert kind key value m).1) m0 l in pm_wf r ∧
    ∀ key s, has r key s = match (list_to_map l : gmap bytes B) !! key with Some b => bm_contains s b | None => has m0 key s end).
  { clear Hnd Hne l. induction l as [|[key value] l IH]; intros m0 Hnd Hne Hwf; cbn [foldl]; [done|].
    apply NoDup_cons in Hnd as [Hk Hnd]. apply Forall_cons in Hne as [Hv Hne].
    destruct (IH (pm_insert kind key value m0).1 Hnd Hne) as [Hwf' Hhas]; [by apply pm_insert_wf|]. split; [done|].
    intros key' s. rewrite list_to_map_cons, Hhas, has_pm_insert by done. destruct (decide (key = key')) as [->|Hkk].
    - rewrite lookup_insert_eq. by rewrite (not_elem_of_list_to_map_1 _ _ Hk).
    - by rewrite lookup_insert_ne. }
  destruct (Hfold l pm_default Hnd Hne wf_default) as [Hwf Hhas]. split; [done|]. intros key s. rewrite Hhas.
  by destruct (list_to_map l !! key); [|apply has_default].
Qed.

(** ** The difference walk *)

Context `{!UnstableSort}.
Lemma apply_loop_spec fuel before after slot m :
  length before + length after ≤ fuel → StronglySorted lex_lt before → StronglySorted lex_lt after →
  pm_wf m →
  let m' := apply_loop kind fuel before after slot m in
  pm_wf m' ∧ ∀ key s, has m' key s =
    if (s =? slot)%N then edited before after key (has m key s) else has m key s.
Proof.
  revert before after m. induction fuel as [|fuel IH]; intros before after m Hf Hb Ha Hm; simpl.
  { destruct before, after; simpl in Hf; try lia. split; [done|]. intros key s.
    by rewrite edited_out by apply not_elem_of_nil; case_match. }
  assert (Hremove : ∀ old before', before = old :: before' → old ∉ before' → old ∉ after →
    let m' := apply_loop kind fuel before' after slot (posting_remove kind old slot m) in
    pm_wf m' ∧ ∀ key s, has m' key s =
      if (s =? slot)%N then edited before after key (has m key s) else has m key s).
  { intros old before' -> Hob Hoa. apply StronglySorted_cons in Hb as [_ Hb]. simpl in Hf.
    destruct (IH before' after (posting_remove kind old slot m)) as [Hwf Hhas]; [lia|done..|by apply posting_remove_wf|].
    split; [done|]. intros key s. rewrite Hhas, has_remove by done.
    destruct (N.eqb_spec s slot) as [->|]; [|by rewrite andb_false_r]. rewrite andb_true_r.
    destruct (decide (old = key)) as [<-|Hne].
    - rewrite bool_decide_true by done. rewrite edited_out by done. unfold edited.
      rewrite bool_decide_true by (by left). by rewrite bool_decide_false.
    - rewrite bool_decide_false by done. apply edited_ne; [|done].
      rewrite elem_of_cons. naive_solver. }
  assert (Hinsert : ∀ new after', after = new :: after' → new ∉ before → new ∉ after' →
    let m' := apply_loop kind fuel before after' slot (posting_insert kind new slot m) in
    pm_wf m' ∧ ∀ key s, has m' key s =
      if (s =? slot)%N then edited before after key (has m key s) else has m key s).
  { intros new after' -> Hnb Hna. apply StronglySorted_cons in Ha as [_ Ha]. simpl in Hf.
    destruct (IH before after' (posting_insert kind new slot m)) as [Hwf Hhas]; [lia|done..|by apply posting_insert_wf|].
    split; [done|]. intros key s. rewrite Hhas, has_insert by done.
    destruct (N.eqb_spec s slot) as [->|]; [|by rewrite andb_false_r]. rewrite andb_true_r.
    destruct (decide (new = key)) as [<-|Hne].
    - rewrite bool_decide_true by done. rewrite edited_out by done. unfold edited.
      rewrite bool_decide_false by done. by rewrite bool_decide_true by (by left).
    - rewrite bool_decide_false by done. apply edited_ne; [done|].
      rewrite elem_of_cons. naive_solver. }
  destruct before as [|old before], after as [|new after].
  - split; [done|]. intros key s. by rewrite edited_out by apply not_elem_of_nil; case_match.
  - apply Hinsert; [done|apply not_elem_of_nil|].
    apply StronglySorted_cons in Ha as [Hfa _]. by apply lex_lt_notin.
  - apply Hremove; [done| |apply not_elem_of_nil].
    apply StronglySorted_cons in Hb as [Hfb _]. by apply lex_lt_notin.
  - pose proof Hb as [Hfb Hb']%StronglySorted_cons. pose proof Ha as [Hfa Ha']%StronglySorted_cons.
    case_decide as Heq; [subst new|destruct (is_lt _) eqn:Hlt].
    + simpl in Hf. destruct (IH before after m) as [Hwf Hhas]; [lia|done..|]. split; [done|].
      intros key s. rewrite Hhas. case_match; [|done]. destruct (decide (key = old)) as [->|Hne].
      * rewrite edited_out by (by apply lex_lt_notin). unfold edited. by rewrite !bool_decide_true by (by left).
      * apply edited_ne; rewrite elem_of_cons; naive_solver.
    + apply lex_lt_cmp in Hlt. apply Hremove; [done|by apply lex_lt_notin|by apply (lex_lt_below _ new)].
    + apply (lex_ge_cmp _ _ Heq) in Hlt. apply Hinsert; [done|by apply (lex_lt_below _ old)|by apply lex_lt_notin].
Qed.

Lemma apply_spec n g m slot before after :
  0 < n → pm_wf m → (∀ key, has m key slot = gram n before key) →
  let m' := (apply kind n g m slot before after).2 in
  pm_wf m' ∧ ∀ key s, has m' key s = if (s =? slot)%N then gram n after key else has m key s.
Proof.
  intros Hn Hm Hslot. unfold apply. case_decide as Heq; cbn [snd previous next].
  { subst after. split; [done|]. intros key s. destruct (N.eqb_spec s slot) as [->|]; auto. }
  destruct (apply_loop_spec (length (term_set n before) + length (term_set n after))
    (term_set n before) (term_set n after) slot m) as [Hwf Hhas];
    [done|apply term_set_sorted..|done|]. split; [done|].
  intros key s. rewrite Hhas. destruct (N.eqb_spec s slot) as [->|]; [|done].
  rewrite Hslot. unfold edited. rewrite !term_set_gram by done.
  destruct (gram n before key), (gram n after key); done.
Qed.
End relation.
#[export] Hint Resolve posting_insert_wf posting_remove_wf wf_default : postings.
