(* ===== verification/MetadataPostings.v ===== *)
(** * core/src/metadata_postings.rs: exact postings of metadata predicates

    Four kinds of terms: the bytes of the search name, its byte pairs, the
    extension key, and the two flags.  The postings answer a query of such
    terms exactly; a query with any other term is left to the evaluator.  The
    cache encoding of the file (compiled for its tests only) is not modelled. *)
From S2P Require Import Prelude Text TextView Float QueryLex QueryNumber Bitmap QuerySyntax.
From S2P Require Import FileEntry TextMatch QueryEval PostingMap.

Section metadata.
Context {B : Type} `{Roaring B}.
Notation PostingMap := (PostingMap B).

Record MetadataPostings := {
  name_bytes : PostingMap;
  name_pairs : PostingMap;
  extensions : PostingMap;
  directories : B;
  symlinks : B;
}.
Definition mp_default : MetadataPostings :=
  {| name_bytes := pm_default; name_pairs := pm_default; extensions := pm_default;
     directories := bm_new; symlinks := bm_new |}.

(** ** Words of byte presence *)

(** [u64::trailing_zeros] of a word that is not 0 *)
Fixpoint pos_trailing_zeros (p : positive) : nat :=
  match p with xO p => S (pos_trailing_zeros p) | _ => 0 end.
Definition trailing_zeros (x : N) : nat :=
  match x with N0 => 64 | Npos p => pos_trailing_zeros p end.
(** [words[byte / 64] |= 1u64 << (byte % 64)] *)
Definition mark_byte (words : list N) (byte : N) : list N :=
  alter (λ w, N.lor w (u64_shl 1 (byte mod 64))) (N.to_nat (byte / 64)) words.
Definition presence (name : text) : list N := foldl mark_byte [0; 0; 0; 0]%N (utf8 name).
Definition marked (words : list N) (byte : N) : bool :=
  negb (N.land (default 0 (words !! N.to_nat (byte / 64))) (u64_shl 1 (byte mod 64)) =? 0)%N.
(** [while bits != 0 { .. bits &= bits - 1 }]: the bytes visited.  A [u64] has
    64 bits, each visited once. *)
Fixpoint word_bytes (fuel word : nat) (bits : N) : list N :=
  match fuel with
  | O => []
  | S fuel =>
    if (bits =? 0)%N then []
    else N.of_nat (word * 64 + trailing_zeros bits) mod 256
         :: word_bytes fuel word (N.land bits (bits - 1))
  end%N.

Context `{Json, Unicode} `{!UnstableSort}.

Definition extension_key {F} `{!FileEntry F} (file : F) : text :=
  if is_ascii (folded_extension file) then folded_extension file
  else fold_search (extension file).

Section rows.
Context {F G : Type} `{!FileEntry F, !FileEntry G}.

(** [MetadataPostings::insert].  A byte seen before is not inserted again. *)
Definition insert_byte (slot : N) (st : list N * PostingMap) (byte : N) : list N * PostingMap :=
  let '(seen, singles) := st in
  if marked seen byte then (seen, singles)
  else (mark_byte seen byte, posting_insert 1 [byte] slot singles).
Definition insert_extension (slot : N) (key : text) (m : PostingMap) : PostingMap :=
  match pm_get_mut 3 (bm_insert slot) (utf8 key) m with
  | Some m => m
  | None => posting_insert 3 (utf8 key) slot m
  end.
Definition insert (slot : N) (file : F) (mp : MetadataPostings) : MetadataPostings :=
  let bytes := utf8 (search_name file) in
  {| name_bytes := (foldl (insert_byte slot) ([0; 0; 0; 0]%N, name_bytes mp) bytes).2;
     name_pairs := foldl (λ m pair, posting_insert 2 pair slot m) (name_pairs mp) (windows 2 bytes);
     extensions := insert_extension slot (extension_key file) (extensions mp);
     directories := if is_dir file then bm_insert slot (directories mp) else directories mp;
     symlinks := if is_symlink file then bm_insert slot (symlinks mp) else symlinks mp |}.

(** [MetadataPostings::remove] *)
Definition remove (slot : N) (file : F) (mp : MetadataPostings) : MetadataPostings :=
  let bytes := utf8 (search_name file) in
  {| name_bytes := foldl (λ m byte, posting_remove 1 [byte] slot m) (name_bytes mp) bytes;
     name_pairs := foldl (λ m pair, posting_remove 2 pair slot m) (name_pairs mp) (windows 2 bytes);
     extensions := posting_remove 3 (utf8 (extension_key file)) slot (extensions mp);
     directories := if is_dir file then bm_remove slot (directories mp) else directories mp;
     symlinks := if is_symlink file then bm_remove slot (symlinks mp) else symlinks mp |}.

(** [MetadataPostings::update]: one word of the byte difference, both ways. *)
Definition update_word (slot : N) (before after : list N) (m : PostingMap) (word : nat) : PostingMap :=
  let old := default 0%N (before !! word) in
  let new := default 0%N (after !! word) in
  let m := foldl (λ m byte, posting_remove 1 [byte] slot m) m
             (word_bytes 64 word (N.land old (u64_not new))) in
  foldl (λ m byte, posting_insert 1 [byte] slot m) m
    (word_bytes 64 word (N.land new (u64_not old))).
Definition update_flag (slot : N) (before after : bool) (b : B) : B :=
  if Bool.eqb before after then b else if after then bm_insert slot b else bm_remove slot b.
Definition update (slot : N) (previous : F) (next : G) (pairs : GramChanges) (mp : MetadataPostings) :
    GramChanges * MetadataPostings :=
  let '(pairs, bytes', pairs') :=
    if decide (search_name previous = search_name next) then (pairs, name_bytes mp, name_pairs mp)
    else
      let before := presence (search_name previous) in
      let after := presence (search_name next) in
      let '(pairs, pairs') := apply 2 2 pairs (name_pairs mp) slot (search_name previous) (search_name next) in
      (pairs, foldl (update_word slot before after) (name_bytes mp) (seq 0 4), pairs') in
  let extensions' :=
    if decide (extension_key previous = extension_key next) then extensions mp
    else insert_extension slot (extension_key next)
           (posting_remove 3 (utf8 (extension_key previous)) slot (extensions mp)) in
  (pairs,
   {| name_bytes := bytes'; name_pairs := pairs'; extensions := extensions';
      directories := update_flag slot (is_dir previous) (is_dir next) (directories mp);
      symlinks := update_flag slot (is_symlink previous) (is_symlink next) (symlinks mp) |}).

(** [MetadataPostings::build] *)
Definition build (files : list (N * F)) : MetadataPostings :=
  foldl (λ mp '(slot, file), insert slot file mp) mp_default files.
End rows.

(** ** Queries *)

Context `{Chrono, Pcre, Memmem}.
Notation Query := (Query B).

(** One byte kind of the section format, restored. *)
Definition MAX_EXTENSION_BYTES : nat := 1024.
Fixpoint supports (q : Query) : bool :=
  match q with
  | All => true
  | QTerm (TText Name needle _ false) => byte_len needle <=? 2
  | QTerm (TExtensions _) | QTerm (TIsDir _) | QTerm TIsSymlink => true
  | QAnd queries | QOr queries => forallb supports queries
  | QNot q => supports q
  | _ => false
  end.
Definition and_all {A} (f : A → option B) : list A → B → option B :=
  fix go l r := match l with
                | [] => Some r
                | x :: l => b ← f x; go l (bm_and r b)
                end.
Definition or_all {A} (f : A → option B) : list A → B → option B :=
  fix go l r := match l with
                | [] => Some r
                | x :: l => b ← f x; go l (bm_or r b)
                end.
Definition union_extension (mp : MetadataPostings) (r : B) (extension : text) : B :=
  match pm_get 3 (extensions mp) (utf8 extension) with Some b => bm_or r b | None => r end.
Fixpoint exact (mp : MetadataPostings) (live : B) (q : Query) : option B :=
  r ← match q with
      | All => Some live
      | QTerm (TText Name needle _ false) =>
        match utf8 needle with
        | [] => Some live
        | [byte] => Some (posting_lookup 1 (name_bytes mp) [byte])
        | [byte1; byte2] => Some (posting_lookup 2 (name_pairs mp) [byte1; byte2])
        | _ => None
        end
      | QTerm (TExtensions l) => Some (foldl (union_extension mp) bm_new l)
      | QTerm (TIsDir true) => Some (directories mp)
      | QTerm (TIsDir false) => Some (bm_sub live (directories mp))
      | QTerm TIsSymlink => Some (symlinks mp)
      | QAnd queries => and_all (exact mp live) queries live
      | QOr queries => or_all (exact mp live) queries bm_new
      | QNot q => b ← exact mp live q; Some (bm_sub live b)
      | _ => None
      end;
  Some (bm_and r live).
End metadata.

(** ** Bits and bytes *)

Lemma clear_lowest x i :
  x ≠ 0%N → N.testbit (N.land x (x - 1)) i = N.testbit x i && negb (i =? N.of_nat (trailing_zeros x))%N.
Proof.
  destruct x as [|p]; [done|]. intros _. unfold trailing_zeros. revert i.
  induction p as [p IH|p IH|]; intros i.
  - change (pos_trailing_zeros p~1) with 0. replace (N.pos p~1 - 1)%N with (2 * N.pos p)%N by lia.
    change (N.pos p~1) with (2 * N.pos p + 1)%N. rewrite N.land_spec.
    destruct i as [|i] using N.peano_ind; [by rewrite N.testbit_odd_0, N.testbit_even_0|].
    rewrite N.testbit_odd_succ, N.testbit_even_succ by lia. rewrite andb_diag.
    rewrite (proj2 (N.eqb_neq (N.succ i) _)) by lia. by rewrite andb_true_r.
  - change (pos_trailing_zeros p~0) with (S (pos_trailing_zeros p)).
    replace (N.pos p~0 - 1)%N with (2 * (N.pos p - 1) + 1)%N by lia.
    change (N.pos p~0) with (2 * N.pos p)%N. rewrite N.land_spec.
    destruct i as [|i] using N.peano_ind; [by rewrite N.testbit_even_0|].
    rewrite N.testbit_odd_succ, N.testbit_even_succ by lia. rewrite <-N.land_spec, IH.
    f_equal. f_equal. destruct (N.eqb_spec i (N.of_nat (pos_trailing_zeros p))) as [E|E]; symmetry;
      [apply N.eqb_eq|apply N.eqb_neq]; lia.
  - change (N.land 1 (1 - 1)) with 0%N. rewrite N.bits_0. by destruct i as [|[]].
Qed.
Lemma trailing_zeros_bit x : x ≠ 0%N → N.testbit x (N.of_nat (trailing_zeros x)) = true.
Proof.
  destruct x as [|p]; [done|]. intros _. unfold trailing_zeros. induction p as [p IH|p IH|]; [done| |done].
  change (pos_trailing_zeros p~0) with (S (pos_trailing_zeros p)). rewrite Nat2N.inj_succ.
  change (N.pos p~0) with (2 * N.pos p)%N. by rewrite N.testbit_even_succ by lia.
Qed.
Lemma trailing_zeros_low x i : (i < N.of_nat (trailing_zeros x))%N → x ≠ 0%N → N.testbit x i = false.
Proof.
  destruct x as [|p]; [done|]. intros Hi _. unfold trailing_zeros in Hi. revert i Hi.
  induction p as [p IH|p IH|]; intros i Hi; [simpl in Hi; lia| |simpl in Hi; lia].
  change (pos_trailing_zeros p~0) with (S (pos_trailing_zeros p)) in Hi.
  change (N.pos p~0) with (2 * N.pos p)%N.
  destruct i as [|i] using N.peano_ind; [apply N.testbit_even_0|].
  rewrite N.testbit_even_succ by lia. apply IH. lia.
Qed.
(** The loop over a word visits the bytes of its set bits: [64] turns are
    enough, because the lowest set bit grows with each. *)
Lemma word_bytes_spec word x b :
  (∀ i, (64 ≤ i)%N → N.testbit x i = false) → word < 4 →
  b ∈ word_bytes 64 word x ↔ ∃ i, N.testbit x i = true ∧ b = (N.of_nat word * 64 + i)%N.
Proof.
  intros Hx Hw. assert (Hgo : ∀ fuel x, fuel ≤ 64 → (∀ i, (64 ≤ i)%N → N.testbit x i = false) →
    (∀ i, (i < N.of_nat (64 - fuel))%N → N.testbit x i = false) →
    b ∈ word_bytes fuel word x ↔ ∃ i, N.testbit x i = true ∧ b = (N.of_nat word * 64 + i)%N);
    [|apply Hgo; [lia|done|intros i Hi; lia]].
  clear x Hx. induction fuel as [|fuel IH]; intros x Hfuel Hx Hlow; simpl.
  { split; [by intros ?%not_elem_of_nil|]. intros (i & Hi & _).
    destruct (N.lt_ge_cases i 64) as [Hlt|Hge]; [rewrite Hlow in Hi by lia|rewrite Hx in Hi by lia]; done. }
  destruct (N.eqb_spec x 0) as [->|Hne].
  { split; [by intros ?%not_elem_of_nil|]. intros (i & Hi & _). by rewrite N.bits_0 in Hi. }
  pose proof (trailing_zeros_bit x Hne) as Htz. set (tz := N.of_nat (trailing_zeros x)) in *.
  assert (tz < 64)%N as Htz64.
  { destruct (N.lt_ge_cases tz 64); [done|]. by rewrite Hx in Htz. }
  assert (N.of_nat (64 - S fuel) ≤ tz)%N as Htzlow.
  { destruct (N.lt_ge_cases tz (N.of_nat (64 - S fuel))) as [Hlt|]; [|done]. by rewrite (Hlow tz Hlt) in Htz. }
  rewrite elem_of_cons, IH.
  - rewrite Nat2N.inj_add, Nat2N.inj_mul. fold tz. rewrite N.mod_small by lia.
    split.
    + intros [->|(i & Hi & ->)]; [by exists tz|]. rewrite clear_lowest in Hi by done.
      apply andb_true_iff in Hi as [Hi _]. by exists i.
    + intros (i & Hi & ->). destruct (N.eq_dec i tz) as [->|Hd]; [by left|right].
      exists i. rewrite clear_lowest by done. split; [|done]. fold tz. by rewrite Hi, (proj2 (N.eqb_neq _ _) Hd).
  - lia.
  - intros i Hi. by rewrite N.land_spec, Hx.
  - intros i Hi. rewrite clear_lowest by done. fold tz.
    destruct (N.lt_ge_cases i tz) as [Hlt|Hge]; [by rewrite (trailing_zeros_low x i Hlt Hne)|].
    assert (i = tz) as -> by lia. by rewrite N.eqb_refl, andb_false_r.
Qed.

(** Four words hold the bits of 256 bytes. *)
Definition byte_bit (words : list N) (byte : N) : bool :=
  N.testbit (default 0 (words !! N.to_nat (byte / 64)))%N (byte mod 64).
Lemma marked_bit words byte : marked words byte = byte_bit words byte.
Proof.
  unfold marked, byte_bit. set (w := default 0%N _). clearbody w. assert (byte mod 64 < 64)%N by lia.
  destruct (N.testbit w (byte mod 64)) eqn:Hb.
  - rewrite (proj2 (N.eqb_neq _ _)); [done|]. intros H0.
    assert (N.testbit (N.land w (u64_shl 1 (byte mod 64))) (byte mod 64) = true) as Hl
      by (rewrite N.land_spec, testbit_u64_one, Hb, N.eqb_refl by done; done).
    by rewrite H0, N.bits_0 in Hl.
  - rewrite (proj2 (N.eqb_eq _ _)); [done|]. apply N.bits_inj. intros i.
    rewrite N.land_spec, testbit_u64_one, N.bits_0 by done.
    destruct (N.eqb_spec i (byte mod 64)) as [->|]; [by rewrite Hb|by rewrite andb_false_r].
Qed.
Lemma mark_byte_length words byte : length (mark_byte words byte) = length words.
Proof. apply length_alter. Qed.
Lemma mark_byte_bit words byte b :
  length words = 4 → (byte < 256)%N → (b < 256)%N →
  byte_bit (mark_byte words byte) b = (b =? byte)%N || byte_bit words b.
Proof.
  intros Hl Hbyte Hb. unfold byte_bit, mark_byte.
  destruct (decide (N.to_nat (byte / 64) = N.to_nat (b / 64))) as [E|E].
  - rewrite <-E, list_lookup_alter_eq. destruct (lookup_lt_is_Some_2 words (N.to_nat (byte / 64))) as [w ->].
    { rewrite Hl. lia. }
    simpl. rewrite N.lor_spec, testbit_u64_one by lia. rewrite orb_comm. f_equal.
    destruct (N.eqb_spec b byte) as [->|Hne]; [by rewrite N.eqb_refl|]. apply N.eqb_neq. lia.
  - rewrite list_lookup_alter_ne by done. rewrite (proj2 (N.eqb_neq b byte)) by (intros ->; lia). done.
Qed.
Lemma byte_bit_none b : byte_bit [0; 0; 0; 0]%N b = false.
Proof.
  unfold byte_bit. destruct ([0; 0; 0; 0]%N !! N.to_nat (b / 64)) as [w|] eqn:E; [|done].
  apply list_elem_of_lookup_2 in E. rewrite !elem_of_cons, elem_of_nil in E.
  destruct E as [->|[->|[->|[->|[]]]]]; apply N.bits_0.
Qed.

Lemma presence_bit name b :
  Forall (λ c, (c < 256)%N) (utf8 name) → (b < 256)%N →
  length (presence name) = 4 ∧ byte_bit (presence name) b = bool_decide (b ∈ utf8 name).
Proof.
  intros Hn Hb. unfold presence.
  assert (Hgo : ∀ l words, Forall (λ c, (c < 256)%N) l → length words = 4 →
    length (foldl mark_byte words l) = 4 ∧
    byte_bit (foldl mark_byte words l) b = bool_decide (b ∈ l) || byte_bit words b).
  { clear name Hn. induction l as [|c l IH]; intros words Hl Hw; cbn [foldl].
    { by rewrite bool_decide_false by apply not_elem_of_nil. }
    apply Forall_cons in Hl as [Hc Hl]. destruct (IH (mark_byte words c)) as [Hlen Hbit];
      [done|by rewrite mark_byte_length|]. split; [done|]. rewrite Hbit, mark_byte_bit by done.
    rewrite orb_assoc. f_equal. destruct (N.eqb_spec b c) as [->|Hne].
    - rewrite orb_true_r. by rewrite bool_decide_true by left.
    - rewrite orb_false_r. apply bool_decide_ext. rewrite elem_of_cons. naive_solver. }
  destruct (Hgo (utf8 name) [0; 0; 0; 0]%N Hn eq_refl) as [Hlen Hbit].
  by rewrite byte_bit_none, orb_false_r in Hbit.
Qed.

(** ** Folds over terms *)

Section folds.
Context {B : Type} `{RoaringLaws B} (kind : N) (kind_small : (kind < 2 ^ 32)%N) (slot : N).
Implicit Types m : PostingMap B.
Lemma fold_insert {A} (key : A → bytes) l m :
  pm_wf kind m →
  let m' := foldl (λ m x, posting_insert kind (key x) slot m) m l in
  pm_wf kind m' ∧ ∀ k s, has kind m' k s =
    bool_decide (k ∈ key <$> l) && (s =? slot)%N || has kind m k s.
Proof.
  revert m. induction l as [|x l IH]; intros m Hm; cbn [foldl].
  { split; [done|]. intros k s. by rewrite bool_decide_false by apply not_elem_of_nil. }
  destruct (IH (posting_insert kind (key x) slot m)) as [Hwf Hhas]; [by apply posting_insert_wf|].
  split; [done|]. intros k s. rewrite Hhas, has_insert by done. rewrite orb_assoc. f_equal.
  rewrite <-andb_orb_distrib_l. f_equal. destruct (decide (key x = k)) as [<-|Hne].
  - rewrite (bool_decide_true (key x = key x)), orb_true_r by done. by rewrite bool_decide_true by left.
  - rewrite (bool_decide_false (key x = k)), orb_false_r by done. apply bool_decide_ext.
    rewrite fmap_cons, elem_of_cons. naive_solver.
Qed.
Lemma fold_remove {A} (key : A → bytes) l m :
  pm_wf kind m →
  let m' := foldl (λ m x, posting_remove kind (key x) slot m) m l in
  pm_wf kind m' ∧ ∀ k s, has kind m' k s =
    negb (bool_decide (k ∈ key <$> l) && (s =? slot)%N) && has kind m k s.
Proof.
  revert m. induction l as [|x l IH]; intros m Hm; cbn [foldl].
  { split; [done|]. intros k s. by rewrite bool_decide_false by apply not_elem_of_nil. }
  destruct (IH (posting_remove kind (key x) slot m)) as [Hwf Hhas]; [by apply posting_remove_wf|].
  split; [done|]. intros k s. rewrite Hhas, has_remove by done. rewrite andb_assoc. f_equal.
  rewrite <-negb_orb, <-andb_orb_distrib_l. f_equal. f_equal. destruct (decide (key x = k)) as [<-|Hne].
  - rewrite (bool_decide_true (key x = key x)), orb_true_r by done. by rewrite bool_decide_true by left.
  - rewrite (bool_decide_false (key x = k)), orb_false_r by done. apply bool_decide_ext.
    rewrite fmap_cons, elem_of_cons. naive_solver.
Qed.
End folds.

Section postings_laws.
Context {B : Type} `{RoaringLaws B} `{Json, Unicode} `{!UnstableSort}.
Notation PostingMap := (PostingMap B).
Notation MetadataPostings := (MetadataPostings (B := B)).

(** A search name is text: its bytes are bytes. *)
Definition byte_text (t : text) : Prop := Forall (λ c, (c < 256)%N) (utf8 t).

Lemma gram_byte t key : gram 1 t key = bool_decide (key ∈ (λ b, [b]) <$> utf8 t).
Proof.
  unfold gram. symmetry. destruct (bool_decide_reflect (key ∈ (λ b, [b]) <$> utf8 t)) as [Hin|Hout].
  - apply list_elem_of_fmap in Hin as (b & -> & (x & y & Hxy)%list_elem_of_split).
    symmetry. apply andb_true_iff. split; [done|]. apply found_spec. exists x, y. by rewrite Hxy.
  - symmetry. apply not_true_iff_false. intros [Hl%Nat.eqb_eq (x & y & Hxy)%found_spec]%andb_true_iff.
    apply Hout. destruct key as [|b [|]]; try done. apply list_elem_of_fmap. exists b. split; [done|].
    rewrite Hxy. set_solver.
Qed.
Lemma gram_windows n t key : 0 < n → gram n t key = bool_decide (key ∈ windows n (utf8 t)).
Proof.
  intros Hn. unfold gram. symmetry. destruct (bool_decide_reflect (key ∈ windows n (utf8 t))) as [Hin|Hout].
  - apply windows_spec in Hin as [-> ->]; [|done]. by rewrite Nat.eqb_refl.
  - symmetry. apply not_true_iff_false. intros [?%Nat.eqb_eq ?]%andb_true_iff. apply Hout. by apply windows_spec.
Qed.

(** The five kinds of terms. *)
Definition row_term {F} `{!FileEntry F} (file : F) (kind : N) (key : bytes) : bool :=
  match kind with
  | 1%N => gram 1 (search_name file) key
  | 2%N => gram 2 (search_name file) key
  | 3%N => bool_decide (key = utf8 (extension_key file))
  | 4%N => is_dir file
  | 5%N => is_symlink file
  | _ => false
  end.
Definition listed (mp : MetadataPostings) (kind : N) (key : bytes) (slot : N) : bool :=
  match kind with
  | 1%N => has 1 (name_bytes mp) key slot
  | 2%N => has 2 (name_pairs mp) key slot
  | 3%N => has 3 (extensions mp) key slot
  | 4%N => bm_contains slot (directories mp)
  | 5%N => bm_contains slot (symlinks mp)
  | _ => false
  end.
Record mp_wf (mp : MetadataPostings) : Prop := {
  wf_bytes : pm_wf 1 (name_bytes mp);
  wf_pairs : pm_wf 2 (name_pairs mp);
  wf_extensions : pm_wf 3 (extensions mp);
}.
Lemma by_kind (P : N → Prop) : P 1%N → P 2%N → P 3%N → P 4%N → P 5%N →
  (∀ kind, (kind = 0 ∨ 5 < kind)%N → P kind) → ∀ kind, P kind.
Proof.
  intros ?????? kind.
  assert (kind = 1 ∨ kind = 2 ∨ kind = 3 ∨ kind = 4 ∨ kind = 5 ∨ (kind = 0 ∨ 5 < kind))%N
    as [->|[->|[->|[->|[->|Hk]]]]] by lia; auto.
Qed.
Lemma listed_other mp kind key slot : (kind = 0 ∨ 5 < kind)%N → listed mp kind key slot = false.
Proof. intros [->|Hk]; [done|]. destruct kind as [|[[[p|p|]|[p|p|]|]|[[p|p|]|[p|p|]|]|]]; try done; lia. Qed.
Lemma row_term_other {F} `{!FileEntry F} (file : F) kind key :
  (kind = 0 ∨ 5 < kind)%N → row_term file kind key = false.
Proof. intros [->|Hk]; [done|]. destruct kind as [|[[[p|p|]|[p|p|]|]|[[p|p|]|[p|p|]|]|]]; try done; lia. Qed.
(** ** Each operation, on the terms of one slot *)

Section operations.
Context {F G : Type} `{!FileEntry F, !FileEntry G}.

Lemma insert_bytes_spec slot l m :
  Forall (λ c, (c < 256)%N) l → pm_wf 1 m →
  let m' := (foldl (insert_byte slot) ([0; 0; 0; 0]%N, m) l).2 in
  pm_wf 1 m' ∧ ∀ k s, has 1 m' k s =
    bool_decide (k ∈ (λ b, [b]) <$> l) && (s =? slot)%N || has 1 m k s.
Proof.
  assert (Hgo : ∀ l seen m, Forall (λ c, (c < 256)%N) l → length seen = 4 → pm_wf 1 m →
    (∀ b, (b < 256)%N → byte_bit seen b = true → has 1 m [b] slot = true) →
    let m' := (foldl (insert_byte slot) (seen, m) l).2 in
    pm_wf 1 m' ∧ ∀ k s, has 1 m' k s =
      bool_decide (k ∈ (λ b, [b]) <$> l) && (s =? slot)%N || has 1 m k s).
  { clear l m. induction l as [|c l IH]; intros seen m Hl Hs Hm Hseen; cbn [foldl].
    { split; [done|]. intros k s. by rewrite bool_decide_false by apply not_elem_of_nil. }
    apply Forall_cons in Hl as [Hc Hl]. unfold insert_byte at 2 4. rewrite marked_bit.
    destruct (byte_bit seen c) eqn:Hbit.
    - destruct (IH seen m Hl Hs Hm Hseen) as [Hwf Hhas]. split; [done|].
      intros k s. rewrite Hhas. destruct (decide (k = [c] ∧ s = slot)) as [[-> ->]|Hne].
      + by rewrite (Hseen c Hc Hbit), !orb_true_r.
      + f_equal. destruct (N.eqb_spec s slot) as [->|]; [|by rewrite !andb_false_r].
        f_equal. apply bool_decide_ext. rewrite fmap_cons, elem_of_cons. naive_solver.
    - destruct (IH (mark_byte seen c) (posting_insert 1 [c] slot m)) as [Hwf Hhas];
        [done|by rewrite mark_byte_length|by apply posting_insert_wf| |].
      { intros b Hb. rewrite mark_byte_bit, has_insert by done. intros [->%N.eqb_eq|Hb']%orb_true_iff.
        - by rewrite N.eqb_refl, bool_decide_true.
        - by rewrite Hseen, orb_true_r. }
      split; [done|]. intros k s. rewrite Hhas, has_insert by done. rewrite orb_assoc. f_equal.
      rewrite <-andb_orb_distrib_l. f_equal. destruct (decide ([c] = k)) as [<-|Hne].
      + rewrite (bool_decide_true ([c] = [c])), orb_true_r by done. by rewrite bool_decide_true by left.
      + rewrite (bool_decide_false ([c] = k)), orb_false_r by done. apply bool_decide_ext.
        rewrite fmap_cons, elem_of_cons. naive_solver. }
  intros Hl Hm. apply Hgo; [done..|]. intros b _. by rewrite byte_bit_none.
Qed.
Lemma insert_extension_insert slot key m :
  pm_wf 3 m → ∀ k s, has 3 (insert_extension slot key m) k s = has 3 (posting_insert 3 (utf8 key) slot m) k s.
Proof.
  intros [Hl _ _] k s. unfold insert_extension, pm_get_mut, posting_insert, pm_entry, has.
  destruct (pm_get 3 m (utf8 key)) as [b|] eqn:E; [|done].
  change (alter (bm_insert slot) (utf8 key)) with
    (partial_alter (fmap (M:=option) (bm_insert slot)) (utf8 key) : Directory B → Directory B).
  rewrite !pm_get_alter by done. case_decide; [by rewrite E|done].
Qed.
Lemma insert_extension_wf slot key m : pm_wf 3 m → pm_wf 3 (insert_extension slot key m).
Proof.
  intros Hm. unfold insert_extension, pm_get_mut.
  destruct (pm_get 3 m (utf8 key)) as [b|] eqn:E; [|by apply posting_insert_wf].
  change (alter (bm_insert slot) (utf8 key)) with
    (partial_alter (fmap (M:=option) (bm_insert slot)) (utf8 key) : Directory B → Directory B).
  apply wf_alter; [done..|]. rewrite E. intros b' [= <-]. apply (bm_not_empty _ slot).
  by rewrite contains_insert, N.eqb_refl.
Qed.

Lemma insert_spec slot (file : F) mp :
  byte_text (search_name file) → mp_wf mp →
  mp_wf (insert slot file mp) ∧ ∀ kind key s, listed (insert slot file mp) kind key s =
    row_term file kind key && (s =? slot)%N || listed mp kind key s.
Proof.
  intros Ht [Hb Hp He]. destruct (insert_bytes_spec slot (utf8 (search_name file)) (name_bytes mp) Ht Hb) as [Hwb Hhb].
  destruct (fold_insert 2 eq_refl slot (λ pair, pair) (windows 2 (utf8 (search_name file))) (name_pairs mp) Hp) as [Hwp Hhp].
  split; [split; [done|done|by apply insert_extension_wf]|].
  intros kind key s. revert kind. apply by_kind.
  - simpl. by rewrite Hhb, gram_byte.
  - simpl. by rewrite Hhp, gram_windows, list_fmap_id by lia.
  - simpl. rewrite insert_extension_insert, has_insert by done. f_equal. f_equal. by apply bool_decide_ext.
  - simpl. destruct (is_dir file); [by rewrite contains_insert|done].
  - simpl. destruct (is_symlink file); [by rewrite contains_insert|done].
  - intros kind Hk. by rewrite row_term_other, !listed_other.
Qed.
Lemma remove_spec slot (file : F) mp :
  mp_wf mp →
  mp_wf (remove slot file mp) ∧ ∀ kind key s, listed (remove slot file mp) kind key s =
    negb (row_term file kind key && (s =? slot)%N) && listed mp kind key s.
Proof.
  intros [Hb Hp He].
  destruct (fold_remove 1 eq_refl slot (λ b, [b]) (utf8 (search_name file)) (name_bytes mp) Hb) as [Hwb Hhb].
  destruct (fold_remove 2 eq_refl slot (λ pair, pair) (windows 2 (utf8 (search_name file))) (name_pairs mp) Hp) as [Hwp Hhp].
  split; [split; [done|done|by apply posting_remove_wf]|].
  intros kind key s. revert kind. apply by_kind.
  - simpl. by rewrite Hhb, gram_byte.
  - simpl. by rewrite Hhp, gram_windows, list_fmap_id by lia.
  - simpl. rewrite has_remove by done. f_equal. f_equal. f_equal. by apply bool_decide_ext.
  - simpl. destruct (is_dir file); [by rewrite contains_remove|done].
  - simpl. destruct (is_symlink file); [by rewrite contains_remove|done].
  - intros kind Hk. by rewrite row_term_other, !listed_other.
Qed.

(** Words of 64 bits. *)
Definition word_sized (words : list N) : Prop :=
  ∀ w i, (64 ≤ i)%N → N.testbit (default 0 (words !! w))%N i = false.
Lemma presence_sized name : word_sized (presence name).
Proof.
  unfold presence. assert (Hgo : ∀ l words, word_sized words → word_sized (foldl mark_byte words l)).
  { induction l as [|c l IH]; intros words Hw; [done|]. apply IH. intros w i Hi. unfold mark_byte.
    destruct (decide (N.to_nat (c / 64) = w)) as [<-|]; [|by rewrite list_lookup_alter_ne; auto].
    specialize (Hw (N.to_nat (c / 64)) i Hi). rewrite list_lookup_alter_eq.
    destruct (words !! N.to_nat (c / 64)) as [x|]; [|done]. simpl in *.
    rewrite N.lor_spec, Hw, testbit_u64_one by lia. apply N.eqb_neq. lia. }
  apply Hgo. intros w i _. destruct ([0; 0; 0; 0]%N !! w) as [x|] eqn:E; [|apply N.bits_0].
  apply list_elem_of_lookup_2 in E. rewrite !elem_of_cons, elem_of_nil in E.
  destruct E as [->|[->|[->|[->|[]]]]]; apply N.bits_0.
Qed.
(** What the difference of two words does to a byte's posting. *)
Definition word_edit (before after : list N) (key : bytes) (old : bool) : bool :=
  match key with
  | [b] => byte_bit after b && negb (byte_bit before b) ||
           negb (byte_bit before b && negb (byte_bit after b)) && old
  | _ => old
  end.
Definition in_word (word : nat) (key : bytes) : bool :=
  match key with [b] => (N.to_nat (b / 64) =? word)%nat | _ => false end.
Lemma word_difference (x y : list N) word key :
  word_sized x → word < 4 →
  bool_decide (key ∈ (λ b, [b]) <$> word_bytes 64 word
    (N.land (default 0%N (x !! word)) (u64_not (default 0%N (y !! word))))) =
  match key with [b] => in_word word key && (byte_bit x b && negb (byte_bit y b)) | _ => false end.
Proof.
  intros Hx Hw. set (bits := N.land _ _). assert (Hhigh : ∀ i, (64 ≤ i)%N → N.testbit bits i = false).
  { intros i Hi. unfold bits. by rewrite N.land_spec, Hx. }
  assert (Hmem : ∀ b, b ∈ word_bytes 64 word bits ↔ in_word word [b] && (byte_bit x b && negb (byte_bit y b)) = true).
  { intros b. rewrite word_bytes_spec by done. rewrite andb_true_iff. unfold in_word. rewrite Nat.eqb_eq. split.
    - intros (i & Hi & ->). destruct (N.lt_ge_cases i 64) as [Hlt|Hge]; [|by rewrite Hhigh in Hi].
      assert ((N.of_nat word * 64 + i) / 64 = N.of_nat word)%N as Hd by lia.
      assert ((N.of_nat word * 64 + i) mod 64 = i)%N as Hm by lia.
      unfold byte_bit. rewrite Hd, Hm, Nat2N.id. split; [done|].
      unfold bits in Hi. by rewrite N.land_spec, testbit_u64_not in Hi.
    - intros [Hword Hbit]. exists (b mod 64)%N. split; [|lia]. unfold bits.
      rewrite N.land_spec, testbit_u64_not by lia. unfold byte_bit in Hbit. by rewrite Hword in Hbit. }
  destruct key as [|b [|]].
  - apply bool_decide_eq_false. rewrite list_elem_of_fmap. by intros (? & ? & _).
  - specialize (Hmem b). destruct (bool_decide_reflect ([b] ∈ (λ b, [b]) <$> word_bytes 64 word bits)) as [Hin|Hout].
    + apply list_elem_of_fmap in Hin as (b' & [= <-] & Hin). symmetry. by apply Hmem.
    + symmetry. apply not_true_iff_false. intros Ht. apply Hout. apply list_elem_of_fmap.
      exists b. split; [done|]. by apply Hmem.
  - apply bool_decide_eq_false. rewrite list_elem_of_fmap. by intros (? & ? & _).
Qed.
Lemma update_word_spec slot before after m word :
  word_sized before → word_sized after → word < 4 → pm_wf 1 m →
  let m' := update_word slot before after m word in
  pm_wf 1 m' ∧ ∀ k s, has 1 m' k s =
    if (s =? slot)%N && in_word word k then word_edit before after k (has 1 m k s) else has 1 m k s.
Proof.
  intros Hb Ha Hw Hm. unfold update_word. cbv zeta.
  destruct (fold_remove 1 eq_refl slot (λ b, [b]) (word_bytes 64 word
    (N.land (default 0%N (before !! word)) (u64_not (default 0%N (after !! word))))) m Hm) as [Hm1 Hh1].
  set (m1 := foldl _ m _) in *.
  destruct (fold_insert 1 eq_refl slot (λ b, [b]) (word_bytes 64 word
    (N.land (default 0%N (after !! word)) (u64_not (default 0%N (before !! word))))) m1 Hm1) as [Hm2 Hh2].
  split; [done|]. intros k s. rewrite Hh2, Hh1, !word_difference by done.
  destruct (N.eqb_spec s slot) as [->|]; [|by rewrite !andb_false_r]. rewrite !andb_true_r. cbn [andb].
  unfold word_edit. destruct k as [|b [|]]; [done| |done].
  destruct (in_word word [b]); [done|]. by rewrite !andb_false_l.
Qed.
Lemma update_words_spec slot before after words m :
  word_sized before → word_sized after → NoDup words → (∀ w, w ∈ words → w < 4) → pm_wf 1 m →
  let m' := foldl (update_word slot before after) m words in
  pm_wf 1 m' ∧ ∀ k s, has 1 m' k s =
    if (s =? slot)%N && existsb (λ w, in_word w k) words
    then word_edit before after k (has 1 m k s) else has 1 m k s.
Proof.
  intros Hb Ha. revert m. induction words as [|w words IH]; intros m Hnd Hw Hm; cbn [foldl existsb].
  { split; [done|]. intros k s. by rewrite andb_false_r. }
  apply NoDup_cons in Hnd as [Hnw Hnd].
  destruct (update_word_spec slot before after m w Hb Ha) as [Hm1 Hh1]; [apply Hw; left|done|].
  destruct (IH (update_word slot before after m w)) as [Hm2 Hh2]; [done|intros; apply Hw; by right|done|].
  split; [done|]. intros k s. rewrite Hh2, Hh1. destruct (s =? slot)%N; [|done]. cbn [andb].
  destruct (in_word w k) eqn:Hk; [|done]. cbn [orb].
  assert (existsb (λ w, in_word w k) words = false) as ->; [|done].
  apply not_true_iff_false. rewrite existsb_exists. intros (w' & Hw' & Hk'). apply Hnw.
  unfold in_word in *. destruct k as [|b [|]]; try done. apply Nat.eqb_eq in Hk, Hk'. subst.
  by apply list_elem_of_In.
Qed.
Lemma byte_update_spec slot (before after : text) m :
  byte_text before → byte_text after → pm_wf 1 m →
  (∀ key, has 1 m key slot = gram 1 before key) →
  let m' := foldl (update_word slot (presence before) (presence after)) m (seq 0 4) in
  pm_wf 1 m' ∧ ∀ k s, has 1 m' k s = if (s =? slot)%N then gram 1 after k else has 1 m k s.
Proof.
  intros Htb Hta Hm Hs.
  destruct (update_words_spec slot (presence before) (presence after) (seq 0 4) m) as [Hwf Hh];
    [apply presence_sized..|apply NoDup_seq|intros w ?%elem_of_seq; lia|done|].
  split; [done|]. intros k s. rewrite Hh. destruct (N.eqb_spec s slot) as [->|]; [|done]. cbn [andb].
  rewrite Hs, !gram_byte. assert (Hsing : ∀ t b, bool_decide ([b] ∈ (λ b, [b]) <$> utf8 t) = bool_decide (b ∈ utf8 t)).
  { intros t b. apply bool_decide_ext. rewrite list_elem_of_fmap. naive_solver. }
  assert (Hno : ∀ t, (∀ b, k ≠ [b]) → bool_decide (k ∈ (λ b, [b]) <$> utf8 t) = false).
  { intros t Hk. apply bool_decide_eq_false. rewrite list_elem_of_fmap. intros (b & -> & _). by destruct (Hk b). }
  destruct k as [|b [|b2 k]]; [by rewrite !Hno by done; case_match| |by rewrite !Hno by done; case_match].
  rewrite !Hsing. destruct (N.lt_ge_cases b 256) as [Hlt|Hge].
  - assert (existsb (λ w, in_word w [b]) (seq 0 4) = true) as ->.
    { apply existsb_exists. exists (N.to_nat (b / 64)). split; [|apply Nat.eqb_refl].
      apply list_elem_of_In, elem_of_seq. lia. }
    unfold word_edit. destruct (presence_bit before b Htb Hlt) as [_ ->], (presence_bit after b Hta Hlt) as [_ ->].
    by destruct (bool_decide (b ∈ utf8 before)), (bool_decide (b ∈ utf8 after)).
  - assert (Hout : ∀ t, byte_text t → bool_decide (b ∈ utf8 t) = false).
    { intros t Ht. apply bool_decide_eq_false. intros Hin. unfold byte_text in Ht.
      rewrite Forall_forall in Ht. specialize (Ht b Hin). simpl in Ht. lia. }
    rewrite !Hout by done. assert (existsb (λ w, in_word w [b]) (seq 0 4) = false) as ->; [|done].
    apply not_true_iff_false. rewrite existsb_exists. intros (w & Hw%list_elem_of_In%elem_of_seq & Hk%Nat.eqb_eq).
    assert (256 / 64 ≤ b / 64)%N by (apply N.Div0.div_le_mono; lia). simpl in *. lia.
Qed.

(** [update] of a row that is listed exactly is [remove] then [insert]. *)
Lemma update_flag_spec slot before after b s :
  bm_contains slot b = before →
  bm_contains s (update_flag slot before after b) = if (s =? slot)%N then after else bm_contains s b.
Proof.
  intros Hb. unfold update_flag. destruct (Bool.eqb_spec before after) as [<-|Hne].
  - destruct (N.eqb_spec s slot) as [->|]; [done|done].
  - destruct after; rewrite ?contains_insert, ?contains_remove; by destruct (s =? slot)%N.
Qed.
Lemma update_spec slot (previous : F) (next : G) pairs mp :
  byte_text (search_name previous) → byte_text (search_name next) →
  mp_wf mp → (∀ kind key, listed mp kind key slot = row_term previous kind key) →
  let mp' := (update slot previous next pairs mp).2 in
  mp_wf mp' ∧ ∀ kind key s, listed mp' kind key s =
    if (s =? slot)%N then row_term next kind key else listed mp kind key s.
Proof.
  intros Htp Htn [Hb Hp He] Hl mp'.
  pose proof (Hl 1%N) as HL1. pose proof (Hl 2%N) as HL2. pose proof (Hl 3%N) as HL3.
  pose proof (Hl 4%N []) as HL4. pose proof (Hl 5%N []) as HL5. simpl in HL1, HL2, HL3, HL4, HL5.
  destruct (byte_update_spec slot _ _ (name_bytes mp) Htp Htn Hb HL1) as [Hwb Hhb].
  destruct (apply_spec 2 eq_refl 2 pairs (name_pairs mp) slot (search_name previous) (search_name next))
    as [Hwp Hhp]; [lia|done|done|].
  assert (Hnames : pm_wf 1 (name_bytes mp') ∧ pm_wf 2 (name_pairs mp') ∧
    (∀ k s, has 1 (name_bytes mp') k s = if (s =? slot)%N then gram 1 (search_name next) k else has 1 (name_bytes mp) k s) ∧
    (∀ k s, has 2 (name_pairs mp') k s = if (s =? slot)%N then gram 2 (search_name next) k else has 2 (name_pairs mp) k s)).
  { unfold mp', update. case_decide as Hsame.
    - cbn [snd name_bytes name_pairs]. rewrite <-Hsame. split_and!; [done..| |];
        intros k s; destruct (N.eqb_spec s slot) as [->|]; auto.
    - destruct (apply 2 2 pairs (name_pairs mp) slot (search_name previous) (search_name next)) as [g m].
      cbn [snd name_bytes name_pairs] in *. done. }
  assert (Hexts : pm_wf 3 (extensions mp') ∧
    (∀ k s, has 3 (extensions mp') k s = if (s =? slot)%N then bool_decide (k = utf8 (extension_key next)) else has 3 (extensions mp) k s)).
  { assert (extensions mp' = if decide (extension_key previous = extension_key next) then extensions mp
      else insert_extension slot (extension_key next)
             (posting_remove 3 (utf8 (extension_key previous)) slot (extensions mp))) as ->.
    { unfold mp', update. case_decide; [done|]. by destruct (apply _ _ _ _ _ _ _). }
    case_decide as Hsame.
    - rewrite <-Hsame. split; [done|]. intros k s. destruct (N.eqb_spec s slot) as [->|]; auto.
    - assert (Hr := posting_remove_wf 3 eq_refl (utf8 (extension_key previous)) slot (extensions mp) He).
      split; [by apply insert_extension_wf|]. intros k s.
      rewrite insert_extension_insert, has_insert, has_remove by done.
      destruct (N.eqb_spec s slot) as [->|]; [|by rewrite !andb_false_r]. rewrite !andb_true_r, HL3.
      rewrite (bool_decide_ext (utf8 (extension_key next) = k) (k = utf8 (extension_key next))) by done.
      rewrite (bool_decide_ext (utf8 (extension_key previous) = k) (k = utf8 (extension_key previous))) by done.
      destruct (bool_decide (k = utf8 (extension_key previous))), (bool_decide (k = utf8 (extension_key next))); done. }
  destruct Hnames as (Hw1 & Hw2 & Hh1 & Hh2), Hexts as (Hw3 & Hh3). split; [by split|].
  intros kind key s. revert kind. apply by_kind; [by simpl; rewrite Hh1|by simpl; rewrite Hh2|by simpl; rewrite Hh3|..].
  - assert (directories mp' = update_flag slot (is_dir previous) (is_dir next) (directories mp)) as E.
    { unfold mp', update. case_decide; [done|]. by destruct (apply _ _ _ _ _ _ _). }
    simpl. rewrite E. by apply update_flag_spec.
  - assert (symlinks mp' = update_flag slot (is_symlink previous) (is_symlink next) (symlinks mp)) as E.
    { unfold mp', update. case_decide; [done|]. by destruct (apply _ _ _ _ _ _ _). }
    simpl. rewrite E. by apply update_flag_spec.
  - intros kind Hk. rewrite row_term_other, !listed_other by done. by case_match.
Qed.
End operations.
End postings_laws.

(** ** Postings follow the rows *)

Section tracking.
Context {B : Type} `{RoaringLaws B} `{Json, Unicode} `{!UnstableSort} {F : Type} `{!FileEntry F}.
Notation MetadataPostings := (MetadataPostings (B := B)).
Implicit Types rows : gmap N F.

(** The texts of a row are text. *)
Definition valid_row (f : F) : Prop := valid_text (search_name f) ∧ valid_text (extension_key f).
Lemma valid_bytes t : valid_text t → byte_text t.
Proof.
  unfold valid_text, byte_text, scalar_bound. induction 1 as [|c t Hc _ IH]; [constructor|].
  rewrite utf8_cons. apply Forall_app. split; [|done]. unfold encode_utf8.
  repeat case_match; repeat constructor;
    rewrite ?N.ltb_lt, ?N.ltb_ge in *; lia.
Qed.
(** The postings list exactly the terms of the rows. *)
Definition tracks (mp : MetadataPostings) rows : Prop :=
  mp_wf mp ∧ map_Forall (λ _ f, valid_row f) rows ∧
  ∀ kind key s, listed mp kind key s = from_option (λ f, row_term f kind key) false (rows !! s).
(** Equal keys with equal bitmaps, and equal flags. *)
Definition pm_same (kind : N) (m m' : PostingMap B) : Prop :=
  ∀ key, option_relation bm_same (λ _, False) (λ _, False) (pm_get kind m key) (pm_get kind m' key).
Definition mp_same (mp mp' : MetadataPostings) : Prop :=
  pm_same 1 (name_bytes mp) (name_bytes mp') ∧ pm_same 2 (name_pairs mp) (name_pairs mp') ∧
  pm_same 3 (extensions mp) (extensions mp') ∧ bm_same (directories mp) (directories mp') ∧
  bm_same (symlinks mp) (symlinks mp').

Lemma tracks_default : tracks mp_default ∅.
Proof.
  split; [by split; apply wf_default|]. split; [apply map_Forall_empty|]. intros kind key s.
  rewrite lookup_empty. revert kind. apply by_kind; simpl; try apply has_default; try apply contains_new.
  intros kind Hk. by apply listed_other.
Qed.
Lemma tracks_insert slot file mp rows :
  tracks mp rows → rows !! slot = None → valid_row file →
  tracks (insert slot file mp) (<[slot:=file]> rows).
Proof.
  intros (Hwf & Ht & Hl) Hs Hf. destruct (insert_spec slot file mp (valid_bytes _ (proj1 Hf)) Hwf) as [Hwf' Hl'].
  split; [done|]. split; [by apply map_Forall_insert_2|]. intros kind key s. rewrite Hl', Hl.
  destruct (N.eqb_spec s slot) as [->|Hne].
  - by rewrite lookup_insert_eq, Hs, andb_true_r, orb_false_r.
  - by rewrite lookup_insert_ne, andb_false_r.
Qed.
Lemma tracks_remove slot file mp rows :
  tracks mp rows → rows !! slot = Some file → tracks (remove slot file mp) (delete slot rows).
Proof.
  intros (Hwf & Ht & Hl) Hs. destruct (remove_spec slot file mp Hwf) as [Hwf' Hl'].
  split; [done|]. split; [by apply map_Forall_delete|]. intros kind key s. rewrite Hl', Hl.
  destruct (N.eqb_spec s slot) as [->|Hne].
  - rewrite lookup_delete_eq, Hs. simpl. by destruct (row_term file kind key).
  - by rewrite lookup_delete_ne, andb_false_r.
Qed.
Lemma tracks_update slot old file pairs mp rows :
  tracks mp rows → rows !! slot = Some old → valid_row file →
  tracks (update slot old file pairs mp).2 (<[slot:=file]> rows).
Proof.
  intros (Hwf & Ht & Hl) Hs Hf. destruct (update_spec slot old file pairs mp) as [Hwf' Hl'];
    [by apply valid_bytes, (Ht slot)|by apply valid_bytes, Hf|done|intros; by rewrite Hl, Hs|].
  split; [done|]. split; [by apply map_Forall_insert_2|]. intros kind key s. rewrite Hl', Hl.
  destruct (N.eqb_spec s slot) as [->|Hne]; [by rewrite lookup_insert_eq|by rewrite lookup_insert_ne].
Qed.
Lemma tracks_same mp mp' rows : tracks mp rows → tracks mp' rows → mp_same mp mp'.
Proof.
  intros ([Hb Hp He] & _ & Hl) ([Hb' Hp' He'] & _ & Hl').
  assert (Heq : ∀ kind key s, listed mp kind key s = listed mp' kind key s) by (intros; by rewrite Hl, Hl').
  split_and!; [..|intros s; exact (Heq 4%N [] s)|intros s; exact (Heq 5%N [] s)];
    intros key; apply has_determines; try done; intros k s;
    [exact (Heq 1%N k s)|exact (Heq 2%N k s)|exact (Heq 3%N k s)].
Qed.
Lemma build_tracks files rows :
  NoDup files.*1 → rows = list_to_map files → Forall (λ '(_, f), valid_row f) files →
  tracks (build files) rows.
Proof.
  intros Hnd -> Hf. unfold build.
  assert (Hgo : ∀ files mp rows, NoDup files.*1 → (∀ s, s ∈ files.*1 → rows !! s = None) →
    Forall (λ '(_, f), valid_row f) files → tracks mp rows →
    tracks (foldl (λ mp '(slot, file), insert slot file mp) mp files) (list_to_map files ∪ rows)).
  { clear Hnd Hf files. induction files as [|[s f] files IH]; intros mp rows Hnd Hfresh Hf Hmp; simpl.
    { by rewrite map_empty_union. }
    apply NoDup_cons in Hnd as [Hs Hnd]. apply Forall_cons in Hf as [Hf Hfs].
    replace (<[s:=f]> (list_to_map files) ∪ rows) with (list_to_map files ∪ <[s:=f]> rows).
    - apply IH; [done| |done|apply tracks_insert; [done|apply Hfresh; left|done]].
      intros s' Hs'. rewrite lookup_insert_ne by (intros <-; done). apply Hfresh. by right.
    - rewrite <-insert_union_l, <-insert_union_r; [done|]. by apply not_elem_of_list_to_map_1. }
  rewrite <-(map_union_empty (list_to_map files)). apply Hgo; [done|intros; apply lookup_empty|done|apply tracks_default].
Qed.

(** C13: Metadata postings never drift from the rows.  Building lists every
    slot under exactly the bytes, byte pairs and extension key of its row and
    its flags; inserting, removing and updating a row keep that, whatever was
    changed between the old row and the new; no directory holds a key of
    another partition or an empty bitmap; and postings kept up to date through
    any changes equal, key by key and bitmap by bitmap, those rebuilt from the
    rows. *)
Theorem postings_follow_rows (mp : MetadataPostings) rows slot file :
  tracks mp rows → valid_row file →
  tracks (build (map_to_list rows)) rows ∧
  (rows !! slot = None →
    tracks (insert slot file mp) (<[slot:=file]> rows) ∧
    mp_same (insert slot file mp) (build (map_to_list (<[slot:=file]> rows)))) ∧
  (∀ old, rows !! slot = Some old →
    (tracks (remove slot old mp) (delete slot rows) ∧
     mp_same (remove slot old mp) (build (map_to_list (delete slot rows)))) ∧
    (∀ pairs, tracks (update slot old file pairs mp).2 (<[slot:=file]> rows) ∧
      mp_same (update slot old file pairs mp).2 (build (map_to_list (<[slot:=file]> rows))))).
Proof.
  intros Hmp Hf. assert (Hbuild : ∀ rows, map_Forall (λ _ f, valid_row f) rows →
    tracks (build (map_to_list rows)) rows).
  { clear Hmp Hf mp rows. intros rows Hr. apply build_tracks; [apply NoDup_fst_map_to_list|by rewrite list_to_map_to_list|].
    apply Forall_forall. intros [s f] Hin%elem_of_map_to_list. by apply (Hr s). }
  assert (Hboth : ∀ mp' rows', tracks mp' rows' → tracks mp' rows' ∧ mp_same mp' (build (map_to_list rows'))).
  { intros mp' rows' H'. split; [done|]. apply (tracks_same _ _ rows'); [done|]. apply Hbuild, H'. }
  split; [apply Hbuild, Hmp|]. split.
  - intros Hs. apply Hboth. by apply tracks_insert.
  - intros old Hs. split; [apply Hboth; by apply tracks_remove|].
    intros pairs. apply Hboth. by apply tracks_update.
Qed.

(** ** Exact answers *)

Context `{Chrono, Pcre, MemmemLaws}.
Notation Query := (Query B).
(** The parser gives every literal the finder of its bytes. *)
Fixpoint finders (q : Query) : Prop :=
  match q with
  | QAnd queries | QOr queries => foldr (λ q P, finders q ∧ P) True queries
  | QNot q => finders q
  | QTerm (TText _ needle finder _) => finder_needle finder = utf8 needle
  | QTerm (TExtensions l) => Forall valid_text l
  | _ => True
  end.
(** The bitmap answers the query on the live rows. *)
Definition answers (live : B) rows (q : Query) (r : B) : Prop :=
  (∀ slot, bm_contains slot r = true → bm_contains slot live = true) ∧
  ∀ slot f content, bm_contains slot live = true → rows !! slot = Some f →
    denote q f content = Ok (bm_contains slot r).

Lemma and_all_spec live rows (f : Query → option B) queries r0 r :
  Forall (λ q, ∀ r, f q = Some r → answers live rows q r) queries → and_all f queries r0 = Some r →
  ∀ slot, (bm_contains slot r = true → bm_contains slot r0 = true) ∧
    ∀ file content, bm_contains slot live = true → rows !! slot = Some file →
    ∃ b, all_result (λ q, denote q file content) queries = Ok b ∧
      bm_contains slot r = bm_contains slot r0 && b.
Proof.
  intros Hq. revert r0. induction Hq as [|q queries Hq _ IH]; intros r0; simpl.
  { intros [= <-] slot. split; [done|]. intros. exists true. by rewrite andb_true_r. }
  intros (b & Hb & Hr)%bind_Some slot. destruct (Hq b Hb) as [_ Hd].
  destruct (IH _ Hr slot) as [Hsub Hrest]. split.
  { intros Hs%Hsub. rewrite contains_and in Hs. by apply andb_true_iff in Hs as [? _]. }
  intros file content Hlive Hrow. rewrite (Hd slot file content Hlive Hrow). simpl.
  destruct (Hrest file content Hlive Hrow) as (b' & Hb' & ->). rewrite contains_and, Hb'.
  destruct (bm_contains slot b); [exists b'|exists false]; split; try done; by rewrite ?andb_true_r, ?andb_false_r.
Qed.
Lemma or_all_spec live rows (f : Query → option B) queries r0 r :
  Forall (λ q, ∀ r, f q = Some r → answers live rows q r) queries → or_all f queries r0 = Some r →
  ∀ slot file content, bm_contains slot live = true → rows !! slot = Some file →
    ∃ b, any_result (λ q, denote q file content) queries = Ok b ∧
      bm_contains slot r = bm_contains slot r0 || b.
Proof.
  intros Hq. revert r0. induction Hq as [|q queries Hq _ IH]; intros r0; simpl.
  { intros [= <-] slot *. exists false. by rewrite orb_false_r. }
  intros (b & Hb & Hr)%bind_Some slot file content Hlive Hrow. destruct (Hq b Hb) as [_ Hd].
  rewrite (Hd slot file content Hlive Hrow). simpl.
  destruct (IH _ Hr slot file content Hlive Hrow) as (b' & Hb' & ->). rewrite contains_or, Hb'.
  destruct (bm_contains slot b); [exists true|exists b']; split; try done; by rewrite ?orb_true_r, ?orb_false_r.
Qed.
Lemma answers_and live rows q r :
  (∀ slot f content, bm_contains slot live = true → rows !! slot = Some f →
    denote q f content = Ok (bm_contains slot r)) → answers live rows q (bm_and r live).
Proof.
  intros Hd. split; [intros slot|intros slot f content Hlive Hrow]; rewrite contains_and.
  - by intros [_ ?]%andb_true_iff.
  - by rewrite (Hd slot f content Hlive Hrow), Hlive, andb_true_r.
Qed.
Lemma union_extension_spec mp rows l r0 slot f :
  tracks mp rows → rows !! slot = Some f →
  bm_contains slot (foldl (union_extension mp) r0 l) =
    bm_contains slot r0 || existsb (λ e, bool_decide (utf8 e = utf8 (extension_key f))) l.
Proof.
  intros (_ & _ & Hl) Hrow. revert r0. induction l as [|e l IH]; intros r0; cbn [foldl existsb].
  { by rewrite orb_false_r. }
  rewrite IH, orb_assoc. f_equal. unfold union_extension. specialize (Hl 3%N (utf8 e) slot).
  rewrite Hrow in Hl. simpl in Hl. rewrite <-Hl. unfold has.
  destruct (pm_get 3 (extensions mp) (utf8 e)); [by rewrite contains_or|by rewrite orb_false_r].
Qed.
Lemma listed_row mp rows kind key slot f :
  tracks mp rows → rows !! slot = Some f → listed mp kind key slot = row_term f kind key.
Proof. intros (_ & _ & Hl) Hrow. by rewrite Hl, Hrow. Qed.
Lemma exact_supported mp live q : is_Some (exact mp live q) ↔ supports q = true.
Proof.
  assert (Hand : ∀ f (queries : list Query) r, Forall (λ q, is_Some (f q) ↔ supports q = true) queries →
    is_Some (and_all f queries r) ↔ forallb supports queries = true).
  { intros f queries r Hq. revert r. induction Hq as [|q' queries Hq _ IH]; intros r; simpl; [by split; [|eauto]|].
    rewrite andb_true_iff, <-Hq. destruct (f q') as [b|]; simpl; [rewrite IH; naive_solver eauto|].
    split; [by intros []|by intros [[] _]]. }
  assert (Hor : ∀ f (queries : list Query) r, Forall (λ q, is_Some (f q) ↔ supports q = true) queries →
    is_Some (or_all f queries r) ↔ forallb supports queries = true).
  { intros f queries r Hq. revert r. induction Hq as [|q' queries Hq _ IH]; intros r; simpl; [by split; [|eauto]|].
    rewrite andb_true_iff, <-Hq. destruct (f q') as [b|]; simpl; [rewrite IH; naive_solver eauto|].
    split; [by intros []|by intros [[] _]]. }
  induction q as [|queries IH|queries IH|q IH|recursive q _|t Ht] using query_induction; simpl.
  - by split; [|eauto].
  - rewrite <-(Hand _ queries live IH). by destruct (and_all _ _ _).
  - rewrite <-(Hor _ queries bm_new IH). by destruct (or_all _ _ _).
  - rewrite <-IH. by destruct (exact mp live q).
  - by split; [intros []|].
  - destruct t as [[] needle finder []| | | | |[]| | | | | | |]; try (split; [by intros []|done]);
      try (by split; [|eauto]).
    rewrite <-utf8_length. destruct (utf8 needle) as [|b1 [|b2 [|b3 l]]]; simpl; by split; [|eauto].
Qed.
Lemma exact_term mp live rows t r :
  tracks mp rows → finders (QTerm t) → exact mp live (QTerm t) = Some r → answers live rows (QTerm t) r.
Proof.
  intros Hmp Hfind. cbn [exact]. intros (r0 & Hr0 & [= <-])%bind_Some. apply answers_and.
  intros slot f content Hlive Hrow. pose proof (λ kind key, listed_row mp rows kind key slot f Hmp Hrow) as Hl.
  destruct t as [[] needle finder []| | | |l|[]| | | | | | |]; try discriminate Hr0.
  - simpl in Hfind. unfold denote, term_value. simpl. rewrite finds_found, Hfind. f_equal.
    destruct (utf8 needle) as [|b1 [|b2 [|b3 l]]]; injection Hr0 as <- || discriminate Hr0.
    + rewrite Hlive. by destruct (utf8 (search_name f)).
    + rewrite posting_lookup_has. symmetry. exact (Hl 1%N [b1]).
    + rewrite posting_lookup_has. symmetry. exact (Hl 2%N [b1; b2]).
  - injection Hr0 as <-. rewrite (union_extension_spec mp rows l bm_new slot f Hmp Hrow), contains_new.
    unfold denote, term_value. simpl. f_equal. destruct Hmp as (_ & Hrows & _).
    destruct (Hrows slot f Hrow) as [_ Hext]. simpl in Hfind. clear -Hext Hfind.
    induction Hfind as [|e l He _ IH]; [done|]. cbn [existsb]. rewrite IH. f_equal.
    apply bool_decide_ext. split; [by intros ->|]. by apply utf8_inj.
  - injection Hr0 as <-. unfold denote, term_value. simpl. f_equal.
    specialize (Hl 4%N []). simpl in Hl. rewrite Hl. by destruct (is_dir f).
  - injection Hr0 as <-. unfold denote, term_value. simpl. f_equal. rewrite contains_sub, Hlive.
    specialize (Hl 4%N []). simpl in Hl. rewrite Hl. by destruct (is_dir f).
  - injection Hr0 as <-. unfold denote, term_value. simpl. f_equal. symmetry. exact (Hl 5%N []).
Qed.

Lemma exact_answers mp live rows q :
  tracks mp rows → finders q → ∀ r, exact mp live q = Some r → answers live rows q r.
Proof.
  intros Hmp Hq. revert Hq.
  assert (Hlist : ∀ queries : list Query, Forall (λ q, finders q →
      ∀ r, exact mp live q = Some r → answers live rows q r) queries →
    foldr (λ q P, finders q ∧ P) True queries →
    Forall (λ q, ∀ r, exact mp live q = Some r → answers live rows q r) queries).
  { induction 1 as [|q' queries Hq' _ IH]; simpl; [done|]. intros [??]. auto. }
  induction q as [|queries IH|queries IH|q IH|recursive q _|t Ht] using query_induction; intros Hq r Hr.
  - injection Hr as <-. apply answers_and. intros slot f content Hlive _. by rewrite Hlive.
  - cbn [exact] in Hr. apply bind_Some in Hr as (r0 & Hr0 & [= <-]). apply answers_and.
    intros slot f content Hlive Hrow.
    destruct (and_all_spec live rows _ queries live r0 (Hlist queries IH Hq) Hr0 slot) as [_ Hd].
    destruct (Hd f content Hlive Hrow) as (b & Hb & ->). by rewrite Hlive.
  - cbn [exact] in Hr. apply bind_Some in Hr as (r0 & Hr0 & [= <-]). apply answers_and.
    intros slot f content Hlive Hrow.
    destruct (or_all_spec live rows _ queries bm_new r0 (Hlist queries IH Hq) Hr0 slot f content Hlive Hrow)
      as (b & Hb & ->). by rewrite contains_new.
  - cbn [exact] in Hr. apply bind_Some in Hr as (r0 & (b & Hb & [= <-])%bind_Some & [= <-]). apply answers_and.
    intros slot f content Hlive Hrow. destruct (IH Hq b Hb) as [_ Hd]. simpl.
    rewrite (Hd slot f content Hlive Hrow), contains_sub, Hlive. done.
  - by apply (exact_term mp live rows).
  - by apply (exact_term mp live rows).
Qed.
(** Postings answer exactly.  For postings that track the rows and a query
    of the parser's literals, [supports] says whether the postings can answer;
    if they do, the bitmap holds only live slots, and a live row is in it
    exactly when the query, evaluated on the row with any content, matches:
    unions, intersections and complements of term bitmaps are the connectives
    of the evaluator, which never fails on such a query. *)
Theorem postings_answer_exactly mp live rows q :
  tracks mp rows → finders q →
  (is_Some (exact mp live q) ↔ supports q = true) ∧
  ∀ r, exact mp live q = Some r → answers live rows q r.
Proof. intros Hmp Hq. split; [apply exact_supported|by apply exact_answers]. Qed.
End tracking.

(** ** Concrete rows *)

Definition row (name : string) : IndexedFile := sample_file (lit name) (JObject []).
Lemma row_valid name : is_ascii (lit name) = true → valid_row (row name).
Proof.
  intros Ha. split; apply ascii_valid; [|done]. simpl. by apply ascii_lower.
Qed.
Lemma postings_follow_rows_witness :
  let mp := insert (B := gset N) 3 (row "ab.txt") mp_default in
  mp_same (update 3 (row "ab.txt") (row "b.c") {| previous := []; next := [] |} mp).2
    (build (map_to_list (<[3%N:=row "b.c"]> (<[3%N:=row "ab.txt"]> ∅)))).
Proof.
  intros mp. assert (Hmp : tracks mp (<[3%N:=row "ab.txt"]> ∅)).
  { apply tracks_insert; [apply tracks_default|done|by apply row_valid]. }
  assert (Hv : valid_row (row "b.c")) by (by apply row_valid).
  pose proof (postings_follow_rows mp (<[3%N:=row "ab.txt"]> ∅) 3 (row "b.c") Hmp Hv) as Hall.
  clearbody mp. destruct Hall as (_ & _ & Hupdate).
  apply (Hupdate (row "ab.txt") (lookup_insert_eq _ _ _)).
Defined.
Definition sample_exact_query : Query (H := utc_chrono) (gset N) :=
  QAnd [QTerm (TText Name (lit "ab") (lit "ab") false); QNot (QTerm (TIsDir true));
        QTerm (TExtensions [lit "txt"])].
Lemma postings_answer_exactly_witness :
  let mp := insert (B := gset N) 3 (row "ab.txt") (insert 5 (row "b.c") mp_default) in
  ∃ r, exact mp {[3; 5]}%N sample_exact_query = Some r ∧
    bm_contains 3 r = true ∧ bm_contains 5 r = false.
Proof.
  intros mp.
  assert (Hmp : tracks mp (<[3%N:=row "ab.txt"]> (<[5%N:=row "b.c"]> ∅))).
  { apply tracks_insert; [apply tracks_insert; [apply tracks_default|done|by apply row_valid]|done|by apply row_valid]. }
  destruct (postings_answer_exactly mp {[3; 5]}%N _ sample_exact_query Hmp) as [Hs Hr].
  { split; [reflexivity|]. split; [exact I|]. split; [|exact I]. repeat constructor. }
  destruct (proj2 Hs eq_refl) as [r Hexact]. exists r. split; [exact Hexact|].
  destruct (Hr r Hexact) as [_ Hd]. split.
  - specialize (Hd 3%N (row "ab.txt") None eq_refl eq_refl).
    replace (denote sample_exact_query (row "ab.txt") None) with (Ok true) in Hd by reflexivity. congruence.
  - specialize (Hd 5%N (row "b.c") None eq_refl eq_refl).
    replace (denote sample_exact_query (row "b.c") None) with (Ok false) in Hd by reflexivity. congruence.
Defined.
