(* ===== verification/TextPool.v ===== *)
(** * core/src/text_pool.rs: text arenas with shared prefixes

    A block keeps the texts of its rows in one arena, and every field is a
    byte range of it.  Equal texts share a range, and a text that is a prefix
    of another borrows the front of its range.  Running over 4 GiB is the
    panic it is in the code ([None]). *)
From S2P Require Import Prelude Text.

(** [&text[start..end]]: [None] is the panic out of range or off a boundary. *)
Definition str_slice (t : text) (start stop : nat) : option text :=
  '(before, _) ← split_at t stop;
  slice_from before start.

(** entry_table.rs, [TextRef]: a byte range, in [u32]s. *)
Record TextRef := { offset : nat; length_ : nat }.
#[export] Instance text_ref_eq_dec : EqDecision TextRef.
Proof. solve_decision. Defined.
Definition text_ref_default : TextRef := {| offset := 0; length_ := 0 |}.
(** [u32::try_from(n).expect(..)] *)
Definition as_u32 (n : nat) : option nat := if (N.of_nat n <=? u32_max)%N then Some n else None.
Definition read_ref (arena : text) (r : TextRef) : option text :=
  str_slice arena (offset r) (offset r + length_ r).

(** [str::cmp]: the bytes in order. *)
Definition str_cmp (a b : text) : comparison := list_cmp N.compare (utf8 a) (utf8 b).

Section pool.
Context `{!UnstableSort}.

Record TextPoolBuilder := { arena : text; references : gmap text TextRef }.
Definition pool_default : TextPoolBuilder := {| arena := []; references := ∅ |}.

(** Appending to an arena: the range of the appended text. *)
Definition arena_append (t value : text) : option (TextRef * text) :=
  offset ← as_u32 (byte_len t);
  length_ ← as_u32 (byte_len value);
  stop ← usize_checked_add (byte_len t) (byte_len value);
  _ ← as_u32 stop;
  Some ({| offset := offset; length_ := length_ |}, t ++ value).
Definition intern (b : TextPoolBuilder) (value : text) : option (TextRef * TextPoolBuilder) :=
  match references b !! value with
  | Some reference => Some (reference, b)
  | None =>
    '(reference, t) ← arena_append (arena b) value;
    Some (reference, {| arena := t; references := <[value:=reference]> (references b) |})
  end.

(** One value of [intern_prefixes]; [previous] is the value visited before. *)
Definition intern_prefix (st : option (text * TextRef) * TextPoolBuilder) (value : text) :
    option (option (text * TextRef) * TextPoolBuilder) :=
  let '(previous, b) := st in
  match references b !! value with
  | Some reference => Some (Some (value, reference), b)
  | None =>
    match previous with
    | Some (descendant, reference) =>
      if starts_with value descendant then
        n ← as_u32 (byte_len value);
        let reference := {| offset := offset reference; length_ := n |} in
        Some (Some (value, reference),
              {| arena := arena b; references := <[value:=reference]> (references b) |})
      else
        '(reference, b) ← intern b value; Some (Some (value, reference), b)
    | None => '(reference, b) ← intern b value; Some (Some (value, reference), b)
    end
  end.
Fixpoint intern_each (st : option (text * TextRef) * TextPoolBuilder) (values : list text) :
    option TextPoolBuilder :=
  match values with
  | [] => Some st.2
  | value :: values => st ← intern_prefix st value; intern_each st values
  end.
Definition intern_prefixes (b : TextPoolBuilder) (values : list text) : option TextPoolBuilder :=
  intern_each (None, b) (dedup (sort_unstable_by (λ a b, str_cmp b a) values)).
Definition finish (b : TextPoolBuilder) : text := arena b.

(** ** Ranges read back *)

Lemma str_slice_app x y z :
  str_slice (x ++ y ++ z) (byte_len x) (byte_len x + byte_len y) = Some y.
Proof.
  unfold str_slice. rewrite app_assoc, <-byte_len_app, split_at_app. cbn [mbind option_bind].
  apply slice_from_app.
Qed.
Lemma split_at_Some t n x y : split_at t n = Some (x, y) → t = x ++ y ∧ byte_len x = n.
Proof.
  revert n x y. induction t as [|c t IH]; intros n x y; destruct n as [|n]; cbn [split_at].
  - by intros [= <- <-].
  - done.
  - by intros [= <- <-].
  - case_match eqn:E; [|done]. intros ((a & b) & Hab & [= <- <-])%bind_Some.
    apply IH in Hab as [-> Hlen]. apply Nat.leb_le in E. split; [done|].
    unfold byte_len in *. simpl. lia.
Qed.
Lemma str_slice_Some t a b y :
  str_slice t a b = Some y → ∃ x z, t = x ++ y ++ z ∧ byte_len x = a ∧ byte_len x + byte_len y = b.
Proof.
  unfold str_slice, slice_from. intros ((before & z) & Hb & Hy)%bind_Some.
  apply split_at_Some in Hb as [-> Hlen]. apply fmap_Some in Hy as ((x & y') & Hx & ->).
  apply split_at_Some in Hx as [-> Hlx]. exists x, z. simpl. rewrite <-app_assoc. split_and!; [done..|].
  rewrite byte_len_app in Hlen. lia.
Qed.
(** A range survives whatever is appended, and a prefix of its text is the
    front of the range. *)
Lemma read_ref_app t more r v : read_ref t r = Some v → read_ref (t ++ more) r = Some v.
Proof.
  unfold read_ref. intros (x & z & -> & <- & Hb)%str_slice_Some. rewrite <-Hb, <-!app_assoc.
  apply str_slice_app.
Qed.
Lemma read_ref_length t r v : read_ref t r = Some v → length_ r = byte_len v ∧ offset r + length_ r ≤ byte_len t.
Proof.
  unfold read_ref. intros (x & z & -> & Ha & Hb)%str_slice_Some. rewrite !byte_len_app. lia.
Qed.
Lemma read_ref_prefix t r v w :
  read_ref t r = Some (v ++ w) → read_ref t {| offset := offset r; length_ := byte_len v |} = Some v.
Proof.
  unfold read_ref. intros (x & z & -> & <- & _)%str_slice_Some. simpl. rewrite <-app_assoc.
  apply str_slice_app.
Qed.
Lemma arena_append_spec t value r t' :
  arena_append t value = Some (r, t') → t' = t ++ value ∧ read_ref t' r = Some value.
Proof.
  unfold arena_append, as_u32. repeat case_match; try done; cbn [mbind option_bind].
  intros (stop & _ & Hs)%bind_Some. case_match; [|done]. injection Hs as <- <-. split; [done|].
  unfold read_ref. simpl. rewrite <-(app_nil_r value) at 1. apply str_slice_app.
Qed.
(** It panics exactly above 4 GiB. *)
Lemma arena_append_fits t value :
  (N.of_nat (byte_len t + byte_len value) ≤ u32_max)%N ↔ is_Some (arena_append t value).
Proof.
  unfold arena_append, as_u32, usize_checked_add, usize_max, u64_max, u32_max. split.
  - intros Hfit. rewrite !(proj2 (N.leb_le _ _)) by lia. cbn [mbind option_bind].
    rewrite !(proj2 (N.leb_le _ _)) by lia. eauto.
  - intros [r (a & _ & (l & _ & (stop & Hstop & (? & Hu & _)%bind_Some)%bind_Some)%bind_Some)%bind_Some].
    destruct (_ <=? 18446744073709551615)%N in Hstop; [|done]. injection Hstop as <-.
    destruct (_ <=? 4294967295)%N eqn:E in Hu; [|done]. apply N.leb_le in E. lia.
Qed.

(** The builder's references read their texts. *)
Definition pool_ok (b : TextPoolBuilder) : Prop :=
  map_Forall (λ v r, read_ref (arena b) r = Some v) (references b).
(** [b'] has grown out of [b]. *)
Definition extends (b b' : TextPoolBuilder) : Prop :=
  (∃ more, arena b' = arena b ++ more) ∧ references b ⊆ references b'.
#[export] Instance extends_preorder : PreOrder extends.
Proof.
  split.
  - intros b. split; [exists []; by rewrite app_nil_r|done].
  - intros b1 b2 b3 [[m1 H1] S1] [[m2 H2] S2]. split; [|by transitivity (references b2)].
    exists (m1 ++ m2). by rewrite H2, H1, app_assoc.
Qed.
Lemma extends_read b b' r v : extends b b' → read_ref (arena b) r = Some v → read_ref (arena b') r = Some v.
Proof. intros [[more ->] _]. apply read_ref_app. Qed.
Lemma pool_insert b value r more :
  pool_ok b → references b !! value = None → read_ref (arena b ++ more) r = Some value →
  let b' := {| arena := arena b ++ more; references := <[value:=r]> (references b) |} in
  pool_ok b' ∧ extends b b'.
Proof.
  intros Hok Hnew Hr b'. split.
  - apply map_Forall_insert_2; [done|]. intros v r' Hv. by apply read_ref_app, Hok.
  - split; [by exists more|]. by apply insert_subseteq.
Qed.
Lemma intern_spec b value r b' :
  pool_ok b → intern b value = Some (r, b') →
  pool_ok b' ∧ extends b b' ∧ read_ref (arena b') r = Some value ∧ references b' !! value = Some r.
Proof.
  intros Hok. unfold intern. destruct (references b !! value) as [r0|] eqn:E.
  - intros [= <- <-]. split_and!; [done|done|by apply Hok|done].
  - intros ((r0 & t) & Ha & [= <- <-])%bind_Some. apply arena_append_spec in Ha as [-> Hr].
    destruct (pool_insert b value r0 value Hok E Hr) as [Hok' Hext]. split_and!; [done..|].
    apply lookup_insert_eq.
Qed.
Definition visited_ok (previous : option (text * TextRef)) (b : TextPoolBuilder) : Prop :=
  match previous with Some (v, r) => read_ref (arena b) r = Some v | None => True end.
Lemma intern_prefix_spec previous b value previous' b' :
  pool_ok b → visited_ok previous b → intern_prefix (previous, b) value = Some (previous', b') →
  pool_ok b' ∧ extends b b' ∧ visited_ok previous' b' ∧ is_Some (references b' !! value).
Proof.
  intros Hok Hprev. unfold intern_prefix. destruct (references b !! value) as [r0|] eqn:E.
  { intros [= <- <-]. split_and!; [done|done|by apply Hok|eauto]. }
  assert (Hintern : ('(reference, b) ← intern b value; Some (Some (value, reference), b)) = Some (previous', b') →
    pool_ok b' ∧ extends b b' ∧ visited_ok previous' b' ∧ is_Some (references b' !! value)).
  { intros ((r & b1) & Hi & [= <- <-])%bind_Some. apply intern_spec in Hi as (? & ? & ? & ?); [|done].
    split_and!; eauto. }
  destruct previous as [[descendant r]|]; [|done].
  destruct (starts_with value descendant) eqn:Hs; [|done].
  apply strip_prefix_dec in Hs as [w ->]. simpl in Hprev.
  intros (n & Hn & [= <- <-])%bind_Some. unfold as_u32 in Hn. case_match; [|done]. injection Hn as <-.
  pose proof (read_ref_prefix _ _ _ _ Hprev) as Hr.
  destruct (pool_insert b value {| offset := offset r; length_ := byte_len value |} []) as [Hok' Hext];
    [done|done|by rewrite app_nil_r|].
  rewrite app_nil_r in Hok', Hext. split_and!; [done..|]. simpl. rewrite lookup_insert_eq. eauto.
Qed.
Lemma intern_each_spec values previous b b' :
  pool_ok b → visited_ok previous b → intern_each (previous, b) values = Some b' →
  pool_ok b' ∧ extends b b' ∧ ∀ v, v ∈ values → is_Some (references b' !! v).
Proof.
  revert previous b. induction values as [|value values IH]; intros previous b Hok Hprev; cbn [intern_each].
  { intros [= <-]. split_and!; [done|done|]. by intros v ?%not_elem_of_nil. }
  intros ((p & b1) & H1 & H2)%bind_Some.
  destruct (intern_prefix_spec previous b value p b1 Hok Hprev H1) as (Hok1 & He1 & Hp1 & Hv).
  destruct (IH p b1 Hok1 Hp1 H2) as (Hok2 & He2 & Hvs). split_and!; [done|by transitivity b1|].
  intros v [->|Hin]%elem_of_cons; [|by apply Hvs]. destruct Hv as [r Hr], He2 as [_ He2].
  exists r. by eapply lookup_weaken.
Qed.
Lemma intern_prefixes_spec b values b' :
  pool_ok b → intern_prefixes b values = Some b' →
  pool_ok b' ∧ extends b b' ∧ ∀ v, v ∈ values → is_Some (references b' !! v).
Proof.
  intros Hok Hi. apply intern_each_spec in Hi as (? & ? & Hv); [|done..]. split_and!; [done..|].
  intros v Hin. apply Hv. by rewrite dedup_elem_of, sort_unstable_permutes.
Qed.
End pool.

(** ** Prefixes cost nothing *)

Lemma list_cmp_between {A} (f : A → A → comparison) `{!TotalOrder f} (a b c : list A) :
  cmp_le (list_cmp f) a b → cmp_le (list_cmp f) b (a ++ c) → ∃ d, b = a ++ d.
Proof.
  revert b. induction a as [|x a IH]; intros b Hab Hbc; [by exists b|].
  destruct b as [|y b]; [by unfold cmp_le in Hab|]. unfold cmp_le in *. simpl in Hab, Hbc.
  destruct (f x y) eqn:E; [apply (compare_eq_eq f) in E as <-|..].
  - rewrite (compare_refl f) in Hbc. simpl in *. destruct (IH b Hab Hbc) as [d ->]. by exists d.
  - rewrite (compare_opp f x y), E in Hbc. simpl in Hbc. done.
  - done.
Qed.
Section sharing.
Context `{!UnstableSort}.
#[local] Instance str_cmp_preorder : TotalPreorder str_cmp.
Proof. exact (preorder_pullback utf8 (list_cmp N.compare) _). Qed.

Definition proper_prefix (v u : text) : bool := bool_decide (u ≠ v) && starts_with v u.
(** No other value has it as a prefix. *)
Definition maximal (values : list text) (v : text) : bool := negb (existsb (proper_prefix v) values).
Definition total_bytes (values : list text) : nat := sum_list (byte_len <$> values).

Lemma prefix_below v u : starts_with v u = true → cmp_le str_cmp v u.
Proof.
  intros [w ->]%strip_prefix_dec. unfold cmp_le, str_cmp. rewrite utf8_app.
  induction (utf8 v) as [|x l IH]; simpl; [by destruct (utf8 w)|]. by rewrite N.compare_refl.
Qed.
(** Between a text and one of its extensions there are only extensions. *)
Lemma prefix_between v w u :
  valid_text v → valid_text w → starts_with v u = true →
  cmp_le str_cmp v w → cmp_le str_cmp w u → starts_with v w = true.
Proof.
  intros Hv Hw [c ->]%strip_prefix_dec Hvw Hwu. unfold cmp_le, str_cmp in *. rewrite utf8_app in Hwu.
  destruct (list_cmp_between N.compare _ _ _ Hvw Hwu) as [d Hd].
  apply strip_prefix_dec. destruct (utf8_prefix_inv v w d Hv Hw Hd) as (r & -> & _). by exists r.
Qed.
Lemma prefix_above v u : valid_text v → valid_text u → cmp_le str_cmp u v → starts_with v u = true → u = v.
Proof.
  intros Hv Hu Hle Hs. pose proof (prefix_below v u Hs) as Hge. apply utf8_inj; [done..|].
  by apply (anti_symm (cmp_le (list_cmp N.compare))).
Qed.

Definition descending (a b : text) : Prop := cmp_le str_cmp b a ∧ a ≠ b.
(** What the batch must store of the remaining values. *)
Definition stored (known : gmap text TextRef) (all : list text) (values : list text) : list text :=
  filter (λ v, known !! v = None ∧ maximal all v = true) values.

(** The value visited before decides whether a value extends to any other. *)
Lemma previous_decides before value after :
  Forall valid_text (before ++ value :: after) → StronglySorted descending (before ++ value :: after) →
  maximal (before ++ value :: after) value =
    match last before with Some d => negb (starts_with value d) | None => true end.
Proof.
  intros Hv Hs. assert (Hvv : valid_text value) by (rewrite Forall_forall in Hv; apply Hv; set_solver).
  assert (Hafter : ∀ u, u ∈ after → proper_prefix value u = false).
  { intros u Hu. apply andb_false_iff. destruct (starts_with value u) eqn:E; [left|by right].
    apply StronglySorted_app_1_r, StronglySorted_cons in Hs as [Hf _]. rewrite Forall_forall in Hf, Hv.
    destruct (Hf u Hu) as [Hle Hne]. destruct Hne. symmetry. apply prefix_above; [done|apply Hv; set_solver|done|done]. }
  assert (Hself : proper_prefix value value = false) by (unfold proper_prefix; by rewrite bool_decide_false by tauto).
  assert (Hrest : existsb (proper_prefix value) (value :: after) = false).
  { simpl. rewrite Hself. apply not_true_iff_false. intros (u & Hu%list_elem_of_In & Hp)%existsb_exists.
    by rewrite Hafter in Hp. }
  unfold maximal. rewrite existsb_app, Hrest, orb_false_r.
  destruct before as [|d before' _] using rev_ind; [done|]. rewrite last_snoc. f_equal.
  assert (Hd : descending d value).
  { rewrite <-app_assoc in Hs. apply StronglySorted_app_1_r, StronglySorted_cons in Hs as [Hf _].
    rewrite Forall_forall in Hf. apply Hf. set_solver. }
  destruct (starts_with value d) eqn:Hsd.
  - apply existsb_exists. exists d. split; [apply in_or_app; right; by left|].
    unfold proper_prefix. by rewrite Hsd, bool_decide_true by apply Hd.
  - apply not_true_iff_false. intros (u & Hu%list_elem_of_In & [_ Hp]%andb_true_iff)%existsb_exists.
    apply elem_of_app in Hu as [Hu|Hu%list_elem_of_singleton]; [|by subst; congruence].
    rewrite Forall_forall in Hv.
    assert (Hdu : cmp_le str_cmp d u).
    { apply list_elem_of_split in Hu as (l1 & l2 & ->). rewrite <-!app_assoc in Hs. simpl in Hs.
      apply StronglySorted_app_1_r, StronglySorted_cons in Hs as [Hf _]. rewrite Forall_forall in Hf.
      apply Hf. set_solver. }
    assert (valid_text d) as Hvd by (apply Hv; set_solver).
    rewrite (prefix_between value d u Hvv Hvd Hp (proj1 Hd) Hdu) in Hsd. done.
Qed.
Lemma intern_prefix_cost previous b value previous' b' :
  intern_prefix (previous, b) value = Some (previous', b') →
  fst <$> previous' = Some value ∧
  (∀ v, v ≠ value → references b' !! v = references b !! v) ∧
  byte_len (arena b') = byte_len (arena b) +
    (if decide (references b !! value = None) then
       match previous with
       | Some (d, _) => if starts_with value d then 0 else byte_len value
       | None => byte_len value
       end
     else 0).
Proof.
  unfold intern_prefix. destruct (references b !! value) as [r|] eqn:E.
  { intros [= <- <-]. rewrite decide_False by done. split_and!; [done|done|lia]. }
  rewrite decide_True by done.
  assert (Hintern : ('(reference, b) ← intern b value; Some (Some (value, reference), b)) = Some (previous', b') →
    fst <$> previous' = Some value ∧ (∀ v, v ≠ value → references b' !! v = references b !! v) ∧
    byte_len (arena b') = byte_len (arena b) + byte_len value).
  { unfold intern. rewrite E. intros ((r & b1) & ((r0 & t) & Ha & [= <- <-])%bind_Some & [= <- <-])%bind_Some.
    apply arena_append_spec in Ha as [-> _]. split_and!; [done| |by apply byte_len_app].
    intros v Hv. by apply lookup_insert_ne. }
  destruct previous as [[d r]|]; [|done]. destruct (starts_with value d); [|done].
  intros (n & _ & [= <- <-])%bind_Some. split_and!; [done| |simpl; lia].
  intros v Hv. by apply lookup_insert_ne.
Qed.
Lemma intern_each_cost known before values previous b b' :
  Forall valid_text (before ++ values) → StronglySorted descending (before ++ values) →
  fst <$> previous = last before → (∀ v, v ∈ values → references b !! v = known !! v) →
  intern_each (previous, b) values = Some b' →
  byte_len (arena b') = byte_len (arena b) + total_bytes (stored known (before ++ values) values).
Proof.
  revert before previous b. induction values as [|value values IH]; intros before previous b Hv Hs Hp Hk; cbn [intern_each].
  { intros [= <-]. unfold stored, total_bytes. simpl. lia. }
  intros ((p & b1) & H1 & H2)%bind_Some.
  destruct (intern_prefix_cost previous b value p b1 H1) as (Hp1 & Hk1 & Hlen1).
  assert (Hnot : value ∉ values).
  { apply StronglySorted_app_1_r, StronglySorted_cons in Hs as [Hf _]. rewrite Forall_forall in Hf.
    intros Hin. by destruct (Hf value Hin). }
  pose proof (previous_decides before value values Hv Hs) as Hmax.
  rewrite (cons_middle value before values) in *.
  rewrite (IH (before ++ [value]) p b1); [|by rewrite <-app_assoc| |by rewrite last_snoc| |done].
  - rewrite <-app_assoc. rewrite Hlen1. rewrite (Hk value) by left.
    unfold stored, total_bytes. rewrite filter_cons. cbn [app] in *. rewrite Hmax.
    rewrite <-Hp. destruct (decide (known !! value = None)) as [Hn|Hn].
    + destruct previous as [[d r]|]; cbn [fmap option_fmap option_map fst].
      * destruct (starts_with value d); cbn [negb]; [rewrite decide_False by (by intros []); lia|].
        rewrite decide_True by done. rewrite fmap_cons. simpl. lia.
      * rewrite decide_True by done. rewrite fmap_cons. simpl. lia.
    + rewrite decide_False by (by intros []). lia.
  - by rewrite <-app_assoc.
  - intros v Hin. rewrite Hk1 by (intros ->; done). apply Hk. by right.
Qed.

(** A text pool gives back every text and stores no prefix twice.  After a
    batch of prefixes, every reference handed out, before the batch or by it,
    reads exactly its text in the finished arena, on character boundaries and
    within it; every value of the batch has one; nothing that had a reference
    has moved; and the arena has grown by exactly the new values that are not
    a prefix of another value of the batch. *)
Theorem text_pool_shares b values b' :
  Forall valid_text values → pool_ok b → intern_prefixes b values = Some b' →
  (∀ v r, references b' !! v = Some r → read_ref (finish b') r = Some v) ∧
  (∀ v, v ∈ values → is_Some (references b' !! v)) ∧
  (∀ v r, references b !! v = Some r → references b' !! v = Some r) ∧
  byte_len (finish b') = byte_len (finish b) + total_bytes (stored (references b) values (remove_dups values)).
Proof.
  intros Hv Hok Hi. destruct (intern_prefixes_spec b values b' Hok Hi) as (Hok' & [_ Hsub] & Hall).
  split_and!; [exact Hok'|exact Hall|intros v r Hr; by eapply lookup_weaken|].
  unfold intern_prefixes in Hi. set (sorted := dedup _) in Hi.
  assert (Hmem : ∀ v, v ∈ sorted ↔ v ∈ values).
  { intros v. unfold sorted. by rewrite dedup_elem_of, sort_unstable_permutes. }
  assert (Hvs : Forall valid_text sorted).
  { rewrite Forall_forall in Hv |- *. intros v Hin%Hmem. by apply Hv. }
  assert (Hsorted : StronglySorted descending sorted).
  { unfold sorted. assert (Hcut : ∀ l : list text, Forall valid_text l →
      StronglySorted (λ a b, cmp_le str_cmp b a) l → StronglySorted descending (dedup l)).
    { clear. induction l as [|x l IH]; intros Hv Hs; [constructor|].
      apply StronglySorted_cons in Hs as [Hf Hs]. apply Forall_cons in Hv as [Hx Hv]. rewrite dedup_cons.
      destruct l as [|y l]; [by repeat constructor|]. case_decide as Hd; [by apply IH|].
      apply StronglySorted_cons. split; [|by apply IH]. rewrite Forall_forall in Hf, Hv |- *.
      intros z Hz. rewrite dedup_elem_of in Hz. split; [by apply Hf|]. intros ->. apply Hd.
      apply utf8_inj; [done|apply Hv; left|]. apply (anti_symm (cmp_le (list_cmp N.compare))); [|apply Hf; left].
      apply elem_of_cons in Hz as [->|Hz]; [apply Hf; left|].
      apply StronglySorted_cons in Hs as [Hf' _]. rewrite Forall_forall in Hf'. by apply Hf'. }
    apply Hcut.
    - rewrite Forall_forall in Hv |- *. intros v. rewrite sort_unstable_permutes. apply Hv.
    - apply (sort_unstable_sorts (λ a b, str_cmp b a)). split; intros.
      + apply (compare_opp str_cmp).
      + by eapply (compare_le_trans str_cmp). }
  unfold finish. rewrite (intern_each_cost (references b) [] sorted None b b' Hvs Hsorted eq_refl ltac:(done) Hi).
  f_equal. unfold total_bytes. cbn [app].
  assert (Hnd : NoDup sorted).
  { clear -Hsorted. induction Hsorted as [|x l _ IH Hf]; constructor; [|done].
    rewrite Forall_forall in Hf. intros Hx. by destruct (Hf x Hx). }
  assert (Hperm : stored (references b) sorted sorted ≡ₚ stored (references b) values (remove_dups values)).
  { unfold stored. apply NoDup_Permutation; [by apply NoDup_filter|apply NoDup_filter, NoDup_remove_dups|].
    intros v. rewrite !list_elem_of_filter, elem_of_remove_dups, Hmem.
    assert (maximal sorted v = maximal values v) as ->; [|done].
    unfold maximal. f_equal. apply eq_true_iff_eq. rewrite !existsb_exists.
    split; intros (u & Hu%list_elem_of_In & Hp); exists u; (split; [|done]); apply list_elem_of_In; by apply Hmem. }
  assert (Hsum : ∀ l k : list nat, l ≡ₚ k → sum_list l = sum_list k).
  { clear. induction 1; simpl; lia. }
  apply Hsum. by rewrite Hperm.
Qed.
End sharing.

(** [/a/b/] holds [/a] and [/a/]; [c] is the only other text stored. *)
Lemma text_pool_shares_witness :
  ∃ b', intern_prefixes pool_default [lit "/a/"; lit "c"; lit "/a/b/"; lit "/a"; lit "/a/"] = Some b' ∧
    (∀ v r, references b' !! v = Some r → read_ref (finish b') r = Some v) ∧ byte_len (finish b') = 6.
Proof.
  destruct (intern_prefixes pool_default [lit "/a/"; lit "c"; lit "/a/b/"; lit "/a"; lit "/a/"]) as [b'|] eqn:Hi.
  - exists b'. split; [reflexivity|].
    destruct (text_pool_shares pool_default [lit "/a/"; lit "c"; lit "/a/b/"; lit "/a"; lit "/a/"] b')
      as (Hread & _ & _ & Hlen); [by_decide|apply map_Forall_empty|exact Hi|].
    split; [exact Hread|]. rewrite Hlen. vm_compute. reflexivity.
  - exfalso. vm_compute in Hi. discriminate Hi.
Defined.
