(* ===== verification/EntryChunk.v ===== *)
(** * core/src/entry_table.rs, [EntryChunk]: a block of rows as columns

    A block of up to 4096 rows keeps every field in a column of its own:
    integers in packed columns, texts as ranges of one arena, paths as two
    ranges cut after the last slash, low-cardinality labels as indices into a
    table, flags as bits, and the properties of the few rows that have any in
    a map.  Fields of one type are a family indexed by the field's name.
    Reading a row back, or changing one, never panics and never changes
    another row: the theorems relate the columns to the list of rows. *)
From stdpp Require Import functions.
From S2P Require Import Prelude Text TextView Float QueryLex QueryNumber QuerySyntax FileEntry.
From S2P Require Import Columns IntegerColumn TextPool.

(** ** The fields *)

Inductive I64Field := FId | FModified | FCreated | FChanged | FModifiedNs | FChangedNs.
Inductive U64Field := FSize | FFileId | FParentId.
Inductive NameField := FName | FFoldedName | FSearchName | FParent.
Inductive PathField := FPath | FFoldedPath | FSearchPath.
Inductive LabelField := FExtension | FFoldedExtension | FVolumeId.
#[export] Instance i64_field_dec : EqDecision I64Field.
Proof. solve_decision. Defined.
#[export] Instance u64_field_dec : EqDecision U64Field.
Proof. solve_decision. Defined.
#[export] Instance name_field_dec : EqDecision NameField.
Proof. solve_decision. Defined.
#[export] Instance path_field_dec : EqDecision PathField.
Proof. solve_decision. Defined.
#[export] Instance label_field_dec : EqDecision LabelField.
Proof. solve_decision. Defined.

Record PathRef := { prefix : TextRef; suffix : TextRef }.
#[export] Instance path_ref_eq_dec : EqDecision PathRef.
Proof. solve_decision. Defined.
(** The layout of the references in a mapped block: little-endian [u32]s. *)
Definition text_ref_elem : elem TextRef := {|
  elem_size := 8;
  to_bits r := (N.of_nat (offset r) + 2 ^ 32 * N.of_nat (length_ r))%N;
  from_bits n := {| offset := N.to_nat (n mod 2 ^ 32); length_ := N.to_nat (n / 2 ^ 32) |};
  fits_in r := (N.of_nat (offset r) ≤ u32_max)%N ∧ (N.of_nat (length_ r) ≤ u32_max)%N;
|}.
Definition path_ref_elem : elem PathRef := {|
  elem_size := 16;
  to_bits r := (to_bits text_ref_elem (prefix r) + 2 ^ 64 * to_bits text_ref_elem (suffix r))%N;
  from_bits n := {| prefix := from_bits text_ref_elem (n mod 2 ^ 64); suffix := from_bits text_ref_elem (n / 2 ^ 64) |};
  fits_in r := fits_in text_ref_elem (prefix r) ∧ fits_in text_ref_elem (suffix r);
|}.

(** [TextData]: the arena, owned or in the mapped cache file, whose text
    region the cache has validated. *)
Inductive TextData := TOwned (t : text) | TMapped (t : text).
Definition data_text (d : TextData) : text := match d with TOwned t | TMapped t => t end.

(** serde_json's [Value], as the properties column uses it.  Its equality takes
    the numbers 0.0 and -0.0 for one: a [Value] here is a value up to [==]. *)
Class JsonShape `{Json} := {
  json_null : Value;
  json_object : Value;              (* [{}] *)
  is_null : Value → bool;
  is_empty_object : Value → bool;   (* [as_object().is_some_and(|map| map.is_empty())] *)
  value_eqb : Value → Value → bool;
}.
Class JsonShapeLaws `{JsonShape} : Prop := {
  is_null_true v : is_null v = true ↔ v = json_null;
  is_empty_object_true v : is_empty_object v = true ↔ v = json_object;
  value_eqb_true v w : value_eqb v w = true → v = w;
}.

(** A model of the interface. *)
#[export] Instance simple_json_shape : JsonShape := {
  json_null := JNull;
  json_object := JObject [];
  is_null v := match v with JNull => true | _ => false end;
  is_empty_object v := match v with JObject [] => true | _ => false end;
  value_eqb v w := match v, w with
                   | JText a, JText b => bool_decide (a = b)
                   | JBool a, JBool b => bool_decide (a = b)
                   | _, _ => false
                   end;
}.
#[export] Instance simple_json_shape_laws : JsonShapeLaws.
Proof.
  split.
  - intros v. destruct v; by split.
  - intros v. destruct v as [[|]| | | | |]; by split.
  - intros v w. destruct v, w; simpl; try done; intros Hb%bool_decide_eq_true; by f_equal.
Qed.

Section chunk.
Context `{JsonShape} {Sec : Type}.

Definition row_i64 (f : I64Field) (row : IndexedFile) : Z :=
  match f with
  | FId => i_id row | FModified => i_modified row | FCreated => i_created row
  | FChanged => i_changed row | FModifiedNs => i_modified_ns row | FChangedNs => i_changed_ns row
  end.
Definition row_u64 (f : U64Field) (row : IndexedFile) : N :=
  match f with FSize => i_size row | FFileId => i_file_id row | FParentId => i_parent_id row end.
Definition row_name (f : NameField) (row : IndexedFile) : text :=
  match f with
  | FName => i_name row | FFoldedName => i_folded_name row
  | FSearchName => i_search_name row | FParent => i_parent row
  end.
Definition row_path (f : PathField) (row : IndexedFile) : text :=
  match f with FPath => i_path row | FFoldedPath => i_folded_path row | FSearchPath => i_search_path row end.
Definition row_label (f : LabelField) (row : IndexedFile) : text :=
  match f with
  | FExtension => i_extension row | FFoldedExtension => i_folded_extension row | FVolumeId => i_volume_id row
  end.

Record EntryChunk := {
  section : option Sec;
  i64s : I64Field → IntegerData Z;
  u64s : U64Field → IntegerData N;
  flags_column : IntegerData N;
  names : NameField → Column TextRef;
  paths : PathField → Column PathRef;
  label_columns : LabelField → IntegerData N;
  states : Column N;
  data : TextData;
  labels : list text;
  property_map : gmap nat Value;
  pending_text : option (gmap text TextRef);
}.
Definition chunk_default : EntryChunk := {|
  section := None;
  i64s _ := Raw (Owned []); u64s _ := Raw (Owned []); flags_column := Raw (Owned []);
  names _ := Owned []; paths _ := Owned []; label_columns _ := Raw (Owned []);
  states := Owned []; data := TOwned []; labels := []; property_map := ∅; pending_text := None;
|}.
Definition chunk_len (c : EntryChunk) : nat := integer_len scalar_i64 (i64s c FId).

(** Changing one field of the struct. *)
Definition with_section (s : option Sec) (c : EntryChunk) : EntryChunk := {|
  section := s; i64s := i64s c; u64s := u64s c; flags_column := flags_column c; names := names c;
  paths := paths c; label_columns := label_columns c; states := states c; data := data c;
  labels := labels c; property_map := property_map c; pending_text := pending_text c |}.
Definition with_i64 (f : I64Field) (d : IntegerData Z) (c : EntryChunk) : EntryChunk := {|
  section := section c; i64s := <[f:=d]> (i64s c); u64s := u64s c; flags_column := flags_column c;
  names := names c; paths := paths c; label_columns := label_columns c; states := states c;
  data := data c; labels := labels c; property_map := property_map c; pending_text := pending_text c |}.
Definition with_u64 (f : U64Field) (d : IntegerData N) (c : EntryChunk) : EntryChunk := {|
  section := section c; i64s := i64s c; u64s := <[f:=d]> (u64s c); flags_column := flags_column c;
  names := names c; paths := paths c; label_columns := label_columns c; states := states c;
  data := data c; labels := labels c; property_map := property_map c; pending_text := pending_text c |}.
Definition with_flags (d : IntegerData N) (c : EntryChunk) : EntryChunk := {|
  section := section c; i64s := i64s c; u64s := u64s c; flags_column := d; names := names c;
  paths := paths c; label_columns := label_columns c; states := states c; data := data c;
  labels := labels c; property_map := property_map c; pending_text := pending_text c |}.
Definition with_name (f : NameField) (col : Column TextRef) (c : EntryChunk) : EntryChunk := {|
  section := section c; i64s := i64s c; u64s := u64s c; flags_column := flags_column c;
  names := <[f:=col]> (names c); paths := paths c; label_columns := label_columns c;
  states := states c; data := data c; labels := labels c; property_map := property_map c;
  pending_text := pending_text c |}.
Definition with_path (f : PathField) (col : Column PathRef) (c : EntryChunk) : EntryChunk := {|
  section := section c; i64s := i64s c; u64s := u64s c; flags_column := flags_column c;
  names := names c; paths := <[f:=col]> (paths c); label_columns := label_columns c;
  states := states c; data := data c; labels := labels c; property_map := property_map c;
  pending_text := pending_text c |}.
Definition with_label (f : LabelField) (d : IntegerData N) (c : EntryChunk) : EntryChunk := {|
  section := section c; i64s := i64s c; u64s := u64s c; flags_column := flags_column c;
  names := names c; paths := paths c; label_columns := <[f:=d]> (label_columns c);
  states := states c; data := data c; labels := labels c; property_map := property_map c;
  pending_text := pending_text c |}.
Definition with_states (col : Column N) (m : gmap nat Value) (c : EntryChunk) : EntryChunk := {|
  section := section c; i64s := i64s c; u64s := u64s c; flags_column := flags_column c;
  names := names c; paths := paths c; label_columns := label_columns c; states := col;
  data := data c; labels := labels c; property_map := m; pending_text := pending_text c |}.
Definition with_text (d : TextData) (p : option (gmap text TextRef)) (c : EntryChunk) : EntryChunk := {|
  section := section c; i64s := i64s c; u64s := u64s c; flags_column := flags_column c;
  names := names c; paths := paths c; label_columns := label_columns c; states := states c;
  data := d; labels := labels c; property_map := property_map c; pending_text := p |}.
Definition with_labels (l : list text) (c : EntryChunk) : EntryChunk := {|
  section := section c; i64s := i64s c; u64s := u64s c; flags_column := flags_column c;
  names := names c; paths := paths c; label_columns := label_columns c; states := states c;
  data := data c; labels := l; property_map := property_map c; pending_text := pending_text c |}.

(** ** Reading: [EntryView] *)

Definition text_at (c : EntryChunk) (r : TextRef) : option text := read_ref (data_text (data c)) r.
Definition path_at (c : EntryChunk) (r : PathRef) : option TextView :=
  p ← text_at c (prefix r); s ← text_at c (suffix r); Some {| v_prefix := p; v_suffix := s |}.
Definition view_i64 (c : EntryChunk) (f : I64Field) (slot : nat) : option Z := integer_get scalar_i64 (i64s c f) slot.
Definition view_u64 (c : EntryChunk) (f : U64Field) (slot : nat) : option N := integer_get scalar_u64 (u64s c f) slot.
Definition view_flags (c : EntryChunk) (slot : nat) : option N := integer_get scalar_u32 (flags_column c) slot.
Definition view_name (c : EntryChunk) (f : NameField) (slot : nat) : option text :=
  r ← column_values text_ref_elem (names c f) !! slot; text_at c r.
Definition view_path (c : EntryChunk) (f : PathField) (slot : nat) : option TextView :=
  r ← column_values path_ref_elem (paths c f) !! slot; path_at c r.
Definition view_label (c : EntryChunk) (f : LabelField) (slot : nat) : option text :=
  i ← integer_get scalar_u32 (label_columns c f) slot; labels c !! N.to_nat i.
Definition view_state (c : EntryChunk) (bit : N) (slot : nat) : option bool :=
  state ← column_values u8 (states c) !! slot; Some (negb (N.land state bit =? 0)%N).
Definition view_properties (c : EntryChunk) (slot : nat) : option Value :=
  state ← column_values u8 (states c) !! slot;
  if negb (N.land state 16 =? 0)%N then property_map c !! slot
  else Some (if negb (N.land state 8 =? 0)%N then json_null else json_object).
(** Every accessor of a row at once: [to_owned_file]. *)
Definition row_at (c : EntryChunk) (slot : nat) : option IndexedFile :=
  id ← view_i64 c FId slot; size ← view_u64 c FSize slot;
  modified ← view_i64 c FModified slot; created ← view_i64 c FCreated slot;
  changed ← view_i64 c FChanged slot; modified_ns ← view_i64 c FModifiedNs slot;
  changed_ns ← view_i64 c FChangedNs slot; file_id ← view_u64 c FFileId slot;
  parent_id ← view_u64 c FParentId slot; flags ← view_flags c slot;
  path ← view_path c FPath slot; name ← view_name c FName slot;
  folded_name ← view_name c FFoldedName slot; folded_path ← view_path c FFoldedPath slot;
  search_name ← view_name c FSearchName slot; search_path ← view_path c FSearchPath slot;
  parent ← view_name c FParent slot; extension ← view_label c FExtension slot;
  folded_extension ← view_label c FFoldedExtension slot; volume_id ← view_label c FVolumeId slot;
  is_dir ← view_state c 1 slot; is_symlink ← view_state c 2 slot;
  content_indexed ← view_state c 4 slot; properties ← view_properties c slot;
  Some {| i_id := id; i_size := size; i_modified := modified; i_created := created;
          i_changed := changed; i_modified_ns := modified_ns; i_changed_ns := changed_ns;
          i_file_id := file_id; i_parent_id := parent_id; i_flags := flags;
          i_path := view_bytes path; i_name := name; i_folded_name := folded_name;
          i_folded_path := view_bytes folded_path; i_search_name := search_name;
          i_search_path := view_bytes search_path; i_parent := parent; i_extension := extension;
          i_folded_extension := folded_extension; i_volume_id := volume_id; i_is_dir := is_dir;
          i_is_symlink := is_symlink; i_content_indexed := content_indexed; i_properties := properties |}.

(** ** Writing *)

(** [TextData::append]: a mapped region is copied first. *)
Definition data_append (d : TextData) (value : text) : option (TextRef * TextData) :=
  '(r, t) ← arena_append (data_text d) value; Some (r, TOwned t).
(** [EntryChunk::label] *)
Fixpoint position (l : list text) (value : text) : option nat :=
  match l with
  | [] => None
  | x :: l => if bool_decide (x = value) then Some 0 else S <$> position l value
  end.
Definition label (c : EntryChunk) (value : text) : N * EntryChunk :=
  match position (labels c) value with
  | Some index => ((N.of_nat index mod 2 ^ 32)%N, c)
  | None => ((N.of_nat (length (labels c)) mod 2 ^ 32)%N, with_labels (labels c ++ [value]) c)
  end.
(** The references in the order the dictionary is filled. *)
Definition all_refs (c : EntryChunk) : list TextRef :=
  ([FName; FFoldedName; FSearchName; FParent] ≫= λ f, column_values text_ref_elem (names c f)) ++
  ([FPath; FFoldedPath; FSearchPath] ≫= λ f,
     column_values path_ref_elem (paths c f) ≫= λ p, [prefix p; suffix p]).
(** [entry(..).or_insert(reference)] *)
Definition add_ref (c : EntryChunk) (dictionary : gmap text TextRef) (r : TextRef) : option (gmap text TextRef) :=
  value ← text_at c r;
  Some (match dictionary !! value with Some _ => dictionary | None => <[value:=r]> dictionary end).
Fixpoint add_refs (c : EntryChunk) (dictionary : gmap text TextRef) (l : list TextRef) : option (gmap text TextRef) :=
  match l with
  | [] => Some dictionary
  | r :: l => dictionary ← add_ref c dictionary r; add_refs c dictionary l
  end.
Definition intern_update (c : EntryChunk) (value : text) : option (TextRef * EntryChunk) :=
  dictionary ← match pending_text c with
               | Some dictionary => Some dictionary
               | None => add_refs c ∅ (all_refs c)
               end;
  match dictionary !! value with
  | Some r => Some (r, with_text (data c) (Some dictionary) c)
  | None =>
    '(r, d) ← data_append (data c) value;
    Some (r, with_text d (Some (<[value:=r]> dictionary)) c)
  end.
(** [rfind('/').map_or(0, |i| i + 1)] and the two halves. *)
Definition last_slash (l : text) : nat := match rposition 47 l with Some i => S i | None => 0 end.
Definition split_path (value : text) : text * text := (take (last_slash value) value, drop (last_slash value) value).
Definition intern_path (c : EntryChunk) (value : text) : option (PathRef * EntryChunk) :=
  let '(front, back) := split_path value in
  '(p, c) ← intern_update c front;
  '(s, c) ← intern_update c back;
  Some ({| prefix := p; suffix := s |}, c).

Definition set_i64 (slot : nat) (row : IndexedFile) (c : EntryChunk) (f : I64Field) : option EntryChunk :=
  d ← integer_set scalar_i64 (i64s c f) slot (row_i64 f row); Some (with_i64 f d c).
Definition set_u64 (slot : nat) (row : IndexedFile) (c : EntryChunk) (f : U64Field) : option EntryChunk :=
  d ← integer_set scalar_u64 (u64s c f) slot (row_u64 f row); Some (with_u64 f d c).
Definition set_flags (slot : nat) (row : IndexedFile) (c : EntryChunk) : option EntryChunk :=
  d ← integer_set scalar_u32 (flags_column c) slot (i_flags row); Some (with_flags d c).
(** [is_none_or(..)]: the range read for the comparison panics out of bounds. *)
Definition name_differs (c : EntryChunk) (f : NameField) (slot : nat) (row : IndexedFile) : option bool :=
  match column_values text_ref_elem (names c f) !! slot with
  | None => Some true
  | Some r => t ← text_at c r; Some (negb (bool_decide (t = row_name f row)))
  end.
Definition set_name (slot : nat) (row : IndexedFile) (c : EntryChunk) (f : NameField) : option EntryChunk :=
  differs ← name_differs c f slot row;
  if (differs : bool) then
    '(r, c) ← intern_update c (row_name f row);
    col ← column_set text_ref_elem (names c f) slot r;
    Some (with_name f col c)
  else Some c.
Definition path_differs (c : EntryChunk) (f : PathField) (slot : nat) (row : IndexedFile) : option bool :=
  match column_values path_ref_elem (paths c f) !! slot with
  | None => Some true
  | Some r => v ← path_at c r; Some (negb (bool_decide (view_bytes v = row_path f row)))
  end.
Definition set_path (slot : nat) (row : IndexedFile) (c : EntryChunk) (f : PathField) : option EntryChunk :=
  differs ← path_differs c f slot row;
  if (differs : bool) then
    '(r, c) ← intern_path c (row_path f row);
    col ← column_set path_ref_elem (paths c f) slot r;
    Some (with_path f col c)
  else Some c.
(** The parent borrows the front of the path's prefix where it can. *)
Definition set_parent (slot : nat) (row : IndexedFile) (c : EntryChunk) : option EntryChunk :=
  differs ← name_differs c FParent slot row;
  if (differs : bool) then
    r ← column_values path_ref_elem (paths c FPath) !! slot;
    t ← text_at c (prefix r);
    '(r, c) ← (if starts_with (i_parent row) t then
                 n ← as_u32 (byte_len (i_parent row));
                 Some ({| offset := offset (prefix r); length_ := n |}, c)
               else intern_update c (i_parent row));
    col ← column_set text_ref_elem (names c FParent) slot r;
    Some (with_name FParent col c)
  else Some c.
Definition set_label (slot : nat) (row : IndexedFile) (c : EntryChunk) (f : LabelField) : option EntryChunk :=
  let '(index, c) := label c (row_label f row) in
  d ← integer_set scalar_u32 (label_columns c f) slot index;
  Some (with_label f d c).
Definition bit (b : bool) (n : N) : N := if b then n else 0%N.
Definition state_bits (row : IndexedFile) : N :=
  let empty := is_empty_object (i_properties row) in
  let null := is_null (i_properties row) in
  N.lor (N.lor (N.lor (N.lor (bit (i_is_dir row) 1) (bit (i_is_symlink row) 2))
    (bit (i_content_indexed row) 4)) (bit null 8)) (bit (negb empty && negb null) 16).
Definition set_properties (slot : nat) (row : IndexedFile) (c : EntryChunk) : option EntryChunk :=
  let properties := i_properties row in
  col ← column_set u8 (states c) slot (state_bits row);
  let m :=
    if negb (is_empty_object properties) && negb (is_null properties) then
      match property_map c !! slot with
      | Some value => if value_eqb value properties then property_map c else <[slot:=properties]> (property_map c)
      | None => <[slot:=properties]> (property_map c)
      end
    else delete slot (property_map c) in
  Some (with_states col m c).
(** The assignments from [id] to [flags], and from [extension] on. *)
Definition set_integers (slot : nat) (row : IndexedFile) (c : EntryChunk) : option EntryChunk :=
  c ← set_i64 slot row c FId;
  c ← set_u64 slot row c FSize;
  c ← fold_option (set_i64 slot row) [FModified; FCreated; FChanged; FModifiedNs; FChangedNs] c;
  c ← fold_option (set_u64 slot row) [FFileId; FParentId] c;
  set_flags slot row c.
Definition set_rest (slot : nat) (row : IndexedFile) (c : EntryChunk) : option EntryChunk :=
  c ← fold_option (set_label slot row) [FExtension; FFoldedExtension; FVolumeId] c;
  set_properties slot row c.
(** [EntryChunk::set], in the order of the code. *)
Definition set (c : EntryChunk) (slot : nat) (row : IndexedFile) : option EntryChunk :=
  let c := with_section None c in
  c ← set_integers slot row c;
  c ← fold_option (set_name slot row) [FSearchName; FName; FFoldedName] c;
  c ← set_path slot row c FPath;
  c ← set_parent slot row c;
  c ← fold_option (set_path slot row) [FFoldedPath; FSearchPath] c;
  set_rest slot row c.

(** [compact_integers]: equal text columns share their storage, which is not
    visible in the values; every integer column is packed. *)
Definition compact_integers (c : EntryChunk) : EntryChunk :=
  let share_name f g names :=
    if bool_decide (column_values text_ref_elem (names f) = column_values text_ref_elem (names g))
    then <[f:=names g]> names else names in
  let share_path f g paths :=
    if bool_decide (column_values path_ref_elem (paths f) = column_values path_ref_elem (paths g))
    then <[f:=paths g]> paths else paths in
  {| section := section c;
     i64s := compact scalar_i64 ∘ i64s c; u64s := compact scalar_u64 ∘ u64s c;
     flags_column := compact scalar_u32 (flags_column c);
     names := share_name FSearchName FFoldedName (share_name FFoldedName FName (names c));
     paths := share_path FSearchPath FFoldedPath (share_path FFoldedPath FPath (paths c));
     label_columns := compact scalar_u32 ∘ label_columns c;
     states := states c; data := data c; labels := labels c; property_map := property_map c;
     pending_text := None |}.

End chunk.
Arguments EntryChunk {_} Sec.

(** ** The columns hold the rows *)

Section proofs.
Context `{JsonShapeLaws} {Sec : Type}.
Notation EntryChunk := (EntryChunk Sec).
Implicit Types (c : EntryChunk) (rows : list IndexedFile).

Inductive Field := FI (f : I64Field) | FU (f : U64Field) | FFlags | FN (f : NameField) | FP (f : PathField)
  | FL (f : LabelField) | FStates.
#[export] Instance field_dec : EqDecision Field.
Proof. solve_decision. Defined.

(** The integers of a row are machine integers. *)
Definition row_ok (row : IndexedFile) : Prop :=
  (∀ f, fits_in i64 (row_i64 f row)) ∧ (∀ f, fits_in u64 (row_u64 f row)) ∧ fits_in u32 (i_flags row).
Definition reads {T} (s : scalar T) (d : IntegerData T) (vs : list T) : Prop :=
  integer_ok s d ∧ for_each s d = Some vs.
(** One field of the block, over the arena [t]. *)
Definition field_ok (t : text) (c : EntryChunk) (field : Field) (rows : list IndexedFile) : Prop :=
  match field with
  | FI f => reads scalar_i64 (i64s c f) (row_i64 f <$> rows)
  | FU f => reads scalar_u64 (u64s c f) (row_u64 f <$> rows)
  | FFlags => reads scalar_u32 (flags_column c) (i_flags <$> rows)
  | FN f => Forall2 (λ r row, read_ref t r = Some (row_name f row)) (column_values text_ref_elem (names c f)) rows
  | FP f => Forall2 (λ p row, ∃ a b, read_ref t (prefix p) = Some a ∧ read_ref t (suffix p) = Some b ∧
                                split_path (row_path f row) = (a, b)) (column_values path_ref_elem (paths c f)) rows
  | FL f => ∃ indices, reads scalar_u32 (label_columns c f) indices ∧
              Forall2 (λ i row, labels c !! N.to_nat i = Some (row_label f row)) indices rows
  | FStates => column_values u8 (states c) = state_bits <$> rows ∧
      ∀ slot row, rows !! slot = Some row → N.land (state_bits row) 16 ≠ 0%N →
        property_map c !! slot = Some (i_properties row)
  end.
Definition pending_ok (t : text) (c : EntryChunk) : Prop :=
  ∀ d, pending_text c = Some d → map_Forall (λ v r, read_ref t r = Some v) d.
(** Each field holds its own rows, as it does half way through an update. *)
Definition fields_ok (t : text) (c : EntryChunk) (R : Field → list IndexedFile) : Prop :=
  pending_ok t c ∧ ∀ field, field_ok t c field (R field).
(** The block holds the rows. *)
Definition chunk_ok (c : EntryChunk) (rows : list IndexedFile) : Prop :=
  fields_ok (data_text (data c)) c (λ _, rows).
Definition put (rows : list IndexedFile) (slot : nat) (row : IndexedFile) : list IndexedFile :=
  if slot =? length rows then rows ++ [row] else <[slot:=row]> rows.

Lemma fmap_put {A} (g : IndexedFile → A) rows slot row :
  g <$> put rows slot row = if slot =? length (g <$> rows) then (g <$> rows) ++ [g row] else <[slot:=g row]> (g <$> rows).
Proof. unfold put. rewrite length_fmap. case_match; [by rewrite fmap_app|by rewrite list_fmap_insert]. Qed.
Lemma put_lookup rows slot row i : slot ≤ length rows →
  put rows slot row !! i = if decide (i = slot) then Some row else rows !! i.
Proof.
  intros Hs. unfold put. destruct (Nat.eqb_spec slot (length rows)) as [->|Hne].
  - destruct (decide (i = length rows)) as [->|].
    + by rewrite lookup_app_r, Nat.sub_diag by lia.
    + destruct (decide (i < length rows)); [by rewrite lookup_app_l|].
      rewrite lookup_ge_None_2 by (rewrite length_app; simpl; lia). symmetry. apply lookup_ge_None_2. lia.
  - destruct (decide (i = slot)) as [->|]; [by rewrite list_lookup_insert_eq by lia|by rewrite list_lookup_insert_ne].
Qed.
Lemma put_length rows slot row : slot ≤ length rows →
  length (put rows slot row) = if slot =? length rows then S (length rows) else length rows.
Proof. intros. unfold put. case_match; [rewrite length_app; simpl; lia|apply length_insert]. Qed.
Lemma Forall2_put {A} (P : A → IndexedFile → Prop) xs rows slot x row :
  Forall2 P xs rows → P x row →
  Forall2 P (if slot =? length xs then xs ++ [x] else <[slot:=x]> xs) (put rows slot row).
Proof.
  intros Hf Hx. rewrite (Forall2_length _ _ _ Hf). unfold put. case_match.
  - apply Forall2_app; [done|]. by repeat constructor.
  - by apply Forall2_insert.
Qed.

(** Reading the fields is reading the row. *)
Lemma state_bits_spec row :
  negb (N.land (state_bits row) 1 =? 0)%N = i_is_dir row ∧
  negb (N.land (state_bits row) 2 =? 0)%N = i_is_symlink row ∧
  negb (N.land (state_bits row) 4 =? 0)%N = i_content_indexed row ∧
  negb (N.land (state_bits row) 8 =? 0)%N = is_null (i_properties row) ∧
  negb (N.land (state_bits row) 16 =? 0)%N =
    negb (is_empty_object (i_properties row)) && negb (is_null (i_properties row)).
Proof.
  unfold state_bits. destruct (i_is_dir row), (i_is_symlink row), (i_content_indexed row),
    (is_null (i_properties row)), (is_empty_object (i_properties row)); done.
Qed.
Lemma reads_get {T} (s : scalar T) `{!EqDecision T, !ScalarLaws s} d vs slot :
  reads s d vs → integer_get s d slot = vs !! slot.
Proof. intros [Hok Hvs]. destruct (reads_spec s d Hok) as (vs' & Hvs' & _ & _ & Hget). rewrite Hget. congruence. Qed.
Lemma reads_len {T} (s : scalar T) `{!EqDecision T, !ScalarLaws s} d vs :
  reads s d vs → integer_len s d = length vs.
Proof. intros [Hok Hvs]. destruct (reads_spec s d Hok) as (vs' & Hvs' & Hlen & _). congruence. Qed.
Lemma view_i64_ok t c f rows slot : field_ok t c (FI f) rows → view_i64 c f slot = row_i64 f <$> rows !! slot.
Proof. intros Hr. unfold view_i64. rewrite (reads_get scalar_i64 _ _ slot Hr). apply list_lookup_fmap. Qed.
Lemma view_u64_ok t c f rows slot : field_ok t c (FU f) rows → view_u64 c f slot = row_u64 f <$> rows !! slot.
Proof. intros Hr. unfold view_u64. rewrite (reads_get scalar_u64 _ _ slot Hr). apply list_lookup_fmap. Qed.
Lemma view_flags_ok t c rows slot : field_ok t c FFlags rows → view_flags c slot = i_flags <$> rows !! slot.
Proof. intros Hr. unfold view_flags. rewrite (reads_get scalar_u32 _ _ slot Hr). apply list_lookup_fmap. Qed.
Lemma view_name_ok c f rows slot :
  field_ok (data_text (data c)) c (FN f) rows → view_name c f slot = row_name f <$> rows !! slot.
Proof.
  intros Hr. unfold view_name. simpl in Hr. destruct (rows !! slot) as [row|] eqn:E.
  - destruct (Forall2_lookup_r _ _ _ _ _ Hr E) as (r & -> & Hread). exact Hread.
  - apply lookup_ge_None in E. rewrite <-(Forall2_length _ _ _ Hr) in E. by rewrite lookup_ge_None_2.
Qed.
Lemma split_path_app value : (split_path value).1 ++ (split_path value).2 = value.
Proof. apply take_drop. Qed.
Lemma split_path_len value : byte_len (split_path value).1 + byte_len (split_path value).2 = byte_len value.
Proof. by rewrite <-byte_len_app, split_path_app. Qed.
Lemma split_path_eq value a b : split_path value = (a, b) → a ++ b = value.
Proof. intros Hv. pose proof (split_path_app value) as Ha. by rewrite Hv in Ha. Qed.
Lemma view_path_ok c f rows slot :
  field_ok (data_text (data c)) c (FP f) rows → view_bytes <$> view_path c f slot = row_path f <$> rows !! slot.
Proof.
  intros Hr. unfold view_path, path_at, text_at. simpl in Hr. destruct (rows !! slot) as [row|] eqn:E.
  - destruct (Forall2_lookup_r _ _ _ _ _ Hr E) as (r & -> & a & b & Ha & Hb & Hab).
    cbn [mbind option_bind fmap option_fmap option_map]. rewrite Ha, Hb. by rewrite <-(split_path_eq _ _ _ Hab).
  - apply lookup_ge_None in E. rewrite <-(Forall2_length _ _ _ Hr) in E. by rewrite lookup_ge_None_2.
Qed.
Lemma view_label_ok t c f rows slot : field_ok t c (FL f) rows → view_label c f slot = row_label f <$> rows !! slot.
Proof.
  intros (indices & Hr & Hf). unfold view_label. rewrite (reads_get scalar_u32 _ _ slot Hr).
  destruct (rows !! slot) as [row|] eqn:E.
  - destruct (Forall2_lookup_r _ _ _ _ _ Hf E) as (i & -> & Hi). exact Hi.
  - apply lookup_ge_None in E. rewrite <-(Forall2_length _ _ _ Hf) in E. by rewrite lookup_ge_None_2.
Qed.
Lemma view_state_ok t c rows slot row :
  field_ok t c FStates rows → rows !! slot = Some row →
  view_state c 1 slot = Some (i_is_dir row) ∧ view_state c 2 slot = Some (i_is_symlink row) ∧
  view_state c 4 slot = Some (i_content_indexed row) ∧ view_properties c slot = Some (i_properties row).
Proof.
  intros [Hs Hp] Hrow. unfold view_state, view_properties. rewrite Hs, list_lookup_fmap, Hrow.
  cbn [fmap option_fmap option_map mbind option_bind]. destruct (state_bits_spec row) as (-> & -> & -> & E8 & E16).
  split_and!; [done..|]. rewrite E8, E16. destruct (negb (is_empty_object _) && negb (is_null _)) eqn:E.
  - apply (Hp slot row Hrow). apply N.eqb_neq, negb_true_iff. congruence.
  - f_equal. apply andb_false_iff in E. rewrite !negb_false_iff in E.
    destruct (is_null (i_properties row)) eqn:En.
    + symmetry. by apply is_null_true.
    + destruct E as [E|E]; [|done]. symmetry. by apply is_empty_object_true.
Qed.
(** A block reads as its rows; out of range it panics. *)
Lemma row_at_spec c rows slot : chunk_ok c rows → row_at c slot = rows !! slot.
Proof.
  intros [_ Hf]. unfold row_at.
  rewrite !(view_i64_ok _ c _ rows slot (Hf (FI _))), !(view_u64_ok _ c _ rows slot (Hf (FU _))),
    (view_flags_ok _ c rows slot (Hf FFlags)), !(view_name_ok c _ rows slot (Hf (FN _))),
    !(view_label_ok _ c _ rows slot (Hf (FL _))).
  pose proof (λ f, view_path_ok c f rows slot (Hf (FP f))) as Hpath.
  destruct (rows !! slot) as [row|] eqn:E; [|done].
  destruct (view_state_ok _ c rows slot row (Hf FStates) E) as (-> & -> & -> & ->).
  cbn [fmap option_fmap option_map mbind option_bind].
  assert (Hview : ∀ f, ∃ v, view_path c f slot = Some v ∧ view_bytes v = row_path f row).
  { intros f. specialize (Hpath f). simpl in Hpath. destruct (view_path c f slot) as [v|]; [|done].
    exists v. split; [done|]. by injection Hpath. }
  destruct (Hview FPath) as (v1 & -> & E1), (Hview FFoldedPath) as (v2 & -> & E2), (Hview FSearchPath) as (v3 & -> & E3).
  cbn [mbind option_bind]. rewrite E1, E2, E3. by destruct row.
Qed.

(** ** Changing one field *)

Lemma field_ok_more t more c field rows : field_ok t c field rows → field_ok (t ++ more) c field rows.
Proof.
  destruct field; try done; simpl; intros Hf; (eapply Forall2_impl; [exact Hf|]).
  - intros r row. apply read_ref_app.
  - intros r row (a & b & Ha & Hb & Hab). exists a, b. split_and!; [by apply read_ref_app..|done].
Qed.
Lemma fields_ok_more t more c R : fields_ok t c R → fields_ok (t ++ more) c R.
Proof.
  intros [Hp Hf]. split; [|intros field; by apply field_ok_more].
  intros d Hd v r Hr. apply read_ref_app. by apply (Hp d).
Qed.
(** [c'] differs from [c] in one field only, which holds [rows]. *)
Lemma fields_ok_change t c c' R field rows :
  fields_ok t c R → pending_text c' = pending_text c →
  (∀ field' l, field' ≠ field → field_ok t c field' l → field_ok t c' field' l) →
  field_ok t c' field rows → fields_ok t c' (<[field:=rows]> R).
Proof.
  intros [Hp Hf] Hpend Hother Hnew. split.
  - intros d. rewrite Hpend. apply Hp.
  - intros field'. destruct (decide (field = field')) as [<-|Hne].
    + by rewrite fn_lookup_insert.
    + rewrite fn_lookup_insert_ne by done. by apply Hother.
Qed.
Ltac other_field :=
  let field := fresh "field" in let l := fresh "l" in let Hne := fresh "Hne" in
  intros field l Hne; destruct field; simpl; try done;
  rewrite fn_lookup_insert_ne by congruence; done.

(** How much a step may have added to the arena and to the labels. *)
Definition grew (c c' : EntryChunk) (bytes labels_ : nat) : Prop :=
  byte_len (data_text (data c')) ≤ byte_len (data_text (data c)) + bytes ∧
  length (labels c') ≤ length (labels c) + labels_ ∧ section c' = section c.
Lemma grew_same c c' : data c' = data c → labels c' = labels c → section c' = section c → grew c c' 0 0.
Proof. intros Hd Hl Hs. unfold grew. rewrite Hd, Hl. split_and!; [lia|lia|done]. Qed.
Lemma grew_trans c c1 c2 a b l k : grew c c1 a l → grew c1 c2 b k → grew c c2 (a + b) (l + k).
Proof. intros (Ha & Hl & Hs) (Hb & Hk & Hs'). split_and!; [lia|lia|congruence]. Qed.
(** One step of [set]: it does not panic, and its field has the row. *)
Definition steps (c : EntryChunk) (R : Field → list IndexedFile) (slot : nat) (row : IndexedFile)
    (fields : list Field) (bytes labels_ : nat) (result : option EntryChunk) : Prop :=
  ∃ c', result = Some c' ∧ grew c c' bytes labels_ ∧
    fields_ok (data_text (data c')) c'
      (foldl (λ R field, <[field := put (R field) slot row]> R) R fields).

Lemma integer_step {T} `{!EqDecision T} (s : scalar T) `{!ScalarLaws s} d rows (g : IndexedFile → T) slot row :
  reads s d (g <$> rows) → fits_in (s_elem s) (g row) → slot ≤ length rows →
  ∃ d', integer_set s d slot (g row) = Some d' ∧ reads s d' (g <$> put rows slot row).
Proof.
  intros [Hok Hvs] Hfit Hslot.
  destruct (set_spec s d (g <$> rows) slot (g row) Hok Hvs Hfit) as (d' & Hd' & Hok' & Hvs').
  { by rewrite length_fmap. }
  exists d'. split; [done|]. split; [done|]. by rewrite Hvs', fmap_put.
Qed.
Lemma set_i64_step c R slot row f :
  fields_ok (data_text (data c)) c R → row_ok row → slot ≤ length (R (FI f)) →
  steps c R slot row [FI f] 0 0 (set_i64 slot row c f).
Proof.
  intros Hok (Hfit & _ & _) Hslot. pose proof (proj2 Hok (FI f)) as Hf.
  destruct (integer_step scalar_i64 (i64s c f) (R (FI f)) (row_i64 f) slot row Hf (Hfit f) Hslot) as (d & Hd & Hr).
  exists (with_i64 f d c). unfold set_i64. rewrite Hd. split_and!; [done|by apply grew_same|].
  apply (fields_ok_change _ c); [done|done|other_field|]. simpl. by rewrite fn_lookup_insert.
Qed.
Lemma set_u64_step c R slot row f :
  fields_ok (data_text (data c)) c R → row_ok row → slot ≤ length (R (FU f)) →
  steps c R slot row [FU f] 0 0 (set_u64 slot row c f).
Proof.
  intros Hok (_ & Hfit & _) Hslot. pose proof (proj2 Hok (FU f)) as Hf.
  destruct (integer_step scalar_u64 (u64s c f) (R (FU f)) (row_u64 f) slot row Hf (Hfit f) Hslot) as (d & Hd & Hr).
  exists (with_u64 f d c). unfold set_u64. rewrite Hd. split_and!; [done|by apply grew_same|].
  apply (fields_ok_change _ c); [done|done|other_field|]. simpl. by rewrite fn_lookup_insert.
Qed.
Lemma set_flags_step c R slot row :
  fields_ok (data_text (data c)) c R → row_ok row → slot ≤ length (R FFlags) →
  steps c R slot row [FFlags] 0 0 (set_flags slot row c).
Proof.
  intros Hok (_ & _ & Hfit) Hslot. pose proof (proj2 Hok FFlags) as Hf.
  destruct (integer_step scalar_u32 (flags_column c) (R FFlags) i_flags slot row Hf Hfit Hslot) as (d & Hd & Hr).
  exists (with_flags d c). unfold set_flags. rewrite Hd. split_and!; [done|by apply grew_same|].
  apply (fields_ok_change _ c); [done|done|by intros []|done].
Qed.

(** *** Texts *)

Lemma all_refs_read t c R r : fields_ok t c R → r ∈ all_refs c → ∃ v, read_ref t r = Some v.
Proof.
  intros [_ Hf]. unfold all_refs. rewrite elem_of_app, !list_elem_of_bind.
  intros [(f & Hr & _)|(f & (p & Hp & Hin)%list_elem_of_bind & _)].
  - pose proof (Hf (FN f)) as Hn. simpl in Hn. apply list_elem_of_lookup in Hr as (i & Hi).
    destruct (Forall2_lookup_l _ _ _ _ _ Hn Hi) as (row & _ & Hread). eauto.
  - pose proof (Hf (FP f)) as Hn. simpl in Hn. apply list_elem_of_lookup in Hin as (i & Hi).
    destruct (Forall2_lookup_l _ _ _ _ _ Hn Hi) as (row & _ & a & b & Ha & Hb & _).
    rewrite !elem_of_cons, elem_of_nil in Hp. destruct Hp as [->|[->|[]]]; eauto.
Qed.
Lemma add_refs_spec c d l :
  (∀ r, r ∈ l → ∃ v, text_at c r = Some v) → map_Forall (λ v r, text_at c r = Some v) d →
  ∃ d', add_refs c d l = Some d' ∧ map_Forall (λ v r, text_at c r = Some v) d'.
Proof.
  revert d. induction l as [|r l IH]; intros d Hl Hd; simpl; [by exists d|].
  destruct (Hl r) as [v Hv]; [left|]. unfold add_ref. rewrite Hv. cbn [mbind option_bind].
  apply IH; [intros r' Hr'; apply Hl; by right|]. destruct (d !! v); [done|]. by apply map_Forall_insert_2.
Qed.
Lemma intern_update_spec c R value :
  fields_ok (data_text (data c)) c R →
  (N.of_nat (byte_len (data_text (data c)) + byte_len value) ≤ u32_max)%N →
  ∃ r c', intern_update c value = Some (r, c') ∧ fields_ok (data_text (data c')) c' R ∧
    grew c c' (byte_len value) 0 ∧ read_ref (data_text (data c')) r = Some value ∧
    names c' = names c ∧ paths c' = paths c ∧ (∃ more, data_text (data c') = data_text (data c) ++ more).
Proof.
  intros Hok Hroom. unfold intern_update.
  assert (Hd : ∃ d, match pending_text c with Some d => Some d | None => add_refs c ∅ (all_refs c) end = Some d ∧
    map_Forall (λ v r, read_ref (data_text (data c)) r = Some v) d).
  { destruct (pending_text c) as [d|] eqn:E; [exists d; split; [done|by apply Hok]|].
    apply (add_refs_spec c ∅ (all_refs c)); [|apply map_Forall_empty]. intros r. by apply (all_refs_read _ c R). }
  destruct Hd as (d & -> & Hd). cbn [mbind option_bind].
  assert (Hwith : ∀ x p more, data_text x = data_text (data c) ++ more →
    map_Forall (λ v r, read_ref (data_text x) r = Some v) p → fields_ok (data_text x) (with_text x (Some p) c) R).
  { intros x p more -> Hp. destruct (fields_ok_more _ more c R Hok) as [_ Hf]. split; [|done].
    by intros p' [= <-]. }
  destruct (d !! value) as [r|] eqn:E.
  - exists r, (with_text (data c) (Some d) c). split_and!; [done| |split_and!; simpl; lia || done|by apply Hd|done|done|].
    + apply (Hwith _ _ []); [by rewrite app_nil_r|done].
    + exists []. by rewrite app_nil_r.
  - apply arena_append_fits in Hroom as [[r t] Ha]. unfold data_append. rewrite Ha. cbn [mbind option_bind].
    apply arena_append_spec in Ha as [-> Hr].
    exists r, (with_text (TOwned (data_text (data c) ++ value)) (Some (<[value:=r]> d)) c).
    split_and!; [done| | |done|done|done|by exists value].
    + apply (Hwith _ _ value); [done|]. apply map_Forall_insert_2; [done|].
      intros v r' Hv. by apply read_ref_app, Hd.
    + split_and!; [simpl; rewrite byte_len_app; lia|simpl; lia|done].
Qed.
Lemma name_put_ok t c R slot row f r :
  fields_ok t c R → slot ≤ length (R (FN f)) → read_ref t r = Some (row_name f row) →
  ∃ col, column_set text_ref_elem (names c f) slot r = Some col ∧
    fields_ok t (with_name f col c) (<[FN f := put (R (FN f)) slot row]> R).
Proof.
  intros Hok Hslot Hr. pose proof (proj2 Hok (FN f)) as Hf. simpl in Hf.
  destruct (column_set_spec text_ref_elem (names c f) slot r) as (col & Hcol & Hvalues).
  { by rewrite (Forall2_length _ _ _ Hf). }
  exists col. split; [done|]. apply (fields_ok_change _ c); [done|done|other_field|].
  simpl. rewrite fn_lookup_insert, Hvalues. by apply Forall2_put.
Qed.
(** Leaving a field that already has the value is setting it. *)
Lemma put_same_name t c R slot row f r v :
  field_ok t c (FN f) (R (FN f)) → column_values text_ref_elem (names c f) !! slot = Some r →
  read_ref t r = Some v → v = row_name f row → field_ok t c (FN f) (put (R (FN f)) slot row).
Proof.
  intros Hf Hr Hread ->. simpl in *. rewrite <-(list_insert_id _ _ _ Hr).
  pose proof (Forall2_put _ _ _ slot r row Hf Hread) as Hput.
  rewrite (proj2 (Nat.eqb_neq _ _)) in Hput; [done|]. apply lookup_lt_Some in Hr. lia.
Qed.
Lemma set_name_step c R slot row f :
  fields_ok (data_text (data c)) c R → slot ≤ length (R (FN f)) →
  (N.of_nat (byte_len (data_text (data c)) + byte_len (row_name f row)) ≤ u32_max)%N →
  steps c R slot row [FN f] (byte_len (row_name f row)) 0 (set_name slot row c f).
Proof.
  intros Hok Hslot Hroom. pose proof (proj2 Hok (FN f)) as Hf. unfold set_name, name_differs, steps, text_at.
  assert (Hset : ∃ c', (('(r, c) ← intern_update c (row_name f row);
      col ← column_set text_ref_elem (names c f) slot r; Some (with_name f col c)) = Some c') ∧
    grew c c' (byte_len (row_name f row)) 0 ∧
    fields_ok (data_text (data c')) c' (<[FN f := put (R (FN f)) slot row]> R)).
  { destruct (intern_update_spec c R (row_name f row) Hok Hroom) as (r & c1 & -> & Hok1 & Hg & Hr & _).
    cbn [mbind option_bind]. destruct (name_put_ok _ c1 R slot row f r Hok1 Hslot Hr) as (col & -> & Hok2).
    by eexists. }
  destruct (column_values text_ref_elem (names c f) !! slot) as [r|] eqn:Er; [|exact Hset].
  simpl in Hf. destruct (Forall2_lookup_l _ _ _ _ _ Hf Er) as (old & Hold & Hread). rewrite Hread.
  cbn [mbind option_bind]. case_bool_decide as Heq; cbn [negb]; [|exact Hset].
  exists c. split_and!; [done|unfold grew; split_and!; [lia|lia|done]|].
  apply (fields_ok_change _ c); [done|done|done|]. by apply (put_same_name _ c R slot row f r (row_name f old)).
Qed.

Lemma path_put_ok t c R slot row f p a b :
  fields_ok t c R → slot ≤ length (R (FP f)) →
  read_ref t (prefix p) = Some a → read_ref t (suffix p) = Some b → split_path (row_path f row) = (a, b) →
  ∃ col, column_set path_ref_elem (paths c f) slot p = Some col ∧
    fields_ok t (with_path f col c) (<[FP f := put (R (FP f)) slot row]> R).
Proof.
  intros Hok Hslot Ha Hb Hab. pose proof (proj2 Hok (FP f)) as Hf. simpl in Hf.
  destruct (column_set_spec path_ref_elem (paths c f) slot p) as (col & Hcol & Hvalues).
  { by rewrite (Forall2_length _ _ _ Hf). }
  exists col. split; [done|]. apply (fields_ok_change _ c); [done|done|other_field|].
  simpl. rewrite fn_lookup_insert, Hvalues. apply Forall2_put; [done|]. by exists a, b.
Qed.
Lemma intern_path_spec c R value :
  fields_ok (data_text (data c)) c R →
  (N.of_nat (byte_len (data_text (data c)) + byte_len value) ≤ u32_max)%N →
  ∃ p c' a b, intern_path c value = Some (p, c') ∧ fields_ok (data_text (data c')) c' R ∧
    grew c c' (byte_len value) 0 ∧ read_ref (data_text (data c')) (prefix p) = Some a ∧
    read_ref (data_text (data c')) (suffix p) = Some b ∧ split_path value = (a, b).
Proof.
  intros Hok Hroom. pose proof (split_path_len value) as Hlen.
  unfold intern_path. destruct (split_path value) as [front back] eqn:Hsplit. simpl in Hlen.
  destruct (intern_update_spec c R front Hok) as (r1 & c1 & -> & Hok1 & Hg1 & Hr1 & _); [lia|].
  cbn [mbind option_bind].
  destruct (intern_update_spec c1 R back Hok1) as (r2 & c2 & -> & Hok2 & Hg2 & Hr2 & _ & _ & (more & Hmore)).
  { destruct Hg1. lia. }
  cbn [mbind option_bind]. exists {| prefix := r1; suffix := r2 |}, c2, front, back.
  split_and!; [done|done| |simpl; rewrite Hmore; by apply read_ref_app|done|done].
  rewrite <-Hlen. by apply (grew_trans _ c1 _ _ _ 0 0).
Qed.
Lemma set_path_step c R slot row f :
  fields_ok (data_text (data c)) c R → slot ≤ length (R (FP f)) →
  (N.of_nat (byte_len (data_text (data c)) + byte_len (row_path f row)) ≤ u32_max)%N →
  steps c R slot row [FP f] (byte_len (row_path f row)) 0 (set_path slot row c f).
Proof.
  intros Hok Hslot Hroom. pose proof (proj2 Hok (FP f)) as Hf. unfold set_path, path_differs, steps, path_at, text_at.
  assert (Hset : ∃ c', (('(r, c) ← intern_path c (row_path f row);
      col ← column_set path_ref_elem (paths c f) slot r; Some (with_path f col c)) = Some c') ∧
    grew c c' (byte_len (row_path f row)) 0 ∧
    fields_ok (data_text (data c')) c' (<[FP f := put (R (FP f)) slot row]> R)).
  { destruct (intern_path_spec c R (row_path f row) Hok Hroom) as (r & c1 & a & b & -> & Hok1 & Hg & Ha & Hb & Hab).
    cbn [mbind option_bind]. destruct (path_put_ok _ c1 R slot row f r a b Hok1 Hslot Ha Hb Hab) as (col & -> & Hok2).
    by eexists. }
  destruct (column_values path_ref_elem (paths c f) !! slot) as [r|] eqn:Er; [|exact Hset].
  simpl in Hf. destruct (Forall2_lookup_l _ _ _ _ _ Hf Er) as (old & Hold & a & b & Ha & Hb & Hab). rewrite Ha, Hb.
  cbn [mbind option_bind]. case_bool_decide as Heq; cbn [negb]; [|exact Hset]. unfold view_bytes in Heq. simpl in Heq.
  exists c. split_and!; [done|unfold grew; split_and!; [lia|lia|done]|].
  apply (fields_ok_change _ c); [done|done|done|]. simpl. rewrite <-(list_insert_id _ _ _ Er).
  assert (Hput : ∃ a b, read_ref (data_text (data c)) (prefix r) = Some a ∧
    read_ref (data_text (data c)) (suffix r) = Some b ∧ split_path (row_path f row) = (a, b)).
  { exists a, b. split_and!; [done..|]. by rewrite <-Heq, (split_path_eq _ _ _ Hab). }
  pose proof (Forall2_put _ _ _ slot r row Hf Hput) as Hall.
  rewrite (proj2 (Nat.eqb_neq _ _)) in Hall; [done|]. apply lookup_lt_Some in Er. lia.
Qed.
Lemma set_parent_step c R slot row :
  fields_ok (data_text (data c)) c R → slot ≤ length (R (FN FParent)) → slot < length (R (FP FPath)) →
  (N.of_nat (byte_len (data_text (data c)) + byte_len (i_parent row)) ≤ u32_max)%N →
  steps c R slot row [FN FParent] (byte_len (i_parent row)) 0 (set_parent slot row c).
Proof.
  intros Hok Hslot Hpath Hroom. pose proof (proj2 Hok (FN FParent)) as Hf. pose proof (proj2 Hok (FP FPath)) as Hp.
  unfold set_parent, name_differs, steps, text_at.
  assert (Hset : ∃ c', ((r ← column_values path_ref_elem (paths c FPath) !! slot;
    t ← read_ref (data_text (data c)) (prefix r);
    '(r, c) ← (if starts_with (i_parent row) t then
                 n ← as_u32 (byte_len (i_parent row));
                 Some ({| offset := offset (prefix r); length_ := n |}, c)
               else intern_update c (i_parent row));
    col ← column_set text_ref_elem (names c FParent) slot r;
    Some (with_name FParent col c)) = Some c') ∧
    grew c c' (byte_len (i_parent row)) 0 ∧
    fields_ok (data_text (data c')) c' (<[FN FParent := put (R (FN FParent)) slot row]> R)).
  { simpl in Hp. destruct (lookup_lt_is_Some_2 (R (FP FPath)) slot Hpath) as [prow Hprow].
    destruct (Forall2_lookup_r _ _ _ _ _ Hp Hprow) as (p & -> & a & b & Ha & Hb & Hab).
    cbn [mbind option_bind]. rewrite Ha. cbn [mbind option_bind].
    destruct (starts_with (i_parent row) a) eqn:Hs.
    - apply strip_prefix_dec in Hs as [w ->]. unfold as_u32.
      rewrite (proj2 (N.leb_le _ _)) by lia. cbn [mbind option_bind].
      pose proof (read_ref_prefix _ _ _ _ Ha) as Hr.
      destruct (name_put_ok _ c R slot row FParent _ Hok Hslot Hr) as (col & -> & Hok2).
      eexists. split_and!; [done|unfold grew; split_and!; simpl; lia || done|done].
    - destruct (intern_update_spec c R (i_parent row) Hok Hroom) as (r & c1 & -> & Hok1 & Hg & Hr & _).
      cbn [mbind option_bind]. destruct (name_put_ok _ c1 R slot row FParent r Hok1 Hslot Hr) as (col & -> & Hok2).
      by eexists. }
  destruct (column_values text_ref_elem (names c FParent) !! slot) as [r|] eqn:Er; [|exact Hset].
  simpl in Hf. destruct (Forall2_lookup_l _ _ _ _ _ Hf Er) as (old & Hold & Hread). rewrite Hread.
  cbn [mbind option_bind]. case_bool_decide as Heq; cbn [negb]; [|exact Hset].
  exists c. split_and!; [done|unfold grew; split_and!; [lia|lia|done]|].
  apply (fields_ok_change _ c); [done|done|done|]. by apply (put_same_name _ c R slot row FParent r (i_parent old)).
Qed.

(** *** Labels and states *)

Lemma position_spec l value : match position l value with
  | Some i => l !! i = Some value | None => value ∉ l end.
Proof.
  induction l as [|x l IH]; simpl; [apply not_elem_of_nil|]. case_bool_decide as Heq; [by subst|].
  destruct (position l value) as [i|]; simpl; [done|]. rewrite elem_of_cons. naive_solver.
Qed.
Lemma set_label_step c R slot row f :
  fields_ok (data_text (data c)) c R → slot ≤ length (R (FL f)) →
  (N.of_nat (length (labels c)) < u32_max)%N →
  steps c R slot row [FL f] 0 1 (set_label slot row c f).
Proof.
  intros Hok Hslot Hroom. unfold set_label, label, steps.
  set (value := row_label f row).
  assert (Hput : ∀ index l more, l = labels c ++ more → l !! index = Some value → length l ≤ S (length (labels c)) →
    ∃ d, integer_set scalar_u32 (label_columns c f) slot (N.of_nat index mod 2 ^ 32)%N = Some d ∧
      fields_ok (data_text (data c)) (with_label f d (with_labels l c)) (<[FL f := put (R (FL f)) slot row]> R)).
  { intros index l more -> Hl Hlen. pose proof (lookup_lt_Some _ _ _ Hl) as Hidx. unfold u32_max in Hroom.
    rewrite N.mod_small by lia. destruct (proj2 Hok (FL f)) as (indices & [Hiok Hvs] & Hf2).
    destruct (set_spec scalar_u32 (label_columns c f) indices slot (N.of_nat index) Hiok Hvs) as (d & Hd & Hdok & Hdvs).
    { simpl. change (256 ^ 4)%N with 4294967296%N. lia. }
    { by rewrite (Forall2_length _ _ _ Hf2). }
    exists d. split; [done|].
    assert (Hweak : ∀ i (r : IndexedFile) g, labels c !! N.to_nat i = Some (row_label g r) →
      (labels c ++ more) !! N.to_nat i = Some (row_label g r)) by (intros; by apply lookup_app_l_Some).
    apply (fields_ok_change _ c); [done|done| |].
    - intros field l Hne. destruct field; simpl; try done. intros (idx & Hr & Hall).
      rewrite fn_lookup_insert_ne by congruence. exists idx. split; [done|].
      eapply Forall2_impl; [exact Hall|]. intros i r. apply Hweak.
    - simpl. rewrite fn_lookup_insert. eexists. split; [split; [done|exact Hdvs]|].
      apply Forall2_put; [|by rewrite Nat2N.id].
      eapply Forall2_impl; [exact Hf2|]. intros i r. apply Hweak. }
  pose proof (position_spec (labels c) value) as Hpos. destruct (position (labels c) value) as [index|].
  - destruct (Hput index (labels c) []) as (d & -> & Hok'); [by rewrite app_nil_r|done|lia|].
    eexists. split_and!; [done|unfold grew; split_and!; simpl; lia || done|]. simpl.
    replace (with_label f d c) with (with_label f d (with_labels (labels c) c)) by (by destruct c). done.
  - destruct (Hput (length (labels c)) (labels c ++ [value]) [value]) as (d & Hd & Hok');
      [done|by rewrite lookup_app_r, Nat.sub_diag by lia|rewrite length_app; simpl; lia|].
    change (label_columns (with_labels (labels c ++ [value]) c)) with (label_columns c). rewrite Hd.
    eexists. split_and!; [done| |done]. unfold grew. simpl. rewrite length_app. simpl. split_and!; lia || done.
Qed.
Lemma set_properties_step c R slot row :
  fields_ok (data_text (data c)) c R → slot ≤ length (R FStates) →
  steps c R slot row [FStates] 0 0 (set_properties slot row c).
Proof.
  intros Hok Hslot. destruct (proj2 Hok FStates) as [Hs Hp]. unfold set_properties, steps.
  destruct (column_set_spec u8 (states c) slot (state_bits row)) as (col & -> & Hvalues).
  { rewrite Hs. by rewrite length_fmap. }
  cbn [mbind option_bind]. eexists. split_and!; [done|by apply grew_same|].
  apply (fields_ok_change _ c); [done|done|by intros []|]. simpl. split; [by rewrite Hvalues, Hs, fmap_put|].
  intros i r. rewrite put_lookup by done. destruct (state_bits_spec row) as (_ & _ & _ & _ & E16).
  case_decide as Hi; [subst i; intros [= <-] Hbit|intros Hr Hbit; specialize (Hp i r Hr Hbit)].
  - rewrite <-E16, (proj2 (N.eqb_neq _ _) Hbit). cbn [negb].
    destruct (property_map c !! slot) as [v|] eqn:Ev; [|by apply lookup_insert_eq].
    destruct (value_eqb v (i_properties row)) eqn:Eq; [|by apply lookup_insert_eq].
    apply value_eqb_true in Eq. congruence.
  - destruct (negb (is_empty_object _) && negb (is_null _)); [|by rewrite lookup_delete_ne].
    destruct (property_map c !! slot); [destruct (value_eqb _ _); [done|]|]; by rewrite lookup_insert_ne.
Qed.

(** *** A whole row *)

Definition after (slot : nat) (row : IndexedFile) (R : Field → list IndexedFile) (fields : list Field) :=
  foldl (λ R field, <[field := put (R field) slot row]> R) R fields.
Lemma after_length slot row R fields :
  (∀ f, slot ≤ length (R f)) → ∀ f, slot ≤ length (after slot row R fields f).
Proof.
  revert R. induction fields as [|g fields IH]; intros R HR; [exact HR|]. apply IH. intros f.
  destruct (decide (g = f)) as [<-|]; [|by rewrite fn_lookup_insert_ne].
  rewrite fn_lookup_insert, put_length by done. specialize (HR g). case_match; lia.
Qed.
Lemma steps_done c R slot row : fields_ok (data_text (data c)) c R → steps c R slot row [] 0 0 (Some c).
Proof. intros. exists c. split_and!; [done|by apply grew_same|done]. Qed.
Lemma steps_bind c R slot row fs gs a l b k (m : option EntryChunk) (f : EntryChunk → option EntryChunk) :
  steps c R slot row fs a l m →
  (∀ c', grew c c' a l → fields_ok (data_text (data c')) c' (after slot row R fs) →
     steps c' (after slot row R fs) slot row gs b k (f c')) →
  steps c R slot row (fs ++ gs) (a + b) (l + k) (m ≫= f).
Proof.
  intros (c1 & -> & Hg & Hok) Hf. destruct (Hf c1 Hg Hok) as (c2 & Hc2 & Hg2 & Hok2).
  exists c2. split_and!; [exact Hc2|by apply (grew_trans _ c1)|]. unfold after in Hok2. by rewrite foldl_app.
Qed.
(** The most bytes a row can add to the arena. *)
Definition row_bytes (row : IndexedFile) : nat :=
  byte_len (row_name FSearchName row) + byte_len (row_name FName row) + byte_len (row_name FFoldedName row) +
  byte_len (row_path FPath row) + byte_len (i_parent row) + byte_len (row_path FFoldedPath row) +
  byte_len (row_path FSearchPath row).
Lemma fields_ok_ext t c R R' : (∀ f, R f = R' f) → fields_ok t c R → fields_ok t c R'.
Proof. intros HR [Hp Hf]. split; [done|]. intros f. rewrite <-HR. apply Hf. Qed.

Ltac slots :=
  intros; lazymatch goal with |- _ ≤ length (after _ _ _ _ _) => apply after_length; slots | _ => eauto end.
Ltac set_step :=
  eapply steps_bind; [|
    let c := fresh "c" in let Hg := fresh "Hg" in let Hok := fresh "Hok" in
    intros c Hg Hok; destruct Hg as (? & ? & ?)].
Ltac set_steps leaf :=
  lazymatch goal with
  | |- steps _ _ _ _ _ _ _ (_ ≫= _) => set_step; [set_steps leaf|set_steps leaf]
  | |- steps _ _ _ _ _ _ _ (Some _) => by apply steps_done
  | _ => leaf
  end.
Ltac set_field :=
  idtac; lazymatch goal with
  | |- steps _ _ _ _ _ _ _ (set_i64 _ _ _ _) => apply set_i64_step; [done|done|slots]
  | |- steps _ _ _ _ _ _ _ (set_u64 _ _ _ _) => apply set_u64_step; [done|done|slots]
  | |- steps _ _ _ _ _ _ _ (set_flags _ _ _) => apply set_flags_step; [done|done|slots]
  | |- steps _ _ _ _ _ _ _ (set_label _ _ _ _) => apply set_label_step; [done|slots|lia]
  | |- steps _ _ _ _ _ _ _ (set_properties _ _ _) => apply set_properties_step; [done|slots]
  end.
Lemma set_integers_step c R slot row :
  fields_ok (data_text (data c)) c R → row_ok row → (∀ f, slot ≤ length (R f)) →
  steps c R slot row [FI FId; FU FSize; FI FModified; FI FCreated; FI FChanged; FI FModifiedNs; FI FChangedNs;
    FU FFileId; FU FParentId; FFlags] 0 0 (set_integers slot row c).
Proof.
  intros Hok Hrow Hslot. unfold set_integers. cbn [fold_option].
  lazymatch goal with |- steps _ _ _ _ _ _ _ ?body => eassert (Hs : steps c R slot row _ _ _ body) by set_steps ltac:(set_field) end.
  exact Hs.
Qed.
Lemma set_rest_step c R slot row :
  fields_ok (data_text (data c)) c R → (∀ f, slot ≤ length (R f)) →
  (N.of_nat (length (labels c)) + 3 ≤ u32_max)%N →
  steps c R slot row [FL FExtension; FL FFoldedExtension; FL FVolumeId; FStates] 0 3 (set_rest slot row c).
Proof.
  intros Hok Hslot Hroom. unfold set_rest. cbn [fold_option].
  lazymatch goal with |- steps _ _ _ _ _ _ _ ?body => eassert (Hs : steps c R slot row _ _ _ body) by set_steps ltac:(set_field) end.
  exact Hs.
Qed.
Ltac set_group :=
  idtac; lazymatch goal with
  | |- steps _ _ _ _ _ _ _ (set_integers _ _ _) => apply set_integers_step; [done|done|slots]
  | |- steps _ _ _ _ _ _ _ (set_name _ _ _ _) => apply set_name_step; [done|slots|lia]
  | |- steps _ _ _ _ _ _ _ (set_path _ _ _ _) => apply set_path_step; [done|slots|lia]
  | |- steps _ _ _ _ _ _ _ (set_parent _ _ _) => apply set_parent_step; [done|slots|assumption|lia]
  | |- steps _ _ _ _ _ _ _ (set_rest _ _ _) => apply set_rest_step; [done|slots|lia]
  end.
Lemma chunk_set_spec c rows slot row :
  chunk_ok c rows → row_ok row → slot ≤ length rows →
  (N.of_nat (byte_len (data_text (data c)) + row_bytes row) ≤ u32_max)%N →
  (N.of_nat (length (labels c)) + 3 ≤ u32_max)%N →
  ∃ c', set c slot row = Some c' ∧ chunk_ok c' (put rows slot row) ∧ section c' = None ∧
    byte_len (data_text (data c')) ≤ byte_len (data_text (data c)) + row_bytes row ∧
    length (labels c') ≤ length (labels c) + 3.
Proof.
  intros Hok Hrow Hslot Hbytes Hlabels. unfold row_bytes in *.
  assert (∃ c0, c0 = with_section None c) as [c0 Hc0] by eauto.
  assert (Hok0 : fields_ok (data_text (data c0)) c0 (λ _, rows)) by (rewrite Hc0; exact Hok).
  assert (Hs0 : section c0 = None) by (by rewrite Hc0).
  unfold set. rewrite <-Hc0.
  replace (data c) with (data c0) in * by (by rewrite Hc0).
  replace (labels c) with (labels c0) in * by (by rewrite Hc0). clear Hc0 Hok c.
  cbn [fold_option].
  assert (Hlt : slot < length (put rows slot row)).
  { rewrite put_length by done. destruct (Nat.eqb_spec slot (length rows)); lia. }
  lazymatch goal with |- ∃ c', ?body = Some c' ∧ _ =>
    eassert (Hsteps : steps c0 (λ _, rows) slot row _ _ _ body) by set_steps ltac:(set_group) end.
  destruct Hsteps as (c' & Heq & (Hb & Hl & Hs) & Hok). exists c'. split; [exact Heq|].
  split_and!; [|by rewrite Hs|lia|lia].
  apply (fields_ok_ext _ _ _ (λ _, put rows slot row)) in Hok; [exact Hok|]. by intros [[]|[]| |[]|[]|[]|].
Qed.

(** [compact_integers] changes no value. *)
Lemma compact_reads {T} (s : scalar T) `{!EqDecision T, !ScalarLaws s} d vs :
  reads s d vs → reads s (compact s d) vs.
Proof. intros [Hok Hvs]. destruct (compact_spec s d Hok) as [Heq Hok']. split; [done|]. by rewrite Heq. Qed.
Definition same_columns (c c' : EntryChunk) : Prop :=
  (∀ f, column_values text_ref_elem (names c' f) = column_values text_ref_elem (names c f)) ∧
  ∀ f, column_values path_ref_elem (paths c' f) = column_values path_ref_elem (paths c f).
Lemma share_values {F A} `{!EqDecision F, !EqDecision A} (e : elem A) (f g : F) (cols : F → Column A) h :
  column_values e ((if bool_decide (column_values e (cols f) = column_values e (cols g))
                    then <[f:=cols g]> cols else cols) h) = column_values e (cols h).
Proof.
  case_bool_decide as Heq; [|done]. destruct (decide (f = h)) as [<-|]; [|by rewrite fn_lookup_insert_ne].
  by rewrite fn_lookup_insert.
Qed.
Lemma compact_same_columns c : same_columns c (compact_integers c).
Proof. split; intros f; unfold compact_integers; cbn [names paths]; by rewrite !share_values. Qed.
Lemma compact_integers_spec c rows :
  (∀ field, field_ok (data_text (data c)) c field rows) → chunk_ok (compact_integers c) rows.
Proof.
  intros Hf. split; [done|]. destruct (compact_same_columns c) as [Hn Hp].
  intros [f|f| |f|f|f|]; simpl.
  - apply (compact_reads scalar_i64), (Hf (FI f)).
  - apply (compact_reads scalar_u64), (Hf (FU f)).
  - apply (compact_reads scalar_u32), (Hf FFlags).
  - pose proof (Hn f) as Hnf. simpl in Hnf. rewrite Hnf. apply (Hf (FN f)).
  - pose proof (Hp f) as Hpf. simpl in Hpf. rewrite Hpf. apply (Hf (FP f)).
  - destruct (Hf (FL f)) as (indices & Hr & Hall). exists indices. split; [by apply (compact_reads scalar_u32)|done].
  - apply (Hf FStates).
Qed.
Lemma chunk_len_spec c rows : chunk_ok c rows → chunk_len c = length rows.
Proof. intros [_ Hf]. unfold chunk_len. rewrite (reads_len _ _ _ (Hf (FI FId))). apply length_fmap. Qed.
Lemma chunk_default_ok : chunk_ok chunk_default [].
Proof. 
  split; [done|]. intros [f|f| |f|f|f|]; simpl; try (split; [constructor|done]); try constructor; try done.
  exists []. split; [split; [constructor|done]|constructor].
Qed.
End proofs.
