(* ===== verification/EntryPool.v ===== *)
(** * core/src/entry_table.rs, [EntryChunk::from_rows]

    A block built at once: the hottest names first, then the directory
    prefixes with every shorter one inside a longer one, then the columns row
    by row, all texts from one pool.  The block reads as the rows. *)
From stdpp Require Import functions.
From S2P Require Import Prelude Text TextView QuerySyntax FileEntry Columns IntegerColumn TextPool EntryChunk.

Section build.
Context `{JsonShape} {Sec : Type} `{!UnstableSort}.
Notation EntryChunk := (EntryChunk Sec).
Definition pool_path (b : TextPoolBuilder) (value : text) : option (PathRef * TextPoolBuilder) :=
  let '(front, back) := split_path value in
  '(p, b) ← intern b front;
  '(s, b) ← intern b back;
  Some ({| prefix := p; suffix := s |}, b).
Definition build_path (slot : nat) (row : IndexedFile) (st : EntryChunk * TextPoolBuilder) (f : PathField) :
    option (EntryChunk * TextPoolBuilder) :=
  let '(c, b) := st in
  '(r, b) ← pool_path b (row_path f row);
  col ← column_set path_ref_elem (paths c f) slot r;
  Some (with_path f col c, b).
Definition build_name (slot : nat) (row : IndexedFile) (st : EntryChunk * TextPoolBuilder) (f : NameField) :
    option (EntryChunk * TextPoolBuilder) :=
  let '(c, b) := st in
  '(r, b) ← intern b (row_name f row);
  col ← column_set text_ref_elem (names c f) slot r;
  Some (with_name f col c, b).
Definition build_row (st : EntryChunk * TextPoolBuilder) (slot_row : nat * IndexedFile) :
    option (EntryChunk * TextPoolBuilder) :=
  let '(c, b) := st in
  let '(slot, row) := slot_row in
  c ← set_integers slot row c;
  st ← fold_option (build_path slot row) [FPath; FFoldedPath; FSearchPath] (c, b);
  '(c, b) ← fold_option (build_name slot row) [FName; FFoldedName; FSearchName; FParent] st;
  c ← set_rest slot row c;
  Some (c, b).
Definition row_prefixes (row : IndexedFile) : list text :=
  [(split_path (i_path row)).1; (split_path (i_folded_path row)).1; (split_path (i_search_path row)).1; i_parent row].
Definition from_rows (rows : list IndexedFile) : option EntryChunk :=
  b ← fold_option (λ b row, snd <$> intern b (i_search_name row)) rows pool_default;
  b ← intern_prefixes b (rows ≫= row_prefixes);
  '(c, b) ← fold_option build_row (imap pair rows) (chunk_default, b);
  Some (compact_integers (with_text (TOwned (finish b)) (pending_text c) c)).
End build.

Section proofs.
Context `{JsonShapeLaws} {Sec : Type} `{!UnstableSort}.
Notation EntryChunk := (EntryChunk Sec).
Implicit Types (c : EntryChunk) (b : TextPoolBuilder).

(** ** The pool does not overflow *)

Lemma intern_fits b value :
  (N.of_nat (byte_len (arena b) + byte_len value) ≤ u32_max)%N →
  ∃ r b', intern b value = Some (r, b') ∧ byte_len (arena b') ≤ byte_len (arena b) + byte_len value.
Proof.
  intros Hroom. unfold intern. destruct (references b !! value) as [r|]; [exists r, b; split; [done|lia]|].
  apply arena_append_fits in Hroom as [[r t] Ha]. rewrite Ha. apply arena_append_spec in Ha as [-> _].
  eexists _, _. split; [done|]. simpl. by rewrite byte_len_app.
Qed.
Lemma intern_prefix_fits p b value :
  (N.of_nat (byte_len (arena b) + byte_len value) ≤ u32_max)%N →
  ∃ p' b', intern_prefix (p, b) value = Some (p', b') ∧ byte_len (arena b') ≤ byte_len (arena b) + byte_len value.
Proof.
  intros Hroom. unfold intern_prefix.
  assert (Hi : ∃ p' b', ('(reference, b) ← intern b value; Some (Some (value, reference), b)) = Some (p', b') ∧
    byte_len (arena b') ≤ byte_len (arena b) + byte_len value).
  { destruct (intern_fits b value Hroom) as (r & b' & -> & Hb). by eexists _, b'. }
  destruct (references b !! value) as [r|]; [eexists _, b; split; [done|lia]|].
  destruct p as [[d r]|]; [|done]. destruct (starts_with value d); [|done].
  unfold as_u32. rewrite (proj2 (N.leb_le _ _)) by lia. eexists _, _. split; [done|]. simpl. lia.
Qed.
Lemma total_bytes_cons v l : total_bytes (v :: l) = byte_len v + total_bytes l.
Proof. done. Qed.
Lemma total_bytes_app l k : total_bytes (l ++ k) = total_bytes l + total_bytes k.
Proof. induction l as [|v l IH]; [done|]. simpl app. rewrite !total_bytes_cons, IH. lia. Qed.
Lemma intern_each_fits values p b :
  (N.of_nat (byte_len (arena b) + total_bytes values) ≤ u32_max)%N →
  ∃ b', intern_each (p, b) values = Some b' ∧ byte_len (arena b') ≤ byte_len (arena b) + total_bytes values.
Proof.
  revert p b. induction values as [|value values IH]; intros p b Hroom; cbn [intern_each].
  { exists b. split; [done|lia]. }
  rewrite total_bytes_cons in *. destruct (intern_prefix_fits p b value) as (p1 & b1 & -> & Hb); [lia|].
  destruct (IH p1 b1) as (b2 & Hb2 & Hle); [lia|]. exists b2. split; [exact Hb2|lia].
Qed.
Lemma total_bytes_dedup values : total_bytes (dedup values) ≤ total_bytes values.
Proof.
  induction (dedup_sublist values) as [|x l k Hs IH|x l k Hs IH]; rewrite ?total_bytes_cons; [done|lia|lia].
Qed.
Lemma total_bytes_perm l k : l ≡ₚ k → total_bytes l = total_bytes k.
Proof. intros Hp. unfold total_bytes. by rewrite Hp. Qed.
Lemma intern_prefixes_fits b values :
  (N.of_nat (byte_len (arena b) + total_bytes values) ≤ u32_max)%N →
  ∃ b', intern_prefixes b values = Some b' ∧ byte_len (arena b') ≤ byte_len (arena b) + total_bytes values.
Proof.
  intros Hroom. unfold intern_prefixes.
  set (sorted := sort_unstable_by (λ x y, str_cmp y x) values).
  pose proof (total_bytes_dedup sorted) as Hd.
  rewrite (total_bytes_perm sorted values) in Hd by apply sort_unstable_permutes.
  destruct (intern_each_fits (dedup sorted) None b) as (b' & -> & Hle); [lia|]. exists b'. split; [done|lia].
Qed.

(** ** A row at a time *)

(** The block as it will be, with the pool's text. *)
Definition view (c : EntryChunk) (b : TextPoolBuilder) : EntryChunk := with_text (TOwned (arena b)) None c.
Definition built (c : EntryChunk) (b : TextPoolBuilder) (R : Field → list IndexedFile) : Prop :=
  pool_ok b ∧ fields_ok (arena b) (view c b) R.
Definition builds c b R slot row (fields : list Field) (bytes labels_ : nat)
    (result : option (EntryChunk * TextPoolBuilder)) : Prop :=
  ∃ c' b', result = Some (c', b') ∧ grew (view c b) (view c' b') bytes labels_ ∧
    built c' b' (after slot row R fields).
Lemma built_extends c b b' R : extends b b' → pool_ok b' → built c b R → built c b' R.
Proof.
  intros [[more Hmore] _] Hok' [_ Hf]. split; [done|]. rewrite Hmore.
  apply (fields_ok_more _ more) in Hf as [_ Hf]. split; [done|]. intros field. specialize (Hf field).
  by destruct field.
Qed.
Lemma intern_built c b R value :
  built c b R → (N.of_nat (byte_len (arena b) + byte_len value) ≤ u32_max)%N →
  ∃ r b', intern b value = Some (r, b') ∧ built c b' R ∧ extends b b' ∧ read_ref (arena b') r = Some value ∧
    grew (view c b) (view c b') (byte_len value) 0.
Proof.
  intros Hb Hroom. destruct (intern_fits b value Hroom) as (r & b' & Hi & Hlen).
  destruct (intern_spec b value r b' (proj1 Hb) Hi) as (Hok' & Hext & Hr & _).
  exists r, b'. split_and!; [done|by apply (built_extends _ b)|done|done|].
  unfold grew. simpl. split_and!; lia || done.
Qed.
Lemma build_name_step c b R slot row f :
  built c b R → slot ≤ length (R (FN f)) →
  (N.of_nat (byte_len (arena b) + byte_len (row_name f row)) ≤ u32_max)%N →
  builds c b R slot row [FN f] (byte_len (row_name f row)) 0 (build_name slot row (c, b) f).
Proof.
  intros Hb Hslot Hroom. unfold build_name.
  destruct (intern_built c b R (row_name f row) Hb Hroom) as (r & b' & -> & Hb' & _ & Hr & Hg).
  cbn [mbind option_bind].
  destruct (name_put_ok _ (view c b') R slot row f r (proj2 Hb') Hslot Hr) as (col & Hcol & Hok).
  simpl in Hcol. rewrite Hcol. exists (with_name f col c), b'. split_and!; [done|exact Hg|].
  exact (conj (proj1 Hb') Hok).
Qed.
Lemma build_path_step c b R slot row f :
  built c b R → slot ≤ length (R (FP f)) →
  (N.of_nat (byte_len (arena b) + byte_len (row_path f row)) ≤ u32_max)%N →
  builds c b R slot row [FP f] (byte_len (row_path f row)) 0 (build_path slot row (c, b) f).
Proof.
  intros Hb Hslot Hroom. unfold build_path, pool_path. pose proof (split_path_len (row_path f row)) as Hlen.
  destruct (split_path (row_path f row)) as [front back] eqn:Hsplit. simpl in Hlen.
  destruct (intern_built c b R front Hb) as (r1 & b1 & -> & Hb1 & _ & Hr1 & Hg1); [lia|].
  cbn [mbind option_bind].
  destruct (intern_built c b1 R back Hb1) as (r2 & b2 & -> & Hb2 & Hext & Hr2 & Hg2).
  { destruct Hg1 as (Hg1 & _). simpl in Hg1. lia. }
  cbn [mbind option_bind]. apply (extends_read _ _ _ _ Hext) in Hr1.
  destruct (path_put_ok _ (view c b2) R slot row f {| prefix := r1; suffix := r2 |} front back
    (proj2 Hb2) Hslot Hr1 Hr2 Hsplit) as (col & Hcol & Hok).
  simpl in Hcol. rewrite Hcol. exists (with_path f col c), b2. split_and!; [done| |].
  - rewrite <-Hlen. exact (grew_trans _ (view c b1) _ _ _ 0 0 Hg1 Hg2).
  - exact (conj (proj1 Hb2) Hok).
Qed.

(** The integers, labels and states do not look at the text. *)
Definition text_free (g : EntryChunk → option EntryChunk) : Prop :=
  ∀ d p c, g (with_text d p c) = with_text d p <$> g c.
Lemma text_free_bind f g : text_free f → text_free g → text_free (λ c, f c ≫= g).
Proof. intros Hf Hg d p c. rewrite Hf. destruct (f c) as [c'|]; [apply Hg|done]. Qed.
Lemma text_free_fold {A} (f : EntryChunk → A → option EntryChunk) l :
  (∀ x, text_free (λ c, f c x)) → text_free (fold_option f l).
Proof. intros Hf. induction l as [|x l IH]; [done|]. apply text_free_bind; [apply Hf|exact IH]. Qed.
Lemma set_i64_text slot row f : text_free (λ c, set_i64 slot row c f).
Proof. intros d p c. unfold set_i64. simpl. by destruct (integer_set _ _ _ _). Qed.
Lemma set_u64_text slot row f : text_free (λ c, set_u64 slot row c f).
Proof. intros d p c. unfold set_u64. simpl. by destruct (integer_set _ _ _ _). Qed.
Lemma set_integers_text slot row : text_free (set_integers slot row).
Proof.
  unfold set_integers. apply text_free_bind; [apply set_i64_text|]. apply text_free_bind; [apply set_u64_text|].
  apply text_free_bind; [apply text_free_fold; intros f; apply set_i64_text|].
  apply text_free_bind; [apply text_free_fold; intros f; apply set_u64_text|].
  intros d p c. unfold set_flags. simpl. by destruct (integer_set _ _ _ _).
Qed.
Lemma set_rest_text slot row : text_free (set_rest slot row).
Proof.
  unfold set_rest. apply text_free_bind; [apply text_free_fold; intros f d p c|intros d p c].
  - unfold set_label, label. simpl. destruct (position _ _); simpl; by destruct (integer_set _ _ _ _).
  - unfold set_properties. simpl. by destruct (column_set _ _ _ _).
Qed.
Lemma text_free_step g c b R slot row fields bytes labels_ :
  text_free g → pool_ok b → steps (view c b) R slot row fields bytes labels_ (g (view c b)) →
  ∃ c', g c = Some c' ∧ grew (view c b) (view c' b) bytes labels_ ∧ built c' b (after slot row R fields).
Proof.
  intros Hg Hb (c' & Hc' & Hgrew & Hok). unfold view in Hc'. rewrite Hg in Hc'.
  apply fmap_Some in Hc' as (c1 & Hc1 & ->). exists c1. split_and!; [done|done|]. split; [done|exact Hok].
Qed.
Lemma builds_fold {A} (f : EntryChunk * TextPoolBuilder → A → option (EntryChunk * TextPoolBuilder))
    (field : A → Field) (bytes : A → nat) slot row l c b R :
  (∀ x c b R, built c b R → slot ≤ length (R (field x)) →
     (N.of_nat (byte_len (arena b) + bytes x) ≤ u32_max)%N → builds c b R slot row [field x] (bytes x) 0 (f (c, b) x)) →
  built c b R → (∀ g, slot ≤ length (R g)) →
  (N.of_nat (byte_len (arena b) + sum_list (bytes <$> l)) ≤ u32_max)%N →
  builds c b R slot row (field <$> l) (sum_list (bytes <$> l)) 0 (fold_option f l (c, b)).
Proof.
  intros Hf. revert c b R. induction l as [|x l IH]; intros c b R Hb Hslot Hroom; cbn [fold_option].
  { exists c, b. split_and!; [done|by apply grew_same|done]. }
  change (sum_list (bytes <$> x :: l)) with (bytes x + sum_list (bytes <$> l)) in *.
  destruct (Hf x c b R Hb (Hslot _)) as (c1 & b1 & -> & Hg1 & Hb1); [lia|].
  destruct (IH c1 b1 _ Hb1) as (c2 & b2 & Hfold & Hg2 & Hb2).
  { intros g. by apply after_length. }
  { destruct Hg1 as (Hg1 & _). simpl in Hg1. lia. }
  exists c2, b2. split_and!; [exact Hfold|exact (grew_trans _ _ _ _ _ 0 0 Hg1 Hg2)|exact Hb2].
Qed.
Lemma grew_room c b c' b' n l : grew (view c b) (view c' b') n l →
  byte_len (arena b') ≤ byte_len (arena b) + n ∧ length (labels c') ≤ length (labels c) + l.
Proof. by intros (? & ? & _). Qed.
Lemma build_row_spec c b rows row :
  built c b (λ _, rows) → row_ok row →
  (N.of_nat (byte_len (arena b) + row_bytes row) ≤ u32_max)%N →
  (N.of_nat (length (labels c)) + 3 ≤ u32_max)%N →
  ∃ c' b', build_row (c, b) (length rows, row) = Some (c', b') ∧ built c' b' (λ _, rows ++ [row]) ∧
    grew (view c b) (view c' b') (row_bytes row) 3.
Proof.
  intros Hb Hrow Hbytes Hlabels. unfold build_row, row_bytes in *. set (slot := length rows).
  assert (Hlen : ∀ f : Field, slot ≤ length ((λ _, rows) f)) by done.
  destruct (text_free_step (set_integers slot row) c b (λ _, rows) slot row _ _ _
    (set_integers_text _ _) (proj1 Hb) (set_integers_step _ _ _ _ (proj2 Hb) Hrow Hlen)) as (c1 & -> & Hg1 & Hb1).
  cbn [mbind option_bind]. pose proof (grew_room _ _ _ _ _ _ Hg1) as [Hr1 Hl1].
  destruct (builds_fold (build_path slot row) FP (λ f, byte_len (row_path f row)) slot row
    [FPath; FFoldedPath; FSearchPath] c1 b _ (λ x c b R, build_path_step c b R slot row x) Hb1)
    as (c2 & b2 & -> & Hg2 & Hb2); [by intros g; apply after_length|simpl in *; lia|].
  cbn [mbind option_bind]. pose proof (grew_room _ _ _ _ _ _ Hg2) as [Hr2 Hl2].
  destruct (builds_fold (build_name slot row) FN (λ f, byte_len (row_name f row)) slot row
    [FName; FFoldedName; FSearchName; FParent] c2 b2 _ (λ x c b R, build_name_step c b R slot row x) Hb2)
    as (c3 & b3 & -> & Hg3 & Hb3); [by intros g; do 2 apply after_length|simpl in *; lia|].
  cbn [mbind option_bind]. pose proof (grew_room _ _ _ _ _ _ Hg3) as [Hr3 Hl3].
  destruct (text_free_step (set_rest slot row) c3 b3 _ slot row _ _ _ (set_rest_text _ _) (proj1 Hb3)
    (set_rest_step _ _ slot row (proj2 Hb3) (λ f, after_length _ _ _ _ (after_length _ _ _ _ (after_length _ _ _ _ Hlen)) f)
       ltac:(simpl in *; lia))) as (c4 & -> & Hg4 & Hb4).
  exists c4, b3. split_and!; [done| |].
  - split; [apply (proj1 Hb4)|]. eapply fields_ok_ext; [|exact (proj2 Hb4)].
    assert (Hput : put rows slot row = rows ++ [row]) by (unfold put, slot; by rewrite Nat.eqb_refl).
    rewrite <-Hput. by intros [[]|[]| |[]|[]|[]|].
  - pose proof (grew_trans _ _ _ _ _ _ _ (grew_trans _ _ _ _ _ _ _ Hg1 Hg2) (grew_trans _ _ _ _ _ _ _ Hg3 Hg4)) as (Ha & Hl & Hs).
    clear -Ha Hl Hs. simpl in *. unfold grew. simpl. split_and!; [lia|lia|done].
Qed.

(** ** The whole block *)

Definition rows_bytes (rows : list IndexedFile) : nat := sum_list (row_bytes <$> rows).
Lemma rows_bytes_cons row rows : rows_bytes (row :: rows) = row_bytes row + rows_bytes rows.
Proof. done. Qed.
Lemma intern_names_spec rows b :
  pool_ok b → (N.of_nat (byte_len (arena b) + total_bytes (i_search_name <$> rows)) ≤ u32_max)%N →
  ∃ b', fold_option (λ b row, snd <$> intern b (i_search_name row)) rows b = Some b' ∧ pool_ok b' ∧
    byte_len (arena b') ≤ byte_len (arena b) + total_bytes (i_search_name <$> rows).
Proof.
  revert b. induction rows as [|row rows IH]; intros b Hb Hroom; cbn [fold_option].
  { exists b. split_and!; [done|done|lia]. }
  rewrite fmap_cons, total_bytes_cons in *.
  destruct (intern_fits b (i_search_name row)) as (r & b1 & Hi & Hlen); [lia|]. rewrite Hi.
  apply intern_spec in Hi as (Hb1 & _); [|done]. cbn [fmap option_fmap option_map snd mbind option_bind].
  destruct (IH b1 Hb1) as (b2 & Hb2 & Hok & Hle); [lia|]. exists b2. split_and!; [exact Hb2|done|lia].
Qed.
Lemma build_rows_spec rows more c b :
  built c b (λ _, rows) → Forall row_ok more →
  (N.of_nat (byte_len (arena b) + rows_bytes more) ≤ u32_max)%N →
  (N.of_nat (length (labels c) + 3 * length more) ≤ u32_max)%N →
  ∃ c' b', fold_option build_row (imap (λ i row, (length rows + i, row)) more) (c, b) = Some (c', b') ∧
    built c' b' (λ _, rows ++ more) ∧ grew (view c b) (view c' b') (rows_bytes more) (3 * length more).
Proof.
  revert rows c b. induction more as [|row more IH]; intros rows c b Hb Hrows Hroom Hlabels.
  { exists c, b. rewrite app_nil_r. split_and!; [done|done|]. unfold grew. split_and!; [lia|lia|done]. }
  apply Forall_cons in Hrows as [Hrow Hrows]. rewrite rows_bytes_cons in *. cbn [length] in Hlabels.
  cbn [imap fold_option]. rewrite Nat.add_0_r. unfold compose.
  destruct (build_row_spec c b rows row Hb Hrow) as (c1 & b1 & -> & Hb1 & Hg1); [lia|lia|].
  pose proof (grew_room _ _ _ _ _ _ Hg1) as [Hr1 Hl1].
  destruct (IH (rows ++ [row]) c1 b1 Hb1 Hrows) as (c2 & b2 & Hfold & Hb2 & Hg2); [lia|lia|].
  exists c2, b2. rewrite <-app_assoc in Hb2. split_and!; [|exact Hb2|].
  - rewrite <-Hfold. cbn [mbind option_bind]. f_equal. apply imap_ext. intros i r _. simpl.
    rewrite length_app. simpl. f_equal. lia.
  - replace (3 * length (row :: more)) with (3 + 3 * length more) by (simpl; lia).
    exact (grew_trans _ _ _ _ _ _ _ Hg1 Hg2).
Qed.
(** The prefixes and the search names of a row are among its texts. *)
Lemma row_prefixes_bytes row : total_bytes (row_prefixes row) + byte_len (i_search_name row) ≤ row_bytes row.
Proof.
  unfold row_prefixes, row_bytes. rewrite !total_bytes_cons. change (total_bytes []) with 0.
  pose proof (split_path_len (i_path row)). pose proof (split_path_len (i_folded_path row)).
  pose proof (split_path_len (i_search_path row)). cbn [row_name row_path]. lia.
Qed.
Lemma prefixes_bytes rows :
  total_bytes (i_search_name <$> rows) + total_bytes (rows ≫= row_prefixes) ≤ rows_bytes rows.
Proof.
  induction rows as [|row rows IH]; [done|]. rewrite fmap_cons, total_bytes_cons, bind_cons, total_bytes_app, rows_bytes_cons.
  pose proof (row_prefixes_bytes row). lia.
Qed.
(** Up to 2 GiB of text and a row limit far above the block length, a block
    is built and reads as its rows. *)
Lemma from_rows_spec rows :
  Forall row_ok rows → (N.of_nat (2 * rows_bytes rows) ≤ u32_max)%N → (N.of_nat (3 * length rows) ≤ u32_max)%N →
  ∃ c : EntryChunk, from_rows rows = Some c ∧ chunk_ok c rows ∧ section c = None ∧
    byte_len (data_text (data c)) ≤ 2 * rows_bytes rows ∧ length (labels c) ≤ 3 * length rows.
Proof.
  intros Hrows Hroom Hlabels. unfold from_rows. pose proof (prefixes_bytes rows) as Hbytes.
  destruct (intern_names_spec rows pool_default) as (b1 & -> & Hb1 & Hl1); [apply map_Forall_empty|simpl; lia|].
  cbn [mbind option_bind]. simpl (byte_len (arena pool_default)) in Hl1.
  destruct (intern_prefixes_fits b1 (rows ≫= row_prefixes)) as (b2 & Hb2 & Hl2); [lia|]. rewrite Hb2.
  apply intern_prefixes_spec in Hb2 as (Hok2 & _); [|done]. cbn [mbind option_bind].
  assert (Hbuilt : built (chunk_default (Sec:=Sec)) b2 (λ _, [])).
  { split; [done|]. split; [done|]. intros field. pose proof (proj2 (chunk_default_ok (Sec:=Sec)) field) as Hf. destruct field; try done; constructor. }
  destruct (build_rows_spec [] rows chunk_default b2 Hbuilt Hrows) as (c & b & Hfold & Hok & (Ha & Hl & Hs)); [lia|simpl; lia|].
  simpl in Hfold, Hok. change (imap pair rows) with (imap (λ i row, (0 + i, row)) rows). simpl in Hfold |- *.
  rewrite Hfold. cbn [mbind option_bind]. eexists. split; [done|].
  simpl in Ha, Hl, Hs. split_and!; [|done|simpl; unfold finish; lia|simpl; lia].
  apply compact_integers_spec. intros field. pose proof (proj2 (proj2 Hok) field) as Hf. by destruct field.
Qed.
End proofs.
