(* ===== verification/EntryCompact.v ===== *)
(** * core/src/entry_table.rs, [compact_text] and [EntryTable::finish_update]

    The text of a changed block is reclaimed when more than half of it is
    dead: the live ranges are merged, copied together, and every reference is
    moved to the copy of the range that holds it.  No reference is lost and
    no value changes. *)
From stdpp Require Import functions.
From S2P Require Import Prelude Text TextView QuerySyntax FileEntry Columns IntegerColumn TextPool EntryChunk.

Section compact.
Context `{JsonShape} {Sec : Type} `{!UnstableSort}.
Notation EntryChunk := (EntryChunk Sec).

(** [compact_text]: the live ranges, copied together; [relocate] finds the
    range that holds a reference. *)
Fixpoint copy_ranges (t : text) (ranges : list (nat * nat)) (out : text) : option (list (nat * nat) * text) :=
  match ranges with
  | [] => Some ([], out)
  | (start, stop) :: ranges =>
    piece ← str_slice t start stop;
    '(relocated, out') ← copy_ranges t ranges (out ++ piece);
    Some ((start, byte_len out) :: relocated, out')
  end.
Definition relocate (relocated : list (nat * nat)) (r : TextRef) : option TextRef :=
  if length_ r =? 0 then Some text_ref_default
  else
    '(start, destination) ← match partition_point (λ '(start, _), start <=? offset r) relocated with
                            | O => None          (* the index underflows *)
                            | S index => relocated !! index
                            end;
    o ← as_u32 (destination + offset r - start);
    Some {| offset := o; length_ := length_ r |}.
Definition relocate_path (relocated : list (nat * nat)) (p : PathRef) : option PathRef :=
  front ← relocate relocated (prefix p); back ← relocate relocated (suffix p);
  Some {| prefix := front; suffix := back |}.
Definition relocate_name (relocated : list (nat * nat)) (c : EntryChunk) (f : NameField) : option EntryChunk :=
  refs ← mapM (relocate relocated) (column_values text_ref_elem (names c f));
  Some (with_name f (Owned refs) c).
Definition relocate_paths (relocated : list (nat * nat)) (c : EntryChunk) (f : PathField) : option EntryChunk :=
  refs ← mapM (relocate_path relocated) (column_values path_ref_elem (paths c f));
  Some (with_path f (Owned refs) c).
Definition compact_text (c : EntryChunk) (ranges : list (nat * nat)) : option EntryChunk :=
  '(relocated, t) ← copy_ranges (data_text (data c)) ranges [];
  c ← fold_option (relocate_name relocated) [FName; FFoldedName; FSearchName; FParent] c;
  c ← fold_option (relocate_paths relocated) [FPath; FFoldedPath; FSearchPath] c;
  Some (with_section None (with_text (TOwned t) None c)).

(** [finish_update]'s loop over the references of a block, sorted. *)
Definition ref_bounds (r : TextRef) : nat * nat := (offset r, offset r + length_ r).
Definition push_range (ranges : list (nat * nat)) (reference : nat * nat) : list (nat * nat) :=
  let '(start, stop) := reference in
  if start =? stop then ranges
  else
    match last ranges with
    | Some (a, e) =>
      if start <=? e then take (length ranges - 1) ranges ++ [(a, e `max` stop)] else ranges ++ [(start, stop)]
    | None => [(start, stop)]
    end.
Definition merge_ranges (references : list (nat * nat)) : list (nat * nat) := foldl push_range [] references.
Definition live_ranges (c : EntryChunk) : list (nat * nat) :=
  merge_ranges (sort_unstable_by (pair_cmp Nat.compare Nat.compare) (ref_bounds <$> all_refs c)).
Definition live_bytes (ranges : list (nat * nat)) : nat := sum_list ((λ '(start, stop), stop - start) <$> ranges).
(** A block whose text is more than half dead is rewritten. *)
Definition reclaim (c : EntryChunk) : option EntryChunk :=
  let ranges := live_ranges c in
  if live_bytes ranges <? byte_len (data_text (data c)) - live_bytes ranges then compact_text c ranges else Some c.
End compact.

(** ** Ranges of an arena *)

Section proofs.
Context `{JsonShapeLaws} {Sec : Type} `{!UnstableSort}.
Notation EntryChunk := (EntryChunk Sec).
Implicit Types (c : EntryChunk) (t : text) (ranges : list (nat * nat)).

Definition boundary (t : text) (n : nat) : Prop := ∃ x z, t = x ++ z ∧ byte_len x = n.
Definition range_ok (t : text) (r : nat * nat) : Prop := r.1 < r.2 ∧ boundary t r.1 ∧ boundary t r.2.
Definition separated (ranges : list (nat * nat)) : Prop := StronglySorted (λ r r', r.2 < r'.1) ranges.
Definition covered (ranges : list (nat * nat)) (r : nat * nat) : Prop :=
  ∃ range, range ∈ ranges ∧ range.1 ≤ r.1 ∧ r.2 ≤ range.2.

Lemma app_byte_prefix x1 z1 x2 z2 :
  x1 ++ z1 = x2 ++ z2 → byte_len x1 ≤ byte_len x2 → ∃ k, x2 = x1 ++ k ∧ z1 = k ++ z2.
Proof.
  intros Heq Hle. apply app_eq_app in Heq as [k [[-> ->]|[-> ->]]]; [|by exists k].
  rewrite byte_len_app in Hle. pose proof (byte_len_ge k). destruct k as [|c k]; [|simpl in *; lia].
  exists []. by rewrite !app_nil_r.
Qed.
Lemma range_slice t r : range_ok t r →
  ∃ x piece z, t = x ++ piece ++ z ∧ byte_len x = r.1 ∧ byte_len piece = r.2 - r.1.
Proof.
  intros (Hlt & (x1 & z1 & Ht & Hx1) & (x2 & z2 & Ht2 & Hx2)).
  destruct (app_byte_prefix x1 z1 x2 z2) as (k & -> & ->); [congruence|lia|].
  exists x1, k, z2. split_and!; [done|done|]. rewrite byte_len_app in Hx2. lia.
Qed.
Lemma read_ref_bounds t r v : read_ref t r = Some v → length_ r ≠ 0 → range_ok t (ref_bounds r).
Proof.
  intros Hr Hne. pose proof (read_ref_length _ _ _ Hr) as [Hlen _].
  apply str_slice_Some in Hr as (x & z & -> & Ha & Hb). unfold ref_bounds, range_ok. simpl.
  split_and!; [lia|by exists x, (v ++ z)|]. exists (x ++ v), z. rewrite <-app_assoc, byte_len_app. split; [done|lia].
Qed.

(** ** Merging *)

Definition merged_ok t ranges lo : Prop :=
  Forall (range_ok t) ranges ∧ separated ranges ∧ Forall (λ r, r.1 ≤ lo) ranges.
Lemma push_range_spec t ranges lo r :
  merged_ok t ranges lo → lo ≤ r.1 → r.1 ≤ r.2 → (r.1 ≠ r.2 → range_ok t r) →
  merged_ok t (push_range ranges r) r.1 ∧ (r.1 ≠ r.2 → covered (push_range ranges r) r) ∧
  ∀ r', covered ranges r' → covered (push_range ranges r) r'.
Proof.
  intros (Hok & Hsep & Hlo) Hge Hle Hr. destruct r as [start stop]. simpl in *.
  assert (Hlo' : Forall (λ r, r.1 ≤ start) ranges) by (eapply Forall_impl; [exact Hlo|simpl; lia]).
  unfold push_range. destruct (Nat.eqb_spec start stop) as [Heq|Hne].
  { split_and!; [done|done|done]. }
  specialize (Hr Hne). destruct (last ranges) as [[a e]|] eqn:Elast.
  - apply last_Some in Elast as [init ->].
    rewrite Forall_app, Forall_singleton in Hok. destruct Hok as (Hoki & Hae & Hba & Hbe). simpl in *.
    rewrite Forall_app, Forall_singleton in Hlo'. destruct Hlo' as [Hloi Hlol]. simpl in Hlol.
    destruct (Nat.leb_spec start e) as [Hse|Hse].
    + rewrite length_app, Nat.add_sub, take_app_length. 
      assert (Hcov : ∀ r', covered (init ++ [(a, e)]) r' → covered (init ++ [(a, e `max` stop)]) r').
      { intros r' (range & Hin & Hra & Hrb). apply elem_of_app in Hin as [Hin| ->%list_elem_of_singleton].
        - exists range. split; [apply elem_of_app; by left|done].
        - exists (a, e `max` stop). split; [set_solver|]. simpl in *. lia. }
      split_and!; [unfold merged_ok; split_and!| |done].
      * apply Forall_app. split; [done|]. rewrite Forall_singleton. split_and!; simpl; [lia|done|].
        destruct (Nat.max_spec e stop) as [[_ ->]|[_ ->]]; [apply Hr|done].
      * apply StronglySorted_app in Hsep as (Hcross & Hs1 & _). apply StronglySorted_app.
        split_and!; [|done|repeat constructor]. intros x y Hx ->%list_elem_of_singleton.
        apply (Hcross x (a, e) Hx). set_solver.
      * apply Forall_app. split; [done|]. rewrite Forall_singleton. exact Hlol.
      * intros _. exists (a, e `max` stop). split; [set_solver|]. simpl. lia.
    + split_and!; [unfold merged_ok; split_and!| |].
      * apply Forall_app. split; [apply Forall_app; split; [done|by rewrite Forall_singleton]|by rewrite Forall_singleton].
      * apply StronglySorted_app. split_and!; [|done|repeat constructor].
        intros x y Hx ->%list_elem_of_singleton. simpl. apply elem_of_app in Hx as [Hx| ->%list_elem_of_singleton]; [|done].
        apply StronglySorted_app in Hsep as (Hcross & _). specialize (Hcross x (a, e) Hx). simpl in Hcross.
        assert (x.2 < a) by (apply Hcross; set_solver). lia.
      * apply Forall_app. split; [apply Forall_app; split; [done|by rewrite Forall_singleton]|by rewrite Forall_singleton].
      * intros _. exists (start, stop). split; [set_solver|done].
      * intros r' (range & Hin & ?). exists range. split; [set_solver|done].
  - apply last_None in Elast as ->. split_and!; [unfold merged_ok; split_and!| |].
    + by rewrite Forall_singleton.
    + repeat constructor.
    + by rewrite Forall_singleton.
    + intros _. exists (start, stop). split; [set_solver|done].
    + intros r' (range & Hin & _). by apply not_elem_of_nil in Hin.
Qed.

#[local] Instance nat_compare_total : TotalOrder Nat.compare.
Proof.
  repeat split.
  - intros x y. apply Nat.compare_antisym.
  - intros x y z ??. apply Nat.compare_le_iff. transitivity y; by apply Nat.compare_le_iff.
  - intros x y. apply Nat.compare_eq.
Qed.
(** The pairs are visited by ascending start. *)
Lemma sorted_starts references :
  StronglySorted (λ r r', r.1 ≤ r'.1) (sort_unstable_by (pair_cmp Nat.compare Nat.compare) references).
Proof.
  pose proof (sort_unstable_sorts (pair_cmp Nat.compare Nat.compare) references _) as Hs.
  induction Hs as [|x l Hs IH Hf]; constructor; [done|]. eapply Forall_impl; [exact Hf|].
  intros y. unfold cmp_le, pair_cmp, then_with. intros Hle. apply Nat.compare_le_iff.
  by destruct (x.1 ?= y.1).
Qed.
Lemma merge_ranges_spec t references :
  StronglySorted (λ r r', r.1 ≤ r'.1) references →
  (∀ r, r ∈ references → r.1 ≤ r.2 ∧ (r.1 ≠ r.2 → range_ok t r)) →
  Forall (range_ok t) (merge_ranges references) ∧ separated (merge_ranges references) ∧
  ∀ r, r ∈ references → r.1 ≠ r.2 → covered (merge_ranges references) r.
Proof.
  intros Hs Hr. unfold merge_ranges.
  assert (Hgen : ∀ ranges lo, merged_ok t ranges lo → Forall (λ r, lo ≤ r.1) references →
    Forall (range_ok t) (foldl push_range ranges references) ∧ separated (foldl push_range ranges references) ∧
    (∀ r, r ∈ references → r.1 ≠ r.2 → covered (foldl push_range ranges references) r) ∧
    ∀ r, covered ranges r → covered (foldl push_range ranges references) r).
  { induction Hs as [|x l Hs IH Hf]; intros ranges lo Hm Hlo.
    - destruct Hm as (? & ? & ?). split_and!; [done|done|by intros ? ?%not_elem_of_nil|done].
    - apply Forall_cons in Hlo as [Hx Hlo]. destruct (Hr x) as [Hle Hxok]; [set_solver|].
      destruct (push_range_spec t ranges lo x Hm Hx Hle Hxok) as (Hm' & Hcov & Hmono). cbn [foldl].
      destruct (IH (λ r Hin, Hr r (list_elem_of_further _ _ _ Hin)) _ _ Hm' Hf) as (? & ? & Hall & Hmono').
      split_and!; [done|done| |by auto].
      intros r [->|Hin]%elem_of_cons Hne; [by apply Hmono', Hcov|by apply Hall]. }
  destruct (Hgen [] 0) as (? & ? & ? & _); [by split_and!; repeat constructor|apply Forall_forall; intros; lia|].
  by split_and!.
Qed.

(** ** Copying and relocating *)

Lemma copy_ranges_spec t ranges lo out :
  Forall (range_ok t) ranges → separated ranges → Forall (λ r, lo ≤ r.1) ranges → byte_len out ≤ lo →
  ∃ relocated out', copy_ranges t ranges out = Some (relocated, out') ∧ length relocated = length ranges ∧
    (∃ more, out' = out ++ more) ∧ byte_len out' = byte_len out + live_bytes ranges ∧
    ∀ i r, ranges !! i = Some r → ∃ d x piece z w y,
      relocated !! i = Some (r.1, d) ∧ t = x ++ piece ++ z ∧ byte_len x = r.1 ∧ byte_len piece = r.2 - r.1 ∧
      out' = w ++ piece ++ y ∧ byte_len w = d ∧ d ≤ r.1.
Proof.
  revert lo out. induction ranges as [|[a e] ranges IH]; intros lo out Hok Hsep Hlo Hout; cbn [copy_ranges].
  { exists [], out. split_and!; [done|done|exists []; by rewrite app_nil_r|unfold live_bytes; simpl; lia|done]. }
  apply Forall_cons in Hok as [Hr Hok]. apply StronglySorted_cons in Hsep as [Hcross Hsep].
  apply Forall_cons in Hlo as [Hloa Hlo].
  destruct (range_slice t (a, e) Hr) as (x & piece & z & Ht & Hx & Hpiece). destruct Hr as (Hae & _).
  simpl in Hcross, Hloa, Hx, Hpiece, Hae.
  assert (Hsl : str_slice t a e = Some piece).
  { rewrite Ht, <-Hx. replace e with (byte_len x + byte_len piece) by lia. apply str_slice_app. }
  rewrite Hsl. cbn [mbind option_bind].
  destruct (IH e (out ++ piece) Hok Hsep) as (relocated & out' & -> & Hlen & (more & Hmore) & Hbytes & Hall).
  { eapply Forall_impl; [exact Hcross|simpl; lia]. }
  { rewrite byte_len_app. lia. }
  cbn [mbind option_bind]. exists ((a, byte_len out) :: relocated), out'. split_and!; [done|simpl; by f_equal| | |].
  - exists (piece ++ more). by rewrite Hmore, app_assoc.
  - rewrite Hbytes, byte_len_app. unfold live_bytes. rewrite fmap_cons. simpl sum_list. lia.
  - intros [|i] r Hi; [|by apply Hall]. simpl in Hi. injection Hi as <-.
    exists (byte_len out), x, piece, z, out, more. rewrite Hmore, <-app_assoc. split_and!; done || (simpl; lia).
Qed.

(** A reference inside a live range is moved with the range. *)
Lemma relocate_spec t ranges relocated out r v :
  Forall (range_ok t) ranges → separated ranges →
  copy_ranges t ranges [] = Some (relocated, out) → (N.of_nat (byte_len t) ≤ u32_max)%N →
  read_ref t r = Some v → (length_ r ≠ 0 → covered ranges (ref_bounds r)) →
  ∃ r', relocate relocated r = Some r' ∧ read_ref out r' = Some v.
Proof.
  intros Hok Hsep Hcopy Hmax Hread Hcov. pose proof (read_ref_length _ _ _ Hread) as [Hlen Hend].
  unfold relocate. destruct (Nat.eqb_spec (length_ r) 0) as [Hz|Hnz].
  { exists text_ref_default. split; [done|]. destruct v as [|ch v]; [by destruct out|].
    pose proof (byte_len_ge (ch :: v)). simpl in *. lia. }
  destruct (Hcov Hnz) as (range & Hin & Hra & Hrb). simpl in Hra, Hrb.
  apply list_elem_of_lookup in Hin as [i Hi].
  destruct (copy_ranges_spec t ranges 0 [] Hok Hsep) as (relocated' & out' & Hcopy' & Hlen' & _ & _ & Hall);
    [apply Forall_forall; intros; lia|simpl; lia|].
  rewrite Hcopy in Hcopy'. injection Hcopy' as <- <-.
  assert (Hstart : ∀ j start d, relocated !! j = Some (start, d) → ∃ rj, ranges !! j = Some rj ∧ rj.1 = start).
  { intros j start d Hj. destruct (lookup_lt_is_Some_2 ranges j) as [rj Hrj].
    { rewrite <-Hlen'. by apply lookup_lt_Some in Hj. }
    exists rj. destruct (Hall j rj Hrj) as (d' & x & p & z & w & y & Hj' & _). split; [done|]. congruence. }
  destruct (Hall i range Hi) as (d & x & piece & z & w & y & Hrel & Ht & Hx & Hpiece & Hout & Hw & Hd).
  set (pred := (λ '(start, _), start <=? offset r) : nat * nat → bool).
  assert (Hsplit : ∀ j start d', relocated !! j = Some (start, d') → (pred (start, d') = true ↔ j ≤ i)).
  { intros j start d' Hj. destruct (Hstart j start d' Hj) as (rj & Hrj & <-). simpl. rewrite Nat.leb_le.
    destruct (decide (j = i)) as [->|Hne]; [assert (rj = range) as -> by congruence; lia|].
    pose proof (Forall_lookup_1 _ _ _ _ Hok Hrj) as (Hj1 & _). pose proof (Forall_lookup_1 _ _ _ _ Hok Hi) as (Hi1 & _).
    destruct (decide (j < i)) as [Hlt|Hge].
    - pose proof (StronglySorted_lookup_lt _ _ j i rj range Hsep Hlt Hrj Hi) as Hl. simpl in Hl. lia.
    - pose proof (StronglySorted_lookup_lt _ _ i j range rj Hsep ltac:(lia) Hi Hrj) as Hl. simpl in Hl. lia. }
  assert (Hpp : partition_point pred relocated = S i).
  { destruct (partition_point_spec pred relocated) as (Hle & Hbefore & Hafter).
    { intros a b [sa da] [sb db] Hab Ha Hb Hp. apply (Hsplit _ _ _ Hb) in Hp. apply (Hsplit _ _ _ Ha). lia. }
    destruct (decide (partition_point pred relocated ≤ i)) as [Hpi|Hpi].
    - specialize (Hafter i _ Hpi Hrel). rewrite (proj2 (Hsplit i _ _ Hrel)) in Hafter by lia. done.
    - destruct (decide (S i < partition_point pred relocated)) as [Hsi|]; [|lia].
      destruct (lookup_lt_is_Some_2 relocated (S i)) as [[start d'] Hj]; [lia|].
      specialize (Hbefore (S i) _ Hsi Hj). apply (Hsplit _ _ _ Hj) in Hbefore. lia. }
  rewrite Hpp. cbn [mbind option_bind]. rewrite Hrel. cbn [mbind option_bind]. unfold as_u32. rewrite (proj2 (N.leb_le _ _)) by lia.
  eexists. split; [done|]. apply str_slice_Some in Hread as (x' & z' & Ht' & Hx' & Hx'').
  destruct (app_byte_prefix x (piece ++ z) x' (v ++ z')) as (p & -> & Hp); [congruence|lia|].
  rewrite app_assoc in Hp. symmetry in Hp. rewrite byte_len_app in Hx', Hx''.
  apply app_byte_prefix in Hp as (k & -> & _); [|rewrite byte_len_app; lia].
  unfold read_ref. cbn [offset length_]. rewrite Hout, Hlen.
  replace (w ++ ((p ++ v) ++ k) ++ y) with ((w ++ p) ++ v ++ k ++ y) by (by rewrite !app_assoc).
  replace (d + offset r - range.1) with (byte_len (w ++ p)) by (rewrite byte_len_app; lia).
  apply str_slice_app.
Qed.

(** ** A reclaimed block holds the same rows *)

Definition ranges_hold (c : EntryChunk) ranges : Prop :=
  Forall (range_ok (data_text (data c))) ranges ∧ separated ranges ∧
  ∀ r, r ∈ all_refs c → length_ r ≠ 0 → covered ranges (ref_bounds r).
Lemma mapM_Forall2_option {A B C} (f : A → option B) (P : A → C → Prop) (Q : B → C → Prop) xs ys :
  (∀ x y, x ∈ xs → P x y → ∃ z, f x = Some z ∧ Q z y) → Forall2 P xs ys →
  ∃ zs, mapM f xs = Some zs ∧ Forall2 Q zs ys.
Proof.
  intros Hf Hall. induction Hall as [|x y xs ys Hxy Hall IH]; [by exists []|].
  destruct (Hf x y) as (z & Hz & Hq); [set_solver|done|].
  destruct IH as (zs & Hzs & Hqs); [intros ? ? Hin; apply Hf; set_solver|].
  exists (z :: zs). simpl. rewrite Hz. simpl. rewrite Hzs. by split; [|constructor].
Qed.
Lemma relocate_name_step relocated c f refs :
  mapM (relocate relocated) (column_values text_ref_elem (names c f)) = Some refs →
  relocate_name relocated c f = Some (with_name f (Owned refs) c).
Proof. unfold relocate_name. by intros ->. Qed.
Lemma relocate_paths_step relocated c f refs :
  mapM (relocate_path relocated) (column_values path_ref_elem (paths c f)) = Some refs →
  relocate_paths relocated c f = Some (with_path f (Owned refs) c).
Proof. unfold relocate_paths. by intros ->. Qed.
Lemma compact_text_spec c rows ranges :
  chunk_ok c rows → (N.of_nat (byte_len (data_text (data c))) ≤ u32_max)%N → ranges_hold c ranges →
  ∃ c', compact_text c ranges = Some c' ∧ chunk_ok c' rows ∧ section c' = None ∧
    byte_len (data_text (data c')) = live_bytes ranges ∧ labels c' = labels c.
Proof.
  intros [_ Hf] Hmax (Hok & Hsep & Hcov). unfold compact_text.
  destruct (copy_ranges_spec (data_text (data c)) ranges 0 [] Hok Hsep) as (relocated & out & Hcopy & _ & _ & Hbytes & _);
    [apply Forall_forall; intros; lia|simpl; lia|].
  rewrite Hcopy. cbn [mbind option_bind].
  assert (Hrel : ∀ r v, r ∈ all_refs c → read_ref (data_text (data c)) r = Some v →
    ∃ r', relocate relocated r = Some r' ∧ read_ref out r' = Some v).
  { intros r v Hin Hr. apply (relocate_spec (data_text (data c)) ranges relocated out r v Hok Hsep Hcopy Hmax Hr). by apply Hcov. }
  assert (Hname : ∀ f, ∃ refs, mapM (relocate relocated) (column_values text_ref_elem (names c f)) = Some refs ∧
    Forall2 (λ r row, read_ref out r = Some (row_name f row)) refs rows).
  { intros f. eapply mapM_Forall2_option; [|apply (Hf (FN f))]. intros r row Hin Hr. apply (Hrel r _); [|done].
    unfold all_refs. apply elem_of_app. left. apply list_elem_of_bind. exists f. split; [done|]. destruct f; set_solver. }
  assert (Hpath : ∀ f, ∃ refs, mapM (relocate_path relocated) (column_values path_ref_elem (paths c f)) = Some refs ∧
    Forall2 (λ p row, ∃ a b, read_ref out (prefix p) = Some a ∧ read_ref out (suffix p) = Some b ∧
      split_path (row_path f row) = (a, b)) refs rows).
  { intros f. eapply mapM_Forall2_option; [|apply (Hf (FP f))]. intros p row Hin (a & b & Ha & Hb & Hab).
    assert (Hall : ∀ r, r ∈ [prefix p; suffix p] → r ∈ all_refs c).
    { intros r Hr. unfold all_refs. apply elem_of_app. right. apply list_elem_of_bind. exists f.
      split; [apply list_elem_of_bind; by exists p|]. destruct f; set_solver. }
    destruct (Hrel (prefix p) a) as (p' & Hp' & Ha'); [apply Hall; set_solver|done|].
    destruct (Hrel (suffix p) b) as (q' & Hq' & Hb'); [apply Hall; set_solver|done|].
    unfold relocate_path. rewrite Hp', Hq'. eexists. split; [done|]. by exists a, b. }
  destruct (Hname FName) as (n1 & En1 & Fn1), (Hname FFoldedName) as (n2 & En2 & Fn2),
    (Hname FSearchName) as (n3 & En3 & Fn3), (Hname FParent) as (n4 & En4 & Fn4),
    (Hpath FPath) as (p1 & Ep1 & Fp1), (Hpath FFoldedPath) as (p2 & Ep2 & Fp2), (Hpath FSearchPath) as (p3 & Ep3 & Fp3).
  cbn [fold_option].
  do 4 (erewrite relocate_name_step by eassumption; cbn [mbind option_bind]).
  do 3 (erewrite relocate_paths_step by eassumption; cbn [mbind option_bind]).
  eexists. split; [done|]. split_and!; [|done|exact Hbytes|done]. split; [done|].
  intros [f|f| |f|f|f|]; simpl.
  - apply (Hf (FI f)).
  - apply (Hf (FU f)).
  - apply (Hf FFlags).
  - by destruct f.
  - by destruct f.
  - apply (Hf (FL f)).
  - apply (Hf FStates).
Qed.

Lemma live_ranges_hold c rows : chunk_ok c rows → ranges_hold c (live_ranges c).
Proof.
  intros Hok. unfold live_ranges.
  set (references := sort_unstable_by (pair_cmp Nat.compare Nat.compare) (ref_bounds <$> all_refs c)).
  assert (Hin : ∀ r, r ∈ references ↔ ∃ ref, r = ref_bounds ref ∧ ref ∈ all_refs c).
  { intros r. unfold references. rewrite sort_unstable_permutes. apply list_elem_of_fmap. }
  destruct (merge_ranges_spec (data_text (data c)) references) as (Hr & Hsep & Hcov); [apply sorted_starts| |].
  - intros r (ref & -> & Href)%Hin. split; [simpl; lia|]. intros Hne.
    destruct (all_refs_read _ c _ ref Hok Href) as [v Hv]. apply (read_ref_bounds _ _ v Hv).
    unfold ref_bounds in Hne. simpl in Hne. lia.
  - split_and!; [done|done|]. intros ref Href Hne. apply Hcov; [apply Hin; eauto|]. simpl. lia.
Qed.
Lemma reclaim_spec c rows :
  chunk_ok c rows → (N.of_nat (byte_len (data_text (data c))) ≤ u32_max)%N →
  ∃ c', reclaim c = Some c' ∧ chunk_ok c' rows ∧ labels c' = labels c ∧
    byte_len (data_text (data c')) ≤ byte_len (data_text (data c)) ∧
    byte_len (data_text (data c')) ≤ 2 * live_bytes (live_ranges c).
Proof.
  intros Hok Hmax. unfold reclaim. destruct (Nat.ltb_spec (live_bytes (live_ranges c))
    (byte_len (data_text (data c)) - live_bytes (live_ranges c))) as [Hlt|Hge].
  - destruct (compact_text_spec c rows _ Hok Hmax (live_ranges_hold c rows Hok)) as (c' & Hc' & Hok' & _ & Hb & Hl).
    exists c'. split_and!; [done|done|done|lia|lia].
  - exists c. split_and!; [done|done|done|lia|lia].
Qed.

(** Nothing else is live. *)
Definition within (P : nat → Prop) (r : nat * nat) : Prop := ∀ p, r.1 ≤ p < r.2 → P p.
Lemma push_range_within P ranges r : Forall (within P) ranges → within P r → Forall (within P) (push_range ranges r).
Proof.
  intros Hall Hr. destruct r as [start stop]. unfold push_range. destruct (start =? stop); [done|].
  destruct (last ranges) as [[a e]|] eqn:Elast; [|by rewrite Forall_singleton].
  apply last_Some in Elast as [init ->]. rewrite Forall_app, Forall_singleton in Hall. destruct Hall as [Hinit Hae].
  destruct (Nat.leb_spec start e) as [Hse|Hse].
  - rewrite length_app, Nat.add_sub, take_app_length, Forall_app, Forall_singleton. split; [done|].
    intros p [Hp1 Hp2]. simpl in *. destruct (decide (p < e)); [by apply Hae|apply Hr; simpl; lia].
  - rewrite !Forall_app, !Forall_singleton. by split_and!.
Qed.
Lemma merge_ranges_within P references : Forall (within P) references → Forall (within P) (merge_ranges references).
Proof.
  unfold merge_ranges. assert (Hnil : Forall (within P) []) by constructor. revert Hnil.
  generalize (@nil (nat * nat)) as ranges. induction references as [|r references IH]; intros ranges Hr Hall; [done|].
  apply Forall_cons in Hall as [Hx Hall]. cbn [foldl]. apply IH; [by apply push_range_within|done].
Qed.
Definition referenced (c : EntryChunk) (p : nat) : Prop :=
  ∃ r, r ∈ all_refs c ∧ offset r ≤ p < offset r + length_ r.
Lemma live_ranges_within c : Forall (within (referenced c)) (live_ranges c).
Proof.
  apply merge_ranges_within, Forall_forall. intros r Hr. rewrite sort_unstable_permutes in Hr.
  apply list_elem_of_fmap in Hr as (ref & -> & Href). intros p Hp. by exists ref.
Qed.

(** C29: Reclaiming the text of a block loses nothing and keeps nothing: the
    block reads as the same rows, its text is at most twice the live bytes,
    and the live ranges are exactly the bytes some reference of a row uses,
    so that the bytes of a deleted or renamed row do not stay. *)
Theorem reclaim_keeps_rows c rows :
  chunk_ok c rows → (N.of_nat (byte_len (data_text (data c))) ≤ u32_max)%N →
  (∃ c', reclaim c = Some c' ∧ chunk_ok c' rows ∧ (∀ slot, row_at c' slot = rows !! slot) ∧
     byte_len (data_text (data c')) ≤ 2 * live_bytes (live_ranges c) ∧
     byte_len (data_text (data c')) ≤ byte_len (data_text (data c))) ∧
  separated (live_ranges c) ∧
  ∀ p, referenced c p ↔ ∃ range, range ∈ live_ranges c ∧ range.1 ≤ p < range.2.
Proof.
  intros Hok Hmax. destruct (reclaim_spec c rows Hok Hmax) as (c' & Hc' & Hok' & _ & Hb & Hl).
  destruct (live_ranges_hold c rows Hok) as (_ & Hsep & Hcov). split_and!; [|done|].
  - exists c'. split_and!; [done|done|intros slot; by apply row_at_spec|done|done].
  - intros p. split.
    + intros (r & Hr & Hp). destruct (Hcov r Hr) as (range & Hin & Hra & Hrb); [lia|]. simpl in *.
      exists range. split; [done|lia].
    + intros (range & Hin & Hp). by apply (proj1 (Forall_forall _ _) (live_ranges_within c) range Hin).
Qed.
End proofs.

Section witnesses.
#[local] Existing Instance merging_sort.
Definition renamed_row (name_ : text) : @IndexedFile simple_json_json :=
  {| i_id := 1; i_size := 2; i_modified := 1; i_created := 2; i_changed := 3; i_modified_ns := 4; i_changed_ns := 5;
     i_file_id := 6; i_parent_id := 7; i_flags := 0; i_path := lit "/a/" ++ name_; i_name := name_;
     i_folded_name := name_; i_folded_path := lit "/a/" ++ name_; i_search_name := name_;
     i_search_path := lit "/a/" ++ name_; i_parent := lit "/a"; i_extension := []; i_folded_extension := [];
     i_volume_id := lit "v"; i_is_dir := true; i_is_symlink := false; i_content_indexed := false; i_properties := JNull |}.
(** A long name is replaced by a short one: the long one's bytes go. *)
Definition renamed : option (EntryChunk unit) :=
  c ← set chunk_default 0 (renamed_row (lit "long-name.txt")); set c 0 (renamed_row (lit "b")).
Lemma reclaim_keeps_rows_witness :
  ∃ c c' : EntryChunk unit, renamed = Some c ∧ byte_len (data_text (data c)) = 17 ∧
    reclaim c = Some c' ∧ row_at c' 0 = Some (renamed_row (lit "b")) ∧ byte_len (data_text (data c')) ≤ 8.
Proof.
  assert (Hrow : ∀ n, row_ok (renamed_row n)) by (intros n; split; [by intros []|split; [by intros []|done]]).
  assert (Hbytes : (λ c, (byte_len (data_text (data c)), live_bytes (live_ranges c))) <$> renamed = Some (17, 4))
    by (vm_compute; reflexivity).
  assert (Hlong : (N.of_nat (byte_len (data_text (data (chunk_default (Sec:=unit)))) +
    row_bytes (renamed_row (lit "long-name.txt"))) ≤ u32_max)%N) by (by vm_compute).
  pose proof (chunk_set_spec chunk_default [] 0 _ (chunk_default_ok (Sec:=unit)) (Hrow (lit "long-name.txt"))
    (le_n 0) Hlong ltac:(done)) as Hfirst.
  destruct Hfirst as (c1 & Hc1 & Hok1 & _ & Hb1 & Hl1).
  assert (Hshort : (N.of_nat (byte_len (data_text (data c1)) + row_bytes (renamed_row (lit "b"))) ≤ u32_max)%N).
  { change (byte_len (data_text (data (chunk_default (Sec:=unit)))) + row_bytes (renamed_row (lit "long-name.txt")))
      with 89 in Hb1. change (row_bytes (renamed_row (lit "b"))) with 17. unfold u32_max. lia. }
  pose proof (chunk_set_spec c1 _ 0 _ Hok1 (Hrow (lit "b")) (Nat.le_0_l _) Hshort ltac:(simpl in Hl1; unfold u32_max; lia)) as Hsecond.
  destruct Hsecond as (c & Hc & Hok & _).
  assert (Hren : renamed = Some c) by (unfold renamed; rewrite Hc1; exact Hc).
  rewrite Hren in Hbytes. cbn [fmap option_fmap option_map] in Hbytes.
  assert (Hlen : byte_len (data_text (data c)) = 17) by congruence.
  assert (Hlive : live_bytes (live_ranges c) = 4) by congruence.
  pose proof (reclaim_keeps_rows c _ Hok ltac:(rewrite Hlen; done)) as [Hr _].
  destruct Hr as (c' & Hc' & _ & Hread & Hle & _). rewrite Hlive in Hle.
  exists c, c'. split; [exact Hren|]. split; [exact Hlen|]. split; [exact Hc'|]. split; [|exact Hle].
  rewrite Hread. reflexivity.
Defined.
End witnesses.
