(* ===== verification/EntryTable.v ===== *)
(** * core/src/entry_table.rs, [EntryTable]

    The rows of an index in blocks of 4096, every block but the last full.
    Appending and changing a row touch one block; [finish_update] reclaims the
    text and packs the integers of the changed blocks.  A table is a list of
    rows: every operation is the list operation, panics included. *)
From stdpp Require Import functions.
From S2P Require Import Prelude Bitmap Text TextView QuerySyntax FileEntry Columns IntegerColumn TextPool.
From S2P Require Import EntryChunk EntryPool EntryCompact.

Definition chunk_length : nat := 4096.
Lemma chunk_length_eq : chunk_length = 4096.
Proof. reflexivity. Qed.

Section table.
Context {B : Type} `{Roaring B} `{JsonShape} {Sec : Type} `{!UnstableSort}.
Notation EntryChunk := (EntryChunk Sec).

Record EntryTable := {
  chunks : list EntryChunk;
  table_len : nat;
  text_changes : B;
  changed_blocks : B;
}.
Record EntryView := { view_chunk : EntryChunk; view_slot : nat }.
Definition table_default : EntryTable :=
  {| chunks := []; table_len := 0; text_changes := bm_new; changed_blocks := bm_new |}.
Definition table_is_empty (tb : EntryTable) : bool := table_len tb =? 0.
(** [get]: the directory lookup panics out of bounds, the length check does not. *)
Definition get (tb : EntryTable) (slot : nat) : option (option EntryView) :=
  if slot <? table_len tb then
    c ← chunks tb !! (slot / chunk_length);
    Some (Some {| view_chunk := c; view_slot := slot mod chunk_length |})
  else Some None.
Definition at_ (tb : EntryTable) (slot : nat) : option EntryView := v ← get tb slot; v.
Definition last_view (tb : EntryTable) : option (option EntryView) :=
  match table_len tb with O => Some None | S slot => get tb slot end.
Definition iter (tb : EntryTable) : list EntryView :=
  chunks tb ≫= λ c, (λ slot, {| view_chunk := c; view_slot := slot |}) <$> seq 0 (chunk_len c).

(** [(slot / CHUNK_LENGTH) as u32] *)
Definition block_index (slot : nat) : N := (N.of_nat (slot / chunk_length) mod 2 ^ 32)%N.
Definition push (tb : EntryTable) (row : IndexedFile) : option EntryTable :=
  let blocks :=
    if table_len tb mod chunk_length =? 0 then chunks tb ++ [chunk_default] else chunks tb in
  c ← last blocks;
  c ← set c (table_len tb mod chunk_length) row;
  Some {| chunks := <[length blocks - 1 := c]> blocks;
          table_len := S (table_len tb);
          text_changes := bm_insert (block_index (table_len tb)) (text_changes tb);
          changed_blocks := bm_insert (block_index (table_len tb)) (changed_blocks tb) |}.
Definition table_set (tb : EntryTable) (slot : nat) (row : IndexedFile) : option EntryTable :=
  if slot <? table_len tb then
    c ← chunks tb !! (slot / chunk_length);
    c' ← set c (slot mod chunk_length) row;
    Some {| chunks := <[slot / chunk_length := c']> (chunks tb);
            table_len := table_len tb;
            text_changes :=
              if byte_len (data_text (data c')) =? byte_len (data_text (data c)) then text_changes tb
              else bm_insert (block_index slot) (text_changes tb);
            changed_blocks := bm_insert (block_index slot) (changed_blocks tb) |}
  else None.

(** One block of a loop over a bitmap: [self.chunks[index as usize]]. *)
Definition change_block (f : EntryChunk → option EntryChunk) (blocks : list EntryChunk) (index : N) :
    option (list EntryChunk) :=
  c ← blocks !! N.to_nat index; c ← f c; Some (<[N.to_nat index := c]> blocks).
Definition finish_update (tb : EntryTable) : option EntryTable :=
  if bm_is_empty (changed_blocks tb) then Some tb
  else
    blocks ← fold_option (change_block reclaim) (bm_iter (text_changes tb)) (chunks tb);
    blocks ← fold_option (change_block (Some ∘ compact_integers)) (bm_iter (changed_blocks tb)) blocks;
    Some {| chunks := blocks; table_len := table_len tb; text_changes := bm_new; changed_blocks := bm_new |}.

(** [from_rows]: the loop's table and batch; an error of the source, or a row
    past the slot range, ends it. *)
Definition flush (tb : EntryTable) (batch : list IndexedFile) : option EntryTable :=
  c ← from_rows batch;
  Some {| chunks := chunks tb ++ [c]; table_len := table_len tb + length batch;
          text_changes := text_changes tb; changed_blocks := changed_blocks tb |}.
Fixpoint from_rows_loop (rows : list (text + IndexedFile)) (tb : EntryTable) (batch : list IndexedFile) :
    option (text + EntryTable) :=
  match rows with
  | [] => if length batch =? 0 then Some (inr tb) else tb ← flush tb batch; Some (inr tb)
  | row :: rows =>
    if (u32_max <=? N.of_nat (table_len tb + length batch))%N then Some (inl (lit "snapshot_slot_overflow"))
    else
      match row with
      | inl error => Some (inl error)
      | inr row =>
        let batch := batch ++ [row] in
        if length batch =? chunk_length then tb ← flush tb batch; from_rows_loop rows tb []
        else from_rows_loop rows tb batch
      end
  end.
Definition table_from_rows (rows : list (text + IndexedFile)) : option (text + EntryTable) :=
  from_rows_loop rows table_default [].
Definition from_chunks (blocks : list EntryChunk) : option EntryTable :=
  let total := sum_list (chunk_len <$> blocks) in
  if (u32_max <? N.of_nat total)%N ||
     existsb (λ '(i, c), (chunk_len c =? 0) || (chunk_length <? chunk_len c) ||
                (S i <? length blocks) && negb (chunk_len c =? chunk_length)) (imap pair blocks)
  then None
  else Some {| chunks := blocks; table_len := total; text_changes := bm_new; changed_blocks := bm_new |}.
End table.
Arguments EntryTable B {_} Sec.
Arguments EntryView {_} Sec.

(** ** Rows in blocks *)

#[local] Opaque chunk_length.

(** Every block but the last has 4096 rows, and the last has some. *)
Definition full {A} (blocks : list (list A)) : Prop :=
  blocks = [] ∨ ∃ init b, blocks = init ++ [b] ∧ Forall (λ b, length b = chunk_length) init ∧
    0 < length b ≤ chunk_length.

Section blocks.
Context {A : Type}.
Implicit Types (blocks init : list (list A)) (b : list A).

Lemma concat_len init : Forall (λ b, length b = chunk_length) init → length (concat init) = length init * chunk_length.
Proof. induction 1 as [|b init Hb Hf IH]; [done|]. cbn [concat length]. rewrite length_app. lia. Qed.
Lemma concat_snoc init b : concat (init ++ [b]) = concat init ++ b.
Proof. rewrite concat_app. simpl. by rewrite app_nil_r. Qed.
Lemma split_slot n slot : slot < n → (slot / n = 0) ∧ slot mod n = slot.
Proof. intros. split; [by apply Nat.div_small|by apply Nat.mod_small]. Qed.
(** A slot is an offset in a block. *)
Lemma full_lookup blocks slot : full blocks →
  concat blocks !! slot = b ← blocks !! (slot / chunk_length); b !! (slot mod chunk_length).
Proof.
  intros [->|(init & b & -> & Hinit & Hb)]; [done|]. revert slot.
  pose proof chunk_length_eq as Hc. 
  induction Hinit as [|x init Hx Hinit IH]; intros slot; cbn [app concat].
  - rewrite app_nil_r. destruct (decide (slot < chunk_length)) as [Hs|Hs].
    + by destruct (split_slot _ _ Hs) as [-> ->].
    + rewrite lookup_ge_None_2 by lia. rewrite lookup_ge_None_2; [done|]. simpl.
      apply Nat.div_le_lower_bound; lia.
  - destruct (decide (slot < chunk_length)) as [Hs|Hs].
    + rewrite lookup_app_l by lia. by destruct (split_slot _ _ Hs) as [-> ->].
    + rewrite lookup_app_r, Hx by lia. rewrite IH.
      assert (Hsplit : slot = slot - chunk_length + 1 * chunk_length) by lia.
      assert (Hq : slot / chunk_length = S ((slot - chunk_length) / chunk_length)).
      { rewrite Hsplit at 1. rewrite Nat.div_add by lia. lia. }
      assert (Hm : slot mod chunk_length = (slot - chunk_length) mod chunk_length).
      { rewrite Hsplit at 1. by rewrite Nat.Div0.mod_add. }
      by rewrite Hq, Hm.
Qed.
Lemma full_push blocks x : full blocks →
  (length (concat blocks) mod chunk_length = 0 → full (blocks ++ [[x]]) ∧
     length blocks = length (concat blocks) / chunk_length) ∧
  (length (concat blocks) mod chunk_length ≠ 0 → ∃ init b, blocks = init ++ [b] ∧
     length b = length (concat blocks) mod chunk_length ∧ length init = length (concat blocks) / chunk_length ∧
     full (init ++ [b ++ [x]])).
Proof.
  pose proof chunk_length_eq as Hc.
  intros [->|(init & b & -> & Hinit & Hb)].
  { split; [|done]. intros _. split; [|done]. right. exists [], [x]. simpl. split_and!; [done|done|lia|lia]. }
  rewrite concat_snoc, length_app, (concat_len _ Hinit), (Nat.add_comm (_ * _)).
  rewrite Nat.Div0.mod_add, Nat.div_add by lia. split.
  - intros Hmod. assert (Hbl : length b = chunk_length).
    { destruct (decide (length b = chunk_length)); [done|]. rewrite Nat.mod_small in Hmod; lia. }
    split.
    + right. exists (init ++ [b]), [x]. split_and!; [done|by apply Forall_app; split; [|repeat constructor]|simpl; lia..].
    + rewrite Hbl, Nat.div_same by lia. rewrite length_app. simpl. lia.
  - intros Hmod. assert (Hbl : length b < chunk_length).
    { destruct (decide (length b = chunk_length)) as [E|]; [|lia]. rewrite E, Nat.Div0.mod_same in Hmod. lia. }
    rewrite (Nat.mod_small _ _ Hbl), (Nat.div_small _ _ Hbl). exists init, b. split_and!; [done|done|lia|].
    right. exists init, (b ++ [x]). rewrite length_app. simpl. split_and!; [done|done|lia|lia].
Qed.
Lemma full_iff blocks : full blocks ↔ ∀ i b, blocks !! i = Some b →
  0 < length b ≤ chunk_length ∧ (S i < length blocks → length b = chunk_length).
Proof.
  pose proof chunk_length_eq as Hc. split.
  - intros [->|(init & l & -> & Hinit & Hl)] i b Hi; [done|]. rewrite length_app. simpl.
    destruct (decide (i < length init)) as [Hlt|Hge].
    + rewrite lookup_app_l in Hi by done. pose proof (Forall_lookup_1 _ _ _ _ Hinit Hi) as Hb. simpl in Hb. lia.
    + pose proof (lookup_lt_Some _ _ _ Hi) as Hlt. rewrite length_app in Hlt. simpl in Hlt.
      rewrite lookup_app_r in Hi by lia. replace (i - length init) with 0 in Hi by lia. injection Hi as <-. split; [done|lia].
  - intros Hall. destruct blocks as [|l init _] using rev_ind; [by left|]. right. exists init, l.
    split_and!; [done| |apply (Hall (length init)); by rewrite lookup_app_r, Nat.sub_diag by lia..].
    apply Forall_lookup. intros i b Hi. apply (Hall i b); [by apply lookup_app_l_Some|].
    apply lookup_lt_Some in Hi. rewrite length_app. simpl. lia.
Qed.
Lemma full_insert blocks i b b' :
  full blocks → blocks !! i = Some b → length b' = length b → full (<[i:=b']> blocks).
Proof.
  intros [->|(init & l & -> & Hinit & Hl)] Hi Hlen; [done|]. right.
  destruct (decide (i < length init)) as [Hlt|Hge].
  - rewrite lookup_app_l in Hi by done. rewrite insert_app_l by done. exists (<[i:=b']> init), l.
    split_and!; [done| |lia|lia]. apply Forall_insert; [done|]. rewrite Hlen. by apply (Forall_lookup_1 _ _ _ _ Hinit Hi).
  - pose proof (lookup_lt_Some _ _ _ Hi) as Hlt. rewrite length_app in Hlt. simpl in Hlt.
    assert (i = length init) as -> by lia. rewrite lookup_app_r, Nat.sub_diag in Hi by lia. injection Hi as ->.
    exists init, b'. rewrite insert_app_r_alt, Nat.sub_diag by lia. split_and!; [done|done|lia|lia].
Qed.
Lemma full_update blocks slot b x :
  full blocks → blocks !! (slot / chunk_length) = Some b → slot mod chunk_length < length b →
  concat (<[slot / chunk_length := <[slot mod chunk_length := x]> b]> blocks) = <[slot := x]> (concat blocks).
Proof.
  intros Hf Hb Hs. pose proof chunk_length_eq as Hc.
  apply list_eq. intros j. rewrite full_lookup by (eapply full_insert; [done|exact Hb|apply length_insert]).
  destruct (decide (j = slot)) as [->|Hne].
  - rewrite list_lookup_insert_eq by (by apply lookup_lt_Some in Hb). cbn [mbind option_bind].
    rewrite list_lookup_insert_eq by done. rewrite list_lookup_insert_eq; [done|].
    apply lookup_lt_is_Some. rewrite full_lookup, Hb by done. by apply lookup_lt_is_Some.
  - rewrite (list_lookup_insert_ne (concat blocks)) by done. rewrite (full_lookup blocks j Hf).
    destruct (decide (j / chunk_length = slot / chunk_length)) as [Heq|Hne'].
    + rewrite Heq, Hb, list_lookup_insert_eq by (by apply lookup_lt_Some in Hb). cbn [mbind option_bind].
      rewrite list_lookup_insert_ne; [done|]. intros Hm. apply Hne.
      rewrite (Nat.div_mod j chunk_length), (Nat.div_mod slot chunk_length) by lia. lia.
    + by rewrite list_lookup_insert_ne.
Qed.
End blocks.

(** ** A table is its rows *)

Section proofs.
Context {B : Type} `{RoaringLaws B} `{JsonShapeLaws} {Sec : Type} `{!UnstableSort}.
Notation EntryChunk := (EntryChunk Sec).
Notation EntryTable := (EntryTable B Sec).
Implicit Types (tb : EntryTable) (rows : list IndexedFile).

(** Below it, block numbers are [u32]s. *)
Definition row_limit : N := 2 ^ 40.
(** The block has room for [n] more bytes and [k] more labels. *)
Definition chunk_good (n k : nat) (c : EntryChunk) (b : list IndexedFile) : Prop :=
  chunk_ok c b ∧ (N.of_nat (byte_len (data_text (data c)) + n) ≤ u32_max)%N ∧
  (N.of_nat (length (labels c) + k) ≤ u32_max)%N.
Definition table_ok (n k : nat) tb rows : Prop :=
  ∃ blocks, rows = concat blocks ∧ full blocks ∧ Forall2 (chunk_good n k) (chunks tb) blocks ∧
    table_len tb = length rows ∧ (N.of_nat (length rows + k) ≤ row_limit)%N ∧
    (N.of_nat n ≤ u32_max)%N ∧ (N.of_nat k ≤ u32_max)%N ∧
    ∀ x, bm_contains x (text_changes tb) = true ∨ bm_contains x (changed_blocks tb) = true →
      N.to_nat x < length (chunks tb).
Lemma chunk_good_weaken n k n' k' c b : n' ≤ n → k' ≤ k → chunk_good n k c b → chunk_good n' k' c b.
Proof. intros Hn Hk (Hok & Hb & Hl). unfold chunk_good. split_and!; [done|lia|lia]. Qed.
Lemma chunk_good_set n k c b slot row :
  chunk_good (row_bytes row + n) (3 + k) c b → row_ok row → slot ≤ length b →
  ∃ c', set c slot row = Some c' ∧ chunk_good n k c' (put b slot row).
Proof.
  intros (Hok & Hb & Hl) Hrow Hslot.
  destruct (chunk_set_spec c b slot row Hok Hrow Hslot) as (c' & Hc' & Hok' & _ & Hb' & Hl'); [lia|lia|].
  exists c'. split; [done|]. unfold chunk_good. split_and!; [done|lia|lia].
Qed.
Lemma block_index_small slot : (N.of_nat slot ≤ row_limit)%N → N.to_nat (block_index slot) = slot / chunk_length.
Proof.
  intros Hs. pose proof chunk_length_eq as Hc. unfold block_index. rewrite N.mod_small; [lia|].
  unfold row_limit in Hs.
  assert (slot / chunk_length * chunk_length ≤ slot) by (rewrite Nat.mul_comm; apply Nat.Div0.mul_div_le). lia.
Qed.

(** Reading. *)
Definition view_row (v : EntryView Sec) : option IndexedFile := row_at (view_chunk v) (view_slot v).
Lemma get_blocks tb blocks slot :
  full blocks → Forall2 chunk_ok (chunks tb) blocks → table_len tb = length (concat blocks) →
  ∃ v, get tb slot = Some v ∧ (v ≫= view_row) = concat blocks !! slot.
Proof.
  intros Hfull Hf Hlen. unfold get. rewrite Hlen.
  destruct (Nat.ltb_spec slot (length (concat blocks))) as [Hlt|Hge].
  - pose proof (proj2 (lookup_lt_is_Some (concat blocks) slot) Hlt) as [row Hrow].
    pose proof Hrow as Hrow'. rewrite full_lookup in Hrow' by done. apply bind_Some in Hrow' as (b & Hb & Hr).
    destruct (Forall2_lookup_r _ _ _ _ _ Hf Hb) as (c & -> & Hok). cbn [mbind option_bind].
    eexists. split; [done|]. cbn [mbind option_bind]. unfold view_row. simpl.
    by rewrite (row_at_spec c b _ Hok), Hr, Hrow.
  - eexists. split; [done|]. by rewrite lookup_ge_None_2.
Qed.
Lemma get_spec n k tb rows slot : table_ok n k tb rows → ∃ v, get tb slot = Some v ∧ (v ≫= view_row) = rows !! slot.
Proof.
  intros (blocks & -> & Hfull & Hf & Hlen & _). apply get_blocks; [done| |done].
  eapply Forall2_impl; [exact Hf|]. by intros c b (Hok & _).
Qed.
Lemma iter_spec n k tb rows : table_ok n k tb rows → mapM view_row (iter tb) = Some rows.
Proof.
  intros (blocks & -> & _ & Hf & _). unfold iter. induction Hf as [|c b cs bs (Hok & _) Hf IH]; [done|].
  rewrite bind_cons. cbn [concat]. apply mapM_Some. apply mapM_Some in IH. apply Forall2_app; [|exact IH].
  apply Forall2_fmap_l. rewrite (chunk_len_spec c b Hok). apply Forall2_same_length_lookup_2.
  { by rewrite length_seq. }
  intros i slot row Hi Hrow. apply lookup_seq in Hi as [-> _]. unfold view_row. simpl. by rewrite (row_at_spec c b i Hok).
Qed.

(** Appending. *)
Lemma push_spec n k tb rows row :
  table_ok (row_bytes row + n) (3 + k) tb rows → row_ok row →
  ∃ tb', push tb row = Some tb' ∧ table_ok n k tb' (rows ++ [row]).
Proof.
  intros (blocks & -> & Hfull & Hf & Hlen & Hk & Hn & Hkk & Hbits) Hrow. unfold push. rewrite Hlen.
  pose proof chunk_length_eq as Hc. set (m := length (concat blocks)) in *.
  assert (Hlast : ∃ cinit c binit b,
    (if m mod chunk_length =? 0 then chunks tb ++ [chunk_default] else chunks tb) = cinit ++ [c] ∧
    Forall2 (chunk_good (row_bytes row + n) (3 + k)) cinit binit ∧ chunk_good (row_bytes row + n) (3 + k) c b ∧
    length b = m mod chunk_length ∧ length binit = m / chunk_length ∧ concat blocks = concat binit ++ b ∧
    full (binit ++ [b ++ [row]]) ∧ length (chunks tb) ≤ S (length cinit)).
  { destruct (full_push blocks row Hfull) as [Hzero Hmore]. fold m in Hzero, Hmore.
    destruct (Nat.eqb_spec (m mod chunk_length) 0) as [Hm|Hm].
    - destruct (Hzero Hm) as [Hfull' Hbl]. exists (chunks tb), chunk_default, blocks, [].
      split_and!; [done|done| |done|done|by rewrite app_nil_r|done|lia].
      split_and!; [apply chunk_default_ok|simpl; lia|simpl; lia].
    - destruct (Hmore Hm) as (init & b & -> & Hb & Hinit & Hfull').
      apply Forall2_app_inv_r in Hf as (cinit & cs & Hf1 & Hf2 & Hcs). apply Forall2_cons_inv_r in Hf2 as (c & cs' & Hcb & Hnil & ->).
      apply Forall2_nil_inv_r in Hnil as ->. exists cinit, c, init, b. rewrite Hcs.
      split_and!; [done|done|done|done|done|by rewrite concat_snoc|done|rewrite length_app; simpl; lia]. }
  destruct Hlast as (cinit & c & binit & b & -> & Hf1 & Hcb & Hb & Hbi & Hrows & Hfull' & Hle).
  rewrite last_snoc. cbn [mbind option_bind].
  destruct (chunk_good_set n k c b (m mod chunk_length) row Hcb Hrow) as (c' & -> & Hgood); [lia|].
  cbn [mbind option_bind]. rewrite <-Hb in Hgood. unfold put in Hgood. rewrite Nat.eqb_refl in Hgood.
  eexists. split; [done|]. exists (binit ++ [b ++ [row]]). cbn [chunks table_len text_changes changed_blocks].
  rewrite length_app, Nat.add_sub, insert_app_r_alt, Nat.sub_diag by lia. simpl list_insert.
  split_and!; [by rewrite concat_snoc, app_assoc, <-Hrows|done| | | |lia|lia|].
  - apply Forall2_app; [|constructor; [exact Hgood|constructor]]. eapply Forall2_impl; [exact Hf1|].
    intros ? ?. apply chunk_good_weaken; lia.
  - rewrite length_app. simpl. fold m. lia.
  - rewrite length_app. simpl. fold m. lia.
  - intros x Hx. rewrite !contains_insert in Hx. rewrite length_app. simpl.
    pose proof (Forall2_length _ _ _ Hf1) as Hl.
    assert (Hidx : N.to_nat (block_index m) = length binit) by (rewrite block_index_small by lia; done).
    destruct (N.eqb_spec x (block_index m)) as [E|E]; [rewrite E; lia|]. simpl in Hx. specialize (Hbits x Hx). lia.
Qed.
(** Changing a row. *)
Lemma table_set_spec n k tb rows slot row :
  table_ok (row_bytes row + n) (3 + k) tb rows → row_ok row → slot < length rows →
  ∃ tb', table_set tb slot row = Some tb' ∧ table_ok n k tb' (<[slot := row]> rows).
Proof.
  intros (blocks & -> & Hfull & Hf & Hlen & Hk & Hn & Hkk & Hbits) Hrow Hslot. unfold table_set.
  rewrite Hlen, (proj2 (Nat.ltb_lt _ _) Hslot).
  pose proof (proj2 (lookup_lt_is_Some _ _) Hslot) as [old Hold]. rewrite full_lookup in Hold by done.
  apply bind_Some in Hold as (b & Hb & Hold). apply lookup_lt_Some in Hold.
  destruct (Forall2_lookup_r _ _ _ _ _ Hf Hb) as (c & Hc & Hgood). rewrite Hc. cbn [mbind option_bind].
  destruct (chunk_good_set n k c b (slot mod chunk_length) row Hgood Hrow) as (c' & -> & Hgood'); [lia|].
  cbn [mbind option_bind]. eexists. split; [done|].
  unfold put in Hgood'. rewrite (proj2 (Nat.eqb_neq _ _)) in Hgood' by lia.
  exists (<[slot / chunk_length := <[slot mod chunk_length := row]> b]> blocks). cbn [chunks table_len text_changes changed_blocks].
  split_and!; [by rewrite full_update|by eapply full_insert; [done|exact Hb|apply length_insert]| | | |lia|lia|].
  - apply Forall2_insert; [|done]. eapply Forall2_impl; [exact Hf|]. intros ? ?. apply chunk_good_weaken; lia.
  - by rewrite length_insert.
  - rewrite length_insert. lia.
  - intros x Hx. rewrite length_insert.
    destruct (N.eqb_spec x (block_index slot)) as [E|Hne].
    + rewrite E, block_index_small by lia. by apply lookup_lt_Some in Hc.
    + apply Hbits. rewrite contains_insert in Hx. case_match; [|rewrite contains_insert in Hx];
        rewrite (proj2 (N.eqb_neq _ _) Hne) in Hx; done.
Qed.

(** Finishing an update. *)
Lemma fold_change_spec (f : EntryChunk → option EntryChunk) (P : EntryChunk → list IndexedFile → Prop) indices cs bs :
  (∀ c b, P c b → ∃ c', f c = Some c' ∧ P c' b) → Forall2 P cs bs → (∀ x, x ∈ indices → N.to_nat x < length cs) →
  ∃ cs', fold_option (change_block f) indices cs = Some cs' ∧ Forall2 P cs' bs ∧ length cs' = length cs.
Proof.
  intros Hf. revert cs. induction indices as [|x indices IH]; intros cs Hall Hx; cbn [fold_option]; [by eexists|].
  pose proof (Hx x ltac:(set_solver)) as Hlt. destruct (proj2 (lookup_lt_is_Some _ _) Hlt) as [c Hc].
  destruct (Forall2_lookup_l _ _ _ _ _ Hall Hc) as (b & Hb & Hcb). destruct (Hf c b Hcb) as (c' & Hc' & Hgood).
  assert (Hstep : change_block f cs x = Some (<[N.to_nat x := c']> cs)).
  { unfold change_block. rewrite Hc. cbn [mbind option_bind]. by rewrite Hc'. }
  rewrite Hstep. cbn [mbind option_bind].
  destruct (IH (<[N.to_nat x := c']> cs)) as (cs' & Hcs' & Hall' & Hlen').
  - rewrite <-(list_insert_id bs _ _ Hb). by apply Forall2_insert.
  - intros y Hy. rewrite length_insert. apply Hx. set_solver.
  - exists cs'. rewrite length_insert in Hlen'. by split_and!.
Qed.
Lemma reclaim_good n k c b : chunk_good n k c b → ∃ c', reclaim c = Some c' ∧ chunk_good n k c' b.
Proof.
  intros (Hok & Hb & Hl). destruct (reclaim_spec c b Hok) as (c' & Hc' & Hok' & Hl' & Hb' & _); [lia|].
  exists c'. split; [done|]. unfold chunk_good. rewrite Hl'. split_and!; [done|lia|done].
Qed.
Lemma compact_good n k c b : chunk_good n k c b → ∃ c', (Some ∘ compact_integers) c = Some c' ∧ chunk_good n k c' b.
Proof.
  intros (Hok & Hb & Hl). exists (compact_integers c). split; [done|].
  split; [apply compact_integers_spec, Hok|by split].
Qed.
Lemma finish_update_spec n k tb rows : table_ok n k tb rows →
  ∃ tb', finish_update tb = Some tb' ∧ table_ok n k tb' rows.
Proof.
  intros Htb. unfold finish_update. destruct (bm_is_empty (changed_blocks tb)); [by exists tb|].
  destruct Htb as (blocks & -> & Hfull & Hf & Hlen & Hk & Hn & Hkk & Hbits).
  destruct (fold_change_spec reclaim _ (bm_iter (text_changes tb)) _ _ (reclaim_good n k) Hf) as (cs & -> & Hcs & Hl1).
  { intros x Hx%contains_iter. apply Hbits. by left. }
  cbn [mbind option_bind].
  destruct (fold_change_spec _ _ (bm_iter (changed_blocks tb)) _ _ (compact_good n k) Hcs) as (cs' & -> & Hcs' & Hl2).
  { intros x Hx%contains_iter. rewrite Hl1. apply Hbits. by right. }
  cbn [mbind option_bind]. eexists. split; [done|]. exists blocks. cbn [chunks table_len text_changes changed_blocks].
  split_and!; [done..|]. intros x. rewrite !contains_new. by intros [|].
Qed.

(** *** Any sequence of updates *)

Inductive TableOp := Push (row : IndexedFile) | Set_ (slot : nat) (row : IndexedFile) | FinishUpdate.
Definition run_op (tb : EntryTable) (op : TableOp) : option EntryTable :=
  match op with
  | Push row => push tb row
  | Set_ slot row => table_set tb slot row
  | FinishUpdate => finish_update tb
  end.
(** The list operation; an index out of bounds panics. *)
Definition spec_op (rows : list IndexedFile) (op : TableOp) : option (list IndexedFile) :=
  match op with
  | Push row => Some (rows ++ [row])
  | Set_ slot row => if slot <? length rows then Some (<[slot := row]> rows) else None
  | FinishUpdate => Some rows
  end.
Definition op_rows (ops : list TableOp) : list IndexedFile :=
  ops ≫= λ op, match op with Push row | Set_ _ row => [row] | FinishUpdate => [] end.
Lemma run_op_spec n k tb rows op :
  table_ok (rows_bytes (op_rows [op]) + n) (3 * length (op_rows [op]) + k) tb rows → Forall row_ok (op_rows [op]) →
  match spec_op rows op with
  | Some rows' => ∃ tb', run_op tb op = Some tb' ∧ table_ok n k tb' rows'
  | None => run_op tb op = None
  end.
Proof.
  intros Htb Hrows. destruct op as [row|slot row|]; simpl in *.
  - rewrite Forall_singleton in Hrows. apply push_spec; [|done]. unfold rows_bytes in Htb. simpl in Htb.
    by rewrite Nat.add_0_r in Htb.
  - rewrite Forall_singleton in Hrows. destruct (Nat.ltb_spec slot (length rows)) as [Hlt|Hge].
    + apply table_set_spec; [|done|done]. unfold rows_bytes in Htb. simpl in Htb. by rewrite Nat.add_0_r in Htb.
    + unfold table_set. destruct Htb as (_ & _ & _ & _ & -> & _). by rewrite (proj2 (Nat.ltb_ge _ _) Hge).
  - by apply finish_update_spec.
Qed.

Definition then_option {A} (f : A → TableOp → option A) : A → list TableOp → option A :=
  fix go a ops := match ops with [] => Some a | op :: ops => a ← f a op; go a ops end.
Definition run_ops : EntryTable → list TableOp → option EntryTable := then_option run_op.
Definition spec_ops : list IndexedFile → list TableOp → option (list IndexedFile) := then_option spec_op.
(** The most a block can gain from the updates: every row's texts, and three
    labels a row. *)
Definition budget (ops : list TableOp) : nat := rows_bytes (op_rows ops).
Lemma op_rows_cons op ops : op_rows (op :: ops) = op_rows [op] ++ op_rows ops.
Proof. unfold op_rows. simpl. by rewrite app_nil_r. Qed.
Lemma rows_bytes_app l k : rows_bytes (l ++ k) = rows_bytes l + rows_bytes k.
Proof. induction l as [|x l IH]; [done|]. simpl app. rewrite !rows_bytes_cons, IH. lia. Qed.
Lemma run_ops_spec n k tb rows ops :
  table_ok (budget ops + n) (3 * length (op_rows ops) + k) tb rows → Forall row_ok (op_rows ops) →
  match spec_ops rows ops with
  | Some rows' => ∃ tb', run_ops tb ops = Some tb' ∧ table_ok n k tb' rows'
  | None => run_ops tb ops = None
  end.
Proof.
  unfold budget, run_ops, spec_ops. revert tb rows. induction ops as [|op ops IH]; intros tb rows Htb Hrows; cbn [then_option].
  { by exists tb. }
  rewrite op_rows_cons in *. apply Forall_app in Hrows as [Hrow Hrows].
  rewrite rows_bytes_app, length_app in Htb.
  assert (Htb' : table_ok (rows_bytes (op_rows [op]) + (rows_bytes (op_rows ops) + n))
    (3 * length (op_rows [op]) + (3 * length (op_rows ops) + k)) tb rows).
  { replace (rows_bytes (op_rows [op]) + (rows_bytes (op_rows ops) + n)) with
      (rows_bytes (op_rows [op]) + rows_bytes (op_rows ops) + n) by lia.
    replace (3 * length (op_rows [op]) + (3 * length (op_rows ops) + k)) with
      (3 * (length (op_rows [op]) + length (op_rows ops)) + k) by lia. exact Htb. }
  pose proof (run_op_spec _ _ tb rows op Htb' Hrow) as Hop.
  destruct (spec_op rows op) as [rows'|]; [|by rewrite Hop].
  destruct Hop as (tb' & -> & Htb''). cbn [mbind option_bind]. by apply IH.
Qed.
Lemma table_default_ok n k : (N.of_nat n ≤ u32_max)%N → (N.of_nat k ≤ u32_max)%N → table_ok n k table_default [].
Proof.
  intros Hn Hk. exists []. unfold row_limit, u32_max in *. split_and!; [done|by left|constructor|done|simpl; lia|done|done|].
  intros x. simpl. rewrite !contains_new. by intros [|].
Qed.

(** C27: A table is a list of rows, whatever sequence of appends, changes and
    finished updates it goes through: every update does to the table what it
    does to the list, panicking exactly where the list index is out of range,
    and reading the table by slot, in order or at its end is reading the
    list.  (The arenas' 4 GiB and the labels' u32 are the only limits.) *)
Theorem table_is_list_of_rows n k tb rows ops :
  table_ok (budget ops + n) (3 * length (op_rows ops) + k) tb rows → Forall row_ok (op_rows ops) →
  match spec_ops rows ops with
  | None => run_ops tb ops = None
  | Some rows' => ∃ tb', run_ops tb ops = Some tb' ∧ table_ok n k tb' rows' ∧
      table_len tb' = length rows' ∧ mapM view_row (iter tb') = Some rows' ∧
      (∀ slot, ∃ v, get tb' slot = Some v ∧ (v ≫= view_row) = rows' !! slot) ∧
      (∀ slot, (at_ tb' slot ≫= view_row) = rows' !! slot) ∧
      ∃ v, last_view tb' = Some v ∧ (v ≫= view_row) = last rows'
  end.
Proof.
  intros Htb Hrows. pose proof (run_ops_spec n k tb rows ops Htb Hrows) as Hrun.
  destruct (spec_ops rows ops) as [rows'|]; [|done]. destruct Hrun as (tb' & -> & Htb').
  assert (Hlen : table_len tb' = length rows') by (by destruct Htb' as (bl & _ & _ & _ & Hl & _)).
  exists tb'. split_and!; [done|done|done|by eapply iter_spec| | |].
  - intros slot. destruct (get_spec n k tb' rows' slot Htb') as (v & ? & ?). eauto.
  - intros slot. destruct (get_spec n k tb' rows' slot Htb') as (v & Hv & Hr). unfold at_. rewrite Hv. exact Hr.
  - unfold last_view. rewrite Hlen, last_lookup. destruct (length rows') as [|m] eqn:E; simpl.
    + exists None. apply nil_length_inv in E as ->. done.
    + destruct (get_spec n k tb' rows' m Htb') as (v & ? & ?). eauto.
Qed.

(** *** Building a table *)

(** The rows of the source up to its first error; a row past the slot range is one. *)
Fixpoint collect (count : N) (rows : list (text + IndexedFile)) : text + list IndexedFile :=
  match rows with
  | [] => inr []
  | row :: rows =>
    if (u32_max <=? count)%N then inl (lit "snapshot_slot_overflow")
    else match row with
         | inl error => inl error
         | inr row => match collect (count + 1) rows with inl error => inl error | inr l => inr (row :: l) end
         end
  end.
Definition row_small (row : IndexedFile) : Prop := row_ok row ∧ (N.of_nat (row_bytes row) ≤ 2 ^ 18)%N.
Definition source_rows (rows : list (text + IndexedFile)) : list IndexedFile :=
  omap (λ row, match row with inr row => Some row | inl _ => None end) rows.
Lemma rows_bytes_small rows :
  Forall row_small rows → (N.of_nat (rows_bytes rows) ≤ 2 ^ 18 * N.of_nat (length rows))%N.
Proof.
  induction 1 as [|row rows [_ Hrow] Hf IH]; [done|]. rewrite rows_bytes_cons. cbn [length]. lia.
Qed.
(** A batch of up to 4096 small rows is a block: at most 2 GiB of text. *)
Lemma flush_spec n k tb rows batch :
  table_ok n k tb rows → length rows mod chunk_length = 0 → 0 < length batch ≤ chunk_length → Forall row_small batch →
  (N.of_nat n + 2 ^ 31 ≤ u32_max)%N → (N.of_nat k + 12288 ≤ u32_max)%N →
  (N.of_nat (length rows + length batch) ≤ u32_max)%N →
  ∃ tb', flush tb batch = Some tb' ∧ table_ok n k tb' (rows ++ batch).
Proof.
  intros (blocks & -> & Hfull & Hf & Hlen & Hk & Hn & Hkk & Hbits) Hmod Hbatch Hsmall Hroom Hlabels Hlimit.
  pose proof chunk_length_eq as Hc. unfold flush. pose proof (rows_bytes_small batch Hsmall) as Hbytes.
  unfold u32_max, row_limit in *.
  destruct (from_rows_spec (Sec:=Sec) batch) as (c & -> & Hok & _ & Hb & Hl); [|unfold u32_max; lia..|].
  { eapply Forall_impl; [exact Hsmall|]. by intros ? [? _]. }
  cbn [mbind option_bind]. eexists. split; [done|]. exists (blocks ++ [batch]). unfold row_limit, u32_max.
  cbn [chunks table_len text_changes changed_blocks].
  split_and!; [by rewrite concat_snoc| | |rewrite length_app; lia|rewrite length_app; lia|lia|lia|].
  - right. exists blocks, batch. split_and!; [done| |lia|lia].
    destruct Hfull as [->|(init & b & -> & Hinit & Hb')]; [constructor|]. rewrite Forall_app, Forall_singleton.
    split; [done|]. rewrite concat_snoc, length_app, (concat_len _ Hinit), (Nat.add_comm (_ * _)), Nat.Div0.mod_add in Hmod.
    destruct (decide (length b = chunk_length)); [done|]. rewrite Nat.mod_small in Hmod; lia.
  - apply Forall2_app; [done|]. constructor; [|constructor]. unfold chunk_good, u32_max. split_and!; [done|lia|lia].
  - intros x Hx. rewrite length_app. simpl. specialize (Hbits x Hx). lia.
Qed.
Lemma from_rows_loop_spec n k source : ∀ tb rows batch,
  table_ok n k tb rows → length rows mod chunk_length = 0 → length batch < chunk_length →
  Forall row_small batch → Forall row_small (source_rows source) →
  (N.of_nat n + 2 ^ 31 ≤ u32_max)%N → (N.of_nat k + 12288 ≤ u32_max)%N →
  (N.of_nat (length rows + length batch) ≤ u32_max)%N →
  ∃ result, from_rows_loop source tb batch = Some result ∧
    match collect (N.of_nat (length rows + length batch)) source with
    | inl error => result = inl error
    | inr l => ∃ tb', result = inr tb' ∧ table_ok n k tb' (rows ++ batch ++ l)
    end.
Proof.
  pose proof chunk_length_eq as Hc.
  induction source as [|[error|row] source IH]; intros tb rows batch Htb Hmod Hbatch Hsmall Hsource Hn Hk Hlimit;
    cbn [from_rows_loop collect].
  - rewrite app_nil_r. destruct (Nat.eqb_spec (length batch) 0) as [Hz|Hnz].
    + apply nil_length_inv in Hz as ->. rewrite app_nil_r. eauto.
    + destruct (flush_spec n k tb rows batch) as (tb' & -> & Htb'); try done; [lia|]. cbn [mbind option_bind]. eauto.
  - destruct Htb as (blocks & _ & _ & _ & -> & _). case_match; eauto.
  - pose proof Htb as (blocks & _ & _ & _ & Hlen & _). rewrite Hlen.
    destruct (N.leb_spec u32_max (N.of_nat (length rows + length batch))) as [Hover|Hroom]; [eauto|].
    apply Forall_cons in Hsource as [Hrow Hsource].
    assert (Hsmall' : Forall row_small (batch ++ [row])) by (apply Forall_app; split; [done|by constructor]).
    assert (Hlen' : length (batch ++ [row]) = S (length batch)) by (rewrite length_app; simpl; lia).
    assert (Hres : ∀ tb' rows' batch' result, rows' ++ batch' = rows ++ batch ++ [row] →
      match collect (N.of_nat (length rows' + length batch')) source with
      | inl error => result = inl error | inr l => ∃ tb'', result = inr tb'' ∧ table_ok n k tb'' (rows' ++ batch' ++ l) end →
      match match collect (N.of_nat (length rows + length batch) + 1) source with
            | inl error => inl error | inr l => inr (row :: l) end with
      | inl error => result = inl error | inr l => ∃ tb'', result = inr tb'' ∧ table_ok n k tb'' (rows ++ batch ++ l) end).
    { intros _ rows' batch' result Heq Hm.
      replace (N.of_nat (length rows + length batch) + 1)%N with (N.of_nat (length rows' + length batch')).
      2: { rewrite <-!length_app, Heq, !length_app. simpl. lia. }
      destruct (collect _ source) as [e|l]; [done|]. destruct Hm as (tb'' & -> & Htb''). exists tb''. split; [done|].
      rewrite app_assoc, Heq in Htb''. by rewrite <-!app_assoc in Htb''. }
    destruct (Nat.eqb_spec (length (batch ++ [row])) chunk_length) as [Hfull|Hnot].
    + destruct (flush_spec n k tb rows (batch ++ [row])) as (tb' & -> & Htb'); try done; [lia|lia|].
      cbn [mbind option_bind]. destruct (IH tb' (rows ++ batch ++ [row]) []) as (result & Hr & Hm); try done.
      { rewrite length_app, Hfull, <-(Nat.mul_1_l chunk_length) at 1. by rewrite Nat.Div0.mod_add. }
      { simpl. lia. }
      { rewrite length_app, Hlen'. simpl. lia. }
      exists result. split; [exact Hr|]. eapply (Hres tb' _ []); [by rewrite app_nil_r|exact Hm].
    + destruct (IH tb rows (batch ++ [row])) as (result & Hr & Hm); try done; [lia|lia|].
      exists result. split; [exact Hr|]. by eapply (Hres tb).
Qed.

Lemma table_from_rows_spec n k source :
  Forall row_small (source_rows source) →
  (N.of_nat n + 2 ^ 31 ≤ u32_max)%N → (N.of_nat k + 12288 ≤ u32_max)%N →
  match collect 0 source with
  | inl error => table_from_rows (B:=B) (Sec:=Sec) source = Some (inl error)
  | inr l => ∃ tb : EntryTable, table_from_rows source = Some (inr tb) ∧ table_ok n k tb l ∧
      mapM view_row (iter tb) = Some l
  end.
Proof.
  intros Hsource Hn Hk. pose proof chunk_length_eq as Hc.
  destruct (from_rows_loop_spec n k source table_default [] []) as (result & Hr & Hm); try done.
  { apply table_default_ok; unfold u32_max in *; lia. }
  { simpl. lia. }
  unfold table_from_rows. rewrite Hr.
  change (N.of_nat (length (@nil IndexedFile) + length (@nil IndexedFile))) with 0%N in Hm.
  destruct (collect 0 source) as [e|l]; [by rewrite Hm|].
  destruct Hm as (tb & -> & Htb). exists tb. split_and!; [done|done|by eapply iter_spec].
Qed.

(** C28: Building a table from a stream of rows never panics (rows of at most
    256 KiB of text): the stream's first error, or the overflow of the 32-bit
    slots, whichever comes first, is the result, and otherwise the table holds
    exactly the rows in order, with room for later updates. *)
Theorem table_from_rows_result n k source :
  Forall row_small (source_rows source) →
  (N.of_nat n + 2 ^ 31 ≤ u32_max)%N → (N.of_nat k + 12288 ≤ u32_max)%N →
  match collect 0 source with
  | inl error => table_from_rows (B:=B) (Sec:=Sec) source = Some (inl error)
  | inr l => ∃ tb : EntryTable, table_from_rows source = Some (inr tb) ∧ table_ok n k tb l ∧
      mapM view_row (iter tb) = Some l
  end.
Proof. exact (table_from_rows_spec n k source). Qed.

(** Blocks read back from a cache become a table only in the shape every
    table has: none empty, every block but the last full, and no more rows
    than slots; the table then reads as the blocks' rows. *)
Theorem from_chunks_accepts_tables (cs : list EntryChunk) blocks :
  Forall2 chunk_ok cs blocks →
  match from_chunks (B:=B) cs with
  | Some tb => full blocks ∧ (N.of_nat (length (concat blocks)) ≤ u32_max)%N ∧ table_len tb = length (concat blocks) ∧
      (∀ slot, ∃ v, get tb slot = Some v ∧ (v ≫= view_row) = concat blocks !! slot)
  | None => ¬ (full blocks ∧ (N.of_nat (length (concat blocks)) ≤ u32_max)%N)
  end.
Proof.
  intros Hall. pose proof chunk_length_eq as Hc. unfold from_chunks.
  assert (Htotal : sum_list (chunk_len <$> cs) = length (concat blocks)).
  { induction Hall as [|c b cs blocks Hcb Hall IH]; [done|]. cbn [concat]. rewrite length_app, <-IH, <-(chunk_len_spec c b Hcb). done. }
  rewrite Htotal. pose proof (Forall2_length _ _ _ Hall) as Hlen.
  set (bad := λ '(i, c), (chunk_len c =? 0) || (chunk_length <? chunk_len c) ||
    (S i <? length cs) && negb (chunk_len c =? chunk_length)).
  assert (Hshape : existsb bad (imap pair cs) = false ↔ full blocks).
  { rewrite full_iff, <-not_true_iff_false, existsb_exists. split.
    - intros Hbad i b Hb. destruct (Forall2_lookup_r _ _ _ _ _ Hall Hb) as (c & Hi & Hok).
      pose proof (chunk_len_spec c b Hok) as Hcl. rewrite <-Hlen. 
      destruct (bad (i, c)) eqn:E.
      + destruct Hbad. exists (i, c). split; [|done]. apply list_elem_of_In, list_elem_of_lookup_2 with i. by rewrite list_lookup_imap, Hi.
      + simpl in E. apply orb_false_iff in E as [[E1 E2]%orb_false_iff E3].
        apply Nat.eqb_neq in E1. apply Nat.ltb_ge in E2. split; [lia|]. intros Hi'.
        rewrite (proj2 (Nat.ltb_lt _ _) Hi') in E3. simpl in E3. apply negb_false_iff, Nat.eqb_eq in E3. lia.
    - intros Hfull ([i c] & Hin & Hbad). apply list_elem_of_In, list_elem_of_lookup in Hin as [j Hj].
      rewrite list_lookup_imap in Hj. apply fmap_Some in Hj as (c' & Hj & [= -> ->]).
      destruct (Forall2_lookup_l _ _ _ _ _ Hall Hj) as (b & Hb & Hok). pose proof (chunk_len_spec _ b Hok) as Hcl.
      destruct (Hfull j b Hb) as [Hb1 Hb2]. simpl in Hbad. rewrite Hcl, Hlen in Hbad.
      apply orb_true_iff in Hbad as [[E%Nat.eqb_eq|E%Nat.ltb_lt]%orb_true_iff|[E1%Nat.ltb_lt E2%negb_true_iff%Nat.eqb_neq]%andb_true_iff]; [lia|lia|].
      by apply E2, Hb2. }
  destruct (N.ltb_spec u32_max (N.of_nat (length (concat blocks)))) as [Hover|Hfits]; simpl; [intros [_ ?]; lia|].
  destruct (existsb bad (imap pair cs)) eqn:E.
  - intros [Hfull _]. apply Hshape in Hfull. congruence.
  - pose proof (proj1 Hshape eq_refl) as Hfull. split_and!; [done|done|done|]. intros slot. by apply get_blocks.
Qed.
End proofs.

(** ** Witnesses *)

Section witnesses.
#[local] Existing Instance merging_sort.
Definition sample_row (id_ : Z) (name_ : text) (props : simple_json) : @IndexedFile simple_json_json :=
  {| i_id := id_; i_size := 4096; i_modified := 1; i_created := 2; i_changed := 3; i_modified_ns := 4; i_changed_ns := 5;
     i_file_id := 6; i_parent_id := 7; i_flags := 0; i_path := lit "/a/b/" ++ name_; i_name := name_;
     i_folded_name := name_; i_folded_path := lit "/a/b/" ++ name_; i_search_name := name_;
     i_search_path := lit "/a/b/" ++ name_; i_parent := lit "/a/b"; i_extension := lit "txt";
     i_folded_extension := lit "txt"; i_volume_id := lit "v"; i_is_dir := false; i_is_symlink := true;
     i_content_indexed := false; i_properties := props |}.
Definition row_a := sample_row 1 (lit "a.txt") JNull.
Definition row_b := sample_row 2 (lit "bb.txt") (JText (lit "x")).
Definition row_c := sample_row (-3) (lit "a.txt") (JObject []).
Lemma sample_rows_small : Forall row_small [row_a; row_b; row_c].
Proof.
  repeat (constructor; [split; [split; [by intros []|split; [by intros []|done]]|done]|]). constructor.
Qed.
Ltac each := repeat (apply Forall_cons_2; [assumption|]); apply Forall_nil_2.
Definition sample_ops : list TableOp := [Push row_a; Push row_b; Set_ 1 row_c; FinishUpdate; Push row_b].

Lemma table_is_list_of_rows_witness :
  ∃ tb : EntryTable (gset N) unit, run_ops table_default sample_ops = Some tb ∧
    mapM view_row (iter tb) = Some [row_a; row_c; row_b].
Proof.
  assert (Hrows : Forall row_ok (op_rows sample_ops)).
  { pose proof sample_rows_small as Hs. rewrite !Forall_cons in Hs. destruct Hs as ([? _] & [? _] & [? _] & _).
    change (op_rows sample_ops) with [row_a; row_b; row_c; row_b]. each. }
  assert (Hok : table_ok (B:=gset N) (Sec:=unit) (budget sample_ops + 0) (3 * length (op_rows sample_ops) + 0)
    table_default []).
  { apply table_default_ok; by vm_compute. }
  pose proof (table_is_list_of_rows (B:=gset N) (Sec:=unit) 0 0 table_default [] sample_ops Hok Hrows) as Ht.
  destruct Ht as (tb & Hrun & _ & _ & Hiter & _). exists tb. split; [exact Hrun|exact Hiter].
Defined.
Lemma table_from_rows_result_witness :
  table_from_rows (B:=gset N) (Sec:=unit) [inr row_a; inl (lit "boom"); inr row_b] = Some (inl (lit "boom")) ∧
  ∃ tb : EntryTable (gset N) unit, table_from_rows [inr row_a; inr row_b] = Some (inr tb) ∧
    mapM view_row (iter tb) = Some [row_a; row_b].
Proof.
  pose proof sample_rows_small as Hs. rewrite !Forall_cons in Hs. destruct Hs as (Ha & Hb & _).
  split.
  - apply (table_from_rows_result (B:=gset N) (Sec:=unit) 0 0 [inr row_a; inl (lit "boom"); inr row_b]);
      [each|done|done].
  - pose proof (table_from_rows_result (B:=gset N) (Sec:=unit) 0 0 [inr row_a; inr row_b]
      ltac:(each) ltac:(done) ltac:(done)) as Ht.
    destruct Ht as (tb & Htb & _ & Hiter). exists tb. split; [exact Htb|exact Hiter].
Defined.
Lemma from_chunks_accepts_tables_witness :
  ∃ c : EntryChunk unit, chunk_ok c [row_a] ∧ ∃ tb, from_chunks (B:=gset N) [c] = Some tb ∧ table_len tb = 1.
Proof.
  pose proof sample_rows_small as Hs. rewrite !Forall_cons in Hs. destruct Hs as ([Ha _] & _).
  pose proof (from_rows_spec (Sec:=unit) [row_a] ltac:(each) ltac:(done) ltac:(done)) as Hc.
  destruct Hc as (c & _ & Hok & _). exists c. split; [exact Hok|].
  assert (Hall : Forall2 chunk_ok [c] [[row_a]]) by (constructor; [exact Hok|constructor]).
  pose proof (from_chunks_accepts_tables (B:=gset N) [c] [[row_a]] Hall) as Ht.
  destruct (from_chunks (B:=gset N) [c]) as [tb|].
  - destruct Ht as (_ & _ & Hlen & _). exists tb. split; [reflexivity|exact Hlen].
  - exfalso. apply Ht. split; [|done]. right. exists [], [row_a]. rewrite chunk_length_eq. simpl.
    split; [done|]. split; [done|lia].
Defined.
End witnesses.
