(* ===== verification/FileSlots.v ===== *)
(** * core/src/index_store.rs, [FileSlots]: persistent ids to slots

    Most rows arrive in increasing order of id, so a sorted prefix of the
    table needs no map and is searched by bisection; the other slots are in a
    sparse map.  The theorem: it is a finite map from ids to slots. *)
From S2P Require Import Prelude.

Definition snapshot_slot_overflow : string := "snapshot_slot_overflow".
Definition duplicate_persistent_file_id : string := "duplicate_persistent_file_id".

Record FileSlots := { sorted_prefix : nat; exceptions : gmap Z N }.
Definition slots_default : FileSlots := {| sorted_prefix := 0; exceptions := ∅ |}.

Section file_slots.
(** [entries.at(slot).id()]; [None] is the panic out of the table. *)
Context (id_at : nat → option Z).

(** The bisection of [get]; the range shrinks every turn, so its length is
    enough fuel ([bisect_spec]). *)
Fixpoint bisect (fuel lower upper : nat) (id : Z) : option (option nat) :=
  if lower <? upper then
    match fuel with
    | O => None
    | S fuel =>
      let middle := lower + (upper - lower) / 2 in
      here ← id_at middle;
      match (here ?= id)%Z with
      | Lt => bisect fuel (middle + 1) upper id
      | Gt => bisect fuel lower middle id
      | Eq => Some (Some middle)
      end
    end
  else Some None.
Definition slots_get (fs : FileSlots) (id : Z) : option (option nat) :=
  found ← bisect (sorted_prefix fs) 0 (sorted_prefix fs) id;
  match found with
  | Some middle => Some (Some middle)
  | None => Some (N.to_nat <$> exceptions fs !! id)
  end.
(** The slot and the changed map, or the error; the outer [None] is a panic. *)
Definition append_at (fs : FileSlots) (id : Z) (length : nat) : option (result (nat * FileSlots)) :=
  if (u32_max <? N.of_nat length)%N then Some (Err snapshot_slot_overflow)
  else
    extends ← (if sorted_prefix fs =? length then
                 match length with
                 | O => Some true
                 | S last => here ← id_at last; Some (here <? id)%Z
                 end
               else Some false);
    if extends : bool then
      Some (Ok (length, {| sorted_prefix := S (sorted_prefix fs); exceptions := exceptions fs |}))
    else
      found ← slots_get fs id;
      match found with
      | Some _ => Some (Err duplicate_persistent_file_id)
      | None =>
        Some (Ok (length, {| sorted_prefix := sorted_prefix fs;
                             exceptions := <[id := N.of_nat length]> (exceptions fs) |}))
      end.
(** The loop of [from_entries] from slot [slot] on. *)
Fixpoint append_all (fs : FileSlots) (slot : nat) (rest : nat) : option (result FileSlots) :=
  match rest with
  | O => Some (Ok fs)
  | S rest =>
    id ← id_at slot;
    r ← append_at fs id slot;
    match r with
    | Ok (_, fs) => append_all fs (S slot) rest
    | Err e => Some (Err e)
    end
  end.
Definition slots_from_entries (len : nat) : option (result FileSlots) := append_all slots_default 0 len.
End file_slots.

(** ** A finite map *)

(** The ids of slots [0 .. len): distinct, increasing on the prefix; the
    other slots are exactly the exceptions. *)
Record slots_ok (fs : FileSlots) (ids : list Z) : Prop := {
  slots_prefix : sorted_prefix fs ≤ length ids;
  slots_sorted i j a b : i < j → j < sorted_prefix fs → ids !! i = Some a → ids !! j = Some b → (a < b)%Z;
  slots_exceptions id slot : exceptions fs !! id = Some slot ↔
    ids !! N.to_nat slot = Some id ∧ sorted_prefix fs ≤ N.to_nat slot;
  slots_distinct : NoDup ids;
}.
Lemma slots_default_ok : slots_ok slots_default [].
Proof.
  split; simpl; [lia|intros; lia| |constructor]. intros id slot. rewrite lookup_empty, lookup_nil. naive_solver.
Qed.

Lemma bisect_spec ids prefix fuel lower upper id :
  upper - lower ≤ fuel → lower ≤ upper → upper ≤ prefix → prefix ≤ length ids →
  (∀ i j a b, i < j → j < prefix → ids !! i = Some a → ids !! j = Some b → (a < b)%Z) →
  (∀ i a, i < lower → ids !! i = Some a → (a < id)%Z) →
  (∀ i a, upper ≤ i → i < prefix → ids !! i = Some a → (id < a)%Z) →
  ∃ r, bisect (λ i, ids !! i) fuel lower upper id = Some r ∧
    match r with
    | Some slot => ids !! slot = Some id ∧ slot < prefix
    | None => ∀ i, i < prefix → ids !! i ≠ Some id
    end.
Proof.
  revert lower upper. induction fuel as [|fuel IH]; intros lower upper Hf Hle Hup Hp Hsort Hlow Hhigh; cbn [bisect].
  - destruct (Nat.ltb_spec lower upper); [lia|]. exists None. split; [done|]. intros i Hi Hid.
    destruct (decide (i < lower)); [specialize (Hlow i id); naive_solver lia|].
    specialize (Hhigh i id ltac:(lia) Hi Hid). lia.
  - destruct (Nat.ltb_spec lower upper) as [Hlt|Hge].
    + assert (Hm : lower ≤ lower + (upper - lower) / 2 < upper) by lia.
      set (middle := lower + (upper - lower) / 2) in *. clearbody middle.
      destruct (lookup_lt_is_Some_2 ids middle) as [here Hhere]; [lia|]. rewrite Hhere. cbn [mbind option_bind].
      destruct (Z.compare_spec here id) as [->|Hc|Hc].
      * exists (Some middle). split; [done|]. split; [done|lia].
      * apply IH; try done; [lia|lia|]. intros i a Hi Ha. destruct (decide (i = middle)) as [->|]; [congruence|].
        pose proof (Hsort i middle a here ltac:(lia) ltac:(lia) Ha Hhere). lia.
      * apply IH; try done; [lia|lia|lia|]. intros i a Hi Hip Ha. destruct (decide (i = middle)) as [->|]; [congruence|].
        pose proof (Hsort middle i here a ltac:(lia) ltac:(lia) Hhere Ha). lia.
    + exists None. split; [done|]. intros i Hi Hid.
      destruct (decide (i < lower)); [specialize (Hlow i id ltac:(done) Hid); lia|].
      specialize (Hhigh i id ltac:(lia) Hi Hid). lia.
Qed.
Lemma slots_get_spec fs ids id :
  slots_ok fs ids → ∃ r, slots_get (λ i, ids !! i) fs id = Some r ∧
    match r with Some slot => ids !! slot = Some id | None => id ∉ ids end.
Proof.
  intros [Hp Hs He Hd]. unfold slots_get.
  destruct (bisect_spec ids (sorted_prefix fs) (sorted_prefix fs) 0 (sorted_prefix fs) id) as (r & -> & Hr);
    [lia|lia|lia|done|done|intros; lia|intros; lia|]. cbn [mbind option_bind].
  destruct r as [slot|]; [exists (Some slot); by destruct Hr|].
  eexists. split; [done|]. destruct (exceptions fs !! id) as [slot|] eqn:E; cbn [fmap option_fmap option_map].
  - by apply He in E as [? _].
  - intros (i & Hi)%list_elem_of_lookup. destruct (decide (i < sorted_prefix fs)); [by apply (Hr i)|].
    assert (exceptions fs !! id = Some (N.of_nat i)); [|congruence]. apply He. rewrite Nat2N.id. split; [done|lia].
Qed.
(** The lookup on the accessor of a table that has these ids. *)
Lemma slots_get_ext f g fs id : (∀ i, f i = g i) → slots_get f fs id = slots_get g fs id.
Proof.
  intros Hfg. unfold slots_get. assert (∀ fuel lower upper, bisect f fuel lower upper id = bisect g fuel lower upper id) as ->; [|done].
  induction fuel as [|fuel IH]; intros lower upper; cbn [bisect]; [done|]. rewrite Hfg.
  case_match; [|done]. destruct (g _); [|done]. cbn [mbind option_bind]. case_match; auto.
Qed.
Lemma append_at_ext f g fs id len : (∀ i, f i = g i) → append_at f fs id len = append_at g fs id len.
Proof.
  intros Hfg. unfold append_at. rewrite (slots_get_ext f g fs id Hfg). destruct len; [done|]. by rewrite Hfg.
Qed.
Lemma append_all_ext f g rest : (∀ i, f i = g i) → ∀ fs slot, append_all f fs slot rest = append_all g fs slot rest.
Proof.
  intros Hfg. induction rest as [|rest IH]; intros fs slot; cbn [append_all]; [done|]. rewrite Hfg.
  destruct (g slot); [|done]. cbn [mbind option_bind]. rewrite (append_at_ext f g) by done.
  destruct (append_at g fs _ slot) as [[[]|]|]; cbn [mbind option_bind]; auto.
Qed.
Definition appended (ids : list Z) (id : Z) (r : result (nat * FileSlots)) : Prop :=
  match r with
  | Ok (slot, fs') => slot = length ids ∧ (N.of_nat (length ids) ≤ u32_max)%N ∧ id ∉ ids ∧ slots_ok fs' (ids ++ [id])
  | Err e => (e = snapshot_slot_overflow ∧ (u32_max < N.of_nat (length ids))%N) ∨
             (e = duplicate_persistent_file_id ∧ id ∈ ids)
  end.
Lemma append_at_spec fs ids id more :
  slots_ok fs ids → ∃ r, append_at (λ i, (ids ++ more) !! i) fs id (length ids) = Some r ∧ appended ids id r.
Proof.
  intros Hok. pose proof Hok as [Hp Hs He Hd]. unfold append_at.
  destruct (N.ltb_spec u32_max (N.of_nat (length ids))) as [Hover|Hfits]; [eexists; split; [done|by left]|].
  assert (Hget : ∃ r, slots_get (λ i, (ids ++ more) !! i) fs id = Some r ∧
    match r with Some slot => id ∈ ids | None => id ∉ ids end).
  { destruct (slots_get_spec fs ids id Hok) as (r & Hr & Hspec). exists r. split.
    - rewrite <-Hr. unfold slots_get. f_equal. clear -Hp.
      assert (Hgo : ∀ fuel lower upper, upper ≤ length ids →
        bisect (λ i, (ids ++ more) !! i) fuel lower upper id = bisect (λ i, ids !! i) fuel lower upper id); [|by apply Hgo].
      induction fuel as [|fuel IH]; intros lower upper Hu; cbn [bisect]; [done|].
      destruct (Nat.ltb_spec lower upper); [|done].
      rewrite lookup_app_l by lia. destruct (ids !! _); [|done]. cbn [mbind option_bind].
      case_match; [done|apply IH; lia|apply IH; lia].
    - destruct r as [slot|]; [by eapply list_elem_of_lookup_2|done]. }
  destruct Hget as (r & Hr & Hspec).
  assert (Hext : ∃ b, (if sorted_prefix fs =? length ids then
      match length ids with O => Some true | S last => here ← (ids ++ more) !! last; Some (here <? id)%Z end else Some false) = Some b ∧
    (b = true → sorted_prefix fs = length ids ∧ ∀ i a, ids !! i = Some a → (a < id)%Z)).
  { destruct (Nat.eqb_spec (sorted_prefix fs) (length ids)) as [E|]; [|by exists false].
    destruct (length ids) as [|last] eqn:El.
    - exists true. split; [done|]. intros _. split; [done|]. intros i a Ha. apply lookup_lt_Some in Ha. lia.
    - destruct (lookup_lt_is_Some_2 ids last) as [here Hhere]; [lia|]. rewrite lookup_app_l, Hhere by lia.
      exists (here <? id)%Z. split; [done|]. intros Hlt%Z.ltb_lt. split; [done|]. intros i a Ha.
      pose proof (lookup_lt_Some _ _ _ Ha). destruct (decide (i = last)) as [->|]; [congruence|].
      pose proof (Hs i last a here ltac:(lia) ltac:(lia) Ha Hhere). lia. }
  destruct Hext as (b & -> & Hb). cbn [mbind option_bind]. destruct b.
  - destruct (Hb eq_refl) as [Hpl Hmax]. assert (Hnew : id ∉ ids).
    { intros (i & Hi)%list_elem_of_lookup. specialize (Hmax i id Hi). lia. }
    eexists. split; [done|]. split_and!; [done|done|done|]. split; simpl.
    + rewrite length_app. simpl. lia.
    + intros i j a c Hij Hj Ha Hc. destruct (decide (j = length ids)) as [->|].
      * rewrite lookup_app_r, Nat.sub_diag in Hc by lia. injection Hc as <-. rewrite lookup_app_l in Ha by lia. by apply (Hmax i).
      * rewrite lookup_app_l in Ha, Hc by lia. by apply (Hs i j); [|lia|..].
    + intros id' slot. rewrite He. split.
      * intros [Hl Hge]. apply lookup_lt_Some in Hl. lia.
      * intros [Hl Hge]. apply lookup_lt_Some in Hl. rewrite length_app in Hl. simpl in Hl. lia.
    + apply NoDup_app. split_and!; [done| |apply NoDup_singleton]. by intros x Hx ->%list_elem_of_singleton.
  - rewrite Hr. cbn [mbind option_bind]. destruct r as [slot|].
    + eexists. split; [done|by right].
    + eexists. split; [done|]. split_and!; [done|done|done|]. split; simpl.
      * rewrite length_app. lia.
      * intros i j a c Hij Hj Ha Hc. rewrite lookup_app_l in Ha, Hc by lia. by apply (Hs i j).
      * intros id' slot. destruct (decide (id' = id)) as [->|Hne].
        -- rewrite lookup_insert_eq. split.
           ++ intros [= <-]. rewrite Nat2N.id, lookup_app_r, Nat.sub_diag by lia. split; [done|lia].
           ++ intros [Hl _]. f_equal. destruct (decide (N.to_nat slot < length ids)).
              ** rewrite lookup_app_l in Hl by done. exfalso. apply Hspec. by eapply list_elem_of_lookup_2.
              ** apply lookup_lt_Some in Hl. rewrite length_app in Hl. simpl in Hl. lia.
        -- rewrite lookup_insert_ne, He by done. split.
           ++ intros [Hl Hge]. split; [|done]. by apply lookup_app_l_Some.
           ++ intros [Hl Hge]. split; [|done]. destruct (decide (N.to_nat slot < length ids)); [by rewrite lookup_app_l in Hl|].
              rewrite lookup_app_r in Hl by lia. apply list_lookup_singleton_Some in Hl as [_ ?]. congruence.
      * apply NoDup_app. split_and!; [done| |apply NoDup_singleton]. by intros x Hx ->%list_elem_of_singleton.
Qed.
Lemma append_all_spec ids rest fs done_ :
  ids = done_ ++ rest → slots_ok fs done_ →
  ∃ r, append_all (λ i, ids !! i) fs (length done_) (length rest) = Some r ∧
    match r with
    | Ok fs' => slots_ok fs' ids
    | Err e => (e = snapshot_slot_overflow ∧ (u32_max < N.of_nat (length ids))%N) ∨
               (e = duplicate_persistent_file_id ∧ ¬ NoDup ids)
    end.
Proof.
  revert fs done_. induction rest as [|id rest IH]; intros fs done_ -> Hok; cbn [length append_all].
  { exists (Ok fs). by rewrite app_nil_r. }
  rewrite lookup_app_r, Nat.sub_diag by lia. cbn [mbind option_bind].
  destruct (append_at_spec fs done_ id (id :: rest) Hok) as (r & Hr & Hspec).
  change ((id :: rest) !! 0) with (Some id). cbn [mbind option_bind]. rewrite Hr. cbn [mbind option_bind].
  destruct r as [[slot fs']|e].
  - destruct Hspec as (-> & _ & _ & Hok'). destruct (IH fs' (done_ ++ [id])) as (r & Hr' & Hres).
    { by rewrite <-app_assoc. }
    { done. }
    rewrite length_app, Nat.add_1_r in Hr'. exists r. by split.
  - eexists. split; [done|]. destruct Hspec as [[-> Hover]|[-> Hdup]].
    + left. split; [done|]. rewrite length_app. lia.
    + right. split; [done|]. intros Hnd. apply NoDup_app in Hnd as (_ & Hnd & _). by apply (Hnd id Hdup), elem_of_cons; left.
Qed.

(** C20: File slots are a finite map.  Built over any column of ids they
    succeed exactly when the ids are distinct and fit 32-bit slots (and
    otherwise say which failed); then looking an id up gives its one slot or
    nothing, and appending an id gives the slot past the end, or is refused,
    with the reason, when the id is already there or no slot is left.  The
    bisection always ends and no lookup leaves the table. *)
Theorem file_slots_are_a_map ids :
  ∃ r, slots_from_entries (λ i, ids !! i) (length ids) = Some r ∧
    match r with
    | Err e => (e = snapshot_slot_overflow ∧ (u32_max < N.of_nat (length ids))%N) ∨
               (e = duplicate_persistent_file_id ∧ ¬ NoDup ids)
    | Ok _ => NoDup ids
    end ∧
    ∀ fs, r = Ok fs ∨ slots_ok fs ids → ∀ id,
      (∃ found, slots_get (λ i, ids !! i) fs id = Some found ∧ ∀ slot, found = Some slot ↔ ids !! slot = Some id) ∧
      (∃ added, append_at (λ i, ids !! i) fs id (length ids) = Some added ∧ appended ids id added).
Proof.
  destruct (append_all_spec ids ids slots_default [] eq_refl slots_default_ok) as (r & Hr & Hspec).
  exists r. split; [exact Hr|]. split; [destruct r; [by destruct Hspec|exact Hspec]|].
  intros fs Hfs id. assert (Hok : slots_ok fs ids) by (destruct Hfs as [->|?]; done). split.
  - destruct (slots_get_spec fs ids id Hok) as (found & Hf & Hg). exists found. split; [done|]. intros slot.
    split; [by intros ->|]. intros Hs. destruct found as [slot'|].
    + f_equal. exact (NoDup_lookup _ _ _ _ (slots_distinct _ _ Hok) Hg Hs).
    + exfalso. apply Hg. by eapply list_elem_of_lookup_2.
  - destruct (append_at_spec fs ids id [] Hok) as (added & Ha & Hs). exists added. by rewrite app_nil_r in Ha.
Qed.
Example file_slots_example :
  let ids := [3; 5; 9; 4; 12]%Z in
  (λ r, match r with
        | Ok fs => (sorted_prefix fs, slots_get (λ i, ids !! i) fs 4, slots_get (λ i, ids !! i) fs 9, slots_get (λ i, ids !! i) fs 6)
        | Err _ => (0, None, None, None)
        end) <$> slots_from_entries (λ i, ids !! i) 5 = Some (3, Some (Some 3), Some (Some 2), Some None).
Proof. vm_compute. reflexivity. Qed.
Lemma file_slots_are_a_map_witness :
  ∃ fs, slots_from_entries (λ i, [3; 5; 4]%Z !! i) 3 = Some (Ok fs) ∧
    slots_get (λ i, [3; 5; 4]%Z !! i) fs 4 = Some (Some 2).
Proof.
  destruct (file_slots_are_a_map [3; 5; 4]%Z) as (r & Hr & _ & Hmap).
  destruct r as [fs|e]; [|vm_compute in Hr; discriminate Hr].
  exists fs. split; [exact Hr|]. destruct (Hmap fs (or_introl eq_refl) 4%Z) as [(found & Hf & Hslot) _].
  rewrite Hf. f_equal. by apply Hslot.
Defined.
