(* ===== verification/SnapshotOrders.v ===== *)
(** * core/src/index_store.rs: keeping sorted orders in step with a change

    [updated_order] repairs an order of the live slots after some slots were
    changed, added or removed; [updated_path_ties] repairs the set of slots
    whose path compares naturally equal to another's; [result_order] answers
    any requested order, refining the path order where it can.  Each is
    proved equal to computing its result from scratch.  The tables are read
    through [row], the row of a slot; a slot outside the table panics in the
    code, sorts first here, and never occurs under the theorems. *)
From S2P Require Import Prelude Bitmap OrderedMerge SlotOrder NaturalOrder Text TextView Float QueryLex.
From S2P Require Import QueryNumber QuerySyntax FileEntry ResultOrder SlotSort.

Section orders.
Context `{Json} {F : Type} `{!FileEntry F} {B : Type} `{Roaring B} {Sec : Type} `{!UnstableSort}.
Notation SlotOrder := (SlotOrder Sec).
Implicit Types (row : N → option F) (o : SlotOrder) (order : ResultOrder).

(** [order.compare(&entries.at(a), &entries.at(b))] *)
Definition slot_compare row order (a b : N) : comparison :=
  match row a, row b with
  | Some x, Some y => order_compare order x y
  | None, None => Eq
  | None, Some _ => Lt
  | Some _, None => Gt
  end.
(** The position of the row [target] in an order, by [compare]. *)
Definition rank_of (compare : F → F → comparison) row o (target : F) : option nat :=
  match order_binary_search_by o (λ candidate, match row candidate with Some c => compare c target | None => Lt end) with
  | inl rank => Some rank
  | inr _ => None
  end.

Definition updated_order (previous : SlotOrder) (previous_row : N → option F) (changed live : B)
    row order : option SlotOrder :=
  let replacements :=
    sort_unstable_by (slot_compare row order) (filter (λ slot, bm_contains slot live = true) (bm_iter changed)) in
  let lookup_work := sat_mul (sat_mul (bm_len changed) (Nat.log2 (Nat.max (len previous) 1) + 1)) 32 in
  let removed :=
    if lookup_work <? len previous then
      omap (λ slot, old ← previous_row slot; rank_of (order_compare order) previous_row previous old) (bm_iter changed)
    else
      omap (λ '(rank, slot), if bm_contains slot changed then Some rank else None) (imap pair (to_vec previous)) in
  updated previous removed replacements (slot_compare row order).

(** The closure of [path_position]. *)
Definition path_key_compare (candidate target : F) : comparison :=
  then_with (view_natural_cmp (view_utf8 (folded_path candidate)) (view_utf8 (folded_path target)))
    (then_with (path_cmp (path candidate) (path target)) (Z.compare (id candidate) (id target))).
Definition path_position o row (slot : N) : option nat :=
  target ← row slot; rank_of path_key_compare row o target.
Definition same_natural_path row (first second : N) : bool :=
  match row first, row second with
  | Some x, Some y => is_eq (view_natural_cmp (view_utf8 (folded_path x)) (view_utf8 (folded_path y)))
  | _, _ => false
  end.
Definition include_order_neighbors (slot : N) o row (candidates : B) : option B :=
  match path_position o row slot with
  | None => Some candidates
  | Some rank =>
    fold_option (λ candidates position, s ← get o position; Some (bm_insert s candidates))
      (seq (rank - 1) (Nat.min (rank + 2) (len o) - (rank - 1))) candidates
  end.
(** One turn of the second loop of [updated_path_ties]. *)
Definition refresh_tie (live : B) row o (ties : B) (slot : N) : option B :=
  let ties := bm_remove slot ties in
  if negb (bm_contains slot live) then Some ties
  else
    rank ← path_position o row slot;
    before ← (if 0 <? rank then s ← get o (rank - 1); Some (same_natural_path row slot s) else Some false);
    tied ← (if before : bool then Some true
            else if rank + 1 <? len o then s ← get o (rank + 1); Some (same_natural_path row slot s)
            else Some false);
    Some (if tied : bool then bm_insert slot ties else ties).
Definition updated_path_ties (previous_ties : B) (previous_order : SlotOrder) (previous_row : N → option F)
    (changed live : B) row o : option B :=
  candidates ← fold_option (λ candidates slot,
      candidates ← include_order_neighbors slot previous_order previous_row candidates;
      include_order_neighbors slot o row candidates) (bm_iter changed) changed;
  fold_option (refresh_tie live row o) (bm_iter candidates) previous_ties.

(** The orders and the ties of a table built at once
    ([build_prepared_indexes]). *)
Definition built_order row order (slots : list N) : SlotOrder :=
  from_vec (sort_unstable_by (slot_compare row order) slots).
Definition built_ties row (path_order : list N) : B :=
  foldl (λ ties '(first, second),
    if same_natural_path row first second then bm_insert second (bm_insert first ties) else ties)
    bm_new (zip path_order (tail path_order)).
End orders.

(** ** Orders of the live slots *)

Section order_proofs.
Context `{Json} {F : Type} `{!FileEntry F} {B : Type} `{RoaringLaws B} {Sec : Type} `{!UnstableSort}.
Notation SlotOrder := (SlotOrder Sec).
Implicit Types (row : N → option F) (o : SlotOrder) (order : ResultOrder) (live changed : B).

#[export] Instance slot_compare_preorder row order : TotalPreorder (slot_compare row order).
Proof.
  pose proof (order_compare_preorder (F := F) order) as Ho. split; unfold slot_compare.
  - intros x y. destruct (row x), (row y); try done. apply (compare_opp (order_compare order)).
  - intros x y z. destruct (row x), (row y), (row z); try done. apply (compare_le_trans (order_compare order)).
Qed.

(** The live slots have rows, and an id belongs to one slot. *)
Definition rows_ok row live : Prop :=
  (∀ s, bm_contains s live = true → is_Some (row s)) ∧
  (∀ a b x y, row a = Some x → row b = Some y → id x = id y → a = b).
(** The order is the live slots, sorted. *)
Definition sorted_order row order live o : Prop :=
  order_ok o ∧ to_vec o ≡ₚ bm_iter live ∧ StronglySorted (cmp_le (slot_compare row order)) (to_vec o).

Lemma sorted_order_elem row order live o s : sorted_order row order live o → s ∈ to_vec o ↔ bm_contains s live = true.
Proof. intros (_ & Hp & _). by rewrite Hp, contains_iter. Qed.
Lemma sorted_order_NoDup row order live o : sorted_order row order live o → NoDup (to_vec o).
Proof. intros (_ & Hp & _). rewrite Hp. apply bm_iter_NoDup. Qed.

(** Searching for the row of a slot finds the slot or nothing. *)
Lemma rank_of_spec row live o order compare slot target :
  (∀ x y, compare x y = order_compare order x y) →
  rows_ok row live → sorted_order row order live o → row slot = Some target →
  match rank_of compare row o target with
  | Some rank => to_vec o !! rank = Some slot
  | None => slot ∉ to_vec o
  end.
Proof.
  intros Hcmp [Hrows Hid] Hs Hslot. pose proof Hs as (Hok & _ & Hsorted). unfold rank_of.
  set (f := λ candidate, match row candidate with Some c => compare c target | None => Lt end).
  assert (Hf : ∀ s, f s = slot_compare row order s slot).
  { intros s. unfold f, slot_compare. rewrite Hslot. by destruct (row s). }
  pose proof (order_search_flat o f Hok) as Hsearch.
  assert (Hp : partitioned f (to_vec o)).
  { intros i j x y Hij Hx Hy. rewrite !Hf. by apply (sorted_partitioned (slot_compare row order) slot (to_vec o) Hsorted i j). }
  specialize (Hsearch Hp). destruct (order_binary_search_by o f) as [rank|rank].
  - destruct Hsearch as (x & Hx & Heq). rewrite Hf in Heq. rewrite Hx. f_equal.
    unfold slot_compare in Heq. rewrite Hslot in Heq. destruct (row x) as [r|] eqn:Er; [|done].
    apply order_compare_eq in Heq as [_ Heq]. by apply (Hid x slot r target).
  - destruct Hsearch as (_ & Hlt & Hgt). intros (j & Hj)%list_elem_of_lookup.
    assert (Hself : f slot = Eq) by (rewrite Hf; apply compare_refl, _).
    destruct (decide (j < rank)) as [Hlow|Hhigh]; [by rewrite (Hlt j slot Hlow Hj) in Hself|].
    by rewrite (Hgt j slot ltac:(lia) Hj) in Hself.
Qed.

Lemma drop_ranks_filter {A} (P : A → Prop) `{!∀ x, Decision (P x)} ranks base (l : list A) :
  (∀ i x, l !! i = Some x → base + i ∈ ranks ↔ ¬ P x) → drop_ranks ranks base l = filter P l.
Proof.
  revert base. induction l as [|x l IH]; intros base Hl; [done|]. simpl. rewrite filter_cons.
  rewrite (IH (S base)) by (intros i y Hi; replace (S base + i) with (base + S i) by lia; by apply Hl).
  specialize (Hl 0 x eq_refl). rewrite Nat.add_0_r in Hl.
  destruct (decide (base ∈ ranks)), (decide (P x)); naive_solver.
Qed.
Lemma StronglySorted_weaken {A} (R R' : relation A) (l : list A) :
  (∀ x y, x ∈ l → y ∈ l → R x y → R' x y) → StronglySorted R l → StronglySorted R' l.
Proof.
  intros HR Hs. induction Hs as [|x l Hs IH Hf]; constructor.
  - apply IH. intros y z Hy Hz. apply HR; by right.
  - rewrite Forall_forall in Hf |- *. intros y Hy. apply HR; [left|by right|by apply Hf].
Qed.

(** A changed order is the order from scratch. *)
Lemma updated_order_spec previous_row row previous_live live changed order (previous : SlotOrder) :
  rows_ok previous_row previous_live → sorted_order previous_row order previous_live previous →
  (∀ s, bm_contains s changed = false → bm_contains s live = bm_contains s previous_live) →
  (∀ a b, bm_contains a live = true → bm_contains b live = true → bm_contains a changed = false →
     bm_contains b changed = false → slot_compare row order a b = slot_compare previous_row order a b) →
  (N.of_nat (bm_len previous_live + bm_len changed) < usize_max)%N →
  ∃ o', updated_order previous previous_row changed live row order = Some o' ∧ sorted_order row order live o'.
Proof.
  intros Hprev Hs Hlive Hcmp Hroom. pose proof Hs as (Hok & Hperm & Hsorted).
  unfold updated_order. set (replacements := sort_unstable_by _ _). set (removed := if _ <? _ then _ else _).
  assert (Hrep : replacements ≡ₚ filter (λ slot, bm_contains slot live = true) (bm_iter changed)) by apply sort_unstable_permutes.
  assert (Hremoved : ∀ r, r ∈ removed ↔ ∃ slot, to_vec previous !! r = Some slot ∧ bm_contains slot changed = true).
  { intros r. unfold removed. destruct (_ <? _).
    - rewrite list_elem_of_omap. split.
      + intros (slot & Hslot & (old & Hold & Hr)%bind_Some). exists slot. rewrite contains_iter. split; [|done].
        pose proof (rank_of_spec previous_row previous_live previous order (order_compare order) slot old
          ltac:(done) Hprev Hs Hold) as Hrank. by rewrite Hr in Hrank.
      + intros (slot & Hr & Hslot). exists slot. rewrite <-contains_iter. split; [done|].
        assert (Hl : bm_contains slot previous_live = true) by (eapply sorted_order_elem; [done|by eapply list_elem_of_lookup_2]).
        destruct (proj1 Hprev slot Hl) as [old Hold]. rewrite Hold. cbn [mbind option_bind].
        pose proof (rank_of_spec previous_row previous_live previous order (order_compare order) slot old
          ltac:(done) Hprev Hs Hold) as Hrank.
        destruct (rank_of _ _ _ _) as [r'|]; [|by destruct Hrank; eapply list_elem_of_lookup_2].
        f_equal. by apply (NoDup_lookup (to_vec previous) r' r slot (sorted_order_NoDup _ _ _ _ Hs)).
    - rewrite list_elem_of_omap. split.
      + intros ([rank slot] & Hin & Hr). apply list_elem_of_lookup in Hin as (i & Hi).
        rewrite list_lookup_imap in Hi. apply fmap_Some in Hi as (x & Hx & [= -> ->]).
        destruct (bm_contains x changed) eqn:E; [|done]. injection Hr as <-. by exists x.
      + intros (slot & Hr & Hslot). exists (r, slot). rewrite Hslot. split; [|done].
        apply list_elem_of_lookup. exists r. by rewrite list_lookup_imap, Hr. }
  assert (Hkept : drop_ranks (sort_dedup removed) 0 (to_vec previous) =
    filter (λ s, bm_contains s changed = false) (to_vec previous)).
  { apply drop_ranks_filter. intros i x Hx. simpl. rewrite (proj2 (sort_dedup_spec removed)), Hremoved, Hx.
    split; [intros (? & [= <-] & ->); done|]. intros Hc. exists x. split; [done|]. by destruct (bm_contains x changed). }
  destruct (updated_spec (slot_compare row order) previous removed replacements) as (o' & -> & Hok' & Hs' & Hp' & _).
  - apply Hok.
  - apply Forall_forall. intros r (slot & Hr & _)%Hremoved. by apply lookup_lt_Some in Hr.
  - rewrite Hkept. apply (StronglySorted_weaken (cmp_le (slot_compare previous_row order))).
    + intros x y [Hx Hx']%list_elem_of_filter [Hy Hy']%list_elem_of_filter. unfold cmp_le.
      rewrite Hcmp; [done| | |done|done]; rewrite Hlive by done; by eapply sorted_order_elem.
    + eapply StronglySorted_sublist; [apply sublist_filter|done].
  - apply sort_unstable_sorts, _.
  - rewrite Hrep. pose proof (sublist_filter (λ slot, bm_contains slot live = true) (bm_iter changed)) as Hsub.
    apply sublist_length in Hsub. rewrite Hperm. unfold bm_len in Hroom. lia.
  - exists o'. split; [done|]. split_and!; [done| |done]. rewrite Hp', Hkept, Hrep. apply NoDup_Permutation.
    + apply NoDup_app. split_and!.
      * apply NoDup_filter, (sorted_order_NoDup _ _ _ _ Hs).
      * intros x [Hx _]%list_elem_of_filter [_ Hx']%list_elem_of_filter. apply contains_iter in Hx'. congruence.
      * apply NoDup_filter, bm_iter_NoDup.
    + apply bm_iter_NoDup.
    + intros x. rewrite elem_of_app, !list_elem_of_filter, (sorted_order_elem _ _ _ _ _ Hs), <-!contains_iter.
      destruct (bm_contains x changed) eqn:Ec; [naive_solver|]. rewrite (Hlive x Ec). naive_solver.
Qed.
(** Two sorted orders of the same slots are equal. *)
Lemma sorted_order_unique row live order o1 o2 :
  rows_ok row live → sorted_order row order live o1 → sorted_order row order live o2 → to_vec o1 = to_vec o2.
Proof.
  intros [Hrows Hid] Ho1 Ho2. pose proof Ho1 as (_ & Hp1 & Hs1). pose proof Ho2 as (_ & Hp2 & Hs2).
  assert (Hgo : ∀ l1 l2, l1 ≡ₚ l2 → (∀ x, x ∈ l1 → bm_contains x live = true) →
    StronglySorted (cmp_le (slot_compare row order)) l1 → StronglySorted (cmp_le (slot_compare row order)) l2 → l1 = l2).
  { induction l1 as [|x l1 IH]; intros [|y l2] Hp Hl Hsx Hsy; [done|by apply Permutation_nil_l in Hp|by symmetry in Hp; apply Permutation_nil_l in Hp|].
    apply StronglySorted_cons in Hsx as [Hfx Hsx]. apply StronglySorted_cons in Hsy as [Hfy Hsy].
    rewrite Forall_forall in Hfx, Hfy.
    assert (Hxy : x = y).
    { assert (Hx : x ∈ y :: l2) by (rewrite <-Hp; left). assert (Hy : y ∈ x :: l1) by (rewrite Hp; left).
      apply elem_of_cons in Hx as [->|Hx]; [done|]. apply elem_of_cons in Hy as [->|Hy]; [done|].
      specialize (Hfx y Hy). specialize (Hfy x Hx). unfold cmp_le in *.
      rewrite (compare_opp (slot_compare row order) x y) in Hfy.
      destruct (Hrows x) as [rx Hrx]; [apply Hl; left|]. destruct (Hrows y) as [ry Hry]; [apply Hl; by right|].
      assert (Heq : order_compare order rx ry = Eq).
      { unfold slot_compare in *. rewrite Hrx, Hry in *. by destruct (order_compare order rx ry). }
      apply order_compare_eq in Heq as [_ Heq]. by apply (Hid x y rx ry). }
    subst y. f_equal. apply IH; [by apply (Permutation_cons_inv (a := x))| |done|done]. intros z Hz. apply Hl. by right. }
  apply Hgo; [by rewrite Hp1, Hp2| |done|done]. intros x Hx. by eapply (sorted_order_elem _ _ _ o1).
Qed.

(** ** Natural path ties *)

Definition natural_path (x y : F) : comparison := view_natural_cmp (view_utf8 (folded_path x)) (view_utf8 (folded_path y)).
Lemma natural_path_preorder : TotalPreorder natural_path.
Proof. exact (field_cmp_preorder (F := F) SPath). Qed.
#[local] Existing Instance natural_path_preorder.
Lemma path_key_order x y : path_key_compare x y = order_compare order_path x y.
Proof.
  unfold order_path. rewrite order_compare_cons. done.
Qed.
Lemma same_natural_spec row a b :
  same_natural_path row a b = true ↔ ∃ x y, row a = Some x ∧ row b = Some y ∧ natural_path x y = Eq.
Proof.
  unfold same_natural_path, natural_path. destruct (row a) as [x|], (row b) as [y|]; try naive_solver.
  split; [intros Heq; exists x, y; split_and!; [done..|by destruct (view_natural_cmp _ _)]|].
  intros (? & ? & [= <-] & [= <-] & ->). done.
Qed.
(** The slot shares its natural path with another live slot. *)
Definition tied row live (s : N) : Prop :=
  bm_contains s live = true ∧ ∃ t, t ≠ s ∧ bm_contains t live = true ∧ same_natural_path row s t = true.
Definition ties_ok row live (ties : B) : Prop := ∀ s, bm_contains s ties = true ↔ tied row live s.

Lemma path_position_spec row live o slot :
  rows_ok row live → sorted_order row order_path live o →
  (bm_contains slot live = true → ∃ rank, path_position o row slot = Some rank ∧ to_vec o !! rank = Some slot) ∧
  (bm_contains slot live = false → path_position o row slot = None).
Proof.
  intros Hrows Hs. unfold path_position. split; intros Hlive.
  - destruct (proj1 Hrows slot Hlive) as [target Ht]. rewrite Ht. cbn [mbind option_bind].
    pose proof (rank_of_spec row live o order_path path_key_compare slot target path_key_order Hrows Hs Ht) as Hr.
    destruct (rank_of _ _ _ _) as [rank|]; [by exists rank|].
    by destruct Hr; apply (sorted_order_elem _ _ _ _ _ Hs).
  - destruct (row slot) as [target|] eqn:Ht; [|done]. cbn [mbind option_bind].
    pose proof (rank_of_spec row live o order_path path_key_compare slot target path_key_order Hrows Hs Ht) as Hr.
    destruct (rank_of _ _ _ _) as [rank|]; [|done]. apply list_elem_of_lookup_2, (sorted_order_elem _ _ _ _ _ Hs) in Hr. congruence.
Qed.
(** Along the path order the natural paths ascend. *)
Lemma natural_ascends row live o i j a b x y :
  sorted_order row order_path live o → i ≤ j → to_vec o !! i = Some a → to_vec o !! j = Some b →
  row a = Some x → row b = Some y → natural_path x y ≠ Gt.
Proof.
  intros (_ & _ & Hs) Hij Ha Hb Hx Hy.
  pose proof (StronglySorted_lookup (cmp_le (slot_compare row order_path)) _ i j a b Hs Hij Ha Hb) as Hle.
  unfold cmp_le, slot_compare in Hle. rewrite Hx, Hy in Hle. unfold order_path in Hle. rewrite order_compare_cons in Hle.
  intros Hgt. apply Hle. unfold natural_path in Hgt. simpl. by rewrite Hgt.
Qed.
(** A tied slot has a tied neighbour. *)
Lemma tied_neighbour row live o s rank :
  rows_ok row live → sorted_order row order_path live o → to_vec o !! rank = Some s →
  tied row live s ↔
    (∃ t, 0 < rank ∧ to_vec o !! (rank - 1) = Some t ∧ same_natural_path row s t = true) ∨
    (∃ t, to_vec o !! (rank + 1) = Some t ∧ same_natural_path row s t = true).
Proof.
  intros Hrows Hs Hrank. assert (Hlive : ∀ i t, to_vec o !! i = Some t → bm_contains t live = true).
  { intros i t Ht. eapply sorted_order_elem; [done|by eapply list_elem_of_lookup_2]. }
  assert (Hne : ∀ i t, to_vec o !! i = Some t → i ≠ rank → t ≠ s).
  { intros i t Ht Hi ->. apply Hi. by apply (NoDup_lookup (to_vec o) i rank s (sorted_order_NoDup _ _ _ _ Hs)). }
  split.
  - intros (_ & t & Hts & Ht & Hsame). apply (sorted_order_elem _ _ _ _ _ Hs), list_elem_of_lookup in Ht as (q & Hq).
    apply same_natural_spec in Hsame as (x & y & Hx & Hy & Hxy).
    assert (Hmid : ∀ i m, to_vec o !! i = Some m → (q ≤ i ≤ rank ∨ rank ≤ i ≤ q) → same_natural_path row s m = true).
    { intros i m Hm Hi. destruct (proj1 Hrows m (Hlive i m Hm)) as [z Hz]. apply same_natural_spec. exists x, z. split_and!; [done..|].
      destruct Hi as [[Hi1 Hi2]|[Hi1 Hi2]].
      - pose proof (natural_ascends row live o q i t m y z Hs Hi1 Hq Hm Hy Hz) as H1'.
        pose proof (natural_ascends row live o i rank m s z x Hs Hi2 Hm Hrank Hz Hx) as H2'.
        rewrite (compare_eq_l natural_path x y z Hxy). rewrite (compare_opp natural_path x z), (compare_eq_l natural_path x y z Hxy) in H2'.
        by destruct (natural_path y z).
      - pose proof (natural_ascends row live o rank i s m x z Hs Hi1 Hrank Hm Hx Hz) as H1'.
        pose proof (natural_ascends row live o i q m t z y Hs Hi2 Hm Hq Hz Hy) as H2'.
        rewrite (compare_opp natural_path y z), <-(compare_eq_l natural_path x y z Hxy) in H2'.
        by destruct (natural_path x z). }
    assert (q ≠ rank) by (intros ->; congruence). pose proof (lookup_lt_Some _ _ _ Hq). pose proof (lookup_lt_Some _ _ _ Hrank).
    destruct (decide (q < rank)).
    + left. destruct (lookup_lt_is_Some_2 (to_vec o) (rank - 1)) as [m Hm]; [lia|]. exists m.
      split_and!; [lia|done|]. apply (Hmid (rank - 1) m Hm). lia.
    + right. destruct (lookup_lt_is_Some_2 (to_vec o) (rank + 1)) as [m Hm]; [lia|]. exists m.
      split; [done|]. apply (Hmid (rank + 1) m Hm). lia.
  - intros Hn. split; [by apply (Hlive rank)|].
    destruct Hn as [(t & H0' & Ht & Hsame)|(t & Ht & Hsame)]; exists t; (split_and!; [|by eapply Hlive|done]);
      (eapply Hne; [exact Ht|lia]).
Qed.
Lemma include_neighbors_spec row live o slot candidates :
  rows_ok row live → sorted_order row order_path live o →
  ∃ c, include_order_neighbors slot o row candidates = Some c ∧
    (∀ x, bm_contains x candidates = true → bm_contains x c = true) ∧
    (bm_contains slot live = true → ∀ rank i t, to_vec o !! rank = Some slot → to_vec o !! i = Some t →
       (i + 1 = rank ∨ i = rank + 1) → bm_contains t c = true).
Proof.
  intros Hrows Hs. pose proof Hs as ([Hends _] & _). unfold include_order_neighbors.
  destruct (path_position_spec row live o slot Hrows Hs) as [Hin Hout].
  destruct (bm_contains slot live) eqn:Hlive.
  - destruct (Hin eq_refl) as (rank & -> & Hrank). clear Hin Hout.
    assert (Hfold : ∀ ps c, (∀ p, p ∈ ps → p < length (to_vec o)) →
      ∃ c', fold_option (λ c p, s ← get o p; Some (bm_insert s c)) ps c = Some c' ∧
        (∀ x, bm_contains x c = true → bm_contains x c' = true) ∧
        (∀ p t, p ∈ ps → to_vec o !! p = Some t → bm_contains t c' = true)).
    { induction ps as [|p ps IH]; intros c Hps; cbn [fold_option].
      { exists c. split_and!; [done|done|]. by intros p t ?%elem_of_nil. }
      rewrite get_flat by done. destruct (lookup_lt_is_Some_2 (to_vec o) p) as [m Hm]; [apply Hps; left|].
      rewrite Hm. cbn [mbind option_bind]. destruct (IH (bm_insert m c)) as (c' & Hc' & Hkeep & Hall).
      { intros q Hq. apply Hps. by right. }
      exists c'. split_and!; [done| |].
      - intros x Hx. apply Hkeep. by rewrite contains_insert, Hx, orb_true_r.
      - intros q t Hq Ht. apply elem_of_cons in Hq as [->|Hq]; [|by apply (Hall q)].
        assert (t = m) as -> by congruence. apply Hkeep. by rewrite contains_insert, N.eqb_refl. }
    pose proof (lookup_lt_Some _ _ _ Hrank) as Hlt. rewrite len_flat by done.
    destruct (Hfold (seq (rank - 1) (Nat.min (rank + 2) (length (to_vec o)) - (rank - 1))) candidates) as (c & -> & Hkeep & Hall).
    { intros p Hp%elem_of_seq. lia. }
    exists c. split_and!; [done|done|]. intros _ rank' i t Hr' Hi Hnear.
    assert (rank' = rank) as -> by (by apply (NoDup_lookup (to_vec o) rank' rank slot (sorted_order_NoDup _ _ _ _ Hs))).
    apply (Hall i); [|done]. apply elem_of_seq. apply lookup_lt_Some in Hi. lia.
  - rewrite (Hout eq_refl). exists candidates. by split_and!.
Qed.
Lemma refresh_tie_spec row live o ties slot :
  rows_ok row live → sorted_order row order_path live o →
  ∃ ties', refresh_tie live row o ties slot = Some ties' ∧
    (bm_contains slot ties' = true ↔ tied row live slot) ∧ ∀ x, x ≠ slot → bm_contains x ties' = bm_contains x ties.
Proof.
  intros Hrows Hs. pose proof Hs as ([Hends _] & _). unfold refresh_tie.
  assert (Hother : ∀ b x, x ≠ slot → bm_contains x (if b : bool then bm_insert slot (bm_remove slot ties) else bm_remove slot ties) = bm_contains x ties).
  { intros [] x Hx; rewrite ?contains_insert, contains_remove, (proj2 (N.eqb_neq x slot) Hx); done. }
  destruct (bm_contains slot live) eqn:Hlive; simpl.
  2:{ eexists. split; [done|]. split; [|exact (Hother false)]. rewrite contains_remove, N.eqb_refl. simpl.
      split; [done|]. intros [? _]. congruence. }
  destruct (proj1 (path_position_spec row live o slot Hrows Hs) Hlive) as (rank & -> & Hrank). cbn [mbind option_bind].
  pose proof (tied_neighbour row live o slot rank Hrows Hs Hrank) as Htied. rewrite len_flat by done.
  pose proof (lookup_lt_Some _ _ _ Hrank) as Hlt.
  assert (Hdone : ∀ b : bool, (b = true ↔ tied row live slot) → ∃ ties',
    Some (if b then bm_insert slot (bm_remove slot ties) else bm_remove slot ties) = Some ties' ∧
    (bm_contains slot ties' = true ↔ tied row live slot) ∧ ∀ x, x ≠ slot → bm_contains x ties' = bm_contains x ties).
  { intros b Hb. eexists. split; [done|]. split; [|apply Hother]. rewrite <-Hb.
    destruct b; rewrite ?contains_insert, ?contains_remove, N.eqb_refl; done. }
  assert (Hbefore : ∃ b : bool, (if 0 <? rank then s ← get o (rank - 1); Some (same_natural_path row slot s) else Some false) = Some b ∧
    (b = true ↔ ∃ t, 0 < rank ∧ to_vec o !! (rank - 1) = Some t ∧ same_natural_path row slot t = true)).
  { destruct (Nat.ltb_spec 0 rank); [|exists false; split; [done|split; [done|intros (? & ? & _); lia]]].
    rewrite get_flat by done. destruct (lookup_lt_is_Some_2 (to_vec o) (rank - 1)) as [t Ht]; [lia|]. rewrite Ht.
    exists (same_natural_path row slot t). split; [done|]. naive_solver. }
  destruct Hbefore as (b & -> & Hb). cbn [mbind option_bind]. destruct b.
  { cbn [mbind option_bind]. apply (Hdone true). split; [intros _; apply Htied; left; by apply Hb|done]. }
  destruct (Nat.ltb_spec (rank + 1) (length (to_vec o))) as [Hnext|Hnext].
  - rewrite get_flat by done. destruct (lookup_lt_is_Some_2 (to_vec o) (rank + 1)) as [t Ht]; [lia|]. rewrite Ht.
    cbn [mbind option_bind]. apply Hdone. rewrite Htied, Ht, <-Hb. naive_solver.
  - cbn [mbind option_bind]. apply (Hdone false). rewrite Htied, <-Hb. split; [done|]. intros [?|(t & Ht & _)]; [done|].
    apply lookup_lt_Some in Ht. lia.
Qed.
(** Repaired ties are the ties from scratch. *)
Lemma updated_path_ties_spec previous_row row previous_live live changed ties (previous_order o : SlotOrder) :
  rows_ok previous_row previous_live → sorted_order previous_row order_path previous_live previous_order →
  rows_ok row live → sorted_order row order_path live o → ties_ok previous_row previous_live ties →
  (∀ s, bm_contains s changed = false → bm_contains s live = bm_contains s previous_live) →
  (∀ a b, bm_contains a live = true → bm_contains b live = true → bm_contains a changed = false →
     bm_contains b changed = false → same_natural_path row a b = same_natural_path previous_row a b) →
  ∃ ties', updated_path_ties ties previous_order previous_row changed live row o = Some ties' ∧ ties_ok row live ties'.
Proof.
  intros Hprev Hsp Hrows Hs Hties Hlive Hsame. unfold updated_path_ties.
  assert (Hcand : ∀ l c, ∃ c', fold_option (λ candidates slot,
      candidates ← include_order_neighbors slot previous_order previous_row candidates;
      include_order_neighbors slot o row candidates) l c = Some c' ∧
    (∀ x, bm_contains x c = true → bm_contains x c' = true) ∧
    ∀ slot i rank t, slot ∈ l → (i + 1 = rank ∨ i = rank + 1) →
      (bm_contains slot previous_live = true ∧ to_vec previous_order !! rank = Some slot ∧ to_vec previous_order !! i = Some t ∨
       bm_contains slot live = true ∧ to_vec o !! rank = Some slot ∧ to_vec o !! i = Some t) → bm_contains t c' = true).
  { induction l as [|s l IH]; intros c; cbn [fold_option].
    { exists c. split_and!; [done|done|]. by intros slot i rank t ?%elem_of_nil. }
    destruct (include_neighbors_spec previous_row previous_live previous_order s c Hprev Hsp) as (c1 & -> & Hk1 & Hn1). cbn [mbind option_bind].
    destruct (include_neighbors_spec row live o s c1 Hrows Hs) as (c2 & -> & Hk2 & Hn2). cbn [mbind option_bind].
    destruct (IH c2) as (c' & Hc' & Hk & Hn). exists c'. split_and!; [done|auto|].
    intros slot i rank t [->|Hin]%elem_of_cons Hnear Hwhere; [|by eapply Hn].
    destruct Hwhere as [(Hl & Hr & Ht)|(Hl & Hr & Ht)]; apply Hk; [apply Hk2; by eapply Hn1|by eapply Hn2]. }
  destruct (Hcand (bm_iter changed) changed) as (candidates & -> & Hkeep & Hnear). cbn [mbind option_bind].
  assert (Hfold : ∀ l ts, NoDup l → ∃ ts', fold_option (refresh_tie live row o) l ts = Some ts' ∧
    (∀ s, s ∈ l → bm_contains s ts' = true ↔ tied row live s) ∧ ∀ s, s ∉ l → bm_contains s ts' = bm_contains s ts).
  { induction l as [|s l IH]; intros ts Hnd; cbn [fold_option].
    { exists ts. split_and!; [done| |done]. by intros s ?%elem_of_nil. }
    apply NoDup_cons in Hnd as [Hnot Hnd].
    destruct (refresh_tie_spec row live o ts s Hrows Hs) as (ts1 & -> & H1s & H1o). cbn [mbind option_bind].
    destruct (IH ts1 Hnd) as (ts' & Hts' & Hin & Hout). exists ts'. split_and!; [done| |].
    - intros x [->|Hx]%elem_of_cons; [by rewrite Hout|by apply Hin].
    - intros x [Hx Hxl]%not_elem_of_cons. rewrite Hout by done. by apply H1o. }
  destruct (Hfold (bm_iter candidates) ties (bm_iter_NoDup _)) as (ties' & -> & Hin & Hout).
  exists ties'. split; [done|]. intros s. destruct (bm_contains s candidates) eqn:Ec; [by apply Hin, contains_iter|].
  rewrite Hout by (rewrite <-contains_iter; congruence). rewrite (Hties s).
  assert (Hsc : bm_contains s changed = false) by (destruct (bm_contains s changed) eqn:E; [by rewrite (Hkeep s E) in Ec|done]).
  assert (Hcase : ∀ rw lv (oo : SlotOrder) rank t i, sorted_order rw order_path lv oo → to_vec oo !! rank = Some s →
    to_vec oo !! i = Some t → (i + 1 = rank ∨ i = rank + 1) → (oo = previous_order ∧ lv = previous_live ∨ oo = o ∧ lv = live) →
    bm_contains t changed = false ∧ bm_contains t lv = true).
  { intros rw lv oo rank t i Hso Hr Hi Hd Hwhich. assert (Ht : bm_contains t lv = true).
    { eapply sorted_order_elem; [done|by eapply list_elem_of_lookup_2]. }
    split; [|done]. destruct (bm_contains t changed) eqn:E; [|done]. rewrite (Hnear t rank i s) in Ec; [done|by apply contains_iter|lia|].
    destruct Hwhich as [[-> ->]|[-> ->]]; [left|right]; by split_and!. }
  assert (Hto : ∀ rw lv rw' lv' (oo : SlotOrder), (oo = previous_order ∧ lv = previous_live ∨ oo = o ∧ lv = live) →
    rows_ok rw lv → sorted_order rw order_path lv oo →
    (∀ x, bm_contains x changed = false → bm_contains x lv' = bm_contains x lv) →
    (∀ a b, bm_contains a lv = true → bm_contains b lv = true → bm_contains a changed = false →
       bm_contains b changed = false → same_natural_path rw' a b = same_natural_path rw a b) →
    tied rw lv s → tied rw' lv' s).
  { intros rw lv rw' lv' oo Hwhich Hrw Hso Hl Hsm Ht. pose proof Ht as [Hls _].
    pose proof Hls as Hmem. apply (sorted_order_elem _ _ _ _ _ Hso), list_elem_of_lookup in Hmem as (rank & Hrank).
    split; [by rewrite Hl|]. assert (Hne : ∀ i t, to_vec oo !! i = Some t → i ≠ rank → t ≠ s).
    { intros i t Hi Hir ->. apply Hir. by apply (NoDup_lookup (to_vec oo) i rank s (sorted_order_NoDup _ _ _ _ Hso)). }
    apply (tied_neighbour rw lv oo s rank Hrw Hso Hrank) in Ht as [(t & H0' & Hi & Hst)|(t & Hi & Hst)]; exists t.
    - destruct (Hcase rw lv oo rank t (rank - 1) Hso Hrank Hi ltac:(lia) Hwhich) as [Htc Htl].
      split_and!; [eapply Hne; [exact Hi|lia]|by rewrite Hl|by rewrite Hsm].
    - destruct (Hcase rw lv oo rank t (rank + 1) Hso Hrank Hi ltac:(lia) Hwhich) as [Htc Htl].
      split_and!; [eapply Hne; [exact Hi|lia]|by rewrite Hl|by rewrite Hsm]. }
  split.
  - apply (Hto _ _ _ _ previous_order); [by left|done|done|done|].
    intros a b Ha Hb Hca Hcb. by apply Hsame; rewrite ?Hlive.
  - apply (Hto _ _ _ _ o); [by right|done|done|intros x Hx; by rewrite Hlive|].
    intros a b Ha Hb Hca Hcb. symmetry. by apply Hsame.
Qed.

(** ** Orders built at once *)

Lemma built_order_spec row order live : sorted_order row order live (built_order row order (bm_iter live)).
Proof.
  unfold built_order. split_and!; [apply from_vec_ok| |]; rewrite from_vec_flat;
    [apply sort_unstable_permutes|apply sort_unstable_sorts, _].
Qed.
Lemma built_ties_elem row l x :
  bm_contains x (built_ties (B := B) row l) = true ↔
    ∃ i a b, l !! i = Some a ∧ l !! (i + 1) = Some b ∧ same_natural_path row a b = true ∧ (x = a ∨ x = b).
Proof.
  unfold built_ties. set (add := λ (ties : B) '(first, second), if same_natural_path row first second then _ else _).
  assert (Hfold : ∀ pairs ties, bm_contains x (foldl add ties pairs) = true ↔
    bm_contains x ties = true ∨ ∃ a b, (a, b) ∈ pairs ∧ same_natural_path row a b = true ∧ (x = a ∨ x = b)).
  { induction pairs as [|[a b] pairs IH]; intros ties; simpl.
    { split; [by left|]. intros [?|(? & ? & ?%elem_of_nil & _)]; done. }
    rewrite IH. clear IH. destruct (same_natural_path row a b) eqn:E.
    - rewrite !contains_insert, !orb_true_iff, !N.eqb_eq. split.
      + intros [[->|[->|?]]|(c & d & ? & ? & ?)]; [right; exists a, b| right; exists a, b|by left|right; exists c, d];
          (split_and!; [first [left|by right]|done|auto]).
      + intros [?|(c & d & [[= -> ->]|?]%elem_of_cons & ? & ?)]; [auto|left; naive_solver|right; by exists c, d].
    - split.
      + intros [?|(c & d & ? & ? & ?)]; [by left|right; exists c, d; split_and!; [by right|done..]].
      + intros [?|(c & d & [[= -> ->]|?]%elem_of_cons & ? & ?)]; [by left|congruence|right; by exists c, d]. }
  rewrite Hfold, contains_new. split.
  - intros [?|(a & b & Hin & Hs & Hx)]; [done|]. apply list_elem_of_lookup in Hin as (i & Hi).
    apply lookup_zip_Some in Hi as [Ha Hb]. exists i, a, b. rewrite lookup_tail in Hb. rewrite Nat.add_1_r. done.
  - intros (i & a & b & Ha & Hb & Hs & Hx). right. exists a, b. split_and!; [|done..].
    apply list_elem_of_lookup. exists i. apply lookup_zip_Some. rewrite lookup_tail, <-Nat.add_1_r. done.
Qed.
Lemma same_natural_sym row a b : same_natural_path row a b = true → same_natural_path row b a = true.
Proof.
  rewrite !same_natural_spec. intros (x & y & Hx & Hy & Hxy). exists y, x. split_and!; [done..|].
  by rewrite (compare_opp natural_path x y), Hxy.
Qed.
Lemma built_ties_spec row live o :
  rows_ok row live → sorted_order row order_path live o → ties_ok row live (built_ties (B := B) row (to_vec o)).
Proof.
  intros Hrows Hs x. rewrite built_ties_elem. split.
  - intros (i & a & b & Ha & Hb & Hsame & Hx). destruct Hx as [-> | ->].
    + apply (tied_neighbour row live o a i Hrows Hs Ha). right. by exists b.
    + apply (tied_neighbour row live o b (i + 1) Hrows Hs Hb). left. exists a. rewrite Nat.add_sub.
      split_and!; [lia|done|by apply same_natural_sym].
  - intros Htied. pose proof (proj1 Htied) as Hl. apply (sorted_order_elem _ _ _ _ _ Hs) in Hl.
    apply list_elem_of_lookup in Hl as [i Hi].
    pose proof (proj1 (tied_neighbour row live o x i Hrows Hs Hi) Htied) as [(t & Hpos & Ht & Hsame)|(t & Ht & Hsame)].
    + exists (i - 1), t, x. replace (i - 1 + 1) with i by lia. split_and!; [done..|by apply same_natural_sym|by right].
    + exists i, x, t. split_and!; [done..|by left].
Qed.
End order_proofs.

(** C9: Repairing sorted orders is rebuilding them.  Slots were changed, added
    or removed; outside [changed] the live slots and their rows are as before.
    Then [updated_order] gives, for any requested order, exactly the order
    that sorting all the live slots of the new table gives, [updated_path_ties]
    exactly the ties that a scan of the rebuilt path order gives, and neither
    panics. *)
Theorem incremental_orders_match_rebuild `{Json} {F} `{!FileEntry F} {B} `{RoaringLaws B} {Sec} `{!UnstableSort}
    (previous_row row : N → option F) (previous_live live changed ties : B) (order : ResultOrder)
    (previous previous_path : SlotOrder Sec) :
  rows_ok previous_row previous_live → rows_ok row live →
  sorted_order previous_row order previous_live previous →
  sorted_order previous_row order_path previous_live previous_path →
  ties_ok previous_row previous_live ties →
  (∀ s, bm_contains s changed = false → bm_contains s live = bm_contains s previous_live ∧ row s = previous_row s) →
  (N.of_nat (bm_len previous_live + bm_len changed) < usize_max)%N →
  ∃ (o path_order : SlotOrder Sec) ties',
    updated_order previous previous_row changed live row order = Some o ∧ order_ok o ∧
    to_vec o = to_vec (built_order (Sec := Sec) row order (bm_iter live)) ∧
    updated_order previous_path previous_row changed live row order_path = Some path_order ∧
    updated_path_ties ties previous_path previous_row changed live row path_order = Some ties' ∧
    bm_same ties' (built_ties row (to_vec (built_order (Sec := Sec) row order_path (bm_iter live)))).
Proof.
  intros Hprev Hrows Hs Hsp Hties Hsame Hroom.
  assert (Hlive : ∀ s, bm_contains s changed = false → bm_contains s live = bm_contains s previous_live) by (intros s Hc; by apply Hsame).
  assert (Hcmp : ∀ order' a b, bm_contains a live = true → bm_contains b live = true → bm_contains a changed = false →
    bm_contains b changed = false → slot_compare row order' a b = slot_compare previous_row order' a b).
  { intros order' a b _ _ Ha Hb. unfold slot_compare. by rewrite (proj2 (Hsame a Ha)), (proj2 (Hsame b Hb)). }
  destruct (updated_order_spec previous_row row previous_live live changed order previous) as (o & Ho & Hso); try done; [by apply Hcmp|].
  destruct (updated_order_spec previous_row row previous_live live changed order_path previous_path) as (po & Hpo & Hspo); try done; [by apply Hcmp|].
  destruct (updated_path_ties_spec previous_row row previous_live live changed ties previous_path po) as (ties' & Ht & Htok); try done.
  { intros a b _ _ Ha Hb. unfold same_natural_path. by rewrite (proj2 (Hsame a Ha)), (proj2 (Hsame b Hb)). }
  exists o, po, ties'. split_and!; [done|apply Hso| |done|done|].
  - apply (sorted_order_unique row live order); [done..|apply built_order_spec].
  - intros x. apply eq_true_iff_eq. rewrite (Htok x).
    symmetry. apply (built_ties_spec row live _ Hrows (built_order_spec row order_path live)).
Qed.

(** ** A small table *)

Definition listed `{Json} (rows : list IndexedFile) (slot : N) : option IndexedFile := rows !! N.to_nat slot.
Lemma listed_rows_ok `{Json} {B} `{RoaringLaws B} (rows : list IndexedFile) (live : B) :
  NoDup (i_id <$> rows) → Forall (λ s, N.to_nat s < length rows) (bm_iter live) → rows_ok (listed rows) live.
Proof.
  intros Hnd Hlive. split.
  - intros s Hs. apply lookup_lt_is_Some_2. rewrite Forall_forall in Hlive. by apply Hlive, contains_iter.
  - unfold listed. intros a b x y Ha Hb Hid. apply N2Nat.inj. apply (NoDup_lookup (i_id <$> rows) _ _ (id x) Hnd).
    + by rewrite list_lookup_fmap, Ha.
    + by rewrite list_lookup_fmap, Hb, Hid.
Qed.
Definition sample_rows : list IndexedFile :=
  [sample_row 1 (lit "b1") 10; sample_row 2 (lit "a2") 20; sample_row 3 (lit "b01") 5].
Definition sample_rows' : list IndexedFile :=
  [sample_row 1 (lit "b1") 10; sample_row 2 (lit "c7") 20; sample_row 3 (lit "b01") 5; sample_row 4 (lit "c07") 7].

Lemma incremental_orders_match_rebuild_witness :
  let previous := built_order (Sec := ()) (listed sample_rows) order_name [0; 1; 2]%N in
  let previous_path := built_order (Sec := ()) (listed sample_rows) order_path [0; 1; 2]%N in
  let ties : gset N := built_ties (listed sample_rows) (to_vec previous_path) in
  let live' : gset N := list_to_set [0; 2; 1; 3]%N in
  bm_iter ties = [0; 2]%N ∧
  ∃ (o path_order : SlotOrder ()) ties',
    updated_order previous (listed sample_rows) ({[1; 3]}%N : gset N) live' (listed sample_rows') order_name = Some o ∧
    to_vec o = [2; 0; 3; 1]%N ∧
    updated_path_ties ties previous_path (listed sample_rows) ({[1; 3]}%N : gset N) live' (listed sample_rows') path_order = Some ties' ∧
    bm_contains 3%N ties' = true.
Proof.
  cbv zeta. split; [vm_compute; reflexivity|].
  set (live := list_to_set [0; 1; 2]%N : gset N). set (live' := list_to_set [0; 2; 1; 3]%N : gset N).
  assert (Hiter : bm_iter live = [0; 1; 2]%N) by (vm_compute; reflexivity).
  assert (Hprev : rows_ok (listed sample_rows) live) by (apply listed_rows_ok; by_decide).
  assert (Hrows : rows_ok (listed sample_rows') live') by (apply listed_rows_ok; by_decide).
  rewrite <-Hiter.
  destruct (incremental_orders_match_rebuild (Sec := ()) (listed sample_rows) (listed sample_rows') live live'
    ({[1; 3]}%N : gset N) (built_ties (listed sample_rows) (to_vec (built_order (Sec := ()) (listed sample_rows) order_path (bm_iter live))))
    order_name (built_order (listed sample_rows) order_name (bm_iter live))
    (built_order (listed sample_rows) order_path (bm_iter live)))
    as (o & po & ties' & Ho & _ & Hvec & _ & Hties & Hsame); [done|done|apply built_order_spec..| | | |].
  - apply built_ties_spec; [done|apply built_order_spec].
  - intros s Hs. assert (Hne : s ≠ 1%N ∧ s ≠ 3%N).
    { split; intros ->; vm_compute in Hs; done. }
    destruct Hne as [Hne1 Hne3]. split.
    + apply bool_decide_ext. unfold live, live'. set_solver.
    + unfold listed. destruct (decide (s = 0%N)) as [->|]; [done|]. destruct (decide (s = 2%N)) as [->|]; [done|].
      rewrite !lookup_ge_None_2; [done|simpl; lia..].
  - vm_compute. reflexivity.
  - exists o, po, ties'. split_and!; [done|rewrite Hvec; vm_compute; reflexivity|done|].
    rewrite Hsame. vm_compute. reflexivity.
Defined.
