(* ===== verification/SnapshotSort.v ===== *)
(** * core/src/index_store.rs, [SearchSnapshot::result_order]

    An order that starts with the path refines the path order, forwards or
    backwards: only the groups of naturally equal paths, found through the
    tied slots, are sorted.  Every other order sorts the live slots.  Either
    way the result is the live slots in the requested order. *)
From S2P Require Import Prelude Bitmap OrderedMerge SlotOrder NaturalOrder Text TextView Float QueryLex.
From S2P Require Import QueryNumber QuerySyntax FileEntry ResultOrder SlotSort SnapshotOrders.

Section result_order.
Context `{Json} {F : Type} `{!FileEntry F} {B : Type} `{Roaring B} {Sec : Type} `{!UnstableSort}.
Notation SlotOrder := (SlotOrder Sec).

(** What [result_order] reads of a snapshot. *)
Record Ordered := {
  row : N → option F;
  live : B;
  name_order : SlotOrder;
  path_order : SlotOrder;
  path_ties : B;
}.
Implicit Types (s : Ordered) (order : ResultOrder) (slots : list N).

(** The derived cache's answer comes from [cache]. *)
Definition cached_order s (cache : ResultOrder → option SlotOrder) order : option SlotOrder :=
  if bool_decide (order = order_name) then Some (name_order s)
  else if bool_decide (order = order_path) ||
          bool_decide (primary_path_direction order = Some true) && bm_is_empty (path_ties s)
  then Some (path_order s)
  else cache order.

(** The [end] of the group of [ranks] that starts at [start]: as long as the
    ranks are adjacent and the paths naturally equal. *)
Fixpoint group_end (fuel : nat) s (ranks : list nat) (start end_ : nat) : polled nat :=
  match fuel with
  | O => p_lift (Err panicked)
  | S fuel =>
    match ranks !! end_, ranks !! (end_ - 1) with
    | Some rank, Some before =>
      if rank =? before + 1 then
        first ← p_some (get (path_order s) start);
        here ← p_some (get (path_order s) rank);
        if same_natural_path (row s) first here then
          check_every 1024 end_;;
          group_end fuel s ranks start (end_ + 1)
        else mret end_
      else mret end_
    | _, _ => mret end_
    end
  end.
(** [slots[begin..finish]], sorted in place. *)
Definition sort_window (compare : N → N → comparison) slots (begin finish : nat) : polled (list N) :=
  if (begin <=? finish) && (finish <=? length slots) then
    group ← sort_slots compare (window slots begin finish);
    mret (take begin slots ++ group ++ drop finish slots)
  else p_some None.
(** [while first < ranks.len()]: every turn passes at least one rank. *)
Fixpoint refine_groups (fuel : nat) s order (ascending : bool) (ranks : list nat) slots (first : nat) :
    polled (list N) :=
  match ranks !! first with
  | None => mret slots
  | Some start =>
    match fuel with
    | O => p_lift (Err panicked)
    | S fuel =>
      end_ ← group_end (S (length ranks)) s ranks start (first + 1);
      last ← p_some (ranks !! (end_ - 1));
      let '(begin, finish) :=
        if ascending then (start, last + 1) else (length slots - last - 1, length slots - start) in
      slots ← sort_window (slot_compare (row s) order) slots begin finish;
      refine_groups fuel s order ascending ranks slots end_
    end
  end.
Definition tie_rank s (ranks : list nat) (position_slot : nat * N) : polled (list nat) :=
  let '(position, slot) := position_slot in
  check_every 1024 position;;
  rank ← p_some (path_position (path_order s) (row s) slot);
  mret (ranks ++ [rank]).
(** The slots in the order, when no cached order answers. *)
Definition ordered_slots s order : polled (list N) :=
  match primary_path_direction order with
  | Some ascending =>
    let slots := to_vec (path_order s) in
    let slots := if ascending then slots else reverse slots in
    ranks ← p_fold (tie_rank s) (imap pair (bm_iter (path_ties s))) [];
    let ranks := merge_sort (≤) ranks in
    slots ← refine_groups (length ranks) s order ascending ranks slots 0;
    check_cancelled;;
    mret slots
  | None => sort_slots (slot_compare (row s) order) (bm_iter (live s))
  end.
(** [cache] before the work and [cache'] after it: another reader may have
    cached the order meanwhile. *)
Definition result_order s (cache cache' : ResultOrder → option SlotOrder) order : polled SlotOrder :=
  check_cancelled;;
  match cached_order s cache order with
  | Some slots => mret slots
  | None =>
    slots ← ordered_slots s order;
    mret (default (from_vec slots) (cache' order))
  end.
End result_order.
Arguments Ordered F {B Sec}.

(** ** The refined path order *)

Section refine_proofs.
Context `{Json} {F : Type} `{!FileEntry F} {B : Type} `{RoaringLaws B} {Sec : Type} `{!UnstableSort}.
Notation SlotOrder := (SlotOrder Sec).
Implicit Types (s : Ordered F (B := B) (Sec := Sec)) (order : ResultOrder).
#[local] Existing Instance natural_path_preorder.

Lemma StronglySorted_by_lookup {A} (R : relation A) (l : list A) :
  (∀ i j x y, i < j → l !! i = Some x → l !! j = Some y → R x y) → StronglySorted R l.
Proof.
  induction l as [|a l IH]; intros Hl; constructor.
  - apply IH. intros i j x y Hij. apply (Hl (S i) (S j)). lia.
  - apply Forall_forall. intros y (j & Hj)%list_elem_of_lookup. apply (Hl 0 (S j)); [lia|done..].
Qed.
Lemma same_natural_trans row a b c :
  same_natural_path row a b = true → same_natural_path row b c = true → same_natural_path row a c = true.
Proof.
  rewrite !same_natural_spec. intros (x & y & Hx & Hy & Hxy) (y' & z & Hy' & Hz & Hyz). simplify_eq.
  exists x, z. split_and!; [done..|]. by rewrite (compare_eq_l natural_path x y z Hxy).
Qed.
(** Equal paths lie together in the path order. *)
Lemma same_natural_convex row live (o : SlotOrder) i j k a b c :
  rows_ok row live → sorted_order row order_path live o → i ≤ j ≤ k →
  to_vec o !! i = Some a → to_vec o !! j = Some b → to_vec o !! k = Some c →
  same_natural_path row a c = true → same_natural_path row b c = true.
Proof.
  intros Hrows Hs [Hij Hjk] Ha Hb Hc (x & z & Hx & Hz & Hxz)%same_natural_spec.
  destruct (proj1 Hrows b) as [y Hy]; [eapply sorted_order_elem; [done|by eapply list_elem_of_lookup_2]|].
  apply same_natural_spec. exists y, z. split_and!; [done..|].
  pose proof (natural_ascends row live o i j a b x y Hs Hij Ha Hb Hx Hy) as H1'.
  pose proof (natural_ascends row live o j k b c y z Hs Hjk Hb Hc Hy Hz) as H2'.
  rewrite (compare_eq_l natural_path x z y Hxz), (compare_opp natural_path y z) in H1'. by destruct (natural_path y z).
Qed.
(** Where the paths differ, the first key of the order decides. *)
Lemma path_key_decides row order ascending a b x y :
  primary_path_direction order = Some ascending → row a = Some x → row b = Some y →
  (if ascending then natural_path x y else natural_path y x) = Lt → cmp_le (slot_compare row order) a b.
Proof.
  intros Hdir Hx Hy Hlt. unfold cmp_le, slot_compare. rewrite Hx, Hy.
  destruct order as [|[field direction] order]; [done|]. destruct field; try done. injection Hdir as ->.
  rewrite order_compare_cons. change (field_cmp SPath x y) with (natural_path x y).
  destruct ascending; [by rewrite Hlt|]. by rewrite <-(compare_opp natural_path x y), Hlt.
Qed.

Section one_order.
Context (s : Ordered F (B := B) (Sec := Sec)) (order : ResultOrder) (ascending : bool) (ranks : list nat).
Notation path := (to_vec (path_order s)).
Notation n := (length path).
Notation same := (same_natural_path (row s)).
Context (Hdir : primary_path_direction order = Some ascending).
Context (Hrows : rows_ok (row s) (live s)) (Hpath : sorted_order (row s) order_path (live s) (path_order s)).
Context (Hfits : fits path).
Context (Hranks : ∀ r, r ∈ ranks ↔ ∃ slot, path !! r = Some slot ∧ tied (row s) (live s) slot).
Context (Hsorted : StronglySorted lt ranks).

(** Where the slot of a rank of the path order starts out. *)
Definition place (rank : nat) : nat := if ascending then rank else n - 1 - rank.
Definition limit (first : nat) : nat := default n (ranks !! first).

Lemma rank_slot r : r ∈ ranks → ∃ slot, path !! r = Some slot.
Proof. rewrite Hranks. intros (slot & ? & _). by exists slot. Qed.
Lemma ranks_lt i j a b : i < j → ranks !! i = Some a → ranks !! j = Some b → a < b.
Proof. apply (StronglySorted_lookup_lt lt ranks i j a b Hsorted). Qed.
(** Two naturally equal slots at different ranks are both tied. *)
Lemma same_ranked i j a b :
  i ≠ j → path !! i = Some a → path !! j = Some b → same a b = true → i ∈ ranks.
Proof.
  intros Hij Ha Hb Hab. apply Hranks. exists a. split; [done|].
  assert (Hl : ∀ k t, path !! k = Some t → bm_contains t (live s) = true).
  { intros k t Ht. eapply sorted_order_elem; [done|by eapply list_elem_of_lookup_2]. }
  split; [by eapply Hl|]. exists b. split_and!; [|by eapply Hl|done].
  intros ->. apply Hij. by apply (NoDup_lookup path i j a (sorted_order_NoDup _ _ _ _ Hpath)).
Qed.

(** [group_end] finds the end of the run of adjacent, naturally equal ranks. *)
Lemma group_end_spec fuel start slot end_ :
  path !! start = Some slot → 0 < end_ ≤ length ranks → length ranks - end_ < fuel →
  ∃ e, cancels_to (group_end fuel s ranks start end_) (Ok e) ∧ end_ ≤ e ≤ length ranks ∧
    (∀ i, end_ ≤ i < e → ∃ before here, ranks !! (i - 1) = Some before ∧ ranks !! i = Some (before + 1) ∧
       path !! (before + 1) = Some here ∧ same slot here = true) ∧
    (∀ before here, ranks !! (e - 1) = Some before → ranks !! e = Some (before + 1) →
       path !! (before + 1) = Some here → same slot here = false).
Proof.
  intros Hslot. revert end_. induction fuel as [|fuel IH]; intros end_ Hend Hfuel; [lia|]. cbn [group_end].
  destruct (ranks !! end_) as [rank|] eqn:Er.
  2:{ exists end_. split; [apply cancels_ret|]. split; [lia|]. split; [lia|]. congruence. }
  destruct (lookup_lt_is_Some_2 ranks (end_ - 1)) as [before Eb]; [lia|]. rewrite Eb.
  destruct (Nat.eqb_spec rank (before + 1)) as [->|Hne].
  2:{ exists end_. split; [apply cancels_ret|]. split; [lia|]. split; [lia|]. congruence. }
  destruct (rank_slot (before + 1)) as [here Hhere]; [by eapply list_elem_of_lookup_2|].
  pose proof Hpath as ([Hends _] & _).
  assert (Hget : ∀ r x, path !! r = Some x → cancels_to (p_some (get (path_order s) r)) (Ok x)).
  { intros r x Hx. apply cancels_some. by rewrite get_flat. }
  destruct (same slot here) eqn:Esame.
  - pose proof (lookup_lt_Some _ _ _ Er). destruct (IH (end_ + 1)) as (e & He & Hle & Hin & Hout); [lia|lia|].
    exists e. split.
    { eapply cancels_bind; [by apply Hget|]. eapply cancels_bind; [by apply Hget|]. rewrite Esame.
      eapply cancels_bind; [apply cancels_check_every|done]. }
    split; [lia|]. split; [|done]. intros i Hi. destruct (decide (i = end_)) as [->|]; [|apply Hin; lia].
    by exists before, here.
  - exists end_. split.
    { eapply cancels_bind; [by apply Hget|]. eapply cancels_bind; [by apply Hget|]. rewrite Esame. apply cancels_ret. }
    split; [lia|]. split; [lia|]. congruence.
Qed.

(** Sorting a window leaves the rest in place. *)
Lemma sort_window_spec slots begin finish :
  slots ≡ₚ path → begin ≤ finish ≤ n →
  ∃ slots', cancels_to (sort_window (slot_compare (row s) order) slots begin finish) (Ok slots') ∧ slots' ≡ₚ path ∧
    (∀ p, p < begin ∨ finish ≤ p → slots' !! p = slots !! p) ∧
    (∀ p x, begin ≤ p < finish → slots' !! p = Some x → ∃ q, begin ≤ q < finish ∧ slots !! q = Some x) ∧
    (∀ p q x y, begin ≤ p → p ≤ q → q < finish → slots' !! p = Some x → slots' !! q = Some y →
       cmp_le (slot_compare (row s) order) x y).
Proof.
  intros Hperm Hb. pose proof (Permutation_length Hperm) as Hlen. unfold sort_window.
  destruct (sort_slots_spec (slot_compare (row s) order) (window slots begin finish)) as (g & Hg & Hgp & Hgs).
  { unfold fits in *. rewrite window_length by lia. lia. }
  pose proof (Permutation_length Hgp) as Hgl. rewrite window_length in Hgl by lia.
  exists (take begin slots ++ g ++ drop finish slots).
  rewrite (proj2 (Nat.leb_le _ _)), (proj2 (Nat.leb_le finish _)) by lia. simpl.
  assert (Hin : ∀ p, begin ≤ p < finish → (take begin slots ++ g ++ drop finish slots) !! p = g !! (p - begin)).
  { intros p Hp. rewrite lookup_app_r by (rewrite length_take; lia). rewrite length_take, Nat.min_l by lia.
    by rewrite lookup_app_l by lia. }
  split_and!.
  - eapply cancels_bind; [exact Hg|apply cancels_ret].
  - rewrite Hgp, <-Hperm, app_assoc, <-take_window by lia. by rewrite take_drop.
  - intros p [Hp|Hp].
    + rewrite lookup_app_l by (rewrite length_take; lia). by rewrite lookup_take_lt.
    + rewrite !lookup_app_r; rewrite ?length_take, ?Nat.min_l; try lia.
      rewrite lookup_drop. f_equal. lia.
  - intros p x Hp. rewrite (Hin p Hp). intros Hx%list_elem_of_lookup_2. rewrite Hgp in Hx.
    apply list_elem_of_lookup in Hx as (i & Hi). unfold window in Hi.
    assert (i < finish - begin) by (apply lookup_lt_Some in Hi; rewrite length_take in Hi; lia).
    rewrite lookup_take_lt, lookup_drop in Hi by lia. exists (begin + i). split; [lia|done].
  - intros p q x y Hp Hpq Hq. rewrite !Hin by lia. intros Hx Hy.
    apply (StronglySorted_lookup (cmp_le (slot_compare (row s) order)) g (p - begin) (q - begin)); [done|lia|done..].
Qed.

(** The groups below the rank at [first] are sorted, and every slot is still
    among its naturally equal ones. *)
Definition refined (first : nat) (slots : list N) : Prop :=
  slots ≡ₚ path ∧
  (∀ r x y, path !! r = Some x → slots !! place r = Some y → same x y = true) ∧
  (∀ q r x y, q < limit first → r < limit first → place q ≤ place r → slots !! place q = Some x →
     slots !! place r = Some y → same x y = true → cmp_le (slot_compare (row s) order) x y) ∧
  (∀ r x y start, ranks !! first = Some start → r < start → path !! r = Some x → path !! start = Some y →
     same x y = false).

Lemma same_live i x : path !! i = Some x → same x x = true.
Proof.
  intros Hx. destruct (proj1 Hrows x) as [y Hy]; [eapply sorted_order_elem; [done|by eapply list_elem_of_lookup_2]|].
  apply same_natural_spec. exists y, y. split_and!; [done..|]. apply compare_refl, _.
Qed.
Lemma place_lt r : r < n → place r < n ∧ place (place r) = r.
Proof. unfold place. destruct ascending; lia. Qed.
Lemma limit_le first : limit first ≤ n.
Proof.
  unfold limit. destruct (ranks !! first) as [r|] eqn:Er; simpl; [|lia].
  destruct (rank_slot r) as [x Hx]; [by eapply list_elem_of_lookup_2|]. apply lookup_lt_Some in Hx. lia.
Qed.
(** The ranks from [first] below [e] are the adjacent ones from [start]. *)
Lemma group_ranks first e start slot :
  ranks !! first = Some start → path !! start = Some slot → first < e ≤ length ranks →
  (∀ i, first + 1 ≤ i < e → ∃ before here, ranks !! (i - 1) = Some before ∧ ranks !! i = Some (before + 1) ∧
     path !! (before + 1) = Some here ∧ same slot here = true) →
  ∀ j, first + j < e → ranks !! (first + j) = Some (start + j) ∧
    ∃ here, path !! (start + j) = Some here ∧ same slot here = true.
Proof.
  intros Hstart Hslot He Hin j. induction j as [|j IH]; intros Hj.
  { rewrite !Nat.add_0_r. split; [done|]. exists slot. split; [done|]. by eapply same_live. }
  destruct IH as [IH _]; [lia|]. destruct (Hin (first + S j)) as (before & here & Hb & Hr & Hh & Hs); [lia|].
  replace (first + S j - 1) with (first + j) in Hb by lia. assert (before = start + j) as -> by congruence.
  replace (start + S j) with (start + j + 1) by lia. split; [done|]. by exists here.
Qed.
(** The group is all of its class: nothing from its end on is equal to it. *)
Lemma group_maximal first e start slot last :
  ranks !! first = Some start → path !! start = Some slot → first < e ≤ length ranks →
  ranks !! (e - 1) = Some last → start ≤ last →
  (∀ before here, ranks !! (e - 1) = Some before → ranks !! e = Some (before + 1) →
     path !! (before + 1) = Some here → same slot here = false) →
  ∀ r x, last < r → path !! r = Some x → same slot x = false.
Proof.
  intros Hstart Hslot He Hlast Hle Hout r x Hr Hx. destruct (same slot x) eqn:Esame; [|done]. exfalso.
  destruct (lookup_lt_is_Some_2 path (last + 1)) as [m Hm].
  { apply lookup_lt_Some in Hx. lia. }
  assert (Hmx : same m x = true) by (apply (same_natural_convex (row s) (live s) (path_order s) start (last + 1) r slot); done || lia).
  assert (Hsm : same slot m = true) by (eapply same_natural_trans; [done|by apply same_natural_sym]).
  assert (Hin : last + 1 ∈ ranks).
  { apply (same_ranked (last + 1) start m slot); [lia|done..|by apply same_natural_sym]. }
  apply list_elem_of_lookup in Hin as (k & Hk).
  assert (k = e) as ->.
  { destruct (lt_eq_lt_dec k e) as [[Hlt|]|Hgt]; [|done|].
    - destruct (decide (k = e - 1)) as [->|]; [simplify_eq; lia|].
      pose proof (ranks_lt k (e - 1) (last + 1) last). naive_solver lia.
    - destruct (lookup_lt_is_Some_2 ranks e) as [b Hb]; [apply lookup_lt_Some in Hk; lia|].
      pose proof (ranks_lt (e - 1) e last b ltac:(lia) Hlast Hb). pose proof (ranks_lt e k b (last + 1) ltac:(lia) Hb Hk). lia. }
  rewrite (Hout last m) in Hsm; done.
Qed.
Lemma refined_step first e start last slots slots' slot begin finish :
  refined first slots → ranks !! first = Some start → path !! start = Some slot → first < e ≤ length ranks →
  ranks !! (e - 1) = Some last → start ≤ last < n →
  (∀ r, start ≤ r ≤ last → ∃ here, path !! r = Some here ∧ same slot here = true) →
  (∀ r x, last < r → path !! r = Some x → same slot x = false) →
  (∀ r, r < n → begin ≤ place r < finish ↔ start ≤ r ≤ last) →
  finish ≤ n → slots' ≡ₚ path →
  (∀ p, p < begin ∨ finish ≤ p → slots' !! p = slots !! p) →
  (∀ p x, begin ≤ p < finish → slots' !! p = Some x → ∃ q, begin ≤ q < finish ∧ slots !! q = Some x) →
  (∀ p q x y, begin ≤ p → p ≤ q → q < finish → slots' !! p = Some x → slots' !! q = Some y →
     cmp_le (slot_compare (row s) order) x y) →
  refined e slots'.
Proof.
  intros (Hperm & Hclass & Hle & Hbound) Hstart Hslot He Hlast Hsl Hgroup Hmax Hplace Hfin Hperm' Hkeep Hfrom Hwin.
  assert (Hclass' : ∀ r x y, path !! r = Some x → slots' !! place r = Some y → same x y = true).
  { intros r x y Hx Hy. pose proof (lookup_lt_Some _ _ _ Hx) as Hr.
    destruct (decide (begin ≤ place r < finish)) as [Hwindow|Hwindow].
    2:{ apply (Hclass r x y Hx). rewrite <-(Hkeep (place r)) by lia. done. }
    destruct (Hfrom (place r) y Hwindow Hy) as (q & Hq & Hqy).
    destruct (place_lt q) as [Hqn Hqq]; [lia|]. rewrite <-Hqq in Hq, Hqy.
    apply Hplace in Hq; [|done]. apply Hplace in Hwindow; [|done].
    destruct (Hgroup r Hwindow) as (x' & Hx' & Hsx). simplify_eq.
    destruct (Hgroup _ Hq) as (z & Hz & Hsz). eapply same_natural_trans; [by apply same_natural_sym|].
    eapply same_natural_trans; [done|]. by apply (Hclass _ z y Hz). }
  assert (Hbetween : ∀ r x y r', path !! r = Some x → path !! r' = Some y → r ≠ r' → same x y = true → last < r → limit e ≤ r).
  { intros r x y r' Hx Hy Hne Hxy Hlr. assert (Hin : r ∈ ranks) by (by apply (same_ranked r r' x y)).
    apply list_elem_of_lookup in Hin as (k & Hk). unfold limit. destruct (ranks !! e) as [b|] eqn:Eb; simpl.
    - destruct (decide (k = e)) as [->|]; [simplify_eq; lia|]. destruct (decide (e < k)).
      { pose proof (ranks_lt e k b r). naive_solver lia. }
      destruct (decide (k = e - 1)) as [->|]; [simplify_eq; lia|]. pose proof (ranks_lt k (e - 1) r last). naive_solver lia.
    - apply lookup_ge_None in Eb. pose proof (lookup_lt_Some _ _ _ Hk).
      destruct (decide (k = e - 1)) as [->|]; [simplify_eq; lia|]. pose proof (ranks_lt k (e - 1) r last). naive_solver lia. }
  assert (Hlim : limit first = start) by (unfold limit; by rewrite Hstart).
  split_and!; [done|done| |].
  - intros q r x y Hq Hr Hqr Hx Hy Hxy. pose proof (limit_le e).
    destruct (lookup_lt_is_Some_2 path q) as [px Hpx]; [lia|]. destruct (lookup_lt_is_Some_2 path r) as [py Hpy]; [lia|].
    assert (Hpp : same px py = true).
    { eapply same_natural_trans; [by apply (Hclass' q)|]. eapply same_natural_trans; [done|]. by apply same_natural_sym, (Hclass' r). }
    destruct (decide (q = r)) as [->|Hne].
    { assert (x = y) as -> by congruence. unfold cmp_le. by rewrite (compare_refl (slot_compare (row s) order)). }
    assert (Hql : q ≤ last) by (destruct (decide (last < q)); [pose proof (Hbetween q px py r Hpx Hpy Hne Hpp ltac:(lia))|]; lia).
    assert (Hrl : r ≤ last).
    { destruct (decide (last < r)); [|lia]. apply same_natural_sym in Hpp. pose proof (Hbetween r py px q Hpy Hpx ltac:(done) Hpp ltac:(lia)). lia. }
    assert (Hside : ∀ a b pa pb, path !! a = Some pa → path !! b = Some pb → same pa pb = true → start ≤ a ≤ last → start ≤ b).
    { intros a b pa pb Ha Hb Hab Hin. destruct (decide (b < start)) as [Hbs|]; [|lia].
      destruct (Hgroup a Hin) as (pa' & Hpa' & Hspa). rewrite Ha in Hpa'. injection Hpa' as <-.
      assert (Hbslot : same pb slot = true) by (apply same_natural_sym; by eapply same_natural_trans).
      by rewrite (Hbound b pb slot start) in Hbslot. }
    destruct (decide (start ≤ q)) as [Hqs|Hqs].
    + pose proof (Hside q r px py Hpx Hpy Hpp ltac:(lia)) as Hrs.
      pose proof (proj2 (Hplace q ltac:(lia)) ltac:(lia)). pose proof (proj2 (Hplace r ltac:(lia)) ltac:(lia)).
      apply (Hwin (place q) (place r)); done || lia.
    + assert (Hrs : r < start).
      { destruct (decide (start ≤ r)); [|lia]. apply same_natural_sym in Hpp. pose proof (Hside r q py px Hpy Hpx Hpp ltac:(lia)). lia. }
      assert (Hout : ∀ k, k < start → k < n → slots' !! place k = slots !! place k).
      { intros k Hk Hkn. apply Hkeep. pose proof (Hplace k Hkn). lia. }
      rewrite Hout in Hx, Hy by lia. apply (Hle q r); try done; lia.
  - intros r x y b Hb Hrb Hx Hy. destruct (same x y) eqn:Esame; [|done]. exfalso.
    assert (Hlb : last < b) by (apply (ranks_lt (e - 1) e); [lia|done..]).
    assert (Hr : r ≤ last).
    { destruct (decide (last < r)); [|lia]. pose proof (Hbetween r x y b Hx Hy ltac:(lia) Esame ltac:(lia)) as Hlim'. unfold limit in Hlim'. rewrite Hb in Hlim'. simpl in Hlim'. lia. }
    destruct (Hgroup last) as (l & Hl & Hsl'); [lia|].
    assert (Hly : same l y = true) by (apply (same_natural_convex (row s) (live s) (path_order s) r last b x); done || lia).
    assert (Hsy : same slot y = true) by (by eapply same_natural_trans). by rewrite (Hmax b y) in Hsy.
Qed.

Lemma refine_groups_spec fuel first slots :
  length ranks - first ≤ fuel → first ≤ length ranks → refined first slots →
  ∃ r, cancels_to (refine_groups fuel s order ascending ranks slots first) (Ok r) ∧ refined (length ranks) r.
Proof.
  revert first slots. induction fuel as [|fuel IH]; intros first slots Hfuel Hfirst Href; cbn [refine_groups].
  all: destruct (ranks !! first) as [start|] eqn:Hstart;
    [|apply lookup_ge_None in Hstart; assert (first = length ranks) as -> by lia; exists slots; split; [apply cancels_ret|done]].
  { apply lookup_lt_Some in Hstart. lia. }
  destruct (rank_slot start) as [slot Hslot]; [by eapply list_elem_of_lookup_2|].
  pose proof (lookup_lt_Some _ _ _ Hstart) as Hlt.
  destruct (group_end_spec (S (length ranks)) start slot (first + 1) Hslot) as (e & He & Hle & Hin & Hout); [lia|lia|].
  pose proof (group_ranks first e start slot Hstart Hslot ltac:(lia) Hin) as Hgroup.
  destruct (Hgroup (e - 1 - first)) as [Hlast (lslot & Hls & _)]; [lia|].
  replace (first + (e - 1 - first)) with (e - 1) in Hlast by lia. set (last := start + (e - 1 - first)) in *.
  pose proof Href as (Hperm & _). pose proof (Permutation_length Hperm) as Hlen. pose proof (lookup_lt_Some _ _ _ Hls) as Hln.
  set (begin := if ascending then start else n - last - 1). set (finish := if ascending then last + 1 else n - start).
  assert (Hpair : (if ascending then (start, last + 1) else (length slots - last - 1, length slots - start)) = (begin, finish)).
  { unfold begin, finish. rewrite Hlen. by destruct ascending. }
  destruct (sort_window_spec slots begin finish Hperm) as (slots' & Hsw & Hperm' & Hkeep & Hfrom & Hwin).
  { unfold begin, finish. destruct ascending; lia. }
  destruct (IH e slots') as (r & Hr & Hdone); [lia|lia| |].
  { apply (refined_step first e start last slots slots' slot begin finish); try done; try lia.
    - intros r Hr. destruct (Hgroup (r - start)) as [_ (here & Hh & Hsame)]; [lia|].
      replace (start + (r - start)) with r in Hh by lia. by exists here.
    - apply (group_maximal first e start slot last); done || lia.
    - intros r Hr. unfold place, begin, finish. destruct ascending; lia.
    - unfold finish. destruct ascending; lia. }
  exists r. split; [|done]. eapply cancels_bind; [exact He|]. eapply cancels_bind; [by apply cancels_some|].
  rewrite Hpair. eapply cancels_bind; [exact Hsw|done].
Qed.
Lemma refined_start : refined 0 (if ascending then path else reverse path).
Proof.
  assert (Hat : ∀ r, r < n → (if ascending then path else reverse path) !! place r = path !! r).
  { intros r Hr. unfold place. destruct ascending; [done|]. rewrite reverse_lookup by lia. f_equal. lia. }
  assert (Hsingle : ∀ q r x y, q ≠ r → path !! q = Some x → path !! r = Some y → same x y = true → limit 0 ≤ q).
  { intros q r x y Hne Hx Hy Hxy. assert (Hq : q ∈ ranks) by (by apply (same_ranked q r x y)).
    apply list_elem_of_lookup in Hq as (k & Hk). unfold limit. destruct (ranks !! 0) as [b|] eqn:Eb; simpl.
    - destruct k; [simplify_eq; lia|]. pose proof (ranks_lt 0 (S k) b q ltac:(lia) Eb Hk). lia.
    - destruct ranks; [done|]. done. }
  split_and!.
  - destruct ascending; [done|]. by rewrite reverse_Permutation.
  - intros r x y Hx. rewrite Hat by (by eapply lookup_lt_Some). intros Hy. assert (x = y) as -> by congruence. by eapply same_live.
  - intros q r x y Hq Hr _. pose proof (limit_le 0). rewrite !Hat by lia. intros Hx Hy Hxy.
    destruct (decide (q = r)) as [->|Hne]; [|pose proof (Hsingle q r x y Hne Hx Hy Hxy); lia].
    assert (x = y) as -> by congruence. unfold cmp_le. by rewrite (compare_refl (slot_compare (row s) order)).
  - intros r x y start Hstart Hr Hx Hy. destruct (same x y) eqn:Hxy; [|done].
    pose proof (Hsingle r start x y ltac:(lia) Hx Hy Hxy) as Hl. unfold limit in Hl. rewrite Hstart in Hl. simpl in Hl. lia.
Qed.
Lemma refined_sorted slots :
  refined (length ranks) slots → StronglySorted (cmp_le (slot_compare (row s) order)) slots.
Proof.
  intros (Hperm & Hclass & Hle & _). pose proof (Permutation_length Hperm) as Hlen.
  assert (Hlim : limit (length ranks) = n) by (unfold limit; by rewrite lookup_ge_None_2).
  apply StronglySorted_by_lookup. intros i j x y Hij Hx Hy.
  pose proof (lookup_lt_Some _ _ _ Hx). pose proof (lookup_lt_Some _ _ _ Hy).
  destruct (place_lt i) as [Hqn Hqi]; [lia|]. destruct (place_lt j) as [Hrn Hrj]; [lia|].
  destruct (same x y) eqn:Hxy.
  { apply (Hle (place i) (place j)); rewrite ?Hqi, ?Hrj; done || lia. }
  destruct (lookup_lt_is_Some_2 path (place i)) as [px Hpx]; [done|].
  destruct (lookup_lt_is_Some_2 path (place j)) as [py Hpy]; [done|].
  assert (Hpxx : same px x = true) by (apply (Hclass (place i)); by rewrite ?Hqi).
  assert (Hpyy : same py y = true) by (apply (Hclass (place j)); by rewrite ?Hrj).
  apply same_natural_spec in Hpxx as (vpx & vx & Hvpx & Hvx & Exx).
  apply same_natural_spec in Hpyy as (vpy & vy & Hvpy & Hvy & Eyy).
  assert (Hne : natural_path vx vy ≠ Eq).
  { intros E. assert (same x y = true) by (apply same_natural_spec; by exists vx, vy). congruence. }
  assert (Hab : natural_path vx vy = natural_path vpx vpy).
  { rewrite <-(compare_eq_l natural_path vpx vx vy Exx).
    by rewrite (compare_opp natural_path vy vpx), <-(compare_eq_l natural_path vpy vy vpx Eyy), <-(compare_opp natural_path vpy vpx). }
  apply (path_key_decides (row s) order ascending x y vx vy); [done..|].
  unfold place in Hpx, Hpy. destruct ascending.
  - pose proof (natural_ascends (row s) (live s) (path_order s) i j px py vpx vpy Hpath ltac:(lia) Hpx Hpy Hvpx Hvpy).
    rewrite Hab in *. by destruct (natural_path vpx vpy).
  - pose proof (natural_ascends (row s) (live s) (path_order s) (n - 1 - j) (n - 1 - i) py px vpy vpx Hpath ltac:(lia) Hpy Hpx Hvpy Hvpx) as Hasc.
    rewrite (compare_opp natural_path vx vy), Hab. rewrite (compare_opp natural_path vpx vpy) in Hasc. rewrite Hab in Hne.
    by destruct (natural_path vpx vpy).
Qed.
End one_order.
End refine_proofs.

(** What a published snapshot keeps of its orders, and what its cache of
    derived orders holds. *)
Definition orders_ok `{Json} {F} `{!FileEntry F} {B} `{Roaring B} {Sec} (s : Ordered F (B := B) (Sec := Sec)) : Prop :=
  rows_ok (row s) (live s) ∧
  sorted_order (row s) order_name (live s) (name_order s) ∧
  sorted_order (row s) order_path (live s) (path_order s) ∧
  ties_ok (row s) (live s) (path_ties s).
Definition cache_sound `{Json} {F} `{!FileEntry F} {B} `{Roaring B} {Sec} (s : Ordered F (B := B) (Sec := Sec))
    (cache : ResultOrder → option (SlotOrder Sec)) : Prop :=
  ∀ order o, cache order = Some o → sorted_order (row s) order (live s) o.

Section result_proofs.
Context `{Json} {F : Type} `{!FileEntry F} {B : Type} `{RoaringLaws B} {Sec : Type} `{!UnstableSort}.
Implicit Types (s : Ordered F (B := B) (Sec := Sec)) (order : ResultOrder).
#[local] Existing Instance natural_path_preorder.

(** Without ties the path order serves every order that starts with the path. *)
Lemma untied_path_order s order :
  orders_ok s → primary_path_direction order = Some true → bm_is_empty (path_ties s) = true →
  sorted_order (row s) order (live s) (path_order s).
Proof.
  intros (Hrows & _ & Hpath & Hties) Hdir Hempty. pose proof Hpath as (Hok & Hperm & _). split_and!; [done..|].
  apply StronglySorted_by_lookup. intros i j a b Hij Ha Hb.
  assert (Hl : ∀ k t, to_vec (path_order s) !! k = Some t → bm_contains t (live s) = true).
  { intros k t Ht. eapply sorted_order_elem; [done|by eapply list_elem_of_lookup_2]. }
  destruct (proj1 Hrows a (Hl i a Ha)) as [x Hx]. destruct (proj1 Hrows b (Hl j b Hb)) as [y Hy].
  apply (path_key_decides (row s) order true a b x y Hdir Hx Hy).
  pose proof (natural_ascends (row s) (live s) (path_order s) i j a b x y Hpath ltac:(lia) Ha Hb Hx Hy).
  destruct (natural_path x y) eqn:E; [|done|done].
  assert (Htied : bm_contains a (path_ties s) = true).
  { apply Hties. split; [by eapply Hl|]. exists b. split_and!; [|by eapply Hl|apply same_natural_spec; by exists x, y].
    intros ->. assert (i = j) by (by apply (NoDup_lookup (to_vec (path_order s)) i j a (sorted_order_NoDup _ _ _ _ Hpath))). lia. }
  apply contains_iter in Htied. unfold bm_is_empty in Hempty. destruct (bm_iter (path_ties s)); [by apply elem_of_nil in Htied|done].
Qed.
Lemma cached_order_sorted s cache order o :
  orders_ok s → cache_sound s cache → cached_order s cache order = Some o → sorted_order (row s) order (live s) o.
Proof.
  intros Hs Hcache. pose proof Hs as (_ & Hn & Hp & _). unfold cached_order. case_bool_decide as E1; [intros [= <-]; by subst|].
  destruct (bool_decide _ || _) eqn:E2; [|apply Hcache]. intros [= <-].
  apply orb_true_iff in E2 as [E2|[E2 E3]%andb_true_iff]; apply bool_decide_eq_true in E2; [by subst|].
  by apply untied_path_order.
Qed.
(** The ranks of the ties, sorted. *)
Lemma tie_ranks_spec s :
  orders_ok s → ∃ ranks, cancels_to (p_fold (tie_rank s) (imap pair (bm_iter (path_ties s))) []) (Ok ranks) ∧
    (∀ r, r ∈ ranks ↔ ∃ slot, to_vec (path_order s) !! r = Some slot ∧ tied (row s) (live s) slot) ∧ NoDup ranks.
Proof.
  intros (Hrows & _ & Hpath & Hties). set (ties := bm_iter (path_ties s)).
  destruct (cancels_fold_inv (tie_rank s) (λ k ranks,
    Forall2 (λ slot r, to_vec (path_order s) !! r = Some slot) (take k ties) ranks) (imap pair ties) []) as (ranks & Hr & Hall).
  - constructor.
  - intros k [p slot] ranks Hk HI. rewrite list_lookup_imap in Hk. apply fmap_Some in Hk as (x & Hx & [= -> ->]).
    assert (Hlive : bm_contains x (live s) = true).
    { apply (Hties x). apply contains_iter. by eapply list_elem_of_lookup_2. }
    destruct (proj1 (path_position_spec _ _ _ x Hrows Hpath) Hlive) as (r & Hpos & Hrx).
    exists (ranks ++ [r]). split.
    + eapply cancels_bind; [apply cancels_check_every|]. eapply cancels_bind; [by apply cancels_some|apply cancels_ret].
    + rewrite (take_S_r _ _ x Hx). by apply Forall2_app; [|constructor].
  - rewrite length_imap, firstn_all in Hall. exists ranks. split_and!; [done| |].
    + intros r. split.
      * intros (k & Hk)%list_elem_of_lookup. destruct (Forall2_lookup_r _ _ _ _ _ Hall Hk) as (slot & Hslot & Hrs).
        exists slot. split; [done|]. apply Hties, contains_iter. by eapply list_elem_of_lookup_2.
      * intros (slot & Hrs & Htied). apply Hties, contains_iter, list_elem_of_lookup in Htied as (k & Hk).
        destruct (Forall2_lookup_l _ _ _ _ _ Hall Hk) as (r' & Hr' & Hrs').
        assert (r = r') as -> by (by apply (NoDup_lookup (to_vec (path_order s)) r r' slot (sorted_order_NoDup _ _ _ _ Hpath))).
        by eapply list_elem_of_lookup_2.
    + apply NoDup_alt. intros i j r Hi Hj. destruct (Forall2_lookup_r _ _ _ _ _ Hall Hi) as (a & Ha & Hra).
      destruct (Forall2_lookup_r _ _ _ _ _ Hall Hj) as (b & Hb & Hrb). assert (a = b) as -> by congruence.
      by apply (NoDup_lookup ties i j b (bm_iter_NoDup _)).
Qed.
Lemma sorted_ranks_lt (ranks : list nat) : NoDup ranks → StronglySorted lt (merge_sort (≤) ranks).
Proof.
  intros Hnd. apply StronglySorted_by_lookup. intros i j a b Hij Ha Hb.
  pose proof (StronglySorted_merge_sort (≤) ranks) as Hs.
  pose proof (StronglySorted_lookup_lt (≤) _ i j a b Hs Hij Ha Hb).
  assert (a ≠ b); [|lia]. intros ->.
  assert (i = j); [|lia]. apply (NoDup_lookup (merge_sort (≤) ranks) i j b); [|done..]. by rewrite merge_sort_Permutation.
Qed.
Lemma ordered_slots_spec s order :
  orders_ok s → fits (bm_iter (live s)) →
  ∃ r, cancels_to (ordered_slots s order) (Ok r) ∧ r ≡ₚ bm_iter (live s) ∧
       StronglySorted (cmp_le (slot_compare (row s) order)) r.
Proof.
  intros Hs Hfits. pose proof Hs as (Hrows & _ & Hpath & _). pose proof Hpath as (_ & Hperm & _). unfold ordered_slots.
  destruct (primary_path_direction order) as [ascending|] eqn:Hdir; [|by apply sort_slots_spec; [apply _|]].
  destruct (tie_ranks_spec s Hs) as (ranks & Hfold & Hranks & Hnd).
  assert (Hp : merge_sort (≤) ranks ≡ₚ ranks) by apply merge_sort_Permutation.
  assert (Hranks' : ∀ r, r ∈ merge_sort (≤) ranks ↔ ∃ slot, to_vec (path_order s) !! r = Some slot ∧ tied (row s) (live s) slot).
  { intros r. by rewrite Hp, Hranks. }
  assert (Hf : fits (to_vec (path_order s))) by (unfold fits in *; by rewrite Hperm).
  pose proof (sorted_ranks_lt ranks Hnd) as Hsorted.
  destruct (refine_groups_spec s order ascending _ Hdir Hrows Hpath Hf Hranks' Hsorted (length (merge_sort (≤) ranks)) 0
    (if ascending then to_vec (path_order s) else reverse (to_vec (path_order s)))) as (r & Hr & Href); [lia|lia|by apply refined_start|].
  exists r. split_and!.
  - eapply cancels_bind; [exact Hfold|]. eapply cancels_bind; [exact Hr|]. eapply cancels_bind; [apply cancels_check|apply cancels_ret].
  - rewrite <-Hperm. apply Href.
  - by eapply refined_sorted.
Qed.
Lemma result_order_spec s (cache cache' : ResultOrder → option (SlotOrder Sec)) order :
  orders_ok s → cache_sound s cache → cache_sound s cache' → fits (bm_iter (live s)) →
  ∃ o, cancels_to (result_order s cache cache' order) (Ok o) ∧ sorted_order (row s) order (live s) o.
Proof.
  intros Hs Hcache Hcache' Hfits. unfold result_order.
  destruct (cached_order s cache order) as [o|] eqn:Hc.
  { exists o. split; [|by apply (cached_order_sorted s cache)].
    eapply cancels_bind; [apply cancels_check|apply cancels_ret]. }
  destruct (ordered_slots_spec s order Hs Hfits) as (r & Hr & Hp & Hsorted).
  exists (default (from_vec r) (cache' order)). split.
  { eapply cancels_bind; [apply cancels_check|]. eapply cancels_bind; [exact Hr|apply cancels_ret]. }
  destruct (cache' order) as [o|] eqn:Ho; simpl; [by apply Hcache'|].
  split_and!; [apply from_vec_ok| |]; by rewrite from_vec_flat.
Qed.
End result_proofs.

(** C10: Every requested order is the live slots in that order.  For a snapshot
    whose kept orders and ties are sound, [result_order] — the kept order, a
    cached one, the path order refined group by group forwards or backwards,
    or a sort of all the live slots — gives, unless it is cancelled, an order
    whose slots are exactly the live ones, sorted by the requested keys with
    path and id as the last ones; no index is out of range, and the groups are
    found and sorted within the fuel. *)
Theorem snapshot_order_is_sorted `{Json} {F} `{!FileEntry F} {B} `{RoaringLaws B} {Sec} `{!UnstableSort}
    (s : Ordered F (B := B) (Sec := Sec)) (cache cache' : ResultOrder → option (SlotOrder Sec)) (order : ResultOrder) :
  orders_ok s → cache_sound s cache → cache_sound s cache' → fits (bm_iter (live s)) →
  ∃ o, cancels_to (result_order s cache cache' order) (Ok o) ∧ sorted_order (row s) order (live s) o.
Proof. exact (result_order_spec s cache cache' order). Qed.

(** The paths ["/b1"] and ["/b01"] are naturally equal; by size they swap. *)
Definition sample_ordered : Ordered IndexedFile (B := gset N) (Sec := ()) :=
  let path := built_order (listed sample_rows) order_path [0; 1; 2]%N in
  {| row := listed sample_rows; live := list_to_set [0; 1; 2]%N;
     name_order := built_order (listed sample_rows) order_name [0; 1; 2]%N; path_order := path;
     path_ties := built_ties (listed sample_rows) (to_vec path) |}.
Lemma snapshot_order_is_sorted_witness :
  let order := [(SPath, false); (SSize, false)] in
  ∃ o, result_order sample_ordered (λ _, None) (λ _, None) order (λ _, false) 0 = (Ok o, 4) ∧ to_vec o = [0; 2; 1]%N ∧
       sorted_order (row sample_ordered) order (live sample_ordered) o.
Proof.
  cbv zeta. assert (Hiter : bm_iter (live sample_ordered) = [0; 1; 2]%N) by (vm_compute; reflexivity).
  destruct (snapshot_order_is_sorted sample_ordered (λ _, None) (λ _, None) [(SPath, false); (SSize, false)]) as (o & Ho & Hs).
  - assert (Hrows : rows_ok (row sample_ordered) (live sample_ordered)) by (apply listed_rows_ok; by_decide).
    assert (Hpath : sorted_order (row sample_ordered) order_path (live sample_ordered) (path_order sample_ordered)).
    { pose proof (built_order_spec (Sec := ()) (listed sample_rows) order_path (live sample_ordered)) as Hb. by rewrite Hiter in Hb. }
    split_and!; [done| |done|by apply built_ties_spec].
    pose proof (built_order_spec (Sec := ()) (listed sample_rows) order_name (live sample_ordered)) as Hb. by rewrite Hiter in Hb.
  - intros ? ? [=].
  - intros ? ? [=].
  - unfold fits. rewrite Hiter. by_decide.
  - exists o. pose proof (cancels_never _ _ (λ _, false) 0 Ho (λ _, eq_refl)) as Hr.
    assert (Hrun : ∃ o', result_order sample_ordered (λ _, None) (λ _, None) [(SPath, false); (SSize, false)] (λ _, false) 0 = (Ok o', 4) ∧
      to_vec o' = [0; 2; 1]%N) by (eexists; split; [vm_compute; reflexivity|vm_compute; reflexivity]).
    destruct Hrun as (o' & Hrun & Hvec). rewrite Hrun in Hr. injection Hr as ->. done.
Defined.
