(* ===== verification/NumericRange.v ===== *)
(** * core/src/numeric_columns.rs, [Block] and [Bounds]: float bounds as ranks

    The bounds of a block of values, and the range of integer ranks whose
    values fall between two floats.  The bisection finds the ranks exactly,
    whatever the bounds (infinite, not a number, between two floats), because
    the conversion of integers to floats is monotone. *)
From S2P Require Import Prelude Text Float FloatOrder QueryNumber Columns IntegerColumn.

(** ** Blocks *)

Definition block_entries : nat := 4096.
Record Block := { b_length : nat; minimum : f64; maximum : f64 }.
Definition block_empty : Block := {| b_length := 0; minimum := f64_infinity; maximum := f64_neg_infinity |}.
(** [f64::min], [f64::max]: a NaN is ignored. *)
Definition f64_min (a b : f64) : f64 :=
  if f64_is_nan a then b else if f64_is_nan b then a else if f64_lt b a then b else a.
Definition f64_max (a b : f64) : f64 :=
  if f64_is_nan a then b else if f64_is_nan b then a else if f64_lt a b then b else a.
Definition include (b : Block) (value : f64) : Block :=
  if f64_is_nan value then b
  else {| b_length := b_length b; minimum := f64_min (minimum b) value; maximum := f64_max (maximum b) value |}.

(** ** Bounds and ranks *)

Record Bounds := { low : f64; high : f64; include_low : bool; include_high : bool; negate : bool }.
Definition above_lower (b : Bounds) (value : f64) : bool :=
  if include_low b then f64_le (low b) value else f64_lt (low b) value.
Definition below_upper (b : Bounds) (value : f64) : bool :=
  if include_high b then f64_le value (high b) else f64_lt value (high b).
(** [first]: the bisection; 65 rounds decide 2^64 ranks.  [None] is the panic
    of the predicate's [unwrap], or too little fuel. *)
Fixpoint first_rank (fuel : nat) (predicate : N → option bool) (low high : N) : option N :=
  if (low <? high)%N then
    match fuel with
    | O => None
    | S fuel =>
      let middle := ((low + high) / 2)%N in
      b ← predicate (middle mod 2 ^ 64)%N;
      if (b : bool) then first_rank fuel predicate low middle else first_rank fuel predicate (middle + 1)%N high
    end
  else Some low.
Definition rank_range {T} (s : scalar T) (convert : T → f64) (b : Bounds) : option (option (N * N)) :=
  let first (predicate : f64 → bool) :=
    first_rank 65 (λ r, v ← from_rank s r; Some (predicate (convert v))) 0%N (2 ^ 64)%N in
  lower ← first (above_lower b);
  end_ ← first (λ value, negb (below_upper b value));
  Some (if (lower <? end_)%N then Some ((lower mod 2 ^ 64)%N, ((end_ - 1) mod 2 ^ 64)%N) else None).

(** ** Proofs *)

Definition inside (b : Bounds) (value : f64) : bool := above_lower b value && below_upper b value.
Definition in_ranks (ranks : option (N * N)) (r : N) : bool :=
  match ranks with Some (lower, upper) => (lower <=? r)%N && (r <=? upper)%N | None => false end.
(** The block's bounds admit the value. *)
Definition bounded (b : Block) (value : f64) : Prop := f64_le (minimum b) value = true ∧ f64_le value (maximum b) = true.

Lemma f64_lt_le x y : f64_lt x y = true → f64_le x y = true.
Proof.
  rewrite f64_lt_key, f64_le_key. intros (kx & ky & Hx & Hy & Hc). exists kx, ky. split_and!; [done..|].
  unfold cmp_le. congruence.
Qed.
Lemma f64_le_numbers x y : f64_le x y = true → f64_is_nan x = false ∧ f64_is_nan y = false.
Proof. rewrite f64_le_key. intros (kx & ky & Hx & Hy & _). by destruct x, y. Qed.
Lemma f64_min_le a v : f64_is_nan v = false →
  f64_le (f64_min a v) v = true ∧ ∀ w, f64_le a w = true → f64_le (f64_min a v) w = true.
Proof.
  intros Hv. unfold f64_min. rewrite Hv. destruct (f64_is_nan a) eqn:Ea.
  - split; [by apply f64_le_refl|]. intros w Hw. apply f64_le_numbers in Hw. destruct Hw. congruence.
  - destruct (f64_lt v a) eqn:E.
    + split; [by apply f64_le_refl|]. intros w Hw. apply f64_lt_le. by apply (f64_lt_le_trans v a w).
    + split; [by apply f64_not_lt|done].
Qed.
Lemma f64_max_ge a v : f64_is_nan v = false →
  f64_le v (f64_max a v) = true ∧ ∀ w, f64_le w a = true → f64_le w (f64_max a v) = true.
Proof.
  intros Hv. unfold f64_max. rewrite Hv. destruct (f64_is_nan a) eqn:Ea.
  - split; [by apply f64_le_refl|]. intros w Hw. apply f64_le_numbers in Hw. destruct Hw. congruence.
  - destruct (f64_lt a v) eqn:E.
    + split; [by apply f64_le_refl|]. intros w Hw. apply f64_lt_le. by apply (f64_le_lt_trans w a v).
    + split; [by apply f64_not_lt|done].
Qed.
Lemma include_bounds b v : 
  b_length (include b v) = b_length b ∧ (f64_is_nan v = false → bounded (include b v) v) ∧
  ∀ w, bounded b w → bounded (include b v) w.
Proof.
  unfold include, bounded. destruct (f64_is_nan v) eqn:Ev; [done|]. simpl.
  destruct (f64_min_le (minimum b) v Ev) as [Hmv Hm], (f64_max_ge (maximum b) v Ev) as [HMv HM].
  split_and!; [done|done|]. intros w [??]. split; auto.
Qed.

Lemma above_lower_mono b v w : f64_le v w = true → above_lower b v = true → above_lower b w = true.
Proof.
  unfold above_lower. intros Hvw. destruct (include_low b); intros Hv; [by eapply f64_le_trans|by eapply f64_lt_le_trans].
Qed.
Lemma below_upper_mono b v w : f64_le v w = true → below_upper b w = true → below_upper b v = true.
Proof.
  unfold below_upper. intros Hvw. destruct (include_high b); intros Hv; [by eapply f64_le_trans|by eapply f64_le_lt_trans].
Qed.

(** Bisection. *)
Lemma first_rank_spec fuel p (P : N → bool) low high :
  (∀ r, (r < 2 ^ 64)%N → p r = Some (P r)) →
  (∀ r r', (r ≤ r' < 2 ^ 64)%N → P r = true → P r' = true) →
  (low ≤ high ≤ 2 ^ 64)%N → (high - low < 2 ^ N.of_nat fuel)%N →
  (∀ r, (r < low)%N → P r = false) → (∀ r, (high ≤ r < 2 ^ 64)%N → P r = true) →
  ∃ k, first_rank fuel p low high = Some k ∧ (k ≤ 2 ^ 64)%N ∧
    (∀ r, (r < k)%N → P r = false) ∧ (∀ r, (k ≤ r < 2 ^ 64)%N → P r = true).
Proof.
  intros Hp Hmono. revert low high. induction fuel as [|fuel IH]; intros low high Hle Hfuel Hlow Hhigh; cbn [first_rank].
  { simpl in Hfuel. destruct (N.ltb_spec low high); [lia|]. exists low. assert (high = low) as -> by lia.
    split_and!; [done|lia|done|done]. }
  destruct (N.ltb_spec low high) as [Hlt|Hge].
  - rewrite Nat2N.inj_succ, N.pow_succ_r' in Hfuel.
    assert (Hmid : (low ≤ (low + high) / 2 < high)%N) by lia. set (middle := ((low + high) / 2)%N) in *.
    assert (Hhalf : (2 * middle ≤ low + high ≤ 2 * middle + 1)%N) by (subst middle; lia). clearbody middle.
    rewrite N.mod_small, Hp by lia. cbn [mbind option_bind]. destruct (P middle) eqn:E.
    + apply IH; [lia|lia|done|]. intros r Hr. apply (Hmono middle); [lia|done].
    + apply IH; [lia|lia| |done]. intros r Hr. destruct (P r) eqn:Er; [|done].
      rewrite (Hmono r middle) in E; [done|lia|done].
  - exists low. assert (high = low) as -> by lia. split_and!; [done|lia|done|done].
Qed.

Section ranks.
Context {T : Type} (s : scalar T) (convert : T → f64) (value : N → T).
Hypothesis from_rank_value : ∀ r, (r < 2 ^ 64)%N → from_rank s r = Some (value r).
Hypothesis convert_mono : ∀ r r', (r ≤ r')%N → (r' < 2 ^ 64)%N → f64_le (convert (value r)) (convert (value r')) = true.

Lemma rank_range_spec b :
  ∃ ranks, rank_range s convert b = Some ranks ∧
    ∀ r, (r < 2 ^ 64)%N → in_ranks ranks r = inside b (convert (value r)).
Proof.
  unfold rank_range, inside.
  destruct (first_rank_spec 65 (λ r, v ← from_rank s r; Some (above_lower b (convert v)))
    (λ r, above_lower b (convert (value r))) 0 (2 ^ 64)) as (k & -> & Hk & Hk0 & Hk1); [| |lia|done|lia|lia|].
  { intros r Hr. by rewrite from_rank_value. }
  { intros r r' [Hr Hr']. apply above_lower_mono, convert_mono; lia. }
  destruct (first_rank_spec 65 (λ r, v ← from_rank s r; Some (negb (below_upper b (convert v))))
    (λ r, negb (below_upper b (convert (value r)))) 0 (2 ^ 64)) as (e & -> & He & He0 & He1); [| |lia|done|lia|lia|].
  { intros r Hr. by rewrite from_rank_value. }
  { intros r r' [Hr Hr']. rewrite !negb_true_iff, <-!not_true_iff_false. intros Hb Hb'. apply Hb.
    revert Hb'. apply below_upper_mono, convert_mono; lia. }
  cbn [mbind option_bind]. eexists. split; [done|]. intros r Hr.
  assert (Hlow : above_lower b (convert (value r)) = (k <=? r)%N).
  { destruct (N.leb_spec k r); [apply Hk1; lia|by apply Hk0]. }
  assert (Hup : below_upper b (convert (value r)) = (r <? e)%N).
  { destruct (N.ltb_spec r e); [by apply negb_false_iff, He0|]. apply negb_true_iff, He1. lia. }
  rewrite Hlow, Hup. destruct (N.ltb_spec k e) as [Hke|Hke]; simpl.
  - rewrite !N.mod_small by lia. f_equal. destruct (N.leb_spec r (e - 1)), (N.ltb_spec r e); lia || done.
  - destruct (N.leb_spec k r), (N.ltb_spec r e); lia || done.
Qed.
End ranks.

Lemma u64_ranks b : ∃ ranks, rank_range scalar_u64 (λ n, f64_of_Z (Z.of_N n)) b = Some ranks ∧
  ∀ n, fits_in u64 n → in_ranks ranks (rank scalar_u64 n) = inside b (f64_of_Z (Z.of_N n)).
Proof.
  destruct (rank_range_spec scalar_u64 (λ n, f64_of_Z (Z.of_N n)) id) with (b := b) as (ranks & Hr & Hin).
  - done.
  - intros r r' Hr Hr'. apply f64_of_Z_mono; unfold id; lia.
  - exists ranks. split; [done|]. intros n Hn. apply Hin. pose proof (rank_bound (s := scalar_u64) n Hn) as Hb.
    unfold u64_max in Hb. simpl in *. lia.
Qed.
Lemma i64_ranks b : ∃ ranks, rank_range scalar_i64 f64_of_Z b = Some ranks ∧
  ∀ n, fits_in i64 n → in_ranks ranks (rank scalar_i64 n) = inside b (f64_of_Z n).
Proof.
  assert (Hvalue : ∀ r, (r < 2 ^ 64)%N → i64_of_bits (N.lxor r top_bit) = (Z.of_N r - 2 ^ 63)%Z).
  { intros r Hr. rewrite lxor_top by done. unfold i64_of_bits. destruct (N.ltb_spec r (2 ^ 63)).
    - destruct (N.ltb_spec (r + 2 ^ 63) (2 ^ 63)); lia.
    - destruct (N.ltb_spec (r - 2 ^ 63) (2 ^ 63)); lia. }
  destruct (rank_range_spec scalar_i64 f64_of_Z (λ r, i64_of_bits (N.lxor r top_bit))) with (b := b) as (ranks & Hr & Hin).
  - done.
  - intros r r' Hr Hr'. rewrite !Hvalue by lia. apply f64_of_Z_mono; lia.
  - exists ranks. split; [done|]. intros n Hn. pose proof (rank_bound (s := scalar_i64) n Hn) as Hb. unfold u64_max in Hb.
    rewrite Hin by lia. pose proof (from_rank_rank (s := scalar_i64) n Hn) as Hfr. simpl in Hfr.
    injection Hfr as Hfr. simpl. by rewrite Hfr.
Qed.
