(* ===== verification/NumericColumns.v ===== *)
(** * core/src/numeric_columns.rs: numeric terms over blocks with range bounds

    Size, modification and creation time of every slot, as block bounds and a
    bitmap of the slots whose value is known.  A numeric term is answered from
    the bounds where they decide a whole block and from the integer columns of
    the entry table elsewhere, with the float bounds turned into integer ranks
    once.  The answer is proved to be the rows the evaluator would match. *)
From stdpp Require Import functions.
From S2P Require Import Prelude Bitmap Text TextView Float FloatOrder NumericRange QueryLex QueryNumber QuerySyntax.
From S2P Require Import FileEntry QueryEval Columns IntegerColumn TextPool EntryChunk EntryPool EntryCompact EntryTable.

(** roaring: [RoaringBitmap::from_lsb0_bytes(0, bytes)]. *)
Class RoaringBytes (B : Type) := bm_from_lsb0 : list N → B.
Class RoaringBytesLaws (B : Type) `{Roaring B, RoaringBytes B} : Prop :=
  contains_from_lsb0 x bytes :
    bm_contains x (bm_from_lsb0 bytes) = default false (bit_at bytes (N.to_nat x)).
(** A model of the interface. *)
#[export] Instance gset_roaring_bytes : RoaringBytes (gset N) := λ bytes,
  list_to_set (filter (λ x, bit_at bytes (N.to_nat x) = Some true) (N.of_nat <$> seq 0 (8 * length bytes))).
#[export] Instance gset_roaring_bytes_laws : RoaringBytesLaws (gset N).
Proof.
  intros x bytes. unfold bm_contains, bm_from_lsb0, gset_roaring, gset_roaring_bytes.
  destruct (default false (bit_at bytes (N.to_nat x))) eqn:E.
  - apply bool_decide_eq_true_2. rewrite elem_of_list_to_set, list_elem_of_filter.
    destruct (bit_at bytes (N.to_nat x)) as [b|] eqn:Eb; simpl in E; [subst b|done]. split; [done|].
    apply list_elem_of_fmap. exists (N.to_nat x). split; [lia|]. apply elem_of_seq.
    unfold bit_at in Eb. apply fmap_Some in Eb as (w & Hw & _). apply lookup_lt_Some in Hw. lia.
  - apply bool_decide_eq_false_2. rewrite elem_of_list_to_set, list_elem_of_filter. intros [Hb _].
    by rewrite Hb in E.
Qed.

(** ** Columns *)

Inductive NumericField := NSize | NModified | NCreated.
#[export] Instance numeric_field_dec : EqDecision NumericField.
Proof. solve_decision. Defined.

Section columns.
Context {B : Type} `{Roaring B, RoaringBytes B} `{JsonShape} {Sec : Type}.
Notation EntryChunk := (EntryChunk Sec).
Notation EntryTable := (EntryTable B Sec).

Record NColumn := { blocks : list Block; known : B; c_length : nat; dirty_blocks : B }.
Definition column_default : NColumn := {| blocks := []; known := bm_new; c_length := 0; dirty_blocks := bm_new |}.
Definition column_push (col : NColumn) (value : f64) : option NColumn :=
  let blocks := if c_length col mod block_entries =? 0 then blocks col ++ [block_empty] else blocks col in
  b ← last blocks;
  let b := include {| b_length := S (b_length b); minimum := minimum b; maximum := maximum b |} value in
  Some {| blocks := <[length blocks - 1 := b]> blocks;
          known := if f64_is_nan value then known col
                   else bm_insert (N.of_nat (c_length col) mod 2 ^ 32)%N (known col);
          c_length := S (c_length col); dirty_blocks := dirty_blocks col |}.
Definition column_set (col : NColumn) (slot : N) (value : f64) : option NColumn :=
  if N.to_nat slot =? c_length col then column_push col value
  else Some {| blocks := blocks col;
               known := if f64_is_nan value then bm_remove slot (known col) else bm_insert slot (known col);
               c_length := c_length col;
               dirty_blocks := bm_insert (slot / N.of_nat block_entries)%N (dirty_blocks col) |}.

(** [NumericField::value] *)
Definition field_value (field : NumericField) (c : EntryChunk) (slot : nat) : option f64 :=
  match field with
  | NSize =>
    state ← column_values u8 (states c) !! slot;
    if negb (N.land state 1 =? 0)%N then Some S754_nan
    else n ← integer_get scalar_u64 (u64s c FSize) slot; Some (f64_of_Z (Z.of_N n))
  | NModified => n ← integer_get scalar_i64 (i64s c FModified) slot; Some (f64_of_Z n)
  | NCreated => n ← integer_get scalar_i64 (i64s c FCreated) slot; Some (f64_of_Z n)
  end.
(** One dirty block of [finish_update]: the bounds are computed afresh. *)
Definition refresh_block (entries : EntryTable) (field : NumericField) (bs : list Block) (index : N) :
    option (list Block) :=
  b ← bs !! N.to_nat index;
  source ← chunks entries !! N.to_nat index;
  b ← fold_option (λ b slot, v ← field_value field source slot; Some (include b v))
        (seq 0 (chunk_len source))
        {| b_length := b_length b; minimum := f64_infinity; maximum := f64_neg_infinity |};
  Some (<[N.to_nat index := b]> bs).
Definition column_finish (entries : EntryTable) (field : NumericField) (col : NColumn) : option NColumn :=
  bs ← fold_option (refresh_block entries field) (bm_iter (dirty_blocks col)) (blocks col);
  Some {| blocks := bs; known := known col; c_length := c_length col; dirty_blocks := bm_new |}.

Definition field_ranks (field : NumericField) (b : Bounds) : option (option (N * N)) :=
  match field with
  | NSize => rank_range scalar_u64 (λ n, f64_of_Z (Z.of_N n)) b
  | NModified | NCreated => rank_range scalar_i64 f64_of_Z b
  end.
(** The bits of one block of the integer column. *)
Definition fill_block (field : NumericField) (source : EntryChunk) (output : list N) (lower upper : N) : list N :=
  match field with
  | NSize => fill_rank_range scalar_u64 (u64s source FSize) output lower upper
  | NModified => fill_rank_range scalar_i64 (i64s source FModified) output lower upper
  | NCreated => fill_rank_range scalar_i64 (i64s source FCreated) output lower upper
  end.
(** The rows of one block: skipped, all of them, or scanned. *)
Definition scan_block (b : Bounds) (ranks : option (N * N)) (entries : EntryTable) (field : NumericField)
    (bytes : list N) (block : nat * Block) : polled (list N) :=
  let '(index, blk) := block in
  _ ← check_cancelled;
  if f64_lt (maximum blk) (minimum blk) || negb (above_lower b (maximum blk)) || negb (below_upper b (minimum blk))
  then mret bytes
  else
    let offset := index * block_entries / 8 in
    let end_ := offset + div_ceil (b_length blk) 8 in
    if end_ <=? length bytes then
      let output := window bytes offset end_ in
      output ←
        (if above_lower b (minimum blk) && below_upper b (maximum blk) then mret ((λ _, 255%N) <$> output)
         else match ranks with
              | Some (lower, upper) =>
                source ← p_some (chunks entries !! index);
                mret (fill_block field source output lower upper)
              | None => mret output
              end);
      mret (take offset bytes ++ output ++ drop end_ bytes)
    else p_some None.
Definition column_range (col : NColumn) (b : Bounds) (entries : EntryTable) (field : NumericField) (live : B) : polled B :=
  ranks ← p_some (field_ranks field b);
  bytes ← p_fold (scan_block b ranks entries field) (imap pair (blocks col)) (replicate (div_ceil (c_length col) 8) 0%N);
  _ ← check_cancelled;
  let inside := bm_from_lsb0 bytes in
  let result := if negate b then bm_sub (known col) inside else bm_and inside (known col) in
  mret (bm_and result live).

(** ** [NumericColumns] *)

Record NumericColumns := { size_column : NColumn; modified_column : NColumn; created_column : NColumn }.
Definition columns_default : NumericColumns :=
  {| size_column := column_default; modified_column := column_default; created_column := column_default |}.
(** [size_value], of any file and of a row of the table. *)
Definition size_value `{!FileEntry F} (file : F) : f64 :=
  if is_dir file then S754_nan else f64_of_Z (Z.of_N (size file)).
Definition view_size_value (v : EntryView Sec) : option f64 :=
  d ← view_state (view_chunk v) 1 (view_slot v);
  if (d : bool) then Some S754_nan
  else n ← view_u64 (view_chunk v) FSize (view_slot v); Some (f64_of_Z (Z.of_N n)).
Definition build_step (columns : NumericColumns) (v : EntryView Sec) : option NumericColumns :=
  value ← view_size_value v; s ← column_push (size_column columns) value;
  n ← view_i64 (view_chunk v) FModified (view_slot v); m ← column_push (modified_column columns) (f64_of_Z n);
  n ← view_i64 (view_chunk v) FCreated (view_slot v); c ← column_push (created_column columns) (f64_of_Z n);
  Some {| size_column := s; modified_column := m; created_column := c |}.
Definition build (entries : EntryTable) : option NumericColumns :=
  fold_option build_step (iter entries) columns_default.
Definition columns_set `{!FileEntry F} (columns : NumericColumns) (slot : N) (file : F) : option NumericColumns :=
  s ← column_set (size_column columns) slot (size_value file);
  m ← column_set (modified_column columns) slot (f64_of_Z (modified file));
  c ← column_set (created_column columns) slot (f64_of_Z (created file));
  Some {| size_column := s; modified_column := m; created_column := c |}.
Definition columns_finish (entries : EntryTable) (columns : NumericColumns) : option NumericColumns :=
  s ← column_finish entries NSize (size_column columns);
  m ← column_finish entries NModified (modified_column columns);
  c ← column_finish entries NCreated (created_column columns);
  Some {| size_column := s; modified_column := m; created_column := c |}.

(** The column and the source of a field's name. *)
Definition field_named (field : text) : option NumericField :=
  if is_lit field "size" then Some NSize
  else if is_lit field "modified" then Some NModified
  else if is_lit field "created" then Some NCreated
  else None.
Definition column_of (columns : NumericColumns) (field : NumericField) : NColumn :=
  match field with
  | NSize => size_column columns | NModified => modified_column columns | NCreated => created_column columns
  end.
Context `{Chrono, Pcre, Memmem} {Q : Type}.
Definition supports (t : Term B Q) : bool :=
  match t with
  | TNumeric (Number field _ _ _ _ _) | TNumeric (Unknown field _) => is_any field ["size"; "modified"; "created"]
  | _ => false
  end.
Definition exact (columns : NumericColumns) (t : Term B Q) (entries : EntryTable) (live : B) : polled (option B) :=
  _ ← check_cancelled;
  match t with
  | TNumeric (Number field low high il ih neg) =>
    match field_named field with
    | None => mret None
    | Some source =>
      result ← column_range (column_of columns source)
        {| low := low; high := high; include_low := il; include_high := ih; negate := neg |} entries source live;
      mret (Some result)
    end
  | TNumeric (Unknown field neg) =>
    match field_named field with
    | None => mret None
    | Some source =>
      let known := known (column_of columns source) in
      mret (Some (if neg then bm_and known live else bm_sub live known))
    end
  | _ => mret None
  end.
End columns.
Arguments NColumn B : clear implicits.
Arguments NumericColumns B : clear implicits.

(** ** The columns follow the rows *)

(** The value of a row; not a number where it is unknown. *)
Definition row_value `{Json} (field : NumericField) (row : IndexedFile) : f64 :=
  match field with
  | NSize => size_value row
  | NModified => f64_of_Z (i_modified row)
  | NCreated => f64_of_Z (i_created row)
  end.
(** Every block's row count fits its part of the buffer. *)
Definition block_rows (n i : nat) : nat := Nat.min block_entries (n - block_entries * i).
Lemma block_entries_eq : block_entries = N.to_nat 4096.
Proof. reflexivity. Qed.
#[local] Opaque block_entries.
Ltac block_lia := unfold block_rows in *; rewrite block_entries_eq in *; lia.
Lemma div_ceil_eq a b : 0 < b → div_ceil a b = (a + (b - 1)) / b.
Proof.
  intros Hb. unfold div_ceil. pose proof (Nat.div_mod a b ltac:(lia)) as Hdiv. pose proof (Nat.mod_upper_bound a b ltac:(lia)).
  set (q := a / b) in *. set (r := a mod b) in *. rewrite Hdiv.
  replace (b * q + r + (b - 1)) with ((r + (b - 1)) + q * b) by lia. rewrite Nat.div_add by lia.
  destruct (Nat.eqb_spec r 0) as [->|Hr].
  - rewrite Nat.div_small by lia. lia.
  - replace (r + (b - 1)) with ((r - 1) + 1 * b) by lia. rewrite Nat.div_add, Nat.div_small by lia. lia.
Qed.

Section proofs.
Context {B : Type} `{RoaringLaws B} `{!RoaringBytes B, !RoaringBytesLaws B} `{JsonShapeLaws} {Sec : Type} `{!UnstableSort}.
Notation EntryChunk := (EntryChunk Sec).
Notation EntryTable := (EntryTable B Sec).
Implicit Types (col : NColumn B) (values : list f64) (rows : list IndexedFile) (tb : EntryTable) (c : EntryChunk).

(** A column holds the values, but the bounds of its dirty blocks may be stale. *)
Record col_ok col values : Prop := {
  col_length : c_length col = length values;
  col_known x : bm_contains x (known col) =
    match values !! N.to_nat x with Some v => negb (f64_is_nan v) | None => false end;
  col_blocks : length (blocks col) = div_ceil (length values) block_entries;
  col_rows i b : blocks col !! i = Some b → b_length b = block_rows (length values) i;
  col_dirty x : bm_contains x (dirty_blocks col) = true → N.to_nat x < length (blocks col);
  col_bounds slot v : values !! slot = Some v → f64_is_nan v = false →
    bm_contains (N.of_nat (slot / block_entries)) (dirty_blocks col) = false →
    ∃ b, blocks col !! (slot / block_entries) = Some b ∧ bounded b v;
}.
Definition clean col : Prop := ∀ x, bm_contains x (dirty_blocks col) = false.

Lemma column_default_ok : col_ok column_default [].
Proof.
  split; simpl; try done; intros *; rewrite ?contains_new; done.
Qed.
Lemma column_push_spec col values v :
  col_ok col values → (N.of_nat (length values) < 2 ^ 32)%N →
  ∃ col', column_push col v = Some col' ∧ col_ok col' (values ++ [v]) ∧ dirty_blocks col' = dirty_blocks col.
Proof.
  intros [Hlen Hknown Hblocks Hrows Hdirty Hbounds] Hn. unfold column_push. rewrite Hlen.
  set (n := length values) in *. 
  set (bs := if n mod block_entries =? 0 then blocks col ++ [block_empty] else blocks col).
  assert (Hbs : length bs = S (n / block_entries) ∧ (∀ i b, blocks col !! i = Some b → bs !! i = Some b) ∧
    ∃ b, last bs = Some b ∧ b_length b = n mod block_entries).
  { subst bs. rewrite div_ceil_eq in Hblocks by block_lia. destruct (Nat.eqb_spec (n mod block_entries) 0) as [E|E].
    - split_and!; [rewrite length_app; simpl; block_lia|intros; by apply lookup_app_l_Some|].
      exists block_empty. by rewrite last_snoc.
    - split_and!; [block_lia|done|]. rewrite last_lookup. destruct (lookup_lt_is_Some_2 (blocks col) (pred (length (blocks col)))) as [b Hb]; [block_lia|].
      exists b. split; [done|]. rewrite (Hrows _ _ Hb), Hblocks. block_lia. }
  destruct Hbs as (Hbl & Hkeep & b & Hlast & Hb). rewrite Hlast. cbn [mbind option_bind].
  eexists. split; [done|]. split; [|done]. rewrite Hbl. simpl Nat.sub. rewrite Nat.sub_0_r.
  set (b' := include _ v). 
  destruct (include_bounds {| b_length := S (b_length b); minimum := minimum b; maximum := maximum b |} v) as (Hb'l & Hb'v & Hb'w).
  fold b' in Hb'l, Hb'v, Hb'w. rewrite last_lookup, Hbl in Hlast. simpl in Hlast.
  split; simpl.
  - rewrite length_app. simpl. lia.
  - intros x. rewrite (N.mod_small (N.of_nat n)) by lia.
    assert (Hx : match (values ++ [v]) !! N.to_nat x with Some v => negb (f64_is_nan v) | None => false end =
      if decide (x = N.of_nat n) then negb (f64_is_nan v) else bm_contains x (known col)).
    { rewrite Hknown. destruct (decide (x = N.of_nat n)) as [->|Hne].
      - by rewrite Nat2N.id, lookup_app_r, Nat.sub_diag by lia.
      - destruct (decide (N.to_nat x < n)); [by rewrite lookup_app_l|].
        rewrite !lookup_ge_None_2; [done|lia|rewrite length_app; simpl; lia]. }
    rewrite Hx. destruct (f64_is_nan v) eqn:Ev.
    + case_decide as E; [|done]. rewrite E, Hknown, Nat2N.id, lookup_ge_None_2 by lia. done.
    + rewrite contains_insert. case_decide as E; [by rewrite (proj2 (N.eqb_eq _ _) E)|by rewrite (proj2 (N.eqb_neq _ _) E)].
  - rewrite length_insert, length_app, Hbl. simpl. fold n. rewrite div_ceil_eq; block_lia.
  - intros i c Hi. rewrite length_app. simpl. fold n. destruct (decide (i = n / block_entries)) as [->|Hne].
    + rewrite list_lookup_insert_eq in Hi by lia. injection Hi as <-. rewrite Hb'l. simpl. rewrite Hb.
      block_lia.
    + rewrite list_lookup_insert_ne in Hi by done. pose proof (lookup_lt_Some _ _ _ Hi) as Hlt.
      assert (Hold : blocks col !! i = Some c).
      { revert Hi Hbl. subst bs. destruct (n mod block_entries =? 0); [|done]. intros Hi Hbl.
        rewrite length_app in Hbl. cbn [length] in Hbl. rewrite length_app in Hlt. cbn [length] in Hlt.
        by rewrite lookup_app_l in Hi by lia. }
      rewrite (Hrows _ _ Hold). block_lia.
  - intros x Hx. rewrite length_insert. apply Hdirty in Hx. rewrite div_ceil_eq in Hblocks; block_lia.
  - intros slot w Hw Hnan Hclean. destruct (decide (slot = n)) as [->|Hne].
    + rewrite lookup_app_r, Nat.sub_diag in Hw by lia. injection Hw as <-. exists b'.
      split; [|by apply Hb'v]. apply list_lookup_insert_eq. lia.
    + assert (Hlt : slot < n). { apply lookup_lt_Some in Hw. rewrite length_app in Hw. simpl in Hw. lia. }
      rewrite lookup_app_l in Hw by done. destruct (Hbounds slot w Hw Hnan Hclean) as (c & Hc & Hcw).
      destruct (decide (slot / block_entries = n / block_entries)) as [E|E].
      * exists b'. rewrite E, list_lookup_insert_eq by lia. split; [done|]. apply Hb'w.
        apply Hkeep in Hc. rewrite E in Hc. assert (c = b) as -> by congruence. exact Hcw.
      * exists c. rewrite list_lookup_insert_ne by done. auto.
Qed.
Definition put_value values (slot : nat) (v : f64) : list f64 :=
  if slot =? length values then values ++ [v] else <[slot:=v]> values.
Lemma numeric_set_spec col values slot v :
  col_ok col values → (N.of_nat (length values) < 2 ^ 32)%N → N.to_nat slot ≤ length values →
  ∃ col', column_set col slot v = Some col' ∧ col_ok col' (put_value values (N.to_nat slot) v).
Proof.
  intros Hok Hn Hslot. unfold column_set, put_value. rewrite (col_length _ _ Hok).
  destruct (Nat.eqb_spec (N.to_nat slot) (length values)) as [E|E].
  { destruct (column_push_spec col values v Hok Hn) as (col' & Hp & Hok' & _). eauto. }
  eexists. split; [done|]. destruct Hok as [Hlen Hknown Hblocks Hrows Hdirty Hbounds].
  assert (Hdiv : N.to_nat (slot / N.of_nat block_entries) = N.to_nat slot / block_entries) by (rewrite N2Nat.inj_div; lia).
  split; simpl; rewrite ?length_insert; [done| |done|done| |].
  - intros x. destruct (decide (x = slot)) as [->|Hne].
    + rewrite list_lookup_insert_eq by lia. destruct (f64_is_nan v); rewrite ?contains_remove, ?contains_insert, N.eqb_refl; done.
    + rewrite list_lookup_insert_ne by lia. rewrite <-Hknown.
      destruct (f64_is_nan v); rewrite ?contains_remove, ?contains_insert, (proj2 (N.eqb_neq x slot)) by done; done.
  - intros x. rewrite contains_insert, orb_true_iff, N.eqb_eq. intros [->|Hx]; [|by apply Hdirty].
    rewrite Hdiv, Hblocks, div_ceil_eq; block_lia.
  - intros i w. rewrite contains_insert. intros Hi Hnan [Hne Hclean]%orb_false_iff. apply N.eqb_neq in Hne.
    apply (Hbounds i); [|done..]. rewrite list_lookup_insert_ne in Hi; [done|]. intros <-. apply Hne. lia.
Qed.

(** Blocks of the table are blocks of the columns. *)
Lemma table_block n k tb rows i : table_ok n k tb rows → i * block_entries < length rows →
  ∃ c b, chunks tb !! i = Some c ∧ chunk_ok c b ∧
    (∀ j, j < block_entries → b !! j = rows !! (i * block_entries + j)) ∧ length b = block_rows (length rows) i.
Proof.
  intros (bl & -> & Hfull & Hf & _) Hi. change chunk_length with block_entries in *.
  assert (Hlook : ∀ j, j < block_entries → concat bl !! (i * block_entries + j) = b ← bl !! i; b !! j).
  { intros j Hj. rewrite full_lookup by done. change chunk_length with block_entries.
    replace ((i * block_entries + j) / block_entries) with i by block_lia.
    by replace ((i * block_entries + j) mod block_entries) with j by block_lia. }
  destruct (lookup_lt_is_Some_2 _ _ Hi) as [row Hrow].
  pose proof (Hlook 0 ltac:(block_lia)) as H0'. rewrite Nat.add_0_r, Hrow in H0'.
  symmetry in H0'. apply bind_Some in H0' as (b & Hb & _).
  destruct (Forall2_lookup_r _ _ _ _ _ Hf Hb) as (c & Hc & Hok & _). exists c, b.
  rewrite Hb in Hlook. cbn [mbind option_bind] in Hlook. split_and!; [done|done|intros j Hj; by rewrite Hlook|].
  assert (Hle : length b ≤ block_entries).
  { destruct Hfull as [->|(init & l & -> & Hinit & Hl)]; [done|]. change chunk_length with block_entries in *.
    destruct (decide (i < length init)) as [Hlt|Hge].
    - rewrite lookup_app_l in Hb by done. pose proof (Forall_lookup_1 _ _ _ _ Hinit Hb) as E. simpl in E. lia.
    - rewrite lookup_app_r in Hb by lia. apply list_lookup_singleton_Some in Hb as [_ <-]. lia. }
  assert (Hiff : ∀ j, j < block_entries → j < length b ↔ i * block_entries + j < length (concat bl)).
  { intros j Hj. rewrite <-!lookup_lt_is_Some, Hlook by done. done. }
  destruct (decide (length b < block_entries)) as [Hlt|Hge].
  - pose proof (proj2 (Hiff (length b) Hlt)).
    assert (0 < length b) by (apply Hiff; block_lia).
    pose proof (proj1 (Hiff (length b - 1) ltac:(lia)) ltac:(lia)). block_lia.
  - pose proof (proj1 (Hiff (length b - 1) ltac:(block_lia)) ltac:(block_lia)). block_lia.
Qed.
Lemma field_value_spec field c b j row : chunk_ok c b → b !! j = Some row →
  field_value field c j = Some (row_value field row).
Proof.
  intros [_ Hf] Hrow. destruct field; simpl.
  - destruct (Hf FStates) as [-> _]. rewrite list_lookup_fmap, Hrow.
    cbn [fmap option_fmap option_map mbind option_bind]. destruct (state_bits_spec row) as [-> _].
    unfold size_value. simpl. destruct (i_is_dir row); [done|].
    pose proof (view_u64_ok _ c FSize b j (Hf (FU FSize))) as Hv. unfold view_u64 in Hv. by rewrite Hv, Hrow.
  - pose proof (view_i64_ok _ c FModified b j (Hf (FI FModified))) as Hv. unfold view_i64 in Hv. by rewrite Hv, Hrow.
  - pose proof (view_i64_ok _ c FCreated b j (Hf (FI FCreated))) as Hv. unfold view_i64 in Hv. by rewrite Hv, Hrow.
Qed.

Lemma foldl_include vs b :
  b_length (foldl include b vs) = b_length b ∧
  ∀ v, (bounded b v ∨ v ∈ vs) → f64_is_nan v = false → bounded (foldl include b vs) v.
Proof.
  revert b. induction vs as [|w vs IH]; intros b; simpl.
  { split; [done|]. intros v [?|?%elem_of_nil]; done. }
  destruct (IH (include b w)) as [Hl Hv]. destruct (include_bounds b w) as (Hl' & Hw & Hkeep).
  split; [congruence|]. intros v Hvs Hnan. apply Hv; [|done]. rewrite elem_of_cons in Hvs.
  destruct Hvs as [?|[->|?]]; auto.
Qed.
Lemma fold_values field c b slots blk : chunk_ok c b → (∀ j, j ∈ slots → j < length b) →
  ∃ vs, fold_option (λ blk slot, v ← field_value field c slot; Some (include blk v)) slots blk = Some (foldl include blk vs) ∧
    ∀ j row, j ∈ slots → b !! j = Some row → row_value field row ∈ vs.
Proof.
  intros Hok. revert blk. induction slots as [|j slots IH]; intros blk Hs.
  { exists []. split; [done|]. by intros j row ?%elem_of_nil. }
  destruct (lookup_lt_is_Some_2 b j) as [row Hrow]; [apply Hs; left|].
  destruct (IH (include blk (row_value field row))) as (vs & Hvs & Hin); [intros i Hi; apply Hs; by right|].
  exists (row_value field row :: vs). split.
  - simpl. rewrite (field_value_spec field c b j row Hok Hrow). exact Hvs.
  - intros i r Hi Hr. apply elem_of_cons in Hi as [->|Hi]; [|right; by apply (Hin i)].
    assert (r = row) as -> by congruence. left.
Qed.
Lemma refresh_spec n k tb rows field bs index :
  table_ok n k tb rows → length bs = div_ceil (length rows) block_entries → N.to_nat index < length bs →
  ∃ b b', bs !! N.to_nat index = Some b ∧ refresh_block tb field bs index = Some (<[N.to_nat index := b']> bs) ∧
    b_length b' = b_length b ∧
    ∀ slot row, rows !! slot = Some row → slot / block_entries = N.to_nat index →
      f64_is_nan (row_value field row) = false → bounded b' (row_value field row).
Proof.
  intros Htb Hlen Hidx. set (i := N.to_nat index) in *. destruct (lookup_lt_is_Some_2 bs i Hidx) as [b Hb].
  rewrite div_ceil_eq in Hlen by block_lia.
  destruct (table_block n k tb rows i Htb) as (c & rb & Hc & Hok & Hlook & Hrb); [block_lia|].
  destruct (fold_values field c rb (seq 0 (chunk_len c)) {| b_length := b_length b; minimum := f64_infinity; maximum := f64_neg_infinity |} Hok)
    as (vs & Hvs & Hin).
  { intros j Hj%elem_of_seq. rewrite (chunk_len_spec c rb Hok) in Hj. lia. }
  destruct (foldl_include vs {| b_length := b_length b; minimum := f64_infinity; maximum := f64_neg_infinity |}) as [Hl Hv].
  exists b. eexists. split; [done|]. unfold refresh_block. fold i. rewrite Hb, Hc. cbn [mbind option_bind]. rewrite Hvs.
  cbn [mbind option_bind]. split; [done|]. split; [done|].
  intros slot row Hrow Hslot Hnan. apply Hv; [|done]. right.
  assert (Hj : rb !! (slot mod block_entries) = Some row).
  { rewrite Hlook by block_lia. by replace (i * block_entries + slot mod block_entries) with slot by block_lia. }
  apply (Hin (slot mod block_entries)); [|done]. apply elem_of_seq. rewrite (chunk_len_spec c rb Hok).
  apply lookup_lt_Some in Hj. lia.
Qed.
Lemma column_finish_spec n k tb rows field col :
  table_ok n k tb rows → col_ok col (row_value field <$> rows) →
  ∃ col', column_finish tb field col = Some col' ∧ col_ok col' (row_value field <$> rows) ∧ clean col'.
Proof.
  intros Htb [Hlen Hknown Hblocks Hrows Hdirty Hbounds]. rewrite length_fmap in *. unfold column_finish.
  assert (Hfold : ∀ l bs, length bs = div_ceil (length rows) block_entries → (∀ x, x ∈ l → N.to_nat x < length bs) →
    (∀ i b, bs !! i = Some b → b_length b = block_rows (length rows) i) →
    (∀ slot row, rows !! slot = Some row → f64_is_nan (row_value field row) = false →
       N.of_nat (slot / block_entries) ∉ l → ∃ b, bs !! (slot / block_entries) = Some b ∧ bounded b (row_value field row)) →
    ∃ bs', fold_option (refresh_block tb field) l bs = Some bs' ∧ length bs' = length bs ∧
      (∀ i b, bs' !! i = Some b → b_length b = block_rows (length rows) i) ∧
      ∀ slot row, rows !! slot = Some row → f64_is_nan (row_value field row) = false →
        ∃ b, bs' !! (slot / block_entries) = Some b ∧ bounded b (row_value field row)).
  { induction l as [|x l IH]; intros bs Hl Hx Hr Hb.
    { exists bs. split_and!; [done|done|done|]. intros slot row Hs Hnan. apply Hb; [done..|apply not_elem_of_nil]. }
    destruct (refresh_spec n k tb rows field bs x Htb Hl) as (b & b' & Hlook & Href & Hbl & Hnew); [apply Hx; left|].
    destruct (IH (<[N.to_nat x := b']> bs)) as (bs' & Hbs' & Hlen' & Hres).
    - by rewrite length_insert.
    - intros y Hy. rewrite length_insert. apply Hx. by right.
    - intros i c Hi. apply list_lookup_insert_Some in Hi as [(<- & <- & _)|[_ Hi]]; [|by apply Hr].
      rewrite Hbl. by apply Hr.
    - intros slot row Hs Hnan Hni. destruct (decide (slot / block_entries = N.to_nat x)) as [E|E].
      + exists b'. rewrite E, list_lookup_insert_eq by (apply Hx; left). split; [done|]. by apply (Hnew slot).
      + rewrite list_lookup_insert_ne by done. apply Hb; [done..|]. rewrite not_elem_of_cons. split; [lia|done].
    - exists bs'. split; [cbn; by rewrite Href|]. by rewrite Hlen', length_insert. }
  destruct (Hfold (bm_iter (dirty_blocks col)) (blocks col)) as (bs & Hbs & Hbl & Hres & Hbd).
  - done.
  - intros x Hx. by apply Hdirty, contains_iter.
  - done.
  - intros slot row Hs Hnan Hni. apply Hbounds; [by rewrite list_lookup_fmap, Hs|done|].
    apply not_true_iff_false. by rewrite contains_iter.
  - rewrite Hbs. cbn [mbind option_bind]. eexists. split; [done|]. split; [|intros x; apply contains_new].
    split; simpl; rewrite ?length_fmap; [done|done|congruence|done|intros x; by rewrite contains_new|].
    intros slot v Hv Hnan _. rewrite list_lookup_fmap in Hv. apply fmap_Some in Hv as (row & Hrow & ->). by apply Hbd.
Qed.

(** ** Scanning *)

Lemma fill_bytes_length {V} (p : V → bool) groups output : length (fill_bytes p groups output) = length output.
Proof. revert output. induction groups as [|g groups IH]; intros [|o output]; simpl; [done..|by rewrite IH]. Qed.
Lemma fill_relative_length base lower upper maximum vs output :
  length (fill_relative base lower upper maximum vs output) = length output.
Proof.
  unfold fill_relative, fill. destruct (relative base lower upper maximum) as [[lo hi]|]; [apply fill_bytes_length|by rewrite length_fmap].
Qed.
Lemma fill_rank_range_length {T} (s : scalar T) d output lower upper :
  length (fill_rank_range s d output lower upper) = length output.
Proof.
  destruct d as [values|base []]; simpl; unfold fill;
    by rewrite ?fill_bytes_length, ?length_fmap, ?fill_relative_length.
Qed.
Lemma splice_lookup {A} (l out : list A) off end_ p :
  off ≤ end_ → end_ ≤ length l → length out = end_ - off →
  (take off l ++ out ++ drop end_ l) !! p = if decide (off ≤ p < end_) then out !! (p - off) else l !! p.
Proof.
  intros Hle Hend Hout. rewrite lookup_app. destruct (decide (p < off)) as [Hp|Hp].
  - rewrite lookup_take_lt by done. destruct (lookup_lt_is_Some_2 l p) as [x Hx]; [lia|]. rewrite Hx.
    case_decide; [lia|done].
  - rewrite (lookup_ge_None_2 (take off l)) by (rewrite length_take; lia). rewrite length_take, Nat.min_l by lia.
    rewrite lookup_app. case_decide as Hin.
    + destruct (lookup_lt_is_Some_2 out (p - off)) as [x Hx]; [lia|]. by rewrite Hx.
    + rewrite lookup_ge_None_2 by lia. rewrite lookup_drop, Hout. f_equal. lia.
Qed.

Lemma field_ranks_spec field b : ∃ ranks, field_ranks field b = Some ranks ∧
  match field with
  | NSize => ∀ n, fits_in u64 n → in_ranks ranks (rank scalar_u64 n) = inside b (f64_of_Z (Z.of_N n))
  | _ => ∀ n, fits_in i64 n → in_ranks ranks (rank scalar_i64 n) = inside b (f64_of_Z n)
  end.
Proof. destruct field; [apply u64_ranks|apply i64_ranks..]. Qed.
Lemma row_inside field b ranks row :
  field_ranks field b = Some ranks → row_ok row → f64_is_nan (row_value field row) = false →
  in_ranks ranks (match field with
                  | NSize => rank scalar_u64 (i_size row)
                  | NModified => rank scalar_i64 (i_modified row)
                  | NCreated => rank scalar_i64 (i_created row)
                  end) = inside b (row_value field row).
Proof.
  intros Hr (Hi & Hu & _) Hnan. destruct (field_ranks_spec field b) as (ranks' & Hr' & Hspec).
  assert (ranks' = ranks) as -> by congruence. destruct field; simpl in *.
  - unfold size_value in *. simpl in *. destruct (i_is_dir row); [done|]. apply Hspec, (Hu FSize).
  - apply Hspec, (Hi FModified).
  - apply Hspec, (Hi FCreated).
Qed.
Lemma fill_block_spec field b c rb output lower upper j row :
  chunk_ok c rb → rb !! j = Some row → row_ok row → f64_is_nan (row_value field row) = false →
  field_ranks field b = Some (Some (lower, upper)) → j / 8 < length output →
  bit_at (fill_block field c output lower upper) j = Some (inside b (row_value field row)).
Proof.
  intros [_ Hf] Hrow Hok Hnan Hranks Hj. rewrite <-(row_inside field b _ row Hranks Hok Hnan).
  destruct field; simpl.
  - destruct (Hf (FU FSize)) as [Hd Hvs]. eapply (raise_range_spec scalar_u64); [done|done| |done].
    by rewrite list_lookup_fmap, Hrow.
  - destruct (Hf (FI FModified)) as [Hd Hvs]. eapply (raise_range_spec scalar_i64); [done|done| |done].
    by rewrite list_lookup_fmap, Hrow.
  - destruct (Hf (FI FCreated)) as [Hd Hvs]. eapply (raise_range_spec scalar_i64); [done|done| |done].
    by rewrite list_lookup_fmap, Hrow.
Qed.
Lemma fill_block_length field c output lower upper : length (fill_block field c output lower upper) = length output.
Proof. destruct field; apply fill_rank_range_length. Qed.
Lemma bit_at_255 output j : j / 8 < length output → bit_at ((λ _ : N, 255%N) <$> output) j = Some true.
Proof.
  intros Hj. unfold bit_at. rewrite list_lookup_fmap. destruct (lookup_lt_is_Some_2 output (j / 8) Hj) as [x ->].
  cbn [fmap option_fmap option_map]. f_equal. change 255%N with (N.ones 8). apply N.ones_spec_low. lia.
Qed.
Lemma bit_at_zero bytes j : bytes !! (j / 8) = Some 0%N → bit_at bytes j = Some false.
Proof. intros Hj. unfold bit_at. by rewrite Hj. Qed.

(** The buffer after the first [i] blocks. *)
Definition scanned rows field b (i : nat) (bytes : list N) : Prop :=
  length bytes = div_ceil (length rows) 8 ∧
  (∀ slot row, rows !! slot = Some row → slot / block_entries < i → f64_is_nan (row_value field row) = false →
     bit_at bytes slot = Some (inside b (row_value field row))) ∧
  ∀ p, i * block_entries / 8 ≤ p → p < length bytes → bytes !! p = Some 0%N.
Lemma f64_lt_not_le x y : f64_lt x y = true → f64_le y x = true → False.
Proof.
  intros Hlt Hle. pose proof (f64_lt_le_trans x y x Hlt Hle) as Hx. apply f64_lt_key in Hx as (kx & kx' & E & E' & Hc).
  assert (kx' = kx) as -> by congruence. by rewrite (compare_refl key_cmp) in Hc.
Qed.
Lemma skipped_outside b blk v :
  f64_lt (maximum blk) (minimum blk) || negb (above_lower b (maximum blk)) || negb (below_upper b (minimum blk)) = true →
  bounded blk v → inside b v = false.
Proof.
  intros Hskip [Hmin Hmax]. unfold inside. rewrite !orb_true_iff, !negb_true_iff in Hskip.
  destruct Hskip as [[Hlt|Ha]|Hb]; [|apply andb_false_iff; left|apply andb_false_iff; right].
  - exfalso. apply (f64_lt_not_le _ _ Hlt). by apply (f64_le_trans _ v).
  - apply not_true_iff_false. intros Hv. rewrite (above_lower_mono b v _ Hmax Hv) in Ha. done.
  - apply not_true_iff_false. intros Hv. rewrite (below_upper_mono b _ v Hmin Hv) in Hb. done.
Qed.
Lemma scanned_skip rows field b i bytes :
  scanned rows field b i bytes →
  (∀ slot row, rows !! slot = Some row → slot / block_entries = i → f64_is_nan (row_value field row) = false →
     inside b (row_value field row) = false) →
  scanned rows field b (S i) bytes.
Proof.
  intros (Hlen & Hbits & Hzero) Hout. pose proof Hlen as Hlen'. rewrite div_ceil_eq in Hlen' by lia.
  split_and!; [done| |intros p Hp; apply Hzero; block_lia]. intros slot row Hrow Hs Hnan.
  destruct (decide (slot / block_entries = i)) as [E|E]; [|by apply Hbits; [..|lia|]].
  rewrite (Hout slot row Hrow E Hnan). apply bit_at_zero, Hzero; apply lookup_lt_Some in Hrow; block_lia.
Qed.
Lemma scanned_write rows field b i bytes output :
  scanned rows field b i bytes → i * block_entries < length rows →
  length output = div_ceil (block_rows (length rows) i) 8 →
  (∀ j row, rows !! (i * block_entries + j) = Some row → j < block_entries → f64_is_nan (row_value field row) = false →
     bit_at output j = Some (inside b (row_value field row))) →
  scanned rows field b (S i)
    (take (i * block_entries / 8) bytes ++ output ++
     drop (i * block_entries / 8 + div_ceil (block_rows (length rows) i) 8) bytes).
Proof.
  intros (Hlen & Hbits & Hzero) Hi Hout Hnew. rewrite div_ceil_eq in Hlen, Hout by lia.
  rewrite (div_ceil_eq (block_rows _ _)) by lia. set (off := i * block_entries / 8).
  set (end_ := off + (block_rows (length rows) i + (8 - 1)) / 8).
  assert (Hend : off ≤ end_ ∧ end_ ≤ length bytes ∧ length output = end_ - off) by (subst off end_; block_lia).
  destruct Hend as (Hoe & Hel & Hoo). pose proof (λ p, splice_lookup bytes output off end_ p Hoe Hel Hoo) as Hlook.
  split_and!.
  - rewrite !length_app, length_take, length_drop, div_ceil_eq by lia. lia.
  - intros slot row Hrow Hs Hnan. unfold bit_at. rewrite Hlook. pose proof (lookup_lt_Some _ _ _ Hrow) as Hlt.
    destruct (decide (slot / block_entries = i)) as [E|E].
    + rewrite decide_True by (subst off end_; block_lia).
      specialize (Hnew (slot mod block_entries) row). unfold bit_at in Hnew.
      replace (slot / 8 - off) with (slot mod block_entries / 8) by (subst off; block_lia).
      replace (slot mod 8) with (slot mod block_entries mod 8) by block_lia.
      apply Hnew; [|block_lia|done]. by replace (i * block_entries + slot mod block_entries) with slot by block_lia.
    + rewrite decide_False by (subst off end_; block_lia). apply Hbits; [done|lia|done].
  - intros p Hp Hpl. rewrite Hlook. rewrite decide_False by (subst off end_; block_lia).
    apply Hzero; [block_lia|]. rewrite !length_app, length_take, length_drop in Hpl. lia.
Qed.
Lemma scan_block_spec n k tb rows field b ranks col i blk bytes :
  table_ok n k tb rows → Forall row_ok rows → field_ranks field b = Some ranks →
  col_ok col (row_value field <$> rows) → clean col → blocks col !! i = Some blk → scanned rows field b i bytes →
  ∃ bytes', cancels_to (scan_block b ranks tb field bytes (i, blk)) (Ok bytes') ∧ scanned rows field b (S i) bytes'.
Proof.
  intros Htb Hfit Hranks Hcol Hclean Hblk Hs. unfold scan_block.
  assert (Hbounded : ∀ slot row, rows !! slot = Some row → slot / block_entries = i → f64_is_nan (row_value field row) = false →
    bounded blk (row_value field row)).
  { intros slot row Hrow E Hnan. destruct (col_bounds _ _ Hcol slot (row_value field row)) as (b' & Hb' & Hbd);
      [by rewrite list_lookup_fmap, Hrow|done|apply Hclean|]. rewrite E in Hb'. by assert (b' = blk) as -> by congruence. }
  pose proof (col_blocks _ _ Hcol) as Hlen. rewrite length_fmap, div_ceil_eq in Hlen by block_lia.
  assert (Hi : i * block_entries < length rows) by (apply lookup_lt_Some in Hblk; block_lia).
  assert (Hrows : b_length blk = block_rows (length rows) i) by (rewrite (col_rows _ _ Hcol _ _ Hblk), length_fmap; done).
  assert (Hcheck : ∀ (m : polled (list N)) bytes', cancels_to m (Ok bytes') → cancels_to (check_cancelled ≫= λ _, m) (Ok bytes')).
  { intros m bytes' Hm. by eapply cancels_bind; [apply cancels_check|]. }
  destruct (f64_lt _ _ || _ || _) eqn:Eskip.
  { exists bytes. split; [apply Hcheck, cancels_ret|]. apply scanned_skip; [done|]. intros slot row Hrow E Hnan.
    by apply (skipped_outside b blk), (Hbounded slot). }
  rewrite Hrows. pose proof Hs as (Hblen & _). rewrite div_ceil_eq in Hblen by lia.
  assert (Hend : i * block_entries / 8 + div_ceil (block_rows (length rows) i) 8 ≤ length bytes) by (rewrite div_ceil_eq; block_lia).
  rewrite (proj2 (Nat.leb_le _ _) Hend).
  set (output := window bytes _ _).
  assert (Hol : length output = div_ceil (block_rows (length rows) i) 8) by (subst output; rewrite window_length by done; lia).
  destruct (table_block n k tb rows i Htb Hi) as (c & rb & Hc & Hok & Hlook & Hrb).
  assert (Hj8 : ∀ j row, rows !! (i * block_entries + j) = Some row → j < block_entries → j / 8 < length output).
  { intros j row Hrow Hj. apply lookup_lt_Some in Hrow. rewrite Hol, div_ceil_eq; block_lia. }
  assert (Hdone : ∀ m out, cancels_to m (Ok out) → length out = length output →
    (∀ j row, rows !! (i * block_entries + j) = Some row → j < block_entries → f64_is_nan (row_value field row) = false →
       bit_at out j = Some (inside b (row_value field row))) →
    ∃ bytes', cancels_to (check_cancelled ≫= λ _, m ≫= λ output,
        mret (take (i * block_entries / 8) bytes ++ output ++ drop (i * block_entries / 8 + div_ceil (block_rows (length rows) i) 8) bytes)) (Ok bytes') ∧
      scanned rows field b (S i) bytes').
  { intros m out Hm Hlo Hbits. eexists. split; [apply Hcheck; eapply cancels_bind; [exact Hm|apply cancels_ret]|].
    by apply scanned_write; [..|congruence|]. }
  destruct (above_lower b (minimum blk) && below_upper b (maximum blk)) eqn:Eall.
  - eapply Hdone; [apply cancels_ret|by rewrite length_fmap|]. intros j row Hrow Hj Hnan.
    rewrite bit_at_255 by (by eapply Hj8). f_equal. symmetry. apply andb_true_iff in Eall as [Ea Eb].
    destruct (Hbounded _ row Hrow) as [Hmin Hmax]; [block_lia|done|]. unfold inside.
    by rewrite (above_lower_mono b _ _ Hmin Ea), (below_upper_mono b _ _ Hmax Eb).
  - destruct ranks as [[lower upper]|].
    + eapply Hdone.
      * eapply cancels_bind; [by apply cancels_some|apply cancels_ret].
      * apply fill_block_length.
      * intros j row Hrow Hj Hnan. apply (fill_block_spec field b c rb); [done|by rewrite Hlook| |done|done|by eapply Hj8].
        by apply (Forall_lookup_1 _ _ _ _ Hfit Hrow).
    + eapply Hdone; [apply cancels_ret|done|]. intros j row Hrow Hj Hnan.
      rewrite <-(row_inside field b None row Hranks (Forall_lookup_1 _ _ _ _ Hfit Hrow) Hnan). apply bit_at_zero.
      subst output. unfold window. destruct Hs as (_ & _ & Hzero). pose proof (Hj8 j row Hrow Hj) as Hlt.
      rewrite lookup_take_lt by (rewrite Hol in Hlt; lia). rewrite lookup_drop. apply Hzero; [block_lia|].
      rewrite Hol in Hlt. lia.
Qed.
Lemma column_range_spec n k tb rows field b col live :
  table_ok n k tb rows → Forall row_ok rows → (N.of_nat (length rows) ≤ u32_max)%N →
  col_ok col (row_value field <$> rows) → clean col →
  ∃ r, cancels_to (column_range col b tb field live) (Ok r) ∧
    ∀ x, bm_contains x r = bm_contains x live &&
      match rows !! N.to_nat x with
      | Some row => negb (f64_is_nan (row_value field row)) && xorb (inside b (row_value field row)) (negate b)
      | None => false
      end.
Proof.
  intros Htb Hfit Hn Hcol Hclean. unfold column_range.
  destruct (field_ranks_spec field b) as (ranks & Hranks & _).
  destruct (cancels_fold_inv (scan_block b ranks tb field) (scanned rows field b) (imap pair (blocks col))
    (replicate (div_ceil (c_length col) 8) 0%N)) as (bytes & Hbytes & Hs).
  - rewrite (col_length _ _ Hcol), length_fmap. split_and!; [by rewrite length_replicate|lia|].
    intros p _ Hp. rewrite length_replicate in Hp. by apply lookup_replicate_2.
  - intros i [i' blk] bytes Hi Hs. rewrite list_lookup_imap in Hi. apply fmap_Some in Hi as (blk' & Hblk & [= -> ->]).
    by apply (scan_block_spec n k tb rows field b ranks col).
  - rewrite length_imap in Hs. eexists. split.
    { eapply cancels_bind; [by apply cancels_some|]. eapply cancels_bind; [exact Hbytes|].
      eapply cancels_bind; [apply cancels_check|apply cancels_ret]. }
    intros x. rewrite contains_and, andb_comm. f_equal.
    assert (Hx : bm_contains x (known col) = match rows !! N.to_nat x with Some row => negb (f64_is_nan (row_value field row)) | None => false end).
    { rewrite (col_known _ _ Hcol), list_lookup_fmap. by destruct (rows !! N.to_nat x). }
    assert (Hin : bm_contains x (known col) = true → bm_contains x (bm_from_lsb0 bytes) =
      match rows !! N.to_nat x with Some row => inside b (row_value field row) | None => false end).
    { rewrite Hx. destruct (rows !! N.to_nat x) as [row|] eqn:Hrow; [|done]. intros Hnan%negb_true_iff.
      rewrite contains_from_lsb0. destruct Hs as (_ & Hbits & _). rewrite (Hbits _ row Hrow); [done| |done].
      rewrite (col_blocks _ _ Hcol), length_fmap, div_ceil_eq by block_lia. apply lookup_lt_Some in Hrow. block_lia. }
    destruct (bm_contains x (known col)) eqn:Ek.
    + specialize (Hin eq_refl). destruct (rows !! N.to_nat x) as [row|]; [|done]. rewrite <-Hx.
      destruct (negate b); rewrite ?contains_sub, ?contains_and, Ek, Hin; by destruct (inside b _).
    + destruct (rows !! N.to_nat x) as [row|]; [rewrite <-Hx|];
        destruct (negate b); rewrite ?contains_sub, ?contains_and, Ek; simpl; try done; by rewrite andb_false_r.
Qed.

(** ** All three columns *)

Definition numeric_ok (nc : NumericColumns B) rows : Prop := ∀ field, col_ok (column_of nc field) (row_value field <$> rows).
Definition numeric_clean (nc : NumericColumns B) : Prop := ∀ field, clean (column_of nc field).

Lemma iter_views n k tb rows : table_ok n k tb rows →
  Forall2 (λ v row, view_size_value v = Some (size_value row) ∧
    view_i64 (view_chunk v) FModified (view_slot v) = Some (i_modified row) ∧
    view_i64 (view_chunk v) FCreated (view_slot v) = Some (i_created row)) (iter tb) rows.
Proof.
  intros (bl & -> & _ & Hf & _). unfold iter. induction Hf as [|c b cs bs (Hok & _) Hf IH]; [constructor|].
  rewrite bind_cons. cbn [concat]. apply Forall2_app; [|exact IH].
  apply Forall2_fmap_l. rewrite (chunk_len_spec c b Hok). apply Forall2_same_length_lookup_2.
  { by rewrite length_seq. }
  intros i slot row Hi Hrow. apply lookup_seq in Hi as [-> _]. simpl.
  pose proof (field_value_spec NSize c b i row Hok Hrow) as Hv. simpl in Hv. destruct Hok as [_ Hok].
  rewrite !(view_i64_ok _ c _ b i (Hok (FI _))), Hrow. split_and!; [|done|done].
  unfold view_size_value, view_state, view_u64. simpl.
  destruct (column_values u8 (states c) !! i) as [state|]; [|done]. exact Hv.
Qed.
Lemma build_fold vs rows done_ nc :
  Forall2 (λ v row, view_size_value v = Some (size_value row) ∧
    view_i64 (view_chunk v) FModified (view_slot v) = Some (i_modified row) ∧
    view_i64 (view_chunk v) FCreated (view_slot v) = Some (i_created row)) vs rows →
  (N.of_nat (length (done_ ++ rows)) ≤ u32_max)%N → numeric_ok nc done_ → numeric_clean nc →
  ∃ nc', fold_option build_step (vs : list (EntryView Sec)) nc = Some nc' ∧ numeric_ok nc' (done_ ++ rows) ∧ numeric_clean nc'.
Proof.
  intros Hvs. revert done_ nc. induction Hvs as [|v row vs rows (Hs & Hm & Hc) Hvs IH]; intros done_ nc Hn Hok Hclean.
  { exists nc. by rewrite app_nil_r. }
  rewrite length_app in Hn. cbn [length] in Hn. unfold u32_max in Hn.
  assert (Hpush : ∀ field, ∃ col, column_push (column_of nc field) (row_value field row) = Some col ∧
    col_ok col (row_value field <$> done_ ++ [row]) ∧ clean col).
  { intros field. destruct (column_push_spec _ _ (row_value field row) (Hok field)) as (col & Hp & Hok' & Hd).
    { rewrite length_fmap. lia. }
    exists col. rewrite fmap_app. split_and!; [done|done|]. intros x. rewrite Hd. apply Hclean. }
  destruct (Hpush NSize) as (s & Hps & Hos & Hcs), (Hpush NModified) as (m & Hpm & Hom & Hcm), (Hpush NCreated) as (c & Hpc & Hoc & Hcc).
  simpl in Hps, Hpm, Hpc.
  destruct (IH (done_ ++ [row]) {| size_column := s; modified_column := m; created_column := c |}) as (nc' & Hfold & Hok' & Hc').
  - rewrite !length_app. cbn [length]. unfold u32_max. lia.
  - by intros [].
  - by intros [].
  - exists nc'. split; [|by rewrite <-app_assoc in Hok'].
    assert (Hstep : build_step nc v = Some {| size_column := s; modified_column := m; created_column := c |}).
    { unfold build_step. rewrite Hs. cbn [mbind option_bind]. rewrite Hps, Hm. cbn [mbind option_bind].
      rewrite Hpm, Hc. cbn [mbind option_bind]. rewrite Hpc. reflexivity. }
    cbn [fold_option]. rewrite Hstep. exact Hfold.
Qed.

Lemma numeric_build_spec n k tb rows :
  table_ok n k tb rows → (N.of_nat (length rows) ≤ u32_max)%N → ∃ nc, build tb = Some nc ∧ numeric_ok nc rows ∧ numeric_clean nc.
Proof.
  intros Htb Hn.
  apply (build_fold (iter tb) rows [] columns_default (iter_views n k tb rows Htb) Hn).
    - intros []; apply column_default_ok.
    - intros [] x; apply contains_new.
Qed.
Lemma numeric_columns_set_spec nc rows {F : Type} `{!FileEntry F} (file : F) (slot : N) :
  (N.of_nat (length rows) ≤ u32_max)%N → numeric_ok nc rows → N.to_nat slot ≤ length rows →
  ∃ nc', columns_set nc slot file = Some nc' ∧ numeric_ok nc' (put rows (N.to_nat slot) (to_owned_file file)).
Proof.
  intros Hn Hok Hslot. unfold u32_max in Hn.
    assert (Hset : ∀ field, ∃ col, column_set (column_of nc field) slot (row_value field (to_owned_file file)) = Some col ∧
      col_ok col (row_value field <$> put rows (N.to_nat slot) (to_owned_file file))).
    { intros field. rewrite fmap_put. apply numeric_set_spec; [apply Hok|rewrite length_fmap; lia..]. }
    destruct (Hset NSize) as (s & Hs & Hos), (Hset NModified) as (m & Hm & Hom), (Hset NCreated) as (c & Hc & Hoc).
    exists {| size_column := s; modified_column := m; created_column := c |}. split; [|by intros []].
    unfold columns_set. change (size_value file) with (row_value NSize (to_owned_file file)).
    change (f64_of_Z (modified file)) with (row_value NModified (to_owned_file file)).
    change (f64_of_Z (created file)) with (row_value NCreated (to_owned_file file)).
    simpl column_of in Hs, Hm, Hc. rewrite Hs, Hm. cbn [mbind option_bind]. by rewrite Hc.
Qed.
Lemma numeric_columns_finish_spec n k tb rows nc :
  table_ok n k tb rows → (N.of_nat (length rows) ≤ u32_max)%N → numeric_ok nc rows →
  ∃ nc', columns_finish tb nc = Some nc' ∧ numeric_ok nc' rows ∧ numeric_clean nc'.
Proof.
  intros Htb Hn Hok.
    assert (Hfin : ∀ field, ∃ col, column_finish tb field (column_of nc field) = Some col ∧
      col_ok col (row_value field <$> rows) ∧ clean col).
    { intros field. by apply (column_finish_spec n k tb rows). }
    destruct (Hfin NSize) as (s & Hs & Hos & Hcs), (Hfin NModified) as (m & Hm & Hom & Hcm), (Hfin NCreated) as (c & Hc & Hoc & Hcc).
    exists {| size_column := s; modified_column := m; created_column := c |}. split; [|split; by intros []].
    unfold columns_finish. simpl column_of in Hs, Hm, Hc. rewrite Hs, Hm. cbn [mbind option_bind]. by rewrite Hc.
Qed.

(** C31: The numeric columns follow the rows of the table.  Building them from
    a table, setting a row (or appending one, at the slot past the end) and
    finishing an update never panic; building and setting keep in step the
    known slots, the block sizes and the bounds of every block not marked
    dirty, and finishing an update against the updated table leaves no block
    dirty, so that the bounds of every block admit all its values. *)
Theorem numeric_columns_follow_rows n k tb rows {F : Type} `{!FileEntry F} (file : F) (slot : N) :
  table_ok n k tb rows → (N.of_nat (length rows) ≤ u32_max)%N →
  (∃ nc, build tb = Some nc ∧ numeric_ok nc rows ∧ numeric_clean nc) ∧
  ∀ nc, numeric_ok nc rows →
    (N.to_nat slot ≤ length rows → ∃ nc', columns_set nc slot file = Some nc' ∧
       numeric_ok nc' (put rows (N.to_nat slot) (to_owned_file file))) ∧
    (∃ nc', columns_finish tb nc = Some nc' ∧ numeric_ok nc' rows ∧ numeric_clean nc').
Proof.
  intros Htb Hn. split; [by apply (numeric_build_spec n k)|]. intros nc Hok. split.
  - intros Hslot. by apply numeric_columns_set_spec.
  - by apply (numeric_columns_finish_spec n k tb rows).
Qed.

(** A named field is what the evaluator reads of a row. *)
Lemma field_named_value name field row : row_ok row → field_named name = Some field →
  numeric_value name row = if f64_is_nan (row_value field row) then None else Some (row_value field row).
Proof.
  intros (Hi & Hu & _). unfold field_named, numeric_value.
  assert (Hbound : ∀ z, fits_in i64 z → f64_is_nan (f64_of_Z z) = false).
  { intros z Hz. apply of_Z_not_nan. simpl in Hz. lia. }
  destruct (is_lit name "size"); [|destruct (is_lit name "modified"); [|destruct (is_lit name "created"); [|done]]]; intros [= <-]; simpl.
  - unfold size_value. simpl. destruct (i_is_dir row); [done|]. rewrite of_Z_not_nan; [done|].
    pose proof (Hu FSize) as Hs. simpl in Hs. lia.
  - by rewrite (Hbound (i_modified row) (Hi FModified)).
  - by rewrite (Hbound (i_created row) (Hi FCreated)).
Qed.
Lemma field_named_unknown name field row neg : row_ok row → field_named name = Some field →
  matches_numeric (Unknown name neg) row = xorb (f64_is_nan (row_value field row)) neg.
Proof.
  intros Hok Hname. pose proof (field_named_value name field row Hok Hname) as Hv. revert Hname Hv.
  unfold field_named, numeric_value, matches_numeric, is_any. simpl. unfold size_value. simpl.
  destruct (is_lit name "size") eqn:Es.
  { intros [= <-]. simpl. unfold size_value. simpl.
    destruct (i_is_dir row); simpl; [by destruct neg|]. destruct (f64_is_nan _); [done|]. by destruct neg. }
  destruct (is_lit name "modified") eqn:Em.
  { intros [= <-]. simpl. destruct (f64_is_nan _); [done|]. by destruct neg. }
  destruct (is_lit name "created") eqn:Ec; [|done].
  intros [= <-]. simpl. destruct (f64_is_nan _); [done|]. by destruct neg.
Qed.

Lemma named_columns name : is_any name ["size"; "modified"; "created"] = bool_decide (is_Some (field_named name)).
Proof.
  unfold is_any, field_named. simpl. destruct (is_lit name "size"); [done|].
  destruct (is_lit name "modified"); [done|]. by destruct (is_lit name "created").
Qed.
Lemma numeric_exact_spec `{Chrono, Pcre, Memmem} {Q : Type}
    n k tb rows (nc : NumericColumns B) (live : B) (t : Term B Q) :
  table_ok n k tb rows → Forall row_ok rows → (N.of_nat (length rows) ≤ u32_max)%N →
  numeric_ok nc rows → numeric_clean nc → (∀ x, bm_contains x live = true → N.to_nat x < length rows) →
  supports t = true →
  ∃ m answer, t = TNumeric m ∧ cancels_to (exact nc t tb live) (Ok (Some answer)) ∧
    ∀ x, bm_contains x answer =
      bm_contains x live && match rows !! N.to_nat x with Some row => matches_numeric m row | None => false end.
Proof.
  intros Htb Hfit Hn Hok Hclean Hlive Hsup.
  assert (Hcheck : ∀ (m : polled (option B)) r, cancels_to m r → cancels_to (check_cancelled ≫= λ _, m) r).
  { intros m r Hm. by eapply cancels_bind; [apply cancels_check|]. }
  destruct t as [| | | | | | | | |m| | |]; try done. exists m.
  unfold supports in Hsup. unfold exact. destruct m as [name neg|name low high il ih neg]; rewrite named_columns in Hsup;
    (destruct (field_named name) as [field|] eqn:Ename; [clear Hsup; simpl|by apply bool_decide_eq_true, is_Some_None in Hsup]).
  - eexists. split_and!; [done|apply Hcheck, cancels_ret|]. intros x.
    assert (Hx : bm_contains x (known (column_of nc field)) =
      match rows !! N.to_nat x with Some row => negb (f64_is_nan (row_value field row)) | None => false end).
    { rewrite (col_known _ _ (Hok field)), list_lookup_fmap. by destruct (rows !! N.to_nat x). }
    specialize (Hlive x). destruct (bm_contains x live) eqn:El.
    + destruct (lookup_lt_is_Some_2 rows (N.to_nat x) (Hlive eq_refl)) as [row Hrow]. rewrite Hrow in *.
      pose proof (field_named_unknown name field row neg (Forall_lookup_1 _ _ _ _ Hfit Hrow) Ename) as Hu.
      transitivity (xorb (f64_is_nan (row_value field row)) neg); [|symmetry; exact Hu].
      destruct neg; rewrite ?contains_and, ?contains_sub, Hx, El; by destruct (f64_is_nan _).
    + destruct neg; rewrite ?contains_and, ?contains_sub, El; by rewrite ?andb_false_r.
  - destruct (column_range_spec n k tb rows field
      {| low := low; high := high; include_low := il; include_high := ih; negate := neg |} (column_of nc field) live
      Htb Hfit Hn (Hok field) (Hclean field)) as (r & Hr & Hin).
    exists r. split_and!; [done|apply Hcheck; eapply cancels_bind; [exact Hr|apply cancels_ret]|].
    intros x. rewrite Hin. f_equal. destruct (rows !! N.to_nat x) as [row|] eqn:Hrow; [|done].
    rewrite (field_named_value name field row (Forall_lookup_1 _ _ _ _ Hfit Hrow) Ename).
    destruct (f64_is_nan (row_value field row)); [done|]. unfold inside, above_lower, below_upper, in_range. simpl.
    by destruct neg; [rewrite xorb_true_r|rewrite xorb_false_r].
Qed.

(** A numeric term is answered exactly.  Over columns that follow the rows
    of the table, with no dirty block, [exact] gives, for a number or date
    range or an [unknown] term over size, modified or created, the live slots
    whose row the evaluator matches, or the cancellation error if a poll saw
    the flag; it gives no answer for any other term, and never panics.  Block
    bounds, integer ranks and the buffer of bits change nothing. *)
Theorem numeric_columns_answer_exactly `{Chrono, Pcre, Memmem} {Q : Type}
    n k tb rows (nc : NumericColumns B) (live : B) (t : Term B Q) :
  table_ok n k tb rows → Forall row_ok rows → (N.of_nat (length rows) ≤ u32_max)%N →
  numeric_ok nc rows → numeric_clean nc → (∀ x, bm_contains x live = true → N.to_nat x < length rows) →
  match t with
  | TNumeric m =>
    if supports t then
      ∃ answer, cancels_to (exact nc t tb live) (Ok (Some answer)) ∧
        ∀ x, bm_contains x answer =
          bm_contains x live && match rows !! N.to_nat x with Some row => matches_numeric m row | None => false end
    else cancels_to (exact nc t tb live) (Ok None)
  | _ => supports t = false ∧ cancels_to (exact nc t tb live) (Ok None)
  end.
Proof.
  intros Htb Hfit Hn Hok Hclean Hlive.
  assert (Hcheck : ∀ (m : polled (option B)) r, cancels_to m r → cancels_to (check_cancelled ≫= λ _, m) r).
  { intros m r Hm. by eapply cancels_bind; [apply cancels_check|]. }
  destruct t as [| | | | | | | | |m| | |]; try (split; [done|apply Hcheck, cancels_ret]).
  destruct (supports (B := B) (Q := Q) (TNumeric m)) eqn:Hsup.
  { destruct (numeric_exact_spec (Q := Q) n k tb rows nc live (TNumeric m)) as (m' & answer & [= <-] & He & Ha); try done. by exists answer. }
  unfold supports in Hsup. unfold exact. destruct m as [name neg|name low high il ih neg]; rewrite named_columns in Hsup;
    (destruct (field_named name) as [field|] eqn:Ename; [done|]); apply Hcheck, cancels_ret.
Qed.
End proofs.

(** ** Witnesses *)

Section witnesses.
#[local] Existing Instance merging_sort.
#[local] Existing Instance utc_chrono.
#[local] Existing Instance literal_pcre.
#[local] Existing Instance bytes_memmem.
(** A file of 4096 bytes and a directory. *)
Definition numeric_rows : list (@IndexedFile simple_json_json) := [row_a; renamed_row (lit "dir")].
Lemma numeric_rows_ok : Forall row_ok numeric_rows.
Proof. repeat (constructor; [split; [by intros []|split; [by intros []|done]]|]). constructor. Qed.
Lemma numeric_table : ∃ tb : EntryTable (gset N) unit, table_ok 0 0 tb numeric_rows.
Proof.
  pose proof numeric_rows_ok as Hrows. unfold numeric_rows in Hrows. rewrite !Forall_cons in Hrows. destruct Hrows as (Ha & Hd & _).
  destruct (push_spec (B:=gset N) (Sec:=unit) (row_bytes (renamed_row (lit "dir")) + 0) (3 + 0) table_default [] row_a)
    as (tb & _ & Htb); [apply table_default_ok; by vm_compute|done|].
  destruct (push_spec 0 0 tb _ (renamed_row (lit "dir")) Htb Hd) as (tb' & _ & Htb'). by exists tb'.
Qed.

Lemma numeric_columns_follow_rows_witness :
  ∃ (tb : EntryTable (gset N) unit) nc nc', build tb = Some nc ∧ columns_set nc 2 row_b = Some nc' ∧
    numeric_ok nc' (numeric_rows ++ [row_b]).
Proof.
  destruct numeric_table as [tb Htb].
  pose proof (numeric_columns_follow_rows 0 0 tb numeric_rows row_b 2 Htb ltac:(done)) as Hf.
  destruct Hf as [(nc & Hb & Hok & _) Hset]. pose proof (proj1 (Hset nc Hok) ltac:(simpl; lia)) as Hs.
  destruct Hs as (nc' & Hs & Hok'). exists tb, nc, nc'. split; [exact Hb|]. split; [exact Hs|]. exact Hok'.
Defined.

Definition at_least_1000 : Term (gset N) (Query (gset N)) :=
  TNumeric (Number (lit "size") (f64_of_Z 1000) f64_infinity true true true).
Lemma numeric_columns_answer_exactly_witness :
  ∃ (tb : EntryTable (gset N) unit) nc answer,
    cancels_to (exact nc at_least_1000 tb {[0%N; 1%N]}) (Ok (Some answer)) ∧
    bm_contains 0 answer = false ∧ bm_contains 1 answer = false.
Proof.
  destruct numeric_table as [tb Htb].
  destruct (build_fold (iter tb) numeric_rows [] columns_default (iter_views 0 0 tb _ Htb) ltac:(done))
    as (nc & _ & Hok & Hclean).
  { intros []; apply column_default_ok. }
  { intros [] x; apply contains_new. }
  assert (Hlive : ∀ x, bm_contains x ({[0%N; 1%N]} : gset N) = true → N.to_nat x < length numeric_rows).
  { intros x Hx%bool_decide_eq_true. simpl. set_unfold. lia. }
  pose proof (numeric_columns_answer_exactly 0 0 tb numeric_rows nc {[0%N; 1%N]} at_least_1000
    Htb numeric_rows_ok ltac:(done) Hok Hclean Hlive) as Ht.
  change (∃ answer, cancels_to (exact nc at_least_1000 tb {[0%N; 1%N]}) (Ok (Some answer)) ∧
        ∀ x, bm_contains x answer = bm_contains x ({[0%N; 1%N]} : gset N) &&
          match numeric_rows !! N.to_nat x with
          | Some row => matches_numeric (Number (lit "size") (f64_of_Z 1000) f64_infinity true true true) row
          | None => false end) in Ht.
  destruct Ht as (answer & Ha & Hx). exists tb, nc, answer. split; [exact Ha|].
  split; rewrite Hx; vm_compute; reflexivity.
Defined.
End witnesses.
