(* ===== verification/NameColumn.v ===== *)
(** * core/src/name_column.rs: scanning names and paths

    A query made of substrings of names is compiled to an expression over the
    bytes of a search name and evaluated on the blocks of the table, slot by
    slot, possibly by several workers on disjoint ranges of slots.  A query
    that is one substring of paths is answered from the two halves of each
    stored path, the state of a directory being computed once per block.

    A run polls for cancellation; reading out of range is the error
    [panicked].  The workers of a partitioned run are run one after the other:
    each only reads, and their sets are united. *)
From S2P Require Import Prelude Bitmap Text TextView QueryLex Float QueryNumber QuerySyntax.
From S2P Require Import FileEntry TextMatch QueryEval Columns IntegerColumn TextPool EntryChunk EntryTable.

(** Roaring's [select] and [range], documented in terms of iteration. *)
Definition bm_select `{Roaring B} (n : nat) (b : B) : option N := bm_iter b !! n.
Definition bm_range `{Roaring B} (low : N) (high : option N) (b : B) : list N :=
  filter (λ x, (low <=? x)%N && from_option (λ high, (x <? high)%N) true high = true) (bm_iter b).

(** ** Expressions *)

Inductive NameExpression `{Memmem} :=
| NAll
| NText (finder : Finder)
| NAnd (l : list NameExpression)
| NOr (l : list NameExpression)
| NNot (e : NameExpression).

Section compile.
Context `{Chrono, Pcre, Memmem} {B : Type}.
(** [compiled.retain(..)]: the needles met so far are the hash set. *)
Fixpoint retain_distinct (literals : gset bytes) (l : list NameExpression) : list NameExpression :=
  match l with
  | [] => []
  | NText finder :: l =>
    if decide (finder_needle finder ∈ literals) then retain_distinct literals l
    else NText finder :: retain_distinct ({[finder_needle finder]} ∪ literals) l
  | e :: l => e :: retain_distinct literals l
  end.
Definition combine (compiled : list NameExpression) (conjunction : bool) : option NameExpression :=
  match retain_distinct ∅ compiled with
  | [e] => Some e
  | compiled => Some (if conjunction then NAnd compiled else NOr compiled)
  end.
Definition compile_all {A} (f : A → option NameExpression) : list A → option (list NameExpression) :=
  fix go l := match l with
              | [] => Some []
              | x :: l => e ← f x; l ← go l; Some (e :: l)
              end.
Fixpoint compile (q : Query B) : option NameExpression :=
  match q with
  | All => Some NAll
  | QTerm (TText Name _ finder false) => Some (NText finder)
  | QAnd children => compiled ← compile_all compile children; combine compiled true
  | QOr children => compiled ← compile_all compile children; combine compiled false
  | QNot child => e ← compile child; Some (NNot e)
  | _ => None
  end.
Fixpoint name_matches (e : NameExpression) (name : bytes) : bool :=
  match e with
  | NAll => true
  | NText finder => finds finder name
  | NAnd children => forallb (λ e, name_matches e name) children
  | NOr children => existsb (λ e, name_matches e name) children
  | NNot e => negb (name_matches e name)
  end.
End compile.

(** ** The column *)

Section column.
Context `{Chrono, Unicode, Pcre, Memmem, JsonShape} {B : Type} `{Roaring B} {Sec : Type}.
Notation EntryTable := (EntryTable B Sec).

(** The table's blocks, shared. *)
Record NameColumn := { column_names : EntryTable }.
Definition name_column_build (entries : EntryTable) : NameColumn := {| column_names := entries |}.

(** [&text[offset as usize..(offset + length) as usize]] on the bytes *)
Definition byte_slice (text : bytes) (r : TextRef) : option bytes :=
  if ((N.of_nat (offset r + length_ r) <=? u32_max)%N && (offset r + length_ r <=? length text)) then
    Some (take (length_ r) (drop (offset r) text))
  else None.
Definition keeps (query : NameExpression) (exclusions : list NameExpression) (name : bytes) : bool :=
  name_matches query name && negb (existsb (λ e, name_matches e name) exclusions).
(** The slots of one block, and those that follow. *)
Fixpoint scan_block (query : NameExpression) (exclusions : list NameExpression) (references : list TextRef) (text : bytes)
    (end_ : nat) (candidates : list N) (matched : RunBitmapBuilder B) : polled (list N * RunBitmapBuilder B) :=
  match candidates with
  | [] => mret ([], matched)
  | slot :: rest =>
    if N.to_nat slot <? end_ then
      _ ← check_cancelled;
      reference ← p_some (references !! (N.to_nat slot mod chunk_length));
      name ← p_some (byte_slice text reference);
      scan_block query exclusions references text end_ rest
        (if keeps query exclusions name then Bitmap.insert matched slot else matched)
    else mret (candidates, matched)
  end.
(** Each turn takes the first slot at least, so one more turn than there are
    candidates is enough ([scan_blocks_spec]). *)
Fixpoint scan_blocks (fuel : nat) (column : NameColumn) (query : NameExpression) (exclusions : list NameExpression)
    (candidates : list N) (matched : RunBitmapBuilder B) : polled (RunBitmapBuilder B) :=
  match fuel, candidates with
  | _, [] => mret matched
  | O, _ => p_lift (Err panicked)
  | S fuel, first :: _ =>
    let block_index := N.to_nat first / chunk_length in
    block ← p_some (chunks (column_names column) !! block_index);
    '(candidates, matched) ← scan_block query exclusions (column_values text_ref_elem (names block FSearchName))
      (utf8 (data_text (data block))) (S block_index * chunk_length) candidates matched;
    scan_blocks fuel column query exclusions candidates matched
  end.
Definition evaluate_slots (column : NameColumn) query exclusions (candidates : list N) : polled B :=
  matched ← scan_blocks (S (length candidates)) column query exclusions candidates builder_default;
  mret (Bitmap.finish matched).

Definition boundary (candidates : B) (workers worker : nat) : option N :=
  bm_select (bm_len candidates * worker / workers) candidates.
Definition partition_slots (candidates : B) (boundaries : list N) (worker : nat) : option (list N) :=
  low ← boundaries !! worker; Some (bm_range low (boundaries !! S worker) candidates).
(** [try_reduce]: the union of what the workers find. *)
Definition unite (column : NameColumn) query exclusions (candidates : B) (boundaries : list N) (result : B) (worker : nat) :
    polled B :=
  slots ← p_some (partition_slots candidates boundaries worker);
  part ← evaluate_slots column query exclusions slots;
  mret (bm_or result part).
Definition evaluate_partitioned (column : NameColumn) query exclusions (candidates : B) (workers : nat) : polled B :=
  if (workers <=? 1) || bm_is_empty candidates then evaluate_slots column query exclusions (bm_iter candidates)
  else
    let workers := workers `min` bm_len candidates in
    boundaries ← p_some (mapM (boundary candidates workers) (seq 0 workers));
    p_fold (unite column query exclusions candidates boundaries) (seq 0 workers) bm_new.
(** [MIN_PARTITION_CANDIDATES], 32768 *)
Definition min_partition_candidates : nat := 8 * chunk_length.
(** [acquire workers] is the number of workers that admission grants. *)
Definition evaluate (acquire : nat → option nat) (column : NameColumn) query exclusions (candidates : B) : polled B :=
  let workers := bm_len candidates / min_partition_candidates in
  match (if 1 <? workers then acquire workers else None) with
  | Some permitted => evaluate_partitioned column query exclusions candidates permitted
  | None => evaluate_slots column query exclusions (bm_iter candidates)
  end.

(** ** Paths *)

(** The state of a directory: the needle is in it (2), its end may start an
    occurrence (1), or no path below it has one that it takes part in (0). *)
Definition path_column (mode : PathTextMode) : PathField :=
  match mode with Search => FSearchPath | Folded => FFoldedPath | Sensitive _ => FPath end.
Definition needle_split (finder : Finder) : option nat := (λ index, index + 1) <$> rposition 47 (finder_needle finder).
Definition parent_state (c : EntryChunk Sec) (finder : Finder) (mode : PathTextMode) (r : TextRef) : option nat :=
  t ← text_at c r;
  let prefix := utf8 (path_normalize mode t) in
  Some (if finds finder prefix then 2
        else match needle_split finder with
             | None => 1
             | Some split => if ends_with (take split (finder_needle finder)) prefix then 1 else 0
             end).
Definition suffix_matches (c : EntryChunk Sec) (finder : Finder) (mode : PathTextMode) (r : TextRef) : option bool :=
  t ← text_at c r;
  let suffix := utf8 (path_normalize mode t) in
  Some (match needle_split finder with
        | Some split => starts_with (drop split (finder_needle finder)) suffix
        | None => finds finder suffix
        end).
(** The hash map of the block's directories, and the last one looked up. *)
Record PathMemo := { parents : gmap (nat * nat) nat; last_parent : option (TextRef * nat) }.
Definition ref_key (r : TextRef) : nat * nat := (offset r, length_ r).
Definition memo_state (c : EntryChunk Sec) (finder : Finder) (mode : PathTextMode) (memo : PathMemo) (r : TextRef) :
    option (nat * PathMemo) :=
  let look_up :=
    state ← (match parents memo !! ref_key r with Some state => Some state | None => parent_state c finder mode r end);
    Some (state, {| parents := <[ref_key r := state]> (parents memo); last_parent := Some (r, state) |}) in
  match last_parent memo with
  | Some (r', state) => if decide (r' = r) then Some (state, memo) else look_up
  | None => look_up
  end.
Definition match_slot (c : EntryChunk Sec) (finder : Finder) (mode : PathTextMode) (start : nat)
    (st : PathMemo * RunBitmapBuilder B) (slot : N) : option (PathMemo * RunBitmapBuilder B) :=
  let '(memo, result) := st in
  reference ← column_values path_ref_elem (paths c (path_column mode)) !! (N.to_nat slot - start);
  '(state, memo) ← memo_state c finder mode memo (prefix reference);
  matched ← (if state =? 2 then Some true
             else if state =? 1 then suffix_matches c finder mode (suffix reference)
             else Some false);
  Some (memo, if (matched : bool) then Bitmap.insert result slot else result).
Definition u32_of (n : nat) : N := (N.of_nat n mod 2 ^ 32)%N.
Definition match_block (finder : Finder) (mode : PathTextMode) (live : B) (result : RunBitmapBuilder B)
    (block : nat * EntryChunk Sec) : polled (RunBitmapBuilder B) :=
  let '(index, c) := block in
  _ ← check_cancelled;
  let start := index * chunk_length in
  st ← p_some (fold_option (match_slot c finder mode start)
                 (bm_range (u32_of start) (Some (u32_of (start + chunk_len c))) live)
                 ({| parents := ∅; last_parent := None |}, result));
  mret st.2.
Definition match_paths (entries : EntryTable) (finder : Finder) (mode : PathTextMode) (live : B) : polled B :=
  result ← p_fold (match_block finder mode live) (imap pair (chunks entries)) builder_default;
  mret (Bitmap.finish result).
End column.
Arguments NameColumn {_} B Sec.

(** ** An expression is its query *)

Section expressions.
Context `{Chrono, Unicode, Pcre, MemmemLaws, Json} {B : Type} `{Roaring B} {F : Type} `{!FileEntry F}.

(** A needle that was met needs no second look. *)
Lemma retain_and name l literals :
  (∀ needle, needle ∈ literals → found needle name = true) →
  forallb (λ e, name_matches e name) (retain_distinct literals l) = forallb (λ e, name_matches e name) l.
Proof.
  revert literals. induction l as [|e l IH]; intros literals Hlit; [done|].
  assert (Hkeep : forallb (λ e, name_matches e name) (e :: retain_distinct literals l) =
    forallb (λ e, name_matches e name) (e :: l)) by (simpl; by rewrite IH).
  destruct e as [|finder| | |]; try exact Hkeep. simpl.
  case_decide as Hin; [rewrite IH, finds_found, (Hlit _ Hin) by done; done|].
  simpl. destruct (finds finder name) eqn:Hf; [|done]. apply IH.
  rewrite finds_found in Hf. set_solver.
Qed.
Lemma retain_or name l literals :
  (∀ needle, needle ∈ literals → found needle name = false) →
  existsb (λ e, name_matches e name) (retain_distinct literals l) = existsb (λ e, name_matches e name) l.
Proof.
  revert literals. induction l as [|e l IH]; intros literals Hlit; [done|].
  assert (Hkeep : existsb (λ e, name_matches e name) (e :: retain_distinct literals l) =
    existsb (λ e, name_matches e name) (e :: l)) by (simpl; by rewrite IH).
  destruct e as [|finder| | |]; try exact Hkeep. simpl.
  case_decide as Hin; [rewrite IH, finds_found, (Hlit _ Hin) by done; done|].
  simpl. destruct (finds finder name) eqn:Hf; [done|]. apply IH.
  rewrite finds_found in Hf. set_solver.
Qed.
Lemma combine_matches compiled (conjunction : bool) e name :
  combine compiled conjunction = Some e →
  name_matches e name = (if conjunction then forallb (λ e, name_matches e name) compiled else existsb (λ e, name_matches e name) compiled).
Proof.
  unfold combine. pose proof (retain_and name compiled ∅) as Ha. pose proof (retain_or name compiled ∅) as Ho.
  specialize (Ha ltac:(set_solver)). specialize (Ho ltac:(set_solver)).
  destruct (retain_distinct ∅ compiled) as [|e1 [|e2 l]]; intros [= <-]; destruct conjunction;
    rewrite <-?Ha, <-?Ho; simpl; rewrite ?andb_true_r, ?orb_false_r; done.
Qed.
Lemma compile_all_Forall2 (f : Query B → option NameExpression) queries l :
  compile_all f queries = Some l → Forall2 (λ q e, f q = Some e) queries l.
Proof.
  revert l. induction queries as [|q queries IH]; intros l; simpl; [by intros [= <-]|].
  intros (e & He & (l' & Hl & [= <-])%bind_Some)%bind_Some. constructor; auto.
Qed.
Lemma compile_denotes q e (file : F) content :
  compile (B := B) q = Some e → denote q file content = Ok (name_matches e (utf8 (search_name file))).
Proof.
  revert e. set (name := utf8 (search_name file)).
  assert (Hlist : ∀ (queries : list (Query B)) l,
    Forall (λ q, ∀ e, compile q = Some e → denote q file content = Ok (name_matches e name)) queries →
    compile_all compile queries = Some l → Forall2 (λ q e, denote q file content = Ok (name_matches e name)) queries l).
  { intros queries l Hq Hl%compile_all_Forall2. revert Hq. induction Hl as [|q' e queries l Hqe _ IHl]; [constructor|].
    intros [Hq Hqs]%Forall_cons. constructor; auto. }
  induction q as [|queries IH|queries IH|q IH|recursive q _|t Ht] using query_induction; intros e; simpl.
  - by intros [= <-].
  - intros (l & Hl & Hc)%bind_Some. rewrite (combine_matches _ _ _ _ Hc).
    specialize (Hlist _ _ IH Hl). clear -Hlist.
    induction Hlist as [|q e queries l Hq _ IH]; [done|]. simpl. rewrite Hq. simpl. by destruct (name_matches e name).
  - intros (l & Hl & Hc)%bind_Some. rewrite (combine_matches _ _ _ _ Hc).
    specialize (Hlist _ _ IH Hl). clear -Hlist.
    induction Hlist as [|q e queries l Hq _ IH]; [done|]. simpl. rewrite Hq. simpl. by destruct (name_matches e name).
  - intros (e' & He & [= <-])%bind_Some. rewrite (IH _ He). done.
  - done.
  - destruct t as [[] needle finder []| | | | | | | | | | | |]; try done. by intros [= <-].
Qed.
End expressions.

(** ** The scan of the blocks *)

Section scanning.
#[local] Opaque chunk_length.
Context `{Chrono, Unicode, Pcre, MemmemLaws, JsonShapeLaws} {B : Type} `{RoaringLaws B} {Sec : Type}.
Notation EntryTable := (EntryTable B Sec).
Implicit Types (tb : EntryTable) (rows : list IndexedFile) (query : NameExpression) (exclusions : list NameExpression).

(** The rows that a scan keeps. *)
Definition kept_row query exclusions rows (slot : N) : bool :=
  from_option (λ row, keeps query exclusions (utf8 (i_search_name row))) false (rows !! N.to_nat slot).

Lemma byte_slice_ref t r v :
  read_ref t r = Some v → (N.of_nat (byte_len t) ≤ u32_max)%N → byte_slice (utf8 t) r = Some (utf8 v).
Proof.
  unfold read_ref, byte_slice. intros (x & z & -> & Hx & Hv)%str_slice_Some Hmax.
  rewrite utf8_length, !byte_len_app in *. rewrite (proj2 (N.leb_le _ _)), (proj2 (Nat.leb_le _ _)) by lia. simpl.
  f_equal. rewrite !utf8_app, <-Hx. replace (length_ r) with (byte_len v) by lia.
  rewrite <-!utf8_length, drop_app_length. apply take_app_length.
Qed.
(** The block and the name of a slot. *)
Lemma slot_name n k tb rows slot row :
  table_ok n k tb rows → rows !! slot = Some row →
  ∃ c r, chunks tb !! (slot / chunk_length) = Some c ∧
    column_values text_ref_elem (names c FSearchName) !! (slot mod chunk_length) = Some r ∧
    byte_slice (utf8 (data_text (data c))) r = Some (utf8 (i_search_name row)).
Proof.
  intros (blocks & -> & Hfull & Hf & _ & _ & Hn & _) Hrow. rewrite full_lookup in Hrow by done.
  apply bind_Some in Hrow as (b & Hb & Hrow). destruct (Forall2_lookup_r _ _ _ _ _ Hf Hb) as (c & Hc & [_ Hok] & Hbytes & _).
  destruct (Forall2_lookup_r _ _ _ _ _ (Hok (FN FSearchName)) Hrow) as (r & Hr & Hread).
  exists c, r. split_and!; [done..|]. apply byte_slice_ref; [exact Hread|lia].
Qed.
Lemma scan_names_spec query exclusions rows c (index : nat) candidates matched :
  StronglySorted N.lt candidates → Forall (λ slot, index * chunk_length ≤ N.to_nat slot) candidates →
  (∀ slot, slot ∈ candidates → N.to_nat slot / chunk_length = index → ∃ r row,
     column_values text_ref_elem (names c FSearchName) !! (N.to_nat slot mod chunk_length) = Some r ∧
     byte_slice (utf8 (data_text (data c))) r = Some (utf8 (i_search_name row)) ∧ rows !! N.to_nat slot = Some row) →
  ∃ done rest, candidates = done ++ rest ∧
    cancels_to (scan_block query exclusions (column_values text_ref_elem (names (Sec := Sec) c FSearchName))
      (utf8 (data_text (data c))) (S index * chunk_length) candidates matched)
      (Ok (rest, foldl Bitmap.insert matched (filter (λ x, kept_row query exclusions rows x = true) done))) ∧
    (∀ first l, candidates = first :: l → N.to_nat first / chunk_length = index → done ≠ []).
Proof.
  pose proof chunk_length_eq as Hc. revert matched.
  induction candidates as [|slot candidates IH]; intros matched Hs Hge Hread.
  { exists [], []. split_and!; [done|apply cancels_ret|done]. }
  apply StronglySorted_cons in Hs as [Hlt Hs]. apply Forall_cons in Hge as [Hslot Hge].
  cbn [scan_block]. destruct (Nat.ltb_spec (N.to_nat slot) (S index * chunk_length)) as [Hin|Hout].
  - assert (Hindex : N.to_nat slot / chunk_length = index).
    { symmetry. apply (Nat.div_unique _ _ _ (N.to_nat slot - index * chunk_length)); lia. }
    destruct (Hread slot) as (r & row & Hr & Hname & Hrow); [left|done|].
    destruct (IH (if keeps query exclusions (utf8 (i_search_name row)) then Bitmap.insert matched slot else matched))
      as (done_ & rest & -> & Hscan & _); [done|done|intros; apply Hread; [by right|done]|].
    exists (slot :: done_), rest. split_and!; [done| |done].
    eapply cancels_bind; [apply cancels_check|]. eapply cancels_bind; [by apply cancels_some|].
    eapply cancels_bind; [by apply cancels_some|]. rewrite filter_cons.
    assert (Hk : kept_row query exclusions rows slot = keeps query exclusions (utf8 (i_search_name row)))
      by (unfold kept_row; by rewrite Hrow).
    rewrite Hk. destruct (keeps query exclusions _); [rewrite decide_True by done|rewrite decide_False by done]; exact Hscan.
  - exists [], (slot :: candidates). split_and!; [done|apply cancels_ret|]. intros first l [= <- <-] Hi. exfalso.
    assert (N.to_nat slot < S (N.to_nat slot / chunk_length) * chunk_length); [|lia].
    rewrite Nat.mul_comm. apply Nat.mul_succ_div_gt. lia.
Qed.
Lemma scan_blocks_spec n k tb rows query exclusions fuel candidates matched :
  table_ok n k tb rows → StronglySorted N.lt candidates → (∀ slot, slot ∈ candidates → N.to_nat slot < length rows) →
  length candidates < fuel →
  cancels_to (scan_blocks fuel (name_column_build tb) query exclusions candidates matched)
    (Ok (foldl Bitmap.insert matched (filter (λ x, kept_row query exclusions rows x = true) candidates))).
Proof.
  intros Htb. pose proof chunk_length_eq as Hc. revert candidates matched.
  induction fuel as [|fuel IH]; intros [|first candidates] matched Hs Hin Hfuel; try (simpl in Hfuel; lia); [apply cancels_ret|].
  cbn [scan_blocks]. cbv zeta.
  destruct (lookup_lt_is_Some_2 rows (N.to_nat first)) as [row Hrow]; [apply Hin; left|].
  destruct (slot_name n k tb rows _ row Htb Hrow) as (c & r & Hblock & _).
  destruct (scan_names_spec query exclusions rows c (N.to_nat first / chunk_length) (first :: candidates) matched)
    as (done_ & rest & Heq & Hscan & Hne); [done| | |].
  - pose proof (Nat.Div0.mul_div_le (N.to_nat first) chunk_length) as Hle. rewrite Nat.mul_comm in Hle.
    apply StronglySorted_cons in Hs as [Hlt Hs]. constructor; [done|]. eapply Forall_impl; [exact Hlt|]. intros y Hy. simpl in Hy. lia.
  - intros slot Hslot Hindex. destruct (lookup_lt_is_Some_2 rows (N.to_nat slot)) as [row' Hrow']; [by apply Hin|].
    destruct (slot_name n k tb rows _ row' Htb Hrow') as (c' & r' & Hblock' & Hr' & Hn').
    exists r', row'. assert (c' = c) as -> by (rewrite Hindex in Hblock'; congruence). done.
  - eapply cancels_bind; [by apply cancels_some|]. eapply cancels_bind; [exact Hscan|]. cbn beta iota.
    rewrite Heq in Hs, Hin, Hfuel |- *. rewrite filter_app, foldl_app.
    apply StronglySorted_app in Hs as (_ & _ & Hs). apply IH; [done|intros; apply Hin; set_solver|].
    specialize (Hne _ _ eq_refl eq_refl). rewrite length_app in Hfuel. destruct done_; [done|simpl in Hfuel; lia].
Qed.
(** The slots asked for are searched, and no others. *)
Lemma evaluate_slots_spec n k tb rows query exclusions candidates :
  table_ok n k tb rows → StronglySorted N.lt candidates → (∀ slot, slot ∈ candidates → N.to_nat slot < length rows) →
  ∃ r, cancels_to (evaluate_slots (name_column_build tb) query exclusions candidates) (Ok r) ∧
    ∀ x, bm_contains x r = true ↔ x ∈ candidates ∧ kept_row query exclusions rows x = true.
Proof.
  intros Htb Hs Hin. eexists. split.
  - eapply cancels_bind; [apply (scan_blocks_spec n k tb rows); [done..|lia]|]. apply cancels_ret.
  - intros x. rewrite builder_collects, list_elem_of_filter. tauto.
Qed.

(** *** Partitions *)

Lemma bm_range_sorted low high (b : B) : StronglySorted N.lt (bm_range low high b).
Proof.
  unfold bm_range. induction (iter_sorted b) as [|x l _ IH Hx]; [constructor|].
  rewrite filter_cons. case_decide; [|done]. constructor; [done|]. rewrite Forall_forall in Hx |- *.
  intros y Hy. apply Hx. apply list_elem_of_filter in Hy. tauto.
Qed.
Lemma bm_range_spec x low high (b : B) :
  x ∈ bm_range low high b ↔ bm_contains x b = true ∧ (low ≤ x)%N ∧ from_option (λ high, (x < high)%N) True high.
Proof.
  unfold bm_range. rewrite list_elem_of_filter, contains_iter, andb_true_iff, N.leb_le.
  destruct high; simpl; rewrite ?N.ltb_lt; tauto.
Qed.
(** The first boundary is the first slot, so every slot falls in a range. *)
Lemma partition_covers (boundaries : list N) x :
  (∃ first, boundaries !! 0 = Some first ∧ (first ≤ x)%N) →
  ∃ worker low, boundaries !! worker = Some low ∧ (low ≤ x)%N ∧ from_option (λ high, (x < high)%N) True (boundaries !! S worker).
Proof.
  intros (first & Hfirst & Hle). destruct boundaries as [|b boundaries]; [done|]. injection Hfirst as ->.
  revert first Hle. induction boundaries as [|next boundaries IH]; intros first Hle.
  { exists 0, first. done. }
  destruct (decide (x < next)%N) as [Hlt|Hge]; [by exists 0, first|].
  destruct (IH next) as (worker & low & Hw & Hl & Hh); [lia|]. by exists (S worker), low.
Qed.
Lemma unite_spec n k tb rows query exclusions candidates boundaries result worker low :
  table_ok n k tb rows → (∀ x, bm_contains x candidates = true → N.to_nat x < length rows) →
  boundaries !! worker = Some low →
  ∃ r, cancels_to (unite (name_column_build tb) query exclusions candidates boundaries result worker) (Ok r) ∧
    ∀ x, bm_contains x r = true ↔ bm_contains x result = true ∨
      (bm_contains x candidates = true ∧ (low ≤ x)%N ∧ from_option (λ high, (x < high)%N) True (boundaries !! S worker)) ∧
      kept_row query exclusions rows x = true.
Proof.
  intros Htb Hin Hw.
  destruct (evaluate_slots_spec n k tb rows query exclusions (bm_range low (boundaries !! S worker) candidates))
    as (part & Hpart & Hspec); [done|apply bm_range_sorted|by intros slot (Hslot & _)%bm_range_spec; apply Hin|].
  exists (bm_or result part). split.
  - unfold unite, partition_slots. rewrite Hw. eapply cancels_bind; [by apply cancels_some|].
    eapply cancels_bind; [exact Hpart|apply cancels_ret].
  - intros x. rewrite contains_or, orb_true_iff, Hspec, bm_range_spec. tauto.
Qed.
Lemma boundary_some (candidates : B) workers worker :
  worker < workers → 0 < bm_len candidates → is_Some (boundary candidates workers worker).
Proof.
  intros Hw Hlen. unfold boundary, bm_select. apply lookup_lt_is_Some_2. apply Nat.Div0.div_lt_upper_bound.
  unfold bm_len in *. nia.
Qed.
Lemma boundaries_first (candidates : B) workers boundaries x :
  mapM (boundary candidates workers) (seq 0 workers) = Some boundaries → bm_contains x candidates = true → 0 < workers →
  ∃ first, boundaries !! 0 = Some first ∧ (first ≤ x)%N.
Proof.
  intros Hb%mapM_Some Hx Hw. destruct workers as [|workers]; [lia|]. simpl in Hb.
  inversion Hb as [|? first ? bs Hfirst Hrest]; subst. exists first. split; [done|].
  unfold boundary, bm_select in Hfirst. rewrite Nat.mul_0_r, Nat.Div0.div_0_l in Hfirst.
  apply contains_iter, list_elem_of_lookup in Hx as [i Hi]. destruct i as [|i]; [simplify_eq; lia|].
  apply N.lt_le_incl. apply (StronglySorted_lookup_lt N.lt _ 0 (S i) _ _ (iter_sorted candidates) ltac:(lia) Hfirst Hi).
Qed.
Lemma evaluate_partitioned_spec n k tb rows query exclusions candidates workers :
  table_ok n k tb rows → (∀ x, bm_contains x candidates = true → N.to_nat x < length rows) →
  ∃ r, cancels_to (evaluate_partitioned (name_column_build tb) query exclusions candidates workers) (Ok r) ∧
    ∀ x, bm_contains x r = bm_contains x candidates && kept_row query exclusions rows x.
Proof.
  intros Htb Hin. unfold evaluate_partitioned.
  assert (Hext : ∀ m r, cancels_to m (Ok r) → (∀ x, bm_contains x r = true ↔ bm_contains x candidates = true ∧ kept_row query exclusions rows x = true) →
    ∃ r : B, cancels_to m (Ok r) ∧ ∀ x, bm_contains x r = bm_contains x candidates && kept_row query exclusions rows x).
  { intros m r Hm Hr. exists r. split; [done|]. intros x. apply eq_true_iff_eq. by rewrite Hr, andb_true_iff. }
  destruct ((workers <=? 1) || bm_is_empty candidates) eqn:Hone.
  { destruct (evaluate_slots_spec n k tb rows query exclusions (bm_iter candidates)) as (r & Hr & Hspec);
      [done|apply iter_sorted|by intros slot Hslot%contains_iter; apply Hin|].
    apply (Hext _ r Hr). intros x. by rewrite Hspec, contains_iter. }
  apply orb_false_iff in Hone as [Hw%Nat.leb_gt Hne].
  assert (Hlen : 0 < bm_len candidates) by (unfold bm_is_empty in Hne; unfold bm_len; destruct (bm_iter candidates); simpl; [done|lia]).
  set (count := workers `min` bm_len candidates). assert (Hcount : 0 < count) by (unfold count; lia).
  assert (Hbounds : ∃ boundaries, mapM (boundary candidates count) (seq 0 count) = Some boundaries).
  { apply mapM_is_Some, Forall_seq. intros worker Hworker. apply boundary_some; lia. }
  destruct Hbounds as [boundaries Hbounds]. pose proof Hbounds as Hmap. rewrite Hbounds.
  apply mapM_Some, Forall2_length in Hmap. rewrite length_seq in Hmap.
  destruct (cancels_fold_inv (unite (name_column_build tb) query exclusions candidates boundaries)
    (λ i r, ∀ x, bm_contains x r = true ↔ (∃ worker low, worker < i ∧ boundaries !! worker = Some low ∧
       (low ≤ x)%N ∧ from_option (λ high, (x < high)%N) True (boundaries !! S worker)) ∧
       bm_contains x candidates = true ∧ kept_row query exclusions rows x = true) (seq 0 count) bm_new)
    as (r & Hr & Hspec).
  - intros x. rewrite contains_new. split; [done|]. by intros ((worker & low & Hlt & _) & _); apply Nat.nlt_0_r in Hlt.
  - intros i worker result Hi Hres. apply lookup_seq in Hi as [-> Hi]. simpl.
    destruct (lookup_lt_is_Some_2 boundaries i) as [low Hlow]; [lia|].
    destruct (unite_spec n k tb rows query exclusions candidates boundaries result i low) as (r & Hr & Hspec); [done..|].
    exists r. split; [done|]. intros x. rewrite Hspec, Hres. split.
    + intros [((worker & low' & Hlt & Hrest) & Hx)|[(Hc & Hlow' & Hhigh) Hk]].
      * split; [|done]. exists worker, low'. split; [lia|done].
      * split; [|done]. exists i, low. split_and!; [lia|done..].
    + intros ((worker & low' & Hlt & Hw' & Hlow' & Hhigh) & Hc & Hk). destruct (decide (worker = i)) as [->|Hne'].
      * right. simplify_eq. done.
      * left. split; [|done]. exists worker, low'. split; [lia|done].
  - eapply Hext; [eapply cancels_bind; [by apply cancels_some|exact Hr]|]. intros x. rewrite Hspec. split; [by intros [_ ?]|].
    intros [Hx Hk]. split; [|done]. destruct (partition_covers boundaries x) as (worker & low & Hw' & Hle & Hhigh).
    { by apply (boundaries_first candidates count). }
    exists worker, low. split_and!; [|done..]. apply lookup_lt_Some in Hw'. rewrite length_seq. lia.
Qed.
Lemma evaluate_spec n k tb rows acquire query exclusions candidates :
  table_ok n k tb rows → (∀ x, bm_contains x candidates = true → N.to_nat x < length rows) →
  ∃ r, cancels_to (evaluate acquire (name_column_build tb) query exclusions candidates) (Ok r) ∧
    ∀ x, bm_contains x r = bm_contains x candidates && kept_row query exclusions rows x.
Proof.
  intros Htb Hin. unfold evaluate. case_match; [by apply (evaluate_partitioned_spec n k)|].
  destruct (evaluate_slots_spec n k tb rows query exclusions (bm_iter candidates)) as (r & Hr & Hspec);
    [done|apply iter_sorted|by intros slot Hslot%contains_iter; apply Hin|].
  exists r. split; [done|]. intros x. apply eq_true_iff_eq. by rewrite Hspec, andb_true_iff, contains_iter.
Qed.

(** The answer of a name scan is the query without the exclusions. *)
Lemma name_scan_spec n k tb rows acquire q excluded e exclusions candidates :
  table_ok n k tb rows → (∀ x, bm_contains x candidates = true → N.to_nat x < length rows) →
  compile (B := B) q = Some e → Forall2 (λ q e, compile (B := B) q = Some e) excluded exclusions →
  ∃ r, cancels_to (evaluate acquire (name_column_build tb) e exclusions candidates) (Ok r) ∧
    (∀ x, bm_contains x r = true → bm_contains x candidates = true) ∧
    ∀ x row content, rows !! N.to_nat x = Some row → ∃ b ex,
      denote q row content = Ok b ∧ any_result (λ q, denote q row content) excluded = Ok ex ∧
      bm_contains x r = bm_contains x candidates && (b && negb ex).
Proof.
  intros Htb Hin Hq Hex. destruct (evaluate_spec n k tb rows acquire e exclusions candidates Htb Hin) as (r & Hr & Hspec).
  exists r. split_and!; [done|intros x; rewrite Hspec, andb_true_iff; tauto|]. intros x row content Hrow.
  exists (name_matches e (utf8 (i_search_name row))), (existsb (λ e, name_matches e (utf8 (i_search_name row))) exclusions).
  split_and!; [exact (compile_denotes q e row content Hq)| |rewrite Hspec; unfold kept_row, keeps; by rewrite Hrow].
  clear -Hex H3 H8. induction Hex as [|q' e' excluded exclusions Hqe _ IH]; [done|]. simpl.
  rewrite (compile_denotes q' e' row content Hqe). simpl. destruct (name_matches e' _); [done|exact IH].
Qed.
End scanning.

(** ** Paths are searched by halves *)

(** What Unicode documents of normalization around a slash, which composes
    with nothing, and on ASCII, which is normal and has no combining marks. *)
Class SlashUnicode `{Unicode} : Prop := {
  nfc_slash a b : to_nfc (a ++ 47%N :: b) = to_nfc a ++ 47%N :: to_nfc b;
  nfd_slash a b : to_nfd (a ++ 47%N :: b) = to_nfd a ++ 47%N :: to_nfd b;
  nfc_ascii t : is_ascii t = true → to_nfc t = t;
  nfd_ascii t : is_ascii t = true → to_nfd t = t;
  nfc_no_slash t : 47%N ∉ t → 47%N ∉ to_nfc t;
  nfd_no_slash t : 47%N ∉ t → 47%N ∉ to_nfd t;
  ascii_not_mark c : (c < 128)%N → is_combining_mark c = false;
  nfc_valid t : valid_text t → valid_text (to_nfc t);
  nfd_valid t : valid_text t → valid_text (to_nfd t);
}.
#[export] Instance ascii_slash_unicode : SlashUnicode.
Proof. by split. Qed.

Section halves.
Context `{SlashUnicode}.
Lemma without_marks (l : list N) :
  (∀ c, c ∈ l → is_combining_mark c = false) → filter (λ c, is_combining_mark c = false) l = l.
Proof.
  induction l as [|c l IH]; intros Hl; [done|]. rewrite filter_cons, decide_True by (apply Hl; left).
  f_equal. apply IH. intros x Hx. apply Hl. by right.
Qed.
Definition path_folding (diacritics : bool) : text → text := if diacritics then to_nfc else strip_marks.
Lemma path_folding_ascii d t : is_ascii t = true → path_folding d t = t.
Proof.
  intros Ht. destruct d; simpl; [by apply nfc_ascii|]. unfold strip_marks. rewrite nfd_ascii by done.
  unfold is_ascii in Ht. rewrite forallb_forall in Ht. apply without_marks. intros c Hc.
  apply ascii_not_mark. by apply N.ltb_lt, Ht, list_elem_of_In.
Qed.
Lemma path_normalize_sensitive d t : path_normalize (Sensitive d) t = path_folding d t.
Proof. simpl. destruct (is_ascii t) eqn:Ht; [by rewrite path_folding_ascii|by destruct d]. Qed.
Lemma path_folding_slash d a b : path_folding d (a ++ 47%N :: b) = path_folding d a ++ 47%N :: path_folding d b.
Proof.
  destruct d; simpl; [apply nfc_slash|]. unfold strip_marks. rewrite nfd_slash.
  change (filter (λ c, is_combining_mark c = false) (to_nfd a ++ ([47%N] ++ to_nfd b)) =
    filter (λ c, is_combining_mark c = false) (to_nfd a) ++ [47%N] ++ filter (λ c, is_combining_mark c = false) (to_nfd b)).
  unfold text in *. rewrite !filter_app. do 2 f_equal. apply without_marks. intros c ->%list_elem_of_singleton. by apply ascii_not_mark.
Qed.
Lemma path_normalize_no_slash mode t : 47%N ∉ t → 47%N ∉ path_normalize mode t.
Proof.
  intros Ht. destruct mode as [| |d]; [done..|]. rewrite path_normalize_sensitive.
  destruct d; simpl; [by apply nfc_no_slash|]. unfold strip_marks. intros [_ Hin]%(list_elem_of_filter (A := N)).
  by apply (nfd_no_slash t).
Qed.
Lemma path_normalize_valid mode t : valid_text t → valid_text (path_normalize mode t).
Proof.
  intros Ht. destruct mode as [| |d]; [done..|]. rewrite path_normalize_sensitive.
  destruct d; simpl; [by apply nfc_valid|]. unfold strip_marks, valid_text.
  apply Forall_forall. intros c Hc%(list_elem_of_filter (A := N)).
  apply (proj1 (Forall_forall _ _) (nfd_valid t Ht)). tauto.
Qed.
(** Cut after its last slash, a path is normalized half by half. *)
Lemma split_path_cases v a b : split_path v = (a, b) → 47%N ∉ b ∧ (a = [] ∨ ∃ a', a = a' ++ [47%N]).
Proof.
  unfold split_path, last_slash. destruct (rposition 47 v) as [i|] eqn:Hr; intros [= <- <-].
  - destruct (rposition_spec _ _ _ Hr) as (x & y & -> & <- & Hy).
    replace (x ++ 47%N :: y) with ((x ++ [47%N]) ++ y) by (by rewrite <-app_assoc).
    replace (S (length x)) with (length (x ++ [47%N])) by (rewrite length_app; simpl; lia).
    rewrite drop_app_length, take_app_length. split; [done|]. right. by exists x.
  - split; [|by left]. rewrite drop_0. intros Hin. clear -Hr Hin.
    apply list_elem_of_split in Hin as (x & y & ->). revert Hr. clear. revert y. induction x as [|c x IH]; intros y; simpl.
    + by destruct (rposition 47 y).
    + specialize (IH y). destruct (rposition 47 (x ++ 47%N :: y)); [done|]. by specialize (IH eq_refl).
Qed.
Lemma path_normalize_halves mode v a b :
  split_path v = (a, b) →
  path_normalize mode v = path_normalize mode a ++ path_normalize mode b ∧
  47%N ∉ path_normalize mode b ∧
  (path_normalize mode a = [] ∨ ∃ a', path_normalize mode a = a' ++ [47%N]).
Proof.
  intros Hv. destruct (split_path_cases v a b Hv) as [Hb Ha]. pose proof (split_path_eq _ _ _ Hv) as <-.
  split_and!; [|by apply path_normalize_no_slash|].
  - destruct mode as [| |d]; [done..|]. rewrite !path_normalize_sensitive.
    destruct Ha as [->|(a' & ->)]; [by rewrite (path_folding_ascii d [])|].
    rewrite <-app_assoc. simpl. rewrite !path_folding_slash, <-app_assoc, (path_folding_ascii d []) by done. done.
  - destruct Ha as [->|(a' & ->)]; [left|right].
    + destruct mode as [| |d]; [done..|]. by rewrite path_normalize_sensitive, path_folding_ascii.
    + destruct mode as [| |d]; [by exists a'..|]. rewrite path_normalize_sensitive, path_folding_slash.
      exists (path_folding d a'). by rewrite (path_folding_ascii d []).
Qed.
End halves.

(** A slash is one byte, and a byte of nothing else. *)
Lemma utf8_slash t : 47%N ∈ utf8 t → 47%N ∈ t.
Proof.
  unfold utf8. intros (c & Hc & Ht)%list_elem_of_bind. unfold encode_utf8 in Hc.
  repeat case_match; rewrite ?N.ltb_lt, ?N.ltb_ge in *; set_unfold; [naive_solver|..];
    repeat match goal with H : _ ∨ _ |- _ => destruct H as [H|H] end; try done; lia.
Qed.
(** An occurrence in a path is in the directory, or takes part in the name. *)
Lemma found_in_halves needle front back :
  47%N ∉ back → (front = [] ∨ ∃ front', front = front' ++ [47%N]) →
  found needle (front ++ back) = found needle front ||
    match rposition 47 needle with
    | None => found needle back
    | Some i => ends_with (take (i + 1) needle) front && starts_with (drop (i + 1) needle) back
    end.
Proof.
  intros Hback Hfront. apply eq_true_iff_eq. rewrite orb_true_iff. split.
  - intros Hf. destruct (occurrence_cases (view_new front back) needle Hf) as [Hin|[Hin|Hin]]; [by left|right|right]; simpl in Hin.
    + apply found_spec in Hin as (x & y & Hxy). destruct (rposition 47 needle) as [i|] eqn:Hr.
      * destruct (rposition_spec _ _ _ Hr) as (u & w & -> & _). exfalso. apply Hback. rewrite Hxy. set_solver.
      * apply found_spec. eauto.
    + destruct Hin as (x & a & b & y & Hp & Hs & -> & Ha & Hb). simpl in Hp, Hs. subst front back.
      destruct Hfront as [Hnil|(front' & Hend)]; [apply app_nil in Hnil as [_ ->]; done|].
      destruct a as [|c a _] using rev_ind; [done|]. rewrite app_assoc in Hend. apply app_inj_tail in Hend as [<- ->].
      rewrite <-app_assoc. simpl. rewrite rposition_app by set_solver.
      replace (length a + 1) with (length (a ++ [47%N])) by (by rewrite length_app).
      replace (a ++ 47%N :: b) with ((a ++ [47%N]) ++ b) by (by rewrite <-app_assoc).
      rewrite take_app_length, drop_app_length, andb_true_iff, ends_with_iff, starts_with_iff. split; [by exists x|by exists y].
  - intros [(x & y & ->)%found_spec|Hf]; [apply found_spec; exists x, (y ++ back); by rewrite <-!app_assoc|].
    destruct (rposition 47 needle) as [i|].
    + apply andb_true_iff in Hf as [(x & ->)%ends_with_iff (y & ->)%starts_with_iff]. apply found_spec. exists x, y.
      rewrite <-app_assoc. f_equal. rewrite app_assoc. by rewrite take_drop.
    + apply found_spec in Hf as (x & y & ->). apply found_spec. exists (front ++ x), y. by rewrite <-!app_assoc.
Qed.

Section paths.
#[local] Opaque chunk_length.
Context `{Chrono, Pcre, MemmemLaws, SlashUnicode, JsonShapeLaws} {B : Type} `{RoaringLaws B} {Sec : Type}.
Notation EntryTable := (EntryTable B Sec).
Notation EntryChunk := (EntryChunk Sec).
Implicit Types (tb : EntryTable) (rows : list IndexedFile) (c : EntryChunk) (mode : PathTextMode).

Definition path_found (finder : Finder) mode (row : IndexedFile) : bool :=
  found (finder_needle finder) (utf8 (path_normalize mode (row_path (path_column mode) row))).
Definition path_memo_ok c finder mode (memo : PathMemo) : Prop :=
  (∀ r state, parents memo !! ref_key r = Some state → parent_state c finder mode r = Some state) ∧
  ∀ r state, last_parent memo = Some (r, state) → parent_state c finder mode r = Some state.

Lemma ref_key_inj r r' : ref_key r = ref_key r' → r = r'.
Proof. destruct r, r'. by intros [= -> ->]. Qed.
(** The memo never changes an answer. *)
Lemma memo_state_spec c finder mode memo r state :
  path_memo_ok c finder mode memo → parent_state c finder mode r = Some state →
  ∃ memo', memo_state c finder mode memo r = Some (state, memo') ∧ path_memo_ok c finder mode memo'.
Proof.
  intros [Hparents Hlast] Hstate. unfold memo_state.
  assert (Hfind : (match parents memo !! ref_key r with Some state => Some state | None => parent_state c finder mode r end) = Some state).
  { destruct (parents memo !! ref_key r) as [s|] eqn:E; [|done]. apply Hparents in E. congruence. }
  assert (Hnew : path_memo_ok c finder mode {| parents := <[ref_key r := state]> (parents memo); last_parent := Some (r, state) |}).
  { split; simpl; [|by intros ? ? [= <- <-]]. intros r' s'.
    destruct (decide (ref_key r = ref_key r')) as [E|E].
    - rewrite E, lookup_insert_eq. intros [= <-]. by apply ref_key_inj in E as <-.
    - rewrite lookup_insert_ne by done. apply Hparents. }
  rewrite Hfind. cbn [mbind option_bind]. destruct (last_parent memo) as [[r' s']|] eqn:E; [|by eexists].
  case_decide as Heq; [|by eexists]. subst r'. specialize (Hlast r s' eq_refl).
  assert (s' = state) as -> by congruence. exists memo. split; [done|]. split; [done|].
  intros r'' s''. rewrite E. by intros [= <- <-].
Qed.
Lemma match_slot_spec c b finder mode start memo (result : RunBitmapBuilder B) slot row :
  chunk_ok c b → b !! (N.to_nat slot - start) = Some row → path_memo_ok c finder mode memo →
  ∃ memo', match_slot c finder mode start (memo, result) slot =
      Some (memo', if path_found finder mode row then Bitmap.insert result slot else result) ∧
    path_memo_ok c finder mode memo'.
Proof.
  intros [_ Hok] Hrow Hmemo.
  destruct (Forall2_lookup_r _ _ _ _ _ (Hok (FP (path_column mode))) Hrow) as (p & Hp & front & back & Hfront & Hback & Hsplit).
  unfold match_slot. rewrite Hp. cbn [mbind option_bind].
  destruct (path_normalize_halves mode _ _ _ Hsplit) as (Hjoin & Hnone & Hends).
  set (P := utf8 (path_normalize mode front)). set (S_ := utf8 (path_normalize mode back)).
  assert (Hfound : path_found finder mode row = found (finder_needle finder) P ||
    match rposition 47 (finder_needle finder) with
    | None => found (finder_needle finder) S_
    | Some i => ends_with (take (i + 1) (finder_needle finder)) P && starts_with (drop (i + 1) (finder_needle finder)) S_
    end).
  { unfold path_found. rewrite Hjoin, utf8_app. apply found_in_halves.
    - intros Hin. by apply Hnone, utf8_slash.
    - destruct Hends as [E|(a' & E)]; [left|right]; unfold P; rewrite E; [done|]. exists (utf8 a'). by rewrite utf8_app. }
  set (state := if found (finder_needle finder) P then 2
        else match needle_split finder with
             | None => 1
             | Some split => if ends_with (take split (finder_needle finder)) P then 1 else 0
             end).
  assert (Hstate : parent_state c finder mode (prefix p) = Some state).
  { unfold parent_state, text_at. rewrite Hfront. cbn [mbind option_bind]. by rewrite finds_found. }
  destruct (memo_state_spec c finder mode memo _ _ Hmemo Hstate) as (memo' & -> & Hmemo').
  cbn [mbind option_bind]. exists memo'. split; [|done].
  assert (Hsuffix : suffix_matches c finder mode (suffix p) = Some (match needle_split finder with
        | Some split => starts_with (drop split (finder_needle finder)) S_
        | None => found (finder_needle finder) S_ end)).
  { unfold suffix_matches, text_at. rewrite Hback. cbn [mbind option_bind]. by rewrite finds_found. }
  assert (Hmatched : (if state =? 2 then Some true
     else if state =? 1 then suffix_matches c finder mode (suffix p) else Some false) = Some (path_found finder mode row)).
  { rewrite Hfound, Hsuffix. unfold state, needle_split. destruct (found _ P); [done|]. simpl.
    destruct (rposition 47 _) as [i|]; simpl; [|done]. by destruct (ends_with _ P). }
  by rewrite Hmatched.
Qed.
Lemma match_slots_spec c b finder mode start slots memo (result : RunBitmapBuilder B) rows :
  chunk_ok c b → path_memo_ok c finder mode memo →
  (∀ slot, slot ∈ slots → ∃ row, b !! (N.to_nat slot - start) = Some row ∧ rows !! N.to_nat slot = Some row) →
  ∃ memo', fold_option (match_slot c finder mode start) slots (memo, result) =
    Some (memo', foldl Bitmap.insert result
      (filter (λ slot, from_option (path_found finder mode) false (rows !! N.to_nat slot) = true) slots)).
Proof.
  intros Hok. revert memo result. induction slots as [|slot slots IH]; intros memo result Hmemo Hrows; [by eexists|].
  destruct (Hrows slot) as (row & Hrow & Hrow'); [left|].
  destruct (match_slot_spec c b finder mode start memo result slot row Hok Hrow Hmemo) as (memo1 & Hm & Hmemo1).
  destruct (IH memo1 (if path_found finder mode row then Bitmap.insert result slot else result)) as (memo2 & Hfold); [done|by intros; apply Hrows; right|].
  exists memo2. cbn [fold_option]. rewrite Hm. cbn [mbind option_bind]. rewrite Hfold, filter_cons, Hrow'. simpl.
  destruct (path_found finder mode row); [by rewrite decide_True|by rewrite decide_False].
Qed.
(** The slots of a block. *)
Lemma block_slots (blocks : list (list IndexedFile)) i b slot :
  full blocks → blocks !! i = Some b →
  (i * chunk_length ≤ slot < i * chunk_length + length b ↔ ∃ row, concat blocks !! slot = Some row ∧ slot / chunk_length = i) ∧
  ∀ j, j < length b → concat blocks !! (i * chunk_length + j) = b !! j.
Proof.
  pose proof chunk_length_eq as Hc. intros Hfull Hb.
  destruct (proj1 (full_iff blocks) Hfull i b Hb) as [Hlen _].
  assert (Hdiv : ∀ j, j < chunk_length → (i * chunk_length + j) / chunk_length = i ∧ (i * chunk_length + j) mod chunk_length = j).
  { intros j Hj. rewrite Nat.add_comm, Nat.div_add, Nat.Div0.mod_add, Nat.div_small, Nat.mod_small by lia. lia. }
  assert (Hget : ∀ j, j < length b → concat blocks !! (i * chunk_length + j) = b !! j).
  { intros j Hj. rewrite full_lookup by done. destruct (Hdiv j) as [-> ->]; [lia|]. by rewrite Hb. }
  split; [|done]. split.
  - intros Hs. replace slot with (i * chunk_length + (slot - i * chunk_length)) by lia.
    destruct (lookup_lt_is_Some_2 b (slot - i * chunk_length)) as [row Hrow]; [lia|].
    exists row. rewrite Hget by lia. split; [done|]. apply Hdiv. lia.
  - intros (row & Hrow & Hi). rewrite full_lookup in Hrow by done. rewrite Hi, Hb in Hrow. apply lookup_lt_Some in Hrow.
    pose proof (Nat.div_mod slot chunk_length ltac:(lia)) as Hs. rewrite Hi in Hs. lia.
Qed.
Lemma u32_of_small n : (N.of_nat n ≤ u32_max)%N → u32_of n = N.of_nat n.
Proof. intros Hn. unfold u32_of. apply N.mod_small. unfold u32_max in Hn. lia. Qed.
Lemma match_paths_spec n k tb rows finder mode (live : B) :
  table_ok n k tb rows → (N.of_nat (length rows) ≤ u32_max)%N →
  (∀ x, bm_contains x live = true → N.to_nat x < length rows) →
  ∃ r, cancels_to (match_paths tb finder mode live) (Ok r) ∧
    ∀ x, bm_contains x r = bm_contains x live && from_option (path_found finder mode) false (rows !! N.to_nat x).
Proof.
  intros (blocks & -> & Hfull & Hf & Hlen & _) Hmax Hlive. pose proof chunk_length_eq as Hc.
  set (hit := λ x, from_option (path_found finder mode) false (concat blocks !! N.to_nat x)).
  destruct (cancels_fold_inv (match_block finder mode live)
    (λ i result, ∃ slots, result = foldl Bitmap.insert builder_default slots ∧
       ∀ x, x ∈ slots ↔ bm_contains x live = true ∧ N.to_nat x / chunk_length < i ∧ hit x = true)
    (imap pair (chunks tb)) builder_default) as (result & Hr & slots & -> & Hslots).
  - exists []. split; [done|]. intros x. rewrite elem_of_nil. split; [done|]. intros (_ & ? & _). lia.
  - intros i [i' c] result Hi (slots & -> & Hslots). rewrite list_lookup_imap in Hi.
    apply fmap_Some in Hi as (c' & Hi & Heq). injection Heq as -> ->. rename c' into c.
    destruct (Forall2_lookup_l _ _ _ _ _ Hf Hi) as (b & Hb & Hok & _).
    destruct (block_slots blocks i b 0 Hfull Hb) as [_ Hget].
    assert (Hend : i * chunk_length + length b ≤ length (concat blocks)).
    { destruct (proj1 (full_iff blocks) Hfull i b Hb) as [Hb0 _].
      assert (i * chunk_length + (length b - 1) < length (concat blocks)); [|lia].
      apply lookup_lt_is_Some. rewrite Hget by lia. apply lookup_lt_is_Some. lia. }
    assert (Hrange : ∀ x, x ∈ bm_range (u32_of (i * chunk_length)) (Some (u32_of (i * chunk_length + chunk_len c))) live ↔
      bm_contains x live = true ∧ N.to_nat x / chunk_length = i).
    { intros x. rewrite bm_range_spec. simpl. rewrite (chunk_len_spec _ _ Hok), !u32_of_small by lia.
      destruct (block_slots blocks i b (N.to_nat x) Hfull Hb) as [Hin _].
      split; intros [Hx Hrest]; (split; [done|]).
      - apply proj1 in Hin. destruct Hin as (row & _ & Hi'); [lia|done].
      - destruct (lookup_lt_is_Some_2 (concat blocks) (N.to_nat x)) as [row Hrow]; [by apply Hlive|].
        apply proj2 in Hin. specialize (Hin (ex_intro _ row (conj Hrow Hrest))). lia. }
    destruct (match_slots_spec c b finder mode (i * chunk_length)
      (bm_range (u32_of (i * chunk_length)) (Some (u32_of (i * chunk_length + chunk_len c))) live)
      {| parents := ∅; last_parent := None |} (foldl Bitmap.insert builder_default slots) (concat blocks)) as (memo & Hmemo);
      [done|by split| |].
    { intros x (Hx & Hxi)%Hrange. destruct (lookup_lt_is_Some_2 (concat blocks) (N.to_nat x)) as [row Hrow]; [by apply Hlive|].
      exists row. split; [|done]. destruct (block_slots blocks i b (N.to_nat x) Hfull Hb) as [Hin _].
      apply proj2 in Hin. specialize (Hin (ex_intro _ row (conj Hrow Hxi))).
      rewrite <-(Hget (N.to_nat x - i * chunk_length)) by lia. by replace (i * chunk_length + (N.to_nat x - i * chunk_length)) with (N.to_nat x) by lia. }
    eexists. split.
    + eapply cancels_bind; [apply cancels_check|]. eapply cancels_bind; [by apply cancels_some|]. apply cancels_ret.
    + eexists (slots ++ filter (λ x, hit x = true) _). split; [rewrite foldl_app; reflexivity|]. intros x.
      rewrite elem_of_app, Hslots, list_elem_of_filter, Hrange. split.
      * intros [(Hx & Hlt & Hh)|(Hh & Hx & Hi')]; split_and!; try done; lia.
      * intros (Hx & Hlt & Hh). destruct (decide (N.to_nat x / chunk_length = i)); [right|left]; split_and!; try done; lia.
  - eexists. split; [eapply cancels_bind; [exact Hr|apply cancels_ret]|]. intros x. apply eq_true_iff_eq.
    rewrite builder_collects, Hslots, length_imap, andb_true_iff. split; [by intros (? & _ & ?)|].
    intros [Hx Hh]. split_and!; [done| |done]. apply Hlive in Hx.
    destruct (lookup_lt_is_Some_2 (concat blocks) (N.to_nat x)) as [row Hrow]; [done|].
    rewrite full_lookup in Hrow by done. apply bind_Some in Hrow as (b & Hb & _). apply lookup_lt_Some in Hb.
    by rewrite (Forall2_length _ _ _ Hf).
Qed.

(** A matcher as [TextMatcher::new] makes it, in a path query. *)
Definition path_query (q : Query B) : Prop :=
  match q with
  | QTerm (TMatched (TField Path) m) => finder_needle (QuerySyntax.finder m) = utf8 (needle m) ∧ valid_text (needle m)
  | _ => True
  end.
Definition valid_paths (row : IndexedFile) : Prop := ∀ f, valid_text (row_path f row).

Lemma found_text needle_ t :
  valid_text needle_ → valid_text t → found (utf8 needle_) (utf8 t) = true ↔ ∃ l r, t = l ++ needle_ ++ r.
Proof.
  intros Hn Ht. rewrite found_spec. split.
  - intros (x & y & Hxy). destruct (decide (needle_ = [])) as [->|Hne]; [by exists [], t|].
    destruct (utf8_occurrence t needle_ x y Ht Hn Hne Hxy) as (l & r & -> & _). by exists l, r.
  - intros (l & r & ->). exists (utf8 l), (utf8 r). by rewrite !utf8_app.
Qed.
Lemma plain_matcher_found (m : TextMatcher) t :
  finder_needle (QuerySyntax.finder m) = utf8 (needle m) → valid_text (needle m) → valid_text t →
  whole (options m) || QuerySyntax.prefix (options m) || QuerySyntax.suffix (options m) || start (options m) || end_ (options m) = false →
  matches_normalized m t = found (finder_needle (QuerySyntax.finder m)) (utf8 t).
Proof.
  intros Hf Hn Ht Ho. rewrite !orb_false_iff in Ho. destruct Ho as ((((Hw & Hp) & Hs) & Hst) & He).
  apply eq_true_iff_eq. rewrite (proj2 (matches_normalized_spec m t Hf Hn Ht)), Hw, Hf, found_text by done.
  unfold occurrence_ok. rewrite Hp, Hs, Hst, He. simpl. split; [intros (l & r & ? & _)|intros (l & r & ?)]; by exists l, r.
Qed.
Lemma path_query_denotes q finder mode (row : IndexedFile) content :
  path_substring (B := B) q = Some (finder, mode) → path_query q → valid_paths row →
  denote q row content = Ok (path_found finder mode row).
Proof.
  intros Hq Hm Hv. destruct q as [| | | |[[] needle_ f []| | | | | | | | | | | |[[]| | |] m]]; try done; simpl in Hq.
  - injection Hq as <- <-. change (term_value (TText Path needle_ f true) row content = Ok (path_found f (Sensitive true) row)).
    unfold term_value. cbn [term_matches]. rewrite ev_with_scratch_value. cbn [entry_text path indexed_file_entry view_of].
    f_equal. apply finds_found.
  - injection Hq as <- <-. change (term_value (TText Path needle_ f false) row content = Ok (path_found f Search row)).
    unfold term_value. simpl. rewrite contains_bytes. done.
  - destruct (bool_decide (matcher_regex m = None) && _ && _ && _ && _ && _) eqn:Ho; [|done]. injection Hq as <- <-.
    rewrite !andb_true_iff, !negb_true_iff, bool_decide_eq_true in Ho. destruct Ho as (((((Hr & Hp) & Hs) & Hw) & Hst) & He).
    destruct Hm as [Hf Hn].
    assert (Hplain : ∀ t, valid_text t → matches_normalized m t = found (finder_needle (QuerySyntax.finder m)) (utf8 t)).
    { intros t Ht. apply plain_matcher_found; [done..|]. by rewrite Hw, Hp, Hs, Hst, He. }
    change (term_value (TMatched (TField Path) m) row content =
      Ok (path_found (QuerySyntax.finder m) (if sensitive (options m) then Sensitive (diacritics (options m))
        else if diacritics (options m) then Folded else Search) row)).
    unfold term_value. cbn [term_matches]. unfold matches_file. rewrite Hr, bool_decide_true by done.
    destruct (sensitive (options m)) eqn:Es; cbn [andb negb]; rewrite ev_with_scratch_value.
    + cbn [entry_text path indexed_file_entry view_of]. unfold matches. rewrite Hr, Es, andb_true_r.
      unfold path_found. simpl. change (view_bytes (view_of (i_path row))) with (i_path row).
      pose proof (path_normalize_valid (Sensitive (diacritics (options m))) _ (Hv FPath)) as Hvalid. simpl in Hvalid.
      destruct (is_ascii (i_path row)) eqn:Ea; [by rewrite Hplain|].
      unfold normalized. by rewrite Ea, Es, Hplain.
    + rewrite decide_False by done.
      destruct (diacritics (options m)); unfold path_found; simpl.
      * rewrite Hplain; [done|]. apply (Hv FFoldedPath).
      * rewrite Hplain; [done|]. apply (Hv FSearchPath).
Qed.
Lemma path_scan_spec n k tb rows q finder mode (live : B) :
  table_ok n k tb rows → (N.of_nat (length rows) ≤ u32_max)%N → Forall valid_paths rows →
  (∀ x, bm_contains x live = true → N.to_nat x < length rows) →
  path_substring (B := B) q = Some (finder, mode) → path_query q →
  ∃ r, cancels_to (match_paths tb finder mode live) (Ok r) ∧
    (∀ x, bm_contains x r = true → bm_contains x live = true) ∧
    ∀ x row content, bm_contains x live = true → rows !! N.to_nat x = Some row → denote q row content = Ok (bm_contains x r).
Proof.
  intros Htb Hmax Hv Hlive Hq Hpq. destruct (match_paths_spec n k tb rows finder mode live Htb Hmax Hlive) as (r & Hr & Hspec).
  exists r. split_and!; [done|intros x; rewrite Hspec, andb_true_iff; tauto|]. intros x row content Hx Hrow.
  rewrite (path_query_denotes q finder mode row content Hq Hpq (Forall_lookup_1 _ _ _ _ Hv Hrow)). by rewrite Hspec, Hx, Hrow.
Qed.
End paths.
