(* ===== verification/SnapshotData.v ===== *)
(** * core/src/index_store.rs: a snapshot and how it is built

    A snapshot is a table of rows with everything derived from it: the slots
    of the persistent ids, the set of live slots, posting maps, numeric
    columns and sorted orders.  Here are its data, the preparation of a row
    ([IndexedFile::prepare]), and the construction of a snapshot from rows
    ([from_rows], [build_prepared_indexes]); the invariant [snapshot_ok] says
    what each part is in terms of the rows.

    A row of the table is read as the owned row it stands for ([view_row]);
    [None] is a panic.  Not part of the model: the pool of shared labels and
    the shared storage of unchanged parts (values here), and the caches of
    pages and matches. *)
From S2P Require Import Prelude Bitmap OrderedMerge SlotOrder NaturalOrder Text TextView Float QueryLex QueryNumber QuerySyntax.
From S2P Require Import FileEntry ResultOrder SlotSort SnapshotOrders SnapshotSort FileSlots PostingMap.
From S2P Require MetadataPostings NumericColumns NameColumn.
From S2P Require Import Columns IntegerColumn TextPool EntryChunk EntryPool EntryCompact EntryTable NumericColumns.

(** ** Rows *)

Section rows.
Context `{Json, Unicode}.
(** [shared_search_fold] *)
Definition shared_search_fold (t folded : text) : text :=
  if is_ascii t then folded
  else let searchable := fold_search t in if decide (searchable = folded) then folded else searchable.
Definition with_derived (f : IndexedFile) (folded_name_ folded_extension_ folded_path_ search_name_ search_path_ parent_ : text) :
    IndexedFile :=
  {| i_id := i_id f; i_size := i_size f; i_modified := i_modified f; i_created := i_created f;
     i_changed := i_changed f; i_modified_ns := i_modified_ns f; i_changed_ns := i_changed_ns f;
     i_file_id := i_file_id f; i_parent_id := i_parent_id f; i_flags := i_flags f;
     i_path := i_path f; i_name := i_name f; i_folded_name := folded_name_; i_folded_path := folded_path_;
     i_search_name := search_name_; i_search_path := search_path_; i_parent := parent_;
     i_extension := i_extension f; i_folded_extension := folded_extension_; i_volume_id := i_volume_id f;
     i_is_dir := i_is_dir f; i_is_symlink := i_is_symlink f; i_content_indexed := i_content_indexed f;
     i_properties := i_properties f |}.
Definition prepare (f : IndexedFile) : IndexedFile :=
  let folded_name_ := fold (i_name f) in
  let folded_path_ := fold (i_path f) in
  with_derived f folded_name_ (fold (i_extension f)) folded_path_
    (shared_search_fold (i_name f) folded_name_) (shared_search_fold (i_path f) folded_path_)
    (default [] (path_parent (i_path f))).
(** The columns of the row before are taken over where their sources agree. *)
Definition prepare_replacement (f : IndexedFile) (previous : option IndexedFile) : IndexedFile :=
  match previous with
  | None => prepare f
  | Some p =>
    let '(folded_name_, search_name_) :=
      if decide (i_name f = i_name p) then (i_folded_name p, i_search_name p)
      else (fold (i_name f), shared_search_fold (i_name f) (fold (i_name f))) in
    let folded_extension_ :=
      if decide (i_extension f = i_extension p) then i_folded_extension p else fold (i_extension f) in
    let '(folded_path_, search_path_, parent_) :=
      if decide (i_path f = i_path p) then (i_folded_path p, i_search_path p, i_parent p)
      else
        let parent_ := path_parent (i_path f) in
        (fold (i_path f), shared_search_fold (i_path f) (fold (i_path f)),
         if decide (parent_ = Some (i_parent p)) then i_parent p else default [] parent_) in
    with_derived f folded_name_ folded_extension_ folded_path_ search_name_ search_path_ parent_
  end.
End rows.

(** [compare_names], and on slots as in [slot_compare] *)
Definition compare_names `{FileEntry F} (a b : F) : comparison :=
  then_with (natural_cmp_folded (utf8 (folded_name a)) (utf8 (folded_name b)))
    (then_with (path_cmp (path a) (path b)) (Z.compare (id a) (id b))).
Definition slot_compare_names `{FileEntry F} (row : N → option F) (a b : N) : comparison :=
  match row a, row b with
  | Some x, Some y => compare_names x y
  | None, None => Eq
  | None, Some _ => Lt
  | Some _, None => Gt
  end.

(** ** The snapshot *)

Section snapshot.
Context {B : Type} `{Roaring B, RoaringBytes B} `{JsonShape, Unicode} {Sec : Type} `{!UnstableSort}.
Notation SlotOrder := (SlotOrder Sec).
Notation EntryTable := (EntryTable B Sec).

Record SnapshotData := {
  entries : EntryTable;
  file_slots : FileSlots;
  sn_live : B;
  trigrams : PostingMap B;
  sn_name_order : SlotOrder;
  sn_path_order : SlotOrder;
  sn_path_ties : B;
  metadata_postings : MetadataPostings.MetadataPostings (B := B);
  numeric_columns : NumericColumns B;
  name_column : NameColumn.NameColumn B Sec;
  generation : N;
  content_revision : N;
  cached_orders : list (ResultOrder * SlotOrder);   (* [cache.orders()] *)
}.

(** [entries.get(slot)] and [entries.at(slot)], as owned rows *)
Definition old_row (tb : EntryTable) (slot : nat) : option (option IndexedFile) :=
  v ← get tb slot;
  match v with None => Some None | Some v => r ← view_row v; Some (Some r) end.
Definition row_of (tb : EntryTable) (slot : N) : option IndexedFile := v ← at_ tb (N.to_nat slot); view_row v.
Definition id_at (tb : EntryTable) (slot : nat) : option Z :=
  v ← at_ tb slot; view_i64 (view_chunk v) FId (view_slot v).
Definition slot_for_id (sn : SnapshotData) (id : Z) : option (option nat) :=
  slots_get (id_at (entries sn)) (file_slots sn) id.
Definition snapshot_len (sn : SnapshotData) : nat := bm_len (sn_live sn).
Definition visible_entries (sn : SnapshotData) : option (list IndexedFile) :=
  mapM (row_of (entries sn)) (bm_iter (sn_live sn)).

(** *** Construction *)

(** [trigrams.entry(..).or_default()] and insert, in a [HashMap] *)
Definition insert_gram (slot : N) (m : gmap bytes B) (gram : bytes) : gmap bytes B :=
  partial_alter (λ old, Some (bm_insert slot (default bm_new old))) gram m.
Definition row_trigrams (m : gmap bytes B) (slot_row : N * IndexedFile) : gmap bytes B :=
  foldl (insert_gram slot_row.1) m (windows 3 (utf8 (i_search_name slot_row.2))).
Definition numbered {A} (l : list A) : list (N * A) := imap (λ slot row, (N.of_nat slot, row)) l.
Definition build_trigrams (rows : list IndexedFile) : gmap bytes B := foldl row_trigrams ∅ (numbered rows).
(** [(0..entries.len() as u32).collect()] *)
Definition all_slots (tb : EntryTable) : list N := N.of_nat <$> seq 0 (table_len tb).
Definition build_prepared_indexes (tb : EntryTable) (grams : gmap bytes B) (generation_ : N) : option SnapshotData :=
  slots ← slots_from_entries (id_at tb) (table_len tb);
  slots ← ok slots;
  rows ← mapM view_row (iter tb);
  let postings := MetadataPostings.build (numbered rows) in
  numeric ← build tb;
  let name_order_ := from_vec (sort_unstable_by (slot_compare_names (row_of tb)) (all_slots tb)) in
  let path_order_ := built_order (row_of tb) order_path (all_slots tb) in
  Some {| entries := tb; file_slots := slots; sn_live := foldl (λ b slot, bm_insert slot b) bm_new (all_slots tb);
          trigrams := pm_from 0 (map_to_list grams); sn_name_order := name_order_; sn_path_order := path_order_;
          sn_path_ties := built_ties (row_of tb) (to_vec path_order_); metadata_postings := postings;
          numeric_columns := numeric; name_column := NameColumn.name_column_build tb; generation := generation_;
          content_revision := 0; cached_orders := [] |}.
Definition build_compact_rows (tb : EntryTable) (generation_ : N) : option SnapshotData :=
  rows ← mapM view_row (iter tb);
  build_prepared_indexes tb (build_trigrams rows) generation_.
Definition prepare_rows (rows : list (text + IndexedFile)) : option (text + EntryTable) :=
  table_from_rows ((λ row, match row with inr row => inr (prepare row) | inl e => inl e end) <$> rows).
(** The error of a row, or the snapshot; [None] is a panic. *)
Definition snapshot_from_rows (rows : list (text + IndexedFile)) (generation_ : N) : option (text + SnapshotData) :=
  tb ← prepare_rows rows;
  match tb with
  | inl e => Some (inl e)
  | inr tb => sn ← build_compact_rows tb generation_; Some (inr sn)
  end.
(** [SnapshotData::default], every part empty *)
Definition snapshot_default : SnapshotData :=
  {| entries := table_default; file_slots := slots_default; sn_live := bm_new; trigrams := pm_default;
     sn_name_order := from_vec []; sn_path_order := from_vec []; sn_path_ties := bm_new;
     metadata_postings := MetadataPostings.mp_default; numeric_columns := columns_default;
     name_column := NameColumn.name_column_build table_default; generation := 0; content_revision := 0; cached_orders := [] |}.

(** The orders of the snapshot, as [result_order] reads them. *)
Definition ordered_of (sn : SnapshotData) : Ordered IndexedFile :=
  {| SnapshotSort.row := row_of (entries sn); SnapshotSort.live := sn_live sn;
     SnapshotSort.name_order := sn_name_order sn; SnapshotSort.path_order := sn_path_order sn;
     SnapshotSort.path_ties := sn_path_ties sn |}.
End snapshot.
Arguments SnapshotData B {_} Sec.

(** ** What a snapshot stands for *)

(** A row as [prepare] leaves it, of a size the table takes, and of valid text. *)
Definition sound_row `{JsonShape, Unicode} (row : IndexedFile) : Prop :=
  row_small row ∧ MetadataPostings.valid_row row ∧ prepare row = row.

Section meaning.
Context {B : Type} `{RoaringLaws B} `{!RoaringBytes B, !RoaringBytesLaws B} `{JsonShapeLaws, Unicode} {Sec : Type} `{!UnstableSort}.
Notation SnapshotData := (SnapshotData B Sec).
Notation EntryTable := (EntryTable B Sec).
Implicit Types (rows : list IndexedFile) (live : B) (tb : EntryTable) (sn : SnapshotData).

(** The rows of the live slots, by slot and by id. *)
Definition live_rows rows live : gmap N IndexedFile :=
  list_to_map (omap (λ slot, pair slot <$> rows !! N.to_nat slot) (bm_iter live)).
Definition visible rows live : gmap Z IndexedFile :=
  list_to_map ((λ row, (i_id row, row)) <$> omap (λ slot, rows !! N.to_nat slot) (bm_iter live)).
(** The live slots are listed under their trigrams. *)
Definition trigrams_ok (m : PostingMap B) (live_ : gmap N IndexedFile) : Prop :=
  pm_wf 0 m ∧ ∀ key slot, has 0 m key slot = from_option (λ r, gram 3 (i_search_name r) key) false (live_ !! slot).
(** Every part of the snapshot against its rows; the table has room for [n]
    more bytes of text and [k] more labels in any block. *)
Record snapshot_ok (n k : nat) sn rows : Prop := {
  so_table : table_ok n k (entries sn) rows;
  so_rows : Forall sound_row rows;
  so_count : (N.of_nat (length rows) ≤ u32_max)%N;
  so_slots : slots_ok (file_slots sn) (i_id <$> rows);
  so_live x : bm_contains x (sn_live sn) = true → N.to_nat x < length rows;
  so_trigrams : trigrams_ok (trigrams sn) (live_rows rows (sn_live sn));
  so_metadata : MetadataPostings.tracks (metadata_postings sn) (live_rows rows (sn_live sn));
  so_numeric : numeric_ok (numeric_columns sn) rows;
  so_clean : numeric_clean (numeric_columns sn);
  so_names : name_column sn = NameColumn.name_column_build (entries sn);
  so_orders : orders_ok (ordered_of sn);
  so_cached order o : (order, o) ∈ cached_orders sn → sorted_order (row_of (entries sn)) order (sn_live sn) o;
}.

(** *** Reading *)

Lemma row_of_spec n k tb rows slot : table_ok n k tb rows → row_of tb slot = rows !! N.to_nat slot.
Proof. intros Htb. destruct (get_spec n k tb rows (N.to_nat slot) Htb) as (v & Hv & Hr). unfold row_of, at_. by rewrite Hv. Qed.
Lemma old_row_spec n k tb rows slot : table_ok n k tb rows → old_row tb slot = Some (rows !! slot).
Proof.
  intros Htb. destruct (get_spec n k tb rows slot Htb) as (v & Hv & Hr). unfold old_row. rewrite Hv. cbn [mbind option_bind].
  destruct v as [v|]; cbn [mbind option_bind] in Hr; [|by rewrite <-Hr]. rewrite Hr.
  destruct (rows !! slot) eqn:Hs; [done|]. apply lookup_ge_None in Hs.
  destruct Htb as (_ & _ & _ & _ & Hlen & _). unfold get in Hv. destruct (Nat.ltb_spec slot (table_len tb)); [lia|done].
Qed.
Lemma row_at_id c slot row : row_at (Sec := Sec) c slot = Some row → view_i64 c FId slot = Some (i_id row).
Proof.
  unfold row_at. intros (v & Hv & Hrow)%bind_Some. rewrite Hv.
  repeat (apply bind_Some in Hrow as (? & _ & Hrow)). by injection Hrow as <-.
Qed.
Lemma id_at_spec n k tb rows slot : table_ok n k tb rows → id_at tb slot = (i_id <$> rows) !! slot.
Proof.
  intros Htb. pose proof (old_row_spec n k tb rows slot Htb) as Hold. unfold old_row in Hold. unfold id_at, at_.
  rewrite list_lookup_fmap. destruct (get tb slot) as [[v|]|]; cbn [mbind option_bind] in *; [|by injection Hold as <-|done].
  destruct (view_row v) as [r|] eqn:Hr; [|done]. injection Hold as <-. by apply row_at_id.
Qed.
Lemma slot_lookup n k tb rows fs id :
  table_ok n k tb rows → slots_ok fs (i_id <$> rows) →
  ∃ r, slots_get (id_at tb) fs id = Some r ∧
    match r with Some slot => ∃ row, rows !! slot = Some row ∧ i_id row = id | None => id ∉ i_id <$> rows end.
Proof.
  intros Htb Hfs. rewrite (slots_get_ext _ (λ i, (i_id <$> rows) !! i) fs id) by (intros i; by apply (id_at_spec n k)).
  destruct (slots_get_spec fs _ id Hfs) as (r & Hr & Hspec). exists r. split; [done|].
  destruct r as [slot|]; [|done]. apply list_lookup_fmap_Some in Hspec as (row & Hrow & Hid). by exists row.
Qed.

Lemma live_rows_lookup rows live slot :
  live_rows rows live !! slot = if bm_contains slot live then rows !! N.to_nat slot else None.
Proof.
  unfold live_rows. apply option_eq. intros row. rewrite <-elem_of_list_to_map.
  - rewrite list_elem_of_omap. split.
    + intros (s & Hs & (r & Hr & [= <- <-])%fmap_Some). by rewrite (proj2 (contains_iter slot live) Hs).
    + destruct (bm_contains slot live) eqn:E; [|done]. intros Hr. exists slot. rewrite <-contains_iter. by rewrite Hr.
  - assert (Hsub : ∀ l, NoDup l → NoDup (omap (λ slot, pair slot <$> rows !! N.to_nat slot) l).*1 ∧
      ∀ s, s ∈ (omap (λ slot, pair slot <$> rows !! N.to_nat slot) l).*1 → s ∈ l).
    { induction l as [|s l IH]; intros Hnd; [split; [constructor|by intros s ?%elem_of_nil]|].
      apply NoDup_cons in Hnd as [Hs Hnd]. destruct (IH Hnd) as [IH1 IH2]. simpl.
      destruct (rows !! N.to_nat s); simpl; [|split; [done|intros s' ?; right; auto]].
      split; [constructor; [intros ?; auto|done]|]. intros s' [->|?]%elem_of_cons; [left|right; auto]. }
    apply Hsub, bm_iter_NoDup.
Qed.
Lemma visible_lookup rows live id row :
  NoDup (i_id <$> rows) →
  visible rows live !! id = Some row ↔ ∃ slot, bm_contains slot live = true ∧ rows !! N.to_nat slot = Some row ∧ i_id row = id.
Proof.
  intros Hnd. unfold visible. rewrite <-elem_of_list_to_map.
  - rewrite list_elem_of_fmap. split.
    + intros (r & [= -> ->] & (s & Hs & Hr)%list_elem_of_omap). exists s. by rewrite contains_iter.
    + intros (s & Hs & Hr & <-). exists row. split; [done|]. apply list_elem_of_omap. exists s. by rewrite <-contains_iter.
  - rewrite <-list_fmap_compose. change (fst ∘ _) with i_id.
    assert (Hsub : ∀ l, NoDup l → NoDup (i_id <$> omap (λ slot, rows !! N.to_nat slot) l)).
    { induction l as [|s l IH]; intros Hl; [constructor|]. apply NoDup_cons in Hl as [Hs Hl]. simpl.
      destruct (rows !! N.to_nat s) as [r|] eqn:Er; [|by apply IH]. simpl. constructor; [|by apply IH].
      intros (r' & Hid & (s' & Hs' & Er')%list_elem_of_omap)%list_elem_of_fmap.
      assert (s = s') as ->; [|done]. apply N2Nat.inj. apply (NoDup_lookup (i_id <$> rows) _ _ (i_id r) Hnd);
        rewrite list_lookup_fmap; [by rewrite Er|by rewrite Er', Hid]. }
    apply Hsub, bm_iter_NoDup.
Qed.
Lemma table_rows_ok n k tb rows live :
  table_ok n k tb rows → NoDup (i_id <$> rows) → (∀ x, bm_contains x live = true → N.to_nat x < length rows) →
  rows_ok (row_of tb) live.
Proof.
  intros Htb Hnd Hlive. split.
  - intros s Hs. rewrite (row_of_spec n k tb rows) by done. by apply lookup_lt_is_Some_2, Hlive.
  - intros a b x y. rewrite !(row_of_spec n k tb rows) by done. intros Ha Hb Hid. apply N2Nat.inj.
    apply (NoDup_lookup (i_id <$> rows) _ _ (i_id x) Hnd); rewrite list_lookup_fmap, ?Ha, ?Hb; [done|].
    simpl. f_equal. symmetry. exact Hid.
Qed.

(** *** Construction *)

Definition gram_has (m : gmap bytes B) (key : bytes) (slot : N) : bool :=
  match m !! key with Some b => bm_contains slot b | None => false end.
Definition gram_filled (m : gmap bytes B) : Prop := ∀ key b, m !! key = Some b → bm_is_empty b = false.
Lemma insert_gram_spec slot m gram :
  (gram_filled m → gram_filled (insert_gram slot m gram)) ∧
  ∀ key s, gram_has (insert_gram slot m gram) key s = bool_decide (s = slot ∧ key = gram) || gram_has m key s.
Proof.
  unfold gram_filled, gram_has, insert_gram. split.
  - intros Hm key b. destruct (decide (gram = key)) as [->|Hne].
    + rewrite lookup_partial_alter_eq. intros [= <-]. apply (bm_not_empty _ slot). by rewrite contains_insert, N.eqb_refl.
    + rewrite lookup_partial_alter_ne by done. apply Hm.
  - intros key s. destruct (decide (gram = key)) as [->|Hne].
    + rewrite lookup_partial_alter_eq, contains_insert. f_equal.
      * destruct (N.eqb_spec s slot) as [->|]; [by rewrite bool_decide_true|by rewrite bool_decide_false by naive_solver].
      * destruct (m !! key); [done|apply contains_new].
    + rewrite lookup_partial_alter_ne by done. by rewrite bool_decide_false by naive_solver.
Qed.
Lemma row_trigrams_spec slot_row m :
  (gram_filled m → gram_filled (row_trigrams m slot_row)) ∧
  ∀ key s, gram_has (row_trigrams m slot_row) key s =
    bool_decide (s = slot_row.1) && gram 3 (i_search_name slot_row.2) key || gram_has m key s.
Proof.
  destruct slot_row as [slot row]. unfold row_trigrams. cbn [fst snd].
  assert (Hfold : ∀ l m, (gram_filled m → gram_filled (foldl (insert_gram slot) m l)) ∧
    ∀ key s, gram_has (foldl (insert_gram slot) m l) key s = bool_decide (s = slot) && bool_decide (key ∈ l) || gram_has m key s).
  { clear m. induction l as [|g l IH]; intros m; simpl; [split; [done|intros; by rewrite andb_false_r]|].
    destruct (IH (insert_gram slot m g)) as [IH1 IH2], (insert_gram_spec slot m g) as [Hi1 Hi2]. split; [auto|].
    intros key s. rewrite IH2, Hi2, orb_assoc. f_equal.
    apply eq_true_iff_eq. rewrite orb_true_iff, !andb_true_iff, !bool_decide_eq_true, elem_of_cons. tauto. }
  destruct (Hfold (windows 3 (utf8 (i_search_name row))) m) as [H1' H2']. split; [done|]. intros key s.
  rewrite H2'. by rewrite MetadataPostings.gram_windows by lia.
Qed.
Lemma numbered_lookup {A} (l : list A) s x : (s, x) ∈ numbered l ↔ l !! N.to_nat s = Some x.
Proof.
  unfold numbered. rewrite list_elem_of_lookup. split.
  - intros (i & Hi). rewrite list_lookup_imap in Hi. apply fmap_Some in Hi as (y & Hy & [= -> ->]). by rewrite Nat2N.id.
  - intros Hs. exists (N.to_nat s). rewrite list_lookup_imap, Hs. simpl. by rewrite N2Nat.id.
Qed.
Lemma numbered_NoDup {A} (l : list A) : NoDup (numbered l).*1.
Proof.
  apply NoDup_alt. intros i j s Hi Hj. rewrite !list_lookup_fmap in Hi, Hj. unfold numbered in *.
  rewrite !list_lookup_imap in Hi, Hj. destruct (l !! i), (l !! j); simpl in *; try done. simplify_eq. lia.
Qed.
Lemma build_trigrams_spec rows :
  gram_filled (build_trigrams (B := B) rows) ∧
  ∀ key s, gram_has (build_trigrams rows) key s = from_option (λ r, gram 3 (i_search_name r) key) false (rows !! N.to_nat s).
Proof.
  unfold build_trigrams.
  assert (Hfold : ∀ l (m : gmap bytes B), (gram_filled m → gram_filled (foldl row_trigrams m l)) ∧
    ∀ key s, gram_has (foldl row_trigrams m l) key s = true ↔
      gram_has m key s = true ∨ ∃ r, (s, r) ∈ l ∧ gram 3 (i_search_name r) key = true).
  { induction l as [|[slot r] l IH]; intros m; simpl.
    { split; [done|]. intros key s. split; [by left|]. intros [?|(? & ?%elem_of_nil & _)]; done. }
    destruct (IH (row_trigrams m (slot, r))) as [IH1 IH2], (row_trigrams_spec (slot, r) m) as [Hr1 Hr2]. split; [auto|].
    intros key s. rewrite IH2, Hr2, orb_true_iff, andb_true_iff, bool_decide_eq_true. simpl. split.
    - intros [[[-> Hg]|?]|(r' & ? & ?)]; [right; exists r; split; [left|done]|by left|right; exists r'; split; [by right|done]].
    - intros [?|(r' & [[= -> ->]|?]%elem_of_cons & ?)]; [auto|auto|right; by exists r']. }
  destruct (Hfold (numbered rows) ∅) as [Hf Hh]. split; [apply Hf; intros key b; by rewrite lookup_empty|].
  intros key s. apply eq_true_iff_eq. rewrite Hh. unfold gram_has. rewrite lookup_empty.
  setoid_rewrite numbered_lookup. destruct (rows !! N.to_nat s) as [r|]; simpl; naive_solver.
Qed.
Lemma pm_from_spec (m : gmap bytes B) :
  gram_filled m → pm_wf 0 (pm_from 0 (map_to_list m)) ∧ ∀ key s, has 0 (pm_from 0 (map_to_list m)) key s = gram_has m key s.
Proof.
  intros Hm. destruct (pm_from_list 0 ltac:(lia) (map_to_list m)) as [Hwf Hhas].
  - apply NoDup_fst_map_to_list.
  - apply Forall_forall. intros [key b] Hin%elem_of_map_to_list. by apply (Hm key).
  - split; [exact Hwf|]. intros key s. rewrite Hhas, list_to_map_to_list. done.
Qed.
Lemma slots_built n k tb rows :
  table_ok n k tb rows → (N.of_nat (length rows) ≤ u32_max)%N → NoDup (i_id <$> rows) →
  ∃ fs, slots_from_entries (id_at tb) (length rows) = Some (Ok fs) ∧ slots_ok fs (i_id <$> rows).
Proof.
  intros Htb Hn Hnd. unfold slots_from_entries.
  rewrite (append_all_ext _ (λ i, (i_id <$> rows) !! i)) by (intros i; by apply (id_at_spec n k)).
  destruct (append_all_spec (i_id <$> rows) (i_id <$> rows) slots_default [] eq_refl slots_default_ok) as (r & Hr & Hspec).
  rewrite length_fmap in Hr. simpl in Hr. destruct r as [fs|e]; [by exists fs|].
  destruct Hspec as [[_ Hover]|[_ Hdup]]; [|done]. rewrite length_fmap in Hover. lia.
Qed.
#[export] Instance compare_names_preorder : TotalPreorder (compare_names (F := IndexedFile)).
Proof.
  eapply preorder_ext; [|apply (order_compare_preorder order_name)]. intros x y. unfold order_name.
  by rewrite order_compare_cons.
Qed.
Lemma slot_compare_names_eq (row : N → option IndexedFile) a b : slot_compare_names row a b = slot_compare row order_name a b.
Proof. unfold slot_compare_names, slot_compare, order_name. destruct (row a), (row b); try done. by rewrite order_compare_cons. Qed.
Lemma all_slots_spec n k tb rows :
  table_ok n k tb rows → let live := foldl (λ b slot, bm_insert slot b) bm_new (all_slots tb) in
  (∀ x, bm_contains x live = true ↔ N.to_nat x < length rows) ∧ all_slots tb ≡ₚ bm_iter live.
Proof.
  intros (_ & _ & _ & _ & Hlen & _). cbv zeta. set (l := all_slots tb).
  assert (Hin : ∀ x, x ∈ l ↔ N.to_nat x < length rows).
  { intros x. unfold l, all_slots. rewrite Hlen, list_elem_of_fmap. split; [intros (i & -> & Hi%elem_of_seq); lia|].
    intros Hx. exists (N.to_nat x). rewrite elem_of_seq. lia. }
  assert (Hfold : ∀ l (b : B) x, bm_contains x (foldl (λ b slot, bm_insert slot b) b l) = true ↔ x ∈ l ∨ bm_contains x b = true).
  { intros l0. induction l0 as [|s l0 IH]; intros b x; simpl; [rewrite elem_of_nil; tauto|].
    rewrite IH, contains_insert, orb_true_iff, N.eqb_eq, elem_of_cons. tauto. }
  assert (Hc : ∀ x, bm_contains x (foldl (λ b slot, bm_insert slot b) bm_new l) = true ↔ N.to_nat x < length rows).
  { intros x. rewrite Hfold, contains_new, Hin. split; [by intros [?|?]|by left]. }
  split; [done|]. apply NoDup_Permutation; [|apply bm_iter_NoDup|].
  - unfold l, all_slots. apply NoDup_fmap_2; [intros ??; lia|apply NoDup_seq].
  - intros x. by rewrite Hin, <-contains_iter, Hc.
Qed.

Lemma sorted_from_vec row order (compare : N → N → comparison) `{!TotalPreorder compare} live l :
  (∀ a b, compare a b = slot_compare row order a b) → l ≡ₚ bm_iter live →
  sorted_order (F := IndexedFile) (Sec := Sec) row order live (from_vec (sort_unstable_by compare l)).
Proof.
  intros Hc Hl. split_and!; [apply from_vec_ok| |]; rewrite from_vec_flat.
  - by rewrite sort_unstable_permutes.
  - apply (StronglySorted_weaken (cmp_le compare)); [|apply sort_unstable_sorts, _].
    intros a b _ _. unfold cmp_le. by rewrite Hc.
Qed.
#[export] Instance slot_compare_names_preorder (row : N → option IndexedFile) : TotalPreorder (slot_compare_names row).
Proof. eapply preorder_ext; [apply slot_compare_names_eq|apply slot_compare_preorder]. Qed.
Lemma live_rows_all rows live :
  (∀ x, bm_contains x live = true ↔ N.to_nat x < length rows) → ∀ s, live_rows rows live !! s = rows !! N.to_nat s.
Proof.
  intros Hlive s. rewrite live_rows_lookup. destruct (bm_contains s live) eqn:E; [done|].
  symmetry. apply lookup_ge_None. assert (¬ N.to_nat s < length rows); [rewrite <-Hlive; congruence|lia].
Qed.
Lemma built_metadata rows live :
  Forall sound_row rows → (∀ x, bm_contains x live = true ↔ N.to_nat x < length rows) →
  MetadataPostings.tracks (MetadataPostings.build (B := B) (numbered rows)) (live_rows rows live).
Proof.
  intros Hrows Hlive. apply MetadataPostings.build_tracks; [apply numbered_NoDup| |].
  - apply map_eq. intros s. rewrite live_rows_all by done. apply option_eq. intros r.
    by rewrite <-numbered_lookup, elem_of_list_to_map by apply numbered_NoDup.
  - apply Forall_forall. intros [s r] Hin%numbered_lookup. by apply (Forall_lookup_1 _ _ _ _ Hrows Hin).
Qed.
Lemma build_prepared_spec n k tb rows grams generation_ :
  table_ok n k tb rows → Forall sound_row rows → (N.of_nat (length rows) ≤ u32_max)%N → NoDup (i_id <$> rows) →
  gram_filled grams →
  (∀ key s, gram_has grams key s = from_option (λ r, gram 3 (i_search_name r) key) false (rows !! N.to_nat s)) →
  ∃ sn, build_prepared_indexes tb grams generation_ = Some sn ∧ snapshot_ok n k sn rows ∧
    (∀ x, bm_contains x (sn_live sn) = true ↔ N.to_nat x < length rows) ∧ generation sn = generation_.
Proof.
  intros Htb Hrows Hn Hnd Hfilled Hgrams. pose proof (all_slots_spec n k tb rows Htb) as Hall. cbv zeta in Hall.
  set (live := foldl (λ b slot, bm_insert slot b) bm_new (all_slots tb)) in *. destruct Hall as [Hlive Hperm].
  pose proof Htb as (_ & _ & _ & _ & Hlen & _). unfold build_prepared_indexes. rewrite Hlen.
  destruct (slots_built n k tb rows Htb Hn Hnd) as (fs & -> & Hfs). cbn [mbind option_bind ok].
  rewrite (iter_spec n k tb rows Htb). cbn [mbind option_bind].
  destruct (numeric_build_spec n k tb rows Htb Hn) as (nc & -> & Hnc & Hclean). cbn [mbind option_bind].
  destruct (pm_from_spec grams Hfilled) as [Htwf Hthas].
  assert (Hrowsok : rows_ok (row_of tb) live) by (apply (table_rows_ok n k tb rows live); [done..|intros x; apply Hlive]).
  assert (Hpath : sorted_order (row_of tb) order_path live (built_order (Sec := Sec) (row_of tb) order_path (all_slots tb)))
    by (apply sorted_from_vec; [apply _|done|done]).
  eexists. split; [done|]. split_and!; [|exact Hlive|done].
  split; cbn [entries file_slots sn_live trigrams metadata_postings numeric_columns name_column cached_orders]; try done.
  - intros x. apply Hlive.
  - split; [done|]. intros key s. by rewrite Hthas, Hgrams, live_rows_all.
  - by apply built_metadata.
  - split_and!; [done| |exact Hpath|by apply built_ties_spec].
    apply sorted_from_vec; [apply _|apply slot_compare_names_eq|done].
  - intros order o Hin. by apply elem_of_nil in Hin.
Qed.

(** Every row is prepared in order, up to the first error of the source. *)
Definition prepared_source (source : list (text + IndexedFile)) : list (text + IndexedFile) :=
  (λ row, match row with inr row => inr (prepare row) | inl e => inl e end) <$> source.
Lemma collect_count count source rows :
  collect count source = inr rows → source_rows source = rows ∧ (0 < length rows → (count + N.of_nat (length rows) ≤ u32_max)%N).
Proof.
  revert count rows. induction source as [|[e|row] source IH]; intros count rows; cbn [collect].
  - intros [= <-]. split; [done|simpl; lia].
  - by destruct (u32_max <=? count)%N.
  - destruct (N.leb_spec u32_max count); [done|]. destruct (collect (count + 1) source) as [|l] eqn:E; [done|].
    intros [= <-]. destruct (IH _ _ E) as [<- Hl]. split; [done|]. intros _. cbn [length].
    destruct (source_rows source); cbn [length] in *; lia.
Qed.
Lemma snapshot_from_rows_spec n k source generation_ :
  (N.of_nat n + 2 ^ 31 ≤ u32_max)%N → (N.of_nat k + 12288 ≤ u32_max)%N →
  Forall sound_row (source_rows (prepared_source source)) → NoDup (i_id <$> source_rows (prepared_source source)) →
  match collect 0 (prepared_source source) with
  | inl e => snapshot_from_rows (B := B) (Sec := Sec) source generation_ = Some (inl e)
  | inr rows => ∃ sn, snapshot_from_rows source generation_ = Some (inr sn) ∧ snapshot_ok n k sn rows ∧
      (∀ x, bm_contains x (sn_live sn) = true ↔ N.to_nat x < length rows) ∧ generation sn = generation_
  end.
Proof.
  intros Hroom Hlabels Hrows Hnd. unfold snapshot_from_rows, prepare_rows. fold (prepared_source source).
  pose proof (table_from_rows_spec (B := B) (Sec := Sec) n k (prepared_source source)) as Htable.
  specialize (Htable ltac:(eapply Forall_impl; [exact Hrows|by intros r (? & _)]) Hroom Hlabels).
  destruct (collect 0 (prepared_source source)) as [e|rows] eqn:Ec; [by rewrite Htable|].
  destruct Htable as (tb & -> & Htb & Hiter). cbn [mbind option_bind].
  destruct (collect_count 0 _ _ Ec) as [Heq Hcount]. rewrite Heq in Hrows, Hnd.
  destruct (build_trigrams_spec rows) as [Hfilled Hgrams]. unfold build_compact_rows. rewrite Hiter. cbn [mbind option_bind].
  destruct (build_prepared_spec n k tb rows (build_trigrams rows) generation_) as (sn & -> & Hsn); try done.
  { destruct rows; [done|]. simpl in *. lia. }
  by exists sn.
Qed.
End meaning.
