(* ===== verification/SnapshotRemap.v ===== *)
(** * core/src/index_store.rs, [remap_changes]: a change with compaction

    When too many slots of the table are dead, a change is applied by building
    a new table: the live rows and the changed ones are merged by persistent
    id.  Here are also the limits that choose between the ways to apply a
    change, and what a list of changes means for the visible rows. *)
From S2P Require Import Prelude Bitmap OrderedMerge SlotOrder NaturalOrder Text TextView Float QueryLex QueryNumber QuerySyntax.
From S2P Require Import FileEntry ResultOrder SlotSort SnapshotOrders SnapshotSort FileSlots PostingMap.
From S2P Require MetadataPostings.
From S2P Require Import Columns IntegerColumn TextPool EntryChunk EntryPool EntryCompact EntryTable NumericColumns SnapshotData.

(** [slice::sort_by_key], a stable sort, on integer keys *)
Fixpoint insert_by_key {A} (key : A → Z) (x : A) (l : list A) : list A :=
  match l with
  | [] => [x]
  | y :: l' => if (key x <=? key y)%Z then x :: y :: l' else y :: insert_by_key key x l'
  end.
Definition sort_by_key {A} (key : A → Z) (l : list A) : list A := foldr (insert_by_key key) [] l.

(** The current entry of a changed row, or [None] after it is gone. *)
Notation SnapshotChange := (Z * option IndexedFile)%type.

Section remap.
Context {B : Type} `{Roaring B, RoaringBytes B} `{JsonShape, Unicode} {Sec : Type} `{!UnstableSort}.
Notation SnapshotData := (SnapshotData B Sec).

Definition incremental_limit (entry_count : nat) : nat := Nat.max (entry_count / 8) 2000.
Definition needs_compaction (previous : SnapshotData) : bool :=
  (N.of_nat (snapshot_len previous + snapshot_len previous / 4) + 10000 <? N.of_nat (table_len (entries previous)))%N.
Definition remap_reason (changes : list SnapshotChange) (previous : SnapshotData) : option string :=
  if incremental_limit (snapshot_len previous) <? length changes then None
  else if needs_compaction previous then Some "inactive_slots_require_compaction" else None.

(** Keeps the final observation of an id. *)
Definition push_unique (unique : list SnapshotChange) (change : SnapshotChange) : list SnapshotChange :=
  match last unique with
  | Some l => if decide (l.1 = change.1) then take (length unique - 1) unique ++ [change] else unique ++ [change]
  | None => unique ++ [change]
  end.
Definition unique_changes (changes : list SnapshotChange) : list SnapshotChange :=
  foldl push_unique [] (sort_by_key fst changes).
Definition slot_id_compare (previous : SnapshotData) (a b : N) : comparison :=
  match row_of (entries previous) a, row_of (entries previous) b with
  | Some x, Some y => Z.compare (i_id x) (i_id y)
  | None, None => Eq
  | None, Some _ => Lt
  | Some _, None => Gt
  end.
Definition old_rows (previous : SnapshotData) : list N :=
  let rows := bm_iter (sn_live previous) in
  if sorted_prefix (file_slots previous) =? table_len (entries previous) then rows
  else sort_unstable_by (slot_id_compare previous) rows.
(** [previous.slot_for_id(id).map(|slot| previous.entries.at(slot))] *)
Definition previous_row (previous : SnapshotData) (id : Z) : option (option IndexedFile) :=
  slot ← slot_for_id previous id;
  match slot with
  | None => Some None
  | Some slot => row ← row_of (entries previous) (N.of_nat slot); Some (Some row)
  end.
(** The rows that the iterator yields.  Every turn of its loop takes from one
    of the two sources, so their length is enough fuel. *)
Fixpoint merge_rows (fuel : nat) (previous : SnapshotData) (old : list N) (replacements : list SnapshotChange) :
    option (list IndexedFile) :=
  match old, replacements with
  | [], [] => Some []
  | _, _ =>
    match fuel with
    | O => None
    | S fuel =>
      head ← match old with [] => Some None | slot :: _ => row ← row_of (entries previous) slot; Some (Some row) end;
      match head, replacements with
      | Some row, [] => rest ← merge_rows fuel previous (tail old) []; Some (row :: rest)
      | None, [] => Some []
      | _, (id, replacement) :: replacements' =>
        if match head with Some row => (i_id row <? id)%Z | None => false end then
          row ← head; rest ← merge_rows fuel previous (tail old) replacements; Some (row :: rest)
        else
          let old := if match head with Some row => (i_id row =? id)%Z | None => false end then tail old else old in
          match replacement with
          | None => merge_rows fuel previous old replacements'
          | Some row =>
            before ← previous_row previous id;
            rest ← merge_rows fuel previous old replacements';
            Some (prepare_replacement row before :: rest)
          end
      end
    end
  end.
Definition remap_changes (changes : list SnapshotChange) (generation_ : N) (previous : SnapshotData) : option SnapshotData :=
  let unique := unique_changes changes in
  let old := old_rows previous in
  rows ← merge_rows (length old + length unique) previous old unique;
  tb ← table_from_rows (inr <$> rows);
  match tb with
  | inl _ => None
  | inr tb =>
    rows ← mapM view_row (iter tb);
    sn ← build_prepared_indexes tb (build_trigrams rows) generation_;
    Some {| entries := entries sn; file_slots := file_slots sn; sn_live := sn_live sn; trigrams := trigrams sn;
            sn_name_order := sn_name_order sn; sn_path_order := sn_path_order sn; sn_path_ties := sn_path_ties sn;
            metadata_postings := metadata_postings sn; numeric_columns := numeric_columns sn; name_column := name_column sn;
            generation := generation sn; content_revision := content_revision previous;
            cached_orders := cached_orders sn |}
  end.
End remap.

(** ** What changes mean *)

Section changes.
Context `{JsonShapeLaws, Unicode}.
Implicit Types (changes : list SnapshotChange).

Definition apply_visible (m : gmap Z IndexedFile) (change : SnapshotChange) : gmap Z IndexedFile :=
  match change.2 with Some row => <[change.1 := prepare row]> m | None => delete change.1 m end.
(** The rows visible after the changes, one after the other. *)
Definition changed_visible (m : gmap Z IndexedFile) changes : gmap Z IndexedFile := foldl apply_visible m changes.
(** The last change of an id. *)
Definition final changes (id : Z) : option SnapshotChange := last (filter (λ c, c.1 = id) changes).
Lemma changed_visible_lookup m changes id :
  changed_visible m changes !! id =
    match final changes id with Some (_, r) => prepare <$> r | None => m !! id end.
Proof.
  unfold changed_visible, final. induction changes as [|c changes IH] using rev_ind; [done|].
  rewrite foldl_app, filter_app. cbn [foldl]. rewrite filter_cons, filter_nil. destruct c as [i r]. cbn [fst].
  destruct (decide (i = id)) as [->|Hne].
  - rewrite last_snoc. unfold apply_visible. destruct r; simpl; [by rewrite lookup_insert_eq|by rewrite lookup_delete_eq].
  - rewrite app_nil_r. unfold apply_visible.
    destruct r; simpl; [rewrite lookup_insert_ne by done|rewrite lookup_delete_ne by done]; exact IH.
Qed.

Lemma insert_by_key_perm {A} (key : A → Z) x l : insert_by_key key x l ≡ₚ x :: l.
Proof.
  induction l as [|y l IH]; simpl; [done|]. destruct (key x <=? key y)%Z; [done|]. rewrite IH. apply Permutation_swap.
Qed.
Lemma sort_by_key_perm {A} (key : A → Z) l : sort_by_key key l ≡ₚ l.
Proof. induction l as [|x l IH]; simpl; [done|]. by rewrite insert_by_key_perm, IH. Qed.
Lemma insert_by_key_sorted {A} (key : A → Z) x l :
  StronglySorted (λ a b, (key a ≤ key b)%Z) l → StronglySorted (λ a b, (key a ≤ key b)%Z) (insert_by_key key x l).
Proof.
  induction 1 as [|y l Hs IH Hf]; simpl; [repeat constructor|]. destruct (Z.leb_spec (key x) (key y)).
  - constructor; [by constructor|]. constructor; [done|]. eapply Forall_impl; [exact Hf|]. intros. simpl in *. lia.
  - constructor; [done|]. rewrite insert_by_key_perm. constructor; [lia|done].
Qed.
Lemma sort_by_key_sorted {A} (key : A → Z) l : StronglySorted (λ a b, (key a ≤ key b)%Z) (sort_by_key key l).
Proof. induction l; simpl; [constructor|]. by apply insert_by_key_sorted. Qed.
(** Elements with equal keys keep their order. *)
Lemma sort_by_key_stable {A} (key : A → Z) l k : filter (λ x, key x = k) (sort_by_key key l) = filter (λ x, key x = k) l.
Proof.
  assert (Hins : ∀ x l, filter (λ x, key x = k) (insert_by_key key x l) =
    if decide (key x = k) then x :: filter (λ x, key x = k) l else filter (λ x, key x = k) l).
  { clear l. intros x l. induction l as [|y l IH]; simpl; [by rewrite filter_cons, filter_nil|].
    destruct (Z.leb_spec (key x) (key y)); [by rewrite filter_cons|].
    rewrite !filter_cons, IH. repeat case_decide; try done. lia. }
  induction l as [|x l IH]; simpl; [done|]. by rewrite Hins, IH, filter_cons.
Qed.
Lemma changed_visible_sorted m changes : changed_visible m (sort_by_key fst changes) = changed_visible m changes.
Proof. apply map_eq. intros id. rewrite !changed_visible_lookup. unfold final. by rewrite sort_by_key_stable. Qed.
End changes.

Section remap_proofs.
Context {B : Type} `{RoaringLaws B} `{!RoaringBytes B, !RoaringBytesLaws B} `{JsonShapeLaws, Unicode} {Sec : Type} `{!UnstableSort}.
Notation SnapshotData := (SnapshotData B Sec).
Implicit Types (rows : list IndexedFile) (live : B) (changes : list SnapshotChange) (previous : SnapshotData).

(** A replacement has the id it is listed under, and is sound once prepared. *)
Definition change_ok (change : SnapshotChange) : Prop :=
  match change.2 with Some row => i_id row = change.1 ∧ sound_row (prepare row) | None => True end.

Lemma prepare_replacement_spec f before : (∀ p, before = Some p → prepare p = p) → prepare_replacement f before = prepare f.
Proof.
  destruct before as [p|]; [|done]. intros Hp. specialize (Hp p eq_refl).
  assert (Hn : i_folded_name p = fold (i_name p)) by (by rewrite <-Hp).
  assert (Hs : i_search_name p = shared_search_fold (i_name p) (fold (i_name p))) by (by rewrite <-Hp).
  assert (He : i_folded_extension p = fold (i_extension p)) by (by rewrite <-Hp).
  assert (Hf : i_folded_path p = fold (i_path p)) by (by rewrite <-Hp).
  assert (Hsp : i_search_path p = shared_search_fold (i_path p) (fold (i_path p))) by (by rewrite <-Hp).
  assert (Hpa : i_parent p = default [] (path_parent (i_path p))) by (by rewrite <-Hp).
  clear Hp. unfold prepare_replacement, prepare.
  destruct (decide (i_name f = i_name p)) as [->|]; rewrite ?Hn, ?Hs;
    (destruct (decide (i_extension f = i_extension p)) as [->|]; rewrite ?He);
    (destruct (decide (i_path f = i_path p)) as [->|]; rewrite ?Hf, ?Hsp, ?Hpa; [done|]);
    (case_decide as Hparent; [rewrite Hparent|]; done).
Qed.

(** *** The final changes *)

Notation by_id := (λ a b : SnapshotChange, (a.1 < b.1)%Z).
Lemma final_snoc changes c id : final (changes ++ [c]) id = if decide (c.1 = id) then Some c else final changes id.
Proof.
  unfold final. rewrite filter_app, filter_cons, filter_nil. case_decide; [by rewrite last_snoc|by rewrite app_nil_r].
Qed.
Lemma final_elem changes id c : final changes id = Some c → c ∈ changes ∧ c.1 = id.
Proof. unfold final. intros Hl%last_Some_elem_of. apply list_elem_of_filter in Hl. tauto. Qed.
Lemma StronglySorted_snoc {A} (R : relation A) (l : list A) x :
  StronglySorted R (l ++ [x]) ↔ StronglySorted R l ∧ Forall (λ y, R y x) l.
Proof.
  induction l as [|y l IH]; simpl; [split; [by repeat constructor|repeat constructor]|].
  rewrite !StronglySorted_cons, IH, Forall_app, !Forall_cons, Forall_nil. tauto.
Qed.
Lemma push_unique_all changes :
  StronglySorted (λ a b : SnapshotChange, (a.1 ≤ b.1)%Z) changes →
  StronglySorted by_id (foldl push_unique [] changes) ∧
  ∀ id c, final changes id = Some c ↔ c ∈ foldl push_unique [] changes ∧ c.1 = id.
Proof.
  induction changes as [|c changes IH] using rev_ind; intros Hs.
  { split; [constructor|]. intros id c. unfold final. simpl. split; [done|]. by intros [?%elem_of_nil _]. }
  apply StronglySorted_snoc in Hs as [Hs Hle]. destruct (IH Hs) as [Hu Hfinal]. clear IH.
  rewrite foldl_app. cbn [foldl]. set (u := foldl push_unique [] changes) in *.
  assert (Hbound : ∀ x, x ∈ u → (x.1 ≤ c.1)%Z).
  { intros x Hx. assert (Hf : final changes x.1 = Some x) by (by apply Hfinal).
    apply final_elem in Hf as [Hf _]. rewrite Forall_forall in Hle. by apply Hle. }
  unfold push_unique. destruct u as [|x u0 _] using rev_ind; [|rewrite last_snoc].
  { cbn [last app]. split; [by repeat constructor|]. intros id c'. rewrite final_snoc, list_elem_of_singleton.
    case_decide as Hid; [naive_solver|]. rewrite Hfinal, elem_of_nil. naive_solver. }
  apply StronglySorted_snoc in Hu as [Hu0 Hux]. rewrite Forall_forall in Hux.
  destruct (decide (x.1 = c.1)) as [Heq|Hne].
  - rewrite length_app, Nat.add_sub, take_app_length by (simpl; lia). split.
    + apply StronglySorted_snoc. split; [done|]. apply Forall_forall. intros y Hy. specialize (Hux y Hy). simpl in *. lia.
    + intros id c'. rewrite final_snoc, elem_of_app, list_elem_of_singleton. case_decide as Hid.
      * split; [naive_solver|]. intros [[Hin| ->] Hc']; [|done]. specialize (Hux c' Hin). simpl in *. lia.
      * rewrite Hfinal, elem_of_app, list_elem_of_singleton. naive_solver congruence.
  - split.
    + apply StronglySorted_snoc. split; [by apply StronglySorted_snoc; rewrite Forall_forall|]. apply Forall_forall.
      intros y Hy. pose proof (Hbound x ltac:(apply elem_of_app; right; by apply list_elem_of_singleton)).
      apply elem_of_app in Hy as [Hy| ->%list_elem_of_singleton]; [specialize (Hux y Hy); simpl in *; lia|simpl; lia].
    + intros id c'. rewrite final_snoc, elem_of_app, (list_elem_of_singleton c'). case_decide as Hid.
      * split; [naive_solver|]. intros [[Hin| ->] Hc']; [|done]. exfalso.
        apply elem_of_app in Hin as [Hin| ->%list_elem_of_singleton]; [|congruence].
        specialize (Hux c' Hin). pose proof (Hbound x ltac:(apply elem_of_app; right; by apply list_elem_of_singleton)).
        simpl in *. lia.
      * rewrite Hfinal. naive_solver congruence.
Qed.
Lemma push_unique_length unique c : length (push_unique unique c) ≤ S (length unique).
Proof.
  unfold push_unique. destruct (last unique) as [x|]; [case_decide|]; rewrite length_app, ?length_take; simpl; lia.
Qed.
Lemma unique_changes_spec changes :
  StronglySorted by_id (unique_changes changes) ∧
  (∀ id c, final changes id = Some c ↔ c ∈ unique_changes changes ∧ c.1 = id) ∧ length (unique_changes changes) ≤ length changes.
Proof.
  unfold unique_changes. destruct (push_unique_all _ (sort_by_key_sorted fst changes)) as [Hs Hf]. split_and!; [done| |].
  - intros id c. rewrite <-Hf. unfold final. by rewrite sort_by_key_stable.
  - transitivity (length (sort_by_key fst changes)); [|by apply Nat.eq_le_incl, Permutation_length, sort_by_key_perm].
    clear Hs Hf. induction (sort_by_key fst changes) as [|c l IH] using rev_ind; [done|]. rewrite foldl_app, length_app. cbn [foldl length].
    pose proof (push_unique_length (foldl push_unique [] l) c). simpl. lia.
Qed.

(** *** Merging by id *)

Notation row_by_id := (λ a b : IndexedFile, (i_id a < i_id b)%Z).
Lemma merge_rows_spec fuel previous old olds replacements :
  Forall2 (λ slot row, row_of (entries previous) slot = Some row) old olds → StronglySorted row_by_id olds →
  StronglySorted by_id replacements → Forall change_ok replacements →
  (∀ id, ∃ before, previous_row previous id = Some before ∧ ∀ p, before = Some p → prepare p = p) →
  length old + length replacements ≤ fuel →
  ∃ rows, merge_rows fuel previous old replacements = Some rows ∧ StronglySorted row_by_id rows ∧
    length rows ≤ length old + length replacements ∧
    ∀ r, r ∈ rows ↔ (r ∈ olds ∧ i_id r ∉ replacements.*1) ∨ ∃ id e, (id, Some e) ∈ replacements ∧ r = prepare e.
Proof.
  intros Hold Hso Hsr Hch Hprev. revert old olds replacements Hold Hso Hsr Hch.
  assert (Hid : ∀ id e l, Forall change_ok l → (id, Some e) ∈ l → i_id (prepare e) = id).
  { intros id e l Hl Hin. rewrite Forall_forall in Hl. by apply (Hl _ Hin). }
  induction fuel as [|fuel IH]; intros old olds replacements Hold Hso Hsr Hch Hfuel.
  { destruct old, replacements; simpl in Hfuel; try lia. apply Forall2_nil_inv_l in Hold as ->. exists [].
    split_and!; [done|constructor|done|]. intros r. rewrite elem_of_nil. set_solver. }
  destruct Hold as [|slot row old olds Hrow Hold]; cbn [merge_rows].
  - destruct replacements as [|[id replacement] reps].
    { exists []. split_and!; [done|constructor|simpl; lia|]. intros r. set_solver. }
    cbn [mbind option_bind]. apply StronglySorted_cons in Hsr as [Hfr Hsr]. pose proof Hch as [Hc Hch']%Forall_cons.
    destruct (IH [] [] reps ltac:(constructor) ltac:(constructor) Hsr Hch' ltac:(simpl in *; lia)) as (rest & -> & Hs & Hl & Hin).
    cbn [tail]. destruct replacement as [e|].
    + destruct (Hprev id) as (before & -> & Hbefore). cbn [mbind option_bind]. rewrite (prepare_replacement_spec e before Hbefore).
      exists (prepare e :: rest). split_and!; [done| |simpl in *; lia|].
      * constructor; [done|]. apply Forall_forall. intros r Hr. apply Hin in Hr as [[?%elem_of_nil _]|(i & e' & Hi & ->)]; [done|].
        rewrite (Hid i e' reps) by done. rewrite (Hid id e ((id, Some e) :: reps)) by (done || by left).
        rewrite Forall_forall in Hfr. apply (Hfr _ Hi).
      * intros r. rewrite elem_of_cons, Hin. split.
        -- intros [->|[[?%elem_of_nil _]|(i & e' & Hi & ->)]]; [right; exists id, e; split; [left|done]|done|right; exists i, e'; split; [by right|done]].
        -- intros [[?%elem_of_nil _]|(i & e' & [[= -> ->]|Hi]%elem_of_cons & ->)]; [done|by left|right; right; by exists i, e'].
    + exists rest. split_and!; [done|done|simpl in *; lia|]. intros r. rewrite Hin. split.
      * intros [[?%elem_of_nil _]|(i & e' & Hi & ->)]; [done|right; exists i, e'; split; [by right|done]].
      * intros [[?%elem_of_nil _]|(i & e' & [?|Hi]%elem_of_cons & ->)]; [done|done|right; by exists i, e'].
  - rewrite Hrow. cbn [mbind option_bind]. apply StronglySorted_cons in Hso as [Hfo Hso]. rewrite Forall_forall in Hfo.
    destruct replacements as [|[id replacement] reps].
    { destruct (IH old olds [] Hold Hso ltac:(constructor) ltac:(constructor) ltac:(simpl in *; lia)) as (rest & Hrest & Hs & Hl & Hin).
      cbn [tail]. rewrite Hrest. exists (row :: rest). split_and!; [done| |simpl in *; lia|].
      - constructor; [done|]. apply Forall_forall. intros r Hr. apply Hin in Hr as [[Hr _]|(i & e' & ?%elem_of_nil & _)]; [by apply Hfo|done].
      - intros r. rewrite !elem_of_cons, Hin. set_solver. }
    apply StronglySorted_cons in Hsr as [Hfr Hsr]. rewrite Forall_forall in Hfr. pose proof Hch as [Hc Hch']%Forall_cons.
    destruct (Z.ltb_spec (i_id row) id) as [Hlt|Hge].
    + cbn [mbind option_bind tail].
      destruct (IH old olds ((id, replacement) :: reps) Hold Hso ltac:(by constructor; [|apply Forall_forall]) Hch ltac:(simpl in *; lia)) as (rest & -> & Hs & Hl & Hin).
      exists (row :: rest). split_and!; [done| |simpl in *; lia|].
      * constructor; [done|]. apply Forall_forall. intros r Hr. apply Hin in Hr as [[Hr _]|(i & e' & Hi & ->)]; [by apply Hfo|].
        rewrite (Hid i e' ((id, replacement) :: reps)) by done. apply elem_of_cons in Hi as [[= -> _]|Hi]; [done|].
        specialize (Hfr _ Hi). simpl in *. lia.
      * intros r. rewrite !elem_of_cons, Hin. split.
        -- intros [->|[[? ?]|?]]; [|by left; split; [right|]|by right]. left. split; [by left|].
           rewrite fmap_cons, not_elem_of_cons. simpl. split; [lia|].
           intros ([i' c'] & Hi & Hin')%list_elem_of_fmap. specialize (Hfr _ Hin'). simpl in *. lia.
        -- intros [[[->|Hr] Hn]|?]; [by left|right; left; done|right; by right].
    + (* the replacement comes first, or stands for the old row *)
      set (old' := if (i_id row =? id)%Z then tail (slot :: old) else slot :: old).
      set (olds' := if (i_id row =? id)%Z then olds else row :: olds).
      assert (Hold' : Forall2 (λ slot row, row_of (entries previous) slot = Some row) old' olds').
      { unfold old', olds'. destruct (_ =? _)%Z; [done|by constructor]. }
      assert (Hso' : StronglySorted row_by_id olds').
      { unfold olds'. destruct (_ =? _)%Z; [done|constructor; [done|by apply Forall_forall]]. }
      assert (Hll : length old' ≤ S (length old)) by (unfold old'; destruct (_ =? _)%Z; simpl; lia).
      destruct (IH old' olds' reps Hold' Hso' Hsr Hch' ltac:(simpl in *; lia)) as (rest & -> & Hs & Hl & Hin).
      assert (Habove : ∀ r, r ∈ rest → (id < i_id r)%Z).
      { intros r Hr. apply Hin in Hr as [[Hr Hn]|(i & e' & Hi & ->)].
        - unfold olds' in Hr. destruct (Z.eqb_spec (i_id row) id) as [Heq|Hne]; [specialize (Hfo r Hr); simpl in *; lia|].
          apply elem_of_cons in Hr as [->|Hr]; [lia|specialize (Hfo r Hr); simpl in *; lia].
        - rewrite (Hid i e' reps) by done. apply (Hfr _ Hi). }
      assert (Hmem : ∀ r, (r ∈ olds' ∧ i_id r ∉ reps.*1) ↔ (r ∈ row :: olds ∧ i_id r ∉ ((id, replacement) :: reps).*1)).
      { intros r. rewrite fmap_cons, not_elem_of_cons. cbn [fst]. unfold olds'. destruct (Z.eqb_spec (i_id row) id) as [Heq|Hne].
        - split.
          + intros [Hr Hn]. split_and!; [by right| |done]. specialize (Hfo r Hr). simpl in *. lia.
          + intros ([->|Hr]%elem_of_cons & Hi & Hn); [done|done].
        - split; [|tauto]. intros [Hr Hn]. split_and!; [done| |done]. apply elem_of_cons in Hr as [->|Hr]; [lia|].
          specialize (Hfo r Hr). simpl in *. lia. }
      destruct replacement as [e|].
      * destruct (Hprev id) as (before & -> & Hbefore). cbn [mbind option_bind]. rewrite (prepare_replacement_spec e before Hbefore).
        exists (prepare e :: rest). split_and!; [done| |simpl in *; lia|].
        -- constructor; [done|]. apply Forall_forall. intros r Hr. rewrite (Hid id e ((id, Some e) :: reps)) by (done || by left). by apply Habove.
        -- intros r. rewrite elem_of_cons, Hin, Hmem. split.
           ++ intros [->|[?|(i & e' & Hi & ->)]]; [right; exists id, e; split; [left|done]|by left|right; exists i, e'; split; [by right|done]].
           ++ intros [?|(i & e' & [[= -> ->]|Hi]%elem_of_cons & ->)]; [by right; left|by left|right; right; by exists i, e'].
      * exists rest. split_and!; [done|done|simpl in *; lia|]. intros r. rewrite Hin, Hmem. split.
        -- intros [?|(i & e' & Hi & ->)]; [by left|right; exists i, e'; split; [by right|done]].
        -- intros [?|(i & e' & [?|Hi]%elem_of_cons & ->)]; [by left|done|right; by exists i, e'].
Qed.

(** *** The compacted snapshot *)

#[export] Instance slot_id_compare_preorder previous : TotalPreorder (slot_id_compare previous).
Proof.
  split; unfold slot_id_compare.
  - intros x y. destruct (row_of _ x), (row_of _ y); try done. apply Z.compare_antisym.
  - intros x y z. destruct (row_of _ x), (row_of _ y), (row_of _ z); try done. rewrite !Z.compare_le_iff. lia.
Qed.
Lemma snapshot_live_row n k previous rows slot :
  snapshot_ok n k previous rows → bm_contains slot (sn_live previous) = true →
  ∃ r, row_of (entries previous) slot = Some r ∧ rows !! N.to_nat slot = Some r.
Proof.
  intros Hok Hl. rewrite (row_of_spec n k _ rows) by apply Hok.
  destruct (lookup_lt_is_Some_2 rows (N.to_nat slot)) as [r Hr]; [by apply (so_live _ _ _ _ Hok)|]. by exists r.
Qed.
(** The old rows come in increasing order of id. *)
Lemma old_rows_spec n k previous rows :
  snapshot_ok n k previous rows → ∃ olds,
    Forall2 (λ slot row, row_of (entries previous) slot = Some row) (old_rows previous) olds ∧
    StronglySorted row_by_id olds ∧ length (old_rows previous) ≤ length rows ∧
    ∀ r, r ∈ olds ↔ visible rows (sn_live previous) !! i_id r = Some r.
Proof.
  intros Hok. pose proof (so_slots _ _ _ _ Hok) as Hslots. pose proof (slots_distinct _ _ Hslots) as Hnd.
  pose proof (so_table _ _ _ _ Hok) as Htb. pose proof Htb as (_ & _ & _ & _ & Hlen & _).
  assert (Hperm : old_rows previous ≡ₚ bm_iter (sn_live previous)).
  { unfold old_rows. case_match; [done|apply sort_unstable_permutes]. }
  assert (Hin : ∀ s, s ∈ old_rows previous ↔ bm_contains s (sn_live previous) = true) by (intros s; by rewrite Hperm, contains_iter).
  assert (Hrows : ∃ olds, Forall2 (λ slot row, row_of (entries previous) slot = Some row) (old_rows previous) olds).
  { assert (Hall : ∀ s, s ∈ old_rows previous → is_Some (row_of (entries previous) s)).
    { intros s Hs%Hin. destruct (snapshot_live_row n k previous rows s Hok Hs) as (r & Hr & _). by exists r. }
    clear -Hall. induction (old_rows previous) as [|s l IH]; [by exists []; constructor|].
    destruct IH as [olds Holds]; [intros; apply Hall; by right|]. destruct (Hall s) as [r Hr]; [left|].
    exists (r :: olds). by constructor. }
  destruct Hrows as [olds Holds]. exists olds.
  assert (Hat : ∀ i s r, old_rows previous !! i = Some s → olds !! i = Some r → rows !! N.to_nat s = Some r).
  { intros i s r Hs Hr. destruct (Forall2_lookup_l _ _ _ _ _ Holds Hs) as (r' & Hr' & Hrow).
    rewrite (row_of_spec n k _ rows) in Hrow by done. congruence. }
  split_and!; [done| | |].
  - apply StronglySorted_by_lookup. intros i j x y Hij Hx Hy.
    destruct (Forall2_lookup_r _ _ _ _ _ Holds Hx) as (a & Ha & Hrx), (Forall2_lookup_r _ _ _ _ _ Holds Hy) as (b & Hb & Hry).
    pose proof (Hat i a x Ha Hx) as Hax. pose proof (Hat j b y Hb Hy) as Hby. unfold old_rows in Ha, Hb.
    destruct (Nat.eqb_spec (sorted_prefix (file_slots previous)) (table_len (entries previous))) as [Hp|Hp].
    + assert (a < b)%N by (apply (StronglySorted_lookup_lt N.lt _ i j a b (iter_sorted _) Hij Ha Hb)).
      apply (slots_sorted _ _ Hslots (N.to_nat a) (N.to_nat b)); [lia| |by rewrite list_lookup_fmap, Hax|by rewrite list_lookup_fmap, Hby].
      apply lookup_lt_Some in Hby. lia.
    + pose proof (StronglySorted_lookup_lt _ _ i j a b (sort_unstable_sorts (slot_id_compare previous) _ _) Hij Ha Hb) as Hle.
      unfold cmp_le, slot_id_compare in Hle. rewrite Hrx, Hry in Hle. rewrite Z.compare_le_iff in Hle.
      destruct (decide (i_id x = i_id y)) as [Heq|]; [|lia]. exfalso.
      assert (a = b) as ->.
      { apply N2Nat.inj. apply (NoDup_lookup (i_id <$> rows) _ _ (i_id x) Hnd); rewrite list_lookup_fmap, ?Hax, ?Hby; [done|]. simpl. by rewrite Heq. }
      assert (i = j); [|lia]. apply (NoDup_lookup (sort_unstable_by (slot_id_compare previous) (bm_iter (sn_live previous))) i j b); [|done..].
      rewrite sort_unstable_permutes. apply bm_iter_NoDup.
  - assert (Hsub : (N.to_nat <$> old_rows previous) ⊆+ seq 0 (length rows)).
    { apply NoDup_submseteq; [apply NoDup_fmap_2; [intros ??; lia|rewrite Hperm; apply bm_iter_NoDup]|].
      intros x (s & -> & Hs%Hin)%list_elem_of_fmap. apply elem_of_seq. pose proof (so_live _ _ _ _ Hok s Hs). lia. }
    apply submseteq_length in Hsub. by rewrite length_fmap, length_seq in Hsub.
  - intros r. rewrite visible_lookup by done. split.
    + intros (i & Hr)%list_elem_of_lookup. destruct (Forall2_lookup_r _ _ _ _ _ Holds Hr) as (s & Hs & _).
      exists s. split_and!; [apply Hin; by eapply list_elem_of_lookup_2|by apply (Hat i)|done].
    + intros (s & Hs & Hr & _). apply Hin, list_elem_of_lookup in Hs as [i Hi].
      destruct (Forall2_lookup_l _ _ _ _ _ Holds Hi) as (r' & Hr' & _). assert (r = r') as -> by (pose proof (Hat i s r' Hi Hr'); congruence).
      by eapply list_elem_of_lookup_2.
Qed.
Lemma previous_row_spec n k previous rows id :
  snapshot_ok n k previous rows →
  ∃ before, previous_row previous id = Some before ∧ ∀ p, before = Some p → prepare p = p.
Proof.
  intros Hok. unfold previous_row, slot_for_id.
  destruct (slot_lookup n k _ rows _ id (so_table _ _ _ _ Hok) (so_slots _ _ _ _ Hok)) as (r & -> & Hr). cbn [mbind option_bind].
  destruct r as [slot|]; [|by exists None]. destruct Hr as (row & Hrow & _).
  rewrite (row_of_spec n k _ rows) by apply Hok. rewrite Nat2N.id, Hrow. exists (Some row). split; [done|].
  intros p [= <-]. by apply (Forall_lookup_1 _ _ _ _ (so_rows _ _ _ _ Hok) Hrow).
Qed.
Lemma collect_all count rows :
  (count + N.of_nat (length rows) ≤ u32_max)%N → collect count (inr <$> rows) = inr rows ∧ source_rows (inr <$> rows) = rows.
Proof.
  revert count. induction rows as [|r rows IH]; intros count Hn; [done|]. cbn [length fmap list_fmap collect] in *.
  destruct (N.leb_spec u32_max count); [lia|]. destruct (IH (count + 1)%N) as [-> Hs]; [lia|]. split; [done|].
  unfold source_rows in *. simpl. f_equal. exact Hs.
Qed.
Lemma remap_changes_spec n' k' n k previous rows changes generation_ :
  (N.of_nat n' + 2 ^ 31 ≤ u32_max)%N → (N.of_nat k' + 12288 ≤ u32_max)%N →
  snapshot_ok n k previous rows → Forall change_ok changes → (N.of_nat (length rows + length changes) ≤ u32_max)%N →
  ∃ sn rows', remap_changes changes generation_ previous = Some sn ∧ snapshot_ok n' k' sn rows' ∧
    visible rows' (sn_live sn) = changed_visible (visible rows (sn_live previous)) changes ∧
    generation sn = generation_ ∧ content_revision sn = content_revision previous ∧
    length rows' ≤ length rows + length changes.
Proof.
  intros Hroom Hlabels Hok Hch Hn. unfold remap_changes.
  destruct (old_rows_spec n k previous rows Hok) as (olds & Holds & Hso & Hlo & Hmem).
  destruct (unique_changes_spec changes) as (Hsu & Hfinal & Hlu).
  assert (Huok : Forall change_ok (unique_changes changes)).
  { rewrite Forall_forall in Hch |- *. intros c Hc. apply Hch.
    assert (Hf : final changes c.1 = Some c) by (by apply Hfinal). by apply final_elem in Hf as [Hf _]. }
  destruct (merge_rows_spec (length (old_rows previous) + length (unique_changes changes)) previous (old_rows previous) olds
    (unique_changes changes) Holds Hso Hsu Huok (λ id, previous_row_spec n k previous rows id Hok) ltac:(lia)) as (rows' & -> & Hs & Hl & Hin).
  cbn [mbind option_bind].
  destruct (collect_all 0 rows') as [Hcollect Hsource]; [lia|].
  assert (Hsound : Forall sound_row rows').
  { apply Forall_forall. intros r Hr. apply Hin in Hr as [[Hr _]|(id & e & He & ->)].
    - apply Hmem in Hr. apply visible_lookup in Hr as (s & _ & Hr & _); [|apply (slots_distinct _ _ (so_slots _ _ _ _ Hok))].
      by apply (Forall_lookup_1 _ _ _ _ (so_rows _ _ _ _ Hok) Hr).
    - rewrite Forall_forall in Huok. by apply (Huok _ He). }
  pose proof (table_from_rows_spec (B := B) (Sec := Sec) n' k' (inr <$> rows')) as Htable.
  rewrite Hcollect, Hsource in Htable.
  destruct Htable as (tb & -> & Htb & Hiter); [by eapply Forall_impl; [exact Hsound|intros r (? & _)]|done|done|].
  cbn [mbind option_bind]. rewrite Hiter. cbn [mbind option_bind].
  assert (Hnd : NoDup (i_id <$> rows')).
  { apply NoDup_alt. intros i j x Hi Hj. apply list_lookup_fmap_Some in Hi as (a & -> & Ha). apply list_lookup_fmap_Some in Hj as (b & Hab & Hb).
    destruct (lt_eq_lt_dec i j) as [[Hlt|]|Hgt]; [|done|]; exfalso.
    - pose proof (StronglySorted_lookup_lt _ _ i j a b Hs Hlt Ha Hb). simpl in *. lia.
    - pose proof (StronglySorted_lookup_lt _ _ j i b a Hs Hgt Hb Ha). simpl in *. lia. }
  destruct (build_trigrams_spec rows') as [Hfilled Hgrams].
  destruct (build_prepared_spec n' k' tb rows' (build_trigrams rows') generation_) as (sn & -> & Hsn & Hlive & Hgen); try done; [lia|].
  cbn [mbind option_bind]. eexists _, rows'. split; [done|]. split_and!; [|simpl|done|done|lia].
  { destruct Hsn. by split. }
  apply map_eq. intros id. rewrite changed_visible_lookup. apply option_eq. intros r. rewrite visible_lookup by done.
  transitivity (r ∈ rows' ∧ i_id r = id).
  { split; [intros (s & _ & Hr & <-); split; [by eapply list_elem_of_lookup_2|done]|]. intros [(i & Hr)%list_elem_of_lookup <-].
    exists (N.of_nat i). rewrite Hlive, Nat2N.id. split_and!; [by eapply lookup_lt_Some|done|done]. }
  rewrite Hin. destruct (final changes id) as [[id' r']|] eqn:Ef.
  - pose proof Ef as Ef'. apply Hfinal in Ef' as [Hu Hid]. simpl in Hid. subst id'. split.
    + intros [[[Hr Hnot]|(i & e & He & ->)] Hid]; [destruct Hnot; rewrite Hid; apply list_elem_of_fmap; by exists (id, r')|].
      assert (Hi : i = id). { rewrite Forall_forall in Huok. destruct (Huok _ He) as [Hi _]. simpl in Hi. change (i_id (prepare e)) with (i_id e) in Hid. congruence. }
      subst i. assert (He' : final changes id = Some (id, Some e)) by (by apply Hfinal). rewrite Ef in He'. by injection He' as ->.
    + destruct r' as [e|]; [|done]. intros [= <-]. split; [right; by exists id, e|].
      rewrite Forall_forall in Huok. by apply (Huok _ Hu).
  - assert (Hnot : id ∉ (unique_changes changes).*1).
    { intros ([i r'] & -> & Hu)%list_elem_of_fmap. assert (Hf : final changes i = Some (i, r')) by (by apply Hfinal). simpl in *. congruence. }
    split.
    + intros [[[Hr _]|(i & e & He & ->)] Hid]; [apply Hmem in Hr; by rewrite Hid in Hr|]. exfalso. apply Hnot.
      apply list_elem_of_fmap. exists (i, Some e). split; [|done]. rewrite Forall_forall in Huok. destruct (Huok _ He) as [Hi _]. simpl in *. congruence.
    + intros Hr. pose proof Hr as Hv. apply visible_lookup in Hv as (_ & _ & _ & Hid); [|apply (slots_distinct _ _ (so_slots _ _ _ _ Hok))].
      split; [|done]. left. rewrite Hid. split; [|done]. apply Hmem. by rewrite Hid.
Qed.
End remap_proofs.
