(* ===== verification/SnapshotUpdate.v ===== *)
(** * core/src/index_store.rs, [apply_changes]: a snapshot after a change

    The next snapshot is made from the previous one and the rows that changed:
    slots are kept or appended, the posting maps, the numeric columns and the
    table are edited slot by slot, and the sorted orders are repaired at the
    end.  The theorems: the new snapshot is sound whenever the previous one
    was, and its visible rows are the previous ones with the changes applied
    in their order, whichever way the change was made.

    [pair_changes] and [trigram_changes] are scratch term sets.  Not part of
    the model: the pool of shared labels, and which cache sections the new
    snapshot goes on sharing with the previous one. *)
From S2P Require Import Prelude Bitmap OrderedMerge SlotOrder NaturalOrder Text TextView Float QueryLex QueryNumber QuerySyntax.
From S2P Require Import FileEntry ResultOrder SlotSort SnapshotOrders SnapshotSort FileSlots PostingMap.
From S2P Require MetadataPostings.
From S2P Require Import Columns IntegerColumn TextPool EntryChunk EntryPool EntryCompact EntryTable NumericColumns SnapshotData SnapshotRemap.

Definition delta_exceeds_incremental_limit : string := "delta_exceeds_incremental_limit".

(** ** What a change touches *)

Section flags.
Context `{Json}.
Implicit Types (was_live : bool) (old replacement : option IndexedFile).
Definition path_changed was_live old replacement : bool :=
  negb was_live ||
  match old, replacement with Some old, Some new => negb (bool_decide (i_path old = i_path new)) | _, _ => true end.
Definition index_changed was_live old replacement : bool :=
  match old, replacement with
  | Some old, Some new =>
    if was_live then negb (bool_decide (i_name old = i_name new)) || negb (bool_decide (i_path old = i_path new)) else true
  | _, _ => true
  end.
Definition name_changed was_live old replacement : bool :=
  match old, replacement with
  | Some old, Some new => if was_live then negb (bool_decide (i_name old = i_name new)) else true
  | _, _ => true
  end.
Definition metadata_changed was_live old replacement : bool :=
  match old, replacement with
  | Some old, Some new =>
    if was_live then
      negb (bool_decide (i_name old = i_name new)) || negb (bool_decide (i_extension old = i_extension new)) ||
      negb (Bool.eqb (i_is_dir old) (i_is_dir new)) || negb (Bool.eqb (i_is_symlink old) (i_is_symlink new))
    else true
  | _, _ => true
  end.
Definition numeric_changed old (entry : IndexedFile) : bool :=
  match old with
  | None => true
  | Some old =>
    negb (i_size old =? i_size entry)%N || negb (i_modified old =? i_modified entry)%Z ||
    negb (i_created old =? i_created entry)%Z || negb (Bool.eqb (i_is_dir old) (i_is_dir entry))
  end.
End flags.

Section update.
Context {B : Type} `{Roaring B, RoaringBytes B} `{JsonShape, Unicode} {Sec : Type} `{!UnstableSort}.
Notation SnapshotData := (SnapshotData B Sec).
Notation EntryTable := (EntryTable B Sec).

(** The variables of the loop. *)
Record Pending := {
  p_entries : EntryTable;
  p_slots : FileSlots;
  p_live : B;
  p_trigrams : PostingMap B;
  p_metadata : MetadataPostings.MetadataPostings (B := B);
  p_numeric : NumericColumns B;
  order_changes : B;
  path_changes : B;
  changed_slots : B;
  pair_changes : GramChanges;
  trigram_changes : GramChanges;
}.
Definition pending_start (previous : SnapshotData) : Pending :=
  {| p_entries := entries previous; p_slots := file_slots previous; p_live := sn_live previous;
     p_trigrams := trigrams previous; p_metadata := metadata_postings previous; p_numeric := numeric_columns previous;
     order_changes := bm_new; path_changes := bm_new; changed_slots := bm_new;
     pair_changes := {| previous := []; next := [] |}; trigram_changes := {| previous := []; next := [] |} |}.

(** [if slot == entries.len() { push } else { set }] *)
Definition place_row (tb : EntryTable) (slot : nat) (row : IndexedFile) : option EntryTable :=
  if slot =? table_len tb then push tb row else table_set tb slot row.
(** A slot's new row; [old] is the row in its slot, live or not. *)
Definition store_row (st : Pending) (slot : nat) (was_live : bool) (old : option IndexedFile) (new : IndexedFile) :
    option Pending :=
  let s := N.of_nat slot in
  let before := if was_live then old else None in
  let entry := prepare_replacement new old in
  numeric ← (if numeric_changed old entry then columns_set (p_numeric st) s entry else Some (p_numeric st));
  let '(pairs, metadata) :=
    if metadata_changed was_live old (Some new) then
      match before with
      | Some old => MetadataPostings.update s old entry (pair_changes st) (p_metadata st)
      | None => (pair_changes st, MetadataPostings.insert s entry (p_metadata st))
      end
    else (pair_changes st, p_metadata st) in
  let '(grams, trigrams_) :=
    if name_changed was_live old (Some new) then
      apply 0 3 (trigram_changes st) (p_trigrams st) s (from_option i_search_name [] before) (i_search_name entry)
    else (trigram_changes st, p_trigrams st) in
  tb ← place_row (p_entries st) slot entry;
  Some {| p_entries := tb; p_slots := p_slots st; p_live := bm_insert s (p_live st); p_trigrams := trigrams_;
          p_metadata := metadata; p_numeric := numeric; order_changes := order_changes st;
          path_changes := path_changes st; changed_slots := changed_slots st; pair_changes := pairs;
          trigram_changes := grams |}.
(** A slot whose row is gone. *)
Definition remove_row (st : Pending) (slot : nat) (was_live : bool) (old : option IndexedFile) : Pending :=
  let s := N.of_nat slot in
  let '(metadata, grams, trigrams_) :=
    match (if was_live then old else None) with
    | Some old =>
      let '(grams, trigrams_) := apply 0 3 (trigram_changes st) (p_trigrams st) s (i_search_name old) [] in
      (MetadataPostings.remove s old (p_metadata st), grams, trigrams_)
    | None => (p_metadata st, trigram_changes st, p_trigrams st)
    end in
  {| p_entries := p_entries st; p_slots := p_slots st; p_live := bm_remove s (p_live st); p_trigrams := trigrams_;
     p_metadata := metadata; p_numeric := p_numeric st; order_changes := order_changes st;
     path_changes := path_changes st; changed_slots := changed_slots st; pair_changes := pair_changes st;
     trigram_changes := grams |}.
Definition mark (flag : bool) (slot : nat) (b : B) : B := if flag then bm_insert (N.of_nat slot) b else b.
(** The body of the loop once the slot is known. *)
Definition change_slot (st : Pending) (slots : FileSlots) (slot : nat) (replacement : option IndexedFile) : option Pending :=
  old ← old_row (p_entries st) slot;
  let was_live := bm_contains (N.of_nat slot) (p_live st) in
  let st := {| p_entries := p_entries st; p_slots := slots; p_live := p_live st; p_trigrams := p_trigrams st;
               p_metadata := p_metadata st; p_numeric := p_numeric st;
               order_changes := mark (index_changed was_live old replacement) slot (order_changes st);
               path_changes := mark (path_changed was_live old replacement) slot (path_changes st);
               changed_slots := mark true slot (changed_slots st);
               pair_changes := pair_changes st; trigram_changes := trigram_changes st |} in
  match replacement with
  | Some new => store_row st slot was_live old new
  | None => Some (remove_row st slot was_live old)
  end.
Definition apply_change (st : Pending) (change : SnapshotChange) : option (result Pending) :=
  let '(id, replacement) := change in
  slot ← slots_get (id_at (p_entries st)) (p_slots st) id;
  match slot, replacement with
  | Some slot, _ => st ← change_slot st (p_slots st) slot replacement; Some (Ok st)
  | None, Some _ =>
    added ← append_at (id_at (p_entries st)) (p_slots st) id (table_len (p_entries st));
    match added with
    | Ok (slot, slots) => st ← change_slot st slots slot replacement; Some (Ok st)
    | Err e => Some (Err e)
    end
  | None, None => Some (Ok st)
  end.
Fixpoint apply_each (st : Pending) (changes : list SnapshotChange) : option (result Pending) :=
  match changes with
  | [] => Some (Ok st)
  | change :: changes =>
    r ← apply_change st change;
    match r with Ok st => apply_each st changes | Err e => Some (Err e) end
  end.

(** ** The orders afterwards *)

Definition relevant (previous : SnapshotData) (live : B) (tb : EntryTable) (order : ResultOrder) (slot : N) : bool :=
  negb (Bool.eqb (bm_contains slot (sn_live previous)) (bm_contains slot live)) ||
  match row_of (entries previous) slot, row_of tb slot with
  | Some old, Some new => affected_by_change order old new
  | _, _ => true
  end.
Definition update_cached (previous : SnapshotData) (changed live : B) (tb : EntryTable)
    (cached : ResultOrder * SlotOrder Sec) : option (ResultOrder * SlotOrder Sec) :=
  let '(order, slots) := cached in
  let relevant := foldl (λ b slot, bm_insert slot b) bm_new
                    (filter (λ slot, relevant previous live tb order slot = true) (bm_iter changed)) in
  if bm_is_empty relevant then Some (order, slots)
  else updated ← updated_order slots (row_of (entries previous)) relevant live (row_of tb) order; Some (order, updated).
Definition updated_name_order (previous : SnapshotData) (changed live : B) (tb : EntryTable) : option (SlotOrder Sec) :=
  if bm_is_empty changed then Some (sn_name_order previous)
  else updated_order (sn_name_order previous) (row_of (entries previous)) changed live (row_of tb) order_name.
Definition updated_paths (previous : SnapshotData) (changed live : B) (tb : EntryTable) : option (SlotOrder Sec * B) :=
  if bm_is_empty changed then Some (sn_path_order previous, sn_path_ties previous)
  else
    order ← updated_order (sn_path_order previous) (row_of (entries previous)) changed live (row_of tb) order_path;
    ties ← updated_path_ties (sn_path_ties previous) (sn_path_order previous) (row_of (entries previous)) changed live
             (row_of tb) order;
    Some (order, ties).
Definition finish_changes (generation_ : N) (previous : SnapshotData) (st : Pending) : option SnapshotData :=
  tb ← finish_update (p_entries st);
  name_order_ ← updated_name_order previous (order_changes st) (p_live st) tb;
  numeric ← columns_finish tb (p_numeric st);
  paths ← updated_paths previous (path_changes st) (p_live st) tb;
  cached ← mapM (update_cached previous (changed_slots st) (p_live st) tb) (cached_orders previous);
  Some {| entries := tb; file_slots := p_slots st; sn_live := p_live st; trigrams := p_trigrams st;
          sn_name_order := name_order_; sn_path_order := paths.1; sn_path_ties := paths.2;
          metadata_postings := p_metadata st; numeric_columns := numeric;
          name_column := NameColumn.name_column_build tb; generation := generation_;
          content_revision := content_revision previous; cached_orders := cached |}.
Definition apply_changes (changes : list SnapshotChange) (generation_ : N) (previous : SnapshotData) :
    option (result SnapshotData) :=
  if needs_compaction previous then sn ← remap_changes changes generation_ previous; Some (Ok sn)
  else
    st ← apply_each (pending_start previous) (sort_by_key fst changes);
    match st with
    | Ok st => sn ← finish_changes generation_ previous st; Some (Ok sn)
    | Err e => Some (Err e)
    end.
Definition from_changes_with_reason (changes : list SnapshotChange) (generation_ : N) (previous : SnapshotData) :
    option (result SnapshotData) :=
  if incremental_limit (snapshot_len previous) <? length changes then Some (Err delta_exceeds_incremental_limit)
  else apply_changes changes generation_ previous.
End update.
Arguments Pending B {_} Sec.

(** ** One slot *)

Section slot_proofs.
Context {B : Type} `{RoaringLaws B} `{!RoaringBytes B, !RoaringBytesLaws B} `{JsonShapeLaws, Unicode} {Sec : Type} `{!UnstableSort}.
Notation SnapshotData := (SnapshotData B Sec).
Notation Pending := (Pending B Sec).
Implicit Types (rows : list IndexedFile) (live changed : B) (st : Pending).

Lemma to_owned_id (row : IndexedFile) : to_owned_file row = row.
Proof. destruct row. unfold to_owned_file; simpl. done. Qed.
Lemma live_rows_put rows live slot row :
  slot ≤ length rows →
  live_rows (put rows slot row) (bm_insert (N.of_nat slot) live) = <[N.of_nat slot := row]> (live_rows rows live).
Proof.
  intros Hs. apply map_eq. intros x. rewrite live_rows_lookup, contains_insert, put_lookup by done.
  destruct (N.eqb_spec x (N.of_nat slot)) as [->|Hne]; simpl.
  - by rewrite Nat2N.id, decide_True, lookup_insert_eq.
  - by rewrite lookup_insert_ne, live_rows_lookup, decide_False by lia.
Qed.
Lemma live_rows_remove rows live slot :
  live_rows rows (bm_remove slot live) = delete slot (live_rows rows live).
Proof.
  apply map_eq. intros x. rewrite live_rows_lookup, contains_remove. destruct (N.eqb_spec x slot) as [->|Hne]; simpl.
  - by rewrite lookup_delete_eq.
  - by rewrite lookup_delete_ne, live_rows_lookup.
Qed.
Lemma gram_empty key : gram 3 [] key = false.
Proof.
  unfold gram. destruct (Nat.eqb_spec (length key) 3) as [Hl|]; [|done]. simpl. apply not_true_iff_false.
  intros (x & y & Hxy)%found_spec. by destruct x, key.
Qed.
(** A row whose own columns a change left alone keeps its derived terms. *)
Lemma tracks_unchanged slot old row mp (rows : gmap N IndexedFile) :
  MetadataPostings.tracks (B := B) mp rows → rows !! slot = Some old → sound_row old → sound_row row →
  metadata_changed true (Some old) (Some row) = false →
  MetadataPostings.tracks mp (<[slot := row]> rows).
Proof.
  intros (Hwf & Hvalid & Hl) Hs (_ & _ & Hpo) (_ & Hv & Hpr) Hm. unfold metadata_changed in Hm.
  rewrite !orb_false_iff, !negb_false_iff, !bool_decide_eq_true, !Bool.eqb_true_iff in Hm. destruct Hm as [[[Hn He] Hd] Hsl].
  split; [done|]. split; [by apply map_Forall_insert_2|]. intros kind key s. rewrite Hl.
  destruct (decide (s = slot)) as [->|]; [|by rewrite lookup_insert_ne]. rewrite lookup_insert_eq, Hs. simpl.
  assert (Hsn : i_search_name old = i_search_name row) by (rewrite <-Hpo, <-Hpr; simpl; by rewrite Hn).
  assert (Hfe : i_folded_extension old = i_folded_extension row) by (rewrite <-Hpo, <-Hpr; simpl; by rewrite He).
  unfold MetadataPostings.row_term, MetadataPostings.extension_key. simpl. by rewrite Hsn, Hfe, He, Hd, Hsl.
Qed.
Lemma numeric_unchanged nc rows slot old row :
  numeric_ok (B := B) nc rows → rows !! slot = Some old → numeric_changed (Some old) row = false →
  numeric_ok nc (put rows slot row).
Proof.
  intros Hnc Hs Hn field. unfold numeric_changed in Hn.
  rewrite !orb_false_iff, !negb_false_iff, N.eqb_eq, !Z.eqb_eq, Bool.eqb_true_iff in Hn. destruct Hn as [[[Hsz Hm] Hc] Hd].
  assert (Hv : row_value field old = row_value field row).
  { destruct field; simpl; unfold size_value; simpl; by rewrite ?Hsz, ?Hm, ?Hc, ?Hd. }
  pose proof (lookup_lt_Some _ _ _ Hs) as Hlt.
  replace (row_value field <$> put rows slot row) with (row_value field <$> rows); [apply Hnc|].
  apply list_eq. intros i. rewrite !list_lookup_fmap, put_lookup by lia. case_decide as Hi; [subst|done].
  rewrite Hs. simpl. by rewrite Hv.
Qed.
Lemma trigrams_store m (live_ : gmap N IndexedFile) slot before row g :
  trigrams_ok m live_ → live_ !! slot = before →
  trigrams_ok (apply 0 3 g m slot (from_option i_search_name [] before) (i_search_name row)).2 (<[slot := row]> live_).
Proof.
  intros [Hwf Hhas] Hs.
  destruct (apply_spec 0 ltac:(lia) 3 g m slot (from_option i_search_name [] before) (i_search_name row)) as [Hwf' Hhas'];
    [lia|done|intros key; rewrite Hhas, Hs; destruct before; [done|]; symmetry; apply gram_empty|].
  split; [done|]. intros key s. rewrite Hhas'. destruct (N.eqb_spec s slot) as [->|Hne]; [by rewrite lookup_insert_eq|].
  by rewrite lookup_insert_ne, Hhas.
Qed.
Lemma trigrams_remove m (live_ : gmap N IndexedFile) slot row g :
  trigrams_ok m live_ → live_ !! slot = Some row →
  trigrams_ok (apply 0 3 g m slot (i_search_name row) []).2 (delete slot live_).
Proof.
  intros [Hwf Hhas] Hs.
  destruct (apply_spec 0 ltac:(lia) 3 g m slot (i_search_name row) []) as [Hwf' Hhas']; [lia|done|intros key; by rewrite Hhas, Hs|].
  split; [done|]. intros key s. rewrite Hhas'. destruct (N.eqb_spec s slot) as [->|Hne]; [rewrite lookup_delete_eq; apply gram_empty|].
  by rewrite lookup_delete_ne, Hhas.
Qed.
Lemma trigrams_unchanged m (live_ : gmap N IndexedFile) slot old row :
  trigrams_ok m live_ → live_ !! slot = Some old → sound_row old → sound_row row → i_name old = i_name row →
  trigrams_ok m (<[slot := row]> live_).
Proof.
  intros [Hwf Hhas] Hs (_ & _ & Hpo) (_ & _ & Hpr) Hn. split; [done|]. intros key s. rewrite Hhas.
  destruct (decide (s = slot)) as [->|]; [|by rewrite lookup_insert_ne]. rewrite lookup_insert_eq, Hs. simpl.
  by rewrite <-Hpo, <-Hpr; simpl; rewrite Hn.
Qed.
Lemma place_row_spec n k (tb : EntryTable B Sec) rows slot row :
  table_ok (row_bytes row + n) (3 + k) tb rows → row_ok row → slot ≤ length rows →
  ∃ tb', place_row tb slot row = Some tb' ∧ table_ok n k tb' (put rows slot row).
Proof.
  intros Htb Hrow Hs. unfold place_row, put. pose proof Htb as (_ & _ & _ & _ & -> & _).
  destruct (Nat.eqb_spec slot (length rows)); [by apply push_spec|apply table_set_spec; done || lia].
Qed.
End slot_proofs.

(** ** The loop *)

Section loop_proofs.
Context {B : Type} `{RoaringLaws B} `{!RoaringBytes B, !RoaringBytesLaws B} `{JsonShapeLaws, Unicode} {Sec : Type} `{!UnstableSort}.
Notation SnapshotData := (SnapshotData B Sec).
Notation Pending := (Pending B Sec).
Implicit Types (rows : list IndexedFile) (live changed : B) (st : Pending).

(** The derived parts against the rows, half way through the loop. *)
Record indexed (n k : nat) st rows : Prop := {
  in_table : table_ok n k (p_entries st) rows;
  in_rows : Forall sound_row rows;
  in_live x : bm_contains x (p_live st) = true → N.to_nat x < length rows;
  in_trigrams : trigrams_ok (p_trigrams st) (live_rows rows (p_live st));
  in_metadata : MetadataPostings.tracks (p_metadata st) (live_rows rows (p_live st));
  in_numeric : numeric_ok (p_numeric st) rows;
}.
Lemma before_live n k st rows slot old :
  indexed n k st rows → rows !! slot = old →
  live_rows rows (p_live st) !! N.of_nat slot = (if bm_contains (N.of_nat slot) (p_live st) then old else None).
Proof. intros _ <-. by rewrite live_rows_lookup, Nat2N.id. Qed.

Lemma store_row_spec n k st rows slot new :
  indexed (row_bytes (prepare new) + n) (3 + k) st rows → slot ≤ length rows → (N.of_nat (length rows) ≤ u32_max)%N →
  sound_row (prepare new) →
  ∃ st', store_row st slot (bm_contains (N.of_nat slot) (p_live st)) (rows !! slot) new = Some st' ∧
    indexed n k st' (put rows slot (prepare new)) ∧ p_live st' = bm_insert (N.of_nat slot) (p_live st) ∧
    p_slots st' = p_slots st ∧ order_changes st' = order_changes st ∧ path_changes st' = path_changes st ∧
    changed_slots st' = changed_slots st.
Proof.
  intros Hin Hslot Hn Hrow. pose proof Hin as [Htb Hrows Hlive Htri Hmeta Hnum].
  set (old := rows !! slot). set (was_live := bm_contains (N.of_nat slot) (p_live st)).
  pose proof (before_live _ _ _ _ slot old Hin eq_refl) as Hbefore. fold was_live in Hbefore.
  assert (Hold : ∀ o, old = Some o → sound_row o) by (intros o Ho; by apply (Forall_lookup_1 _ _ _ _ Hrows Ho)).
  unfold store_row. rewrite prepare_replacement_spec by (intros p Hp; by apply Hold).
  assert (Hnumeric : ∃ nc, (if numeric_changed old (prepare new) then columns_set (p_numeric st) (N.of_nat slot) (prepare new)
    else Some (p_numeric st)) = Some nc ∧ numeric_ok nc (put rows slot (prepare new))).
  { destruct (numeric_changed old (prepare new)) eqn:Hc.
    - destruct (numeric_columns_set_spec (p_numeric st) rows (prepare new) (N.of_nat slot)) as (nc & -> & Hnc); [done|done|lia|].
      rewrite Nat2N.id, to_owned_id in Hnc. by exists nc.
    - exists (p_numeric st). split; [done|]. destruct old as [o|] eqn:Ho; [|done]. by apply (numeric_unchanged _ _ _ o). }
  destruct Hnumeric as (nc & -> & Hnc). cbn [mbind option_bind].
  assert (Hmetadata : ∃ pairs mp, (if metadata_changed was_live old (Some new) then
      match (if was_live then old else None) with
      | Some o => MetadataPostings.update (N.of_nat slot) o (prepare new) (pair_changes st) (p_metadata st)
      | None => (pair_changes st, MetadataPostings.insert (N.of_nat slot) (prepare new) (p_metadata st))
      end
    else (pair_changes st, p_metadata st)) = (pairs, mp) ∧
    MetadataPostings.tracks mp (<[N.of_nat slot := prepare new]> (live_rows rows (p_live st)))).
  { destruct (metadata_changed was_live old (Some new)) eqn:Hc.
    - destruct (if was_live then old else None) as [o|] eqn:Ho.
      + eexists _, _. split; [apply surjective_pairing|]. by apply MetadataPostings.tracks_update; [..|apply Hrow].
      + eexists _, _. split; [done|]. by apply MetadataPostings.tracks_insert; [..|apply Hrow].
    - eexists _, _. split; [done|]. destruct old as [o|] eqn:Ho, was_live; try done.
      apply (tracks_unchanged _ o); [done|done|by apply Hold|done|done]. }
  destruct Hmetadata as (pairs & mp & -> & Hmp).
  assert (Htrigrams : ∃ grams m, (if name_changed was_live old (Some new) then
      apply 0 3 (trigram_changes st) (p_trigrams st) (N.of_nat slot)
        (from_option i_search_name [] (if was_live then old else None)) (i_search_name (prepare new))
    else (trigram_changes st, p_trigrams st)) = (grams, m) ∧
    trigrams_ok m (<[N.of_nat slot := prepare new]> (live_rows rows (p_live st)))).
  { destruct (name_changed was_live old (Some new)) eqn:Hc.
    - eexists _, _. split; [apply surjective_pairing|]. by apply trigrams_store.
    - eexists _, _. split; [done|]. destruct old as [o|] eqn:Ho, was_live; try done. simpl in Hc.
      apply negb_false_iff, bool_decide_eq_true in Hc.
      apply (trigrams_unchanged _ _ _ o); [done|done|by apply Hold|done|done]. }
  destruct Htrigrams as (grams & m & -> & Hm).
  destruct (place_row_spec n k (p_entries st) rows slot (prepare new) Htb (proj1 (proj1 Hrow)) Hslot) as (tb & -> & Htb').
  cbn [mbind option_bind]. eexists. split; [done|]. split_and!; try done.
  split; cbn [p_entries p_live p_trigrams p_metadata p_numeric]; rewrite ?live_rows_put by done; try done.
  - apply Forall_forall. intros r (i & Hr)%list_elem_of_lookup. rewrite put_lookup in Hr by done.
    case_decide; [by injection Hr as <-|]. by apply (Forall_lookup_1 _ _ _ _ Hrows Hr).
  - intros x. rewrite contains_insert, put_length by done. intros [->%N.eqb_eq|Hx]%orb_true_iff.
    + rewrite Nat2N.id. destruct (Nat.eqb_spec slot (length rows)); lia.
    + specialize (Hlive x Hx). destruct (slot =? length rows); simpl in *; lia.
Qed.
Lemma remove_row_spec n k st rows slot :
  indexed n k st rows →
  let st' := remove_row st slot (bm_contains (N.of_nat slot) (p_live st)) (rows !! slot) in
  indexed n k st' rows ∧ p_live st' = bm_remove (N.of_nat slot) (p_live st) ∧ p_slots st' = p_slots st ∧
    order_changes st' = order_changes st ∧ path_changes st' = path_changes st ∧ changed_slots st' = changed_slots st.
Proof.
  intros Hin. pose proof Hin as [Htb Hrows Hlive Htri Hmeta Hnum]. pose proof (before_live _ _ _ _ slot _ Hin eq_refl) as Hbefore.
  assert (Hlive' : ∀ x, bm_contains x (bm_remove (N.of_nat slot) (p_live st)) = true → N.to_nat x < length rows).
  { intros x. rewrite contains_remove. intros [_ Hx]%andb_true_iff. by apply Hlive. }
  unfold remove_row. destruct (if bm_contains _ _ then _ else _) as [o|] eqn:Ho.
  - pose proof (trigrams_remove _ _ _ o (trigram_changes st) Htri Hbefore) as Hm.
    pose proof (MetadataPostings.tracks_remove _ o _ _ Hmeta Hbefore) as Hmp.
    destruct (apply 0 3 _ _ _ _ _) as [grams m]. split_and!; try done.
    split; cbn [p_entries p_live p_trigrams p_metadata p_numeric]; rewrite ?live_rows_remove; done.
  - split_and!; try done.
    split; cbn [p_entries p_live p_trigrams p_metadata p_numeric]; rewrite ?live_rows_remove, ?delete_id by done; done.
Qed.

(** Outside [changed] the live slots are as before, with rows related by [P]. *)
Definition kept (P : relation IndexedFile) rows0 live0 rows live changed : Prop :=
  ∀ s, bm_contains s changed = false → bm_contains s live = bm_contains s live0 ∧
    (bm_contains s live = true → ∃ r0 r, rows0 !! N.to_nat s = Some r0 ∧ rows !! N.to_nat s = Some r ∧ P r0 r).
Lemma kept_start P `{!Reflexive P} rows live :
  (∀ x, bm_contains x live = true → N.to_nat x < length rows) → kept P rows live rows live bm_new.
Proof.
  intros Hlive s _. split; [done|]. intros Hs%Hlive. apply lookup_lt_is_Some in Hs as [r Hr]. by exists r, r.
Qed.
Lemma kept_step P `{!Transitive P} rows0 live0 rows live rows' live' changed slot flag :
  kept P rows0 live0 rows live changed →
  (∀ s, s ≠ N.of_nat slot → bm_contains s live' = bm_contains s live ∧ rows' !! N.to_nat s = rows !! N.to_nat s) →
  (flag = false → bm_contains (N.of_nat slot) live = true ∧ bm_contains (N.of_nat slot) live' = true ∧
     ∃ r r', rows !! slot = Some r ∧ rows' !! slot = Some r' ∧ P r r') →
  kept P rows0 live0 rows' live' (mark flag slot changed).
Proof.
  intros Hk Hother Hflag s. unfold mark. destruct flag.
  - rewrite contains_insert. intros [Hne%N.eqb_neq Hs]%orb_false_iff. destruct (Hother s Hne) as [-> ->]. by apply Hk.
  - intros Hs. destruct (decide (s = N.of_nat slot)) as [->|Hne]; [|destruct (Hother s Hne) as [-> ->]; by apply Hk].
    destruct (Hflag eq_refl) as (Hl & Hl' & r & r' & Hr & Hr' & Hp). destruct (Hk _ Hs) as [Hk1 Hk2].
    destruct (Hk2 Hl) as (r0 & r1 & Hr0 & Hr1 & Hp0). rewrite Nat2N.id in *. split; [congruence|]. intros _.
    exists r0, r'. assert (r1 = r) as -> by congruence. split_and!; [done|done|]. by transitivity r.
Qed.
(** What the name order and the path order read of a row. *)
Definition same_names (a b : IndexedFile) : Prop := i_name a = i_name b ∧ i_path a = i_path b ∧ i_id a = i_id b.
Definition same_paths (a b : IndexedFile) : Prop := i_path a = i_path b ∧ i_id a = i_id b.
#[export] Instance same_names_preorder : PreOrder same_names.
Proof. split; [done|]. intros a b c (? & ? & ?) (? & ? & ?). unfold same_names. split_and!; congruence. Qed.
#[export] Instance same_paths_preorder : PreOrder same_paths.
Proof. split; [done|]. intros a b c (? & ?) (? & ?). unfold same_paths. split_and!; congruence. Qed.
Record pending_ok (n k : nat) rows0 live0 st rows : Prop := {
  pe_indexed : indexed n k st rows;
  pe_slots : slots_ok (p_slots st) (i_id <$> rows);
  pe_changed : kept eq rows0 live0 rows (p_live st) (changed_slots st);
  pe_order : kept same_names rows0 live0 rows (p_live st) (order_changes st);
  pe_path : kept same_paths rows0 live0 rows (p_live st) (path_changes st);
  pe_bound x : bm_contains x (changed_slots st) = true ∨ bm_contains x (order_changes st) = true ∨
    bm_contains x (path_changes st) = true → N.to_nat x < length rows;
}.

Definition marks_ok rows st : Prop := ∀ x, bm_contains x (changed_slots st) = true ∨ bm_contains x (order_changes st) = true ∨
  bm_contains x (path_changes st) = true → N.to_nat x < length rows.
Lemma mark_bound flag slot (b : B) x len : slot < len → bm_contains x (mark flag slot b) = true →
  (bm_contains x b = true → N.to_nat x < len) → N.to_nat x < len.
Proof.
  intros Hs. unfold mark. destruct flag; [|auto]. rewrite contains_insert. intros [->%N.eqb_eq|Hx]%orb_true_iff Hb; [lia|auto].
Qed.
Lemma table_ok_weaken n k n' k' (tb : EntryTable B Sec) rows : n' ≤ n → k' ≤ k → table_ok n k tb rows → table_ok n' k' tb rows.
Proof.
  intros Hn Hk (blocks & -> & Hfull & Hf & Hlen & H1' & H2' & H3' & Hb). exists blocks. split_and!; try done; try lia.
  eapply Forall2_impl; [exact Hf|]. intros c b. by apply chunk_good_weaken.
Qed.
Lemma visible_put rows live slot row :
  slot ≤ length rows → NoDup (i_id <$> rows) → NoDup (i_id <$> put rows slot row) →
  (∀ r, rows !! slot = Some r → i_id r = i_id row) →
  visible (put rows slot row) (bm_insert (N.of_nat slot) live) = <[i_id row := row]> (visible rows live).
Proof.
  intros Hs Hnd Hnd' Hid. apply map_eq. intros id. apply option_eq. intros r. rewrite visible_lookup by done.
  setoid_rewrite contains_insert. setoid_rewrite put_lookup; [|done].
  destruct (decide (id = i_id row)) as [->|Hne].
  - rewrite lookup_insert_eq. split.
    + intros (x & Hx & Hr & Hri). case_decide as Hxs; [done|]. exfalso. apply Hxs.
      apply (NoDup_lookup (i_id <$> put rows slot row) _ _ (i_id row) Hnd'); rewrite list_lookup_fmap, put_lookup by done;
        [by rewrite decide_False, Hr by done; simpl; rewrite Hri|by rewrite decide_True].
    + intros [= <-]. exists (N.of_nat slot). rewrite N.eqb_refl, Nat2N.id. by rewrite decide_True.
  - rewrite lookup_insert_ne, visible_lookup by done. split.
    + intros (x & Hx & Hr & Hri). case_decide as Hxs; [congruence|]. exists x.
      apply orb_true_iff in Hx as [->%N.eqb_eq|Hx]; [by rewrite Nat2N.id in Hxs|done].
    + intros (x & Hx & Hr & Hri). exists x. rewrite Hx, orb_true_r. split; [done|]. rewrite decide_False; [done|].
      intros <-. specialize (Hid r Hr). congruence.
Qed.
Lemma visible_remove rows live slot r :
  NoDup (i_id <$> rows) → rows !! slot = Some r → visible rows (bm_remove (N.of_nat slot) live) = delete (i_id r) (visible rows live).
Proof.
  intros Hnd Hr. apply map_eq. intros id. apply option_eq. intros x. rewrite visible_lookup by done.
  setoid_rewrite contains_remove. destruct (decide (id = i_id r)) as [->|Hne].
  - rewrite lookup_delete_eq. split; [|done]. intros (y & [Hy%negb_true_iff%N.eqb_neq _]%andb_true_iff & Hx & Hxi). destruct Hy.
    apply N2Nat.inj. rewrite Nat2N.id. apply (NoDup_lookup (i_id <$> rows) _ _ (i_id r) Hnd); rewrite list_lookup_fmap, ?Hx, ?Hr; [|done].
    simpl. by rewrite Hxi.
  - rewrite lookup_delete_ne, visible_lookup by done. split.
    + intros (y & [_ Hy]%andb_true_iff & Hx & Hxi). by exists y.
    + intros (y & Hy & Hx & Hxi). exists y. split; [|done]. rewrite Hy, andb_true_r. apply negb_true_iff, N.eqb_neq.
      intros ->. rewrite Nat2N.id in Hx. congruence.
Qed.
Lemma index_unchanged was_live old new :
  index_changed was_live old (Some new) = false → (∀ o, old = Some o → i_id o = i_id new) →
  was_live = true ∧ ∃ o, old = Some o ∧ same_names o (prepare new).
Proof.
  unfold index_changed. destruct old as [o|], was_live; try done. intros [Hn Hp]%orb_false_iff Hid.
  apply negb_false_iff, bool_decide_eq_true in Hn, Hp. split; [done|]. exists o. split; [done|]. split_and!; [done|done|by apply Hid].
Qed.
Lemma path_unchanged was_live old new :
  path_changed was_live old (Some new) = false → (∀ o, old = Some o → i_id o = i_id new) →
  was_live = true ∧ ∃ o, old = Some o ∧ same_paths o (prepare new).
Proof.
  unfold path_changed. destruct old as [o|], was_live; try done. simpl. intros Hp Hid.
  apply negb_false_iff, bool_decide_eq_true in Hp. split; [done|]. exists o. split; [done|]. split_and!; [done|by apply Hid].
Qed.

Lemma store_slot_spec n k rows0 live0 st rows fs slot new :
  pending_ok (row_bytes (prepare new) + n) (3 + k) rows0 live0 st rows → slot ≤ length rows →
  (N.of_nat (S (length rows)) ≤ u32_max)%N → sound_row (prepare new) →
  (∀ r, rows !! slot = Some r → i_id r = i_id new) → slots_ok fs (i_id <$> put rows slot (prepare new)) →
  ∃ st', change_slot st fs slot (Some new) = Some st' ∧ pending_ok n k rows0 live0 st' (put rows slot (prepare new)) ∧
    visible (put rows slot (prepare new)) (p_live st') = <[i_id new := prepare new]> (visible rows (p_live st)).
Proof.
  intros [Hin Hslots Hch Ho Hp Hb] Hslot Hn Hrow Hid Hfs. unfold change_slot.
  rewrite (old_row_spec _ _ _ rows slot (in_table _ _ _ _ Hin)). cbn [mbind option_bind].
  set (was_live := bm_contains (N.of_nat slot) (p_live st)).
  set (st1 := {| p_entries := p_entries st |}).
  destruct (store_row_spec n k st1 rows slot new) as (st' & Hst' & Hin' & Hlive & Hsl & Hoc & Hpc & Hcc);
    [by destruct Hin|done|lia|done|].
  change (p_live st1) with (p_live st) in *. fold was_live in Hst'. rewrite Hst'.
  pose proof (put_length rows slot (prepare new) Hslot) as Hlen.
  assert (Hlt : slot < length (put rows slot (prepare new))) by (rewrite Hlen; destruct (Nat.eqb_spec slot (length rows)); lia).
  assert (Hother : ∀ x, x ≠ N.of_nat slot → bm_contains x (p_live st') = bm_contains x (p_live st) ∧
    put rows slot (prepare new) !! N.to_nat x = rows !! N.to_nat x).
  { intros x Hx. rewrite Hlive, contains_insert, put_lookup by done. apply N.eqb_neq in Hx as Hxb. rewrite Hxb. split; [done|].
    apply decide_False. intros E. apply Hx. lia. }
  assert (Hself : bm_contains (N.of_nat slot) (p_live st') = true ∧ put rows slot (prepare new) !! slot = Some (prepare new)).
  { rewrite Hlive, contains_insert, N.eqb_refl, put_lookup by done. by rewrite decide_True. }
  destruct Hself as [Hsl1 Hsl2]. exists st'. split; [done|]. split.
  - split; [done|by rewrite Hsl|..].
    + rewrite Hcc. eapply (kept_step eq); [exact Hch|done|done].
    + rewrite Hoc. eapply (kept_step same_names); [exact Ho|done|]. intros Hf. destruct (index_unchanged _ _ _ Hf Hid) as (Hl & o & Ho' & Hs).
      split_and!; [done|done|]. by exists o, (prepare new).
    + rewrite Hpc. eapply (kept_step same_paths); [exact Hp|done|]. intros Hf. destruct (path_unchanged _ _ _ Hf Hid) as (Hl & o & Ho' & Hs).
      split_and!; [done|done|]. by exists o, (prepare new).
    + rewrite Hcc, Hoc, Hpc. intros x Hx.
      assert (Hle : length rows ≤ length (put rows slot (prepare new))) by (rewrite Hlen; case_match; lia).
      assert (Hb' : ∀ x, bm_contains x (changed_slots st) = true ∨ bm_contains x (order_changes st) = true ∨
        bm_contains x (path_changes st) = true → N.to_nat x < length (put rows slot (prepare new))) by (intros y Hy; specialize (Hb y Hy); lia).
      destruct Hx as [Hx|[Hx|Hx]]; (eapply mark_bound; [exact Hlt|exact Hx|intros; apply Hb'; auto]).
  - rewrite Hlive. change (i_id new) with (i_id (prepare new)). apply visible_put; [done| | |done].
    + apply (slots_distinct _ _ Hslots).
    + apply (slots_distinct _ _ Hfs).
Qed.
Lemma remove_slot_spec n k rows0 live0 st rows slot r :
  pending_ok n k rows0 live0 st rows → rows !! slot = Some r →
  ∃ st', change_slot st (p_slots st) slot None = Some st' ∧ pending_ok n k rows0 live0 st' rows ∧
    visible rows (p_live st') = delete (i_id r) (visible rows (p_live st)).
Proof.
  intros [Hin Hslots Hch Ho Hp Hb] Hr. unfold change_slot.
  rewrite (old_row_spec _ _ _ rows slot (in_table _ _ _ _ Hin)). cbn [mbind option_bind].
  set (was_live := bm_contains (N.of_nat slot) (p_live st)).
  set (st1 := {| p_entries := p_entries st |}).
  destruct (remove_row_spec n k st1 rows slot) as (Hin' & Hlive & Hsl & Hoc & Hpc & Hcc); [by destruct Hin|].
  change (p_live st1) with (p_live st) in *. fold was_live in Hin', Hlive, Hsl, Hoc, Hpc, Hcc.
  set (st' := remove_row st1 slot was_live (rows !! slot)) in *.
  assert (Hother : ∀ x, x ≠ N.of_nat slot → bm_contains x (p_live st') = bm_contains x (p_live st) ∧ rows !! N.to_nat x = rows !! N.to_nat x).
  { intros x Hx%N.eqb_neq. by rewrite Hlive, contains_remove, Hx. }
  assert (Hi : index_changed was_live (rows !! slot) None = true) by (by rewrite Hr).
  assert (Hpf : path_changed was_live (rows !! slot) None = true) by (unfold path_changed; rewrite Hr; apply orb_true_r).
  exists st'. split; [done|]. split.
  - split; [done|by rewrite Hsl|..].
    + rewrite Hcc. eapply (kept_step eq); [exact Hch|done|done].
    + rewrite Hoc. eapply (kept_step same_names); [exact Ho|done|]. by rewrite Hi.
    + rewrite Hpc. eapply (kept_step same_paths); [exact Hp|done|]. by rewrite Hpf.
    + rewrite Hcc, Hoc, Hpc. intros x Hx. apply lookup_lt_Some in Hr as Hlt.
      destruct Hx as [Hx|[Hx|Hx]]; (eapply mark_bound; [exact Hlt|exact Hx|intros; apply Hb; auto]).
  - rewrite Hlive. apply visible_remove; [apply (slots_distinct _ _ Hslots)|done].
Qed.
End loop_proofs.

(** ** The whole batch *)

Section batch_proofs.
Context {B : Type} `{RoaringLaws B} `{!RoaringBytes B, !RoaringBytesLaws B} `{JsonShapeLaws, Unicode} {Sec : Type} `{!UnstableSort}.
Notation SnapshotData := (SnapshotData B Sec).
Notation Pending := (Pending B Sec).
Notation SlotOrder := (SlotOrder Sec).
Implicit Types (rows : list IndexedFile) (live changed : B) (st : Pending).

(** What a change may add to the text of a block. *)
Definition change_bytes (change : SnapshotChange) : nat :=
  match change.2 with Some row => row_bytes (prepare row) | None => 0 end.
Lemma ids_put rows slot row :
  slot ≤ length rows → (∀ r, rows !! slot = Some r → i_id r = i_id row) →
  slot < length rows → i_id <$> put rows slot row = i_id <$> rows.
Proof.
  intros Hs Hid Hlt. apply list_eq. intros i. rewrite !list_lookup_fmap, put_lookup by done.
  case_decide as Hi; [subst i|done]. destruct (lookup_lt_is_Some_2 _ _ Hlt) as [r Hr]. rewrite Hr. simpl. by rewrite (Hid r Hr).
Qed.
Lemma pending_weaken n k n' k' rows0 live0 st rows :
  n' ≤ n → k' ≤ k → pending_ok n k rows0 live0 st rows → pending_ok n' k' rows0 live0 st rows.
Proof.
  intros Hn Hk [[Htb Hr Hl Ht Hm Hnum] Hs Hc Ho Hp Hb]. split; [|done..]. split; [|done..]. by apply (table_ok_weaken n k).
Qed.
Lemma apply_change_spec n k rows0 live0 st rows change :
  pending_ok (change_bytes change + n) (3 + k) rows0 live0 st rows → change_ok change →
  (N.of_nat (S (length rows)) ≤ u32_max)%N →
  ∃ st' rows', apply_change st change = Some (Ok st') ∧ pending_ok n k rows0 live0 st' rows' ∧
    length rows' ≤ S (length rows) ∧ visible rows' (p_live st') = apply_visible (visible rows (p_live st)) change.
Proof.
  destruct change as [id replacement]. intros Hst Hch Hn. pose proof Hst as [Hin Hslots _ _ _ _].
  unfold apply_change. destruct (slot_lookup _ _ _ rows _ id (in_table _ _ _ _ Hin) Hslots) as (found & -> & Hfound).
  cbn [mbind option_bind]. destruct found as [slot|].
  - destruct Hfound as (old & Hold & Hid). pose proof (lookup_lt_Some _ _ _ Hold) as Hlt. destruct replacement as [new|].
    + destruct Hch as [Hnew Hsound]. simpl in Hnew, Hsound.
      assert (Hsame : ∀ r, rows !! slot = Some r → i_id r = i_id new) by (intros r Hr; congruence).
      destruct (store_slot_spec n k rows0 live0 st rows (p_slots st) slot new) as (st' & -> & Hok & Hv); [done|lia|done|done|done| |].
      { by rewrite ids_put by (done || lia). }
      cbn [mbind option_bind]. exists st', (put rows slot (prepare new)). split_and!; [done|done| |].
      * rewrite put_length by lia. case_match; lia.
      * rewrite Hv, Hnew. done.
    + destruct (remove_slot_spec (change_bytes (id, None) + n) (3 + k) rows0 live0 st rows slot old Hst Hold) as (st' & -> & Hok & Hv).
      cbn [mbind option_bind]. exists st', rows. split_and!; [done|by eapply pending_weaken; [..|exact Hok]; simpl; lia|lia|].
      rewrite Hv, Hid. done.
  - destruct replacement as [new|].
    + destruct Hch as [Hnew Hsound]. simpl in Hnew, Hsound.
      destruct (append_at_spec (p_slots st) (i_id <$> rows) id [] Hslots) as (added & Hadded & Hspec).
      rewrite app_nil_r, length_fmap in Hadded.
      rewrite (append_at_ext _ (λ i, (i_id <$> rows) !! i)) by (intros i; by eapply id_at_spec, Hin).
      pose proof (in_table _ _ _ _ Hin) as (_ & _ & _ & _ & -> & _). rewrite Hadded. cbn [mbind option_bind].
      destruct added as [[slot slots]|e]; simpl in Hspec.
      * destruct Hspec as (-> & _ & _ & Hslots'). rewrite length_fmap in *.
        assert (Hput : put rows (length rows) (prepare new) = rows ++ [prepare new]) by (unfold put; by rewrite Nat.eqb_refl).
        destruct (store_slot_spec n k rows0 live0 st rows slots (length rows) new) as (st' & -> & Hok & Hv); [done|lia|done|done| | |].
        { intros r Hr. apply lookup_lt_Some in Hr. lia. }
        { rewrite Hput, fmap_app. simpl. by rewrite Hnew. }
        cbn [mbind option_bind]. exists st', (put rows (length rows) (prepare new)). split_and!; [done|done| |].
        -- rewrite Hput, length_app. simpl. lia.
        -- rewrite Hv, Hnew. done.
      * exfalso. rewrite length_fmap in Hspec. destruct Hspec as [[_ Hover]|[_ Hdup]]; [lia|done].
    + exists st, rows. split_and!; [done|by eapply pending_weaken; [..|exact Hst]; simpl; lia|lia|].
      unfold apply_visible. simpl. rewrite delete_id; [done|]. apply eq_None_not_Some. intros [r Hr].
      apply visible_lookup in Hr as (s & _ & Hr & <-); [|apply (slots_distinct _ _ Hslots)].
      apply Hfound, list_elem_of_fmap. exists r. split; [done|by eapply list_elem_of_lookup_2].
Qed.
Lemma apply_each_spec n k rows0 live0 changes st rows :
  pending_ok (sum_list (change_bytes <$> changes) + n) (3 * length changes + k) rows0 live0 st rows → Forall change_ok changes →
  (N.of_nat (length rows + length changes) ≤ u32_max)%N →
  ∃ st' rows', apply_each st changes = Some (Ok st') ∧ pending_ok n k rows0 live0 st' rows' ∧
    length rows' ≤ length rows + length changes ∧
    visible rows' (p_live st') = changed_visible (visible rows (p_live st)) changes.
Proof.
  revert st rows. induction changes as [|c changes IH]; intros st rows Hst Hch Hn; cbn [apply_each].
  { exists st, rows. split_and!; [done|done|lia|done]. }
  apply Forall_cons in Hch as [Hc Hch]. cbn [fmap list_fmap sum_list sum_list_with length] in *.
  destruct (apply_change_spec (sum_list (change_bytes <$> changes) + n) (3 * length changes + k) rows0 live0 st rows c)
    as (st1 & rows1 & -> & Hst1 & Hlen & Hv1); [|done|lia|].
  { eapply pending_weaken; [..|exact Hst]; simpl; lia. }
  cbn [mbind option_bind]. destruct (IH st1 rows1 Hst1 Hch ltac:(lia)) as (st' & rows' & Hr & Hst' & Hl & Hv).
  exists st', rows'. split_and!; [done|done|lia|]. by rewrite Hv, Hv1.
Qed.

(** *** Orders *)

Definition unaffected (order : ResultOrder) : relation IndexedFile := λ a b, affected_by_change order a b = false.
Lemma unaffected_refl order a : unaffected order a a.
Proof.
  unfold unaffected, affected_by_change. rewrite (proj2 (view_eq_bytes _ _)) by done. rewrite Z.eqb_refl. simpl.
  induction order as [|[field direction] order IH]; [done|]. simpl. rewrite IH, orb_false_r.
  destruct field; simpl; rewrite ?bool_decide_true, ?N.eqb_refl, ?Z.eqb_refl, ?Bool.eqb_reflx; done.
Qed.
Lemma same_paths_unaffected a b : same_paths a b → unaffected order_path a b.
Proof.
  intros [Hp Hi]. unfold unaffected, affected_by_change. simpl. rewrite Hi, Z.eqb_refl, (proj2 (view_eq_bytes _ _)); [done|].
  simpl. by rewrite Hp.
Qed.
Lemma same_names_unaffected a b : same_names a b → unaffected order_name a b.
Proof.
  intros (Hn & Hp & Hi). unfold unaffected, affected_by_change. simpl.
  rewrite Hi, Z.eqb_refl, Hn, bool_decide_true, (proj2 (view_eq_bytes _ _)); [done|simpl; by rewrite Hp|done].
Qed.
Lemma kept_impl (P Q : relation IndexedFile) rows0 live0 rows live changed :
  (∀ a b, P a b → Q a b) → kept P rows0 live0 rows live changed → kept Q rows0 live0 rows live changed.
Proof.
  intros HPQ Hk s Hs. destruct (Hk s Hs) as [Hl Hr]. split; [done|]. intros Hls. destruct (Hr Hls) as (r0 & r & ? & ? & ?).
  exists r0, r. auto.
Qed.
Lemma sound_folded row : sound_row row → folded_with fold row.
Proof. intros (_ & _ & Hp). split; [by rewrite <-Hp|]. rewrite <-Hp. done. Qed.

Section against.
Context (n k n0 k0 : nat) (previous : SnapshotData) (rows0 rows : list IndexedFile) (tb : EntryTable B Sec) (live : B).
Context (Hprev : snapshot_ok n0 k0 previous rows0) (Htb : table_ok n k tb rows) (Hsound : Forall sound_row rows)
  (Hn : (N.of_nat (length rows) ≤ u32_max)%N)
  (Hids : NoDup (i_id <$> rows)) (Hlive : ∀ x, bm_contains x live = true → N.to_nat x < length rows).

Lemma new_rows_ok : rows_ok (row_of tb) live.
Proof. by apply (table_rows_ok n k tb rows). Qed.
Lemma old_rows_ok : rows_ok (row_of (entries previous)) (sn_live previous).
Proof. apply (so_orders _ _ _ _ Hprev). Qed.
Lemma kept_compare order changed a b :
  kept (unaffected order) rows0 (sn_live previous) rows live changed →
  bm_contains a live = true → bm_contains b live = true → bm_contains a changed = false → bm_contains b changed = false →
  slot_compare (row_of tb) order a b = slot_compare (row_of (entries previous)) order a b.
Proof.
  intros Hk Ha Hb Hca Hcb. destruct (proj2 (Hk a Hca) Ha) as (a0 & a1 & Ha0 & Ha1 & Hua).
  destruct (proj2 (Hk b Hcb) Hb) as (b0 & b1 & Hb0 & Hb1 & Hub). unfold slot_compare.
  rewrite !(row_of_spec n k tb rows), !(row_of_spec n0 k0 (entries previous) rows0) by (done || apply Hprev).
  rewrite Ha0, Ha1, Hb0, Hb1.
  assert (Hf : ∀ s r, rows !! s = Some r → folded_with fold r) by (intros s r Hr; by apply sound_folded, (Forall_lookup_1 _ _ _ _ Hsound Hr)).
  assert (Hf0 : ∀ s r, rows0 !! s = Some r → folded_with fold r).
  { intros s r Hr. by apply sound_folded, (Forall_lookup_1 _ _ _ _ (so_rows _ _ _ _ Hprev) Hr). }
  destruct (unaffected_compare fold order a0 a1 b1) as [Hcmp1 _]; [by eapply Hf0|by eapply Hf|done|].
  destruct (unaffected_compare fold order b0 b1 a0) as [_ Hcmp2]; [by eapply Hf0|by eapply Hf|done|].
  by rewrite Hcmp1, Hcmp2.
Qed.
Lemma bm_len_bound (b : B) len : (∀ x, bm_contains x b = true → N.to_nat x < len) → bm_len b ≤ len.
Proof.
  intros Hb. assert (Hsub : (N.to_nat <$> bm_iter b) ⊆+ seq 0 len).
  { apply NoDup_submseteq; [apply NoDup_fmap_2; [intros ??; lia|apply bm_iter_NoDup]|].
    intros x (s & -> & Hs)%list_elem_of_fmap. apply elem_of_seq. apply contains_iter in Hs. specialize (Hb s Hs). lia. }
  apply submseteq_length in Hsub. by rewrite length_fmap, length_seq in Hsub.
Qed.
Lemma empty_contains (b : B) x : bm_is_empty b = true → bm_contains x b = false.
Proof.
  intros Hb. destruct (bm_contains x b) eqn:E; [|done]. apply contains_iter in E. unfold bm_is_empty in Hb.
  destruct (bm_iter b); [by apply elem_of_nil in E|done].
Qed.
(** An order after the change, repaired or taken over. *)
Lemma repaired_order order changed (o : SlotOrder) :
  sorted_order (row_of (entries previous)) order (sn_live previous) o →
  kept (unaffected order) rows0 (sn_live previous) rows live changed →
  (∀ x, bm_contains x changed = true → N.to_nat x < length rows) →
  ∃ o', (if bm_is_empty changed then Some o
         else updated_order o (row_of (entries previous)) changed live (row_of tb) order) = Some o' ∧
    sorted_order (row_of tb) order live o'.
Proof.
  intros Ho Hk Hb. destruct (bm_is_empty changed) eqn:He.
  - exists o. split; [done|]. pose proof Ho as (Hok & Hperm & Hs). split_and!; [done| |].
    + rewrite Hperm. apply NoDup_Permutation; [apply bm_iter_NoDup..|]. intros x.
      rewrite <-!contains_iter. by rewrite (proj1 (Hk x (empty_contains _ _ He))).
    + eapply StronglySorted_weaken; [|exact Hs]. intros x y Hx Hy. unfold cmp_le.
      rewrite (kept_compare order changed); rewrite ?(empty_contains changed) by done; try done;
        rewrite (proj1 (Hk _ (empty_contains _ _ He))); by apply (sorted_order_elem _ _ _ _ _ Ho).
  - destruct (updated_order_spec (row_of (entries previous)) (row_of tb) (sn_live previous) live changed order o) as (o' & Ho' & Hs).
    + apply old_rows_ok.
    + done.
    + intros s Hs. by apply Hk.
    + intros a b. by apply kept_compare.
    + pose proof (bm_len_bound (sn_live previous) (length rows0) (so_live _ _ _ _ Hprev)) as Hl0.
      pose proof (bm_len_bound changed (length rows) Hb) as Hl1. pose proof (so_count _ _ _ _ Hprev).
      unfold usize_max, u64_max, u32_max in *. lia.
    + by exists o'.
Qed.
Lemma repaired_paths changed :
  kept same_paths rows0 (sn_live previous) rows live changed →
  (∀ x, bm_contains x changed = true → N.to_nat x < length rows) →
  ∃ paths, updated_paths previous changed live tb = Some paths ∧
    sorted_order (row_of tb) order_path live paths.1 ∧ ties_ok (row_of tb) live paths.2.
Proof.
  intros Hk Hb. destruct (so_orders _ _ _ _ Hprev) as (Hrows0 & _ & Hpath & Hties). cbn [SnapshotSort.row SnapshotSort.live
    SnapshotSort.path_order SnapshotSort.path_ties ordered_of] in *.
  destruct (repaired_order order_path changed _ Hpath (kept_impl _ _ _ _ _ _ _ same_paths_unaffected Hk) Hb) as (o & Ho & Hs).
  assert (Hsame : ∀ a b, bm_contains a live = true → bm_contains b live = true → bm_contains a changed = false →
    bm_contains b changed = false → same_natural_path (row_of tb) a b = same_natural_path (row_of (entries previous)) a b).
  { intros a b Ha Hbl Hca Hcb. destruct (proj2 (Hk a Hca) Ha) as (a0 & a1 & Ha0 & Ha1 & Hpa & _).
    destruct (proj2 (Hk b Hcb) Hbl) as (b0 & b1 & Hb0 & Hb1 & Hpb & _). unfold same_natural_path.
    rewrite !(row_of_spec n k tb rows), !(row_of_spec n0 k0 (entries previous) rows0) by (done || apply Hprev).
    rewrite Ha0, Ha1, Hb0, Hb1. simpl.
    assert (Hfp : ∀ l s r, Forall sound_row l → l !! s = Some r → i_folded_path r = fold (i_path r)).
    { intros l s r Hl Hr. destruct (Forall_lookup_1 _ _ _ _ Hl Hr) as (_ & _ & Hp). by rewrite <-Hp. }
    by rewrite (Hfp rows _ a1), (Hfp rows _ b1), (Hfp rows0 _ a0), (Hfp rows0 _ b0), Hpa, Hpb by (done || apply Hprev). }
  unfold updated_paths. destruct (bm_is_empty changed) eqn:He.
  - injection Ho as <-. eexists. split; [done|]. split; [done|]. intros s. simpl. rewrite (Hties s). unfold tied.
    assert (Hl : ∀ x, bm_contains x (sn_live previous) = bm_contains x live) by (intros x; by rewrite (proj1 (Hk x (empty_contains _ _ He)))).
    split; intros [Hls (t & Hne & Hlt & Hst)]; (split; [congruence|]); exists t; (split_and!; [done|congruence|]);
      [rewrite Hsame|rewrite <-Hsame]; rewrite ?(empty_contains changed) by done; congruence.
  - rewrite Ho. cbn [mbind option_bind].
    destruct (updated_path_ties_spec (row_of (entries previous)) (row_of tb) (sn_live previous) live changed (sn_path_ties previous)
      (sn_path_order previous) o) as (ties & -> & Hties'); try done.
    + apply new_rows_ok.
    + intros s Hs'. by apply Hk.
    + eexists. by split.
Qed.
Lemma relevant_kept order changed :
  kept eq rows0 (sn_live previous) rows live changed →
  let b := foldl (λ b slot, bm_insert slot b) bm_new (filter (λ slot, relevant previous live tb order slot = true) (bm_iter changed)) in
  kept (unaffected order) rows0 (sn_live previous) rows live b ∧ ∀ x, bm_contains x b = true → bm_contains x changed = true.
Proof.
  intros Hk. cbv zeta. set (l := filter _ _).
  assert (Hfold : ∀ l (b : B) x, bm_contains x (foldl (λ b slot, bm_insert slot b) b l) = true ↔ x ∈ l ∨ bm_contains x b = true).
  { intros l0. induction l0 as [|s l0 IH]; intros b x; simpl; [rewrite elem_of_nil; tauto|].
    rewrite IH, contains_insert, orb_true_iff, N.eqb_eq, elem_of_cons. tauto. }
  assert (Hin : ∀ x, bm_contains x (foldl (λ b slot, bm_insert slot b) bm_new l) = true ↔
    relevant previous live tb order x = true ∧ bm_contains x changed = true).
  { intros x. rewrite Hfold, contains_new. unfold l. rewrite list_elem_of_filter, <-contains_iter. naive_solver. }
  split; [|intros x; rewrite Hin; tauto]. intros s Hs.
  destruct (bm_contains s changed) eqn:Hc.
  2:{ destruct (Hk s Hc) as [Hl Hr]. split; [done|]. intros Hls. destruct (Hr Hls) as (r0 & r & ? & ? & ->).
      exists r, r. split_and!; [done|done|apply unaffected_refl]. }
  assert (Hrel : relevant previous live tb order s = false).
  { destruct (relevant previous live tb order s) eqn:E; [|done].
    assert (bm_contains s (foldl (λ b slot, bm_insert slot b) bm_new l) = true) by (by apply Hin). congruence. }
  unfold relevant in Hrel. apply orb_false_iff in Hrel as [Hll Hrows]. apply negb_false_iff, Bool.eqb_prop in Hll.
  split; [done|]. intros _. rewrite (row_of_spec n k tb rows), (row_of_spec n0 k0 (entries previous) rows0) in Hrows by (done || apply Hprev).
  destruct (rows0 !! N.to_nat s) as [r0|], (rows !! N.to_nat s) as [r|]; try done. by exists r0, r.
Qed.
Lemma cached_updated changed :
  kept eq rows0 (sn_live previous) rows live changed →
  (∀ x, bm_contains x changed = true → N.to_nat x < length rows) →
  ∃ cached, mapM (update_cached previous changed live tb) (cached_orders previous) = Some cached ∧
    ∀ order o, (order, o) ∈ cached → sorted_order (row_of tb) order live o.
Proof.
  intros Hk Hb. pose proof (so_cached _ _ _ _ Hprev) as Hc. revert Hc.
  induction (cached_orders previous) as [|[order o] l IH]; intros Hc.
  { exists []. split; [done|]. by intros order o ?%elem_of_nil. }
  destruct IH as (cached & Hl & Hcached); [intros order' o' Hin; apply Hc; by right|].
  destruct (relevant_kept order changed Hk) as [Hrk Hsub]. cbv zeta in Hrk, Hsub.
  destruct (repaired_order order _ o (Hc order o ltac:(left)) Hrk ltac:(intros x Hx; by apply Hb, Hsub)) as (o' & Ho' & Hs).
  exists ((order, o') :: cached). split.
  - assert (Hstep : update_cached previous changed live tb (order, o) = Some (order, o')).
    { unfold update_cached. destruct (bm_is_empty _) eqn:He in Ho' |- *; [by injection Ho' as <-|by rewrite Ho']. }
    cbn [mapM]. rewrite Hstep. cbn [mbind option_bind]. by rewrite Hl.
  - intros order' o'' [[= -> ->]|Hin]%elem_of_cons; [done|by apply Hcached].
Qed.
End against.

Lemma pending_start_ok n k (previous : SnapshotData) rows :
  snapshot_ok n k previous rows → pending_ok n k rows (sn_live previous) (pending_start previous) rows.
Proof.
  intros [Htb Hr Hn Hs Hl Ht Hm Hnum Hc Ho Hca]. split; [by split|done|..]; try (by apply kept_start; [apply _|]).
  intros x. simpl. rewrite !contains_new. naive_solver.
Qed.
Lemma finish_changes_spec n k n0 k0 (previous : SnapshotData) rows0 st rows generation_ :
  snapshot_ok n0 k0 previous rows0 → pending_ok n k rows0 (sn_live previous) st rows →
  (N.of_nat (length rows) ≤ u32_max)%N →
  ∃ sn, finish_changes generation_ previous st = Some sn ∧ snapshot_ok n k sn rows ∧ sn_live sn = p_live st ∧
    generation sn = generation_ ∧ content_revision sn = content_revision previous.
Proof.
  intros Hprev [[Htb Hsound Hlive Htri Hmeta Hnum] Hslots Hch Ho Hp Hb] Hn. unfold finish_changes.
  pose proof (slots_distinct _ _ Hslots) as Hids.
  destruct (finish_update_spec n k _ rows Htb) as (tb & -> & Htb'). cbn [mbind option_bind].
  destruct (so_orders _ _ _ _ Hprev) as (_ & Hname & _ & _).
  cbn [SnapshotSort.row SnapshotSort.live SnapshotSort.name_order ordered_of] in Hname.
  destruct (repaired_order n k n0 k0 previous rows0 rows tb (p_live st) Hprev Htb' Hsound Hn order_name (order_changes st) _ Hname)
    as (name_order_ & Hno & Hnos); [by eapply kept_impl; [apply same_names_unaffected|]|intros x Hx; apply Hb; auto|].
  unfold updated_name_order. rewrite Hno. cbn [mbind option_bind].
  destruct (numeric_columns_finish_spec n k tb rows _ Htb' Hn Hnum) as (nc & -> & Hnc & Hclean). cbn [mbind option_bind].
  destruct (repaired_paths n k n0 k0 previous rows0 rows tb (p_live st) Hprev Htb' Hsound Hn Hids Hlive (path_changes st) Hp)
    as (paths & -> & Hpath & Hties); [intros x Hx; apply Hb; auto|]. cbn [mbind option_bind].
  destruct (cached_updated n k n0 k0 previous rows0 rows tb (p_live st) Hprev Htb' Hsound Hn (changed_slots st) Hch)
    as (cached & -> & Hcached); [intros x Hx; apply Hb; auto|]. cbn [mbind option_bind].
  eexists. split; [done|]. split; [|done].
  split; cbn [entries file_slots sn_live trigrams metadata_postings numeric_columns cached_orders]; try done.
  split_and!; [by apply (new_rows_ok n k rows)|done|done|done].
Qed.
Lemma apply_changes_spec n k (previous : SnapshotData) rows changes generation_ :
  (N.of_nat n + 2 ^ 31 ≤ u32_max)%N → (N.of_nat k + 12288 ≤ u32_max)%N →
  snapshot_ok (sum_list (change_bytes <$> changes) + n) (3 * length changes + k) previous rows →
  Forall change_ok changes → (N.of_nat (length rows + length changes) ≤ u32_max)%N →
  ∃ sn rows', apply_changes changes generation_ previous = Some (Ok sn) ∧ snapshot_ok n k sn rows' ∧
    visible rows' (sn_live sn) = changed_visible (visible rows (sn_live previous)) changes ∧
    generation sn = generation_ ∧ content_revision sn = content_revision previous ∧
    length rows' ≤ length rows + length changes.
Proof.
  intros Hroom Hlabels Hprev Hch Hn. unfold apply_changes. destruct (needs_compaction previous).
  { destruct (remap_changes_spec n k _ _ previous rows changes generation_ Hroom Hlabels Hprev Hch Hn)
      as (sn & rows' & -> & Hok & Hrest). by exists sn, rows'. }
  pose proof (sort_by_key_perm fst changes) as Hperm. pose proof (Permutation_length Hperm) as Hlen.
  destruct (apply_each_spec n k rows (sn_live previous) (sort_by_key fst changes) (pending_start previous) rows)
    as (st & rows' & -> & Hst & Hl & Hv).
  - apply pending_start_ok in Hprev. by rewrite Hlen, Hperm.
  - by rewrite Hperm.
  - by rewrite Hlen.
  - cbn [mbind option_bind]. destruct (finish_changes_spec n k _ _ previous rows st rows' generation_ Hprev Hst ltac:(lia))
      as (sn & -> & Hok & Hlive & Hrest). cbn [mbind option_bind]. exists sn, rows'. split_and!; try done; [|apply Hrest|apply Hrest|lia].
    rewrite Hlive, Hv. cbn [p_live pending_start]. apply changed_visible_sorted.
Qed.
End batch_proofs.

(** ** Histories *)

(** Batches published one after the other, each with its generation. *)
Fixpoint apply_batches `{Roaring B, RoaringBytes B} `{JsonShape, Unicode} {Sec : Type} `{!UnstableSort}
    (previous : SnapshotData B Sec) (batches : list (list SnapshotChange * N)) : option (result (SnapshotData B Sec)) :=
  match batches with
  | [] => Some (Ok previous)
  | (changes, generation_) :: batches =>
    r ← apply_changes changes generation_ previous;
    match r with Ok sn => apply_batches sn batches | Err e => Some (Err e) end
  end.
Section histories.
Context {B : Type} `{RoaringLaws B} `{!RoaringBytes B, !RoaringBytesLaws B} `{JsonShapeLaws, Unicode} {Sec : Type} `{!UnstableSort}.
Notation SnapshotData := (SnapshotData B Sec).

Definition batch_changes (batches : list (list SnapshotChange * N)) : list SnapshotChange := batches ≫= fst.
Lemma apply_batches_spec n k batches (previous : SnapshotData) rows :
  (N.of_nat (sum_list (change_bytes <$> batch_changes batches) + n) + 2 ^ 31 ≤ u32_max)%N →
  (N.of_nat (3 * length (batch_changes batches) + k) + 12288 ≤ u32_max)%N →
  snapshot_ok (sum_list (change_bytes <$> batch_changes batches) + n) (3 * length (batch_changes batches) + k) previous rows →
  Forall change_ok (batch_changes batches) → (N.of_nat (length rows + length (batch_changes batches)) ≤ u32_max)%N →
  ∃ sn rows', apply_batches previous batches = Some (Ok sn) ∧ snapshot_ok n k sn rows' ∧
    visible rows' (sn_live sn) = changed_visible (visible rows (sn_live previous)) (batch_changes batches).
Proof.
  revert previous rows. induction batches as [|[changes generation_] batches IH]; intros previous rows Hroom Hlabels Hprev Hch Hn; cbn [apply_batches].
  { by exists previous, rows. }
  change (batch_changes ((changes, generation_) :: batches)) with (changes ++ batch_changes batches) in *.
  rewrite fmap_app, sum_list_with_app in *. rewrite length_app in *. apply Forall_app in Hch as [Hc Hch].
  destruct (apply_changes_spec (sum_list (change_bytes <$> batch_changes batches) + n) (3 * length (batch_changes batches) + k)
    previous rows changes generation_) as (sn & rows1 & -> & Hok & Hv & _ & _ & Hlen); [lia|lia| |done|lia|].
  { by rewrite Nat.add_assoc, Nat.add_assoc, <-Nat.mul_add_distr_l. }
  cbn [mbind option_bind]. destruct (IH sn rows1) as (sn' & rows' & Hr & Hok' & Hv'); [lia|lia|done|done|lia|].
  exists sn', rows'. split_and!; [done|done|]. rewrite Hv', Hv. unfold changed_visible. by rewrite foldl_app.
Qed.
Lemma visible_all rows live :
  NoDup (i_id <$> rows) → (∀ x, bm_contains (B := B) x live = true ↔ N.to_nat x < length rows) →
  visible rows live = list_to_map ((λ row, (i_id row, row)) <$> rows).
Proof.
  intros Hnd Hlive. apply map_eq. intros id. apply option_eq. intros r. rewrite visible_lookup by done.
  rewrite <-elem_of_list_to_map by (by rewrite <-list_fmap_compose). rewrite list_elem_of_fmap. split.
  - intros (s & _ & Hr & <-). exists r. split; [done|by eapply list_elem_of_lookup_2].
  - intros (r' & [= -> ->] & (i & Hi)%list_elem_of_lookup). exists (N.of_nat i). rewrite Hlive, Nat2N.id.
    split_and!; [by eapply lookup_lt_Some|done|done].
Qed.
End histories.

(** C1: A change of a snapshot is its changes applied to the visible rows.  From
    a sound snapshot, a batch of changed rows (new, replaced, restored or
    gone, in any order, an id repeated or not) never fails or panics and gives
    a sound snapshot: table, slots of ids, live set, trigrams, metadata
    postings, numeric columns, name and path orders, ties and cached orders
    all match its rows, whether they were edited in place or, with too many
    dead slots, the table was rebuilt.  Its visible rows, by persistent id,
    are the previous ones with the changes applied one after the other, each
    row prepared from scratch; and a batch above the limit is refused before
    any work.  There is room for the batch: the text that a block's arena holds
    and the batch's stay below about 2 GiB, and the labels and rows in 32-bit
    counters. *)
Theorem snapshot_update_refines {B : Type} `{RoaringLaws B} `{!RoaringBytes B, !RoaringBytesLaws B} `{JsonShapeLaws, Unicode}
    {Sec : Type} `{!UnstableSort} n k (previous : SnapshotData B Sec) rows (changes : list SnapshotChange) generation_ :
  (N.of_nat n + 2 ^ 31 ≤ u32_max)%N → (N.of_nat k + 12288 ≤ u32_max)%N →
  snapshot_ok (sum_list (change_bytes <$> changes) + n) (3 * length changes + k) previous rows →
  Forall change_ok changes → (N.of_nat (length rows + length changes) ≤ u32_max)%N →
  ∃ sn rows', apply_changes changes generation_ previous = Some (Ok sn) ∧
    from_changes_with_reason changes generation_ previous =
      (if incremental_limit (snapshot_len previous) <? length changes then Some (Err delta_exceeds_incremental_limit)
       else Some (Ok sn)) ∧
    snapshot_ok n k sn rows' ∧
    visible rows' (sn_live sn) = changed_visible (visible rows (sn_live previous)) changes ∧
    generation sn = generation_ ∧ content_revision sn = content_revision previous.
Proof.
  intros Hroom Hlabels Hprev Hch Hn.
  destruct (apply_changes_spec n k previous rows changes generation_ Hroom Hlabels Hprev Hch Hn)
    as (sn & rows' & Hr & Hok & Hv & Hg & Hc & _).
  exists sn, rows'. split_and!; try done. unfold from_changes_with_reason. by rewrite Hr.
Qed.

(** C2: A history of a snapshot is a history of its rows.  Built from a source of
    rows with distinct ids, a snapshot fails exactly with the first error of
    the source; otherwise, whatever batches are published after it, every
    snapshot is sound and its visible rows are the source's rows with all the
    changes of all the batches applied in order.  The whole history has room:
    its changes have less than about 2 GiB of text, and its labels and rows
    stay in 32-bit counters. *)
Theorem snapshot_history_refines {B : Type} `{RoaringLaws B} `{!RoaringBytes B, !RoaringBytesLaws B} `{JsonShapeLaws, Unicode}
    {Sec : Type} `{!UnstableSort} (source : list (text + IndexedFile)) generation_ (batches : list (list SnapshotChange * N)) :
  Forall sound_row (source_rows (prepared_source source)) → NoDup (i_id <$> source_rows (prepared_source source)) →
  (N.of_nat (sum_list (change_bytes <$> batch_changes batches)) + 2 ^ 31 ≤ u32_max)%N →
  (N.of_nat (3 * length (batch_changes batches)) + 12288 ≤ u32_max)%N →
  Forall change_ok (batch_changes batches) →
  (N.of_nat (length (source_rows (prepared_source source)) + length (batch_changes batches)) ≤ u32_max)%N →
  match collect 0 (prepared_source source) with
  | inl e => snapshot_from_rows (B := B) (Sec := Sec) source generation_ = Some (inl e)
  | inr rows => ∃ start sn rows', snapshot_from_rows source generation_ = Some (inr start) ∧
      apply_batches start batches = Some (Ok sn) ∧ snapshot_ok (B := B) (Sec := Sec) 0 0 sn rows' ∧
      visible rows' (sn_live sn) = changed_visible (list_to_map ((λ row, (i_id row, row)) <$> rows)) (batch_changes batches)
  end.
Proof.
  intros Hsound Hnd Hroom Hlabels Hch Hn.
  pose proof (snapshot_from_rows_spec (B := B) (Sec := Sec) (sum_list (change_bytes <$> batch_changes batches) + 0)
    (3 * length (batch_changes batches) + 0) source generation_ ltac:(lia) ltac:(lia) Hsound Hnd) as Hstart.
  destruct (collect 0 (prepared_source source)) as [e|rows] eqn:Ec; [done|].
  destruct Hstart as (start & Hstart & Hok & Hlive & _). destruct (collect_count 0 _ _ Ec) as [Hrows _]. rewrite Hrows in Hnd, Hn.
  destruct (apply_batches_spec 0 0 batches start rows ltac:(lia) ltac:(lia) Hok Hch Hn) as (sn & rows' & Hr & Hok' & Hv).
  exists start, sn, rows'. split_and!; [done|done|done|]. by rewrite Hv, (visible_all rows).
Qed.

(** ** A small history *)

Section witnesses.
#[local] Existing Instance merging_sort.
#[local] Existing Instance ascii_unicode.
Notation raw := ResultOrder.sample_row.
Definition raw_b := raw 1 (lit "b1") 10.
Definition raw_a := raw 2 (lit "a2") 20.
Definition raw_z := raw 1 (lit "Z9") 11.
Definition raw_c := raw 3 (lit "c3") 7.
Ltac sound_sample :=
  split; [split; [split; [by intros []|split; [by intros []|done]]|by vm_compute]|
    split; [split; by_decide|by vm_compute]].
Lemma raws_sound : Forall (λ row, sound_row (prepare row)) [raw_b; raw_a; raw_z; raw_c].
Proof. repeat (constructor; [sound_sample|]). constructor. Qed.
Definition sample_source : list (text + IndexedFile) := [inr raw_b; inr raw_a].
Definition sample_changes : list SnapshotChange := [(3, Some raw_c); (2, None); (1, Some raw_z)]%Z.
Lemma sample_changes_ok : Forall change_ok sample_changes.
Proof.
  pose proof raws_sound as Hs. rewrite !Forall_cons in Hs. destruct Hs as (_ & _ & Hz & Hc & _).
  unfold sample_changes. rewrite !Forall_cons. unfold change_ok. simpl. done.
Qed.
Lemma sample_source_sound : Forall sound_row (source_rows (prepared_source sample_source)) ∧
  NoDup (i_id <$> source_rows (prepared_source sample_source)).
Proof.
  pose proof raws_sound as Hs. rewrite !Forall_cons in Hs. destruct Hs as (Hb & Ha & _).
  split; [|by_decide]. change (Forall sound_row [prepare raw_b; prepare raw_a]). by rewrite !Forall_cons.
Qed.
Lemma sample_snapshot n k : (N.of_nat n + 2 ^ 31 ≤ u32_max)%N → (N.of_nat k + 12288 ≤ u32_max)%N →
  ∃ sn : SnapshotData (gset N) (), snapshot_ok n k sn [prepare raw_b; prepare raw_a] ∧ sn_live sn = list_to_set [0; 1]%N.
Proof.
  intros Hn Hk. destruct sample_source_sound as [Hs Hnd].
  destruct (snapshot_from_rows_spec (B := gset N) (Sec := ()) n k sample_source 1 Hn Hk Hs Hnd) as (sn & _ & Hok & Hlive & _).
  exists sn. split; [done|]. apply set_eq. intros x. pose proof (Hlive x) as Hx. simpl in Hx. unfold bm_contains in Hx. simpl in Hx.
  rewrite bool_decide_eq_true in Hx. rewrite Hx. simpl. set_unfold. lia.
Qed.
Lemma snapshot_update_refines_witness :
  ∃ (previous sn : SnapshotData (gset N) ()) rows', apply_changes sample_changes 2 previous = Some (Ok sn) ∧
    snapshot_ok 0 0 sn rows' ∧ visible rows' (sn_live sn) !! 2%Z = None ∧
    visible rows' (sn_live sn) !! 1%Z = Some (prepare raw_z) ∧ visible rows' (sn_live sn) !! 3%Z = Some (prepare raw_c).
Proof.
  destruct (sample_snapshot (sum_list (change_bytes <$> sample_changes) + 0) (3 * length sample_changes + 0)) as (previous & Hok & _);
    [by vm_compute|by vm_compute|].
  destruct (snapshot_update_refines 0 0 previous [prepare raw_b; prepare raw_a] sample_changes 2) as (sn & rows' & Hr & _ & Hok' & Hv & _);
    [by vm_compute|by vm_compute|exact Hok|exact sample_changes_ok|by vm_compute|].
  exists previous, sn, rows'. split; [exact Hr|]. split; [exact Hok'|]. rewrite Hv, !changed_visible_lookup.
  split_and!; vm_compute; reflexivity.
Defined.
Lemma snapshot_history_refines_witness :
  ∃ (start sn : SnapshotData (gset N) ()) rows', snapshot_from_rows sample_source 1 = Some (inr start) ∧
    apply_batches start [(sample_changes, 2%N); ([(2, Some raw_a)]%Z, 3%N)] = Some (Ok sn) ∧ snapshot_ok 0 0 sn rows' ∧
    visible rows' (sn_live sn) !! 1%Z = Some (prepare raw_z) ∧ visible rows' (sn_live sn) !! 2%Z = Some (prepare raw_a).
Proof.
  destruct sample_source_sound as [Hs Hnd].
  pose proof (snapshot_history_refines (B := gset N) (Sec := ()) sample_source 1 [(sample_changes, 2%N); ([(2, Some raw_a)]%Z, 3%N)] Hs Hnd) as Hh.
  destruct Hh as (start & sn & rows' & Hstart & Hr & Hok & Hv); [by vm_compute|by vm_compute| |by vm_compute|].
  { pose proof sample_changes_ok as Hc. unfold batch_changes. apply Forall_app. split; [exact Hc|]. simpl.
    pose proof raws_sound as Hraws. rewrite !Forall_cons in Hraws. destruct Hraws as (_ & Ha & _). by rewrite Forall_cons. }
  exists start, sn, rows'. split; [exact Hstart|]. split; [exact Hr|]. split; [exact Hok|]. rewrite Hv, !changed_visible_lookup.
  split_and!; vm_compute; reflexivity.
Defined.
End witnesses.
