(* ===== verification/SnapshotQuery.v ===== *)
(** * core/src/index_store.rs: answering a query from the indexes of a snapshot

    A query whose terms are all kept in an index is answered exactly by bitmap
    algebra ([evaluate_exact]).  Other queries are narrowed to candidates by
    the trigrams of the literals that a match has to contain, and queries of
    name or path substrings are answered by a scan of the text columns
    ([match_name_columns]).  The theorems compare each answer with the
    evaluation of the query on every live row: exact answers and scans are the
    query, and candidates lack no match of a query with operands that narrowing
    may require ([narrowable]).  The last section is a query with another
    operand, of which a match is lost. *)
From S2P Require Import Prelude Bitmap Text TextView QueryLex Float QueryNumber QuerySyntax.
From S2P Require Import FileEntry TextMatch QueryEval Columns EntryTable PostingMap SlotSort FileSlots.
From S2P Require Import EntryChunk NumericColumns.
From S2P Require MetadataPostings NameColumn QueryParse.
From S2P Require Import SnapshotData SnapshotUpdate.

Section query.
Context `{Chrono, Unicode, Pcre, Memmem, JsonShape} {B : Type} `{Roaring B, RoaringBytes B} {Sec : Type} `{!UnstableSort}.
Notation SnapshotData := (SnapshotData B Sec).
Notation Query := (Query B).

(** ** Exact answers *)

Fixpoint supports_exact (q : Query) : bool :=
  match q with
  | QAnd queries | QOr queries => forallb supports_exact queries
  | QNot q => supports_exact q
  | QTerm term =>
    match term with
    | TResolved result => bm_is_empty (unknown result)
    | _ => if NumericColumns.supports term then true else MetadataPostings.supports q
    end
  | All => MetadataPostings.supports q
  end.
(** [result.yes.iter().filter_map(..).filter(..).collect()]; ids are [u64]s
    cast to [i64]. *)
Definition resolved_slot (sn : SnapshotData) (result : B) (id : N) : option B :=
  slot ← slot_for_id sn (i64_of_bits id);
  Some (match slot with
        | Some slot => if bm_contains (N.of_nat slot) (sn_live sn) then bm_insert (N.of_nat slot) result else result
        | None => result
        end).
Definition resolved_slots (sn : SnapshotData) (r : ResolvedPredicate B) : option B :=
  fold_option (resolved_slot sn) (bm_iter (yes r)) bm_new.
(** The loops over the operands; the conjunction stops at an empty set. *)
Definition and_exact {A} (f : A → polled B) : list A → B → polled B :=
  fix go l result :=
    match l with
    | [] => mret result
    | x :: l =>
      b ← f x;
      let result := bm_and result b in
      if bm_is_empty result then mret result else go l result
    end.
Definition or_exact {A} (f : A → polled B) : list A → B → polled B :=
  fix go l result :=
    match l with
    | [] => mret result
    | x :: l => b ← f x; go l (bm_or result b)
    end.
Definition metadata_index : string := "Metadata index cannot evaluate its declared field".
Definition numeric_index : string := "Numeric index cannot evaluate its declared field".
Definition exact_metadata (sn : SnapshotData) (q : Query) : polled B :=
  p_lift (ok_or (MetadataPostings.exact (metadata_postings sn) (sn_live sn) q) metadata_index).
Definition exact_numeric (sn : SnapshotData) (term : Term B Query) : polled B :=
  r ← NumericColumns.exact (numeric_columns sn) term (entries sn) (sn_live sn);
  p_lift (ok_or r numeric_index).
Definition exact_term (sn : SnapshotData) (term : Term B Query) : polled B :=
  match term with
  | TResolved result => p_some (resolved_slots sn result)
  | _ => if NumericColumns.supports term then exact_numeric sn term else exact_metadata sn (QTerm term)
  end.
Fixpoint evaluate_exact (sn : SnapshotData) (q : Query) : polled B :=
  check_cancelled;;
  match q with
  | QAnd queries => and_exact (evaluate_exact sn) queries (sn_live sn)
  | QOr queries => or_exact (evaluate_exact sn) queries bm_new
  | QNot q => b ← evaluate_exact sn q; mret (bm_sub (sn_live sn) b)
  | QTerm term => exact_term sn term
  | All => exact_metadata sn All
  end.
Definition exact_matches (sn : SnapshotData) (q : Query) : polled (option B) :=
  check_cancelled;;
  if supports_exact q then b ← evaluate_exact sn q; mret (Some b) else mret None.

(** ** Candidates *)

(** The postings of the distinct trigrams; [None] when one has none. *)
Fixpoint gather (sn : SnapshotData) (grams : list bytes) (seen : gset bytes) (postings : list B) : polled (option (list B)) :=
  match grams with
  | [] => mret (Some postings)
  | key :: grams =>
    check_cancelled;;
    if decide (key ∈ seen) then gather sn grams seen postings
    else match pm_get 0 (trigrams sn) key with
         | None => mret None
         | Some matches_ => gather sn grams ({[key]} ∪ seen) (postings ++ [matches_])
         end
  end.
(** [min_by_key(|(_, set)| set.len())]: the first of the smallest. *)
Fixpoint smallest (postings : list B) : option nat :=
  match postings with
  | [] => None
  | b :: postings =>
    match smallest postings with
    | None => Some 0
    | Some i => if bm_len b <=? from_option bm_len 0 (postings !! i) then Some 0 else Some (S i)
    end
  end.
(** [Vec::swap_remove] *)
Definition swap_remove {A} (i : nat) (l : list A) : option (A * list A) :=
  x ← l !! i; y ← last l; Some (x, take (length l - 1) (<[i := y]> l)).
Fixpoint intersect (result : B) (postings : list B) : polled B :=
  match postings with
  | [] => mret result
  | matches_ :: postings =>
    check_cancelled;;
    if bm_is_empty result then mret result else intersect (bm_and result matches_) postings
  end.
Definition literal_grams (q : Query) : list bytes := required_name_literals q ≫= λ l, windows 3 (utf8 l).
Definition trigram_candidates (sn : SnapshotData) (q : Query) : polled (option B) :=
  postings ← gather sn (literal_grams q) ∅ [];
  match postings with
  | None => mret (Some bm_new)
  | Some postings =>
    match smallest postings with
    | None => mret None
    | Some i =>
      '(result, postings) ← p_some (swap_remove i postings);
      result ← intersect result postings;
      mret (Some result)
    end
  end.
Definition and_candidates {A} (f : A → polled (option B)) : list A → option B → polled (option B) :=
  fix go l result :=
    match l with
    | [] => mret result
    | x :: l =>
      candidates ← f x;
      go l (match candidates, result with
            | Some candidates, Some result => Some (bm_and result candidates)
            | Some candidates, None => Some candidates
            | None, result => result
            end)
    end.
Definition or_candidates {A} (f : A → polled (option B)) : list A → B → polled (option B) :=
  fix go l result :=
    match l with
    | [] => mret (Some result)
    | x :: l =>
      candidates ← f x;
      match candidates with None => mret None | Some candidates => go l (bm_or result candidates) end
    end.
Fixpoint candidates_with_cancellation (sn : SnapshotData) (q : Query) : polled (option B) :=
  exact ← exact_matches sn q;
  match exact with
  | Some exact => mret (Some exact)
  | None =>
    match q with
    | QAnd queries => and_candidates (candidates_with_cancellation sn) queries None
    | QOr queries => or_candidates (candidates_with_cancellation sn) queries bm_new
    | q => trigram_candidates sn q
    end
  end.

(** ** Scans of the text columns *)

Definition match_name_columns (acquire : nat → option nat) (sn : SnapshotData) (q : Query) (exclusions : list Query) :
    polled (option B) :=
  match (match exclusions with [] => path_substring q | _ => None end) with
  | Some (finder, mode) => r ← NameColumn.match_paths (entries sn) finder mode (sn_live sn); mret (Some r)
  | None =>
    match NameColumn.compile q, NameColumn.compile_all NameColumn.compile exclusions with
    | Some expression, Some exclusions =>
      candidates ← candidates_with_cancellation sn q;
      let visible := (λ set, bm_and set (sn_live sn)) <$> candidates in
      r ← NameColumn.evaluate acquire (name_column sn) expression exclusions (default (sn_live sn) visible);
      mret (Some r)
    | _, _ => mret None
    end
  end.
End query.

(** ** Exact answers are the query *)

Section answers.
Context `{Chrono, Unicode, Pcre, MemmemLaws, JsonShapeLaws} {B : Type} `{RoaringLaws B} `{!RoaringBytes B, !RoaringBytesLaws B}
  {Sec : Type} `{!UnstableSort}.
Notation SnapshotData := (SnapshotData B Sec).
Notation Query := (Query B).
Implicit Types (sn : SnapshotData) (rows : list IndexedFile) (q : Query).

(** A term as the parser or the resolution of relations makes it. *)
Definition term_ready (t : Term B Query) : Prop :=
  match t with
  | TResolved r => ∀ id, bm_contains id (yes r) = true → (id < 2 ^ 64)%N
  | _ => MetadataPostings.finders (QTerm t)
  end.
Fixpoint ready q : Prop :=
  match q with
  | All => True
  | QAnd queries | QOr queries => foldr (λ q P, ready q ∧ P) True queries
  | QNot q => ready q
  | QTerm t => term_ready t
  end.
Lemma ready_operands (queries : list Query) : foldr (λ q P, ready q ∧ P) True queries ↔ Forall ready queries.
Proof. induction queries as [|q queries IH]; [by split|]. rewrite Forall_cons, <-IH. done. Qed.

Section of_snapshot.
Context (n k : nat) sn rows (Hsn : snapshot_ok n k sn rows).
Notation live := (sn_live sn).
(** The answer for the visible rows. *)
Notation answers q r := (MetadataPostings.answers live (live_rows rows live) q r).

Lemma live_row_lookup slot row : live_rows rows live !! slot = Some row ↔ bm_contains slot live = true ∧ rows !! N.to_nat slot = Some row.
Proof. rewrite live_rows_lookup. destruct (bm_contains slot live); naive_solver. Qed.
Lemma answers_intro q r :
  (∀ slot, bm_contains slot r = true → bm_contains slot live = true) →
  (∀ slot row content, bm_contains slot live = true → rows !! N.to_nat slot = Some row →
     denote q row content = Ok (bm_contains slot r)) → answers q r.
Proof. intros Hsub Hd. split; [done|]. intros slot row content Hlive [_ Hrow]%live_row_lookup. by apply Hd. Qed.
Lemma answers_at q r slot row content :
  answers q r → bm_contains slot live = true → rows !! N.to_nat slot = Some row → denote q row content = Ok (bm_contains slot r).
Proof. intros [_ Hd] Hlive Hrow. apply Hd; [done|]. by apply live_row_lookup. Qed.

(** *** Resolved relations *)

Lemma resolved_slot_spec result id :
  ∃ r, resolved_slot sn result id = Some r ∧ ∀ x, bm_contains x r = true ↔ bm_contains x result = true ∨
    bm_contains x live = true ∧ ∃ row, rows !! N.to_nat x = Some row ∧ i_id row = i64_of_bits id.
Proof.
  unfold resolved_slot, slot_for_id.
  destruct (slot_lookup n k (entries sn) rows (file_slots sn) (i64_of_bits id) (so_table _ _ _ _ Hsn) (so_slots _ _ _ _ Hsn))
    as (found_ & -> & Hfound). cbn [mbind option_bind]. destruct found_ as [slot|].
  - destruct Hfound as (row & Hrow & Hid).
    assert (Hsame : ∀ x row', rows !! N.to_nat x = Some row' → i_id row' = i64_of_bits id → x = N.of_nat slot).
    { intros x row' Hrow' Hid'. assert (N.to_nat x = slot) as <-; [|lia].
      apply (NoDup_lookup (i_id <$> rows) _ _ (i64_of_bits id) (slots_distinct _ _ (so_slots _ _ _ _ Hsn)));
        rewrite list_lookup_fmap; [by rewrite Hrow', <-Hid'|by rewrite Hrow, <-Hid]. }
    eexists. split; [done|]. intros x. destruct (bm_contains (N.of_nat slot) live) eqn:Hlive.
    + rewrite contains_insert, orb_true_iff, N.eqb_eq. split.
      * intros [->|?]; [right|by left]. split; [done|]. exists row. by rewrite Nat2N.id.
      * intros [?|(_ & row' & Hrow' & Hid')]; [by right|left]. by apply (Hsame x row').
    + split; [by left|]. intros [?|(Hx & row' & Hrow' & Hid')]; [done|]. rewrite (Hsame x row' Hrow' Hid') in Hx. congruence.
  - eexists. split; [done|]. intros x. split; [by left|]. intros [?|(_ & row & Hrow & Hid)]; [done|].
    exfalso. apply Hfound. rewrite <-Hid. apply list_elem_of_fmap_2. by eapply list_elem_of_lookup_2.
Qed.
Lemma resolved_slots_spec r :
  ∃ b, resolved_slots sn r = Some b ∧ ∀ x, bm_contains x b = true ↔ bm_contains x live = true ∧
    ∃ row id, rows !! N.to_nat x = Some row ∧ bm_contains id (yes r) = true ∧ i_id row = i64_of_bits id.
Proof.
  unfold resolved_slots.
  assert (Hfold : ∀ l b0, ∃ b, fold_option (resolved_slot sn) l b0 = Some b ∧ ∀ x, bm_contains x b = true ↔ bm_contains x b0 = true ∨
    bm_contains x live = true ∧ ∃ row id, rows !! N.to_nat x = Some row ∧ id ∈ l ∧ i_id row = i64_of_bits id).
  { induction l as [|id l IH]; intros b0.
    - exists b0. split; [done|]. intros x. split; [by left|]. intros [?|(_ & row & id & _ & Hid & _)]; [done|]. by apply not_elem_of_nil in Hid.
    - destruct (resolved_slot_spec b0 id) as (b1 & Hb1 & Hspec1). destruct (IH b1) as (b & Hb & Hspec).
      exists b. cbn [fold_option]. rewrite Hb1. split; [done|]. intros x. rewrite Hspec, Hspec1. split.
      + intros [[?|(Hx & row & Hrow & Hid)]|(Hx & row & id' & Hrow & Hin & Hid)]; [by left|right..]; (split; [done|]);
          [exists row, id|exists row, id']; (split_and!; [done|set_solver|done]).
      + intros [?|(Hx & row & id' & Hrow & [->|Hin]%elem_of_cons & Hid)]; [by left; left|left; right|right];
          (split; [done|]); [by exists row|by exists row, id']. }
  destruct (Hfold (bm_iter (yes r)) bm_new) as (b & Hb & Hspec). exists b. split; [done|]. intros x. rewrite Hspec, contains_new. split.
  - intros [?|(Hx & row & id & Hrow & Hid%contains_iter & Heq)]; [done|]. split; [done|]. by exists row, id.
  - intros (Hx & row & id & Hrow & Hid%contains_iter & Heq). right. split; [done|]. by exists row, id.
Qed.
Lemma resolved_answers r b :
  (∀ id, bm_contains id (yes r) = true → (id < 2 ^ 64)%N) → resolved_slots sn r = Some b → answers (QTerm (TResolved r)) b.
Proof.
  intros Hids Hb. destruct (resolved_slots_spec r) as (b' & Hb' & Hspec). assert (b' = b) as -> by congruence.
  apply answers_intro; [intros slot (? & _)%Hspec; done|]. intros slot row content Hlive Hrow.
  change (Ok (bool_decide (truth r row = Some true)) = Ok (bm_contains slot b)). f_equal.
  assert (Hrowid : fits_in i64 (i_id row)).
  { destruct (Forall_lookup_1 _ _ _ _ (so_rows _ _ _ _ Hsn) Hrow) as (((Hi & _) & _) & _). exact (Hi FId). }
  assert (Htruth : truth r row = Some true ↔ bm_contains (i64_bits (i_id row)) (yes r) = true).
  { unfold truth, id_u64. change (Z.to_N (id row mod 2 ^ 64)) with (i64_bits (i_id row)).
    destruct (bm_contains _ (yes r)); [done|]. by destruct (bm_contains _ (unknown r)). }
  apply eq_true_iff_eq. rewrite bool_decide_eq_true, Htruth, Hspec. split.
  - intros Hy. split; [done|]. exists row, (i64_bits (i_id row)). split_and!; [done..|]. symmetry. by apply (from_to_bits (e := i64)).
  - intros (_ & row' & id' & Hrow' & Hy & Hid). simplify_eq. rewrite Hid. by rewrite IntegerColumn.i64_bits_of_bits by (by apply Hids).
Qed.

(** *** Operands *)

Definition evaluates (m : polled B) q : Prop := ∃ r, cancels_to m (Ok r) ∧ answers q r.
Lemma evaluates_all_result queries rs slot row content :
  Forall2 (λ q r, answers q r) queries rs → bm_contains slot live = true → rows !! N.to_nat slot = Some row →
  all_result (λ q, denote q row content) queries = Ok (forallb (bm_contains slot) rs) ∧
  any_result (λ q, denote q row content) queries = Ok (existsb (bm_contains slot) rs).
Proof.
  intros Hall Hlive Hrow. induction Hall as [|q r queries rs Hq _ [IHa IHo]]; [done|]. simpl.
  rewrite (answers_at q r slot row content Hq Hlive Hrow). simpl. by destruct (bm_contains slot r).
Qed.
Lemma evaluates_list (f : Query → polled B) queries :
  Forall (λ q, evaluates (f q) q) queries →
  ∃ rs, Forall2 (λ q r, cancels_to (f q) (Ok r)) queries rs ∧ Forall2 (λ q r, answers q r) queries rs.
Proof.
  induction 1 as [|q queries (r & Hr & Ha) _ (rs & Hrs & Has)]; [by exists []|].
  exists (r :: rs). split; by constructor.
Qed.
Lemma and_exact_spec (f : Query → polled B) queries rs result :
  Forall2 (λ q r, cancels_to (f q) (Ok r)) queries rs →
  ∃ r, cancels_to (and_exact f queries result) (Ok r) ∧
    ∀ slot, bm_contains slot r = bm_contains slot result && forallb (bm_contains slot) rs.
Proof.
  intros Hall. revert result. induction Hall as [|q r queries rs Hq _ IH]; intros result; cbn [and_exact].
  { exists result. split; [apply cancels_ret|]. intros slot. by rewrite andb_true_r. }
  destruct (bm_is_empty (bm_and result r)) eqn:He.
  - exists (bm_and result r). split.
    + eapply cancels_bind; [exact Hq|]. cbv zeta. rewrite He. apply cancels_ret.
    + intros slot. rewrite bm_is_empty_true in He. simpl. rewrite andb_assoc, <-contains_and. by rewrite (He slot).
  - destruct (IH (bm_and result r)) as (r' & Hr' & Hspec). exists r'. split.
    + eapply cancels_bind; [exact Hq|]. cbv zeta. by rewrite He.
    + intros slot. rewrite Hspec, contains_and. simpl. by rewrite andb_assoc.
Qed.
Lemma or_exact_spec (f : Query → polled B) queries rs result :
  Forall2 (λ q r, cancels_to (f q) (Ok r)) queries rs →
  ∃ r, cancels_to (or_exact f queries result) (Ok r) ∧
    ∀ slot, bm_contains slot r = bm_contains slot result || existsb (bm_contains slot) rs.
Proof.
  intros Hall. revert result. induction Hall as [|q r queries rs Hq _ IH]; intros result; cbn [or_exact].
  { exists result. split; [apply cancels_ret|]. intros slot. by rewrite orb_false_r. }
  destruct (IH (bm_or result r)) as (r' & Hr' & Hspec). exists r'. split.
  - by eapply cancels_bind; [exact Hq|].
  - intros slot. rewrite Hspec, contains_or. simpl. by rewrite orb_assoc.
Qed.

(** *** Terms *)

Lemma metadata_evaluates q : MetadataPostings.supports q = true → MetadataPostings.finders q → evaluates (exact_metadata sn q) q.
Proof.
  intros Hs Hf. destruct (proj2 (MetadataPostings.exact_supported (metadata_postings sn) live q) Hs) as [r Hr].
  exists r. split; [unfold exact_metadata; rewrite Hr; apply cancels_lift|].
  by apply (MetadataPostings.exact_answers (metadata_postings sn)); [apply (so_metadata _ _ _ _ Hsn)| |].
Qed.
Lemma snapshot_rows_ok : Forall row_ok rows.
Proof. eapply Forall_impl; [apply (so_rows _ _ _ _ Hsn)|]. by intros r ((? & _) & _). Qed.
Lemma numeric_evaluates (t : Term B Query) : NumericColumns.supports t = true → evaluates (exact_numeric sn t) (QTerm t).
Proof.
  intros Hs. destruct (numeric_exact_spec (Q := Query) n k (entries sn) rows (numeric_columns sn) live t)
    as (m & r & -> & Hr & Hspec); [apply (so_table _ _ _ _ Hsn)|apply snapshot_rows_ok|apply (so_count _ _ _ _ Hsn)|
      apply (so_numeric _ _ _ _ Hsn)|apply (so_clean _ _ _ _ Hsn)|apply (so_live _ _ _ _ Hsn)|done|].
  exists r. split.
  - unfold exact_numeric. eapply cancels_bind; [exact Hr|apply cancels_lift].
  - apply answers_intro; [intros slot; rewrite Hspec; by intros [? _]%andb_true_iff|].
    intros slot row content Hlive Hrow. rewrite Hspec, Hlive, Hrow. done.
Qed.
Lemma term_evaluates (t : Term B Query) : supports_exact (QTerm t) = true → term_ready t → evaluates (exact_term sn t) (QTerm t).
Proof.
  intros Hs Ht. destruct t as [| | |r| | | | | | | | |]; try (by apply metadata_evaluates; [|apply Ht]).
  - destruct (resolved_slots_spec r) as (b & Hb & _). exists b. split; [|by apply resolved_answers].
    unfold exact_term. by apply cancels_some.
  - unfold exact_term. cbn [supports_exact] in Hs.
    destruct (NumericColumns.supports (TNumeric (B := B) (Q := Query) _)) eqn:Hn; [by apply numeric_evaluates|by apply metadata_evaluates; [|apply Ht]].
Qed.
(** Exact support means an exact answer. *)
Lemma evaluate_exact_spec q : supports_exact q = true → ready q → evaluates (evaluate_exact sn q) q.
Proof.
  assert (Hcheck : ∀ m q, evaluates m q → evaluates (check_cancelled;; m) q).
  { intros m q' (r & Hr & Ha). exists r. split; [|done]. by eapply cancels_bind; [apply cancels_check|]. }
  assert (Hlist : ∀ queries, Forall (λ q, supports_exact q = true → ready q → evaluates (evaluate_exact sn q) q) queries →
    forallb supports_exact queries = true → Forall ready queries → Forall (λ q, evaluates (evaluate_exact sn q) q) queries).
  { induction 1 as [|q' queries Hq _ IH]; [constructor|]. simpl. intros [Hs Hss]%andb_true_iff [Hr Hrs]%Forall_cons. constructor; auto. }
  induction q as [|queries IH|queries IH|q IH|recursive q _|t Ht] using query_induction; intros Hs Hr; cbn [evaluate_exact]; apply Hcheck.
  - by apply metadata_evaluates.
  - destruct (evaluates_list _ queries (Hlist queries IH Hs (proj1 (ready_operands queries) Hr))) as (rs & Hrs & Has).
    destruct (and_exact_spec _ queries rs live Hrs) as (r & Hr' & Hspec). exists r. split; [done|].
    apply answers_intro; [intros slot; rewrite Hspec; by intros [? _]%andb_true_iff|]. intros slot row content Hlive Hrow.
    rewrite Hspec, Hlive. apply (evaluates_all_result queries rs slot row content Has Hlive Hrow).
  - destruct (evaluates_list _ queries (Hlist queries IH Hs (proj1 (ready_operands queries) Hr))) as (rs & Hrs & Has).
    destruct (or_exact_spec _ queries rs bm_new Hrs) as (r & Hr' & Hspec). exists r. split; [done|].
    apply answers_intro.
    + intros slot. rewrite Hspec, contains_new. simpl. clear -Has. induction Has as [|q r' queries rs [Hsub _] _ IH]; [done|].
      simpl. intros [?|?]%orb_true_iff; auto.
    + intros slot row content Hlive Hrow. rewrite Hspec, contains_new.
      apply (evaluates_all_result queries rs slot row content Has Hlive Hrow).
  - destruct (IH Hs Hr) as (r & Hr' & Ha). exists (bm_sub live r). split; [eapply cancels_bind; [exact Hr'|apply cancels_ret]|].
    apply answers_intro; [intros slot; rewrite contains_sub; by intros [? _]%andb_true_iff|]. intros slot row content Hlive Hrow.
    rewrite contains_sub, Hlive. simpl. by rewrite (answers_at q r slot row content Ha Hlive Hrow).
  - by apply metadata_evaluates; [|apply Hr].
  - by apply term_evaluates.
Qed.
Lemma exact_matches_spec q : ready q →
  if supports_exact q then ∃ r, cancels_to (exact_matches sn q) (Ok (Some r)) ∧ answers q r
  else cancels_to (exact_matches sn q) (Ok None).
Proof.
  intros Hr. unfold exact_matches. destruct (supports_exact q) eqn:Hs.
  - destruct (evaluate_exact_spec q Hs Hr) as (r & Hr' & Ha). exists r. split; [|done].
    eapply cancels_bind; [apply cancels_check|]. eapply cancels_bind; [exact Hr'|apply cancels_ret].
  - eapply cancels_bind; [apply cancels_check|apply cancels_ret].
Qed.

(** ** Candidates lose no match *)

(** *** Postings *)

Lemma gather_postings_spec grams seen postings :
  ∃ o, cancels_to (gather sn grams seen postings) (Ok o) ∧
    match o with
    | None => ∃ key, key ∈ grams ∧ pm_get 0 (trigrams sn) key = None
    | Some ps => ∃ keys bs, ps = postings ++ bs ∧ Forall2 (λ key b, pm_get 0 (trigrams sn) key = Some b) keys bs ∧
        (∀ key, key ∈ keys → key ∈ grams) ∧ ∀ key, key ∈ grams → key ∈ seen ∨ key ∈ keys
    end.
Proof.
  revert seen postings. induction grams as [|key grams IH]; intros seen postings; cbn [gather].
  { exists (Some postings). split; [apply cancels_ret|]. exists [], []. rewrite app_nil_r.
    split_and!; [done|constructor|done|]. by intros key ?%not_elem_of_nil. }
  assert (Hcheck : ∀ (m : polled (option (list B))) r, cancels_to m r → cancels_to (check_cancelled;; m) r)
    by (intros; by eapply cancels_bind; [apply cancels_check|]).
  case_decide as Hin.
  - destruct (IH seen postings) as (o & Ho & Hspec). exists o. split; [by apply Hcheck|]. destruct o as [ps|].
    + destruct Hspec as (keys & bs & -> & Hf & Hk1 & Hk2). exists keys, bs. split_and!; [done|done|set_solver|].
      intros k' [->|?]%elem_of_cons; [by left|by apply Hk2].
    + destruct Hspec as (k' & ? & ?). exists k'. split; [by right|done].
  - destruct (pm_get 0 (trigrams sn) key) as [b|] eqn:Hb.
    + destruct (IH ({[key]} ∪ seen) (postings ++ [b])) as (o & Ho & Hspec). exists o. split; [by apply Hcheck|].
      destruct o as [ps|].
      * destruct Hspec as (keys & bs & -> & Hf & Hk1 & Hk2). exists (key :: keys), (b :: bs).
        rewrite <-app_assoc. split_and!; [done|by constructor|set_solver|].
        intros k' [->|Hk']%elem_of_cons; [right; left|]. destruct (Hk2 k' Hk') as [?|?]; [|right; by right].
        destruct (decide (k' = key)) as [->|]; [right; left|left; set_solver].
      * destruct Hspec as (k' & ? & ?). exists k'. split; [by right|done].
    + exists None. split; [apply Hcheck, cancels_ret|]. exists key. split; [left|done].
Qed.
Lemma smallest_spec (postings : list B) :
  match smallest postings with Some i => i < length postings | None => postings = [] end.
Proof.
  induction postings as [|b postings IH]; [done|]. simpl. destruct (smallest postings) as [i|]; [|simpl; lia].
  destruct (_ <=? _); lia.
Qed.
Lemma swap_remove_spec {A} i (l : list A) :
  i < length l → ∃ x rest, swap_remove i l = Some (x, rest) ∧ l ≡ₚ x :: rest.
Proof.
  intros Hi. destruct (lookup_lt_is_Some_2 l i Hi) as [x Hx]. destruct l as [|y init _] using rev_ind; [simpl in Hi; lia|].
  unfold swap_remove. rewrite Hx, last_snoc. cbn [mbind option_bind]. eexists x, _. split; [done|].
  rewrite length_app, Nat.add_sub. rewrite length_app in Hi. simpl in Hi. destruct (decide (i = length init)) as [->|Hne].
  - rewrite lookup_app_r, Nat.sub_diag in Hx by lia. injection Hx as ->.
    rewrite insert_app_r_alt, Nat.sub_diag by lia. rewrite take_app_length. by rewrite Permutation_app_comm.
  - rewrite lookup_app_l in Hx by lia. rewrite insert_app_l by lia. rewrite take_app_length' by (by rewrite length_insert).
    rewrite <-(take_drop_middle init i x Hx) at 1. rewrite insert_take_drop by lia.
    rewrite <-app_assoc. simpl. rewrite <-Permutation_middle. constructor. apply Permutation_app_head.
    by rewrite Permutation_app_comm.
Qed.
Lemma intersect_spec result (postings : list B) :
  ∃ r, cancels_to (intersect result postings) (Ok r) ∧
    ∀ slot, bm_contains slot r = bm_contains slot result && forallb (bm_contains slot) postings.
Proof.
  revert result. induction postings as [|b postings IH]; intros result; cbn [intersect].
  { exists result. split; [apply cancels_ret|]. intros slot. by rewrite andb_true_r. }
  destruct (bm_is_empty result) eqn:He.
  - exists result. split; [eapply cancels_bind; [apply cancels_check|apply cancels_ret]|].
    intros slot. rewrite bm_is_empty_true in He. by rewrite (He slot).
  - destruct (IH (bm_and result b)) as (r & Hr & Hspec). exists r.
    split; [by eapply cancels_bind; [apply cancels_check|]|]. intros slot. rewrite Hspec, contains_and. simpl. by rewrite andb_assoc.
Qed.
Lemma forallb_perm {A} (f : A → bool) l l' : l ≡ₚ l' → forallb f l = forallb f l'.
Proof.
  intros Hp. apply eq_true_iff_eq. rewrite !forallb_forall. split; intros Hf x Hx; apply Hf;
    apply list_elem_of_In in Hx; apply list_elem_of_In; by rewrite Hp in * || rewrite <-Hp.
Qed.
(** The candidates of the literals are the live rows with all their trigrams. *)
Definition has_grams (grams : list bytes) (row : IndexedFile) : bool := forallb (gram 3 (i_search_name row)) grams.
Lemma trigram_candidates_spec q :
  ∃ o, cancels_to (trigram_candidates sn q) (Ok o) ∧
    match o with
    | None => literal_grams q = []
    | Some r => ∀ slot, bm_contains slot r = from_option (has_grams (literal_grams q)) false (live_rows rows live !! slot)
    end.
Proof.
  destruct (so_trigrams _ _ _ _ Hsn) as [_ Hhas]. unfold trigram_candidates.
  destruct (gather_postings_spec (literal_grams q) ∅ []) as (o & Ho & Hspec).
  destruct o as [ps|].
  - destruct Hspec as (keys & bs & -> & Hf & Hk1 & Hk2). rewrite app_nil_l in Ho. pose proof (smallest_spec bs) as Hmin.
    destruct (smallest bs) as [i|] eqn:Es.
    + destruct (swap_remove_spec i bs Hmin) as (x & rest & Hswap & Hperm).
      destruct (intersect_spec x rest) as (r & Hr & Hrspec). exists (Some r). split.
      { eapply cancels_bind; [exact Ho|]. cbn beta iota. rewrite Es. eapply cancels_bind; [by apply cancels_some|].
        eapply cancels_bind; [exact Hr|apply cancels_ret]. }
      intros slot. rewrite Hrspec. change (bm_contains slot x && forallb (bm_contains slot) rest) with (forallb (bm_contains slot) (x :: rest)).
      rewrite <-(forallb_perm _ _ _ Hperm).
      assert (Hkeys : forallb (bm_contains slot) bs = forallb (λ key, has 0 (trigrams sn) key slot) keys).
      { clear -Hf. induction Hf as [|key b keys bs Hkb _ IH]; [done|]. simpl. rewrite IH. f_equal. unfold has. by rewrite Hkb. }
      rewrite Hkeys. assert (Hnone : keys ≠ []).
      { intros ->. inversion Hf; subst. simpl in Hmin. lia. }
      destruct (live_rows rows live !! slot) as [row|] eqn:Erow; simpl.
      * apply eq_true_iff_eq. unfold has_grams. rewrite !forallb_forall. setoid_rewrite <-list_elem_of_In.
        split; intros Hall key Hkey.
        -- destruct (Hk2 key Hkey) as [?|Hin]; [set_solver|]. specialize (Hall key Hin). by rewrite Hhas, Erow in Hall.
        -- rewrite Hhas, Erow. simpl. apply Hall. by apply Hk1.
      * destruct keys as [|key keys]; [done|]. simpl. by rewrite Hhas, Erow.
    + subst bs. inversion Hf; subst. exists None. split; [eapply cancels_bind; [exact Ho|apply cancels_ret]|].
      destruct (literal_grams q) as [|key l]; [done|]. destruct (Hk2 key) as [?|?%not_elem_of_nil]; [left|set_solver|done].
  - destruct Hspec as (key & Hkey & Hnone). exists (Some bm_new). split; [eapply cancels_bind; [exact Ho|apply cancels_ret]|].
    intros slot. rewrite contains_new. destruct (live_rows rows live !! slot) as [row|] eqn:Erow; [|done]. simpl. symmetry.
    apply not_true_iff_false. unfold has_grams. rewrite forallb_forall. intros Hall.
    assert (Hg : gram 3 (i_search_name row) key = true) by (apply Hall; by apply list_elem_of_In).
    pose proof (Hhas key slot) as Hh. rewrite Erow in Hh. simpl in Hh. rewrite Hg in Hh. unfold has in Hh. by rewrite Hnone in Hh.
Qed.

(** *** Literals *)

(** The literals of each term occur in every sound row that the term matches. *)
Fixpoint literals_kept q : Prop :=
  match q with
  | QAnd queries | QOr queries => foldr (λ q P, literals_kept q ∧ P) True queries
  | QTerm t => ∀ row content l, sound_row row → denote (QTerm t) row content = Ok true →
      l ∈ required_name_literals (QTerm t) → found (utf8 l) (utf8 (i_search_name row)) = true
  | _ => True
  end.
Lemma kept_operands (queries : list Query) : foldr (λ q P, literals_kept q ∧ P) True queries ↔ Forall literals_kept queries.
Proof. induction queries as [|q queries IH]; [by split|]. rewrite Forall_cons, <-IH. done. Qed.
Lemma kept_fold (P : Query → Prop) (queries : list Query) :
  Forall (λ q, ready q → P q → literals_kept q) queries →
  foldr (λ q R, ready q ∧ R) True queries → foldr (λ q R, P q ∧ R) True queries → foldr (λ q R, literals_kept q ∧ R) True queries.
Proof. induction 1 as [|q queries Hq _ IH]; [done|]. intros [Hr Hrs] [Hp Hps]. split; [by apply Hq|by apply IH]. Qed.

Lemma fold_search_shared name_ : shared_search_fold name_ (fold name_) = fold_search name_.
Proof. unfold shared_search_fold, fold_search, fold. destruct (is_ascii name_) eqn:E; [done|]. by case_decide. Qed.
Lemma sound_row_folded (row : IndexedFile) : sound_row row → folded_entry row.
Proof.
  intros (_ & _ & Hp). unfold folded_entry. cbn [search_name name folded_name indexed_file_entry].
  rewrite <-Hp. cbn [prepare with_derived i_search_name i_name i_folded_name]. split; [apply fold_search_shared|done].
Qed.
Lemma plain_literal_kept needle_ f (row : IndexedFile) content l :
  ready (QTerm (TText Name needle_ f false)) → denote (QTerm (TText Name needle_ f false) : Query) row content = Ok true →
  l ∈ required_name_literals (QTerm (TText Name needle_ f false) : Query) → found (utf8 l) (utf8 (i_search_name row)) = true.
Proof.
  intros Hf Hd Hl. simpl in Hl. case_match; [|by apply not_elem_of_nil in Hl]. apply list_elem_of_singleton in Hl as ->.
  simpl in Hf. unfold denote, term_value in Hd. simpl in Hd. rewrite finds_found, Hf in Hd. by injection Hd.
Qed.
(** Queries whose name matchers have the operands that narrowing may require. *)
Lemma narrowable_kept `{!UnicodeAscii} q : ready q → narrowable q → literals_kept q.
Proof.
  induction q as [|queries IH|queries IH|q IH|recursive q _|t Ht] using query_induction; intros Hr Hn; try done.
  - by apply (kept_fold narrowable).
  - by apply (kept_fold narrowable).
  - intros row content l Hrow Hd Hl.
    assert (Hf : plain_finders (QTerm t)) by (destruct t; try done; exact Hr).
    exact (required_literals_spec (QTerm t) row content l Hf Hn (sound_row_folded row Hrow) Hd Hl).
Qed.
Lemma window_gram l (t : text) key : found (utf8 l) (utf8 t) = true → key ∈ windows 3 (utf8 l) → gram 3 t key = true.
Proof.
  intros (x & y & Ht)%found_spec (Hlen & (u & v & Hl)%found_spec)%windows_spec; [|lia]. unfold gram.
  rewrite Hlen. simpl. apply found_spec. exists (x ++ u), (v ++ y). rewrite Ht, Hl. by rewrite <-!app_assoc.
Qed.
(** Every visible row that matches is a candidate. *)
Definition narrows (c : B) q : Prop :=
  (∀ slot, bm_contains slot c = true → bm_contains slot live = true) ∧
  ∀ slot row content, bm_contains slot live = true → rows !! N.to_nat slot = Some row →
    denote q row content = Ok true → bm_contains slot c = true.
Definition candidates_for (m : polled (option B)) q : Prop :=
  ∃ o, cancels_to m (Ok o) ∧ match o with Some c => narrows c q | None => True end.

Lemma term_candidates (t : Term B Query) : literals_kept (QTerm t) → candidates_for (trigram_candidates sn (QTerm t)) (QTerm t).
Proof.
  intros Ht. destruct (trigram_candidates_spec (QTerm t)) as (o & Ho & Hspec). exists o. split; [done|]. destruct o as [c|]; [|done].
  split; intros slot.
  - rewrite Hspec. destruct (live_rows rows live !! slot) eqn:E; [|done]. by apply live_row_lookup in E as [? _].
  - intros row content Hlive Hrow Hd. rewrite Hspec, (proj2 (live_row_lookup slot row) (conj Hlive Hrow)). simpl.
    unfold has_grams. apply forallb_forall. intros key Hkey%list_elem_of_In. unfold literal_grams in Hkey.
    apply list_elem_of_bind in Hkey as (l & Hkey & Hl). apply (window_gram l); [|done].
    apply (Ht row content l); try done. by apply (Forall_lookup_1 _ _ _ _ (so_rows _ _ _ _ Hsn) Hrow).
Qed.
Lemma no_literal_candidates q : required_name_literals q = [] → candidates_for (trigram_candidates sn q) q.
Proof.
  intros Hq. exists None. split; [|done]. unfold trigram_candidates, literal_grams. rewrite Hq.
  eapply cancels_bind; [apply cancels_ret|]. apply cancels_ret.
Qed.

(** *** Connectives *)

(** A set in every operand's candidates, where the operand has any. *)
Definition in_all (os : list (option B)) (slot : N) : Prop := Forall (from_option (λ c, bm_contains slot c = true) True) os.
Lemma and_candidates_spec (f : Query → polled (option B)) queries os result :
  Forall2 (λ q o, cancels_to (f q) (Ok o)) queries os →
  ∃ o, cancels_to (and_candidates f queries result) (Ok o) ∧
    match o with
    | None => True
    | Some c => (∀ slot, bm_contains slot c = true ↔ in_all (result :: os) slot) ∧ ∃ c', Some c' ∈ result :: os
    end.
Proof.
  intros Hall. revert result. induction Hall as [|q o queries os Hq _ IH]; intros result; cbn [and_candidates].
  { exists result. split; [apply cancels_ret|]. destruct result as [c|]; [|done]. split; [|exists c; left].
    intros slot. unfold in_all. by rewrite Forall_singleton. }
  pose proof (IH (match o, result with Some o, Some r => Some (bm_and r o) | Some o, None => Some o | None, r => r end)) as (r & Hr & Hspec).
  exists r. split; [eapply cancels_bind; [exact Hq|exact Hr]|]. destruct r as [c|]; [|done]. destruct Hspec as (Hspec & c' & Hc'). split.
  - intros slot. rewrite Hspec. unfold in_all. rewrite !Forall_cons.
    destruct o, result; simpl; rewrite ?contains_and, ?andb_true_iff; tauto.
  - apply elem_of_cons in Hc' as [Hc'|Hc']; [|exists c'; by do 2 right]. destruct o as [o|]; [exists o; right; left|].
    exists c'. rewrite Hc'. destruct result; left.
Qed.
Lemma or_candidates_spec (f : Query → polled (option B)) queries os result :
  Forall2 (λ q o, cancels_to (f q) (Ok o)) queries os →
  ∃ o, cancels_to (or_candidates f queries result) (Ok o) ∧
    match o with
    | None => True
    | Some c => ∃ cs, os = Some <$> cs ∧ ∀ slot, bm_contains slot c = bm_contains slot result || existsb (bm_contains slot) cs
    end.
Proof.
  intros Hall. revert result. induction Hall as [|q o queries os Hq _ IH]; intros result; cbn [or_candidates].
  { exists (Some result). split; [apply cancels_ret|]. exists []. split; [done|]. intros slot. by rewrite orb_false_r. }
  destruct o as [c|].
  - destruct (IH (bm_or result c)) as (r & Hr & Hspec). exists r. split; [eapply cancels_bind; [exact Hq|exact Hr]|].
    destruct r as [r|]; [|done]. destruct Hspec as (cs & -> & Hspec). exists (c :: cs). split; [done|]. intros slot.
    rewrite Hspec, contains_or. simpl. by rewrite orb_assoc.
  - exists None. split; [eapply cancels_bind; [exact Hq|apply cancels_ret]|done].
Qed.
Lemma candidates_list (f : Query → polled (option B)) queries :
  Forall (λ q, candidates_for (f q) q) queries →
  ∃ os, Forall2 (λ q o, cancels_to (f q) (Ok o)) queries os ∧
    Forall2 (λ q o, from_option (λ c, narrows c q) True o) queries os.
Proof.
  induction 1 as [|q queries (o & Ho & Hn) _ (os & Hos & Hns)]; [by exists []|]. exists (o :: os). by split; constructor; try destruct o.
Qed.
Lemma any_result_true {A} (f : A → result bool) l : any_result f l = Ok true → Exists (λ x, f x = Ok true) l.
Proof.
  induction l as [|x l IH]; simpl; [done|]. destruct (f x) as [[]|] eqn:E; simpl; [by left| |done]. intros Hl. right. by apply IH.
Qed.
Lemma and_narrows queries os c :
  Forall2 (λ q o, from_option (λ c, narrows c q) True o) queries os →
  (∀ slot, bm_contains slot c = true ↔ in_all (None :: os) slot) → (∃ c', Some c' ∈ None :: os) → narrows c (QAnd queries).
Proof.
  intros Hns Hspec (c' & Hc'). split; intros slot.
  - rewrite Hspec. unfold in_all. rewrite Forall_forall. intros Hin. specialize (Hin _ Hc'). simpl in Hin.
    apply elem_of_cons in Hc' as [?|Hc']; [done|]. apply list_elem_of_lookup in Hc' as [i Hi].
    destruct (Forall2_lookup_r _ _ _ _ _ Hns Hi) as (q & _ & [Hsub _]). by apply Hsub.
  - intros row content Hlive Hrow Hd. rewrite Hspec. unfold in_all. apply Forall_cons. split; [done|].
    change (all_result (λ q, denote q row content) queries = Ok true) in Hd. apply all_result_true in Hd. clear Hspec Hc'.
    induction Hns as [|q o queries os Hq _ IH]; [constructor|]. apply Forall_cons in Hd as [Hdq Hd].
    constructor; [|by apply IH]. destruct o as [c''|]; [|done]. simpl in *. destruct Hq as [_ Hq]. by apply (Hq slot row content).
Qed.
Lemma or_narrows queries cs c :
  Forall2 (λ q o, from_option (λ c, narrows c q) True o) queries (Some <$> cs) →
  (∀ slot, bm_contains slot c = existsb (bm_contains slot) cs) → narrows c (QOr queries).
Proof.
  intros Hns Hspec. apply Forall2_fmap_r in Hns. split; intros slot.
  - rewrite Hspec. intros (c' & Hc'%list_elem_of_In & Hin)%existsb_exists. apply list_elem_of_lookup in Hc' as [i Hi].
    destruct (Forall2_lookup_r _ _ _ _ _ Hns Hi) as (q & _ & [Hsub _]). by apply Hsub.
  - intros row content Hlive Hrow Hd. rewrite Hspec.
    change (any_result (λ q, denote q row content) queries = Ok true) in Hd. apply any_result_true, Exists_exists in Hd as (q & Hq & Hd).
    apply list_elem_of_lookup in Hq as [i Hi]. destruct (Forall2_lookup_l _ _ _ _ _ Hns Hi) as (c' & Hc' & [_ Hn]).
    apply existsb_exists. exists c'. split; [apply list_elem_of_In; by eapply list_elem_of_lookup_2|].
    by apply (Hn slot row content).
Qed.
Lemma candidates_spec q : ready q → literals_kept q → candidates_for (candidates_with_cancellation sn q) q.
Proof.
  assert (Hlist : ∀ queries, Forall (λ q, ready q → literals_kept q → candidates_for (candidates_with_cancellation sn q) q) queries →
    Forall ready queries → Forall literals_kept queries → Forall (λ q, candidates_for (candidates_with_cancellation sn q) q) queries).
  { induction 1 as [|q' queries Hq _ IH]; [constructor|]. intros [??]%Forall_cons [??]%Forall_cons. constructor; auto. }
  assert (Hexact : ∀ q (m : polled (option B)), ready q → candidates_for m q →
    candidates_for (exact ← exact_matches sn q; match exact with Some exact => mret (Some exact) | None => m end) q).
  { intros q' m Hr (o & Hm & Ho). pose proof (exact_matches_spec q' Hr) as He. destruct (supports_exact q').
    - destruct He as (r & Hr' & Ha). exists (Some r). split; [eapply cancels_bind; [exact Hr'|apply cancels_ret]|].
      split; [apply Ha|]. intros slot row content Hlive Hrow Hd. pose proof (answers_at q' r slot row content Ha Hlive Hrow). congruence.
    - exists o. split; [by eapply cancels_bind; [exact He|]|done]. }
  induction q as [|queries IH|queries IH|q IH|recursive q _|t Ht] using query_induction; intros Hr Hk; cbn [candidates_with_cancellation]; apply Hexact; try done.
  - by apply no_literal_candidates.
  - destruct (candidates_list _ queries (Hlist queries IH (proj1 (ready_operands queries) Hr) (proj1 (kept_operands queries) Hk))) as (os & Hos & Hns).
    destruct (and_candidates_spec _ queries os None Hos) as (o & Ho & Hspec). exists o. split; [done|].
    destruct o as [c|]; [|done]. destruct Hspec as [Hspec Hsome]. by apply (and_narrows queries os).
  - destruct (candidates_list _ queries (Hlist queries IH (proj1 (ready_operands queries) Hr) (proj1 (kept_operands queries) Hk))) as (os & Hos & Hns).
    destruct (or_candidates_spec _ queries os bm_new Hos) as (o & Ho & Hspec). exists o. split; [done|].
    destruct o as [c|]; [|done]. destruct Hspec as (cs & -> & Hspec). apply (or_narrows queries cs); [done|].
    intros slot. by rewrite Hspec, contains_new.
  - by apply no_literal_candidates.
  - by apply no_literal_candidates.
  - by apply term_candidates.
Qed.

(** ** Scans answer exactly *)

(** Compiled queries have no matchers with options. *)
Lemma compiled_kept q e : NameColumn.compile q = Some e → ready q → literals_kept q.
Proof.
  assert (Hlist : ∀ queries (l : list NameColumn.NameExpression), Forall (λ q, ∀ e, NameColumn.compile q = Some e → ready q → literals_kept q) queries →
    NameColumn.compile_all NameColumn.compile queries = Some l → Forall (λ q, ready q → True → literals_kept q) queries).
  { intros queries l IH Hl%NameColumn.compile_all_Forall2. induction Hl as [|q' e' queries l Hq _ IHl]; [constructor|].
    apply Forall_cons in IH as [IHq IH]. constructor; [intros ? _; by apply (IHq e')|auto]. }
  assert (Htrue : ∀ queries : list Query, foldr (λ _ R, True ∧ R) True queries) by (induction queries; by split).
  revert e. induction q as [|queries IH|queries IH|q IH|recursive q _|t Ht] using query_induction; intros e; try done.
  - cbn [NameColumn.compile]. intros (l & Hl & _)%bind_Some Hr. apply (kept_fold (λ _, True)); [by apply (Hlist queries l)|done|apply Htrue].
  - cbn [NameColumn.compile]. intros (l & Hl & _)%bind_Some Hr. apply (kept_fold (λ _, True)); [by apply (Hlist queries l)|done|apply Htrue].
  - intros Hc Hr row content l _ Hd Hl.
    destruct t as [[] needle_ f []| | | | | | | | | | | |[[]| | |] m]; try (by apply not_elem_of_nil in Hl); [|done].
    by apply (plain_literal_kept needle_ f row content l).
Qed.
(** The answer of a query from which the rows of others are taken out. *)
Definition excluding q (exclusions : list Query) (r : B) : Prop :=
  (∀ slot, bm_contains slot r = true → bm_contains slot live = true) ∧
  ∀ slot row content, bm_contains slot live = true → rows !! N.to_nat slot = Some row → ∃ b ex,
    denote q row content = Ok b ∧ any_result (λ q, denote q row content) exclusions = Ok ex ∧
    bm_contains slot r = b && negb ex.
Lemma match_name_columns_spec `{!NameColumn.SlashUnicode} acquire q exclusions :
  ready q → NameColumn.path_query q → Forall NameColumn.valid_paths rows →
  ∃ o, cancels_to (match_name_columns acquire sn q exclusions) (Ok o) ∧
    match o with Some r => excluding q exclusions r | None => True end.
Proof.
  intros Hr Hpath Hvalid. unfold match_name_columns.
  assert (Hlive : ∀ x, bm_contains x live = true → N.to_nat x < length rows) by apply (so_live _ _ _ _ Hsn).
  destruct (match exclusions with [] => path_substring q | _ => None end) as [[finder mode]|] eqn:Hsub.
  - destruct exclusions as [|]; [|done].
    destruct (NameColumn.path_scan_spec n k (entries sn) rows q finder mode live) as (r & Hr' & Hin & Hd);
      [apply (so_table _ _ _ _ Hsn)|apply (so_count _ _ _ _ Hsn)|done..|].
    exists (Some r). split; [eapply cancels_bind; [exact Hr'|apply cancels_ret]|]. split; [done|].
    intros slot row content Hl Hrow. exists (bm_contains slot r), false. rewrite andb_true_r. split_and!; [by apply Hd|done..].
  - destruct (NameColumn.compile q) as [e|] eqn:Hc; [|exists None; split; [apply cancels_ret|done]].
    destruct (NameColumn.compile_all NameColumn.compile exclusions) as [es|] eqn:Hes; [|exists None; split; [apply cancels_ret|done]].
    destruct (candidates_spec q Hr (compiled_kept q e Hc Hr)) as (o & Ho & Hn).
    set (visible := default live ((λ set, bm_and set live) <$> o)).
    assert (Hvis : ∀ x, bm_contains x visible = true → bm_contains x live = true).
    { unfold visible. destruct o; simpl; [|done]. intros x. rewrite contains_and. by intros [_ ?]%andb_true_iff. }
    destruct (NameColumn.name_scan_spec n k (entries sn) rows acquire q exclusions e es visible) as (r & Hr' & Hin & Hd);
      [apply (so_table _ _ _ _ Hsn)|intros x Hx; by apply Hlive, Hvis|done|by apply NameColumn.compile_all_Forall2|].
    exists (Some r). split.
    { eapply cancels_bind; [exact Ho|]. cbv zeta. rewrite (so_names _ _ _ _ Hsn). eapply cancels_bind; [exact Hr'|apply cancels_ret]. }
    split; [by intros slot ?%Hin; apply Hvis|]. intros slot row content Hl Hrow.
    destruct (Hd slot row content Hrow) as (b & ex & Hb & Hex & Heq). exists b, ex. split_and!; [done..|].
    destruct (bm_contains slot visible) eqn:Ev; [done|]. destruct b; [|by rewrite Heq]. exfalso.
    unfold visible in Ev. destruct o as [c|]; simpl in Ev; [|congruence]. rewrite contains_and, Hl, andb_true_r in Ev.
    destruct Hn as [_ Hn]. by rewrite (Hn slot row content Hl Hrow) in Ev.
Qed.
End of_snapshot.

(** C5: The indexes answer exactly.  On a sound snapshot, a query the parser
    builds whose terms are all indexed (bytes and pairs of names, extensions,
    directories, links, sizes and dates, resolved relations, and their
    connectives) is answered by bitmap algebra alone with exactly the visible
    rows on which the query evaluates to true, or with the cancellation
    error; any other query is refused, never answered in part. *)
Theorem snapshot_answers_exactly n k sn rows q :
  snapshot_ok n k sn rows → ready q →
  if supports_exact q then
    ∃ r, cancels_to (exact_matches sn q) (Ok (Some r)) ∧
      MetadataPostings.answers (sn_live sn) (live_rows rows (sn_live sn)) q r
  else cancels_to (exact_matches sn q) (Ok None).
Proof. intros Hsn Hq. exact (exact_matches_spec n k sn rows Hsn q Hq). Qed.

(** C6: Candidates lose no match, where operands are what narrowing may
    require.  The query is one whose name matchers that compare case or
    diacritics are patterns or have ASCII operands ([narrowable]), as every
    query parsed from ASCII text is ([ascii_query_searchable] in AsciiQuery);
    operands of other terms, and the names of the rows, may be any text.  Where such a
    query is narrowed, by exact answers of its parts or by the trigrams of its
    required literals, the candidates are visible rows, and every visible row
    that the query matches is one of them.  The condition on operands is
    needed: [narrowing_loses_composed] below is a query outside it whose match
    is lost. *)
Theorem candidates_lose_no_match `{!UnicodeAscii} n k sn rows q :
  snapshot_ok n k sn rows → ready q → narrowable q →
  ∃ o, cancels_to (candidates_with_cancellation sn q) (Ok o) ∧
    ∀ c, o = Some c →
      (∀ slot, bm_contains slot c = true → bm_contains slot (sn_live sn) = true) ∧
      ∀ slot row content, bm_contains slot (sn_live sn) = true → rows !! N.to_nat slot = Some row →
        denote q row content = Ok true → bm_contains slot c = true.
Proof.
  intros Hsn Hq Hw. destruct (candidates_spec n k sn rows Hsn q Hq (narrowable_kept q Hq Hw)) as (o & Ho & Hn).
  exists o. split; [done|]. by intros c ->.
Qed.

(** C7: Column scans answer exactly.  A scan of the names (compiled to an
    expression without repeated literals, over the candidates, by one worker
    or several) or of the two halves of the paths gives exactly the visible
    rows that match the query and none of the exclusions, or the cancellation
    error; the answer does not depend on the number of workers. *)
Theorem column_scans_answer_exactly `{!NameColumn.SlashUnicode} n k sn rows acquire q exclusions :
  snapshot_ok n k sn rows → ready q → NameColumn.path_query q → Forall NameColumn.valid_paths rows →
  ∃ o, cancels_to (match_name_columns acquire sn q exclusions) (Ok o) ∧
    ∀ r, o = Some r →
      (∀ slot, bm_contains slot r = true → bm_contains slot (sn_live sn) = true) ∧
      ∀ slot row content, bm_contains slot (sn_live sn) = true → rows !! N.to_nat slot = Some row → ∃ b ex,
        denote q row content = Ok b ∧ any_result (λ q, denote q row content) exclusions = Ok ex ∧
        bm_contains slot r = b && negb ex.
Proof.
  intros Hsn Hq Hp Hv. destruct (match_name_columns_spec n k sn rows Hsn acquire q exclusions Hq Hp Hv) as (o & Ho & He).
  exists o. split; [done|]. by intros r ->.
Qed.
End answers.

(** ** A small snapshot *)

Section witnesses.
#[local] Existing Instance merging_sort.
#[local] Existing Instance utc_chrono.
#[local] Existing Instance ascii_unicode.
#[local] Existing Instance literal_pcre.
#[local] Existing Instance bytes_memmem.
#[local] Existing Instance NameColumn.ascii_slash_unicode.
Definition text_term (field : QuerySyntax.Field) (needle : string) : QuerySyntax.Query (gset N) :=
  QTerm (TText field (lit needle) (finder_new (utf8 (lit needle))) false).
Lemma snapshot_answers_exactly_witness :
  ∃ sn : SnapshotData (gset N) (), ∃ r,
    cancels_to (exact_matches sn (QAnd [text_term Name "b"; QNot (QTerm (TIsDir true))])) (Ok (Some r)) ∧
    bm_contains 0 r = true ∧ bm_contains 1 r = false.
Proof.
  destruct (sample_snapshot 0 0) as (sn & Hok & Hlive); [by vm_compute|by vm_compute|].
  pose proof (snapshot_answers_exactly 0 0 sn [prepare raw_b; prepare raw_a] (QAnd [text_term Name "b"; QNot (QTerm (TIsDir true))]) Hok) as Hq.
  destruct Hq as (r & Hr & _ & Ha); [by repeat split|]. exists sn, r. split; [exact Hr|].
  rewrite Hlive in Ha.
  assert (Hb : denote (QAnd [text_term Name "b"; QNot (QTerm (TIsDir true))]) (prepare raw_b) None = Ok true) by (by vm_compute).
  assert (Ha' : denote (QAnd [text_term Name "b"; QNot (QTerm (TIsDir true))]) (prepare raw_a) None = Ok false) by (by vm_compute).
  rewrite (Ha 0%N (prepare raw_b) None eq_refl eq_refl) in Hb. rewrite (Ha 1%N (prepare raw_a) None eq_refl eq_refl) in Ha'.
  split; congruence.
Defined.
Lemma candidates_lose_no_match_witness :
  ∃ sn : SnapshotData (gset N) (), ∃ o,
    cancels_to (candidates_with_cancellation sn (QAnd [text_term Name "b1"; QNot (QTerm THidden)])) (Ok o) ∧
    ∀ c, o = Some c → bm_contains 0 c = true.
Proof.
  destruct (sample_snapshot 0 0) as (sn & Hok & Hlive); [by vm_compute|by vm_compute|].
  destruct (candidates_lose_no_match 0 0 sn [prepare raw_b; prepare raw_a] (QAnd [text_term Name "b1"; QNot (QTerm THidden)]) Hok)
    as (o & Ho & Hc); [by repeat split|by repeat split|].
  exists sn, o. split; [exact Ho|]. intros c Hoc. destruct (Hc c Hoc) as [_ Hn]. rewrite Hlive in Hn.
  apply (Hn 0%N (prepare raw_b) None); [by vm_compute|done|by vm_compute].
Defined.
Lemma column_scans_answer_exactly_witness :
  ∃ sn : SnapshotData (gset N) (), ∃ o,
    cancels_to (match_name_columns (λ _, None) sn (text_term Path "/b") []) (Ok o) ∧
    ∀ r, o = Some r → bm_contains 0 r = true ∧ bm_contains 1 r = false.
Proof.
  destruct (sample_snapshot 0 0) as (sn & Hok & Hlive); [by vm_compute|by vm_compute|].
  destruct (column_scans_answer_exactly 0 0 sn [prepare raw_b; prepare raw_a] (λ _, None) (text_term Path "/b") [] Hok)
    as (o & Ho & Hr); [by repeat split|done| |].
  { repeat (constructor; [intros []; by_decide|]). constructor. }
  exists sn, o. split; [exact Ho|]. intros r Hor. destruct (Hr r Hor) as [_ Hn]. rewrite Hlive in Hn.
  destruct (Hn 0%N (prepare raw_b) None eq_refl eq_refl) as (b & ex & Hb & Hex & ->).
  destruct (Hn 1%N (prepare raw_a) None eq_refl eq_refl) as (b' & ex' & Hb' & Hex' & ->).
  vm_compute in Hb, Hb', Hex, Hex'. by simplify_eq.
Defined.
End witnesses.

(** ** A match that narrowing loses *)

(** Composition and decomposition of Hangul syllables, as Unicode defines them
    (section 3.12), and of nothing else. *)
Definition hangul_decompose (c : N) : text :=
  if (0xAC00 <=? c)%N && (c <=? 0xD7A3)%N then
    let s := (c - 0xAC00)%N in
    [0x1100 + s / 588; 0x1161 + s mod 588 / 28]%N ++
    (if (s mod 28 =? 0)%N then [] else [0x11A7 + s mod 28]%N)
  else [c].
Fixpoint hangul_compose (t : text) : text :=
  match t with
  | l :: ((v :: rest) as t) =>
    if (0x1100 <=? l)%N && (l <=? 0x1112)%N && (0x1161 <=? v)%N && (v <=? 0x1175)%N then
      let lv := (0xAC00 + ((l - 0x1100) * 21 + (v - 0x1161)) * 28)%N in
      match rest with
      | c :: rest' => if (0x11A8 <=? c)%N && (c <=? 0x11C2)%N then (lv + (c - 0x11A7))%N :: hangul_compose rest'
                      else lv :: hangul_compose rest
      | [] => [lv]
      end
    else l :: hangul_compose t
  | t => t
  end.
Definition hangul_unicode : Unicode := {|
  to_nfc t := hangul_compose (t ≫= hangul_decompose);
  to_nfd t := t ≫= hangul_decompose;
  is_combining_mark _ := false;
  fold_string := to_ascii_lowercase;
  is_alphanumeric c := is_ascii_alphabetic c || is_digit c || ((0xAC00 <=? c)%N && (c <=? 0xD7A3)%N);
|}.

Section composed.
#[local] Existing Instance merging_sort.
#[local] Existing Instance utc_chrono.
#[local] Existing Instance hangul_unicode | 0.
#[local] Existing Instance literal_pcre.
#[local] Existing Instance bytes_memmem.
(** A file named [각.txt], and the query [case:가]. *)
Definition composed_row : IndexedFile := ResultOrder.sample_row 1 (0xAC01%N :: lit ".txt") 10.
Definition composed_query : text := lit "case:" ++ [0xAC00%N].
Definition composed_options : MatchOptions :=
  set_target (TField Name) (set_flag FSensitive true (default_options 0%Z)).
Definition composed_matcher : TextMatcher :=
  {| needle := [0x1100; 0x1161]%N; finder := finder_new (utf8 [0x1100; 0x1161]%N);
     candidate_needle := [0xAC00]%N; matcher_regex := None; options := composed_options |}.
Lemma composed_source_sound : Forall sound_row (source_rows (prepared_source [inr composed_row])).
Proof.
  change (Forall sound_row [prepare composed_row]). constructor; [|constructor].
  split; [split; [split; [by intros []|split; [by intros []|done]]|by vm_compute]|].
  split; [split; by_decide|by vm_compute].
Qed.
(** The trigrams of an operand that compares case are those of its composed
    form, which a name that contains the operand need not have: the letters of
    [가] are the first two of the three in [각], and the matcher, which compares
    them without composition, accepts [각.txt]; but the candidates, which are
    the rows with the bytes of the one character [가], leave it out. *)
Theorem narrowing_loses_composed :
  ∃ q (sn : SnapshotData (gset N) ()) c,
    QueryParse.parse_at ∅ composed_query 0%Z = Some (Ok q) ∧
    snapshot_from_rows [inr composed_row] 1 = Some (inr sn) ∧ bm_contains 0 (sn_live sn) = true ∧
    denote q (prepare composed_row) None = Ok true ∧
    cancels_to (candidates_with_cancellation sn q) (Ok (Some c)) ∧ bm_contains 0 c = false.
Proof.
  pose proof (snapshot_from_rows_spec (B := gset N) (Sec := ()) 0 0 [inr composed_row] 1) as Hstart.
  destruct Hstart as (sn & Hsn & Hok & Hlive & _); [by vm_compute|by vm_compute|exact composed_source_sound|by_decide|].
  set (q := QTerm (TMatched (TField Name) composed_matcher) : QuerySyntax.Query (gset N)).
  destruct (trigram_candidates_spec 0 0 sn [prepare composed_row] Hok q) as (o & Ho & Hspec).
  destruct o as [c|]; [|by vm_compute in Hspec]. exists q, sn, c. split_and!.
  - reflexivity.
  - exact Hsn.
  - apply (proj2 (Hlive 0%N)). vm_compute. lia.
  - by vm_compute.
  - cbn [candidates_with_cancellation q]. eapply cancels_bind; [by apply (exact_matches_spec 0 0 sn [prepare composed_row] Hok q)|exact Ho].
  - rewrite Hspec. destruct (live_rows [prepare composed_row] (sn_live sn) !! 0%N) as [row|] eqn:E; [|done].
    apply live_row_lookup in E as [_ [= <-]]. by vm_compute.
Qed.
End composed.
