(* ===== verification/AsciiQuery.v ===== *)
(** * core/src/query.rs: what the parser makes of ASCII text

    The theorems on candidates and on searches are about queries with the
    finders the parser gives them and with operands that narrowing may require
    ([ready] and [narrowable]).  Every query that is parsed from ASCII text,
    with ASCII macros, is one of these. *)
From S2P Require Import Prelude Bitmap Text QueryLex Float QueryNumber QuerySyntax QueryParse QueryEval TextMatch.
From S2P Require MetadataPostings NameColumn.
From S2P Require Import SnapshotQuery.

(** ** ASCII parts of ASCII text *)

Lemma ascii_forall t : is_ascii t = true ↔ Forall (λ c, c < 128)%N t.
Proof. unfold is_ascii. rewrite forallb_forall, Forall_forall. setoid_rewrite list_elem_of_In. by setoid_rewrite N.ltb_lt. Qed.
Lemma ascii_part a b : a ⊆ b → is_ascii b = true → is_ascii a = true.
Proof. rewrite !ascii_forall, !Forall_forall. auto. Qed.
Lemma trim_start_part (pred : N → bool) (t : list N) : trim_start_matches pred t ⊆ t.
Proof. induction t as [|c t IH]; [done|]. cbn [trim_start_matches]. destruct (pred c); [|done]. intros x Hx. right. by apply IH. Qed.
Lemma trim_end_part (pred : N → bool) (t : list N) : trim_end_matches pred t ⊆ t.
Proof.
  intros c Hc. unfold trim_end_matches in Hc. rewrite elem_of_reverse in Hc. apply trim_start_part in Hc. by rewrite elem_of_reverse in Hc.
Qed.
Lemma split_char_ascii c t : is_ascii t = true → Forall (λ part, is_ascii part = true) (split_char c t).
Proof.
  induction t as [|d t IH]; [by constructor|]. intros [Hd Ht]%andb_true_iff. cbn [split_char]. specialize (IH Ht).
  destruct (d =? c)%N; [by constructor|]. destruct (split_char c t) as [|part parts].
  - constructor; [|done]. apply andb_true_iff. by split.
  - apply Forall_cons in IH as [Hp Hps]. constructor; [|done]. apply andb_true_iff. by split.
Qed.
Lemma split_once_ascii p t a b : split_once p t = Some (a, b) → is_ascii t = true → is_ascii b = true.
Proof. intros ->%split_once_Some. rewrite !is_ascii_app. by intros [_ [_ ?]%andb_true_iff]%andb_true_iff. Qed.

(** ** Tokens *)

Definition token_ascii (t : token) : Prop := match t with Atom s _ => is_ascii s = true | _ => True end.
Lemma scan_word_ascii n it w w' it' :
  length it ≤ n → is_ascii (s w) = true → is_ascii it = true → scan_word w it = Some (w', it') →
  is_ascii (s w') = true ∧ is_ascii it' = true.
Proof.
  revert it w. induction n as [|n IH]; intros [|c it] w Hn Hw Hit; simpl in Hn; try lia; [by intros [= <- <-]..|].
  apply andb_true_iff in Hit as [Hc Hit].
  assert (Hpush : ∀ d, (d <? 128)%N = true → is_ascii (s w ++ [d]) = true).
  { intros d Hd. rewrite is_ascii_app, Hw. simpl. by rewrite Hd. }
  cbn [scan_word]. destruct (c =? 34)%N; [apply IH; [lia|done..]|].
  destruct ((c =? 92)%N && quoted w).
  { destruct it as [|d it]; [apply IH; [simpl; lia|by apply Hpush|done]|].
    destruct ((d =? 34) || (d =? 92))%N; [|apply IH; [lia|by apply Hpush|done]].
    apply andb_true_iff in Hit as [Hd Hit]. apply IH; [simpl in Hn; lia|by apply Hpush|done]. }
  destruct (breaks w c); [intros [= <- <-]; split; [done|]; apply andb_true_iff; by split|].
  intros (w1 & Hw1 & Hscan)%bind_Some. apply (IH it w1); [lia| |done|done].
  unfold scan_char in Hw1. apply bind_Some in Hw1 as (ps & _ & Hw1). apply bind_Some in Hw1 as ([[mode numeric] start_] & _ & Hw1).
  repeat case_match; injection Hw1 as <-; by apply Hpush.
Qed.
Lemma lex_loop_ascii fuel out it ts :
  is_ascii it = true → Forall token_ascii out → lex_loop fuel out it = Some (Ok ts) → Forall token_ascii ts.
Proof.
  revert out it. induction fuel as [|fuel IH]; intros out [|c it] Hit Hout; try (by intros [= <-]).
  cbn [lex_loop]. destruct (MAX_TOKENS <=? N.of_nat (length out))%N; [done|].
  pose proof Hit as Hall. apply andb_true_iff in Hit as [Hc Hit].
  assert (Hgo : ∀ t it', is_ascii it' = true → token_ascii t → lex_loop fuel (out ++ [t]) it' = Some (Ok ts) → Forall token_ascii ts).
  { intros t it' Hit' Ht. apply IH; [done|]. apply Forall_app_2; [done|by constructor]. }
  destruct (is_whitespace c); [by apply IH|]. destruct (symbol c) as [t|] eqn:Hs.
  { apply Hgo; [done|]. unfold symbol in Hs. repeat case_match; by simplify_eq. }
  intros ([w it'] & Hw & Hl)%bind_Some.
  destruct (scan_word_ascii (length (c :: it)) (c :: it) word_start w it' (le_n _) eq_refl Hall Hw) as [Hsw Hit'].
  destruct (word_token w) as [t|e] eqn:Ht; [|done]. apply (Hgo t it' Hit'); [|done]. unfold word_token in Ht.
  repeat case_match; by simplify_eq.
Qed.
Lemma lex_ascii input ts : is_ascii input = true → lex input = Some (Ok ts) → Forall token_ascii ts.
Proof. intros Hi. unfold lex. case_match; [done|]. by apply lex_loop_ascii. Qed.

(** ** Queries *)

Section queries.
Context `{Chrono, Unicode, Pcre, MemmemLaws} {B : Type} `{Roaring B}.
Notation Query := (Query B).

(** What ASCII text is parsed to: finders are those of the needles, matchers
    of fields are made from ASCII operands, and no relation is resolved. *)
Fixpoint searchable (q : Query) : Prop :=
  match q with
  | All => True
  | QAnd queries | QOr queries => foldr (λ q P, searchable q ∧ P) True queries
  | QNot q => searchable q
  | QTerm t =>
    match t with
    | TText _ needle f _ => finder_needle f = utf8 needle
    | TExtensions l => Forall valid_text l
    | TMatched (TField _) m => ∃ s wildcard, matcher_new s (options m) wildcard = Ok m ∧ is_ascii s = true
    | TResolved _ => False
    | _ => True
    end
  end.
Lemma searchable_operands (queries : list Query) :
  foldr (λ q P, searchable q ∧ P) True queries ↔ Forall searchable queries.
Proof. induction queries as [|q queries IH]; [by split|]. rewrite Forall_cons, <-IH. done. Qed.
Lemma searchable_fold (P : Query → Prop) (queries : list Query) :
  Forall (λ q, searchable q → P q) queries → Forall searchable queries → foldr (λ q R, P q ∧ R) True queries.
Proof. induction 1 as [|q queries Hq _ IH]; [done|]. intros [Hs Hqs]%Forall_cons. split; [by apply Hq|by apply IH]. Qed.
Lemma normalized_ascii s o : is_ascii s = true → is_ascii (normalized s o) = true.
Proof. intros Hs. unfold normalized. rewrite Hs. destruct (sensitive o); [done|by apply ascii_lower]. Qed.
Lemma searchable_narrowable q : searchable q → narrowable q.
Proof.
  induction q as [|queries IH|queries IH|q IH|recursive q _|t Ht] using query_induction; intros Hs; try done.
  - apply (searchable_fold _ queries IH). by apply searchable_operands.
  - apply (searchable_fold _ queries IH). by apply searchable_operands.
  - destruct t as [| | | | | | | | | | | |[[]| | |] m]; try done. destruct Hs as (s & wildcard & Hm & Hs). exists s, wildcard. auto.
Qed.
Lemma searchable_ready q : searchable q → ready q.
Proof.
  induction q as [|queries IH|queries IH|q IH|recursive q _|t Ht] using query_induction; intros Hs; try done.
  - apply (searchable_fold _ queries IH). by apply searchable_operands.
  - apply (searchable_fold _ queries IH). by apply searchable_operands.
  - by apply IH.
  - by destruct t.
Qed.
Lemma searchable_path_query q : searchable q → NameColumn.path_query q.
Proof.
  destruct q as [| | | |[| | | | | | | | | | | |[[]| | |] m]]; try done. intros (s & wildcard & Hm & Hs).
  destruct (matcher_new_fields s (options m) wildcard m Hm) as (_ & Hn & Hf & _). split; [done|].
  rewrite Hn. by apply ascii_valid, normalized_ascii.
Qed.

(** ** The parser *)

Definition makes_searchable (r : result Query) : Prop := match r with Ok q => searchable q | Err _ => True end.
Lemma makes_bind {A} (m : result A) (f : A → result Query) :
  (∀ x, m = Ok x → makes_searchable (f x)) → makes_searchable (m ≫= f).
Proof. destruct m; simpl; auto. Qed.
Lemma makes_Ok (r : result Query) q : makes_searchable r → r = Ok q → searchable q.
Proof. by intros Hr ->. Qed.
Lemma restrict_searchable q kind : searchable q → searchable (restrict_type q kind).
Proof. intros Hq. destruct kind; [by split_and!|done]. Qed.
Lemma text_query_searchable s o target : is_ascii s = true → makes_searchable (text_query s o target).
Proof.
  intros Hs. unfold text_query.
  assert (Hmatch : ∀ o wildcard, makes_searchable (matcher ← matcher_new s o wildcard; Ok (QTerm (TMatched target matcher)))).
  { intros o' wildcard. apply makes_bind. intros m Hm. destruct target as [field| | |]; try done. exists s, wildcard.
    destruct (matcher_new_fields s o' wildcard m Hm) as (-> & _). done. }
  case_match; [|apply Hmatch]. destruct target; try apply Hmatch; [apply finder_needle_new|done|]. case_match; [done|apply Hmatch].
Qed.
Lemma operand_searchable s o kind : is_ascii s = true → makes_searchable (operand_query s o kind).
Proof.
  intros Hs. unfold operand_query. apply makes_bind. intros q Hq. apply restrict_searchable. revert Hq. apply makes_Ok.
  apply text_query_searchable. case_match; [|done]. by eapply ascii_part; [apply trim_end_part|].
Qed.
Lemma trim_dots_ascii t : is_ascii t = true → is_ascii (trim_dots t) = true.
Proof. by apply ascii_part, trim_start_part. Qed.
Lemma queries_searchable {A} (f : A → result Query) l qs :
  Forall (λ x, makes_searchable (f x)) l → result_map f l = Ok qs → Forall searchable qs.
Proof.
  intros Hf Hqs%result_map_Forall2. induction Hqs as [|x q l qs Hx _ IH]; [constructor|].
  apply Forall_cons in Hf as [Hq Hf]. constructor; [by rewrite Hx in Hq|by apply IH].
Qed.
Lemma function_searchable key val o kind : is_ascii val = true → makes_searchable (function_query key val o kind).
Proof.
  intros Hval. unfold function_query. pose proof (split_char_ascii 59 val Hval) as Hparts.
  assert (Hterm : ∀ t : result (Term B Query), (∀ t', t = Ok t' → searchable (QTerm t')) →
    makes_searchable (t' ← t; Ok (restrict_type (QTerm t') kind))).
  { intros [t|] Ht; [|done]. by apply restrict_searchable, Ht. }
  assert (Hnumber : ∀ f v d, makes_searchable (t ← (n ← number_term f v d (now o); Ok (TNumeric n)); Ok (restrict_type (QTerm t) kind))).
  { intros f v d. apply Hterm. intros t'. destruct (number_term _ _ _ _); [|done]. by intros [= <-]. }
  assert (Hattr : ∀ c, makes_searchable (attribute c)) by (intros c; unfold attribute; repeat case_match; done).
  assert (Hlist : ∀ qs, Forall searchable qs → makes_searchable (Ok (restrict_type (QOr qs) kind)) ∧ makes_searchable (Ok (restrict_type (QAnd qs) kind))).
  { intros qs Hqs%searchable_operands. split; by apply restrict_searchable. }
  destruct (is_any (keyword key) ["ext"; "extension"]).
  { destruct (negb (sensitive o) && negb (diacritics o)).
    - apply Hterm. intros t' [= <-]. cbn [searchable]. apply Forall_fmap. eapply Forall_impl; [exact Hparts|]. intros t Ht. cbn beta.
      unfold compose, fold_search. rewrite trim_dots_ascii by done. by apply ascii_valid, ascii_lower, trim_dots_ascii.
    - apply makes_bind. intros queries Hq. apply Hlist. eapply queries_searchable; [|exact Hq].
      eapply Forall_impl; [exact Hparts|]. intros t Ht. by apply text_query_searchable, trim_dots_ascii. }
  destruct (is_lit (keyword key) "type").
  { apply Hterm. intros t'. unfold type_term. repeat case_match; by intros [= <-]. }
  do 2 (destruct (is_lit (keyword key) _ && _); [apply Hterm; by intros t' [= <-]|]).
  destruct (is_lit (keyword key) _ && _); [apply Hnumber|].
  destruct (is_lit (keyword key) "size"); [apply Hnumber|].
  destruct (numeric_property _ || _); [apply Hnumber|].
  do 2 (destruct (is_any (keyword key) _); [apply Hnumber|]).
  destruct (is_any (keyword key) _).
  { apply makes_bind. intros terms Ht. case_match; [done|]. apply Hlist. eapply queries_searchable; [|exact Ht].
    apply Forall_forall. intros c _. apply Hattr. }
  destruct (is_lit (keyword key) "flags"); [|done].
  apply makes_bind. intros mask _. apply Hterm. by intros t' [= <-].
Qed.
Definition scan_searchable (scan : atom_scan) : Prop :=
  match scan with Return r => makes_searchable r | Break s _ _ => is_ascii s = true end.
Lemma atom_prefix_searchable fuel original lf s o kind :
  is_ascii s = true → scan_searchable (atom_prefix fuel original lf s o kind).
Proof.
  revert s o kind. induction fuel as [|fuel IH]; intros s o kind Hs; [done|]. cbn [atom_prefix].
  destruct (in_literal original s lf); [done|].
  destruct (split_once (lit ":") s) as [[key val]|] eqn:Hsplit; [|done].
  apply split_once_ascii in Hsplit; [|done].
  destruct (relation_kind (keyword key)) as [[recursive rk]|].
  - apply makes_bind. intros q Hq. by apply restrict_searchable.
  - destruct (modifier o key); [by apply IH|]. repeat (case_match; [done || by apply IH|]). done.
Qed.
Lemma atom_searchable s o lf : is_ascii s = true → makes_searchable (atom_with_options s o lf).
Proof.
  intros Hs. unfold atom_with_options. pose proof (atom_prefix_searchable (S (length s)) s lf s o None Hs) as Hp.
  destruct (atom_prefix _ _ _ _ _ _) as [r|s' o' kind]; [done|]. cbn [scan_searchable] in Hp.
  assert (Hrest : makes_searchable (match (if bool_decide (target o' = None) && negb (regex o') &&
      negb (in_literal s s' lf) then split_once (lit ":") s' else None) with
    | Some (key, val) => function_query key val o' kind
    | None => operand_query s' o' kind end)).
  { match goal with |- makes_searchable (match ?e with _ => _ end) => destruct e as [[key val]|] eqn:Hsplit end; [|by apply operand_searchable].
    apply function_searchable. destruct (_ && _) in Hsplit; [|done]. by eapply split_once_ascii. }
  destruct kind, s'; done.
Qed.

(** Every descent gives searchable queries and leaves ASCII tokens. *)
Definition parses {A} (P : A → Prop) (d : descent A) : Prop :=
  match d with Some (Ok (x, ts, _)) => P x ∧ Forall token_ascii ts | _ => True end.
Lemma parses_bind {A C} (P : A → Prop) (Q : C → Prop) (m : descent A) f :
  parses P m → (∀ x ts rem, P x → Forall token_ascii ts → parses Q (f x ts rem)) → parses Q (d_bind m f).
Proof. intros Hm Hf. destruct m as [[[[x ts] rem]|e]|]; simpl; [by apply Hf; apply Hm|done..]. Qed.
Lemma finish_searchable queries :
  Forall searchable queries → searchable (finish_disjunction queries) ∧ searchable (finish_expression queries).
Proof.
  intros Hqs. destruct queries as [|q [|q' queries]]; [done|by apply Forall_cons in Hqs as [? _]|].
  split; by apply (searchable_operands (q :: q' :: queries)).
Qed.
Lemma wrap_searchable kind related q : searchable q → searchable (wrap_group kind related q).
Proof. intros Hq. unfold wrap_group. destruct related; [done|by apply restrict_searchable]. Qed.
Lemma descend_searchable macros fuel :
  (∀ name value, macros !! name = Some value → is_ascii value = true) →
  (∀ o d nest ts rem, Forall token_ascii ts → parses searchable (descend_unary macros fuel o d nest ts rem)) ∧
  (∀ o d nest ts rem, Forall token_ascii ts → parses (Forall searchable) (descend_disjunction macros fuel o d nest ts rem)) ∧
  (∀ o d nest ts rem, Forall token_ascii ts → parses (Forall searchable) (descend_expression macros fuel o d nest ts rem)).
Proof.
  intros Hmacros. induction fuel as [|fuel (IHu & IHd & IHe)]; [done|]. split_and!.
  - intros o d nest ts rem Hts. cbn [descend_unary].
    destruct (MAX_NESTING <=? nest); [done|]. destruct (rem =? 0)%N; [done|]. cbv zeta.
    assert (Hgroup : ∀ o d ts is_dir related, Forall token_ascii ts →
      parses searchable (d_bind (descend_expression macros fuel o d (S nest) ts (rem - 1)) (close_group is_dir related))).
    { intros o' d' ts' is_dir related Hts'. eapply parses_bind; [by apply IHe|].
      intros qs [|[] ts2] rem' Hqs Hts2; simpl; try done. apply Forall_cons in Hts2 as [_ Hts2].
      split; [|done]. by apply wrap_searchable, finish_searchable. }
    destruct ts as [|[s lf| | | | |] ts]; try done; apply Forall_cons in Hts as [Ht Hts].
    + destruct (group_scope s lf ts o) as [[[o' is_dir] related]|]; [apply Hgroup; by apply Forall_drop|].
      destruct (macro_value macros s lf) as [value|] eqn:Hvalue.
      * case_match; [done|]. destruct (default (Err "") (lex value)) as [[|t ts']|e] eqn:Hlex; [done| |done].
        assert (Hexp : Forall token_ascii (t :: ts')).
        { apply (lex_ascii value); [|by destruct (lex value) as [r|]; [f_equal|done]]. unfold macro_value in Hvalue.
          destruct lf as [[|]|]; try done; apply bind_Some in Hvalue as (key & _ & Hkey); by apply (Hmacros key). }
        eapply parses_bind; [by apply IHe|]. intros qs [|] rem' Hqs _; simpl; [|done]. split; [by apply finish_searchable|done].
      * pose proof (atom_searchable s o lf Ht) as Ha. destruct (atom_with_options s o lf); simpl in *; done.
    + by apply Hgroup.
    + eapply parses_bind; [by apply IHu|]. intros q ts2 rem' Hq Hts2. done.
  - intros o d nest ts rem Hts. cbn [descend_disjunction]. eapply parses_bind; [by apply IHu|].
    intros q ts2 rem' Hq Hts2. destruct ts2 as [|[] ts2]; try (split; [by constructor|done]).
    apply Forall_cons in Hts2 as [_ Hts2]. eapply parses_bind; [by apply IHd|]. intros qs ts3 rem3 Hqs Hts3. split; [by constructor|done].
  - intros o d nest ts rem Hts. cbn [descend_expression]. eapply parses_bind; [by apply IHd|].
    intros qs ts2 rem' Hqs Hts2. destruct (finish_searchable qs Hqs) as [Hfin _].
    destruct ts2 as [|[] ts2]; try (split; [by constructor|done]);
      (eapply parses_bind; [apply IHe; first [done|by apply Forall_cons in Hts2 as [_ ?]]|];
       intros qs' ts3 rem3 Hqs' Hts3; split; [by constructor|done]).
Qed.
Lemma descend_query_searchable macros ts o q :
  Forall token_ascii ts → (∀ name value, macros !! name = Some value → is_ascii value = true) →
  descend macros ts o = Some (Ok q) → searchable q.
Proof.
  intros Hts Hmacros. unfold descend. generalize descend_fuel as fuel. intros fuel.
  destruct (descend_searchable macros fuel Hmacros) as (_ & _ & He). specialize (He o 0 0 ts MAX_EXPRESSIONS Hts).
  destruct (descend_expression macros fuel o 0 0 ts MAX_EXPRESSIONS) as [[[[qs [|t ts']] rem]|e]|]; intros Hq; try done.
  injection Hq as <-. by apply finish_searchable, He.
Qed.
(** A query parsed from ASCII text with ASCII macros is as the theorems on
    candidates, scans and searches take queries. *)
Theorem ascii_query_searchable macros input now q :
  is_ascii input = true → (∀ name value, macros !! name = Some value → is_ascii value = true) →
  parse_at macros input now = Some (Ok q) → ready q ∧ narrowable q ∧ NameColumn.path_query q.
Proof.
  intros Hinput Hmacros Hparse. assert (Hq : searchable q).
  { unfold parse_at in Hparse. apply bind_Some in Hparse as ([ts|e] & Hlex & Hparse); [|done].
    pose proof (lex_ascii input ts Hinput Hlex) as Hts. destruct (decide (ts = [])) as [->|Hne]; [by injection Hparse as <-|].
    assert (Hrun : parse_tokens macros ts (default_options now) = Some (Ok q)) by (by destruct ts).
    destruct (machine_descends (B := B) macros ts (default_options now)) as (r & Hr & Hd).
    rewrite Hrun in Hr. injection Hr as <-. by apply (descend_query_searchable macros ts (default_options now)). }
  split_and!; [by apply searchable_ready|by apply searchable_narrowable|by apply searchable_path_query].
Qed.
End queries.
