(* ===== verification/Search.v ===== *)
(** * core/src/lib.rs, [query_inner]: from a query to a page of rows

    A request is answered in two steps.  The matching slots come from the
    exact indexes, or a scan of the text columns, or the evaluation of the
    query on each candidate row ([find_matching]).  The page is a window of
    the matching slots in the requested order, read from a kept order or
    selected from the matching slots, and placed by its offset or around an
    anchor row ([find_page]).

    The queries are given parsed and with their relations resolved (QueryParse
    and Relations).  The content of a row, stored in the database or extracted
    from the file, is an argument.  Not part of the model: the leases and
    caches of pages and matches, and the JSON of the response. *)
From S2P Require Import Prelude Bitmap OrderedMerge SlotOrder Text TextView Float QueryLex QueryNumber QuerySyntax.
From S2P Require Import FileEntry TextMatch QueryEval ResultOrder SlotSort SnapshotOrders SnapshotSort FileSlots.
From S2P Require Import Columns EntryChunk EntryTable PostingMap.
From S2P Require MetadataPostings NumericColumns NameColumn.
From S2P Require Import SnapshotData SnapshotUpdate SnapshotQuery.
Import NumericColumns (RoaringBytes, RoaringBytesLaws).

Section search.
Context `{Chrono, Unicode, Pcre, Memmem, JsonShape} {B : Type} `{Roaring B, RoaringBytes B} {Sec : Type} `{!UnstableSort}.
Notation SnapshotData := (SnapshotData B Sec).
Notation Query := (Query B).
Notation QueryEvaluator := (QueryEvaluator (B := B)).

(** ** The matching slots *)

(** The exact answer of the query without those of the exclusions, if every
    one has an exact answer. *)
Fixpoint subtract_exclusions (sn : SnapshotData) (exclusions : list Query) (matched : B) : polled (option B) :=
  match exclusions with
  | [] => mret (Some matched)
  | exclusion :: exclusions =>
    excluded ← exact_matches sn exclusion;
    match excluded with
    | Some excluded => subtract_exclusions sn exclusions (bm_sub matched excluded)
    | None => mret None
    end
  end.
Definition exact_search (sn : SnapshotData) (q : Query) (exclusions : list Query) (metadata_only : bool) : polled (option B) :=
  matched ← exact_matches sn q;
  match matched with
  | Some matched => if metadata_only then mret (Some matched) else subtract_exclusions sn exclusions matched
  | None => mret None
  end.

(** The evaluation of one row after the other: the evaluators keep their
    buffers from row to row. *)
Record RowScan := { query_evaluator : QueryEvaluator; exclusion_evaluators : list QueryEvaluator; matched_rows : RunBitmapBuilder B }.
Fixpoint exclude_row (evaluators : list QueryEvaluator) (file : IndexedFile) (content : option text) :
    result bool * list QueryEvaluator :=
  match evaluators with
  | [] => (Ok false, [])
  | e :: evaluators =>
    match evaluator_matches e file content with
    | (Ok false, e) => let '(r, evaluators) := exclude_row evaluators file content in (r, e :: evaluators)
    | (r, e) => (r, e :: evaluators)
    end
  end.
Definition scan_row (sn : SnapshotData) (q : Query) (metadata_only row_needs_content : bool)
    (body : IndexedFile → result (option text)) (st : RowScan) (slot : N) : polled RowScan :=
  check_cancelled;;
  file ← p_some (row_of (entries sn) slot);
  possible ← p_lift (if row_needs_content then may_match_without_content q file else Ok true);
  if (possible : bool) then
    content ← p_lift (if row_needs_content then body file else Ok None);
    let '(excluded, evaluators) :=
      if metadata_only then (Ok false, exclusion_evaluators st) else exclude_row (exclusion_evaluators st) file content in
    excluded ← p_lift excluded;
    let '(matched, e) :=
      if metadata_only then (may_match_before_extraction q file, query_evaluator st)
      else evaluator_matches (query_evaluator st) file content in
    matched ← p_lift matched;
    mret {| query_evaluator := e; exclusion_evaluators := evaluators;
            matched_rows := if matched && negb excluded then Bitmap.insert (matched_rows st) slot else matched_rows st |}
  else mret st.
Definition scan_rows (sn : SnapshotData) (q : Query) (exclusions : list Query) (metadata_only : bool)
    (body : IndexedFile → result (option text)) : polled B :=
  let row_needs_content := negb metadata_only && (requires_content q || existsb requires_content exclusions) in
  candidates ← candidates_with_cancellation sn q;
  let slots := match candidates with Some candidates => bm_iter (bm_and candidates (sn_live sn)) | None => bm_iter (sn_live sn) end in
  st ← p_fold (scan_row sn q metadata_only row_needs_content body) slots
         {| query_evaluator := evaluator q; exclusion_evaluators := evaluator <$> exclusions; matched_rows := builder_default |};
  mret (Bitmap.finish (matched_rows st)).
Definition all_files (q : Query) (exclusions : list Query) (metadata_only : bool) : bool :=
  match q with All => metadata_only || bool_decide (exclusions = []) | _ => false end.
(** [None] stands for every visible row.  [needs_content] was asked of the
    queries before their relations were resolved. *)
Definition find_matching (acquire : nat → option nat) (body : IndexedFile → result (option text)) (sn : SnapshotData)
    (q : Query) (exclusions : list Query) (metadata_only needs_content : bool) : polled (option B) :=
  if all_files q exclusions metadata_only then mret None
  else
    matching ← (if needs_content then mret None else exact_search sn q exclusions metadata_only);
    matching ← (match matching with
                | Some matched => mret (Some matched)
                | None => if metadata_only || needs_content then mret None else match_name_columns acquire sn q exclusions
                end);
    match matching with
    | Some matched => mret (Some matched)
    | None => matched ← scan_rows sn q exclusions metadata_only body; mret (Some matched)
    end.
End search.

(** ** The matching slots are the matching rows *)

Section truths.
Context `{Chrono, Unicode, Pcre, Memmem, Json} {B : Type} `{RoaringLaws B} {F : Type} `{!FileEntry F}.
Implicit Types (q : QuerySyntax.Query B) (file : F).

Lemma matches_inner_denotes q file content : (matches_inner q file content ev_start).1 = denote q file content.
Proof. apply matches_inner_value. exact (cell_empty content []). Qed.
Lemma indexed_truth_agrees q file content : agrees (indexed_truth q file content) (denote q file content).
Proof.
  induction q as [|queries IH|queries IH|q IH|recursive q _|t Ht] using query_induction.
  - cbn [indexed_truth]. rewrite matches_inner_denotes. apply agrees_same.
  - by apply kleene_all.
  - by apply kleene_any.
  - by apply agrees_not.
  - by intros b b' [=].
  - assert (Hterm : agrees (if lacks_property file t then Ok None
      else if bool_decide (content = None) && requires_content (QTerm t) then Ok None
      else b ← (matches_inner (QTerm t) file content ev_start).1; Ok (Some b)) (denote (QTerm t) file content)).
    { case_match; [by intros b b' [=]|]. case_match; [by intros b b' [=]|]. rewrite matches_inner_denotes. apply agrees_same. }
    destruct t as [| |recursive q|r| | | | | | | | |]; try exact Hterm; [by destruct (Ht recursive q)|apply truth_agrees].
Qed.
(** A row that is answered as matching matches. *)
Lemma available_denotes q file content b :
  query_matches_available q file content = Ok true → denote q file content = Ok b → b = true.
Proof.
  unfold query_matches_available, query_matches. case_match.
  - destruct (metadata_truth q file) as [v|] eqn:Hm; [|done]. intros [= Hv] Hd. apply bool_decide_eq_true in Hv as ->.
    symmetry. by apply (metadata_truth_agrees q file content).
  - case_match.
    + destruct (indexed_truth q file content) as [v|] eqn:Hm; [|done]. intros [= Hv] Hd. apply bool_decide_eq_true in Hv as ->.
      symmetry. by apply (indexed_truth_agrees q file content).
    + rewrite matches_inner_denotes. congruence.
Qed.
Lemma available_plain q file content :
  requires_relations q = false → requires_content q = false → query_matches_available q file content = denote q file content.
Proof.
  intros Hr Hc. unfold query_matches_available, query_matches. rewrite Hc, andb_false_r, Hr. apply matches_inner_denotes.
Qed.
(** A row that cannot match without its content is not answered as matching. *)
Lemma impossible_row q file content b b' :
  may_match_without_content q file = Ok false → denote q file content = Ok b' →
  query_matches_available q file content = Ok b → b = false.
Proof.
  unfold may_match_without_content. destruct (metadata_truth q file) as [v|] eqn:Hm; [|done]. intros [= Hv] Hd Hb.
  apply negb_false_iff, bool_decide_eq_true in Hv as ->. assert (b' = false) as -> by (symmetry; by apply (metadata_truth_agrees q file content)).
  destruct b; [|done]. symmetry. exact (available_denotes q file content false Hb Hd).
Qed.

(** *** Queries answered by an index *)

Lemma kleene_known {A} (and : bool) (f : A → result (option bool)) l :
  Forall (λ x, ∃ b, f x = Ok (Some b)) l → ∃ b, kleene and f l false = Ok (Some b).
Proof.
  induction 1 as [|x l (b & Hb) _ (b' & IH)]; [by exists and|]. cbn [kleene]. rewrite Hb. cbn.
  destruct (Bool.eqb b and); [by exists b'|by exists (negb and)].
Qed.
Lemma exact_field_no_property field : is_any field ["size"; "modified"; "created"] = true → numeric_property field = false.
Proof.
  unfold is_any. simpl. unfold is_lit. rewrite !orb_true_iff, !bool_decide_eq_true.
  intros [->|[->|[->|?]]]; [by vm_compute..|done].
Qed.
Lemma exact_no_content q : supports_exact q = true → requires_content q = false.
Proof.
  induction q as [|queries IH|queries IH|q IH|recursive q _|t Ht] using query_induction; try done.
  - cbn [supports_exact requires_content]. intros Hs. induction IH as [|q queries Hq _ IH]; [done|]. simpl in *.
    apply andb_true_iff in Hs as [Hq1 Hq2]. by rewrite Hq, IH.
  - cbn [supports_exact requires_content]. intros Hs. induction IH as [|q queries Hq _ IH]; [done|]. simpl in *.
    apply andb_true_iff in Hs as [Hq1 Hq2]. by rewrite Hq, IH.
  - by destruct t as [| | | | | | | | | | | |[]].
Qed.
Lemma exact_truth_known q file content : supports_exact q = true → ∃ b, indexed_truth q file content = Ok (Some b).
Proof.
  assert (Hlist : ∀ queries, Forall (λ q, supports_exact q = true → ∃ b, indexed_truth q file content = Ok (Some b)) queries →
    forallb supports_exact queries = true → Forall (λ q, ∃ b, indexed_truth q file content = Ok (Some b)) queries).
  { induction 1 as [|q' queries Hq _ IH]; [constructor|]. simpl. intros [??]%andb_true_iff. constructor; auto. }
  induction q as [|queries IH|queries IH|q IH|recursive q _|t Ht] using query_induction; intros Hs; cbn [indexed_truth].
  - rewrite matches_inner_denotes. by exists true.
  - by apply kleene_known, Hlist.
  - by apply kleene_known, Hlist.
  - destruct (IH Hs) as (b & ->). by exists (negb b).
  - done.
  - assert (Hterm : lacks_property file t = false → requires_content (QTerm t) = false → (∃ b, denote (QTerm t) file content = Ok b) →
      ∃ b, (if lacks_property file t then Ok None
      else if bool_decide (content = None) && requires_content (QTerm t) then Ok None
      else b ← (matches_inner (QTerm t) file content ev_start).1; Ok (Some b)) = Ok (Some b)).
    { intros -> -> (b & Hb). rewrite andb_false_r, matches_inner_denotes, Hb. by exists b. }
    destruct t as [[] needle_ f []| | |r| | | | | |m| | |]; try done; try (apply Hterm; [done|done|by eexists]).
    + unfold truth. cbn [supports_exact] in Hs. rewrite bm_is_empty_true in Hs. cbv zeta. rewrite Hs. destruct (bm_contains _ (yes r)); by eexists.
    + apply Hterm; [|done|by eexists]. cbn [supports_exact] in Hs.
      destruct m as [field neg|field low high il ih neg]; [done|]. cbn [lacks_property].
      cbn [NumericColumns.supports MetadataPostings.supports] in Hs. destruct (is_any field _) eqn:Hf; [|done].
      by rewrite exact_field_no_property.
Qed.
(** Where the index answers, so does the evaluator of rows. *)
Lemma exact_available q file content b :
  supports_exact q = true → denote q file content = Ok b → query_matches_available q file content = Ok b.
Proof.
  intros Hs Hd. unfold query_matches_available, query_matches. rewrite (exact_no_content q Hs), andb_false_r.
  destruct (requires_relations q); [|by rewrite matches_inner_denotes].
  destruct (exact_truth_known q file content Hs) as (b' & Hb). rewrite Hb. simpl.
  rewrite (indexed_truth_agrees q file content b' b Hb Hd). by destruct b.
Qed.
Lemma compiled_plain_query q e : NameColumn.compile q = Some e → requires_relations q = false ∧ requires_content q = false.
Proof.
  assert (Hlist : ∀ queries l, Forall (λ q, ∀ e, NameColumn.compile q = Some e → requires_relations q = false ∧ requires_content q = false) queries →
    NameColumn.compile_all NameColumn.compile queries = Some l →
    existsb requires_relations queries = false ∧ existsb requires_content queries = false).
  { intros queries l IH Hl%NameColumn.compile_all_Forall2. induction Hl as [|q' e' queries l Hq _ IHl]; [done|].
    apply Forall_cons in IH as [IHq IH]. simpl. destruct (IHq e' Hq) as [-> ->]. by apply IHl. }
  revert e. induction q as [|queries IH|queries IH|q IH|recursive q _|t Ht] using query_induction; intros e; cbn [NameColumn.compile]; try done.
  - intros (l & Hl & _)%bind_Some. by apply (Hlist queries l).
  - intros (l & Hl & _)%bind_Some. by apply (Hlist queries l).
  - intros (e' & He & _)%bind_Some. by apply (IH e').
  - by destruct t as [[] needle_ f []| | | | | | | | | | | |].
Qed.
Lemma path_plain_query q finder mode : path_substring q = Some (finder, mode) → requires_relations q = false ∧ requires_content q = false.
Proof. destruct q as [| | | |[[] needle_ f []| | | | | | | | | | | |[[]| | |] m]]; done. Qed.
End truths.

Section matching.
Context `{Chrono, Unicode, Pcre, MemmemLaws, JsonShapeLaws} {B : Type} `{RoaringLaws B} `{!RoaringBytes B, !RoaringBytesLaws B}
  {Sec : Type} `{!UnstableSort}.
Notation SnapshotData := (SnapshotData B Sec).
Notation Query := (QuerySyntax.Query B).
Context (n k : nat) (sn : SnapshotData) (rows : list IndexedFile) (Hsn : snapshot_ok n k sn rows).
Context (q : Query) (exclusions : list Query) (body : IndexedFile → result (option text)).
Notation live := (sn_live sn).
Implicit Types (row : IndexedFile) (slot : N).

(** What is read of a row before it is evaluated. *)
Definition content_needed : bool := requires_content q || existsb requires_content exclusions.
Definition row_content row : result (option text) := if content_needed then body row else Ok None.
(** The answer for a row: the query holds and none of the exclusions does. *)
Definition row_answers row content (b : bool) : Prop :=
  ∃ b1 ex, query_matches_available q row content = Ok b1 ∧
    any_result (λ q, query_matches_available q row content) exclusions = Ok ex ∧ b = b1 && negb ex.
(** The content of the row is read and no matcher fails on it. *)
Definition evaluable row : Prop :=
  ∃ content b1 b2 ex v, row_content row = Ok content ∧ denote q row content = Ok b1 ∧
    query_matches_available q row content = Ok b2 ∧
    any_result (λ q, query_matches_available q row content) exclusions = Ok ex ∧ metadata_truth q row = Ok v.
(** The slots of a set that is right about every visible row. *)
Definition matching_set (r : B) : Prop :=
  (∀ slot, bm_contains slot r = true → bm_contains slot live = true) ∧
  ∀ slot row content, bm_contains slot live = true → rows !! N.to_nat slot = Some row → row_content row = Ok content →
    row_answers row content (bm_contains slot r).

(** *** Exact answers *)

Lemma subtract_exclusions_spec l matched :
  Forall ready l → ∃ o, cancels_to (subtract_exclusions sn l matched) (Ok o) ∧
    match o with
    | None => True
    | Some r => Forall (λ q, supports_exact q = true) l ∧ ∀ slot row content,
        bm_contains slot live = true → rows !! N.to_nat slot = Some row → ∃ ex,
          any_result (λ q, denote q row content) l = Ok ex ∧ bm_contains slot r = bm_contains slot matched && negb ex
    end ∧ ∀ r slot, o = Some r → bm_contains slot r = true → bm_contains slot matched = true.
Proof.
  intros Hl. revert matched. induction Hl as [|q' l Hq _ IH]; intros matched; cbn [subtract_exclusions].
  { exists (Some matched). split; [apply cancels_ret|]. split; [|by intros r slot [= ->]]. split; [constructor|].
    intros slot row content _ _. exists false. by rewrite andb_true_r. }
  pose proof (exact_matches_spec n k sn rows Hsn q' Hq) as He. destruct (supports_exact q') eqn:Hs.
  - destruct He as (r & Hr & Ha). destruct (IH (bm_sub matched r)) as (o & Ho & Hspec & Hsub). exists o.
    split; [by eapply cancels_bind; [exact Hr|]|]. split.
    + destruct o as [r'|]; [|done]. destruct Hspec as [Hall Hspec]. split; [by constructor|]. intros slot row content Hlive Hrow.
      destruct (Hspec slot row content Hlive Hrow) as (ex & Hex & Heq). exists (bm_contains slot r || ex). cbn [any_result].
      rewrite (answers_at sn rows q' r slot row content Ha Hlive Hrow). rewrite Heq, contains_sub. cbn.
      destruct (bm_contains slot r); [by rewrite !andb_false_r|]. rewrite Hex. by rewrite andb_true_r.
    + intros r' slot -> Hin. specialize (Hsub r' slot eq_refl Hin). rewrite contains_sub in Hsub. by apply andb_true_iff in Hsub as [? _].
  - exists None. split; [eapply cancels_bind; [exact He|apply cancels_ret]|]. by split.
Qed.
Lemma any_available l row content ex :
  Forall (λ q, supports_exact q = true) l → any_result (λ q, denote q row content) l = Ok ex →
  any_result (λ q, query_matches_available q row content) l = Ok ex.
Proof.
  intros Hl. revert ex. induction Hl as [|q' l Hq _ IH]; intros ex; cbn [any_result]; [done|].
  intros (b & Hb & Hrest)%result_bind_Ok. rewrite (exact_available q' row content b Hq Hb). cbn. destruct b; [done|by apply IH].
Qed.
Lemma exact_search_spec : ready q → Forall ready exclusions →
  ∃ o, cancels_to (exact_search sn q exclusions false) (Ok o) ∧ match o with Some r => matching_set r | None => True end.
Proof.
  intros Hq Hl. unfold exact_search. pose proof (exact_matches_spec n k sn rows Hsn q Hq) as He.
  destruct (supports_exact q) eqn:Hs; [|exists None; split; [eapply cancels_bind; [exact He|apply cancels_ret]|done]].
  destruct He as (r & Hr & Ha). destruct (subtract_exclusions_spec exclusions r Hl) as (o & Ho & Hspec & Hsub).
  exists o. split; [by eapply cancels_bind; [exact Hr|]|]. destruct o as [r'|]; [|done]. destruct Hspec as [Hall Hspec]. split.
  - intros slot Hin. apply (proj1 Ha), (Hsub r' slot eq_refl Hin).
  - intros slot row content Hlive Hrow _. destruct (Hspec slot row content Hlive Hrow) as (ex & Hex & Heq).
    exists (bm_contains slot r), ex. split_and!; [|by apply any_available|done].
    apply exact_available; [done|]. exact (answers_at sn rows q r slot row content Ha Hlive Hrow).
Qed.

(** *** Scans of the columns *)

Lemma plain_available l row content :
  Forall (λ q, requires_relations q = false ∧ requires_content q = false) l →
  any_result (λ q, query_matches_available q row content) l = any_result (λ q, denote q row content) l.
Proof.
  induction 1 as [|q' l [Hr Hc] _ IH]; [done|]. cbn [any_result]. by rewrite available_plain, IH.
Qed.
Lemma column_search_spec `{!NameColumn.SlashUnicode} acquire :
  ready q → NameColumn.path_query q → Forall NameColumn.valid_paths rows →
  ∃ o, cancels_to (match_name_columns acquire sn q exclusions) (Ok o) ∧ match o with Some r => matching_set r | None => True end.
Proof.
  intros Hq Hp Hv. destruct (match_name_columns_spec n k sn rows Hsn acquire q exclusions Hq Hp Hv) as (o & Ho & He).
  exists o. split; [done|]. destruct o as [r|]; [|done]. destruct He as [Hsub Hd]. split; [done|].
  intros slot row content Hlive Hrow _. destruct (Hd slot row content Hlive Hrow) as (b & ex & Hb & Hex & Heq).
  assert (Hplain : Forall (λ q, requires_relations q = false ∧ requires_content q = false) (q :: exclusions)).
  { pose proof (cancels_never _ _ (λ _, false) 0 Ho (λ _, eq_refl)) as Hrun. unfold match_name_columns in Hrun.
    destruct (match exclusions with [] => path_substring q | _ => None end) as [[finder mode]|] eqn:Hsubstring.
    - destruct exclusions; [|done]. constructor; [by apply (path_plain_query q finder mode)|constructor].
    - destruct (NameColumn.compile q) as [e|] eqn:Hc; [|done].
      destruct (NameColumn.compile_all NameColumn.compile exclusions) as [es|] eqn:Hes; [|done].
      constructor; [by apply (compiled_plain_query q e)|]. apply NameColumn.compile_all_Forall2 in Hes. clear -Hes.
      induction Hes as [|q' e' l es Hq _ IH]; constructor; [by apply (compiled_plain_query q' e')|done]. }
  apply Forall_cons in Hplain as [[Hr Hc] Hplain]. exists b, ex. rewrite available_plain, plain_available by done. done.
Qed.

(** *** The evaluation of rows *)

Definition evaluates_query (q : Query) (e : QueryEvaluator) : Prop := ∃ buffer, e = evaluator_at q buffer.
Definition scan_ok (st : RowScan) : Prop :=
  evaluates_query q (query_evaluator st) ∧ Forall2 evaluates_query exclusions (exclusion_evaluators st).
Definition row_hit (slot : N) : bool :=
  match rows !! N.to_nat slot with
  | Some row =>
    match row_content row with
    | Ok content =>
      match query_matches_available q row content, any_result (λ q, query_matches_available q row content) exclusions with
      | Ok b, Ok ex => b && negb ex
      | _, _ => false
      end
    | Err _ => false
    end
  | None => false
  end.
Lemma exclude_row_spec l evaluators row content ex :
  Forall2 evaluates_query l evaluators → any_result (λ q, query_matches_available q row content) l = Ok ex →
  ∃ evaluators', exclude_row evaluators row content = (Ok ex, evaluators') ∧ Forall2 evaluates_query l evaluators'.
Proof.
  intros Hl. revert ex. induction Hl as [|q' e l evaluators (buffer & ->) Hl IH]; intros ex; cbn [any_result exclude_row].
  { intros [= <-]. by exists []. }
  destruct (evaluator_matches_value q' buffer row content) as (buffer' & ->).
  intros ([] & -> & Hrest)%result_bind_Ok; cbn in Hrest.
  - injection Hrest as <-. eexists. split; [done|]. constructor; [by exists buffer'|done].
  - destruct (IH ex Hrest) as (evaluators' & -> & Hl'). eexists. split; [done|]. constructor; [by exists buffer'|done].
Qed.
Lemma scan_row_spec st slot row :
  scan_ok st → rows !! N.to_nat slot = Some row → evaluable row →
  ∃ st', cancels_to (scan_row sn q false content_needed body st slot) (Ok st') ∧ scan_ok st' ∧
    matched_rows st' = if row_hit slot then Bitmap.insert (matched_rows st) slot else matched_rows st.
Proof.
  intros [(buffer & Hq) Hex] Hrow (content & b1 & b2 & ex & v & Hcontent & Hd & Hb2 & Hx & Hv).
  assert (Hhit : row_hit slot = b2 && negb ex) by (unfold row_hit; by rewrite Hrow, Hcontent, Hb2, Hx).
  assert (Hfile : row_of (entries sn) slot = Some row) by (by rewrite (row_of_spec n k _ rows slot (so_table _ _ _ _ Hsn))).
  unfold scan_row.
  assert (Hpossible : ∃ possible, (if content_needed then may_match_without_content q row else Ok true) = Ok possible ∧
    (possible = false → b2 = false)).
  { destruct content_needed; [|by exists true]. destruct (may_match_without_content q row) as [possible|] eqn:Hm.
    - exists possible. split; [done|]. intros ->. exact (impossible_row q row content b2 b1 Hm Hd Hb2).
    - exfalso. unfold may_match_without_content in Hm. by rewrite Hv in Hm. }
  destruct Hpossible as (possible & Hpossible & Hno). destruct possible.
  - destruct (exclude_row_spec exclusions _ row content ex Hex Hx) as (evaluators & Hexclude & Hex').
    destruct (evaluator_matches_value q buffer row content) as (buffer' & Hmatch).
    eexists. split; [|split].
    + eapply cancels_bind; [apply cancels_check|]. eapply cancels_bind; [by apply cancels_some|].
      rewrite Hpossible. eapply cancels_bind; [apply cancels_lift|]. cbn beta iota.
      fold (row_content row). rewrite Hcontent. eapply cancels_bind; [apply cancels_lift|].
      rewrite Hexclude. cbn beta iota. eapply cancels_bind; [apply cancels_lift|].
      rewrite Hq, Hmatch. cbn beta iota. rewrite Hb2. eapply cancels_bind; [apply cancels_lift|]. apply cancels_ret.
    + split; cbn; [by exists buffer'|done].
    + cbn. by rewrite Hhit.
  - exists st. split; [|split; [split; [by exists buffer|done]|by rewrite Hhit, Hno]].
    eapply cancels_bind; [apply cancels_check|]. eapply cancels_bind; [by apply cancels_some|].
    rewrite Hpossible. eapply cancels_bind; [apply cancels_lift|]. apply cancels_ret.
Qed.
Lemma scan_slots_spec slots st :
  scan_ok st → (∀ slot, slot ∈ slots → ∃ row, rows !! N.to_nat slot = Some row ∧ evaluable row) →
  ∃ st', cancels_to (p_fold (scan_row sn q false content_needed body) slots st) (Ok st') ∧
    matched_rows st' = foldl Bitmap.insert (matched_rows st) (filter (λ slot, row_hit slot = true) slots).
Proof.
  revert st. induction slots as [|slot slots IH]; intros st Hst Hrows; cbn [p_fold].
  { exists st. split; [apply cancels_ret|done]. }
  destruct (Hrows slot) as (row & Hrow & Hev); [left|].
  destruct (scan_row_spec st slot row Hst Hrow Hev) as (st1 & Hst1 & Hok1 & Heq1).
  destruct (IH st1 Hok1) as (st2 & Hst2 & Heq2); [by intros; apply Hrows; right|].
  exists st2. split; [by eapply cancels_bind; [exact Hst1|]|]. rewrite Heq2, Heq1, filter_cons.
  destruct (row_hit slot); [by rewrite decide_True|by rewrite decide_False].
Qed.
Lemma scan_rows_spec :
  ready q → literals_kept q → (∀ slot row, bm_contains slot live = true → rows !! N.to_nat slot = Some row → evaluable row) →
  ∃ r, cancels_to (scan_rows sn q exclusions false body) (Ok r) ∧ matching_set r.
Proof.
  intros Hq Hk Hrows. unfold scan_rows. destruct (candidates_spec n k sn rows Hsn q Hq Hk) as (o & Ho & Hn).
  set (slots := match o with Some candidates => bm_iter (bm_and candidates live) | None => bm_iter live end).
  assert (Hslots : ∀ slot, slot ∈ slots ↔ bm_contains slot live = true ∧ match o with Some c => bm_contains slot c = true | None => True end).
  { intros slot. unfold slots. destruct o as [c|]; rewrite <-contains_iter; [rewrite contains_and, andb_true_iff|]; tauto. }
  assert (Hrow : ∀ slot, bm_contains slot live = true → ∃ row, rows !! N.to_nat slot = Some row).
  { intros slot Hlive. apply lookup_lt_is_Some_2. by apply (so_live _ _ _ _ Hsn). }
  destruct (scan_slots_spec slots {| query_evaluator := evaluator q; exclusion_evaluators := evaluator <$> exclusions; matched_rows := builder_default |})
    as (st & Hst & Heq).
  { split; cbn; [by exists []|]. apply Forall2_fmap_r, Forall_Forall2_diag, Forall_forall. intros q' _. by exists []. }
  { intros slot [Hlive _]%Hslots. destruct (Hrow slot Hlive) as [row Hr]. exists row. split; [done|]. by apply (Hrows slot). }
  exists (Bitmap.finish (matched_rows st)). split.
  { eapply cancels_bind; [exact Ho|]. cbv zeta. fold slots. eapply cancels_bind; [exact Hst|apply cancels_ret]. }
  assert (Hin : ∀ slot, bm_contains slot (Bitmap.finish (matched_rows st)) = true ↔ slot ∈ slots ∧ row_hit slot = true).
  { intros slot. rewrite Heq. cbn [matched_rows]. rewrite builder_collects, list_elem_of_filter. tauto. }
  split; [by intros slot [[? _]%Hslots _]%Hin|]. intros slot row content Hlive Hr Hc.
  destruct (Hrows slot row Hlive Hr) as (content' & b1 & b2 & ex & v & Hcontent & Hd & Hb2 & Hx & _).
  assert (content' = content) as -> by congruence.
  assert (Hhit : row_hit slot = b2 && negb ex) by (unfold row_hit; by rewrite Hr, Hc, Hb2, Hx).
  exists b2, ex. split_and!; [done..|]. apply eq_true_iff_eq. rewrite Hin, Hhit, Hslots. split; [by intros [_ ?]|].
  intros Hb. split_and!; [done| |done]. destruct o as [c|]; [|done].
  apply andb_true_iff in Hb as [-> _]. pose proof (available_denotes q row content b1 Hb2 Hd) as ->.
  by apply (proj2 Hn slot row content).
Qed.

(** *** All ways *)

Lemma find_matching_spec `{!NameColumn.SlashUnicode} acquire needs_content :
  ready q → literals_kept q → Forall ready exclusions → NameColumn.path_query q → Forall NameColumn.valid_paths rows →
  (∀ slot row, bm_contains slot live = true → rows !! N.to_nat slot = Some row → evaluable row) →
  ∃ o, cancels_to (find_matching acquire body sn q exclusions false needs_content) (Ok o) ∧
    match o with Some r => matching_set r | None => q = All ∧ exclusions = [] end.
Proof.
  intros Hq Hk Hex Hp Hv Hrows. unfold find_matching. destruct (all_files q exclusions false) eqn:Hall.
  { exists None. split; [apply cancels_ret|]. destruct q; try done. cbn in Hall. by apply bool_decide_eq_true in Hall. }
  assert (Hexact : ∃ o, cancels_to (if needs_content then mret None else exact_search sn q exclusions false) (Ok o) ∧
    match o with Some r => matching_set r | None => True end).
  { destruct needs_content; [exists None; split; [apply cancels_ret|done]|by apply exact_search_spec]. }
  destruct Hexact as (o1 & Ho1 & Hm1).
  assert (Hcolumns : ∃ o, cancels_to (match o1 with
      | Some matched => mret (Some matched)
      | None => if false || needs_content then mret None else match_name_columns acquire sn q exclusions end) (Ok o) ∧
    match o with Some r => matching_set r | None => True end).
  { destruct o1 as [r|]; [by exists (Some r); split; [apply cancels_ret|]|].
    destruct needs_content; [exists None; split; [apply cancels_ret|done]|by apply column_search_spec]. }
  destruct Hcolumns as (o2 & Ho2 & Hm2). destruct o2 as [r|].
  - exists (Some r). split; [|done]. eapply cancels_bind; [exact Ho1|]. eapply cancels_bind; [exact Ho2|apply cancels_ret].
  - destruct (scan_rows_spec Hq Hk Hrows) as (r & Hr & Hm). exists (Some r). split; [|done].
    eapply cancels_bind; [exact Ho1|]. eapply cancels_bind; [exact Ho2|]. eapply cancels_bind; [exact Hr|apply cancels_ret].
Qed.
End matching.
