(* ===== verification/SearchPage.v ===== *)
(** * core/src/lib.rs, [query_inner]: the page of a search

    The page is a window of the matching slots in the requested order.  With a
    whole order at hand the window is read from it; otherwise the first slots
    up to the window's end are selected from the matching ones.  An anchor is
    a path to be kept at the same distance from the top of the window: its
    rank among the matching slots gives the offset. *)
From S2P Require Import Prelude Bitmap OrderedMerge SlotOrder Text TextView Float QueryLex QueryNumber QuerySyntax.
From S2P Require Import FileEntry TextMatch QueryEval ResultOrder SlotSort SnapshotOrders SnapshotSort FileSlots.
From S2P Require Import Columns EntryChunk EntryTable PostingMap.
From S2P Require MetadataPostings NumericColumns NameColumn.
From S2P Require Import SnapshotData SnapshotUpdate SnapshotQuery Search.
Import NumericColumns (RoaringBytes, RoaringBytesLaws).

(** [anchored_offset]; the differences are of [i128]. *)
Definition anchored_offset (offset limit total : nat) (requested : bool) (anchor : option nat) (delta : Z) : nat :=
  if requested then
    match anchor with
    | Some rank => Z.to_nat (Z.min (Z.max (Z.of_nat rank - delta) 0) (Z.of_nat (total - 1)))
    | None => Nat.min offset (total - Nat.max limit 1)
    end
  else offset.

Record PageRequest := {
  r_offset : nat;
  r_limit : nat;              (* 10000 at most *)
  anchor_path : option text;
  anchor_id : option Z;
  anchor_delta : Z;
  r_order : ResultOrder;
}.
(** What is cached of a page, and answered. *)
Record ResultPage := { page_slots : list N; page_total : nat; page_offset : nat; page_anchor : option nat }.

Section page.
Context `{JsonShape} {B : Type} `{Roaring B} {Sec : Type} `{!UnstableSort}.
Notation SnapshotData := (SnapshotData B Sec).
Notation SlotOrder := (SlotOrder Sec).

Definition is_anchor (sn : SnapshotData) (anchor : text) (slot : N) : option bool :=
  row ← row_of (entries sn) slot; Some (bool_decide (i_path row = anchor)).
(** The slot of the anchor's id, if the row is visible and still has the path. *)
Definition indexed_anchor (sn : SnapshotData) (req : PageRequest) (anchor : text) : option (option N) :=
  match anchor_id req with
  | None => Some None
  | Some id =>
    slot ← slot_for_id sn id;
    match slot with
    | None => Some None
    | Some slot =>
      let slot := N.of_nat slot in
      if bm_contains slot (sn_live sn) then
        here ← is_anchor sn anchor slot; Some (if (here : bool) then Some slot else None)
      else Some None
    end
  end.

(** *** With an order *)

Fixpoint find_anchor (sn : SnapshotData) (anchor : text) (slots : list N) (rank : nat) : polled (option nat) :=
  match slots with
  | [] => mret None
  | slot :: slots =>
    check_every 1024 rank;;
    here ← p_some (is_anchor sn anchor slot);
    if (here : bool) then mret (Some rank) else find_anchor sn anchor slots (S rank)
  end.
(** [matching.as_ref().is_none_or(|set| set.contains(slot))] *)
Definition in_matching (matching : option B) (slot : N) : bool :=
  match matching with Some set => bm_contains slot set | None => true end.
Fixpoint find_matching_anchor (sn : SnapshotData) (anchor : text) (matching : option B) (slots : list N) (position rank : nat) :
    polled (option nat) :=
  match slots with
  | [] => mret None
  | slot :: slots =>
    check_every 1024 position;;
    if in_matching matching slot then
      here ← p_some (is_anchor sn anchor slot);
      if (here : bool) then mret (Some rank)
      else find_matching_anchor sn anchor matching slots (S position) (S rank)
    else find_matching_anchor sn anchor matching slots (S position) rank
  end.
(** The rank the anchor had; a viewport that did not change still has it. *)
Definition expected_rank (req : PageRequest) : nat := Z.to_nat (Z.max (Z.of_nat (r_offset req) + anchor_delta req) 0 mod 2 ^ 64).
Definition anchor_in_order (sn : SnapshotData) (req : PageRequest) (all : bool) (matching : option B) (o : SlotOrder) (anchor : text) :
    polled (option nat) :=
  if all then
    hint ← p_some (match SlotOrder.get o (expected_rank req) with Some slot => is_anchor sn anchor slot | None => Some false end);
    if (hint : bool) then mret (Some (expected_rank req))
    else
      indexed ← p_some (indexed_anchor sn req anchor);
      match indexed with
      | Some slot =>
        target ← p_some (row_of (entries sn) slot);
        mret (rank_of (order_compare (r_order req)) (row_of (entries sn)) o target)
      | None => find_anchor sn anchor (to_vec o) 0
      end
  else find_matching_anchor sn anchor matching (to_vec o) 0 0.
Fixpoint page_loop (matched : B) (offset limit : nat) (slots : list N) (position rank : nat) (matches_ : list N) : polled (list N) :=
  match slots with
  | [] => mret matches_
  | slot :: slots =>
    check_every 1024 position;;
    if bm_contains slot matched then
      let matches_ := if (offset <=? rank) && (length matches_ <? limit) then matches_ ++ [slot] else matches_ in
      if length matches_ =? limit then mret matches_
      else page_loop matched offset limit slots (S position) (S rank) matches_
    else page_loop matched offset limit slots (S position) rank matches_
  end.
Definition ordered_page (sn : SnapshotData) (req : PageRequest) (all : bool) (matching : option B) (total : nat) (o : SlotOrder) :
    polled ResultPage :=
  anchor ← (match anchor_path req with
            | Some anchor => anchor_in_order sn req all matching o anchor
            | None => mret None
            end);
  let limit := r_limit req in
  let offset := anchored_offset (r_offset req) limit total (bool_decide (is_Some (anchor_path req))) anchor (anchor_delta req) in
  slots ← (if all then
             let start := Nat.min offset (SlotOrder.len o) in
             p_some (SlotOrder.extend_range o [] start (Nat.min (sat_add start limit) (SlotOrder.len o)))
           else
             matched ← p_some matching;
             page_loop matched offset limit (to_vec o) 0 0 []);
  mret {| page_slots := slots; page_total := total; page_offset := offset; page_anchor := anchor |}.

(** *** Without an order *)

Fixpoint find_slot (sn : SnapshotData) (anchor : text) (slots : list N) : option (option N) :=
  match slots with
  | [] => Some None
  | slot :: slots => here ← is_anchor sn anchor slot; if (here : bool) then Some (Some slot) else find_slot sn anchor slots
  end.
(** [compare(slot, anchor).is_lt()], counted. *)
Definition count_before (compare : N → N → comparison) (anchor : N) (rank : nat) (position_slot : nat * N) : polled nat :=
  let '(position, slot) := position_slot in
  check_every 1024 position;;
  mret (if is_lt (compare slot anchor) then S rank else rank).
Definition anchor_by_count (sn : SnapshotData) (req : PageRequest) (matching : option B) (matches_ : list N) (anchor : text) :
    polled (option nat) :=
  indexed ← p_some (indexed_anchor sn req anchor);
  found_ ← (match indexed with
            | Some slot => mret (Some slot)
            | None => p_some (find_slot sn anchor matches_)
            end);
  match found_ with
  | Some slot =>
    if in_matching matching slot then
      rank ← p_fold (count_before (slot_compare (row_of (entries sn)) (r_order req)) slot) (imap pair matches_) 0;
      mret (Some rank)
    else mret None
  | None => mret None
  end.
Definition selected_page (sn : SnapshotData) (req : PageRequest) (matching : option B) (total : nat) : polled ResultPage :=
  let matches_ := bm_iter (default (sn_live sn) matching) in
  anchor ← (match anchor_path req with
            | Some anchor => anchor_by_count sn req matching matches_ anchor
            | None => mret None
            end);
  let limit := r_limit req in
  let offset := anchored_offset (r_offset req) limit total (bool_decide (is_Some (anchor_path req))) anchor (anchor_delta req) in
  matches_ ← select_prefix (slot_compare (row_of (entries sn)) (r_order req)) matches_ (sat_add offset limit);
  let end_ := Nat.min (sat_add offset limit) (length matches_) in
  mret {| page_slots := if offset <=? end_ then take (end_ - offset) (drop offset matches_) else [];
          page_total := total; page_offset := offset; page_anchor := anchor |}.

(** *** The page *)

Definition large : nat := 10000.
Definition page_order (cache cache' : ResultOrder → option SlotOrder) (sn : SnapshotData) (req : PageRequest) (all : bool) (total : nat) :
    polled (option SlotOrder) :=
  if (large <=? r_limit req) || (snapshot_len sn <=? large) ||
     bool_decide (is_Some (primary_path_direction (r_order req))) && (all || (large <=? total)) then
    o ← result_order (ordered_of sn) cache cache' (r_order req); mret (Some o)
  else mret (if all || (large <=? total) then cached_order (ordered_of sn) cache (r_order req) else None).
(** [matching] is [None] when every visible row matches. *)
Definition find_page (cache cache' : ResultOrder → option SlotOrder) (sn : SnapshotData) (matching : option B) (req : PageRequest) :
    polled ResultPage :=
  let all := bool_decide (matching = None) in
  let total := match matching with Some set => bm_len set | None => snapshot_len sn end in
  let requested := bool_decide (is_Some (anchor_path req)) in
  page ← (if negb (total =? 0) && (negb (r_limit req =? 0) || requested) then
            o ← page_order cache cache' sn req all total;
            match o with
            | Some o => ordered_page sn req all matching total o
            | None => selected_page sn req matching total
            end
          else mret {| page_slots := []; page_total := total;
                       page_offset := anchored_offset (r_offset req) (r_limit req) total requested None (anchor_delta req);
                       page_anchor := None |});
  check_cancelled;;
  mret page.
End page.

(** The search of [query_inner]: the matching slots, then their page. *)
Definition search `{Chrono, Unicode, Pcre, Memmem, JsonShape} {B : Type} `{Roaring B, RoaringBytes B} {Sec : Type} `{!UnstableSort}
    (acquire : nat → option nat) (body : IndexedFile → result (option text)) (cache cache' : ResultOrder → option (SlotOrder Sec))
    (sn : SnapshotData B Sec) (q : QuerySyntax.Query B) (exclusions : list (QuerySyntax.Query B)) (metadata_only needs_content : bool)
    (req : PageRequest) : polled ResultPage :=
  matching ← find_matching acquire body sn q exclusions metadata_only needs_content;
  find_page cache cache' sn matching req.

(** ** The page is a window of the sorted matches *)

Section pages.
Context `{Chrono, Unicode, Pcre, MemmemLaws, JsonShapeLaws} {B : Type} `{RoaringLaws B} `{!RoaringBytes B, !RoaringBytesLaws B}
  {Sec : Type} `{!UnstableSort}.
Notation SnapshotData := (SnapshotData B Sec).
Notation SlotOrder := (SlotOrder Sec).

Definition path_at (rows : list IndexedFile) (slot : N) : option text := i_path <$> rows !! N.to_nat slot.
(** No two visible rows have the same path. *)
Definition distinct_paths (rows : list IndexedFile) (live : B) : Prop :=
  ∀ x y, bm_contains x live = true → bm_contains y live = true → path_at rows x = path_at rows y → x = y.
(** Where the anchor is among the matches. *)
Definition anchor_placed (rows : list IndexedFile) (live : B) (req : PageRequest) (whole : list N) (anchor : option nat) : Prop :=
  match anchor_path req, anchor with
  | None, _ => anchor = None
  | Some path, Some rank => ∃ slot, whole !! rank = Some slot ∧ path_at rows slot = Some path
  | Some path, None => distinct_paths rows live → Forall (λ slot, path_at rows slot ≠ Some path) whole
  end.
(** The page is the window of the sorted matches at its offset. *)
Definition page_window (req : PageRequest) (whole : list N) (page : ResultPage) : Prop :=
  page_total page = length whole ∧
  page_offset page = anchored_offset (r_offset req) (r_limit req) (length whole) (bool_decide (is_Some (anchor_path req)))
                       (page_anchor page) (anchor_delta req) ∧
  page_slots page = take (r_limit req) (drop (page_offset page) whole).

Lemma filter_all {A} (P : A → Prop) `{∀ x, Decision (P x)} (l : list A) : Forall P l → filter P l = l.
Proof. induction 1 as [|x l Hx _ IH]; [done|]. by rewrite filter_cons_True, IH. Qed.
Lemma filter_none {A} (P : A → Prop) `{∀ x, Decision (P x)} (l : list A) : Forall (λ x, ¬ P x) l → filter P l = [].
Proof. induction 1 as [|x l Hx _ IH]; [done|]. by rewrite filter_cons_False. Qed.
Lemma sat_add_window start limit (whole : list N) :
  (N.of_nat (length whole) ≤ usize_max)%N → take (sat_add start limit - start) (drop start whole) = take limit (drop start whole).
Proof.
  intros Hmax. unfold sat_add. destruct (decide (N.of_nat start + N.of_nat limit ≤ usize_max)%N).
  - rewrite N.min_r by done. f_equal. lia.
  - rewrite N.min_l by lia. rewrite !take_ge; [done|rewrite length_drop; lia..].
Qed.
Lemma window_of_prefix offset limit (whole : list N) :
  (N.of_nat (length whole) ≤ usize_max)%N →
  let prefix := take (sat_add offset limit) whole in
  let end_ := Nat.min (sat_add offset limit) (length prefix) in
  (if offset <=? end_ then take (end_ - offset) (drop offset prefix) else []) = take limit (drop offset whole).
Proof.
  intros Hmax. cbv zeta. rewrite length_take.
  rewrite <-(sat_add_window offset limit) by done. destruct (Nat.leb_spec offset (sat_add offset limit `min` (sat_add offset limit `min` length whole))).
  - rewrite skipn_firstn_comm, take_take.
    destruct (decide (sat_add offset limit ≤ length whole)); [f_equal; lia|].
    rewrite !take_ge; [done|rewrite length_drop; lia..].
  - destruct (decide (length whole < offset)); [rewrite drop_ge by lia; by rewrite take_nil|].
    assert (sat_add offset limit - offset = 0) as -> by lia. done.
Qed.

Context (n k : nat) (sn : SnapshotData) (rows : list IndexedFile) (Hsn : snapshot_ok n k sn rows).
Notation live := (sn_live sn).
Notation row := (row_of (entries sn)).

Lemma live_count : (N.of_nat (length (bm_iter live)) ≤ u32_max)%N.
Proof.
  pose proof (bm_len_bound rows (so_count _ _ _ _ Hsn) live (length rows) (so_live _ _ _ _ Hsn)) as Hl. pose proof (so_count _ _ _ _ Hsn). unfold bm_len in Hl. lia.
Qed.
Lemma is_anchor_spec anchor slot :
  bm_contains slot live = true → is_anchor sn anchor slot = Some (bool_decide (path_at rows slot = Some anchor)).
Proof.
  intros Hlive%(so_live _ _ _ _ Hsn). unfold is_anchor. rewrite (row_of_spec n k _ rows slot (so_table _ _ _ _ Hsn)). unfold path_at.
  destruct (rows !! N.to_nat slot) as [r|] eqn:Hr; [|by apply lookup_ge_None in Hr; lia]. simpl. f_equal. apply bool_decide_ext. naive_solver.
Qed.
Lemma indexed_anchor_spec req anchor :
  ∃ o, indexed_anchor sn req anchor = Some o ∧
    match o with Some slot => bm_contains slot live = true ∧ path_at rows slot = Some anchor | None => True end.
Proof.
  unfold indexed_anchor. destruct (anchor_id req) as [id|]; [|by exists None]. unfold slot_for_id.
  destruct (slot_lookup n k (entries sn) rows (file_slots sn) id (so_table _ _ _ _ Hsn) (so_slots _ _ _ _ Hsn)) as (found_ & -> & _).
  cbn [mbind option_bind]. destruct found_ as [slot|]; [|by exists None].
  destruct (bm_contains (N.of_nat slot) live) eqn:Hlive; [|by exists None].
  rewrite (is_anchor_spec anchor _ Hlive). cbn [mbind option_bind]. case_bool_decide; by eexists.
Qed.
Lemma find_anchor_spec anchor slots rank :
  Forall (λ slot, bm_contains slot live = true) slots →
  ∃ o, cancels_to (find_anchor sn anchor slots rank) (Ok o) ∧
    match o with
    | Some r => ∃ i slot, r = rank + i ∧ slots !! i = Some slot ∧ path_at rows slot = Some anchor
    | None => Forall (λ slot, path_at rows slot ≠ Some anchor) slots
    end.
Proof.
  intros Hl. revert rank. induction Hl as [|slot slots Hslot _ IH]; intros rank; cbn [find_anchor].
  { exists None. split; [apply cancels_ret|constructor]. }
  pose proof (is_anchor_spec anchor slot Hslot) as Ha. case_bool_decide as Hpath.
  - exists (Some rank). split.
    + eapply cancels_bind; [apply cancels_check_every|]. eapply cancels_bind; [by apply cancels_some|]. apply cancels_ret.
    + exists 0, slot. split_and!; [lia|done|done].
  - destruct (IH (S rank)) as (o & Ho & Hspec). exists o. split.
    + eapply cancels_bind; [apply cancels_check_every|]. eapply cancels_bind; [by apply cancels_some|]. exact Ho.
    + destruct o as [r|]; [|by constructor]. destruct Hspec as (i & x & -> & Hx & Hp). exists (S i), x. split_and!; [lia|done|done].
Qed.
Lemma find_matching_anchor_spec anchor matching slots position rank :
  Forall (λ slot, bm_contains slot live = true) slots →
  ∃ o, cancels_to (find_matching_anchor sn anchor matching slots position rank) (Ok o) ∧
    match o with
    | Some r => ∃ i slot, r = rank + i ∧ filter (λ slot, in_matching matching slot = true) slots !! i = Some slot ∧
        path_at rows slot = Some anchor
    | None => Forall (λ slot, path_at rows slot ≠ Some anchor) (filter (λ slot, in_matching matching slot = true) slots)
    end.
Proof.
  intros Hl. revert position rank. induction Hl as [|slot slots Hslot _ IH]; intros position rank; cbn [find_matching_anchor].
  { exists None. split; [apply cancels_ret|constructor]. }
  rewrite filter_cons. destruct (in_matching matching slot) eqn:Hin; [rewrite decide_True by done|rewrite decide_False by done].
  - pose proof (is_anchor_spec anchor slot Hslot) as Ha. case_bool_decide as Hpath.
    + exists (Some rank). split.
      * eapply cancels_bind; [apply cancels_check_every|]. eapply cancels_bind; [by apply cancels_some|]. apply cancels_ret.
      * exists 0, slot. split_and!; [lia|done|done].
    + destruct (IH (S position) (S rank)) as (o & Ho & Hspec). exists o. split.
      * eapply cancels_bind; [apply cancels_check_every|]. eapply cancels_bind; [by apply cancels_some|]. exact Ho.
      * destruct o as [r|]; [|by constructor]. destruct Hspec as (i & x & -> & Hx & Hp). exists (S i), x. split_and!; [lia|done|done].
  - destruct (IH (S position) rank) as (o & Ho & Hspec). exists o. split; [|done].
    eapply cancels_bind; [apply cancels_check_every|]. exact Ho.
Qed.
Lemma page_loop_spec matched offset limit slots position rank matches_ :
  length matches_ ≤ limit →
  cancels_to (page_loop matched offset limit slots position rank matches_)
    (Ok (matches_ ++ take (limit - length matches_) (drop (offset - rank) (filter (λ slot, bm_contains slot matched = true) slots)))).
Proof.
  revert position rank matches_. induction slots as [|slot slots IH]; intros position rank matches_ Hlen; cbn [page_loop].
  { rewrite filter_nil, drop_nil, take_nil, app_nil_r. apply cancels_ret. }
  eapply cancels_bind; [apply cancels_check_every|]. rewrite filter_cons.
  destruct (bm_contains slot matched) eqn:Hin; [rewrite decide_True by done|rewrite decide_False by done; by apply IH].
  set (l := filter _ slots) in *. destruct (Nat.leb_spec offset rank) as [Hr|Hr]; cbn [andb].
  - replace (offset - rank) with 0 by lia. rewrite drop_0. destruct (Nat.ltb_spec (length matches_) limit).
    + destruct (Nat.eqb_spec (length (matches_ ++ [slot])) limit) as [He|He]; rewrite length_app in He; simpl in He.
      * replace (limit - length matches_) with 1 by lia. rewrite firstn_cons, take_0. apply cancels_ret.
      * replace (limit - length matches_) with (S (limit - length (matches_ ++ [slot]))) by (rewrite length_app; simpl; lia).
        rewrite firstn_cons, (cons_middle slot matches_ (take _ l)), (app_assoc matches_ [slot] (take _ l)). specialize (IH (S position) (S rank) (matches_ ++ [slot])).
        replace (offset - S rank) with 0 in IH by lia. rewrite drop_0 in IH. apply IH. rewrite length_app. simpl. lia.
    + rewrite (proj2 (Nat.eqb_eq _ _)) by lia. replace (limit - length matches_) with 0 by lia. rewrite take_0, app_nil_r. apply cancels_ret.
  - replace (offset - rank) with (S (offset - S rank)) by lia. cbn [drop]. destruct (Nat.eqb_spec (length matches_) limit) as [He|He]; [|by apply IH].
    replace (limit - length matches_) with 0 by lia. rewrite take_0, app_nil_r. apply cancels_ret.
Qed.

(** *** The matches, sorted *)

Context (matching : option B).
Notation M := (default live matching).
Context (Hmatching : ∀ x, bm_contains x M = true → bm_contains x live = true).
Definition sorted_matches (order : ResultOrder) (whole : list N) : Prop :=
  whole ≡ₚ bm_iter M ∧ StronglySorted (cmp_le (slot_compare row order)) whole.

Lemma matches_live order whole : sorted_matches order whole → Forall (λ slot, bm_contains slot live = true) whole.
Proof. intros [Hp _]. apply Forall_forall. intros x. rewrite Hp, <-contains_iter. apply Hmatching. Qed.
Lemma matches_count : (N.of_nat (length (bm_iter M)) ≤ u32_max)%N.
Proof.
  pose proof live_count as Hl. assert (Hsub : bm_iter M ⊆+ bm_iter live).
  { apply NoDup_submseteq; [apply bm_iter_NoDup|]. intros x. rewrite <-!contains_iter. apply Hmatching. }
  apply submseteq_length in Hsub. lia.
Qed.
Lemma matches_fit : fits (bm_iter M).
Proof. pose proof matches_count as Hc. unfold fits, u32_max in *. lia. Qed.
Lemma sorted_count order whole : sorted_matches order whole → length whole = bm_len M ∧ (N.of_nat (length whole) ≤ usize_max)%N.
Proof. intros [Hp _]. rewrite Hp. pose proof matches_count. unfold bm_len, usize_max, u64_max, u32_max in *. split; [done|lia]. Qed.
Lemma in_matching_spec x : bm_contains x live = true → in_matching matching x = bm_contains x M.
Proof. intros Hl. unfold in_matching. by destruct matching. Qed.
(** The matches of a whole order. *)
Lemma filtered_order order (o : SlotOrder) :
  sorted_order row order live o → sorted_matches order (filter (λ slot, in_matching matching slot = true) (to_vec o)).
Proof.
  intros Ho. split.
  - apply NoDup_Permutation; [by apply NoDup_filter, (sorted_order_NoDup _ _ _ _ Ho)|apply bm_iter_NoDup|].
    intros x. rewrite list_elem_of_filter, (sorted_order_elem _ _ _ _ _ Ho), <-contains_iter. split.
    + intros [Hin Hl]. by rewrite <-in_matching_spec.
    + intros Hin. split; [by rewrite in_matching_spec; [|apply Hmatching]|by apply Hmatching].
  - eapply StronglySorted_sublist; [apply sublist_filter|]. by destruct Ho as (_ & _ & ?).
Qed.

(** *** With an order *)

Lemma anchor_in_order_spec req all (o : SlotOrder) anchor :
  sorted_order row (r_order req) live o → anchor_path req = Some anchor → (all = true → matching = None) →
  ∃ r, cancels_to (anchor_in_order sn req all matching o anchor) (Ok r) ∧
    anchor_placed rows live req (filter (λ slot, in_matching matching slot = true) (to_vec o)) r.
Proof.
  intros Ho Hanchor Hall. pose proof (matches_live _ _ (filtered_order _ _ Ho)) as Hlive.
  assert (Hvec : Forall (λ slot, bm_contains slot live = true) (to_vec o)).
  { apply Forall_forall. intros x. by rewrite (sorted_order_elem _ _ _ _ _ Ho). }
  unfold anchor_in_order, anchor_placed. rewrite Hanchor. destruct all.
  2: { destruct (find_matching_anchor_spec anchor matching (to_vec o) 0 0 Hvec) as (r & Hr & Hspec). exists r. split; [done|].
       destruct r as [r|]; [|done]. destruct Hspec as (i & slot & -> & Hi & Hp). by exists slot. }
  assert (Hwhole : filter (λ slot, in_matching matching slot = true) (to_vec o) = to_vec o).
  { apply filter_all. rewrite (Hall eq_refl). by apply Forall_forall. }
  rewrite Hwhole. assert (Hok : ends_ok o) by apply Ho.
  assert (Hhint : (match SlotOrder.get o (expected_rank req) with Some slot => is_anchor sn anchor slot | None => Some false end) =
    Some (bool_decide (to_vec o !! expected_rank req ≫= path_at rows = Some anchor))).
  { rewrite get_flat by done. destruct (to_vec o !! expected_rank req) as [slot|] eqn:Hs; [|done].
    apply is_anchor_spec. by eapply Forall_lookup_1 in Hvec. }
  rewrite Hhint. case_bool_decide as Hexpected.
  { apply bind_Some in Hexpected as (slot & Hs & Hp). exists (Some (expected_rank req)). split; [|by exists slot].
    eapply cancels_bind; [by apply cancels_some|]. apply cancels_ret. }
  destruct (indexed_anchor_spec req anchor) as (indexed & Hi & Hindexed). destruct indexed as [slot|].
  - destruct Hindexed as [Hl Hp]. pose proof (so_orders _ _ _ _ Hsn) as (Hrows & _).
    destruct (proj1 Hrows slot Hl) as [target Ht]. change (SnapshotSort.row (ordered_of sn)) with row in Ht.
    pose proof (rank_of_spec row live o (r_order req) (order_compare (r_order req)) slot target (λ _ _, eq_refl) Hrows Ho Ht) as Hrank.
    eexists. split.
    + eapply cancels_bind; [by apply cancels_some|]. cbn beta iota. eapply cancels_bind; [by apply cancels_some|]. cbn beta iota.
      eapply cancels_bind; [by apply cancels_some|]. apply cancels_ret.
    + destruct (rank_of _ _ o target) as [rank|]; [by exists slot|]. destruct Hrank. by apply (sorted_order_elem _ _ _ _ _ Ho).
  - destruct (find_anchor_spec anchor (to_vec o) 0 Hvec) as (r & Hr & Hspec). exists r. split.
    + eapply cancels_bind; [by apply cancels_some|]. cbn beta iota. eapply cancels_bind; [by apply cancels_some|]. exact Hr.
    + destruct r as [r|]; [|done]. destruct Hspec as (i & slot & -> & Hi' & Hp). by exists slot.
Qed.
Definition page_ok (req : PageRequest) (p : polled ResultPage) : Prop :=
  ∃ page whole, cancels_to p (Ok page) ∧ sorted_matches (r_order req) whole ∧ page_window req whole page ∧
    anchor_placed rows live req whole (page_anchor page).

Lemma ordered_page_spec req all (o : SlotOrder) :
  sorted_order row (r_order req) live o → all = bool_decide (matching = None) →
  page_ok req (ordered_page sn req all matching (bm_len M) o).
Proof.
  intros Ho Hall. set (whole := filter (λ slot, in_matching matching slot = true) (to_vec o)).
  pose proof (filtered_order _ _ Ho : sorted_matches (r_order req) whole) as Hw. destruct (sorted_count _ _ Hw) as [Hcount Hmax].
  assert (Hanchor : ∃ r, cancels_to (match anchor_path req with
      | Some anchor => anchor_in_order sn req all matching o anchor | None => mret None end) (Ok r) ∧ anchor_placed rows live req whole r).
  { destruct (anchor_path req) as [anchor|] eqn:Ha.
    - apply anchor_in_order_spec; [done..|]. intros Htrue. rewrite Htrue in Hall. symmetry in Hall. by apply bool_decide_eq_true in Hall.
    - exists None. split; [apply cancels_ret|]. unfold anchor_placed. by rewrite Ha. }
  destruct Hanchor as (r & Hr & Hplaced). unfold ordered_page.
  set (offset := anchored_offset (r_offset req) (r_limit req) (bm_len M) (bool_decide (is_Some (anchor_path req))) r (anchor_delta req)).
  exists {| page_slots := take (r_limit req) (drop offset whole); page_total := bm_len M; page_offset := offset; page_anchor := r |}, whole.
  split_and!; [|done|split_and!; cbn; [done|by rewrite Hcount|done]|done].
  eapply cancels_bind; [exact Hr|]. cbv zeta. fold offset. eapply cancels_bind; [|apply cancels_ret].
  destruct (decide (matching = None)) as [Hn|Hn].
  - rewrite bool_decide_true in Hall by done. subst all.
    assert (Hvec : whole = to_vec o) by (apply filter_all; rewrite Hn; by apply Forall_forall).
    assert (Hok : ends_ok o) by apply Ho. rewrite Hvec in Hmax |- *. apply cancels_some.
    rewrite <-(sat_add_window offset (r_limit req)) by done. rewrite len_flat by done.
    rewrite extend_range_flat; [|done|unfold sat_add, usize_max, u64_max in *; lia|rewrite len_flat by done; lia]. simpl. f_equal.
    destruct (decide (offset ≤ length (to_vec o))).
    + rewrite (Nat.min_l offset) by done. destruct (decide (sat_add offset (r_limit req) ≤ length (to_vec o))); [by rewrite Nat.min_l|].
      rewrite Nat.min_r by lia. rewrite !take_ge; [done|rewrite length_drop; lia..].
    + rewrite !drop_ge by lia. by rewrite !take_nil.
  - rewrite bool_decide_false in Hall by done. subst all. destruct matching as [matched|]; [|done].
    eapply cancels_bind; [by apply cancels_some|].
    pose proof (page_loop_spec matched offset (r_limit req) (to_vec o) 0 0 [] ltac:(simpl; lia)) as Hloop.
    simpl in Hloop. by rewrite !Nat.sub_0_r in Hloop.
Qed.

(** *** Without an order *)

Lemma slot_compare_same order x y :
  bm_contains x live = true → bm_contains y live = true → slot_compare row order x y = Eq → x = y.
Proof.
  pose proof (so_orders _ _ _ _ Hsn) as ([Hrows Hid] & _). intros Hx Hy. destruct (Hrows x Hx) as [rx Ex]. destruct (Hrows y Hy) as [ry Ey].
  change (SnapshotSort.row (ordered_of sn)) with row in *. unfold slot_compare. rewrite Ex, Ey.
  intros [_ Heq]%order_compare_eq. by apply (Hid x y rx ry).
Qed.
(** As many matches come before a slot as its rank. *)
Lemma count_is_rank order whole slot l :
  sorted_matches order whole → l ≡ₚ whole → slot ∈ whole →
  whole !! length (filter (λ x, is_lt (slot_compare row order x slot) = true) l) = Some slot.
Proof.
  intros Hw Hl (i & Hi)%list_elem_of_lookup. pose proof (matches_live _ _ Hw) as Hlive. destruct Hw as [Hp Hs].
  rewrite Hl. assert (Hcount : filter (λ x, is_lt (slot_compare row order x slot) = true) whole = take i whole); [|by rewrite Hcount, length_take_le by (apply lookup_lt_Some in Hi; lia)].
  rewrite <-(take_drop i whole) at 1. rewrite filter_app, filter_all, filter_none; [apply app_nil_r|..].
  - apply Forall_forall. intros x (j & Hj)%list_elem_of_lookup. rewrite lookup_drop in Hj.
    destruct (decide (j = 0)) as [->|Hne].
    + rewrite Nat.add_0_r, Hi in Hj. injection Hj as <-. by rewrite compare_refl by apply _.
    + pose proof (StronglySorted_lookup_lt _ _ i (i + j) slot x Hs ltac:(lia) Hi Hj) as Hle. unfold cmp_le in Hle.
      rewrite (compare_opp (slot_compare row order)). by destruct (slot_compare row order slot x).
  - apply Forall_forall. intros x (j & Hj)%list_elem_of_lookup. apply lookup_take_Some in Hj as [Hj Hlt].
    pose proof (StronglySorted_lookup_lt _ _ j i x slot Hs Hlt Hj Hi) as Hle. unfold cmp_le in Hle.
    destruct (slot_compare row order x slot) eqn:E; [|done..].
    assert (x = slot) as -> by (apply (slot_compare_same order); [by eapply Forall_lookup_1 in Hlive..|done]).
    pose proof (NoDup_lookup whole j i slot) as Hnd. rewrite Hnd in Hlt; [lia| |done..]. rewrite Hp. apply bm_iter_NoDup.
Qed.
Lemma count_fold_spec compare anchor l :
  cancels_to (p_fold (count_before compare anchor) (imap pair l) 0) (Ok (length (filter (λ x, is_lt (compare x anchor) = true) l))).
Proof.
  destruct (cancels_fold_inv (count_before compare anchor)
    (λ i rank, rank = length (filter (λ x, is_lt (compare x anchor) = true) (take i l))) (imap pair l) 0) as (rank & Hrank & ->).
  - done.
  - intros i [position x] b Hi ->. rewrite list_lookup_imap in Hi. apply fmap_Some in Hi as (y & Hy & [= -> ->]).
    eexists. split; [eapply cancels_bind; [apply cancels_check_every|apply cancels_ret]|].
    rewrite (take_S_r l i y Hy), filter_app, length_app, filter_cons, filter_nil.
    destruct (is_lt (compare y anchor)); [rewrite decide_True by done|rewrite decide_False by done]; simpl; lia.
  - by rewrite length_imap, take_ge in Hrank by done.
Qed.
Lemma find_slot_spec anchor slots :
  Forall (λ slot, bm_contains slot live = true) slots →
  ∃ o, find_slot sn anchor slots = Some o ∧
    match o with
    | Some slot => slot ∈ slots ∧ path_at rows slot = Some anchor
    | None => Forall (λ slot, path_at rows slot ≠ Some anchor) slots
    end.
Proof.
  induction 1 as [|slot slots Hslot _ (o & Ho & Hspec)]; [by exists None|]. cbn [find_slot].
  rewrite (is_anchor_spec anchor slot Hslot). cbn [mbind option_bind]. case_bool_decide as Hp.
  - exists (Some slot). split; [done|]. split; [left|done].
  - exists o. split; [done|]. destruct o as [x|]; [|by constructor]. destruct Hspec. split; [by right|done].
Qed.
(** There is one way to sort the matches. *)
Lemma sorted_matches_unique order whole whole' : sorted_matches order whole → sorted_matches order whole' → whole = whole'.
Proof.
  intros Hw Hw'. pose proof (matches_live _ _ Hw) as Hlive. destruct Hw as [Hp Hs]. destruct Hw' as [Hp' Hs'].
  apply (StronglySorted_unique_strong (cmp_le (slot_compare row order))); [|done|done|by rewrite Hp, Hp'].
  intros x y Hx Hy Hxy Hyx. rewrite Hp', <-Hp in Hy. rewrite Forall_forall in Hlive.
  apply (slot_compare_same order); [by apply Hlive..|]. unfold cmp_le in *. rewrite (compare_opp (slot_compare row order)) in Hyx.
  by destruct (slot_compare row order x y).
Qed.
Lemma anchor_by_count_spec req anchor whole :
  sorted_matches (r_order req) whole → anchor_path req = Some anchor →
  ∃ r, cancels_to (anchor_by_count sn req matching (bm_iter M) anchor) (Ok r) ∧ anchor_placed rows live req whole r.
Proof.
  intros Hw Hanchor. pose proof (matches_live _ _ Hw) as Hlive. pose proof Hw as [Hp _].
  assert (Hlive' : Forall (λ slot, bm_contains slot live = true) (bm_iter M)) by (by rewrite <-Hp).
  destruct (indexed_anchor_spec req anchor) as (indexed & Hi & Hindexed).
  assert (Hfound : ∃ o, cancels_to (match indexed with
      | Some slot => mret (Some slot) | None => p_some (find_slot sn anchor (bm_iter M)) end) (Ok o) ∧
    match o with
    | Some slot => bm_contains slot live = true ∧ path_at rows slot = Some anchor
    | None => Forall (λ slot, path_at rows slot ≠ Some anchor) whole
    end).
  { destruct indexed as [slot|].
    - exists (Some slot). split; [apply cancels_ret|done].
    - destruct (find_slot_spec anchor (bm_iter M) Hlive') as (o & Ho & Hspec). exists o. split.
      + by apply cancels_some.
      + destruct o as [slot|]; [|by rewrite Hp]. destruct Hspec as [Hin ?]. split; [|done]. by eapply Forall_forall in Hlive'. }
  destruct Hfound as (o & Ho & Hspec). unfold anchor_placed. rewrite Hanchor.
  assert (Hrun : ∀ r, cancels_to (match o with
      | Some slot =>
        if in_matching matching slot then
          rank ← p_fold (count_before (slot_compare row (r_order req)) slot) (imap pair (bm_iter M)) 0;
          mret (Some rank)
        else mret None
      | None => mret None
      end) (Ok r) → cancels_to (anchor_by_count sn req matching (bm_iter M) anchor) (Ok r)).
  { intros r Hr. unfold anchor_by_count. eapply cancels_bind; [by apply cancels_some|]. eapply cancels_bind; [exact Ho|exact Hr]. }
  destruct o as [slot|]; [|exists None; split; [apply Hrun, cancels_ret|done]].
  destruct Hspec as [Hl Hpath]. rewrite (in_matching_spec slot Hl) in Hrun. destruct (bm_contains slot M) eqn:Hin.
  - eexists. split.
    + apply Hrun. eapply cancels_bind; [apply count_fold_spec|apply cancels_ret].
    + exists slot. split; [|done]. apply (count_is_rank (r_order req)); [done|by rewrite Hp|]. by rewrite Hp, <-contains_iter.
  - exists None. split; [apply Hrun, cancels_ret|]. intros Hdistinct. apply Forall_forall. intros x Hx Hpx.
    assert (x = slot) as -> by (apply Hdistinct; [by eapply Forall_forall in Hlive|done|congruence]).
    rewrite Hp, <-contains_iter in Hx. congruence.
Qed.
Lemma selected_page_spec req : page_ok req (selected_page sn req matching (bm_len M)).
Proof.
  destruct (select_prefix_spec (slot_compare row (r_order req)) (bm_iter M) 0 matches_fit) as (_ & _ & whole0 & Hp0 & Hs0 & _).
  destruct (sorted_count (r_order req) whole0 (conj Hp0 Hs0)) as [Hcount0 _].
  assert (Hanchor : ∃ r, cancels_to (match anchor_path req with
      | Some anchor => anchor_by_count sn req matching (bm_iter M) anchor | None => mret None end) (Ok r) ∧
    ∀ whole, sorted_matches (r_order req) whole → anchor_placed rows live req whole r).
  { destruct (anchor_path req) as [anchor|] eqn:Ha.
    - destruct (anchor_by_count_spec req anchor whole0 (conj Hp0 Hs0) Ha) as (r & Hr & Hplaced). exists r. split; [done|].
      intros whole Hw. by rewrite (sorted_matches_unique (r_order req) whole whole0).
    - exists None. split; [apply cancels_ret|]. intros whole _. unfold anchor_placed. by rewrite Ha. }
  destruct Hanchor as (r & Hr & Hplaced). unfold selected_page.
  set (offset := anchored_offset (r_offset req) (r_limit req) (bm_len M) (bool_decide (is_Some (anchor_path req))) r (anchor_delta req)).
  destruct (select_prefix_spec (slot_compare row (r_order req)) (bm_iter M) (sat_add offset (r_limit req)) matches_fit)
    as (prefix & Hprefix & whole & Hp & Hs & Heq).
  destruct (sorted_count (r_order req) whole (conj Hp Hs)) as [Hcount Hmax].
  exists {| page_slots := take (r_limit req) (drop offset whole); page_total := bm_len M; page_offset := offset; page_anchor := r |}, whole.
  split_and!; [|done|split_and!; cbn; [done|by rewrite Hcount|done]|by apply Hplaced].
  eapply cancels_bind; [exact Hr|]. cbv zeta. fold offset. eapply cancels_bind; [exact Hprefix|]. cbv zeta. rewrite Heq.
  pose proof (window_of_prefix offset (r_limit req) whole Hmax) as Hwindow. cbv zeta in Hwindow. rewrite Hwindow. apply cancels_ret.
Qed.
Lemma page_order_spec cache cache' req all total :
  cache_sound (ordered_of sn) cache → cache_sound (ordered_of sn) cache' →
  ∃ o, cancels_to (page_order cache cache' sn req all total) (Ok o) ∧
    match o with Some o => sorted_order row (r_order req) live o | None => True end.
Proof.
  intros Hc Hc'. unfold page_order. case_match.
  - assert (Hfits : fits (bm_iter live)) by (pose proof live_count; unfold fits, u32_max in *; lia).
    destruct (result_order_spec (ordered_of sn) cache cache' (r_order req) (so_orders _ _ _ _ Hsn) Hc Hc' Hfits) as (o & Ho & Hs).
    exists (Some o). split; [|exact Hs]. eapply cancels_bind; [exact Ho|apply cancels_ret].
  - eexists. split; [apply cancels_ret|]. destruct (all || _); [|done]. destruct (cached_order _ _ _) as [o|] eqn:Ho; [|done].
    exact (cached_order_sorted (ordered_of sn) cache (r_order req) o (so_orders _ _ _ _ Hsn) Hc Ho).
Qed.
Lemma find_page_spec cache cache' req :
  cache_sound (ordered_of sn) cache → cache_sound (ordered_of sn) cache' → page_ok req (find_page cache cache' sn matching req).
Proof.
  intros Hc Hc'. unfold find_page. set (total := match matching with Some set => bm_len set | None => snapshot_len sn end).
  assert (total = bm_len M) as -> by (unfold total; by destruct matching). cbv zeta.
  assert (Hpage : page_ok req (if negb (bm_len M =? 0) && (negb (r_limit req =? 0) || bool_decide (is_Some (anchor_path req))) then
      o ← page_order cache cache' sn req (bool_decide (matching = None)) (bm_len M);
      match o with
      | Some o => ordered_page sn req (bool_decide (matching = None)) matching (bm_len M) o
      | None => selected_page sn req matching (bm_len M)
      end
    else mret {| page_slots := []; page_total := bm_len M;
                 page_offset := anchored_offset (r_offset req) (r_limit req) (bm_len M) (bool_decide (is_Some (anchor_path req))) None (anchor_delta req);
                 page_anchor := None |})).
  2: { destruct Hpage as (page & whole & Hpage & Hspec). exists page, whole. split; [|done].
       eapply cancels_bind; [exact Hpage|]. eapply cancels_bind; [apply cancels_check|apply cancels_ret]. }
  destruct (negb _ && _) eqn:Hasked.
  - destruct (page_order_spec cache cache' req (bool_decide (matching = None)) (bm_len M) Hc Hc') as (o & Ho & Hs).
    assert (Hrest : page_ok req (match o with
      | Some o => ordered_page sn req (bool_decide (matching = None)) matching (bm_len M) o
      | None => selected_page sn req matching (bm_len M) end)) by (destruct o; [by apply ordered_page_spec|apply selected_page_spec]).
    destruct Hrest as (page & whole & Hpage & Hspec). exists page, whole. split; [|done]. by eapply cancels_bind.
  - destruct (select_prefix_spec (slot_compare row (r_order req)) (bm_iter M) 0 matches_fit) as (_ & _ & whole & Hp & Hw & _).
    destruct (sorted_count (r_order req) whole (conj Hp Hw)) as [Hcount _]. eexists _, whole.
    split_and!; [apply cancels_ret|done|split_and!; cbn; [done|by rewrite Hcount|]|].
    + apply andb_false_iff in Hasked as [Hzero%negb_false_iff%Nat.eqb_eq|[Hlimit%negb_false_iff%Nat.eqb_eq _]%orb_false_iff].
      * rewrite Hzero in Hcount. apply nil_length_inv in Hcount as ->. by rewrite drop_nil, take_nil.
      * by rewrite Hlimit, take_0.
    + unfold anchor_placed. destruct (anchor_path req) as [anchor|]; [|done]. intros _.
      apply andb_false_iff in Hasked as [Hzero%negb_false_iff%Nat.eqb_eq|[_ Hrequested]%orb_false_iff]; [|by rewrite bool_decide_true in Hrequested by (by eexists)].
      rewrite Hzero in Hcount. apply nil_length_inv in Hcount as ->. constructor.
Qed.
End pages.

Section search_theorem.
Context `{Chrono, Unicode, Pcre, MemmemLaws, JsonShapeLaws} {B : Type} `{RoaringLaws B} `{!RoaringBytes B, !RoaringBytesLaws B}
  {Sec : Type} `{!UnstableSort}.

(** C3: A search answers with the right page.  Whichever index, scan or
    evaluation finds the matching rows, whichever order or selection sorts
    them, and whatever is cached, a search that is not cancelled gives the
    window of the list of exactly the visible rows that the query matches and
    no exclusion does, sorted by the requested order.  The window starts at
    the offset, or where the anchor row keeps its distance from the top; the
    rank reported for the anchor is the rank of a match with that path, and
    none is reported when no match has it.

    The query is one whose name matchers that compare case or diacritics are
    patterns or have ASCII operands ([narrowable]), as every query parsed from
    ASCII text is ([ascii_query_searchable] in AsciiQuery); the other operands
    and all names may be any text.  Without this the answer can lack rows, as
    [narrowing_loses_composed] in SnapshotQuery shows.  The content of the
    visible rows can be read where the query asks for it, and no pattern
    fails on them ([evaluable]); a failure would be the answer otherwise. *)
Theorem search_answers_page `{!NameColumn.SlashUnicode, !UnicodeAscii} n k (sn : SnapshotData B Sec) rows acquire body cache cache' q exclusions
    needs_content req :
  snapshot_ok n k sn rows → ready q → narrowable q → Forall ready exclusions → NameColumn.path_query q → Forall NameColumn.valid_paths rows →
  (∀ slot row, bm_contains slot (sn_live sn) = true → rows !! N.to_nat slot = Some row →
    evaluable q exclusions body row) →
  cache_sound (ordered_of sn) cache → cache_sound (ordered_of sn) cache' →
  ∃ page whole,
    cancels_to (search acquire body cache cache' sn q exclusions false needs_content req) (Ok page) ∧
    NoDup whole ∧ Forall (λ slot, bm_contains slot (sn_live sn) = true) whole ∧
    (∀ slot row content, bm_contains slot (sn_live sn) = true → rows !! N.to_nat slot = Some row →
      row_content q exclusions body row = Ok content → row_answers q exclusions row content (bool_decide (slot ∈ whole))) ∧
    StronglySorted (cmp_le (slot_compare (row_of (entries sn)) (r_order req))) whole ∧
    page_window req whole page ∧ anchor_placed rows (sn_live sn) req whole (page_anchor page).
Proof.
  intros Hsn Hq Hw Hex Hp Hv Hrows Hc Hc'.
  destruct (find_matching_spec n k sn rows Hsn q exclusions body acquire needs_content Hq (narrowable_kept q Hq Hw) Hex Hp Hv Hrows) as (matching & Hm & Hspec).
  assert (Hmatching : ∀ x, bm_contains x (default (sn_live sn) matching) = true → bm_contains x (sn_live sn) = true).
  { destruct matching as [r|]; [apply Hspec|done]. }
  destruct (find_page_spec n k sn rows Hsn matching Hmatching cache cache' req Hc Hc') as (page & whole & Hpage & Hwhole & Hwindow & Hplaced).
  exists page, whole. pose proof (matches_live sn matching Hmatching _ _ Hwhole) as Hlive. destruct Hwhole as [Hperm Hsorted].
  split_and!; [by eapply cancels_bind|rewrite Hperm; apply bm_iter_NoDup|done| |done|done|done].
  intros slot row content Hl Hrow Hcontent. assert (Hin : bool_decide (slot ∈ whole) = bm_contains slot (default (sn_live sn) matching)).
  { apply eq_true_iff_eq. by rewrite bool_decide_eq_true, Hperm, <-contains_iter. }
  rewrite Hin. destruct matching as [r|]; [by apply Hspec|]. destruct Hspec as [-> ->]. simpl. rewrite Hl.
  exists true, false. split_and!; [by rewrite available_plain|done|done].
Qed.
End search_theorem.

(** ** A small search *)

Section witnesses.
#[local] Existing Instance merging_sort.
#[local] Existing Instance utc_chrono.
#[local] Existing Instance ascii_unicode.
#[local] Existing Instance literal_pcre.
#[local] Existing Instance bytes_memmem.
#[local] Existing Instance NameColumn.ascii_slash_unicode.
#[local] Existing Instance NumericColumns.gset_roaring_bytes.
#[local] Existing Instance NumericColumns.gset_roaring_bytes_laws.
Definition first_row : PageRequest :=
  {| r_offset := 0; r_limit := 1; anchor_path := None; anchor_id := None; anchor_delta := 0; r_order := order_name |}.
Lemma search_answers_page_witness :
  ∃ sn : SnapshotData (gset N) (), ∃ page,
    cancels_to (search (λ _, None) (λ _, Ok None) (λ _, None) (λ _, None) sn (text_term Path "/") [] false false first_row) (Ok page) ∧
    page_slots page = [1%N] ∧ page_total page = 2.
Proof.
  destruct (sample_snapshot 0 0) as (sn & Hok & Hlive); [by vm_compute|by vm_compute|].
  assert (Hcases : ∀ slot row, bm_contains slot (sn_live sn) = true → [prepare raw_b; prepare raw_a] !! N.to_nat slot = Some row →
    slot = 0%N ∧ row = prepare raw_b ∨ slot = 1%N ∧ row = prepare raw_a).
  { intros slot row. rewrite Hlive. unfold bm_contains. simpl. rewrite bool_decide_eq_true. intros Hs.
    assert (slot = 0%N ∨ slot = 1%N) as [->| ->] by (set_unfold; lia); intros [= <-]; [by left|by right]. }
  destruct (search_answers_page 0 0 sn [prepare raw_b; prepare raw_a] (λ _, None) (λ _, Ok None) (λ _, None) (λ _, None)
    (text_term Path "/") [] false first_row Hok) as (page & whole & Hpage & Hnd & Hl & Ha & Hs & (Ht & Ho & Hw) & _).
  - by repeat split.
  - done.
  - constructor.
  - done.
  - repeat (constructor; [intros []; by_decide|]). constructor.
  - intros slot row Hin Hrow. destruct (Hcases slot row Hin Hrow) as [[-> ->]|[-> ->]].
    + exists None, true, true, false. eexists. split_and!; [by vm_compute..|]. by vm_compute.
    + exists None, true, true, false. eexists. split_and!; [by vm_compute..|]. by vm_compute.
  - by intros order o.
  - by intros order o.
  - exists sn, page. split; [exact Hpage|].
    assert (Hboth : [1; 0]%N ≡ₚ whole).
    { apply NoDup_Permutation; [by_decide|done|]. intros slot. rewrite Forall_forall in Hl. split.
      - intros Hslot. assert (Hc : bm_contains slot (sn_live sn) = true) by (rewrite Hlive; set_unfold; destruct Hslot as [->|[->|[]]]; by vm_compute).
        assert (Hrow : ∃ row, [prepare raw_b; prepare raw_a] !! N.to_nat slot = Some row) by (set_unfold; destruct Hslot as [->|[->|[]]]; by eexists).
        destruct Hrow as [row Hrow]. destruct (Ha slot row None Hc Hrow eq_refl) as (b1 & ex & Hb & [= <-] & Heq).
        rewrite <-(bool_decide_eq_true (slot ∈ whole)), Heq. destruct (Hcases slot row Hc Hrow) as [[-> ->]|[-> ->]]; vm_compute in Hb; by injection Hb as <-.
      - intros Hslot%Hl. rewrite Hlive in Hslot. unfold bm_contains in Hslot. simpl in Hslot. apply bool_decide_eq_true in Hslot. set_unfold. lia. }
    assert (whole = [1; 0]%N) as ->.
    { apply Permutation_length_2_inv in Hboth as [->| ->]; [done|]. exfalso.
      apply StronglySorted_cons in Hs as [Hs _]. apply Forall_cons in Hs as [Hs _]. apply Hs. unfold slot_compare.
      rewrite !(row_of_spec 0 0 _ _ _ (so_table _ _ _ _ Hok)). by vm_compute. }
    rewrite Hw, Ho, Ht. by vm_compute.
Defined.
End witnesses.
