(* ===== verification/PathScopes.v ===== *)
(** * core/src/scanner.rs: paths, namespaces and scopes

    A scope is a path whose subtree is meant.  Paths are compared by their
    components, as [std::path] does; a set of scopes is compacted by dropping
    every scope that a kept ancestor covers.  The default namespace of the
    boot volume leaves out the hidden volumes under /System/Volumes, so an
    ancestor does not always cover what is below it.

    Parameters: the firmlinks of the system and whether both names of one are
    the same object, the verified aliases of the root, and the working
    directory (the class [FileNamespace]). *)
From S2P Require Import Prelude Text Paths ResultOrder.

(** ** [std::path]: components *)

(** The kept segments between slashes: empty ones are not components, nor is
    a dot that does not start a relative path. *)
Definition junk_segment (root first : bool) (segment : text) : bool :=
  bool_decide (segment = []) || bool_decide (segment = lit ".") && (root || negb first).
Fixpoint keep_names (root first : bool) (segments : list text) : list text :=
  match segments with
  | [] => []
  | s :: segments => if junk_segment root first s then keep_names root false segments else s :: keep_names root false segments
  end.
Definition is_absolute (path : text) : bool := starts_with (lit "/") path.
Definition body_segments (path : text) : list text := split_char 47 (if is_absolute path then drop 1 path else path).
(** [Path::components]; the root is the component "/". *)
Definition components (path : text) : list text :=
  (if is_absolute path then [lit "/"] else []) ++ keep_names (is_absolute path) true (body_segments path).
(** [Path::starts_with]; [==] on paths *)
Definition path_starts_with (path base : text) : bool := bool_decide (components base `prefix_of` components path).
Definition path_eq (a b : text) : bool := bool_decide (components a = components b).
(** [PathBuf::push] of one name or relative path; [Path::join] *)
Definition path_push (out name : text) : text :=
  if is_absolute name then name
  else if bool_decide (out = []) || ends_with_char 47 out then out ++ name else out ++ 47%N :: name.
(** [Path::strip_prefix] of two absolute paths: the rest keeps its spelling,
    without junk at its ends. *)
Fixpoint after_names (segments names : list text) : option (list text) :=
  match names with
  | [] => Some segments
  | name :: names' =>
    match segments with
    | [] => None
    | s :: segments =>
      if junk_segment true false s then after_names segments names
      else if decide (s = name) then after_names segments names' else None
    end
  end.
Fixpoint trim_junk (segments : list text) : list text :=
  match segments with
  | s :: segments' => if junk_segment true false s then trim_junk segments' else segments
  | [] => []
  end.
Definition path_strip_prefix (path base : text) : option text :=
  if is_absolute path && is_absolute base then
    rest ← after_names (body_segments path) (drop 1 (components base));
    Some (join_char 47 (reverse (trim_junk (reverse (trim_junk rest)))))
  else None.

Example components_report :
  components (lit "/a//b/./c/") = [lit "/"; lit "a"; lit "b"; lit "c"] ∧ components (lit "./a/..") = [lit "."; lit "a"; lit ".."] ∧
  path_strip_prefix (lit "/tmp//x/./y/") (lit "/tmp") = Some (lit "x/./y") ∧ path_push (lit "/") (lit "a") = lit "/a".
Proof. by vm_compute. Qed.

(** ** Namespaces *)

Definition SYSTEM_VOLUMES : text := lit "/System/Volumes".
Definition DATA_ROOT : text := lit "/System/Volumes/Data".
Definition path_in_namespace (path : text) (configured : list text) : bool :=
  if path_eq path SYSTEM_VOLUMES || negb (path_starts_with path SYSTEM_VOLUMES) then true
  else if path_starts_with path DATA_ROOT && existsb (λ root, bool_decide (root = lit "/")) configured then true
  else existsb (λ root, path_starts_with root SYSTEM_VOLUMES && (path_starts_with path root || path_starts_with root path)) configured.
Definition subtree_in_namespace (path : text) (configured : list text) : bool :=
  if negb (path_starts_with path SYSTEM_VOLUMES) then true
  else if path_starts_with path DATA_ROOT && existsb (λ root, bool_decide (root = lit "/")) configured then true
  else existsb (λ root, path_starts_with root SYSTEM_VOLUMES && path_starts_with path root) configured.
Definition descend_in_namespace (path : text) (configured : list text) : bool :=
  path_in_namespace path configured &&
  (negb (bool_decide (path = SYSTEM_VOLUMES)) || existsb (λ root, bool_decide (root = SYSTEM_VOLUMES)) configured).

(** ** Normal spellings *)

Record Firmlink := { physical : text; logical : text }.
Class FileNamespace := {
  firmlinks : list Firmlink;                  (* /usr/share/firmlinks, longest physical name first *)
  same_firmlink_object : Firmlink → bool;     (* both names have one device and inode *)
  alias_verified : text → bool;               (* /name is a link of root to /private/name *)
  current_dir : text;
}.
(** [lexical_path]: the components, with dots resolved. *)
Definition lexical_step (out component : text) : text :=
  if decide (component = lit "..") then default out (path_parent out)
  else if decide (component = lit "." ∨ component = lit "/") then out
  else path_push out component.
Definition lexical_path (path : text) : text := foldl lexical_step (lit "/") (components path).
Definition system_aliases `{FileNamespace} : list (text * text) :=
  omap (λ name, if alias_verified name then Some (lit "/private/" ++ name, lit "/" ++ name) else None) [lit "var"; lit "tmp"; lit "etc"].
Definition visible_path `{FileNamespace} (path : text) : text :=
  let out := lexical_path path in
  let fix go links :=
    match links with
    | [] => out
    | link :: links =>
      match path_strip_prefix out (physical link) with
      | Some suffix =>
        if same_firmlink_object link then if decide (suffix = []) then logical link else path_push (logical link) suffix
        else go links
      | None => go links
      end
    end in
  go firmlinks.
(** A selected alias itself remains a directory entry. *)
Definition system_path `{FileNamespace} (path : text) : text :=
  let fix go aliases :=
    match aliases with
    | [] => path
    | (physical, logical) :: aliases =>
      match path_strip_prefix path logical with
      | Some suffix => if decide (suffix = []) then go aliases else path_push physical suffix
      | None => go aliases
      end
    end in
  go system_aliases.

(** ** [PathScopes] *)

(** A [HashSet<PathBuf>]: no two elements have the same components. *)
Definition PathScopes : Type := list text.
Definition scopes_get (scopes : PathScopes) (path : text) : option text := snd <$> list_find (λ root, path_eq root path = true) scopes.
Definition scopes_insert (scopes : PathScopes) (path : text) : PathScopes :=
  match scopes_get scopes path with Some _ => scopes | None => path :: scopes end.
Definition scopes_contains (scopes : PathScopes) (path : text) : bool := bool_decide (is_Some (scopes_get scopes path)).
Definition from_paths (paths : list text) : PathScopes := foldl scopes_insert [] paths.
Definition covers_where (scopes : PathScopes) (path : text) (accepts : text → bool) : bool :=
  existsb (λ ancestor, match scopes_get scopes ancestor with Some root => accepts root | None => false end) (ancestors path).
Definition covers (scopes : PathScopes) (path : text) : bool := covers_where scopes path (λ _, true).

(** ** Compaction *)

Definition sorted_paths (roots : list text) : list text := dedup (merge_sort (cmp_le str_cmp) roots).
(** Given up ([None]) when cancelled. *)
Definition compact_root (st : PathScopes * list text) (root : text) : polled (PathScopes * list text) :=
  let '(ancestors, result) := st in
  check_cancelled;;
  mret (if covers_where ancestors root (λ parent, subtree_in_namespace root [parent]) then (ancestors, result)
        else (scopes_insert ancestors root, result ++ [root])).
Definition compact_roots (roots : list text) : polled (list text) :=
  check_cancelled;;
  st ← p_fold compact_root (sorted_paths roots) ([], []);
  mret st.2.
(** The mapping of one stored root or event path: the closure of
    [normalize_paths] when nothing is newly selected. *)
Definition scope_path `{FileNamespace} (r : text) : text :=
  let absolute := if is_absolute r then r else path_push current_dir r in
  system_path (visible_path (lexical_path absolute)).
Definition mapped_roots `{FileNamespace} (out : list text) : list text :=
  logical <$> filter (λ link,
    existsb (λ root, bool_decide (root = SYSTEM_VOLUMES) ||
                     path_starts_with root DATA_ROOT && path_starts_with (physical link) root) out &&
    same_firmlink_object link = true) firmlinks.
Definition normalize_scopes_until `{FileNamespace} (roots : list text) : polled (list text) :=
  check_cancelled;;
  out ← p_fold (λ out r, check_cancelled;; mret (out ++ [scope_path r])) roots [];
  compact_roots (out ++ mapped_roots out).
(** [normalize_scopes]: never cancelled; [None] is the failed [expect]. *)
Definition normalize_scopes `{FileNamespace} (roots : list text) : option (list text) :=
  match (normalize_scopes_until roots (λ _, false) 0).1 with Ok scopes => Some scopes | Err _ => None end.

(** ** Components and parents *)

Lemma keep_names_app root first a b :
  keep_names root first (a ++ b) = keep_names root first a ++ keep_names root (first && bool_decide (a = [])) b.
Proof.
  revert first. induction a as [|s a IH]; intros first; cbn [app keep_names].
  { by rewrite bool_decide_true, andb_true_r. }
  rewrite bool_decide_false, andb_false_r by done.
  destruct (junk_segment root first s); rewrite IH; simpl; by rewrite ?andb_false_l.
Qed.
Lemma junk_segment_component root s others :
  junk_segment root (bool_decide (others = [])) s = junk_component root s others.
Proof. done. Qed.
Lemma reverse_empty {A} (l : list A) : bool_decide (reverse l = []) = bool_decide (l = []).
Proof. apply bool_decide_ext. destruct l as [|x l]; [done|]. rewrite reverse_cons. split; [by intros [_ ?]%app_eq_nil|done]. Qed.
Lemma keep_names_snoc root l x :
  keep_names root true (reverse (x :: l)) =
  keep_names root true (reverse l) ++ if junk_component root x l then [] else [x].
Proof.
  rewrite reverse_cons, keep_names_app. cbn [keep_names andb]. rewrite reverse_empty, junk_segment_component.
  by destruct (junk_component root x l).
Qed.
Lemma keep_trimmed root l : keep_names root true (reverse (trim_components root l)) = keep_names root true (reverse l).
Proof.
  induction l as [|x l IH]; [done|]. cbn [trim_components]. destruct (junk_component root x l) eqn:E; [|done].
  by rewrite keep_names_snoc, E, app_nil_r.
Qed.
Lemma trim_head root l c rest : trim_components root l = c :: rest → junk_component root c rest = false.
Proof. induction l as [|x l IH]; [done|]. cbn [trim_components]. destruct (junk_component root x l) eqn:E; [done|]. by intros [= <- <-]. Qed.
Lemma trim_none root l : trim_components root l = [] → keep_names root true (reverse l) = [].
Proof. intros Ht. by rewrite <-keep_trimmed, Ht. Qed.

Definition slashless (s : text) : Prop := 47%N ∉ s.
Lemma split_slashless t : Forall slashless (split_char 47 t).
Proof.
  induction t as [|c t IH]; [by repeat constructor; intros ?%elem_of_nil|]. cbn [split_char].
  destruct (N.eqb_spec c 47) as [|Hc]; [constructor; [by intros ?%elem_of_nil|done]|].
  destruct (split_char 47 t) as [|p parts]; [constructor; [|done]; by intros ?%list_elem_of_singleton|].
  apply Forall_cons in IH as [Hp IH]. constructor; [|done]. intros [?|?]%elem_of_cons; [congruence|done].
Qed.
Lemma split_joined l : l ≠ [] → Forall slashless l → split_char 47 (join_char 47 l) = l.
Proof.
  intros Hne Hl. induction Hl as [|s l Hs Hl IH]; [done|]. destruct l as [|s' l]; [by apply split_char_one|].
  rewrite join_char_cons, split_char_app by done. by rewrite IH.
Qed.
Lemma is_absolute_spec path : is_absolute path = true ↔ ∃ rest, path = 47%N :: rest.
Proof. unfold is_absolute, starts_with. apply (strip_prefix_dec [47%N]). Qed.
Lemma is_absolute_cons rest : is_absolute (47%N :: rest) = true.
Proof. apply is_absolute_spec. by exists rest. Qed.
Lemma components_absolute rest : components (47%N :: rest) = lit "/" :: keep_names true true (split_char 47 rest).
Proof. unfold components, body_segments. by rewrite is_absolute_cons. Qed.
Lemma keep_names_elem root first l s : s ∈ keep_names root first l → s ∈ l ∧ s ≠ [].
Proof.
  revert first. induction l as [|x l IH]; intros first; cbn [keep_names]; [by intros ?%elem_of_nil|].
  destruct (junk_segment root first x) eqn:E.
  - intros [??]%IH. split; [by right|done].
  - intros [->|[??]%IH]%elem_of_cons; [|split; [by right|done]]. split; [left|]. intros ->. by unfold junk_segment in E.
Qed.
Lemma keep_names_slashless root first path s : s ∈ keep_names root first (split_char 47 path) → slashless s.
Proof. intros [Hs _]%keep_names_elem. pose proof (split_slashless path) as Hl. rewrite Forall_forall in Hl. by apply Hl. Qed.

(** A parent has the components of the path but the last. *)
Lemma parent_components path parent :
  path_parent path = Some parent →
  is_absolute parent = is_absolute path ∧ ∃ c, components path = components parent ++ [c].
Proof.
  unfold path_parent, components, body_segments. fold (is_absolute path). set (root := is_absolute path).
  set (body := if root then drop 1 path else path). set (segs := split_char 47 body).
  destruct (trim_components root (reverse segs)) as [|c rest] eqn:Ht; [done|]. intros [= <-].
  assert (Hlast : keep_names root true segs = keep_names root true (reverse rest) ++ [c]).
  { rewrite <-(reverse_involutive segs), <-keep_trimmed, Ht, keep_names_snoc. by rewrite (trim_head _ _ _ _ Ht). }
  set (kept := reverse (trim_components root rest)).
  assert (Hkept : keep_names root true (reverse rest) = keep_names root true kept) by (unfold kept; by rewrite keep_trimmed).
  destruct (trim_components_suffix root (reverse segs)) as [junk1 Hj1]. rewrite Ht in Hj1.
  destruct (trim_components_suffix root rest) as [junk2 Hj2].
  assert (Hsegs : segs = kept ++ reverse junk2 ++ [c] ++ reverse junk1).
  { rewrite <-(reverse_involutive segs), Hj1, Hj2. unfold kept. rewrite !reverse_app, reverse_cons, reverse_app, <-!app_assoc. done. }
  assert (Hslash : Forall slashless kept).
  { pose proof (split_slashless body) as Hall. fold segs in Hall. rewrite Hsegs in Hall. by apply Forall_app in Hall as [? _]. }
  assert (Hsplit : keep_names root true (split_char 47 (join_char 47 kept)) = keep_names root true kept).
  { destruct (decide (kept = [])) as [->|Hne]; [by destruct root|]. by rewrite split_joined. }
  destruct root eqn:Hroot.
  - simpl app. split; [apply is_absolute_cons|]. exists c. rewrite is_absolute_cons. cbn [drop]. rewrite drop_0.
    change (split_char 47 (drop 1 path)) with segs. rewrite Hlast, Hkept, Hsplit. done.
  - simpl app. assert (Habs : is_absolute (join_char 47 kept) = false).
    { apply not_true_is_false. intros [t Heq]%is_absolute_spec. destruct kept as [|k0 kept]; [done|].
      assert (Hbody : ∃ t, body = 47%N :: t).
      { rewrite <-(proj1 (join_split 47 body)). fold segs. rewrite Hsegs. destruct k0 as [|x k0].
        - destruct ((kept ++ reverse junk2 ++ [c] ++ reverse junk1)) as [|y l] eqn:E; [by destruct kept, (reverse junk2)|].
          change (([] :: kept) ++ reverse junk2 ++ [c] ++ reverse junk1) with ([] :: (kept ++ reverse junk2 ++ [c] ++ reverse junk1)).
          rewrite E, join_char_cons. by eexists.
        - exfalso. apply Forall_cons in Hslash as [Hx _]. apply Hx. destruct kept as [|k1 kept].
          + simpl in Heq. injection Heq as -> _. left.
          + rewrite join_char_cons in Heq. injection Heq as -> _. left. }
      destruct Hbody as [t' Hb]. assert (Ha : root = true) by (apply is_absolute_spec; exists t'; exact Hb). congruence. }
    rewrite Habs. split; [done|]. exists c. simpl app.
    change (split_char 47 path) with segs. rewrite Hlast, Hkept, Hsplit. done.
Qed.
Lemma no_parent_components path : path_parent path = None → components path = if is_absolute path then [lit "/"] else [].
Proof.
  unfold path_parent, components, body_segments. fold (is_absolute path).
  destruct (trim_components _ _) eqn:Ht; [|done]. intros _. apply trim_none in Ht. rewrite reverse_involutive in Ht.
  destruct (is_absolute path); by rewrite Ht.
Qed.

Lemma snoc_case {A} (l : list A) : l = [] ∨ ∃ l' x, l = l' ++ [x].
Proof. induction l as [|x l _] using rev_ind; [by left|right; by exists l, x]. Qed.

Lemma app_cons_inv_head {A} (x y : A) l l' k : y :: k = (x :: l) ++ l' → x = y ∧ k = l ++ l'.
Proof. by intros [= -> ->]. Qed.
(** The ancestors are the prefixes of the components, down to the root. *)
Lemma ancestors_eq path : ancestors path = path :: match path_parent path with Some parent => ancestors parent | None => [] end.
Proof. unfold ancestors at 1. rewrite strict_ancestors_eq. by destruct (path_parent path). Qed.
Lemma absolute_components path : is_absolute path = true → ∃ names, components path = lit "/" :: names.
Proof. intros [rest ->]%is_absolute_spec. rewrite components_absolute. by eexists. Qed.
Lemma ancestors_prefixes path cs :
  is_absolute path = true →
  (∃ a, a ∈ ancestors path ∧ components a = cs) ↔ cs ≠ [] ∧ cs `prefix_of` components path.
Proof.
  revert cs. induction path as [path IH] using ancestors_ind. intros cs Hroot. rewrite ancestors_eq.
  destruct (absolute_components path Hroot) as [names Hnames].
  destruct (path_parent path) as [parent|] eqn:Hp.
  - destruct (parent_components path parent Hp) as [Habs [c Hc]]. rewrite Hroot in Habs. specialize (IH parent eq_refl cs Habs).
    setoid_rewrite elem_of_cons. split.
    + intros (a & [->|Ha] & Heq); [subst cs; rewrite Hnames; split; [done|]; by rewrite <-Hnames|].
      destruct (proj1 IH) as [Hne Hpre]; [by exists a|]. split; [done|]. rewrite Hc. by apply prefix_app_r.
    + intros [Hne Hpre]. destruct (decide (cs = components path)) as [->|Hneq]; [exists path; split; [by left|done]|].
      destruct (proj2 IH) as (a & Ha & Heq); [|exists a; split; [by right|done]]. split; [done|].
      destruct Hpre as [tail Htail]. rewrite Hc in Htail. destruct (snoc_case tail) as [->|(tail' & x & ->)].
      * rewrite app_nil_r in Htail. congruence.
      * rewrite app_assoc in Htail. apply app_inj_tail in Htail as [-> _]. by exists tail'.
  - apply no_parent_components in Hp. rewrite Hroot in Hp. setoid_rewrite list_elem_of_singleton. split.
    + intros (a & -> & <-). rewrite Hp. done.
    + intros [Hne Hpre]. exists path. split; [done|]. rewrite Hp in Hpre |- *.
      destruct cs as [|x cs]; [done|]. destruct Hpre as [tail Ht].
      apply app_cons_inv_head in Ht as [-> Ht]. symmetry in Ht. by apply app_eq_nil in Ht as [-> _].
Qed.

(** *** Normal paths *)

Definition normal_name (s : text) : Prop := s ≠ [] ∧ s ≠ lit "." ∧ s ≠ lit ".." ∧ slashless s.
Definition render (names : list text) : text := 47%N :: join_char 47 names.
(** An absolute path without empty or dotted segments. *)
Definition normal (path : text) : Prop := ∃ names, Forall normal_name names ∧ path = render names.

Lemma keep_normal first names : Forall normal_name names → keep_names true first names = names.
Proof.
  intros Hn. revert first. induction Hn as [|s names (Hne & Hdot & _) _ IH]; intros first; [done|]. cbn [keep_names].
  unfold junk_segment. rewrite !bool_decide_false by done. simpl. by rewrite IH.
Qed.
Lemma normal_slashless names : Forall normal_name names → Forall slashless names.
Proof. intros Hn. eapply Forall_impl; [exact Hn|]. by intros s (_ & _ & _ & ?). Qed.
Lemma render_components names : Forall normal_name names → components (render names) = lit "/" :: names.
Proof.
  intros Hn. unfold render. rewrite components_absolute. f_equal. destruct names as [|s names]; [done|].
  rewrite split_joined by (done || by apply normal_slashless). by apply keep_normal.
Qed.
Lemma normal_absolute path : normal path → is_absolute path = true.
Proof. intros (names & _ & ->). apply is_absolute_cons. Qed.
Lemma normal_inj a b : normal a → normal b → components a = components b → a = b.
Proof. intros (na & Ha & ->) (nb & Hb & ->). rewrite !render_components by done. by intros [= ->]. Qed.
Lemma render_push names name : Forall normal_name names → normal_name name → path_push (render names) name = render (names ++ [name]).
Proof.
  intros Hn (Hne & _ & _ & Hs). unfold path_push.
  assert (is_absolute name = false) as ->.
  { apply not_true_is_false. intros [t ->]%is_absolute_spec. apply Hs. left. }
  rewrite bool_decide_false by done. unfold render. destruct names as [|s names]; [by destruct name|].
  rewrite join_char_app by done. 
  assert (Hend : ends_with_char 47 (47%N :: join_char 47 (s :: names)) = false); [|rewrite Hend; by rewrite <-app_comm_cons].
  unfold ends_with_char. rewrite last_cons.
  assert (Hlast : ∀ l, l ≠ [] → Forall normal_name l → ∃ d, last (join_char 47 l) = Some d ∧ d ≠ 47%N).
  { clear. intros l Hne Hl. induction Hl as [|s l (Hs & _ & _ & Hslash) Hl IH]; [done|]. destruct l as [|s' l].
    - simpl. destruct (snoc_case s) as [->|(s0 & d & ->)]; [done|]. exists d. rewrite last_snoc. split; [done|].
      intros ->. apply Hslash. apply elem_of_app. right. left.
    - rewrite join_char_cons, last_app, last_cons. destruct (IH ltac:(done)) as (d & -> & Hd). by exists d. }
  destruct (Hlast (s :: names) ltac:(done) Hn) as (d & -> & Hd). by apply N.eqb_neq.
Qed.
Lemma render_parent names name : Forall normal_name (names ++ [name]) → path_parent (render (names ++ [name])) = Some (render names).
Proof.
  intros Hall. pose proof (normal_slashless _ Hall) as Hslash. unfold path_parent, render.
  change (starts_with (lit "/") (47%N :: join_char 47 (names ++ [name]))) with (is_absolute (47%N :: join_char 47 (names ++ [name]))).
  rewrite is_absolute_cons. cbn [drop]. rewrite drop_0, split_joined; [|by intros [_ ?]%app_eq_nil|done].
  rewrite reverse_app. cbn [reverse rev_append app]. apply Forall_app in Hall as [Hn Hname]. apply Forall_cons in Hname as [Hname _].
  assert (Hjunk : ∀ s l, normal_name s → junk_component true s l = false).
  { intros s l (Hne & Hdot & _). unfold junk_component.
    by rewrite (bool_decide_false (s = [])), (bool_decide_false (s = lit ".")) by done. }
  cbn [trim_components]. rewrite Hjunk by done.
  assert (Htrim : trim_components true (reverse names) = reverse names).
  { apply Forall_reverse in Hn. destruct (reverse names) as [|x l]; [done|]. cbn [trim_components].
    apply Forall_cons in Hn as [Hx _]. by rewrite Hjunk. }
  rewrite Htrim, reverse_involutive. done.
Qed.
Lemma lexical_path_normal path : normal (lexical_path path).
Proof.
  unfold lexical_path.
  assert (Hgo : ∀ cs out, Forall (λ c, c = lit "/" ∨ c ≠ [] ∧ slashless c) cs → normal out → normal (foldl lexical_step out cs)).
  { induction cs as [|c cs IH]; intros out Hcs Hout; [done|]. apply Forall_cons in Hcs as [Hc Hcs]. apply IH; [done|].
    destruct Hout as (names & Hn & ->). unfold lexical_step. case_decide as Hdots; [|case_decide as Hdot].
    - destruct (snoc_case names) as [->|(names' & x & ->)]; [by exists []|]. rewrite render_parent by done.
      apply Forall_app in Hn as [Hn _]. by exists names'.
    - by exists names.
    - apply Decidable.not_or in Hdot as [Hdot Hroot]. destruct Hc as [->|[Hne Hs]]; [done|].
      assert (Hname : normal_name c) by done. exists (names ++ [c]). split; [by apply Forall_app; split; [|constructor]|by apply render_push]. }
  apply Hgo; [|by exists []]. apply Forall_forall. unfold components. intros s [Hs|Hs]%elem_of_app.
  - destruct (is_absolute path); [|by apply elem_of_nil in Hs]. apply list_elem_of_singleton in Hs. by left.
  - right. split; [by apply keep_names_elem in Hs as []|by apply (keep_names_slashless _ _ _ _ Hs)].
Qed.

(** ** Sets of scopes *)

Lemma path_eq_spec a b : path_eq a b = true ↔ components a = components b.
Proof. apply bool_decide_eq_true. Qed.
Lemma path_starts_with_spec p base : path_starts_with p base = true ↔ components base `prefix_of` components p.
Proof. apply bool_decide_eq_true. Qed.
Lemma path_starts_with_refl p : path_starts_with p p = true.
Proof. by apply path_starts_with_spec. Qed.
Lemma path_starts_with_trans p q r : path_starts_with p q = true → path_starts_with q r = true → path_starts_with p r = true.
Proof. rewrite !path_starts_with_spec. intros ??. by etrans. Qed.
Lemma scopes_get_spec scopes path :
  match scopes_get scopes path with
  | Some root => root ∈ scopes ∧ components root = components path
  | None => Forall (λ root, components root ≠ components path) scopes
  end.
Proof.
  unfold scopes_get. destruct (list_find _ scopes) as [[i root]|] eqn:Hf; simpl.
  - apply list_find_Some in Hf as (Hi & Heq%path_eq_spec & _). split; [by eapply list_elem_of_lookup_2|done].
  - apply list_find_None in Hf. eapply Forall_impl; [exact Hf|]. simpl. intros root Hr Heq. apply Hr. by apply path_eq_spec.
Qed.
Lemma normal_nonroot path : normal path → components path ≠ [].
Proof. intros (names & Hn & ->). by rewrite render_components. Qed.
(** A set of scopes covers a path below one of them. *)
Lemma covers_where_spec scopes path accepts :
  Forall normal scopes → is_absolute path = true →
  covers_where scopes path accepts = true ↔ ∃ root, root ∈ scopes ∧ path_starts_with path root = true ∧ accepts root = true.
Proof.
  intros Hs Hp. unfold covers_where. rewrite existsb_exists. setoid_rewrite <-list_elem_of_In. split.
  - intros (a & Ha & Hok). pose proof (scopes_get_spec scopes a) as Hg. destruct (scopes_get scopes a) as [root|]; [|done].
    destruct Hg as [Hin Heq]. exists root. split_and!; [done| |done]. apply path_starts_with_spec. rewrite Heq.
    apply (ancestors_prefixes path (components a) Hp). by exists a.
  - intros (root & Hin & Hpre%path_starts_with_spec & Hok). rewrite Forall_forall in Hs.
    destruct (proj2 (ancestors_prefixes path (components root) Hp)) as (a & Ha & Heq); [split; [by apply normal_nonroot, Hs|done]|].
    exists a. split; [done|]. pose proof (scopes_get_spec scopes a) as Hg. destruct (scopes_get scopes a) as [root'|].
    + destruct Hg as [Hin' Heq']. assert (root' = root) as -> by (apply normal_inj; [by apply Hs..|congruence]). by rewrite Hok.
    + rewrite Forall_forall in Hg. by destruct (Hg root Hin).
Qed.
Lemma scopes_insert_elem scopes path x :
  Forall normal scopes → normal path → x ∈ scopes_insert scopes path ↔ x = path ∨ x ∈ scopes.
Proof.
  intros Hs Hp. unfold scopes_insert. pose proof (scopes_get_spec scopes path) as Hg. destruct (scopes_get scopes path) as [root|].
  - destruct Hg as [Hin Heq]. rewrite Forall_forall in Hs. assert (root = path) as -> by (apply normal_inj; [by apply Hs|done|done]).
    split; [by right|by intros [->|?]].
  - apply elem_of_cons.
Qed.
Lemma from_paths_elem paths x : Forall normal paths → x ∈ from_paths paths ↔ x ∈ paths.
Proof.
  intros Hp. unfold from_paths. assert (Hgo : ∀ scopes, Forall normal scopes → x ∈ foldl scopes_insert scopes paths ↔ x ∈ scopes ∨ x ∈ paths).
  { induction Hp as [|p paths Hp _ IH]; intros scopes Hs; [split; [by left|by intros [?|?%elem_of_nil]]|]. cbn [foldl]. rewrite IH.
    - rewrite scopes_insert_elem, elem_of_cons by done. tauto.
    - apply Forall_forall. intros y. rewrite scopes_insert_elem by done. rewrite Forall_forall in Hs. intros [->|?]; [done|by apply Hs]. }
  rewrite Hgo by done. split; [by intros [?%elem_of_nil|?]|by right].
Qed.
Lemma covers_spec paths path :
  Forall normal paths → is_absolute path = true →
  covers (from_paths paths) path = true ↔ ∃ root, root ∈ paths ∧ path_starts_with path root = true.
Proof.
  intros Hp Ha. unfold covers. rewrite covers_where_spec; [|apply Forall_forall; intros x; rewrite from_paths_elem by done; rewrite Forall_forall in Hp; apply Hp|done].
  split; [intros (root & Hin & ? & _)|intros (root & Hin & ?)]; exists root; (split; [by apply from_paths_elem|done]) || (split_and!; [by apply from_paths_elem|done..]).
Qed.

(** *** What a scope covers *)

(** The path and everything below it that belongs to the scope's namespace. *)
Definition covered (path root : text) : bool := path_starts_with path root && subtree_in_namespace path [root].
Definition covered_by (roots : list text) (path : text) : Prop := ∃ root, root ∈ roots ∧ covered path root = true.

Lemma covered_spec path root :
  covered path root = true ↔ path_starts_with path root = true ∧
    (path_starts_with path SYSTEM_VOLUMES = true →
      path_starts_with path DATA_ROOT = true ∧ root = lit "/" ∨ path_starts_with root SYSTEM_VOLUMES = true).
Proof.
  unfold covered, subtree_in_namespace. rewrite andb_true_iff. cbn [existsb]. rewrite !orb_false_r.
  destruct (path_starts_with path SYSTEM_VOLUMES) eqn:Hsv; simpl negb; [|naive_solver].
  split; intros [Hp Hc]; (split; [done|]).
  - intros _. destruct (path_starts_with path DATA_ROOT && bool_decide (root = lit "/")) eqn:E.
    + apply andb_true_iff in E as [? ?%bool_decide_eq_true]. by left.
    + apply andb_true_iff in Hc as [? _]. by right.
  - destruct (Hc eq_refl) as [[-> ->]|Hr]; [done|]. rewrite Hr, Hp. by destruct (_ && _).
Qed.
Lemma covered_refl path : covered path path = true.
Proof. apply covered_spec. split; [apply path_starts_with_refl|by right]. Qed.
Lemma root_below root : normal root → path_starts_with (lit "/") root = true → root = lit "/".
Proof.
  intros (names & Hn & ->) Hp%path_starts_with_spec. rewrite render_components in Hp by done.
  destruct Hp as [tail Ht]. change (components (lit "/")) with [lit "/"] in Ht. rewrite <-app_comm_cons in Ht.
  destruct names as [|x names]; [done|by injection Ht].
Qed.
Lemma covered_trans path middle root :
  normal root → covered path middle = true → covered middle root = true → covered path root = true.
Proof.
  intros Hroot [Hp Hpn]%covered_spec [Hm Hmn]%covered_spec. apply covered_spec. split; [by apply (path_starts_with_trans path middle)|].
  intros Hsv. destruct (Hpn Hsv) as [[Hd ->]|Hmsv].
  - left. split; [done|by apply root_below].
  - destruct (Hmn Hmsv) as [[Hd ->]|?]; [|by right]. left. split; [|done]. by apply (path_starts_with_trans path middle).
Qed.

(** *** Compaction *)

Lemma join_prefix names more : names ≠ [] → ∃ tail, join_char 47 (names ++ more) = join_char 47 names ++ tail.
Proof.
  intros Hne. destruct more as [|x more]; [exists []; by rewrite !app_nil_r|]. rewrite join_char_app by done. by eexists.
Qed.
(** An ancestor is sorted before what is below it. *)
Lemma ancestor_order a b : normal a → normal b → path_starts_with b a = true → cmp_le str_cmp a b.
Proof.
  intros (na & Ha & ->) (nb & Hb & ->) Hp%path_starts_with_spec. rewrite !render_components in Hp by done.
  destruct Hp as [tail Ht]. rewrite <-app_comm_cons in Ht. injection Ht as ->.
  assert (Htext : ∃ more, render (na ++ tail) = render na ++ more).
  { unfold render. destruct (decide (na = [])) as [->|Hne]; [by eexists|].
    destruct (join_prefix na tail Hne) as [more ->]. exists more. by rewrite app_comm_cons. }
  destruct Htext as [more ->]. unfold cmp_le, str_cmp. rewrite utf8_app.
  induction (utf8 (render na)) as [|x l IH]; simpl; [by destruct (utf8 more)|]. by rewrite N.compare_refl.
Qed.
Definition compact_step (st : PathScopes * list text) (root : text) : PathScopes * list text :=
  if covers_where st.1 root (λ parent, subtree_in_namespace root [parent]) then st else (scopes_insert st.1 root, st.2 ++ [root]).
(** No scope is covered by one before it. *)
Definition independent (result : list text) : Prop := StronglySorted (λ a b, covered b a = false) result.
Definition compacted (done : list text) (st : PathScopes * list text) : Prop :=
  (∀ x, x ∈ st.1 ↔ x ∈ st.2) ∧ st.2 `sublist_of` done ∧
  (∀ r, r ∈ done → ∃ k, k ∈ st.2 ∧ covered r k = true) ∧ independent st.2.
Lemma compact_step_ok done st root :
  Forall normal (done ++ [root]) → compacted done st → compacted (done ++ [root]) (compact_step st root).
Proof.
  intros [Hn [Hroot _]%Forall_cons]%Forall_app (Hset & Hsub & Hcov & Hind).
  assert (Hanc : Forall normal st.1).
  { apply Forall_forall. intros x Hx%Hset. rewrite Forall_forall in Hn. apply Hn. by eapply elem_of_sublist. }
  pose proof (covers_where_spec st.1 root (λ parent, subtree_in_namespace root [parent]) Hanc (normal_absolute root Hroot)) as Hcw.
  unfold compact_step. destruct (covers_where st.1 root _) eqn:Hc.
  - destruct (proj1 Hcw eq_refl) as (k & Hk & Hp & Hs). split_and!; [done|by apply sublist_inserts_r| |done].
    intros r [Hr|Hr%list_elem_of_singleton]%elem_of_app; [by apply Hcov|]. subst r. exists k. split; [by apply Hset|]. unfold covered. by rewrite Hp, Hs.
  - split_and!; cbn [fst snd].
    + intros x. rewrite scopes_insert_elem by done. rewrite elem_of_app, list_elem_of_singleton, Hset. tauto.
    + by apply sublist_app.
    + intros r [Hr|Hr%list_elem_of_singleton]%elem_of_app.
      * destruct (Hcov r Hr) as (k & Hk & ?). exists k. split; [by apply elem_of_app; left|done].
      * subst r. exists root. split; [apply elem_of_app; right; by apply list_elem_of_singleton|apply covered_refl].
    + apply StronglySorted_app_2; [|done|repeat constructor]. intros a b Ha Hb%list_elem_of_singleton. subst b.
      apply not_true_is_false. intros [Hp Hs]%andb_true_iff. assert (false = true); [|done]. apply Hcw. exists a. by rewrite Hset.
Qed.
Lemma compact_loop_ok roots done st :
  Forall normal (done ++ roots) → compacted done st → compacted (done ++ roots) (foldl compact_step st roots).
Proof.
  revert done st. induction roots as [|root roots IH]; intros done st Hn Hst; [by rewrite app_nil_r|].
  cbn [foldl]. rewrite cons_middle, app_assoc in *. apply IH; [done|]. apply compact_step_ok; [|done].
  apply Forall_app in Hn as [Hn _]. done.
Qed.
Lemma compact_roots_spec roots :
  Forall normal roots →
  ∃ result, cancels_to (compact_roots roots) (Ok result) ∧ (∀ r, r ∈ result → r ∈ roots) ∧
    (∀ path, covered_by result path ↔ covered_by roots path) ∧
    (Forall valid_text roots → ∀ a b, a ∈ result → b ∈ result → covered b a = true → a = b) ∧ NoDup result ∧ StronglySorted (cmp_le str_cmp) result.
Proof.
  intros Hn. set (sorted := sorted_paths roots).
  assert (Hmem : ∀ r, r ∈ sorted ↔ r ∈ roots).
  { intros r. unfold sorted, sorted_paths. by rewrite dedup_elem_of, merge_sort_Permutation. }
  assert (Hsorted : StronglySorted (cmp_le str_cmp) sorted).
  { unfold sorted, sorted_paths. eapply StronglySorted_sublist; [apply dedup_sublist|]. apply StronglySorted_merge_sort; apply _. }
  assert (Hns : Forall normal sorted) by (apply Forall_forall; intros x Hx%Hmem; rewrite Forall_forall in Hn; by apply Hn).
  set (st := foldl compact_step ([], []) sorted).
  assert (Hst : compacted sorted st).
  { apply (compact_loop_ok sorted [] ([], [])); [done|]. split_and!; [done|done|by intros r ?%elem_of_nil|constructor]. }
  destruct Hst as (_ & Hsub & Hcov & Hind). exists st.2.
  assert (Hin : ∀ r, r ∈ st.2 → r ∈ roots) by (intros r Hr; apply Hmem; by eapply elem_of_sublist).
  assert (Hsort : StronglySorted (cmp_le str_cmp) st.2) by (by eapply StronglySorted_sublist).
  rewrite Forall_forall in Hn.
  assert (Hone : Forall valid_text roots → ∀ i j a b, st.2 !! i = Some a → st.2 !! j = Some b → covered b a = true → i = j).
  { intros Hv i j a b Ha Hb Hab. rewrite Forall_forall in Hv. destruct (lt_eq_lt_dec i j) as [[Hlt|?]|Hgt]; [|done|].
    - rewrite (StronglySorted_lookup_lt _ _ i j a b Hind Hlt Ha Hb) in Hab. done.
    - pose proof (StronglySorted_lookup_lt _ _ j i b a Hsort Hgt Hb Ha) as Hba. apply covered_spec in Hab as [Hp _].
      pose proof (list_elem_of_lookup_2 _ _ _ Ha) as Ha'%Hin. pose proof (list_elem_of_lookup_2 _ _ _ Hb) as Hb'%Hin.
      pose proof (ancestor_order a b (Hn a Ha') (Hn b Hb') Hp) as Hle.
      assert (Hab : utf8 a = utf8 b) by (by apply (anti_symm (cmp_le (list_cmp N.compare)))).
      apply utf8_inj in Hab as ->; [|by apply Hv..]. pose proof (StronglySorted_lookup_lt _ _ j i b b Hind Hgt Hb Ha) as Hf. simpl in Hf. by rewrite covered_refl in Hf. }
  split_and!; [|done| | | |done].
  - unfold compact_roots. eapply cancels_bind; [apply cancels_check|]. eapply cancels_bind; [|apply cancels_ret].
    apply (cancels_fold compact_root compact_step). intros [anc res] root _. unfold compact_root.
    eapply cancels_bind; [apply cancels_check|]. unfold compact_step. cbn [fst snd].
    destruct (covers_where anc root _); apply cancels_ret.
  - intros path. split; intros (root & Hroot & Hc).
    + exists root. split; [by apply Hin|done].
    + apply Hmem in Hroot. destruct (Hcov root Hroot) as (k & Hk & Hrk). exists k. split; [done|].
      apply (covered_trans path root k); [by apply Hn, Hin|done|done].
  - intros Hv a b (i & Ha)%list_elem_of_lookup (j & Hb)%list_elem_of_lookup Hab. pose proof (Hone Hv i j a b Ha Hb Hab) as ->. congruence.
  - apply NoDup_alt. intros i j x Hi Hj. destruct (lt_eq_lt_dec i j) as [[Hlt|?]|Hgt]; [|done|].
    + pose proof (StronglySorted_lookup_lt _ _ i j x x Hind Hlt Hi Hj) as Hf. simpl in Hf. by rewrite covered_refl in Hf.
    + pose proof (StronglySorted_lookup_lt _ _ j i x x Hind Hgt Hj Hi) as Hf. simpl in Hf. by rewrite covered_refl in Hf.
Qed.

(** *** Normal spellings *)

Class FileNamespaceLaws `{FileNamespace} : Prop :=
  firmlinks_normal : Forall (λ link, normal (physical link) ∧ normal (logical link)) firmlinks.

Lemma render_join names rest :
  Forall normal_name names → Forall normal_name rest → rest ≠ [] → path_push (render names) (join_char 47 rest) = render (names ++ rest).
Proof.
  intros Hn Hr. revert names Hn. induction Hr as [|s rest Hs Hr IH]; intros names Hn Hne; [done|].
  destruct rest as [|s' rest]; [by apply render_push|].
  assert (Hpush : ∀ t, path_push (render names) (s ++ 47%N :: t) = path_push (render names) s ++ 47%N :: t).
  { intros t. unfold path_push. destruct Hs as (Hnes & _ & _ & Hslash).
    assert (is_absolute (s ++ 47%N :: t) = false ∧ is_absolute s = false) as [-> ->].
    { destruct s as [|c s]; [done|]. split; apply not_true_is_false; intros [t' [= -> _]]%is_absolute_spec; apply Hslash; left. }
    destruct (_ || _); by rewrite <-!app_assoc. }
  rewrite join_char_cons, Hpush, render_push by done. unfold render.
  rewrite (cons_middle s names (s' :: rest)), (app_assoc names [s] (s' :: rest)).
  rewrite (join_char_app 47 (names ++ [s]) (s' :: rest)) by done. destruct (names ++ [s]) eqn:E; [by destruct names|]. done.
Qed.
Lemma after_normal names base :
  Forall normal_name names → Forall normal_name base →
  after_names names base = if decide (base `prefix_of` names) then Some (drop (length base) names) else None.
Proof.
  intros Hn. revert base. induction Hn as [|s names Hs Hn IH]; intros base Hb.
  - destruct base as [|b base]; [by rewrite decide_True by apply prefix_nil|]. cbn [after_names]. rewrite decide_False; [done|].
    by intros ?%prefix_nil_inv.
  - destruct base as [|b base]; [by rewrite decide_True by apply prefix_nil|]. cbn [after_names].
    assert (junk_segment true false s = false) as ->.
    { destruct Hs as (Hne & Hdot & _). unfold junk_segment. by rewrite (bool_decide_false (s = [])), (bool_decide_false (s = lit ".")) by done. }
    apply Forall_cons in Hb as [_ Hb]. destruct (decide (s = b)) as [->|Hneq].
    + rewrite IH by done. destruct (decide (base `prefix_of` names)) as [Hp|Hp].
      * rewrite decide_True by (by apply prefix_cons). done.
      * rewrite decide_False; [done|]. by intros ?%prefix_cons_inv_2.
    + rewrite decide_False; [done|]. by intros ->%prefix_cons_inv_1.
Qed.
Lemma trim_junk_normal names : Forall normal_name names → trim_junk names = names.
Proof.
  intros Hn. destruct Hn as [|s names (Hne & Hdot & _) Hn]; [done|]. cbn [trim_junk]. unfold junk_segment.
  by rewrite (bool_decide_false (s = [])), (bool_decide_false (s = lit ".")) by done.
Qed.
Lemma body_normal names : Forall normal_name names → names ≠ [] → body_segments (render names) = names.
Proof.
  intros Hn Hne. unfold body_segments, render. rewrite is_absolute_cons. cbn [drop]. rewrite drop_0. by apply split_joined, normal_slashless.
Qed.
Lemma strip_normal names base rest :
  Forall normal_name names → Forall normal_name base → path_strip_prefix (render names) (render base) = Some rest →
  ∃ more, names = base ++ more ∧ rest = join_char 47 more.
Proof.
  intros Hn Hb. unfold path_strip_prefix. unfold render at 1 2. rewrite !is_absolute_cons, render_components by done. cbn [andb drop]. rewrite drop_0.
  destruct (decide (names = [])) as [->|Hne].
  - change (body_segments (render [])) with [[] : text]. destruct base as [|b base].
    + intros [= <-]. by exists [].
    + cbn [after_names]. unfold junk_segment. by rewrite bool_decide_true.
  - rewrite body_normal, after_normal by done. case_decide as Hp; [|done]. destruct Hp as [more ->].
    rewrite drop_app_length. apply Forall_app in Hn as [_ Hm]. cbn [mbind option_bind].
    rewrite (trim_junk_normal more), (trim_junk_normal (reverse more)), reverse_involutive by (done || by apply Forall_reverse).
    intros [= <-]. by exists more.
Qed.
Lemma rename_normal path base target suffix :
  normal path → normal base → normal target → path_strip_prefix path base = Some suffix → suffix ≠ [] → normal (path_push target suffix).
Proof.
  intros (names & Hn & ->) (nb & Hb & ->) (nt & Ht & ->) (more & -> & ->)%strip_normal Hne; [|done..].
  apply Forall_app in Hn as [_ Hm]. destruct (decide (more = [])) as [->|Hmne]; [done|].
  exists (nt ++ more). split; [by apply Forall_app|by apply render_join].
Qed.
Lemma normal_lit (names : list text) : bool_decide (Forall normal_name names) = true → normal (render names).
Proof. intros Hn%bool_decide_eq_true. by exists names. Qed.
Section namespace_proofs.
Context `{FileNamespaceLaws}.

Lemma visible_path_normal path : normal (visible_path path).
Proof.
  unfold visible_path. pose proof (lexical_path_normal path) as Hout. pose proof firmlinks_normal as Hlinks.
  induction Hlinks as [|link links [Hp Hl] _ IH]; [done|]. destruct (path_strip_prefix _ _) as [suffix|] eqn:Hs; [|done].
  destruct (same_firmlink_object link); [|done]. case_decide; [done|]. by apply (rename_normal (lexical_path path) (physical link)).
Qed.
Lemma system_aliases_normal : Forall (λ alias, normal alias.1 ∧ normal alias.2) system_aliases.
Proof.
  unfold system_aliases. apply Forall_forall. intros [p l] (name & Hname & Ha)%list_elem_of_omap.
  destruct (alias_verified name); [|done]. injection Ha as <- <-. cbn [fst snd].
  rewrite !elem_of_cons in Hname. destruct Hname as [->|[->|[->|?%elem_of_nil]]]; [..|done].
  - split; [apply (normal_lit [lit "private"; lit "var"])|apply (normal_lit [lit "var"])]; by vm_compute.
  - split; [apply (normal_lit [lit "private"; lit "tmp"])|apply (normal_lit [lit "tmp"])]; by vm_compute.
  - split; [apply (normal_lit [lit "private"; lit "etc"])|apply (normal_lit [lit "etc"])]; by vm_compute.
Qed.
Lemma system_path_normal path : normal path → normal (system_path path).
Proof.
  intros Hp. unfold system_path. pose proof system_aliases_normal as Ha.
  induction Ha as [|[p l] aliases [Hph Hl] _ IH]; [done|]. destruct (path_strip_prefix path l) as [suffix|] eqn:Hs; [|done].
  case_decide; [done|]. by apply (rename_normal path l).
Qed.
Lemma scope_path_normal r : normal (scope_path r).
Proof. apply system_path_normal, visible_path_normal. Qed.
Lemma mapped_roots_normal out : Forall normal (mapped_roots out).
Proof.
  unfold mapped_roots. apply Forall_fmap, Forall_forall. intros link [_ Hl]%list_elem_of_filter.
  pose proof firmlinks_normal as Hall. rewrite Forall_forall in Hall. by apply Hall.
Qed.

(** Normalized scopes cover what the mapped scopes cover, and the firmlinks
    inside them. *)
Definition scope_set (roots : list text) : list text := (scope_path <$> roots) ++ mapped_roots (scope_path <$> roots).
Lemma scope_set_normal roots : Forall normal (scope_set roots).
Proof. apply Forall_app. split; [|apply mapped_roots_normal]. apply Forall_fmap, Forall_forall. intros r _. apply scope_path_normal. Qed.
Lemma normalize_scopes_spec roots :
  ∃ result, cancels_to (normalize_scopes_until roots) (Ok result) ∧ normalize_scopes roots = Some result ∧
    (∀ r, r ∈ result → r ∈ scope_set roots) ∧ (∀ path, covered_by result path ↔ covered_by (scope_set roots) path).
Proof.
  destruct (compact_roots_spec (scope_set roots) (scope_set_normal roots)) as (result & Hr & Hin & Hcov & _).
  assert (Hrun : cancels_to (normalize_scopes_until roots) (Ok result)).
  { unfold normalize_scopes_until. eapply cancels_bind; [apply cancels_check|].
    assert (Hmap : ∀ out, cancels_to (p_fold (λ out r, check_cancelled;; mret (out ++ [scope_path r])) roots out) (Ok (out ++ (scope_path <$> roots)))).
    { clear. induction roots as [|r roots IH]; intros out; [rewrite app_nil_r; apply cancels_ret|]. cbn [p_fold].
      eapply cancels_bind; [eapply cancels_bind; [apply cancels_check|apply cancels_ret]|]. cbn [fmap list_fmap].
      specialize (IH (out ++ [scope_path r])). rewrite <-app_assoc in IH. exact IH. }
    eapply cancels_bind; [apply (Hmap [])|exact Hr]. }
  exists result. split_and!; [done| |done|done]. unfold normalize_scopes.
  by rewrite (cancels_never _ _ (λ _, false) 0 Hrun (λ _, eq_refl)).
Qed.
Lemma normalized_normal roots result : normalize_scopes roots = Some result → Forall normal result.
Proof.
  destruct (normalize_scopes_spec roots) as (result' & _ & -> & Hin & _). intros [= <-]. apply Forall_forall. intros r Hr%Hin.
  pose proof (scope_set_normal roots) as Hall. rewrite Forall_forall in Hall. by apply Hall.
Qed.
End namespace_proofs.

(** ** Compaction keeps what is covered *)

(** C24: Compacting a set of scopes ends, unless it is cancelled, with some of
    the scopes, in order and without repetition, none of which covers another,
    and covers exactly the same paths: an ancestor replaces a scope only where
    the scope is in the ancestor's namespace. *)
Theorem compacted_scopes_cover roots :
  Forall normal roots → Forall valid_text roots →
  ∃ result, cancels_to (compact_roots roots) (Ok result) ∧
    (∀ r, r ∈ result → r ∈ roots) ∧ NoDup result ∧ StronglySorted (cmp_le str_cmp) result ∧
    (∀ a b, a ∈ result → b ∈ result → covered b a = true → a = b) ∧
    (∀ path, covered_by result path ↔ covered_by roots path).
Proof.
  intros Hn Hv. destruct (compact_roots_spec roots Hn) as (result & Hr & Hin & Hcov & Hind & Hnd & Hs).
  exists result. split_and!; [done..|by apply Hind|done].
Qed.
Lemma compacted_scopes_cover_witness :
  let roots := [lit "/System/Volumes/Preboot"; lit "/Users/a"; lit "/"; lit "/Users"] in
  cancels_to (compact_roots roots) (Ok [lit "/"; lit "/System/Volumes/Preboot"]) ∧
  ∀ path, covered_by [lit "/"; lit "/System/Volumes/Preboot"] path ↔ covered_by roots path.
Proof.
  intros roots. destruct (compacted_scopes_cover roots) as (result & Hr & _ & _ & _ & _ & Hcov).
  - repeat constructor; [exists [lit "System"; lit "Volumes"; lit "Preboot"]|exists [lit "Users"; lit "a"]|exists []|exists [lit "Users"]];
      (split; [by_decide|by vm_compute]).
  - by_decide.
  - pose proof (cancels_never _ _ (λ _, false) 0 Hr (λ _, eq_refl)) as Hrun. vm_compute in Hrun. injection Hrun as <-. by split.
Defined.
