(* ===== verification/ChangeEvents.v ===== *)
(** * core/src/scanner.rs: file events and what they make the engine rescan

    Callbacks of the event stream fill a bounded queue ([collect_event]); a
    full queue is replaced by one event per root.  A drained queue is turned
    into a plan ([reconciliation_plan_with_history]): the scopes to enumerate,
    the paths to stat, and the directories whose access is checked first.
    The plan must account for every change under a configured root, without
    rescanning a root for every change in it. *)
From S2P Require Import Prelude Text Paths ResultOrder PathScopes.

(** ** Events *)

Definition EVENT_HISTORY_DONE : N := 16.
Definition GLOBAL_HISTORY_INVALIDATION : N := 14.          (* 0x0e *)
Definition has (flags mask : N) : bool := negb (N.land flags mask =? 0)%N.

Record ChangeEvent := { e_path : text; event_id : N; e_flags : N; must_rescan : bool; root_changed : bool }.

Section events.
Context `{FileNamespace}.

Definition from_flags (path : text) (event_id flags : N) : ChangeEvent :=
  {| e_path := visible_path (system_path path); event_id := event_id; e_flags := flags;
     must_rescan := has flags 239; (* 0x01 | 0x02 | 0x04 | 0x08 | 0x20 | 0x40 | 0x80 *)
     root_changed := has flags 224 |}. (* 0x20 | 0x40 | 0x80 *)
Definition queue_capacity : nat := N.to_nat 65536.
(** [collect_event]; the queue is behind a mutex. *)
Definition collect_event (roots : list text) (queue : list ChangeEvent) (path : text) (id flags : N) : list ChangeEvent :=
  if has flags (N.lor EVENT_HISTORY_DONE GLOBAL_HISTORY_INVALIDATION) then queue ++ [from_flags (lit "/") id flags]
  else
    let path := visible_path (system_path path) in
    if negb (existsb (λ r, path_starts_with path r || path_starts_with r path) roots) then queue
    else if queue_capacity <=? length queue then
      let controls := foldl (λ combined event, N.lor combined (N.land (e_flags event) GLOBAL_HISTORY_INVALIDATION))
                        (N.land flags GLOBAL_HISTORY_INVALIDATION) queue in
      (λ root, from_flags root id (N.lor 3 controls)) <$> roots
    else queue ++ [from_flags path id flags].

(** ** Plans *)

Record Reconciliation := { recursive : list text; metadata : list text; directory_checks : list text }.
(** The [HashSet]s of a plan being made. *)
Record PlanSets := { recursive_set : gset text; metadata_set : gset text; checks_set : gset text }.
Definition add_recursive (paths : list text) (p : PlanSets) : PlanSets :=
  {| recursive_set := list_to_set paths ∪ recursive_set p; metadata_set := metadata_set p; checks_set := checks_set p |}.
Definition add_metadata (path : text) (p : PlanSets) : PlanSets :=
  {| recursive_set := recursive_set p; metadata_set := {[path]} ∪ metadata_set p; checks_set := checks_set p |}.
Definition add_check (path : text) (p : PlanSets) : PlanSets :=
  {| recursive_set := recursive_set p; metadata_set := metadata_set p; checks_set := {[path]} ∪ checks_set p |}.

Definition ITEM_IS_DIR : N := 131072.     (* 0x20000 *)
Definition SUBTREE_CHANGE : N := 51968.   (* 0x100 | 0x200 | 0x800 | 0x4000 | 0x8000 *)
Definition INODE_METADATA : N := 1024.    (* 0x400 *)
(** Pure controls of mounts that the completed baseline has already seen. *)
Definition covered_mount (cursor : option N) (e : ChangeEvent) : bool :=
  match cursor with
  | Some cursor => negb (event_id e =? 0)%N && (event_id e <=? cursor)%N &&
                   ((e_flags e =? 64) || (e_flags e =? 128) || (e_flags e =? 192))%N
  | None => false
  end.
(** What an event means for one configured root. *)
Definition plan_root (e : ChangeEvent) (p : PlanSets) (root : text) : PlanSets :=
  if must_rescan e then
    if path_starts_with (e_path e) root then add_recursive [e_path e] p
    else if path_starts_with root (e_path e) then add_recursive [root] p
    else p
  else if path_starts_with (e_path e) root then
    let p := match path_parent (e_path e) with
             | Some parent => if path_starts_with parent root then add_metadata parent p else p
             | None => p
             end in
    if has (e_flags e) ITEM_IS_DIR && negb (has (e_flags e) SUBTREE_CHANGE) then
      if has (e_flags e) INODE_METADATA then add_check (e_path e) p else add_metadata (e_path e) p
    else add_recursive [e_path e] p
  else if path_starts_with root (e_path e) then
    if has (e_flags e) SUBTREE_CHANGE then add_recursive [root] p
    else if has (e_flags e) INODE_METADATA then add_check root p
    else p
  else p.
(** A broad change of the container of the hidden volumes. *)
Definition broad_volumes (configured : list text) (e : ChangeEvent) : bool :=
  bool_decide (e_path e = SYSTEM_VOLUMES) && negb (descend_in_namespace SYSTEM_VOLUMES configured) &&
  (must_rescan e || has (e_flags e) SUBTREE_CHANGE).
Definition plan_volumes (configured : list text) (e : ChangeEvent) (p : PlanSets) : option PlanSets :=
  p ← (if existsb (λ root, path_starts_with SYSTEM_VOLUMES root) configured then
         let p := add_metadata (e_path e) p in
         if path_in_namespace DATA_ROOT configured then
           scopes ← normalize_scopes [DATA_ROOT]; Some (add_recursive scopes p)
         else Some p
       else Some p);
  Some (add_recursive (filter (λ root, path_starts_with root SYSTEM_VOLUMES = true) configured) p).
Definition plan_event (configured : list text) (cursor : option N) (p : PlanSets) (e : ChangeEvent) : option PlanSets :=
  if has (e_flags e) EVENT_HISTORY_DONE then Some p
  else if covered_mount cursor e then Some p
  else if has (e_flags e) GLOBAL_HISTORY_INVALIDATION then Some (add_recursive configured p)
  else if negb (path_in_namespace (e_path e) configured) then Some p
  else if broad_volumes configured e then plan_volumes configured e p
  else Some (foldl (plan_root e) p configured).
Fixpoint plan_events (configured : list text) (cursor : option N) (p : PlanSets) (events : list ChangeEvent) : option PlanSets :=
  match events with
  | [] => Some p
  | e :: events => p ← plan_event configured cursor p e; plan_events configured cursor p events
  end.
Definition sort_paths (paths : list text) : list text := merge_sort (cmp_le str_cmp) paths.
(** The paths that no enumerated scope covers. *)
Definition uncovered (scopes : PathScopes) (paths : gset text) : list text :=
  sort_paths (filter (λ path, covers scopes path = false) (elements paths)).
Definition reconciliation_plan_with_history (roots : list text) (events : list ChangeEvent) (cursor : option N) : option Reconciliation :=
  configured ← normalize_scopes roots;
  p ← plan_events configured cursor {| recursive_set := ∅; metadata_set := ∅; checks_set := ∅ |} events;
  recursive ← normalize_scopes (elements (recursive_set p));
  let scopes := from_paths recursive in
  Some {| recursive := recursive; metadata := uncovered scopes (metadata_set p); directory_checks := uncovered scopes (checks_set p) |}.
Definition reconciliation_plan (roots : list text) (events : list ChangeEvent) : option Reconciliation :=
  reconciliation_plan_with_history roots events None.
Definition reconciliation_roots (roots : list text) (events : list ChangeEvent) : option (list text) :=
  recursive <$> reconciliation_plan roots events.
End events.

(** ** A plan accounts for the changes *)

(** The path is rescanned with a scope. *)
Definition below (scopes : list text) (path : text) : Prop := ∃ r, r ∈ scopes ∧ path_starts_with path r = true.
Definition stat_planned (p : Reconciliation) (path : text) : Prop := path ∈ metadata p ∨ below (recursive p) path.
Definition check_planned (p : Reconciliation) (path : text) : Prop := path ∈ directory_checks p ∨ below (recursive p) path.
(** What a change of [path] asks of a plan on behalf of one root: a change in
    the subtree rescans it, a change of the entry alone stats it, and the
    directory of the entry is statted in any case. *)
Definition root_accounted (p : Reconciliation) (e : ChangeEvent) (root : text) : Prop :=
  if path_starts_with (e_path e) root then
    (if must_rescan e then below (recursive p) (e_path e)
     else if has (e_flags e) ITEM_IS_DIR && negb (has (e_flags e) SUBTREE_CHANGE) then
       if has (e_flags e) INODE_METADATA then check_planned p (e_path e) else stat_planned p (e_path e)
     else below (recursive p) (e_path e)) ∧
    ∀ parent, must_rescan e = false → path_parent (e_path e) = Some parent → path_starts_with parent root = true → stat_planned p parent
  else if path_starts_with root (e_path e) then
    if must_rescan e || has (e_flags e) SUBTREE_CHANGE then below (recursive p) root
    else if has (e_flags e) INODE_METADATA then check_planned p root else True
  else True.
Definition accounts (p : Reconciliation) (configured : list text) (e : ChangeEvent) : Prop :=
  if has (e_flags e) GLOBAL_HISTORY_INVALIDATION then Forall (below (recursive p)) configured
  else if negb (path_in_namespace (e_path e) configured) then True
  else if broad_volumes configured e then
    Forall (λ root, (path_starts_with root SYSTEM_VOLUMES = true → below (recursive p) root) ∧
                    (path_starts_with SYSTEM_VOLUMES root = true → stat_planned p SYSTEM_VOLUMES)) configured
  else Forall (root_accounted p e) configured.

Section plan_proofs.
Context `{FileNamespaceLaws}.

(** Normalization leaves the path alone. *)
Definition settled (path : text) : Prop := scope_path path = path.
Lemma settled_normal path : settled path → normal path.
Proof. intros <-. apply scope_path_normal. Qed.

(** *** The sets grow *)

Definition grows (p q : PlanSets) : Prop :=
  recursive_set p ⊆ recursive_set q ∧ metadata_set p ⊆ metadata_set q ∧ checks_set p ⊆ checks_set q.
Instance grows_preorder : PreOrder grows.
Proof. split; [by intros p|intros p q r (?&?&?) (?&?&?); split_and!; by etrans]. Qed.
Lemma add_recursive_grows paths p : grows p (add_recursive paths p).
Proof. split_and!; simpl; [apply union_subseteq_r|done|done]. Qed.
Lemma add_metadata_grows path p : grows p (add_metadata path p).
Proof. split_and!; simpl; [done|apply union_subseteq_r|done]. Qed.
Lemma add_check_grows path p : grows p (add_check path p).
Proof. split_and!; simpl; [done|done|apply union_subseteq_r]. Qed.
Lemma plan_root_grows e p root : grows p (plan_root e p root).
Proof.
  unfold plan_root. repeat case_match; try done; try apply add_recursive_grows; try apply add_metadata_grows; try apply add_check_grows;
    (etrans; [apply add_metadata_grows|]); first [apply add_recursive_grows|apply add_metadata_grows|apply add_check_grows].
Qed.
Lemma plan_roots_grow e p roots : grows p (foldl (plan_root e) p roots).
Proof. revert p. induction roots as [|root roots IH]; intros p; [done|]. cbn [foldl]. etrans; [apply plan_root_grows|apply IH]. Qed.
Lemma plan_event_grows configured cursor p e q : plan_event configured cursor p e = Some q → grows p q.
Proof.
  unfold plan_event. destruct (has _ EVENT_HISTORY_DONE); [by intros [= <-]|]. destruct (covered_mount _ _); [by intros [= <-]|].
  destruct (has _ GLOBAL_HISTORY_INVALIDATION); [intros [= <-]; apply add_recursive_grows|].
  destruct (negb _); [by intros [= <-]|]. destruct (broad_volumes _ _); [|intros [= <-]; apply plan_roots_grow].
  unfold plan_volumes. intros (p' & Hp & [= <-])%bind_Some. etrans; [|apply add_recursive_grows].
  destruct (existsb _ _); [|by injection Hp as <-]. destruct (path_in_namespace _ _); [|injection Hp as <-; apply add_metadata_grows].
  apply bind_Some in Hp as (scopes & _ & [= <-]). etrans; [apply add_metadata_grows|apply add_recursive_grows].
Qed.
Lemma plan_events_grow configured cursor p events q : plan_events configured cursor p events = Some q → grows p q.
Proof.
  revert p. induction events as [|e events IH]; intros p; cbn [plan_events]; [by intros [= <-]|].
  intros (p' & Hp%plan_event_grows & Hq%IH)%bind_Some. by etrans.
Qed.
Lemma plan_event_total configured cursor p e : is_Some (plan_event configured cursor p e).
Proof.
  unfold plan_event. repeat (destruct (_ : bool); [by eexists|]). unfold plan_volumes.
  destruct (normalize_scopes_spec [DATA_ROOT]) as (scopes & _ & -> & _).
  repeat case_match; simpl; by eexists.
Qed.
Lemma plan_events_total configured cursor p events : is_Some (plan_events configured cursor p events).
Proof.
  revert p. induction events as [|e events IH]; intros p; [by eexists|]. cbn [plan_events].
  destruct (plan_event_total configured cursor p e) as [q ->]. apply IH.
Qed.
(** What holds of the sets after one event holds of the sets of the plan. *)
Lemma plan_event_reaches configured cursor p events q e :
  plan_events configured cursor p events = Some q → e ∈ events →
  ∃ p1 p2, plan_event configured cursor p1 e = Some p2 ∧ grows p2 q.
Proof.
  revert p. induction events as [|e' events IH]; intros p; cbn [plan_events]; [by intros _ ?%elem_of_nil|].
  intros (p' & Hp & Hq)%bind_Some [->|Hin]%elem_of_cons; [|by apply (IH p')].
  exists p, p'. split; [done|by apply plan_events_grow in Hq].
Qed.

(** *** From the sets to the plan *)

Definition plan_of (p : PlanSets) : option Reconciliation :=
  recursive ← normalize_scopes (elements (recursive_set p));
  let scopes := from_paths recursive in
  Some {| recursive := recursive; metadata := uncovered scopes (metadata_set p); directory_checks := uncovered scopes (checks_set p) |}.
Lemma plan_of_recursive p plan path :
  plan_of p = Some plan → settled path → path ∈ recursive_set p → below (recursive plan) path.
Proof.
  intros (scopes & Hs & [= <-])%bind_Some Hset Hin. cbn [recursive].
  destruct (normalize_scopes_spec (elements (recursive_set p))) as (scopes' & _ & Hs' & _ & Hcov).
  assert (scopes' = scopes) as -> by congruence.
  destruct (proj2 (Hcov path)) as (r & Hr & [? _]%covered_spec); [|by exists r].
  exists path. split; [|apply covered_refl]. unfold scope_set. apply elem_of_app. left.
  rewrite <-Hset. apply list_elem_of_fmap_2. by apply elem_of_elements.
Qed.
Lemma uncovered_elem scopes paths path :
  Forall normal scopes → normal path → path ∈ paths → path ∈ uncovered (from_paths scopes) paths ∨ below scopes path.
Proof.
  intros Hs Hp Hin. destruct (covers (from_paths scopes) path) eqn:Hc.
  - right. by apply (covers_spec scopes path Hs (normal_absolute path Hp)) in Hc.
  - left. unfold uncovered, sort_paths. rewrite merge_sort_Permutation, list_elem_of_filter, elem_of_elements. done.
Qed.
Lemma plan_of_metadata p plan path :
  plan_of p = Some plan → normal path → path ∈ metadata_set p → stat_planned plan path.
Proof.
  intros (scopes & Hs & [= <-])%bind_Some Hp Hin. apply uncovered_elem; [|done|done].
  by apply (normalized_normal (elements (recursive_set p))).
Qed.
Lemma plan_of_checks p plan path :
  plan_of p = Some plan → normal path → path ∈ checks_set p → check_planned plan path.
Proof.
  intros (scopes & Hs & [= <-])%bind_Some Hp Hin. apply uncovered_elem; [|done|done].
  by apply (normalized_normal (elements (recursive_set p))).
Qed.
Lemma normal_parent path parent : normal path → path_parent path = Some parent → normal parent.
Proof.
  intros (names & Hn & ->). destruct (snoc_case names) as [->|(names' & x & ->)]; [by vm_compute|].
  rewrite render_parent by done. intros [= <-]. apply Forall_app in Hn as [Hn _]. by exists names'.
Qed.
Lemma plan_roots_reach e p roots root :
  root ∈ roots → ∃ p1, grows (plan_root e p1 root) (foldl (plan_root e) p roots).
Proof.
  revert p. induction roots as [|r roots IH]; intros p; [by intros ?%elem_of_nil|].
  intros [->|Hin]%elem_of_cons; cbn [foldl]; [exists p; apply plan_roots_grow|by apply IH].
Qed.
Section accounted.
Context (q : PlanSets) (plan : Reconciliation) (Hplan : plan_of q = Some plan).

Lemma reach_recursive p path : grows p q → settled path → path ∈ recursive_set p → below (recursive plan) path.
Proof. intros (Hr & _ & _) Hs Hin. apply (plan_of_recursive q plan path Hplan Hs). by apply Hr. Qed.
Lemma reach_metadata p path : grows p q → normal path → path ∈ metadata_set p → stat_planned plan path.
Proof. intros (_ & Hm & _) Hn Hin. apply (plan_of_metadata q plan path Hplan Hn). by apply Hm. Qed.
Lemma reach_checks p path : grows p q → normal path → path ∈ checks_set p → check_planned plan path.
Proof. intros (_ & _ & Hc) Hn Hin. apply (plan_of_checks q plan path Hplan Hn). by apply Hc. Qed.
Lemma in_recursive path p : path ∈ recursive_set (add_recursive [path] p).
Proof. cbn. set_solver. Qed.
Lemma in_metadata path p : path ∈ metadata_set (add_metadata path p).
Proof. cbn. set_solver. Qed.
Lemma in_checks path p : path ∈ checks_set (add_check path p).
Proof. cbn. set_solver. Qed.

Lemma plan_root_accounted e p root :
  settled (e_path e) → settled root → grows (plan_root e p root) q → root_accounted plan e root.
Proof.
  intros He Hroot Hg. unfold root_accounted. unfold plan_root in Hg.
  destruct (path_starts_with (e_path e) root) eqn:Hunder.
  - destruct (must_rescan e) eqn:Hmust.
    + split; [|done]. apply (reach_recursive _ _ Hg He), in_recursive.
    + set (p' := match path_parent (e_path e) with
        | Some parent => if path_starts_with parent root then add_metadata parent p else p | None => p end) in *.
      split.
      * destruct (has (e_flags e) ITEM_IS_DIR && negb (has (e_flags e) SUBTREE_CHANGE)).
        -- destruct (has (e_flags e) INODE_METADATA).
           ++ apply (reach_checks _ _ Hg (settled_normal _ He)), in_checks.
           ++ apply (reach_metadata _ _ Hg (settled_normal _ He)), in_metadata.
        -- apply (reach_recursive _ _ Hg He), in_recursive.
      * intros parent _ Hparent Hwithin. unfold p' in Hg. rewrite Hparent, Hwithin in Hg.
        apply (reach_metadata (add_metadata parent p)); [|by apply (normal_parent (e_path e)); [apply settled_normal|]|apply in_metadata].
        etrans; [|exact Hg]. repeat case_match; first [apply add_recursive_grows|apply add_metadata_grows|apply add_check_grows].
  - destruct (path_starts_with root (e_path e)) eqn:Habove; [|done]. destruct (must_rescan e); cbn [orb].
    + apply (reach_recursive _ _ Hg Hroot), in_recursive.
    + destruct (has (e_flags e) SUBTREE_CHANGE); [apply (reach_recursive _ _ Hg Hroot), in_recursive|].
      destruct (has (e_flags e) INODE_METADATA); [|done]. apply (reach_checks _ _ Hg (settled_normal _ Hroot)), in_checks.
Qed.
Lemma plan_volumes_accounted configured e p p2 root :
  plan_volumes configured e p = Some p2 → grows p2 q → e_path e = SYSTEM_VOLUMES → settled root → root ∈ configured →
  (path_starts_with root SYSTEM_VOLUMES = true → below (recursive plan) root) ∧
  (path_starts_with SYSTEM_VOLUMES root = true → stat_planned plan SYSTEM_VOLUMES).
Proof.
  unfold plan_volumes. intros (p' & Hp & [= <-])%bind_Some Hg Hpath Hroot Hin. split.
  - intros Hsv. apply (reach_recursive _ _ Hg Hroot). cbn. apply elem_of_union. left. apply elem_of_list_to_set, list_elem_of_filter. done.
  - intros Hsv. assert (Hex : existsb (λ root, path_starts_with SYSTEM_VOLUMES root) configured = true).
    { apply existsb_exists. exists root. by rewrite <-list_elem_of_In. }
    rewrite Hex, Hpath in Hp. apply (reach_metadata (add_metadata SYSTEM_VOLUMES p)).
    + etrans; [|etrans; [apply add_recursive_grows|exact Hg]]. destruct (path_in_namespace _ _); [|by injection Hp as <-].
      apply bind_Some in Hp as (scopes & _ & [= <-]). apply add_recursive_grows.
    + exists [lit "System"; lit "Volumes"]. split; [by_decide|by vm_compute].
    + apply in_metadata.
Qed.
Lemma plan_event_accounted configured cursor p e p2 :
  plan_event configured cursor p e = Some p2 → grows p2 q → Forall settled configured →
  (has (e_flags e) GLOBAL_HISTORY_INVALIDATION = true ∨ settled (e_path e)) →
  has (e_flags e) EVENT_HISTORY_DONE = false → covered_mount cursor e = false → accounts plan configured e.
Proof.
  intros Hp Hg Hc He Hdone Hmount. unfold plan_event in Hp. rewrite Hdone, Hmount in Hp. unfold accounts.
  rewrite Forall_forall in Hc. destruct (has (e_flags e) GLOBAL_HISTORY_INVALIDATION).
  { injection Hp as <-. apply Forall_forall. intros root Hin. apply (reach_recursive _ _ Hg (Hc root Hin)). cbn.
    apply elem_of_union. left. by apply elem_of_list_to_set. }
  destruct He as [?|He]; [done|]. destruct (negb (path_in_namespace (e_path e) configured)); [done|].
  destruct (broad_volumes configured e) eqn:Hbroad; apply Forall_forall; intros root Hin.
  - apply (plan_volumes_accounted configured e p p2); [done..| |by apply Hc|done].
    unfold broad_volumes in Hbroad. apply andb_true_iff in Hbroad as [[Hb _]%andb_true_iff _]. by apply bool_decide_eq_true in Hb.
  - injection Hp as <-. destruct (plan_roots_reach e p configured root Hin) as (p1 & Hp1).
    apply (plan_root_accounted e p1); [done|by apply Hc|by etrans].
Qed.
End accounted.

(** A plan accounts for every event, but for those it may skip. *)
Lemma plan_accounts roots configured events cursor :
  normalize_scopes roots = Some configured → Forall settled configured →
  ∃ plan, reconciliation_plan_with_history roots events cursor = Some plan ∧
    ∀ e, e ∈ events → has (e_flags e) GLOBAL_HISTORY_INVALIDATION = true ∨ settled (e_path e) →
      has (e_flags e) EVENT_HISTORY_DONE = false → covered_mount cursor e = false → accounts plan configured e.
Proof.
  intros Hn Hc. unfold reconciliation_plan_with_history. rewrite Hn. cbn [mbind option_bind].
  set (empty := {| recursive_set := ∅; metadata_set := ∅; checks_set := ∅ |}).
  destruct (plan_events_total configured cursor empty events) as [q Hq]. rewrite Hq. cbn [mbind option_bind].
  change (∃ plan, plan_of q = Some plan ∧ ∀ e, e ∈ events → has (e_flags e) GLOBAL_HISTORY_INVALIDATION = true ∨ settled (e_path e) →
      has (e_flags e) EVENT_HISTORY_DONE = false → covered_mount cursor e = false → accounts plan configured e).
  destruct (normalize_scopes_spec (elements (recursive_set q))) as (scopes & _ & Hs & _).
  assert (Hplan : ∃ plan, plan_of q = Some plan) by (unfold plan_of; rewrite Hs; by eexists).
  destruct Hplan as [plan Hplan]. exists plan. split; [done|]. intros e Hin He Hdone Hmount.
  destruct (plan_event_reaches configured cursor empty events q e Hq Hin) as (p1 & p2 & Hp & Hg).
  by apply (plan_event_accounted q plan Hplan configured cursor p1 e p2).
Qed.

(** *** Through the queue *)

Definition callback : Type := text * N * N.
Definition collect (roots : list text) (queue : list ChangeEvent) (c : callback) : list ChangeEvent :=
  let '(path, id, flags) := c in collect_event roots queue path id flags.
Definition is_control (flags : N) : bool := has flags (N.lor EVENT_HISTORY_DONE GLOBAL_HISTORY_INVALIDATION).
(** The event that a callback queues, if the queue has room. *)
Definition event_of (c : callback) : ChangeEvent :=
  let '(path, id, flags) := c in from_flags (if is_control flags then lit "/" else visible_path (system_path path)) id flags.
Definition touches (roots : list text) (c : callback) : bool :=
  let '(path, id, flags) := c in
  is_control flags || existsb (λ r, path_starts_with (visible_path (system_path path)) r || path_starts_with r (visible_path (system_path path))) roots.

Lemma has_lor a b mask : has (N.lor a b) mask = has a mask || has b mask.
Proof.
  unfold has. rewrite N.land_lor_distr_l, <-negb_andb. f_equal. apply eq_true_iff_eq.
  rewrite andb_true_iff, !N.eqb_eq. apply N.lor_eq_0_iff.
Qed.
Lemma has_land a mask mask' : has (N.land a mask) mask' = has a (N.land mask mask').
Proof. unfold has. by rewrite N.land_assoc. Qed.
(** A compacted queue asks for every root. *)
Definition reset (queue : list ChangeEvent) : Prop := ∃ e, e ∈ queue ∧ has (e_flags e) GLOBAL_HISTORY_INVALIDATION = true ∧ has (e_flags e) EVENT_HISTORY_DONE = false.
Lemma gathered_controls queue start :
  has start EVENT_HISTORY_DONE = false →
  has (foldl (λ combined event, N.lor combined (N.land (e_flags event) GLOBAL_HISTORY_INVALIDATION)) start queue) EVENT_HISTORY_DONE = false.
Proof.
  revert start. induction queue as [|e queue IH]; intros start Hs; [done|]. cbn [foldl]. apply IH.
  rewrite has_lor, Hs, has_land. unfold has. by rewrite N.land_0_r.
Qed.
Lemma collect_compacts roots queue path id flags :
  is_control flags = false → touches roots (path, id, flags) = true → queue_capacity ≤ length queue →
  Forall (λ e, has (e_flags e) GLOBAL_HISTORY_INVALIDATION = true ∧ has (e_flags e) EVENT_HISTORY_DONE = false)
    (collect_event roots queue path id flags) ∧ length (collect_event roots queue path id flags) = length roots.
Proof.
  intros Hcontrol Htouch Hlen. unfold collect_event. fold (is_control flags). rewrite Hcontrol. cbn [touches] in Htouch.
  rewrite Hcontrol in Htouch. cbn [orb] in Htouch. rewrite Htouch. cbn [negb]. rewrite (proj2 (Nat.leb_le _ _) Hlen).
  split; [|apply length_fmap]. apply Forall_fmap, Forall_forall. intros root _. cbn [compose from_flags e_flags]. split.
  - by rewrite has_lor.
  - rewrite has_lor. rewrite gathered_controls; [done|]. rewrite has_land. unfold has. by rewrite N.land_0_r.
Qed.
Lemma collect_keeps roots queue c e :
  roots ≠ [] → e ∈ queue → e ∈ collect roots queue c ∨ reset (collect roots queue c).
Proof.
  intros Hroots Hin. destruct c as [[path id] flags]. cbn [collect].
  destruct (is_control flags) eqn:Hcontrol.
  { left. unfold collect_event. fold (is_control flags). rewrite Hcontrol. apply elem_of_app. by left. }
  destruct (touches roots (path, id, flags)) eqn:Htouch.
  - destruct (le_lt_dec queue_capacity (length queue)) as [Hfull|Hroom].
    + right. destruct (collect_compacts roots queue path id flags Hcontrol Htouch Hfull) as [Hall Hlen].
      destruct (collect_event roots queue path id flags) as [|e' l]; [by destruct roots|]. apply Forall_cons in Hall as [He' _].
      exists e'. split; [left|done].
    + left. unfold collect_event. fold (is_control flags). rewrite Hcontrol. cbn [touches] in Htouch. rewrite Hcontrol in Htouch. cbn [orb] in Htouch.
      rewrite Htouch. cbn [negb]. rewrite (proj2 (Nat.leb_gt _ _) Hroom). apply elem_of_app. by left.
  - left. unfold collect_event. fold (is_control flags). rewrite Hcontrol. cbn [touches] in Htouch. rewrite Hcontrol in Htouch. cbn [orb] in Htouch.
    by rewrite Htouch.
Qed.
Lemma collect_adds roots queue c :
  roots ≠ [] → touches roots c = true → event_of c ∈ collect roots queue c ∨ reset (collect roots queue c).
Proof.
  intros Hroots Htouch. destruct c as [[path id] flags]. cbn [collect event_of].
  destruct (is_control flags) eqn:Hcontrol.
  { left. unfold collect_event. fold (is_control flags). rewrite Hcontrol. apply elem_of_app. right. by apply list_elem_of_singleton. }
  destruct (le_lt_dec queue_capacity (length queue)) as [Hfull|Hroom].
  - right. destruct (collect_compacts roots queue path id flags Hcontrol Htouch Hfull) as [Hall Hlen].
    destruct (collect_event roots queue path id flags) as [|e' l]; [by destruct roots|]. apply Forall_cons in Hall as [He' _].
    exists e'. split; [left|done].
  - left. unfold collect_event. fold (is_control flags). rewrite Hcontrol. cbn [touches] in Htouch. rewrite Hcontrol in Htouch. cbn [orb] in Htouch.
    rewrite Htouch. cbn [negb]. rewrite (proj2 (Nat.leb_gt _ _) Hroom). apply elem_of_app. right. by apply list_elem_of_singleton.
Qed.
Lemma collect_reset roots queue c : roots ≠ [] → reset queue → reset (collect roots queue c).
Proof. intros Hroots (e & He & Hf). destruct (collect_keeps roots queue c e Hroots He) as [?|?]; [by exists e|done]. Qed.
Lemma collected roots callbacks queue c :
  roots ≠ [] → c ∈ callbacks → touches roots c = true →
  event_of c ∈ foldl (collect roots) queue callbacks ∨ reset (foldl (collect roots) queue callbacks).
Proof.
  intros Hroots Hin Htouch.
  assert (Hkeep : ∀ l q, event_of c ∈ q ∨ reset q → event_of c ∈ foldl (collect roots) q l ∨ reset (foldl (collect roots) q l)).
  { clear Hin. induction l as [|c' l IH]; intros q Hq; [done|]. cbn [foldl]. apply IH.
    destruct Hq as [Hq|Hq]; [by apply collect_keeps|right; by apply collect_reset]. }
  revert queue. induction callbacks as [|c' callbacks IH]; intros queue; [by apply elem_of_nil in Hin|].
  apply elem_of_cons in Hin as [<-|Hin]; cbn [foldl]; [apply Hkeep; by apply collect_adds|by apply IH].
Qed.
Lemma below_trans scopes path root : below scopes root → path_starts_with path root = true → below scopes path.
Proof. intros (r & Hr & Hp) Hroot. exists r. split; [done|by apply (path_starts_with_trans path root)]. Qed.
(** Rescanning every root accounts for everything. *)
Lemma all_roots_account plan configured e : Forall (below (recursive plan)) configured → accounts plan configured e.
Proof.
  intros Hall. unfold accounts. destruct (has _ _); [done|]. destruct (negb _); [done|]. rewrite Forall_forall in Hall.
  destruct (broad_volumes _ _); apply Forall_forall; intros root Hin; specialize (Hall root Hin).
  - split; [done|]. intros Hsv. right. by apply (below_trans _ _ root).
  - unfold root_accounted. destruct (path_starts_with (e_path e) root) eqn:Hunder.
    + assert (Hpath : below (recursive plan) (e_path e)) by (by apply (below_trans _ _ root)).
      split; [repeat case_match; (done || by right)|]. intros parent _ _ Hp. right. by apply (below_trans _ _ root).
    + repeat case_match; (done || by right).
Qed.
End plan_proofs.

(** ** No change is lost *)

Section no_change_lost.
Context `{FileNamespaceLaws}.

Lemma covered_mount_control cursor e : covered_mount cursor e = true → has (e_flags e) GLOBAL_HISTORY_INVALIDATION = false.
Proof.
  unfold covered_mount. destruct cursor as [cursor|]; [|done]. intros [_ Hf]%andb_true_iff.
  rewrite !orb_true_iff, !N.eqb_eq in Hf. by destruct Hf as [[->| ->]| ->].
Qed.

(** When an ordinary event finds the queue full, the mark of the end of the
    history is not among the controls that are kept: no queued event has it
    any more, whatever was queued before. *)
Theorem full_queue_forgets_history_done roots queue path id flags :
  is_control flags = false → touches roots (path, id, flags) = true → queue_capacity ≤ length queue →
  Forall (λ e, has (e_flags e) EVENT_HISTORY_DONE = false) (collect_event roots queue path id flags).
Proof.
  intros Hcontrol Htouch Hfull. destruct (collect_compacts roots queue path id flags Hcontrol Htouch Hfull) as [Hall _].
  eapply Forall_impl; [exact Hall|]. by intros e [_ ?].
Qed.
End no_change_lost.

Lemma accounts_ordinary plan configured e root :
  has (e_flags e) GLOBAL_HISTORY_INVALIDATION = false → path_in_namespace (e_path e) configured = true →
  broad_volumes configured e = false → accounts plan configured e → root ∈ configured → root_accounted plan e root.
Proof. intros Hg Hp Hb. unfold accounts. rewrite Hg, Hp, Hb. cbn [negb]. rewrite Forall_forall. auto. Qed.

Lemma accounted_entry plan e root path parent :
  root_accounted plan e root → e_path e = path → must_rescan e = false → path_starts_with path root = true →
  has (e_flags e) ITEM_IS_DIR = false → path_parent path = Some parent → path_starts_with parent root = true →
  below (recursive plan) path ∧ stat_planned plan parent.
Proof.
  intros Ha <- Hm Hr Hdir Hp Hpr. unfold root_accounted in Ha. rewrite Hr, Hm, Hdir in Ha. cbn [andb] in Ha.
  destruct Ha as [? Hparent]. split; [done|by apply Hparent].
Qed.
Lemma accounted_directory plan e root path :
  root_accounted plan e root → e_path e = path → must_rescan e = false → path_starts_with path root = true →
  has (e_flags e) ITEM_IS_DIR = true → has (e_flags e) SUBTREE_CHANGE = false → has (e_flags e) INODE_METADATA = true →
  check_planned plan path.
Proof.
  intros Ha <- Hm Hr Hdir Hs Hi. unfold root_accounted in Ha. rewrite Hr, Hm, Hdir, Hs, Hi in Ha. by destruct Ha as [? _].
Qed.

(** ** A small namespace *)

Section witnesses.
#[local] Instance users_namespace : FileNamespace := {
  firmlinks := [{| physical := lit "/System/Volumes/Data/Users"; logical := lit "/Users" |}];
  same_firmlink_object _ := true;
  alias_verified _ := true;
  current_dir := lit "/";
}.
#[local] Instance users_namespace_laws : FileNamespaceLaws.
Proof.
  repeat constructor; [exists [lit "System"; lit "Volumes"; lit "Data"; lit "Users"]|exists [lit "Users"]]; (split; [by_decide|by vm_compute]).
Qed.
Definition sample_roots : list text := [lit "/System/Volumes/Data/Users/me"; lit "/opt"].
Definition sample_callbacks : list callback :=
  [(lit "/System/Volumes/Data/Users/me/new.txt", 5, 69632); (lit "/opt/dir", 6, 132096); (lit "/elsewhere", 7, 69632)]%N.

End witnesses.
