(* ===== verification/SnapshotLeases.v ===== *)
(** * core/src/snapshot_leases.rs: read leases

    A lease keeps a snapshot and the preferences of an operation of several
    requests.  Leases are bounded per kind of owner, renewed by every read and
    reclaimed when they expire.  The records are behind a mutex.  Granting and
    reading take it twice: once to drop what has expired, and once for their
    own work ([retain_locked], [get_locked]).  The steps are these critical
    sections, so operations of several threads interleave between them; the
    time of an operation is read before the lock is taken, so the times of the
    steps need not be in order. *)
From S2P Require Import Prelude Text Paths.

Definition WINDOW_LEASE_CAPACITY : nat := 128.
Definition too_many_leases : string := "Too many active snapshot leases; finish or cancel another operation".
Definition lease_expired : string := "SearchSnapshot lease expired or was released; restart the operation".
Inductive LeaseOwner := Window | Operation.
#[export] Instance lease_owner_dec : EqDecision LeaseOwner.
Proof. solve_decision. Defined.

(** A number in decimal ([Display] of the integers); every division by ten
    drops a bit, so one more than the number of bits is enough fuel. *)
Fixpoint digits_fuel (fuel : nat) (n : N) : text :=
  match fuel with
  | O => []
  | S fuel => if (n <? 10)%N then [48 + n]%N else digits_fuel fuel (n / 10) ++ [48 + n mod 10]%N
  end.
Definition decimal (n : N) : text := digits_fuel (S (N.to_nat (N.size n))) n.
Example decimal_report : decimal 0 = lit "0" ∧ decimal 40960 = lit "40960".
Proof. by vm_compute. Qed.

Section leases.
Context {Snapshot Preferences : Type} (generation : Snapshot → N) (process_id : N).

Record LeaseContext := { lease_snapshot : Snapshot; lease_preferences : Preferences }.
Record LeaseRecord := { context : LeaseContext; deadline : N; owner : LeaseOwner }.
(** The fields of [SnapshotLeases], and the static counter of tokens. *)
Record SnapshotLeases := { records : gmap text LeaseRecord; lifetime : N; capacity : nat; next_lease : N }.
Definition with_records (s : SnapshotLeases) (records : gmap text LeaseRecord) : SnapshotLeases :=
  {| records := records; lifetime := lifetime s; capacity := capacity s; next_lease := next_lease s |}.

(** [new] and [default] *)
Definition leases_new (lifetime : N) (capacity : nat) (next : N) : SnapshotLeases :=
  {| records := ∅; lifetime := lifetime; capacity := capacity; next_lease := next |}.
Definition leases_default (next : N) : SnapshotLeases := leases_new 300 8 next.

Definition owned (o : LeaseOwner) (records : gmap text LeaseRecord) : nat :=
  size (filter (λ kv : text * LeaseRecord, owner kv.2 = o) records).
Definition inventory_snapshots (s : SnapshotLeases) : list Snapshot * nat * nat :=
  let windows := owned Window (records s) in
  ((λ kv : text * LeaseRecord, lease_snapshot (context kv.2)) <$> map_to_list (records s), windows, size (records s) - windows).
(** How many records were dropped. *)
Definition discard_expired_at (s : SnapshotLeases) (now : N) : SnapshotLeases * nat :=
  let kept := filter (λ kv : text * LeaseRecord, ¬ (deadline kv.2 ≤ now)%N) (records s) in
  (with_records s kept, size (records s) - size kept).
(** [format!("{}-{}-{}", ...)] *)
Definition token (generation n : N) : text :=
  decimal process_id ++ lit "-" ++ decimal generation ++ lit "-" ++ decimal n.
Definition retain_locked (s : SnapshotLeases) (snapshot : Snapshot) (preferences : Preferences) (o : LeaseOwner) (now : N) :
    SnapshotLeases * result text :=
  let capacity_ := match o with Window => WINDOW_LEASE_CAPACITY | Operation => capacity s end in
  if capacity_ <=? owned o (records s) then (s, Err too_many_leases)
  else
    let id := token (generation snapshot) (next_lease s) in
    ({| records := <[id := {| context := {| lease_snapshot := snapshot; lease_preferences := preferences |};
                              deadline := now + lifetime s; owner := o |}]> (records s);
        lifetime := lifetime s; capacity := capacity s; next_lease := (next_lease s + 1) mod 2 ^ 64 |}, Ok id).
Definition retain_owned_at (s : SnapshotLeases) (snapshot : Snapshot) (preferences : Preferences) (o : LeaseOwner) (now : N) :=
  retain_locked (discard_expired_at s now).1 snapshot preferences o now.
Definition retain_at (s : SnapshotLeases) (snapshot : Snapshot) (preferences : Preferences) (now : N) :=
  retain_owned_at s snapshot preferences Operation now.
Definition get_locked (s : SnapshotLeases) (id : text) (now : N) : SnapshotLeases * result LeaseContext :=
  match records s !! id with
  | None => (s, Err lease_expired)
  | Some record =>
    (with_records s (<[id := {| context := context record; deadline := now + lifetime s; owner := owner record |}]> (records s)),
     Ok (context record))
  end.
Definition get_at (s : SnapshotLeases) (id : text) (now : N) : SnapshotLeases * result LeaseContext :=
  get_locked (discard_expired_at s now).1 id now.
Definition release (s : SnapshotLeases) (id : text) : SnapshotLeases * bool :=
  (with_records s (delete id (records s)), bool_decide (is_Some (records s !! id))).

(** ** Steps *)

(** The critical sections: a grant or a read is [ODiscard] at its time and
    later its own step. *)
Inductive LeaseOp :=
| ORetain (snapshot : Snapshot) (preferences : Preferences) (o : LeaseOwner) (now : N)
| OGet (id : text) (now : N)
| ODiscard (now : N)
| ORelease (id : text).
Definition lease_step (s : SnapshotLeases) (op : LeaseOp) : SnapshotLeases :=
  match op with
  | ORetain snapshot preferences o now => (retain_locked s snapshot preferences o now).1
  | OGet id now => (get_locked s id now).1
  | ODiscard now => (discard_expired_at s now).1
  | ORelease id => (release s id).1
  end.
Definition run (s : SnapshotLeases) (ops : list LeaseOp) : SnapshotLeases := foldl lease_step s ops.

(** ** Tokens *)

Definition decimal_value (t : text) : N := foldl (λ v c, 10 * v + (c - 48))%N 0%N t.
Lemma digits_value fuel n : (n < 2 ^ N.of_nat fuel)%N → decimal_value (digits_fuel fuel n) = n.
Proof.
  revert n. induction fuel as [|fuel IH]; intros n Hn; [simpl in Hn; cbn; lia|]. cbn [digits_fuel].
  destruct (N.ltb_spec n 10); [unfold decimal_value; cbn [foldl]; lia|].
  assert (Hq : (n / 10 < 2 ^ N.of_nat fuel)%N).
  { apply N.Div0.div_lt_upper_bound. rewrite Nat2N.inj_succ, N.pow_succ_r' in Hn. lia. }
  unfold decimal_value. rewrite foldl_app. fold (decimal_value (digits_fuel fuel (n / 10))). rewrite IH by done. cbn [foldl].
  pose proof (N.div_mod n 10 ltac:(done)). lia.
Qed.
Lemma decimal_spec n : decimal_value (decimal n) = n.
Proof.
  apply digits_value. rewrite Nat2N.inj_succ, N2Nat.id, N.pow_succ_r'. pose proof (N.size_gt n). lia.
Qed.
Lemma digits_plain fuel n : 45%N ∉ digits_fuel fuel n.
Proof.
  revert n. induction fuel as [|fuel IH]; intros n; cbn [digits_fuel]; [by intros ?%elem_of_nil|].
  destruct (n <? 10)%N; [intros ?%list_elem_of_singleton; lia|].
  intros [Hin|Hin%list_elem_of_singleton]%elem_of_app; [by apply IH in Hin|lia].
Qed.
Lemma token_segments g n : split_char 45 (token g n) = [decimal process_id; decimal g; decimal n].
Proof.
  unfold token. change (lit "-") with [45%N]. cbn [app].
  rewrite !split_char_app, split_char_one by apply digits_plain. done.
Qed.
Lemma token_inj g n g' n' : token g n = token g' n' → n = n'.
Proof.
  intros Heq%(f_equal (split_char 45)). rewrite !token_segments in Heq. injection Heq as _ Hn.
  by rewrite <-(decimal_spec n), <-(decimal_spec n'), Hn.
Qed.

(** ** The records *)

Definition issued (s : SnapshotLeases) : Prop :=
  ∀ id r, records s !! id = Some r → ∃ g m, id = token g m ∧ (m < next_lease s)%N.
Definition bounded (s : SnapshotLeases) : Prop :=
  owned Window (records s) ≤ WINDOW_LEASE_CAPACITY ∧ owned Operation (records s) ≤ capacity s.

Lemma owned_subseteq o m m' : m ⊆ m' → owned o m ≤ owned o m'.
Proof. intros Hsub. unfold owned. by apply map_subseteq_size, map_filter_subseteq_mono. Qed.
Lemma owned_insert_new o id r m :
  m !! id = None → owned o (<[id := r]> m) = owned o m + if decide (owner r = o) then 1 else 0.
Proof.
  intros Hid. unfold owned. case_decide as Ho.
  - rewrite map_filter_insert_True by done. rewrite map_size_insert_None; [lia|]. by apply map_lookup_filter_None_2; left.
  - rewrite map_filter_insert_not'; [lia|done|]. intros y Hy. congruence.
Qed.
Lemma owned_insert_same o id r r' m :
  m !! id = Some r → owner r' = owner r → owned o (<[id := r']> m) = owned o m.
Proof.
  intros Hid Hsame. unfold owned. destruct (decide (owner r = o)) as [Ho|Ho].
  - rewrite map_filter_insert_True by (cbn; congruence). apply map_size_insert_Some. exists r. by apply map_lookup_filter_Some_2.
  - rewrite map_filter_insert_not'; [done|cbn; congruence|]. intros y Hy. cbn. congruence.
Qed.
Lemma owned_total m : owned Window m + owned Operation m = size m.
Proof.
  induction m as [|id r m Hid IH] using map_ind; [done|]. rewrite !owned_insert_new, map_size_insert_None by done.
  destruct (owner r); [rewrite decide_True, decide_False by done|rewrite decide_False, decide_True by done]; lia.
Qed.
Lemma discard_lookup s now id :
  records (discard_expired_at s now).1 !! id =
  match records s !! id with Some r => if decide (deadline r ≤ now)%N then None else Some r | None => None end.
Proof.
  cbn. destruct (records s !! id) as [r|] eqn:Hid.
  - case_decide as Hd; [apply map_lookup_filter_None_2; right; intros r' ?; simplify_eq; by intros []|by apply map_lookup_filter_Some_2].
  - apply map_lookup_filter_None_2. by left.
Qed.
Lemma discard_subseteq s now : records (discard_expired_at s now).1 ⊆ records s.
Proof. apply map_filter_subseteq. Qed.

(** ** Steps keep the bounds and the leases *)

Lemma discard_fields s now :
  lifetime (discard_expired_at s now).1 = lifetime s ∧ capacity (discard_expired_at s now).1 = capacity s ∧
  next_lease (discard_expired_at s now).1 = next_lease s.
Proof. done. Qed.
Lemma discard_issued s now : issued s → issued (discard_expired_at s now).1.
Proof. intros Hs id r Hid. apply (Hs id r). exact (lookup_weaken _ _ _ _ Hid (discard_subseteq s now)). Qed.
Lemma discard_bounded s now : bounded s → bounded (discard_expired_at s now).1.
Proof.
  intros [Hw Ho]. pose proof (discard_subseteq s now) as Hsub. split; (etrans; [by apply owned_subseteq|done]).
Qed.
Lemma fresh_token s g : issued s → records s !! token g (next_lease s) = None.
Proof.
  intros Hs. destruct (records s !! token g (next_lease s)) as [r|] eqn:Hr; [|done].
  destruct (Hs _ r Hr) as (g' & m & Heq%token_inj & Hm). lia.
Qed.
(** One more lease is granted when its owner has room; the token is new. *)
Lemma retain_spec s snapshot preferences o now :
  issued s → (next_lease s + 1 < 2 ^ 64)%N →
  let id := token (generation snapshot) (next_lease s) in
  let r := {| context := {| lease_snapshot := snapshot; lease_preferences := preferences |}; deadline := now + lifetime s; owner := o |} in
  records s !! id = None ∧
  ((retain_locked s snapshot preferences o now = (s, Err too_many_leases) ∧
    match o with Window => WINDOW_LEASE_CAPACITY | Operation => capacity s end ≤ owned o (records s)) ∨
   (retain_locked s snapshot preferences o now =
      ({| records := <[id := r]> (records s); lifetime := lifetime s; capacity := capacity s; next_lease := next_lease s + 1 |}, Ok id) ∧
    owned o (records s) < match o with Window => WINDOW_LEASE_CAPACITY | Operation => capacity s end)).
Proof.
  intros Hs Hnext id r. split; [by apply fresh_token|]. unfold retain_locked. rewrite N.mod_small by done.
  destruct (Nat.leb_spec match o with Window => WINDOW_LEASE_CAPACITY | Operation => capacity s end (owned o (records s))); [by left|by right].
Qed.

Definition leases_ok (s : SnapshotLeases) : Prop := issued s ∧ bounded s.
Lemma lease_step_ok s op :
  leases_ok s → (next_lease s + 1 < 2 ^ 64)%N →
  leases_ok (lease_step s op) ∧ capacity (lease_step s op) = capacity s ∧ lifetime (lease_step s op) = lifetime s ∧
  (next_lease s ≤ next_lease (lease_step s op) ≤ next_lease s + 1)%N.
Proof.
  intros [Hi Hb] Hnext. destruct op as [snapshot preferences o now|id now|now|id]; cbn [lease_step].
  - destruct (retain_spec s snapshot preferences o now Hi Hnext) as [Hfresh [[-> _]|[-> Hroom]]]; cbn [fst capacity lifetime next_lease].
    { split_and!; [by split|done..|lia|lia]. }
    split_and!; [|done..|lia|lia]. destruct Hb as [Hbw Hbo]. split.
    + intros id r Hr. cbn [records next_lease] in *. apply lookup_insert_Some in Hr as [[<- _]|[_ Hr]].
      * exists (generation snapshot), (next_lease s). split; [done|lia].
      * destruct (Hi id r Hr) as (g & m & ? & Hm). exists g, m. split; [done|lia].
    + unfold bounded. cbn [records capacity]. rewrite !owned_insert_new by done. cbn [owner].
      destruct o; [rewrite decide_True, decide_False by done|rewrite decide_False, decide_True by done]; split; lia.
  - unfold get_locked. destruct (records s !! id) as [r|] eqn:Hr; cbn [fst]; [|split_and!; [done|done..|lia|lia]].
    split_and!; [|done..|cbn; lia|cbn; lia]. split.
    + intros id' r' Hr'. cbn [records with_records next_lease] in *. apply lookup_insert_Some in Hr' as [[<- _]|[_ Hr']]; [by apply (Hi id r)|by apply (Hi id' r')].
    + unfold bounded. cbn [records with_records capacity]. by rewrite !(owned_insert_same _ id r) by done.
  - split_and!; [split; [by apply discard_issued|by apply discard_bounded]|done..|cbn; lia|cbn; lia].
  - split_and!; [|done..|cbn; lia|cbn; lia]. destruct Hb as [Hbw Hbo]. split.
    + intros id' r Hr. cbn in Hr. apply lookup_delete_Some in Hr as [_ Hr]. by apply (Hi id' r).
    + split; (etrans; [apply owned_subseteq, delete_subseteq|done]).
Qed.
Lemma run_ok s ops :
  leases_ok s → (next_lease s + N.of_nat (length ops) < 2 ^ 64)%N →
  leases_ok (run s ops) ∧ capacity (run s ops) = capacity s ∧ lifetime (run s ops) = lifetime s.
Proof.
  unfold run. revert s. induction ops as [|op ops IH]; intros s Hs Hnext; [done|]. cbn [length] in Hnext. cbn [foldl].
  destruct (lease_step_ok s op Hs ltac:(lia)) as (Hs' & Hc & Hl & Hn). destruct (IH (lease_step s op) Hs' ltac:(lia)) as (? & ? & ?).
  split_and!; [done|congruence..].
Qed.
(** A lease that is not released is kept by steps that drop nothing at its
    deadline or later. *)
Definition before (limit : N) (id : text) (op : LeaseOp) : Prop :=
  match op with
  | ODiscard now => (now < limit)%N
  | ORetain _ _ _ _ | OGet _ _ => True
  | ORelease id' => id' ≠ id
  end.
Definition held (s : SnapshotLeases) (limit : N) (id : text) (c : LeaseContext) : Prop :=
  ∃ r, records s !! id = Some r ∧ context r = c ∧ (limit ≤ deadline r)%N.
Lemma discard_held s limit id c now : held s limit id c → (now < limit)%N → held (discard_expired_at s now).1 limit id c.
Proof.
  intros (r & Hr & Hc & Hd) Hnow. exists r. split_and!; [|done|done]. rewrite discard_lookup, Hr, decide_False by lia. done.
Qed.
Lemma lease_step_held s limit id c op start :
  leases_ok s → (next_lease s + 1 < 2 ^ 64)%N → held s limit id c → before limit id op → (limit ≤ start + lifetime s)%N →
  match op with OGet _ now => (start ≤ now)%N | _ => True end → held (lease_step s op) limit id c.
Proof.
  intros [Hi Hb] Hnext Hheld Hbefore Hlimit Hstart. destruct op as [snapshot preferences o now|id' now|now|id']; cbn [lease_step before] in *.
  - destruct Hheld as (r & Hr & Hc & Hd).
    destruct (retain_spec s snapshot preferences o now Hi Hnext) as [Hfresh [[-> _]|[-> _]]]; cbn [fst]; [by exists r|].
    exists r. split_and!; [|done|done]. cbn [records]. rewrite lookup_insert_ne; [done|]. intros <-. congruence.
  - destruct Hheld as (r & Hr & Hc & Hd). unfold get_locked.
    destruct (records s !! id') as [r'|] eqn:Hr'; cbn [fst]; [|by exists r]. destruct (decide (id' = id)) as [->|Hne].
    + simplify_eq. eexists. split_and!; [apply lookup_insert_eq|done|cbn; lia].
    + exists r. split_and!; [|done|done]. cbn. by rewrite lookup_insert_ne.
  - by apply discard_held.
  - destruct Hheld as (r & Hr & Hc & Hd). exists r. split_and!; [|done|done]. cbn. by rewrite lookup_delete_ne.
Qed.
Lemma run_held s limit id c ops start :
  leases_ok s → (next_lease s + N.of_nat (length ops) < 2 ^ 64)%N → held s limit id c → Forall (before limit id) ops →
  (limit ≤ start + lifetime s)%N → Forall (λ op, match op with OGet _ now => (start ≤ now)%N | _ => True end) ops →
  held (run s ops) limit id c.
Proof.
  unfold run. revert s. induction ops as [|op ops IH]; intros s Hs Hnext Hheld Hbefore Hlimit Hstart; [done|]. cbn [length] in Hnext. cbn [foldl].
  apply Forall_cons in Hbefore as [Hb Hbefore]. apply Forall_cons in Hstart as [Ht Hstart].
  destruct (lease_step_ok s op Hs ltac:(lia)) as (Hs' & Hc & Hl & Hn).
  apply IH; [done|lia| |done|rewrite Hl; done|done]. apply (lease_step_held s limit id c op start); [done|lia|done..].
Qed.
Lemma new_ok lifetime_ capacity_ next : leases_ok (leases_new lifetime_ capacity_ next).
Proof. split; [intros id r Hr; cbn in Hr; by apply lookup_empty_Some in Hr|]. split; unfold owned; cbn; rewrite map_filter_empty, map_size_empty; lia. Qed.
Lemma run_counter ops s :
  leases_ok s → (next_lease s + N.of_nat (length ops) < 2 ^ 64)%N → (next_lease (run s ops) ≤ next_lease s + N.of_nat (length ops))%N.
Proof.
  unfold run. revert s. induction ops as [|op ops IH]; intros s Hs Hl; cbn [foldl length]; [lia|]. cbn [length] in Hl.
  destruct (lease_step_ok s op Hs ltac:(lia)) as (Hs1 & _ & _ & ?). specialize (IH (lease_step s op) Hs1 ltac:(lia)). lia.
Qed.

(** ** Bounded, and held *)

(** Leases are bounded.  After any interleaving of critical sections at any
    times, windows hold at most their 128 leases and operations at most their
    capacity, and the inventory counts them; a further lease is granted, with a
    new token, to exactly the owners that have room (each drops what has
    expired first), so windows cannot use up the leases of operations. *)
Theorem leases_are_bounded lifetime_ capacity_ next ops :
  (next + N.of_nat (length ops) + 1 < 2 ^ 64)%N →
  let s := run (leases_new lifetime_ capacity_ next) ops in
  owned Window (records s) ≤ WINDOW_LEASE_CAPACITY ∧ owned Operation (records s) ≤ capacity_ ∧
  (inventory_snapshots s).1.2 = owned Window (records s) ∧ (inventory_snapshots s).2 = owned Operation (records s) ∧
  ∀ snapshot preferences o now,
    let room := owned o (records s) <? match o with Window => WINDOW_LEASE_CAPACITY | Operation => capacity_ end in
    match (retain_locked s snapshot preferences o now).2 with
    | Ok id => room = true ∧ records s !! id = None
    | Err e => room = false ∧ e = too_many_leases
    end.
Proof.
  intros Hnext s. destruct (run_ok (leases_new lifetime_ capacity_ next) ops (new_ok _ _ _) ltac:(cbn; lia)) as ([Hi [Hw Ho]] & Hc & _).
  fold s in Hi, Hw, Ho, Hc. rewrite Hc in Ho. cbn [leases_new capacity] in Hc, Ho. split_and!; [done|done|done| |].
  - unfold inventory_snapshots. cbn [snd]. pose proof (owned_total (records s)). lia.
  - assert (Hn : (next_lease s + 1 < 2 ^ 64)%N).
    { pose proof (run_counter ops (leases_new lifetime_ capacity_ next) (new_ok _ _ _) ltac:(cbn; lia)) as Hn. fold s in Hn. cbn in Hn. lia. }
    intros snapshot preferences o now room.
    destruct (retain_spec s snapshot preferences o now Hi Hn) as [Hfresh [[-> Hfull]|[-> Hroom]]]; rewrite Hc in *; cbn [snd].
    + split; [|done]. unfold room. by apply Nat.ltb_ge.
    + split; [|done]. unfold room. by apply Nat.ltb_lt.
Qed.
End leases.

(** ** A small service *)

Lemma leases_are_bounded_witness :
  let s := run (λ g : N, g) 7 (leases_new 10 1 1) [ODiscard 0; ORetain 3%N () Operation 0; ODiscard 1; ORetain 4%N () Window 1]%N in
  owned Window (records s) ≤ WINDOW_LEASE_CAPACITY ∧ owned Operation (records s) ≤ 1 ∧
  (retain_locked (λ g : N, g) 7 s 5%N () Operation 2).2 = Err too_many_leases.
Proof.
  intros s. destruct (leases_are_bounded (λ g : N, g) 7 10 1 1 [ODiscard 0; ORetain 3%N () Operation 0; ODiscard 1; ORetain 4%N () Window 1]%N)
    as (Hw & Ho & _ & _ & Hretain); [by vm_compute|]. split_and!; [exact Hw|exact Ho|].
  specialize (Hretain 5%N () Operation 2%N). cbv zeta in Hretain. fold s in Hretain.
  destruct (retain_locked (λ g : N, g) 7 s 5%N () Operation 2).2 as [id|e]; [|by destruct Hretain as [_ ->]].
  destruct Hretain as [Hroom _]. vm_compute in Hroom. done.
Defined.
