(* ===== verification/WorkerBudget.v ===== *)
(** * core/src/cpu_executor.rs, [WorkerBudget]: admission of CPU work

    Threads take permits from an atomic counter; a saturated request waits on
    a condition variable, background work yields to waiting queries.  The
    model is a step relation: every request is a program counter, every
    atomic operation, lock, wait and notification is a step, and steps of
    different requests interleave in any order.  Atomics are sequentially
    consistent, also the relaxed ones of the query and background counters;
    executions that relaxed ordering adds are not in the model.  The theorems:
    permits and counters are exact, no wakeup is lost, and every request is
    served or cancelled once the checkpoints of background work and spurious
    wakeups cease; checkpoints without end can overtake a woken query. *)
From S2P Require Import Prelude.

Definition MAX_CPU_THREADS : nat := 8.
(** [thread_count]: half of the processors, between one and eight. *)
Definition thread_count (available : nat) : nat := (1 `max` (div_ceil available 2)) `min` MAX_CPU_THREADS.

Record Shared := {
  available : nat;
  foreground_waiters : nat;
  waiters : nat;
  background_active : nat;
  wake_lock : option nat;      (* the request that holds the mutex *)
}.
Definition budget_new (capacity : nat) : Shared :=
  {| available := capacity; foreground_waiters := 0; waiters := 0; background_active := 0; wake_lock := None |}.
Definition with_available (n : nat) (s : Shared) : Shared := {| available := n;
  foreground_waiters := foreground_waiters s; waiters := waiters s; background_active := background_active s;
  wake_lock := wake_lock s |}.
Definition with_foreground (n : nat) (s : Shared) : Shared := {| available := available s;
  foreground_waiters := n; waiters := waiters s; background_active := background_active s; wake_lock := wake_lock s |}.
Definition with_waiters (n : nat) (s : Shared) : Shared := {| available := available s;
  foreground_waiters := foreground_waiters s; waiters := n; background_active := background_active s;
  wake_lock := wake_lock s |}.
Definition with_active (n : nat) (s : Shared) : Shared := {| available := available s;
  foreground_waiters := foreground_waiters s; waiters := waiters s; background_active := n; wake_lock := wake_lock s |}.
Definition with_lock (o : option nat) (s : Shared) : Shared := {| available := available s;
  foreground_waiters := foreground_waiters s; waiters := waiters s; background_active := background_active s;
  wake_lock := o |}.

(** How a request ends: a permit given back, a query cancelled, an optional
    permit refused, or a [wake] done. *)
Inductive Outcome := Served | Cancelled | Refused | Woke.
(** What follows a dropped permit; [Again] is [checkpoint] re-entering. *)
Inductive Next := Finish (o : Outcome) | Again.
(** The next operation of a request. *)
Inductive PC :=
(* enter *)
| FEnter | FFast | FLock | FWaiters | FForeground | FCheck | FTry | FLeave | FLeaveWaiters | FUnlock
| FCancel | FCancelWaiters | FCancelNotify | FCancelUnlock | FSleep | FAsleep | FWoken
(* enter_background *)
| BLock | BWaiters | BForeground | BActive | BAvailable | BTry | BActivate | BLeave | BUnlock
| BSleep | BAsleep | BWoken
(* acquire, acquire_all *)
| AForeground (maximum : nat) | ATake (maximum : nat) | XForeground (n : nat) | XTake (n : nat)
(* a permit, and its drop *)
| Holding (count : nat) (background : bool)
| DActive (count : nat) (next : Next) | DAdd (count : nat) (next : Next) | DLoad (next : Next) | DLock (next : Next)
| DNotify (next : Next) | DUnlock (next : Next)
(* wake *)
| WLock | WNotify | WUnlock
| Done (o : Outcome).

(** [try_acquire_exact] and [try_acquire]: one atomic [fetch_update]. *)
Definition take_exact (count : nat) (s : Shared) : option Shared :=
  if count =? 0 then None
  else if count <=? available s then Some (with_available (available s - count) s) else None.
Definition take_some (maximum : nat) (s : Shared) : option (nat * Shared) :=
  let count := maximum `min` available s in
  if count =? 0 then None else Some (count, with_available (available s - count) s).
(** Locking blocks while another request has the mutex. *)
Definition lock_then (s : Shared) (me : nat) (pc : PC) : option (Shared * PC * bool) :=
  match wake_lock s with None => Some (with_lock (Some me) s, pc, false) | Some _ => None end.
Definition unlock_then (s : Shared) (pc : PC) : option (Shared * PC * bool) := Some (with_lock None s, pc, false).
Definition goes (s : Shared) (pc : PC) : option (Shared * PC * bool) := Some (s, pc, false).
Definition finish (next : Next) : PC := match next with Finish o => Done o | Again => BLock end.

(** [enter]. *)
Definition enter_step (s : Shared) (me : nat) (cancelled : bool) (pc : PC) : option (Shared * PC * bool) :=
  match pc with
  | FEnter => goes s (if cancelled then Done Cancelled else FFast)
  | FFast => match take_exact 1 s with Some s => goes s (Holding 1 false) | None => goes s FLock end
  | FLock => lock_then s me FWaiters
  | FWaiters => goes (with_waiters (waiters s + 1) s) FForeground
  | FForeground => goes (with_foreground (foreground_waiters s + 1) s) FCheck
  | FCheck => goes s (if cancelled then FCancel else FTry)
  | FTry => match take_exact 1 s with Some s => goes s FLeave | None => goes s FSleep end
  | FLeave => goes (with_foreground (foreground_waiters s - 1) s) FLeaveWaiters
  | FLeaveWaiters => goes (with_waiters (waiters s - 1) s) FUnlock
  | FUnlock => unlock_then s (Holding 1 false)
  | FCancel => goes (with_foreground (foreground_waiters s - 1) s) FCancelWaiters
  | FCancelWaiters => goes (with_waiters (waiters s - 1) s) FCancelNotify
  | FCancelNotify => Some (s, FCancelUnlock, true)
  | FCancelUnlock => unlock_then s (Done Cancelled)
  | FSleep => unlock_then s FAsleep
  | FAsleep => None
  | FWoken => lock_then s me FCheck
  | _ => None
  end.
(** [enter_background]. *)
Definition background_step (s : Shared) (me : nat) (pc : PC) : option (Shared * PC * bool) :=
  match pc with
  | BLock => lock_then s me BWaiters
  | BWaiters => goes (with_waiters (waiters s + 1) s) BForeground
  | BForeground => goes s (if foreground_waiters s =? 0 then BTry else BActive)
  | BActive => goes s (if background_active s =? 0 then BAvailable else BSleep)
  | BAvailable => goes s (if 1 <? available s then BTry else BSleep)
  | BTry => match take_exact 1 s with Some s => goes s BActivate | None => goes s BSleep end
  | BActivate => goes (with_active (background_active s + 1) s) BLeave
  | BLeave => goes (with_waiters (waiters s - 1) s) BUnlock
  | BUnlock => unlock_then s (Holding 1 true)
  | BSleep => unlock_then s BAsleep
  | BAsleep => None
  | BWoken => lock_then s me BForeground
  | _ => None
  end.
(** [acquire] and [acquire_all]: a permit now or none. *)
Definition acquire_step (s : Shared) (me : nat) (pc : PC) : option (Shared * PC * bool) :=
  match pc with
  | AForeground maximum => goes s (if 0 <? foreground_waiters s then Done Refused else ATake maximum)
  | ATake maximum =>
    match take_some maximum s with
    | Some (count, s) => goes s (if count <=? 1 then DAdd count (Finish Refused) else Holding count false)
    | None => goes s (Done Refused)
    end
  | XForeground n => goes s (if 0 <? foreground_waiters s then Done Refused else XTake n)
  | XTake n => match take_exact n s with Some s => goes s (Holding n false) | None => goes s (Done Refused) end
  | _ => None
  end.
(** [Drop for WorkerPermit]. *)
Definition drop_step (s : Shared) (me : nat) (pc : PC) : option (Shared * PC * bool) :=
  match pc with
  | DActive count next => goes (with_active (background_active s - 1) s) (DAdd count next)
  | DAdd count next => goes (with_available (available s + count) s) (DLoad next)
  | DLoad next => goes s (if waiters s =? 0 then finish next else DLock next)
  | DLock next => lock_then s me (DNotify next)
  | DNotify next => Some (s, DUnlock next, true)
  | DUnlock next => unlock_then s (finish next)
  | _ => None
  end.
(** [wake]. *)
Definition wake_step (s : Shared) (me : nat) (pc : PC) : option (Shared * PC * bool) :=
  match pc with
  | WLock => lock_then s me WNotify
  | WNotify => Some (s, WUnlock, true)
  | WUnlock => unlock_then s (Done Woke)
  | _ => None
  end.
(** One operation of a request; [true] is a [notify_all]. *)
Definition step_pc (s : Shared) (me : nat) (cancelled : bool) (pc : PC) : option (Shared * PC * bool) :=
  match pc with
  | FEnter | FFast | FLock | FWaiters | FForeground | FCheck | FTry | FLeave | FLeaveWaiters | FUnlock
  | FCancel | FCancelWaiters | FCancelNotify | FCancelUnlock | FSleep | FAsleep | FWoken => enter_step s me cancelled pc
  | BLock | BWaiters | BForeground | BActive | BAvailable | BTry | BActivate | BLeave | BUnlock | BSleep
  | BAsleep | BWoken => background_step s me pc
  | AForeground _ | ATake _ | XForeground _ | XTake _ => acquire_step s me pc
  | DActive _ _ | DAdd _ _ | DLoad _ | DLock _ | DNotify _ | DUnlock _ => drop_step s me pc
  | WLock | WNotify | WUnlock => wake_step s me pc
  | Holding _ _ | Done _ => None
  end.

(** Dropping a permit. *)
Definition drop_permit (count : nat) (background : bool) (next : Next) : PC :=
  if background then DActive count next else DAdd count next.
(** [notify_all] wakes every sleeping request. *)
Definition wake (pc : PC) : PC := match pc with FAsleep => FWoken | BAsleep => BWoken | _ => pc end.

Record State := { shared : Shared; pcs : list PC; cancelled : gset nat }.
Definition initial_pc (pc : PC) : bool :=
  match pc with FEnter | BLock | AForeground _ | XForeground _ | WLock => true | _ => false end.
Definition started (capacity : nat) : State := {| shared := budget_new capacity; pcs := []; cancelled := ∅ |}.

(** A request runs; the holder of a permit drops it, or a background one
    reaches a checkpoint while queries wait; a request arrives; a query is
    cancelled; a sleeper wakes spuriously. *)
Inductive step : State → State → Prop :=
| step_run s i pc s' pc' notify :
    pcs s !! i = Some pc → step_pc (shared s) i (bool_decide (i ∈ cancelled s)) pc = Some (s', pc', notify) →
    step s {| shared := s'; pcs := <[i := pc']> (if notify then wake <$> pcs s else pcs s); cancelled := cancelled s |}
| step_drop s i count background :
    pcs s !! i = Some (Holding count background) →
    step s {| shared := shared s; pcs := <[i := drop_permit count background (Finish Served)]> (pcs s); cancelled := cancelled s |}
| step_checkpoint s i count :
    pcs s !! i = Some (Holding count true) → 0 < foreground_waiters (shared s) →
    step s {| shared := shared s; pcs := <[i := drop_permit count true Again]> (pcs s); cancelled := cancelled s |}
| step_arrive s pc :
    initial_pc pc = true → step s {| shared := shared s; pcs := pcs s ++ [pc]; cancelled := cancelled s |}
| step_cancel s i :
    i < length (pcs s) → i ∉ cancelled s → step s {| shared := shared s; pcs := pcs s; cancelled := {[i]} ∪ cancelled s |}
| step_spurious s i pc :
    pcs s !! i = Some pc → wake pc ≠ pc →
    step s {| shared := shared s; pcs := <[i := wake pc]> (pcs s); cancelled := cancelled s |}.
Definition reachable (capacity : nat) : State → Prop := rtc step (started capacity).

(** ** What each counter counts *)

(** The permits a request holds. *)
Definition permits (pc : PC) : nat :=
  match pc with
  | FLeave | FLeaveWaiters | FUnlock | BActivate | BLeave | BUnlock => 1
  | Holding n _ | DActive n _ | DAdd n _ => n
  | _ => 0
  end.
Definition registered (pc : PC) : nat :=
  match pc with
  | FForeground | FCheck | FTry | FLeave | FLeaveWaiters | FCancel | FCancelWaiters | FSleep | FAsleep | FWoken
  | BForeground | BActive | BAvailable | BTry | BActivate | BLeave | BSleep | BAsleep | BWoken => 1
  | _ => 0
  end.
Definition waiting_query (pc : PC) : nat :=
  match pc with FCheck | FTry | FLeave | FCancel | FSleep | FAsleep | FWoken => 1 | _ => 0 end.
Definition running_background (pc : PC) : nat :=
  match pc with BLeave | BUnlock | Holding _ true | DActive _ _ => 1 | _ => 0 end.
(** The request has the mutex. *)
Definition critical (pc : PC) : bool :=
  match pc with
  | FWaiters | FForeground | FCheck | FTry | FLeave | FLeaveWaiters | FUnlock | FCancel | FCancelWaiters
  | FCancelNotify | FCancelUnlock | FSleep | BWaiters | BForeground | BActive | BAvailable | BTry | BActivate | BLeave
  | BUnlock | BSleep | DNotify _ | DUnlock _ | WNotify | WUnlock => true
  | _ => false
  end.
(** A notification is on its way. *)
Definition notifying (pc : PC) : nat :=
  match pc with DLoad _ | DLock _ | DNotify _ | FCancelWaiters | FCancelNotify => 1 | _ => 0 end.
Definition total (w : PC → nat) (l : list PC) : nat := sum_list_with w l.

Lemma total_app w l k : total w (l ++ k) = total w l + total w k.
Proof. apply sum_list_with_app. Qed.
Lemma total_insert w l i pc pc' : l !! i = Some pc → total w (<[i := pc']> l) + w pc = total w l + w pc'.
Proof.
  revert i. induction l as [|x l IH]; intros [|i] Hi; try done; simpl in *; unfold total in *; simpl.
  - injection Hi as ->. lia.
  - specialize (IH i Hi). lia.
Qed.
Lemma total_elem w l i pc : l !! i = Some pc → w pc ≤ total w l.
Proof. intros Hi. apply sum_list_with_in, list_elem_of_lookup. eauto. Qed.
Lemma total_wake w l : (∀ pc, w (wake pc) = w pc) → total w (wake <$> l) = total w l.
Proof.
  intros Hw. induction l as [|x l IH]; [done|].
  change (w (wake x) + total w (wake <$> l) = w x + total w l). by rewrite Hw, IH.
Qed.
Definition woken (notify : bool) (l : list PC) : list PC := if notify then wake <$> l else l.
Lemma total_moved w notify l i pc pc' :
  (∀ pc, w (wake pc) = w pc) → l !! i = Some pc →
  total w (<[i := pc']> (woken notify l)) + w pc = total w l + w pc'.
Proof.
  intros Hw Hi. destruct notify; simpl; [|by apply total_insert].
  rewrite <-(Hw pc), <-(total_wake w l Hw). apply total_insert. by rewrite list_lookup_fmap, Hi.
Qed.

(** What one operation does to the counters and to the mutex. *)
Ltac operation :=
  cbn [step_pc enter_step background_step acquire_step drop_step wake_step] in *; unfold goes, lock_then, unlock_then, take_exact, take_some, finish in *; simpl in *;
  repeat case_match; simpl in *; simplify_eq; simpl in *;
  rewrite ?Nat.leb_le, ?Nat.leb_gt, ?Nat.eqb_eq, ?Nat.eqb_neq, ?Nat.ltb_lt, ?Nat.ltb_ge in *.
Lemma step_counts s me c pc s' pc' notify :
  step_pc s me c pc = Some (s', pc', notify) →
  registered pc ≤ waiters s → waiting_query pc ≤ foreground_waiters s → running_background pc ≤ background_active s →
  available s' + permits pc' = available s + permits pc ∧
  waiters s' + registered pc = waiters s + registered pc' ∧
  foreground_waiters s' + waiting_query pc = foreground_waiters s + waiting_query pc' ∧
  background_active s' + running_background pc = background_active s + running_background pc'.
Proof. intros Hs. destruct pc; operation; lia. Qed.
Lemma step_mutex s me c pc s' pc' notify :
  step_pc s me c pc = Some (s', pc', notify) → (critical pc = true → wake_lock s = Some me) →
  (critical pc' = true → wake_lock s' = Some me) ∧
  (critical pc' = false → wake_lock s' = if critical pc then None else wake_lock s) ∧
  (critical pc = false → critical pc' = true → wake_lock s = None).
Proof. intros Hs Hl. destruct pc; operation; naive_solver. Qed.
Lemma step_notifies s me c pc s' pc' notify :
  step_pc s me c pc = Some (s', pc', notify) →
  (notify = true → critical pc = true) ∧
  (notify = false → notifying pc ≤ notifying pc' ∨ waiters s = 0) ∧
  (available s' ≤ available s ∨ notifying pc' = 1) ∧
  (foreground_waiters s ≤ foreground_waiters s' ∨ permits pc' = 1 ∨ notifying pc' = 1) ∧
  (permits pc ≤ permits pc' ∨ notifying pc' = 1) ∧
  (critical pc = false → foreground_waiters s' = foreground_waiters s).
Proof. intros Hs. destruct pc; operation; repeat split; intros; try lia; try done; naive_solver lia. Qed.

(** ** The invariant *)

Definition sleeping_query (pc : PC) : Prop := pc = FSleep ∨ pc = FAsleep.
Definition sleeping_background (pc : PC) : Prop := pc = BSleep ∨ pc = BAsleep.
Definition yielding (pc : PC) : Prop := pc = BActive ∨ pc = BAvailable.
Definition cancelling (pc : PC) : Prop :=
  match pc with FCancel | FCancelWaiters | FCancelNotify | FCancelUnlock | Done Cancelled => True
  | DActive _ next | DAdd _ next | DLoad next | DLock next | DNotify next | DUnlock next => next = Finish Cancelled
  | _ => False end.
Record counted (capacity : nat) (sh : Shared) (l : list PC) : Prop := {
  c_permits : available sh + total permits l = capacity;
  c_waiters : waiters sh = total registered l;
  c_foreground : foreground_waiters sh = total waiting_query l;
  c_active : background_active sh = total running_background l;
}.
Definition exclusive (sh : Shared) (l : list PC) : Prop :=
  (∀ i pc, l !! i = Some pc → critical pc = true → wake_lock sh = Some i) ∧
  ∀ i, wake_lock sh = Some i → ∃ pc, l !! i = Some pc ∧ critical pc = true.
(** A request goes to sleep, or stays asleep, only where it must wait; where it
    need not any more, somebody will notify. *)
Record heard (sh : Shared) (l : list PC) : Prop := {
  h_query i pc : l !! i = Some pc → sleeping_query pc → 0 < available sh → 0 < total notifying l;
  h_background i pc : l !! i = Some pc → sleeping_background pc → 0 < available sh →
    0 < total notifying l ∨ 0 < foreground_waiters sh ∨ 0 < total permits l;
  h_yields i pc : l !! i = Some pc → yielding pc → 0 < foreground_waiters sh;
}.
Record inv (capacity : nat) (s : State) : Prop := {
  i_counted : counted capacity (shared s) (pcs s);
  i_exclusive : exclusive (shared s) (pcs s);
  i_heard : heard (shared s) (pcs s);
  i_cancelled i pc : pcs s !! i = Some pc → cancelling pc → i ∈ cancelled s;
}.

Lemma wake_weights pc : permits (wake pc) = permits pc ∧ registered (wake pc) = registered pc ∧
  waiting_query (wake pc) = waiting_query pc ∧ running_background (wake pc) = running_background pc ∧
  notifying (wake pc) = notifying pc ∧ critical (wake pc) = critical pc.
Proof. by destruct pc. Qed.
Lemma counted_step capacity sh l i pc sh' pc' notify c :
  counted capacity sh l → l !! i = Some pc → step_pc sh i c pc = Some (sh', pc', notify) →
  counted capacity sh' (<[i := pc']> (woken notify l)).
Proof.
  intros [Hp Hw Hf Ha] Hi Hs.
  assert (Htotal : ∀ w, (∀ pc, w (wake pc) = w pc) → total w (<[i := pc']> (woken notify l)) + w pc = total w l + w pc')
    by (intros w Hwake; by apply total_moved).
  pose proof (Htotal permits ltac:(by intros [])) as T1. pose proof (Htotal registered ltac:(by intros [])) as T2.
  pose proof (Htotal waiting_query ltac:(by intros [])) as T3.
  pose proof (Htotal running_background ltac:(by intros [])) as T4.
  pose proof (total_elem registered l i pc Hi). pose proof (total_elem waiting_query l i pc Hi).
  pose proof (total_elem running_background l i pc Hi).
  destruct (step_counts sh i c pc sh' pc' notify Hs) as (E1 & E2 & E3 & E4); [lia..|].
  split; lia.
Qed.
Lemma lookup_woken notify l j pc : woken notify l !! j = Some pc →
  ∃ old, l !! j = Some old ∧ pc = if notify then wake old else old.
Proof.
  unfold woken. destruct notify; [|by eauto]. rewrite list_lookup_fmap, fmap_Some. intros (old & ? & ->). eauto.
Qed.
(** A pc of the new state: the request that moved, or another one. *)
Lemma lookup_moved l i pc' notify j pcj :
  <[i := pc']> (woken notify l) !! j = Some pcj →
  (j = i ∧ pcj = pc') ∨ (j ≠ i ∧ ∃ old, l !! j = Some old ∧ pcj = if notify then wake old else old).
Proof.
  intros Hj. destruct (decide (i = j)) as [<-|Hne].
  - left. split; [done|]. pose proof (lookup_lt_Some _ _ _ Hj) as Hlt. rewrite length_insert in Hlt.
    rewrite list_lookup_insert_eq in Hj by done. congruence.
  - right. split; [done|]. rewrite list_lookup_insert_ne in Hj by done. by apply lookup_woken.
Qed.
Lemma exclusive_step sh l i pc sh' pc' notify c :
  exclusive sh l → l !! i = Some pc → step_pc sh i c pc = Some (sh', pc', notify) →
  exclusive sh' (<[i := pc']> (woken notify l)).
Proof.
  intros [Hown Hex] Hi Hs. destruct (step_mutex sh i c pc sh' pc' notify Hs (Hown i pc Hi)) as (Hin & Hout & Hfree).
  assert (Hlen : i < length (woken notify l)).
  { apply lookup_lt_Some in Hi. destruct notify; simpl; [by rewrite length_fmap|done]. }
  split.
  - intros j pcj Hj Hc. apply lookup_moved in Hj as [[-> ->]|(Hne & old & Hold & ->)]; [by apply Hin|].
    assert (Hcold : critical old = true) by (destruct notify; [by destruct old|done]).
    pose proof (Hown j old Hold Hcold) as Hj.
    destruct (critical pc') eqn:Ec.
    + destruct (critical pc) eqn:Ep; [pose proof (Hown i pc Hi Ep); congruence|]. rewrite Hfree in Hj; done.
    + rewrite (Hout eq_refl). destruct (critical pc) eqn:Ep; [|done]. pose proof (Hown i pc Hi Ep). congruence.
  - intros j Hj. destruct (critical pc') eqn:Ec.
    + rewrite (Hin eq_refl) in Hj. injection Hj as <-. exists pc'. by rewrite list_lookup_insert_eq.
    + rewrite (Hout eq_refl) in Hj. destruct (critical pc) eqn:Ep; [done|].
      destruct (Hex j Hj) as (pcj & Hpcj & Hcj). assert (j ≠ i) by congruence.
      rewrite list_lookup_insert_ne by done. destruct notify; simpl; [|by eauto].
      exists (wake pcj). rewrite list_lookup_fmap, Hpcj. split; [done|by destruct pcj].
Qed.
(** A notification on its way stays on its way until it is sent, and raising
    the capacity sends one. *)
Lemma pending_stays sh l i c pc sh' pc' :
  l !! i = Some pc → step_pc sh i c pc = Some (sh', pc', false) → 0 < waiters sh →
  0 < total notifying l ∨ available sh < available sh' → 0 < total notifying (<[i := pc']> l).
Proof.
  intros Hi Hs Hw Hor. destruct (step_notifies sh i c pc sh' pc' false Hs) as (_ & Hkeep & Hraise & _).
  pose proof (total_insert notifying l i pc pc' Hi) as T. pose proof (total_elem notifying l i pc Hi).
  destruct (Hkeep eq_refl) as [Hn|Hn]; [|lia]. destruct Hor as [Hor|Hor]; [lia|]. destruct Hraise as [Hr|Hr]; lia.
Qed.
Lemma falls_asleep sh i c pc sh' pc' notify :
  step_pc sh i c pc = Some (sh', pc', notify) →
  (sleeping_query pc' → notify = false ∧ notifying pc = 0 ∧ available sh' = available sh ∧
     (available sh = 0 ∨ sleeping_query pc)) ∧
  (sleeping_background pc' → notify = false ∧ notifying pc = 0 ∧ permits pc = 0 ∧ available sh' = available sh ∧
     foreground_waiters sh' = foreground_waiters sh ∧ (available sh = 0 ∨ sleeping_background pc ∨ yielding pc)) ∧
  (yielding pc' → foreground_waiters sh' = foreground_waiters sh ∧ (0 < foreground_waiters sh ∨ yielding pc)).
Proof.
  intros Hs. unfold sleeping_query, sleeping_background, yielding.
  destruct pc; operation; split_and!; intros; destruct_or?; try done; split_and!; try lia; naive_solver lia.
Qed.
Lemma heard_step capacity sh l i pc sh' pc' notify c :
  counted capacity sh l → exclusive sh l → heard sh l →
  l !! i = Some pc → step_pc sh i c pc = Some (sh', pc', notify) →
  heard sh' (<[i := pc']> (woken notify l)).
Proof.
  intros Hcount [Hown _] [Hq Hb Hy] Hi Hs.
  destruct (falls_asleep sh i c pc sh' pc' notify Hs) as (Fq & Fb & Fy).
  destruct (step_notifies sh i c pc sh' pc' notify Hs) as (Hcrit & Hkeep & Hraise & Hfg & Hperm & Hsame).
  (* Another critical request excludes that this one is. *)
  assert (Hother : ∀ j pcj, j ≠ i → l !! j = Some pcj → critical pcj = true → critical pc = false).
  { intros j pcj Hne Hj Hcj. destruct (critical pc) eqn:Ep; [|done].
    pose proof (Hown j pcj Hj Hcj). pose proof (Hown i pc Hi Ep). congruence. }
  assert (Hwait : ∀ j pcj, l !! j = Some pcj → registered pcj = 1 → 0 < waiters sh).
  { intros j pcj Hj Hr. rewrite (c_waiters _ _ _ Hcount). pose proof (total_elem registered l j pcj Hj). lia. }
  pose proof (total_insert notifying l i pc pc' Hi) as Tn. pose proof (total_insert permits l i pc pc' Hi) as Tp.
  pose proof (total_elem notifying (<[i := pc']> l) i pc') as En.
  pose proof (total_elem permits (<[i := pc']> l) i pc') as Ep.
  assert (Hi' : <[i := pc']> l !! i = Some pc') by (apply list_lookup_insert_eq; by apply lookup_lt_Some in Hi).
  specialize (En Hi'). specialize (Ep Hi').
  split; intros j pcj Hj Hcase.
  - intros Hav. apply lookup_moved in Hj as [[-> ->]|(Hne & old & Hold & ->)].
    + destruct (Fq Hcase) as (-> & Hn & Heq & [Hz|Hsl]); [lia|]. simpl. specialize (Hq i pc Hi Hsl ltac:(lia)). lia.
    + destruct notify.
      { exfalso. assert (old = FSleep) as -> by (destruct old, Hcase; done). specialize (Hother j _ Hne Hold eq_refl).
        rewrite Hcrit in Hother; done. }
      simpl. apply (pending_stays sh l i c pc sh' pc' Hi Hs).
      * apply (Hwait j old Hold). by destruct Hcase as [->| ->].
      * destruct (decide (0 < available sh)) as [H0|H0]; [left; by apply (Hq j old)|right; lia].
  - intros Hav. apply lookup_moved in Hj as [[-> ->]|(Hne & old & Hold & ->)].
    + destruct (Fb Hcase) as (-> & Hn & Hp & Heq & Hfeq & [Hz|[Hsl|Hyl]]); [lia| |].
      * simpl. specialize (Hb i pc Hi Hsl ltac:(lia)). lia.
      * specialize (Hy i pc Hi Hyl). lia.
    + destruct notify.
      { exfalso. assert (old = BSleep) as -> by (destruct old, Hcase; done). specialize (Hother j _ Hne Hold eq_refl).
        rewrite Hcrit in Hother; done. }
      assert (Hw : 0 < waiters sh) by (apply (Hwait j old Hold); by destruct Hcase as [->| ->]).
      pose proof (pending_stays sh l i c pc sh' pc' Hi Hs Hw) as Hpend. simpl.
      destruct (decide (0 < available sh)) as [H0|H0]; [|left; apply Hpend; lia].
      destruct (Hb j old Hold Hcase H0) as [Hn|[Hf|Hp]]; [left; apply Hpend; lia| |].
      * destruct Hfg as [Hfg|[Hfg|Hfg]]; [right; left; lia|right; right; lia|left; lia].
      * destruct Hperm as [Hperm|Hperm]; [right; right; lia|left; lia].
  - apply lookup_moved in Hj as [[-> ->]|(Hne & old & Hold & ->)].
    + destruct (Fy Hcase) as [-> [Hf|Hyl]]; [done|by apply (Hy i pc)].
    + assert (Hold' : yielding old) by (destruct notify; [destruct old, Hcase; try done; unfold yielding; auto|done]).
      rewrite Hsame; [by apply (Hy j old)|]. apply (Hother j old Hne Hold). by destruct Hold' as [->| ->].
Qed.

Lemma cancelling_step sh i c pc sh' pc' notify :
  step_pc sh i c pc = Some (sh', pc', notify) → cancelling pc' → c = true ∨ cancelling pc.
Proof. intros Hs. destruct pc; operation; intros; simplify_eq; auto; try tauto; destruct o; try done; auto. Qed.

(** Replacing a request by one that counts the same. *)
Definition same_weights (pc pc' : PC) : Prop :=
  permits pc' = permits pc ∧ registered pc' = registered pc ∧ waiting_query pc' = waiting_query pc ∧
  running_background pc' = running_background pc ∧ notifying pc' = notifying pc ∧ critical pc' = critical pc.
Lemma inv_replace capacity s i pc pc' :
  inv capacity s → pcs s !! i = Some pc → same_weights pc pc' →
  ¬ sleeping_query pc' → ¬ sleeping_background pc' → ¬ yielding pc' → ¬ cancelling pc' →
  inv capacity {| shared := shared s; pcs := <[i := pc']> (pcs s); cancelled := cancelled s |}.
Proof.
  intros [[Hp Hw Hf Ha] [Hown Hex] [Hq Hb Hy] Hc] Hi (S1 & S2 & S3 & S4 & S5 & S6) Nq Nb Ny Nc.
  assert (Htotal : ∀ w : PC → nat, w pc' = w pc → total w (<[i := pc']> (pcs s)) = total w (pcs s)).
  { intros w Heq. pose proof (total_insert w (pcs s) i pc pc' Hi). lia. }
  assert (Hlook : ∀ j pcj, <[i := pc']> (pcs s) !! j = Some pcj → (j = i ∧ pcj = pc') ∨ pcs s !! j = Some pcj).
  { intros j pcj Hj. destruct (lookup_moved (pcs s) i pc' false j pcj Hj) as [?|(_ & old & ? & ->)]; auto. }
  split; simpl.
  - split; by rewrite Htotal.
  - split.
    + intros j pcj [[-> ->]|Hj]%Hlook Hcj; [apply (Hown i pc Hi); congruence|by apply (Hown j pcj)].
    + intros j Hj. destruct (Hex j Hj) as (pcj & Hpcj & Hcj). destruct (decide (j = i)) as [->|Hne].
      * exists pc'. rewrite list_lookup_insert_eq by (by apply lookup_lt_Some in Hi). split; [done|]. congruence.
      * exists pcj. by rewrite list_lookup_insert_ne.
  - split; intros j pcj [[-> ->]|Hj]%Hlook Hcase; try done; rewrite ?Htotal by done; eauto.
  - intros j pcj [[-> ->]|Hj]%Hlook Hcase; [done|by apply (Hc j pcj)].
Qed.
Lemma inv_started capacity : inv capacity (started capacity).
Proof. split; [split; simpl; unfold total; simpl; lia|split; simpl; intros; done|split; simpl; intros; done|done]. Qed.
Lemma inv_arrive capacity s pc :
  inv capacity s → initial_pc pc = true →
  inv capacity {| shared := shared s; pcs := pcs s ++ [pc]; cancelled := cancelled s |}.
Proof.
  intros [[Hp Hw Hf Ha] [Hown Hex] [Hq Hb Hy] Hc] Hpc.
  assert (Htotal : ∀ w : PC → nat, w pc = 0 → total w (pcs s ++ [pc]) = total w (pcs s)).
  { intros w Hz. rewrite total_app. unfold total at 2. simpl. lia. }
  assert (Hlook : ∀ j pcj, (pcs s ++ [pc]) !! j = Some pcj → pcs s !! j = Some pcj ∨ pcj = pc).
  { intros j pcj [?|(? & [? Hj]%list_lookup_singleton_Some)]%lookup_app_Some; [by left|by right]. }
  split; simpl.
  - split; rewrite Htotal; try done; by destruct pc.
  - split.
    + intros j pcj [Hj| ->]%Hlook Hcj; [by apply (Hown j pcj)|by destruct pc].
    + intros j Hj. destruct (Hex j Hj) as (pcj & Hpcj & Hcj). exists pcj. split; [by apply lookup_app_l_Some|done].
  - split; intros j pcj [Hj| ->]%Hlook Hcase; rewrite ?Htotal by (by destruct pc); eauto; by destruct pc, Hcase.
  - intros j pcj [Hj| ->]%Hlook Hcase; [by apply (Hc j pcj)|by destruct pc].
Qed.
Lemma inv_step capacity s s' : inv capacity s → step s s' → inv capacity s'.
Proof.
  intros Hinv Hstep. destruct Hstep as [s i pc sh' pc' notify Hi Hs|s i n bg Hi|s i n Hi _|s pc Hpc|s i Hlt Hnew|s i pc Hi Hw].
  - destruct Hinv as [Hcount Hex Hheard Hc]. split; simpl.
    + by eapply counted_step.
    + by eapply exclusive_step.
    + by eapply heard_step.
    + intros j pcj Hj Hcase. apply lookup_moved in Hj as [[-> ->]|(_ & old & Hold & ->)].
      * destruct (cancelling_step _ _ _ _ _ _ _ Hs Hcase) as [Hb|Hb]; [by apply bool_decide_eq_true in Hb|by apply (Hc i pc)].
      * apply (Hc j old Hold). destruct notify; [by destruct old|done].
  - apply (inv_replace _ _ i _ _ Hinv Hi); unfold drop_permit, sleeping_query, sleeping_background, yielding;
      destruct bg; try naive_solver; by split_and!.
  - apply (inv_replace _ _ i _ _ Hinv Hi); unfold drop_permit, sleeping_query, sleeping_background, yielding;
      try naive_solver; by split_and!.
  - by apply inv_arrive.
  - destruct Hinv as [Hcount Hex Hheard Hc]. split; simpl; [done..|]. intros j pcj Hj Hcase.
    apply elem_of_union_r. by apply (Hc j pcj).
  - apply (inv_replace _ _ i _ _ Hinv Hi); unfold sleeping_query, sleeping_background, yielding;
      destruct pc; try done; try naive_solver; by split_and!.
Qed.
Lemma reachable_inv capacity s : reachable capacity s → inv capacity s.
Proof.
  intros Hr. unfold reachable in Hr. apply (rtc_ind_r (inv capacity) _ (inv_started capacity)) in Hr; [done|].
  intros s1 s2 _ Hstep Hinv. by apply (inv_step capacity s1).
Qed.

(** ** Permits are conserved *)

Lemma thread_count_bounds processors : 1 ≤ thread_count processors ≤ MAX_CPU_THREADS.
Proof. unfold thread_count, MAX_CPU_THREADS. lia. Qed.

Lemma idle_budget capacity sh l :
  counted capacity sh l → exclusive sh l → (∀ i pc, l !! i = Some pc → ∃ o, pc = Done o) → sh = budget_new capacity.
Proof.
  intros [Hp Hw Hf Ha] [_ Hex] Hdone.
  assert (Hzero : ∀ w : PC → nat, (∀ o, w (Done o) = 0) → total w l = 0).
  { intros w Hz. clear -Hdone Hz. revert Hdone. induction l as [|pc l IH]; intros Hdone; [done|].
    change (w pc + total w l = 0). destruct (Hdone 0 pc eq_refl) as [o ->]. rewrite Hz. apply IH.
    intros i pc Hi. by apply (Hdone (S i)). }
  rewrite Hzero in Hp, Hw, Hf, Ha by done.
  assert (Hlock : wake_lock sh = None).
  { destruct (wake_lock sh) as [i|] eqn:E; [|done]. destruct (Hex i eq_refl) as (pc & Hi & Hc).
    by destruct (Hdone i pc Hi) as [o ->]. }
  destruct sh as [av fg w ba lk]. simpl in *. unfold budget_new. f_equal; (lia || done).
Qed.

(** C30: The budget is exact in every reachable state, whatever the interleaving
    of admissions, refusals, cancellations, checkpoints and releases: the
    permits held and the permits available make up the capacity, the waiter,
    query and background counters count exactly the requests in those states
    (so no decrement ever wraps), at most one request has the mutex, and once
    every request has ended the budget is as it was made. *)
Theorem capacity_is_conserved capacity s :
  reachable capacity s →
  available (shared s) + total permits (pcs s) = capacity ∧
  waiters (shared s) = total registered (pcs s) ∧
  foreground_waiters (shared s) = total waiting_query (pcs s) ∧
  background_active (shared s) = total running_background (pcs s) ∧
  (∀ i j pci pcj, pcs s !! i = Some pci → pcs s !! j = Some pcj → critical pci = true → critical pcj = true → i = j) ∧
  ((∀ i pc, pcs s !! i = Some pc → ∃ o, pc = Done o) → shared s = budget_new capacity).
Proof.
  intros Hr. destruct (reachable_inv capacity s Hr) as [Hcount Hexcl _ _].
  pose proof Hcount as [Hp Hw Hf Ha]. pose proof Hexcl as [Hown _]. split_and!; try done.
  - intros i j pci pcj Hi Hj Hci Hcj. pose proof (Hown i pci Hi Hci). pose proof (Hown j pcj Hj Hcj). congruence.
  - intros Hdone. by apply (idle_budget _ _ (pcs s)).
Qed.

(** ** Every request ends *)

(** The requests already there run to their end: they move, holders drop, and
    queries may still be cancelled. *)
Inductive progress : State → State → Prop :=
| progress_run s i pc s' pc' notify :
    pcs s !! i = Some pc → step_pc (shared s) i (bool_decide (i ∈ cancelled s)) pc = Some (s', pc', notify) →
    progress s {| shared := s'; pcs := <[i := pc']> (woken notify (pcs s)); cancelled := cancelled s |}
| progress_drop s i count background :
    pcs s !! i = Some (Holding count background) →
    progress s {| shared := shared s; pcs := <[i := drop_permit count background (Finish Served)]> (pcs s);
                  cancelled := cancelled s |}
| progress_cancel s i :
    i < length (pcs s) → i ∉ cancelled s →
    progress s {| shared := shared s; pcs := pcs s; cancelled := {[i]} ∪ cancelled s |}.
Lemma progress_step s s' : progress s s' → step s s'.
Proof. intros [? i pc ? ? ? Hi Hs|? i n bg Hi|? i Hi Hn]; [by eapply (step_run _ i pc)|by eapply step_drop|by apply step_cancel]. Qed.

(** How far a request is from its end, and the notifications it may send. *)
Definition again (next : Next) : nat := match next with Finish _ => 0 | Again => 18 end.
Definition distance (pc : PC) : nat :=
  match pc with
  | FEnter => 19 | FFast => 18 | FLock => 17 | FWaiters => 16 | FForeground => 15 | FWoken => 15 | FCheck => 14
  | FTry => 13 | FSleep => 12 | FAsleep => 11 | FLeave => 10 | FLeaveWaiters => 9 | FUnlock => 8
  | FCancel => 4 | FCancelWaiters => 3 | FCancelNotify => 2 | FCancelUnlock => 1
  | BLock => 18 | BWaiters => 17 | BWoken => 17 | BForeground => 16 | BActive => 15 | BAvailable => 14 | BTry => 13
  | BSleep => 12 | BAsleep => 11 | BActivate => 10 | BLeave => 9 | BUnlock => 8
  | AForeground _ | XForeground _ => 9 | ATake _ | XTake _ => 8
  | Holding _ _ => 7
  | DActive _ next => 6 + again next | DAdd _ next => 5 + again next | DLoad next => 4 + again next
  | DLock next => 3 + again next | DNotify next => 2 + again next | DUnlock next => 1 + again next
  | WLock => 3 | WNotify => 2 | WUnlock => 1
  | Done _ => 0
  end.
Definition notifications (pc : PC) : nat :=
  match pc with
  | FCancelUnlock | WUnlock | Done _ | DUnlock (Finish _) => 0
  | DActive _ Again | DAdd _ Again | DLoad Again | DLock Again | DNotify Again => 2
  | _ => 1
  end.
(** A notification sends every sleeper at most six operations back. *)
Definition uncancelled (s : State) : nat := size (set_seq 0 (length (pcs s)) ∖ cancelled s : gset nat).
Definition fuel (s : State) : nat :=
  total distance (pcs s) + total notifications (pcs s) * (6 * length (pcs s)) + uncancelled s.

Lemma distance_step sh i c pc sh' pc' notify :
  step_pc sh i c pc = Some (sh', pc', notify) →
  distance pc' < distance pc ∧ notifications pc' + (if notify then 1 else 0) ≤ notifications pc ∧
  (notify = true → distance (wake pc) = distance pc).
Proof. intros Hs. destruct pc; operation; try destruct next; simpl; lia. Qed.
Lemma total_wake_distance l : total distance (wake <$> l) ≤ total distance l + 6 * length l.
Proof.
  induction l as [|pc l IH]; [done|].
  change (distance (wake pc) + total distance (wake <$> l) ≤ distance pc + total distance l + 6 * S (length l)).
  assert (distance (wake pc) ≤ distance pc + 6) by (destruct pc; simpl; lia). lia.
Qed.
Lemma fuel_decreases s s' : progress s s' → fuel s' < fuel s.
Proof.
  intros [? i pc sh' pc' notify Hi Hs|? i n bg Hi|? i Hlt Hn]; unfold fuel, uncancelled; cbn [pcs cancelled].
  - destruct (distance_step _ _ _ _ _ _ _ Hs) as (Hd & Hn & Hw).
    pose proof (total_moved notifications notify (pcs s0) i pc pc' ltac:(by intros []) Hi) as T1.
    assert (Hlen : length (<[i:=pc']> (woken notify (pcs s0))) = length (pcs s0)).
    { rewrite length_insert. destruct notify; [apply length_fmap|done]. }
    rewrite Hlen. destruct notify; simpl woken in *.
    + assert (Hi' : wake <$> pcs s0 !! i = Some (wake pc)) by (by rewrite Hi).
      rewrite <-list_lookup_fmap in Hi'.
      pose proof (total_insert distance (wake <$> pcs s0) i (wake pc) pc' Hi') as T2.
      pose proof (total_wake_distance (pcs s0)). rewrite (Hw eq_refl) in T2. nia.
    + pose proof (total_insert distance (pcs s0) i pc pc' Hi) as T2. nia.
  - pose proof (total_insert distance (pcs s0) i _ (drop_permit n bg (Finish Served)) Hi) as T1.
    pose proof (total_insert notifications (pcs s0) i _ (drop_permit n bg (Finish Served)) Hi) as T2.
    rewrite length_insert. destruct bg; simpl in T1, T2 |- *; nia.
  - assert (Hsize : size (set_seq 0 (length (pcs s0)) ∖ ({[i]} ∪ cancelled s0) : gset nat) <
      size (set_seq 0 (length (pcs s0)) ∖ cancelled s0 : gset nat)).
    { apply subset_size. split; [set_solver|]. intros Hsub. assert (Hin : i ∈ (set_seq 0 (length (pcs s0)) ∖ cancelled s0 : gset nat)).
      { apply elem_of_difference. split; [|done]. apply elem_of_set_seq. lia. }
      apply Hsub in Hin. set_solver. }
    lia.
Qed.
Lemma fuel_bounds n s s' : nsteps progress n s s' → n + fuel s' ≤ fuel s.
Proof. induction 1 as [|n s1 s2 s3 Hstep _ IH]; [done|]. pose proof (fuel_decreases _ _ Hstep). lia. Qed.

(** Nothing but the mutex, sleep, a permit in use or its end stops a request. *)
Lemma step_blocked sh i c pc : step_pc sh i c pc = None →
  (critical pc = false ∧ wake_lock sh ≠ None) ∨ pc = FAsleep ∨ pc = BAsleep ∨ (∃ n bg, pc = Holding n bg) ∨ ∃ o, pc = Done o.
Proof.
  intros Hs. destruct pc; cbn [step_pc enter_step background_step acquire_step drop_step wake_step] in Hs;
    unfold goes, lock_then, unlock_then in Hs;
    repeat case_match; simplify_eq;
    first [left; split; [done|congruence]|right; left; done|do 2 right; left; done
      |do 3 right; left; by eexists _, _|do 4 right; by eexists].
Qed.
Lemma stuck_done capacity s :
  0 < capacity → inv capacity s → (¬ ∃ s', progress s s') → ∀ i pc, pcs s !! i = Some pc → ∃ o, pc = Done o.
Proof.
  intros Hcap [[Hp Hw Hf Ha] [Hown Hex] [Hq Hb _] _] Hstuck.
  assert (Hblocked : ∀ i pc, pcs s !! i = Some pc → step_pc (shared s) i (bool_decide (i ∈ cancelled s)) pc = None).
  { intros i pc Hi. destruct (step_pc _ i _ pc) as [[[sh' pc'] notify]|] eqn:E; [|done].
    destruct Hstuck. eexists. by eapply (progress_run s i pc). }
  assert (Hfree : wake_lock (shared s) = None).
  { destruct (wake_lock (shared s)) as [i|] eqn:E; [|done]. destruct (Hex i eq_refl) as (pc & Hi & Hc).
    destruct (step_blocked _ _ _ _ (Hblocked i pc Hi)) as [[Hn _]|[->|[->|[(n & bg & ->)|(o & ->)]]]]; try done. congruence. }
  assert (Hall : ∀ i pc, pcs s !! i = Some pc → pc = FAsleep ∨ pc = BAsleep ∨ ∃ o, pc = Done o).
  { intros i pc Hi. destruct (step_blocked _ _ _ _ (Hblocked i pc Hi)) as [[_ Hn]|[->|[->|[(n & bg & ->)|(o & ->)]]]]; eauto.
    - done.
    - destruct Hstuck. eexists. by eapply (progress_drop s i). }
  assert (Hzero : ∀ w : PC → nat, w FAsleep = 0 → w BAsleep = 0 → (∀ o, w (Done o) = 0) → total w (pcs s) = 0).
  { intros w H1 H2 H3. clear -Hall H1 H2 H3. revert Hall. induction (pcs s) as [|pc l IH]; intros Hall; [done|].
    change (w pc + total w l = 0). rewrite IH by (intros i pc' Hi; by apply (Hall (S i))).
    destruct (Hall 0 pc eq_refl) as [->|[->|[o ->]]]; rewrite ?H1, ?H2, ?H3; done. }
  assert (Hno : ∀ i, pcs s !! i ≠ Some FAsleep).
  { intros i Hi. pose proof (Hq i FAsleep Hi (or_intror eq_refl)) as Hn. rewrite (Hzero notifying), (Hzero permits) in * by done. lia. }
  intros i pc Hi. destruct (Hall i pc Hi) as [->|[->|Hdone]]; [by destruct (Hno i)| |done]. exfalso.
  assert (Hfg : total waiting_query (pcs s) = 0).
  { clear -Hall Hno. revert Hall Hno. induction (pcs s) as [|pc l IH]; intros Hall Hno; [done|].
    change (waiting_query pc + total waiting_query l = 0).
    rewrite IH by (intros j; first [intros pc' Hj; by apply (Hall (S j))|exact (Hno (S j))]).
    destruct (Hall 0 pc eq_refl) as [->|[->|[o ->]]]; [by destruct (Hno 0)|done..]. }
  pose proof (Hb i BAsleep Hi (or_intror eq_refl)) as Hn. rewrite (Hzero notifying), (Hzero permits) in * by done. lia.
Qed.

(** Two things send a request back.  A background holder that reaches a
    checkpoint while queries wait gives its permit up and enters again, and a
    sleeper may wake spuriously.  The first happens as often as the caller's
    work has checkpoints, the second as often as the platform lets it. *)
Inductive disturbance : State → State → Prop :=
| disturb_checkpoint s i count :
    pcs s !! i = Some (Holding count true) → 0 < foreground_waiters (shared s) →
    disturbance s {| shared := shared s; pcs := <[i := drop_permit count true Again]> (pcs s); cancelled := cancelled s |}
| disturb_spurious s i pc :
    pcs s !! i = Some pc → wake pc ≠ pc →
    disturbance s {| shared := shared s; pcs := <[i := wake pc]> (pcs s); cancelled := cancelled s |}.
(** A schedule without arrivals: [n] operations, drops and cancellations, with
    [d] disturbances among them, in any order. *)
Inductive schedule : nat → nat → State → State → Prop :=
| schedule_done s : schedule 0 0 s s
| schedule_progress n d s1 s2 s3 : progress s1 s2 → schedule n d s2 s3 → schedule (S n) d s1 s3
| schedule_disturbed n d s1 s2 s3 : disturbance s1 s2 → schedule n d s2 s3 → schedule n (S d) s1 s3.

(** Every step is a progress step, a disturbance or an arrival. *)
Lemma step_cases s s' :
  step s s' ↔ progress s s' ∨ disturbance s s' ∨
    ∃ pc, initial_pc pc = true ∧ s' = {| shared := shared s; pcs := pcs s ++ [pc]; cancelled := cancelled s |}.
Proof.
  split.
  - intros [? i pc ? ? ? Hi Hs|? i n bg Hi|? i n Hi Hw|? pc Hpc|? i Hi Hn|? i pc Hi Hw].
    + left. by eapply (progress_run _ i pc).
    + left. by eapply progress_drop.
    + right. left. by eapply disturb_checkpoint.
    + right. right. by exists pc.
    + left. by apply progress_cancel.
    + right. left. by apply disturb_spurious.
  - intros [Hp|[[? i n Hi Hw|? i pc Hi Hw]|(pc & Hpc & ->)]];
      [by apply progress_step|by eapply step_checkpoint|by apply step_spurious|by apply step_arrive].
Qed.
Lemma schedule_reachable capacity n d s s' : reachable capacity s → schedule n d s s' → reachable capacity s'.
Proof.
  intros Hr Hrun. unfold reachable in *. induction Hrun as [|n d s1 s2 s3 Hs _ IH|n d s1 s2 s3 Hs _ IH]; [done| |];
    apply IH; (eapply rtc_r; [exact Hr|]); apply step_cases; auto.
Qed.
(** A disturbance sends one request back, by less than a whole entry. *)
Definition setback (s : State) : nat := 17 + 6 * length (pcs s).
Lemma progress_length s s' : progress s s' → length (pcs s') = length (pcs s).
Proof.
  intros [? i pc ? ? notify _ _|? ? ? ? _|? ? _ _]; cbn [pcs]; rewrite ?length_insert; [|done..].
  destruct notify; [apply length_fmap|done].
Qed.
Lemma disturbance_length s s' : disturbance s s' → length (pcs s') = length (pcs s).
Proof. intros [? ? ? _ _|? ? ? _ _]; apply length_insert. Qed.
Lemma disturbance_fuel s s' : disturbance s s' → fuel s' ≤ fuel s + setback s.
Proof.
  intros [s0 i count Hi _|s0 i pc Hi Hw]; unfold fuel, uncancelled, setback; cbn [pcs cancelled]; rewrite length_insert.
  - pose proof (total_insert distance (pcs s0) i _ (drop_permit count true Again) Hi) as T1.
    pose proof (total_insert notifications (pcs s0) i _ (drop_permit count true Again) Hi) as T2.
    simpl in T1, T2. simpl. nia.
  - pose proof (total_insert distance (pcs s0) i _ (wake pc) Hi) as T1.
    pose proof (total_insert notifications (pcs s0) i _ (wake pc) Hi) as T2.
    assert (distance (wake pc) ≤ distance pc + 6 ∧ notifications (wake pc) = notifications pc) as [Hd Hn] by (destruct pc; simpl; lia). nia.
Qed.
Lemma schedule_bounded n d s s' : schedule n d s s' → n + fuel s' ≤ fuel s + d * setback s.
Proof.
  induction 1 as [s|n d s1 s2 s3 Hs _ IH|n d s1 s2 s3 Hs _ IH]; [lia| |].
  - pose proof (fuel_decreases _ _ Hs). pose proof (progress_length _ _ Hs) as Hl. unfold setback in *. rewrite Hl in IH. lia.
  - pose proof (disturbance_fuel _ _ Hs). pose proof (disturbance_length _ _ Hs) as Hl. unfold setback in *. rewrite Hl in IH. lia.
Qed.

(** C23: No wakeup is lost, and nobody waits for ever unless disturbed for
    ever.  From any reachable state, take any schedule of the requests already
    there: operations, drops of permits, cancellations, and [d] disturbances,
    which are the checkpoints at which background work re-enters and the
    spurious wakeups.  It has at most [fuel] operations, and [setback] more for
    each disturbance, so it ends if the disturbances do; and where no operation
    is left, every request has ended (a query with [Cancelled] only if it was
    cancelled) and the whole budget is free again.  A lost notification, a
    counter left too high or a mutex kept would leave a request asleep for
    ever.  Every step that is not an arrival is in a schedule ([step_cases]).
    Work that checkpoints without end can keep a woken query waiting:
    [checkpoints_overtake]. *)
Theorem every_request_ends processors s :
  reachable (thread_count processors) s →
  ∀ n d s', schedule n d s s' →
    n ≤ fuel s + d * setback s ∧
    ((¬ ∃ s'', progress s' s'') →
      (∀ i pc, pcs s' !! i = Some pc → ∃ o, pc = Done o ∧ (o = Cancelled → i ∈ cancelled s')) ∧
      shared s' = budget_new (thread_count processors)).
Proof.
  intros Hr n d s' Hrun. pose proof (schedule_bounded _ _ _ _ Hrun) as Hbound. split; [lia|]. intros Hstuck.
  pose proof (reachable_inv _ _ (schedule_reachable _ _ _ _ _ Hr Hrun)) as Hinv.
  pose proof (thread_count_bounds processors) as [Hcap _]. pose proof (stuck_done _ _ Hcap Hinv Hstuck) as Hdone. split.
  - intros i pc Hi. destruct (Hdone i pc Hi) as [o ->]. exists o. split; [done|]. intros ->.
    by apply (i_cancelled _ _ Hinv i _ Hi).
  - apply (idle_budget _ _ (pcs s')); [apply Hinv|apply Hinv|exact Hdone].
Qed.

(** Two processors give one permit: a query holds it, a second query and
    background work arrive, and all three are served. *)
Definition crowded : State :=
  {| shared := with_available 0 (budget_new 1); pcs := [Holding 1 false; FEnter; BLock]; cancelled := ∅ |}.
Lemma crowded_reachable : reachable (thread_count 2) crowded.
Proof.
  unfold reachable. eapply rtc_l; [by apply (step_arrive _ FEnter)|].
  eapply rtc_l; [by eapply (step_run _ 0 FEnter)|]. eapply rtc_l; [by eapply (step_run _ 0 FFast)|].
  eapply rtc_l; [by apply (step_arrive _ FEnter)|]. eapply rtc_l; [by apply (step_arrive _ BLock)|]. done.
Qed.
Lemma capacity_is_conserved_witness : available (shared crowded) + total permits (pcs crowded) = 1.
Proof. exact (proj1 (capacity_is_conserved (thread_count 2) crowded crowded_reachable)). Defined.
Lemma every_request_ends_witness :
  reachable (thread_count 2) crowded ∧ fuel crowded = 101 ∧ setback crowded = 35 ∧
  ∀ n d s', schedule n d crowded s' → n ≤ 101 + d * 35.
Proof.
  split; [exact crowded_reachable|]. split; [vm_compute; reflexivity|]. split; [reflexivity|].
  intros n d s' Hn. exact (proj1 (every_request_ends 2 crowded crowded_reachable n d s' Hn)).
Defined.

(** *** Checkpoints can overtake a woken query *)

(** Four processors give two permits.  Background work holds one, a query that
    had the other has ended, and a second query has been woken. *)
Definition overtaken : State :=
  {| shared := {| available := 1; foreground_waiters := 1; waiters := 1; background_active := 1; wake_lock := None |};
     pcs := [Holding 1 true; Done Served; FWoken]; cancelled := ∅ |}.
Ltac operate i := eapply schedule_progress; [eapply (progress_run _ i); [reflexivity|vm_compute; reflexivity]|]; simpl.
Ltac arrive pc := eapply rtc_l; [by apply (step_arrive _ pc)|]; simpl.
Ltac perform i := eapply rtc_l; [eapply (step_run _ i); [reflexivity|vm_compute; reflexivity]|]; simpl.
Lemma overtaken_reachable : reachable (thread_count 4) overtaken.
Proof.
  unfold reachable. arrive BLock. do 7 perform 0. arrive FEnter. do 2 perform 1. arrive FEnter. do 8 perform 2.
  eapply rtc_l; [by eapply (step_drop _ 1)|]; simpl. do 5 perform 1. done.
Qed.
(** The work reaches a checkpoint, gives its permit up, enters again before the
    woken query has the mutex and takes the permit, since two are available and
    no other background work runs; then everything is as before. *)
Lemma checkpoints_overtake : schedule 15 1 overtaken overtaken.
Proof.
  eapply schedule_disturbed; [by apply (disturb_checkpoint _ 0 1); [|simpl; lia]|]; simpl. do 15 operate 0. apply schedule_done.
Qed.
